(* ===== verification/_CoqProject ===== *)
-Q . S2P
Prelude.v
SeekSequence.v
PatchParser.v
Paths.v
FileSystem.v
PatchText.v
PatchFiles.v
PatchInvocation.v
CommandSafety.v
PowerShellSafety.v
Approval.v
PatchApproval.v
ExecEnv.v
PendingAnswers.v
History.v
Retention.v
HistoryCleanup.v
Truncation.v
UserMessage.v
Compaction.v
SessionMetrics.v
AutoHistory.v
AutoCompact.v
BTree.v
Accounts.v
AccountSwitching.v
MemoryCitations.v
EnvironmentContext.v
RequestInput.v
TurnQueue.v
TurnRecord.v
RunTurn.v
ReviewOutput.v
AgentLoop.v
ContextTimeline.v
ExecArgs.v
ExecProgram.v
ReviewLock.v
AutoDrive.v
AutoDecision.v
AutoCoordinator.v
AutoRetry.v
AutoRequest.v
AutoSystem.v
ParseCommand.v
DryRunGuard.v
CommandGuards.v
