(* ===== verification/Prelude.v ===== *)
(** * A verification library for Ecode

    Ecode is a coding agent for the terminal, a fork of the Codex command-line
    tool.  Its program is the Rust workspace [code-rs/]; [codex-rs/] is a mirror of
    the upstream project, and the other directories hold packaging, SDKs and
    wrappers.  This library models parts of [code-rs/] whose decisions matter (what
    a patch does to the user's files, which commands run without asking, which a
    policy accepts, what of a conversation is kept and sent, in which order messages
    become turns, what the model is told about its environment, how an unattended run
    advances) and proves what makes them correct.

    ** Parts and files

    - [Prelude] (this file): results, strings with the semantics of Rust's [str],
      sorting, record update, tactics and shared lemmas.
    - [SeekSequence]: [apply-patch/src/seek_sequence.rs], the search for a block of
      lines with four comparisons, from exact to up to whitespace and punctuation.
      Specification: [seek_spec].
    - [PatchParser]: [apply-patch/src/parser.rs], from a patch text to hunks, one
      definition per function; [render_patch] is the printer of the round trip.
    - [Paths], [FileSystem]: the parts of [std::path], [std::fs] and [std::io] that
      are used.  [FileSystem] and [Console] are classes, [FileSystemLaws] states
      what the program relies on, [MemFs] is an instance in memory.
    - [PatchText]: [apply-patch/src/lib.rs], [LineEnding] to [apply_replacements]:
      the new text of an updated file.  Specification: [patched].
    - [PatchFiles]: the same file, [apply_patch], [apply_hunks] and
      [apply_hunks_to_files]: the effect on the files.  Specification:
      [hunk_effect] on views, related to the code through [file_at].
    - [PatchInvocation]: the same file, how a command line is recognised as an
      invocation of [apply_patch], and the dry run that announces its changes.
    - [CommandSafety]: [core/src/bash.rs] and
      [core/src/command_safety/is_safe_command.rs], the commands of a script, from
      its syntax tree, and which commands are known to be safe.  Specifications:
      [script_commands] and [read_only_call].
    - [PowerShellSafety]: [core/src/command_safety/windows_safe_commands.rs], the
      same for PowerShell.  Specification: [harmless].
    - [Approval]: [core/src/safety.rs] and the session approvals of
      [core/src/codex/session.rs]: whether a command runs, in which sandbox, or asks.
    - [PatchApproval]: [assess_patch_safety] of the same file, the writable roots of
      [core/src/protocol.rs] and the writing of an approved patch in
      [core/src/apply_patch.rs].
    - [ParseCommand]: [core/src/parse_command.rs], the summaries of the commands of a
      command line.  Specifications: [thinned] and [settled], [git_call].
    - [DryRunGuard]: [core/src/dry_run_guard.rs], the guard that refuses formatters and
      fixers until a dry run of the tool was executed.  Specification:
      [last_disposition].
    - [CommandGuards]: [core/src/codex/streaming.rs], the guards in front of a command:
      patterns, commands of [git] that discard work, dry runs, changes of directory, shell
      and Python code that writes files, and patches outside the worktree of a branch.
      Specification: [git_words] over the [commands_of] a script.
    - [ExecEnv]: [core/src/exec_env.rs], the environment of a command.  Specification:
      [env_value].
    - [PendingAnswers]: the approvals, user answers and tools a session waits for
      ([core/src/codex/session.rs]), as one-shot channels.
    - [History]: [core/src/conversation_history.rs], the transcript and its items.
    - [Retention]: [core/src/retention.rs], the retention policy in both variants.
      Specification: [retained] and [within].
    - [HistoryCleanup]: [core/src/codex/session.rs], the older pruning and the cleaning
      of the transcript that chooses between them.  Specification: [kept_at].
    - [Truncation]: [core/src/truncate.rs] and the truncations of
      [core/src/codex/session.rs] and [core/src/codex/compact.rs].
    - [UserMessage]: the conversion of user input to a message and the texts of
      [core/src/codex/compact.rs] that recognise one.
    - [Compaction]: [core/src/codex/compact.rs] and [compact_remote.rs], the prompt, the
      retries and the history that replaces a compacted one.
    - [BTree]: the parts of [std::collections::BTreeMap] that are used, as an
      ordered association list, over the class [KeyOrder].
    - [EnvironmentContext]: [core/src/environment_context.rs], the snapshots of the
      environment, their differences and the tracker that decides what to send.
    - [ContextTimeline]: [core/src/context_timeline/timeline.rs], with the emission of
      context messages ([core/src/codex/session.rs]) and their replay from a
      recorded session ([core/src/codex/streaming.rs]).
    - [Accounts]: [core/src/auth_accounts.rs], the stored accounts, and their activation
      ([core/src/auth.rs]).  Specification: [key_of] and [wf_accounts].
    - [AccountSwitching]: [core/src/account_switching.rs], the account that takes over at a
      limit.  Specification: [selected].
    - [MemoryCitations]: [core/src/memories/citations.rs], citations cut out of messages.
    - [RunTurn]: [run_turn] and [try_run_turn] of [core/src/codex/streaming.rs], the
      requests of one turn, and the scratchpad of [core/src/codex/session.rs].
    - [RequestInput]: [turn_input_with_history] and the cleaning of a request's items in
      [core/src/client_common.rs], [core/src/codex/session.rs] and
      [core/src/codex/streaming.rs].
    - [TurnQueue]: the task and the queues of a session ([core/src/codex/session.rs])
      and the submissions that change them ([core/src/codex/streaming.rs]).
    - [TurnRecord]: what [run_agent] records of a turn, the pairing of calls with their
      outputs, and the guard of [core/src/codex/repeated_tool_cycle.rs].
    - [ReviewOutput]: [core/src/review_format.rs] and the review's parsing and exit.
    - [AgentLoop]: [run_agent] of [core/src/codex/streaming.rs], as a state machine over
      what happens while it waits.
    - [ExecArgs]: [execpolicy/src], argument types, matchers and the resolver of
      positional arguments.  Specification: [matches].
    - [ExecProgram]: [execpolicy/src], [ProgramSpec::check], [Policy::check], the
      policy builder, [ExecvChecker] and the tool's exit codes.  Specification:
      [reads] and [accepts].
    - [ReviewLock]: [core/src/review_coord.rs], the lock file that keeps reviews
      apart and the snapshot counter.
    - [AutoDrive]: [code-auto-drive-core/src/controller.rs], the controller of an
      unattended run: its phases, transitions, countdowns and restarts, and the
      timer of [tui/src/chatwidget.rs] that drives a countdown.
    - [SessionMetrics]: [code-auto-drive-core/src/session_metrics.rs], the tokens of an
      unattended run, the estimate of the next prompt and the warning about loops.
    - [AutoHistory]: [code-auto-drive-core/src/auto_drive_history.rs], the transcript of an
      unattended run, the estimate of its tokens and the slices that are compacted, with
      [rebuild_auto_history] of [tui/src/chatwidget.rs].
    - [AutoCompact]: [code-auto-drive-core/src/auto_compact.rs], and the threshold and
      [maybe_compact] of [auto_coordinator.rs]: when and how that transcript is compacted.
    - [AutoDecision]: [code-auto-drive-core/src/auto_coordinator.rs], the routing entries and
      how the model's answer is read, cleaned, checked and, when rejected, classified.
      Specification: [decision_wf].
    - [AutoCoordinator]: the same file, [run_auto_loop]: [step] is one iteration of the
      thread, [run] a sequence of them.  Specifications: the protocol [watch], the rules
      [output_ok] and the queue [inbox].
    - [AutoRetry]: [code-auto-drive-core/src/retry.rs], the retries with their waits, and of
      [auto_coordinator.rs] the time budget and the classification of errors.
      Specification: [tried] and [ended_by].
    - [AutoRequest]: [auto_coordinator.rs], the prompt and the stream of a request, its
      retries and fallback models, the reply to a user ([coordinator_user_schema.rs]); and
      [coordinator_router.rs].
    - [AutoSystem]: several controllers, as processes that start, crash and run in
      any order, sharing one review lock.

    How they interact: [apply_patch] parses a text ([PatchParser]), and for each
    update computes a new text ([PatchText], which locates each chunk with
    [SeekSequence]) and writes it ([PatchFiles]).  The dry run ([PatchInvocation])
    parses the same text, computes the same new texts and announces them; the patch
    is then assessed and, when approved, written by the agent itself
    ([PatchApproval]).  A command is assessed against the session's approvals and the
    lists of safe commands ([Approval], [CommandSafety]); on Windows
    [PowerShellSafety] decides.  Before that, [CommandGuards] may refuse it,
    or [DryRunGuard] from there, by the first of the summaries of [ParseCommand].  When a user message arrives the transcript
    ([History]) is cleaned ([HistoryCleanup]), by the retention policy ([Retention])
    when the new environment context is on; the messages that policy recognises are
    those that the tracker ([EnvironmentContext]) emits and the timeline
    ([ContextTimeline]) records.  A submission starts a task or waits ([TurnQueue]);
    the task's loop ([AgentLoop]) takes what waits, builds a request from the transcript
    ([RequestInput]), sends it as often as it must ([RunTurn], which may switch accounts,
    [AccountSwitching] over [Accounts], and cuts citations out, [MemoryCitations]) and
    records the answer ([TurnRecord]), until a turn leaves nothing
    to answer or the guard stops it; a review's loop ends in [ReviewOutput].  A history
    that grew too large is compacted ([Compaction], which truncates with [Truncation]
    and recognises messages with [UserMessage]).  The tools of a turn wait for the user
    through [PendingAnswers] and run with the environment of [ExecEnv].  The execution policy is a separate tool: a call is
    checked against the specifications of its program ([ExecProgram]), which match
    its positional arguments with [ExecArgs].  The Auto Drive controller takes the
    review lock ([ReviewLock]) when a review begins and drops it when it completes.  Its
    coordinator ([AutoCoordinator]) is sent the transcript ([AutoHistory]), compacts it
    ([AutoCompact], as the counters of [SessionMetrics] say), asks the model ([AutoRequest],
    as often as [AutoRetry] allows) and reads the decision ([AutoDecision]) that it sends to
    the controller.

    ** What the theorems show

    - Patches: printing and parsing are inverse, parsed hunks are well formed, parse
      errors point into the patch; the search returns the first match of the
      strictest comparison; an update without end-of-file chunks is a left-to-right
      patch, never panics, fails only when a chunk is nowhere to be found and keeps
      the line endings; [apply_patch] has exactly the effect of its hunks, leaves
      unnamed files alone, and on failure leaves the effect of a prefix; what the
      dry run announces is what is applied, by the agent as well, in every order of
      the changes.
    - Approval: exactly when a command runs without a sandbox, asks or is rejected,
      and a patch is applied without asking; the commands taken as safe are the
      listed read-only ones, scripts only when all of their commands are; an
      unattended patch stays inside the writable roots; an approval for the session
      changes the decision of that command only, while an approved prefix admits
      scripts that go on with other commands.  In an unconfirmed script of plain commands no
      [git] command that changes a branch or discards work goes on, a confirmed one goes on
      without its prefix, and a patch is let through exactly when its targets are in the
      worktree.  A formatter or fixer is executed only behind
      a dry run of its tool, and what the model is told to run first is such a dry run,
      except for the three tools of [GuardRuns].  A script is summarised command by command,
      in the reverse of the order that the comments announce, so the guard sees its last
      command only; what is shown as reading by [git] is exactly a subcommand that reads.
    - History: both variants of the retention policy agree and keep exactly the
      specified items within the byte budget; pruning keeps exactly the specified
      positions and the whole conversation, except that a message with an image
      counts as a screenshot.
    - Truncation and compaction: a truncated text is the original or a prefix and a
      suffix of it around a notice, within its budget, never inside a character; a
      compaction ends within its retries and the new history keeps the initial context,
      the recent user messages in order and within their budget, and the summary.
    - Requests: the items sent are those of the transcript in order, without the markers
      and images the model must not see; every output in a request of the loop has its
      call.
    - Requests of a turn: tools run only for a complete answer, so none runs twice; a
      repeated request is the first one with hints; a turn returns after a bounded number
      of attempts, apart from waits.
    - Accounts: a login keeps the store in order, an activation changes what it should
      and nothing else, the account that takes over is the best available one and no
      account takes over twice, as long as the callers name stored accounts, which they do
      not ([limit_spins]).
    - Turns: what is submitted while a task runs waits and is taken in order; the end of
      a task starts the next one; a message that waits is sent before the loop ends, a
      turn without calls ends it, and a repeated cycle of calls is stopped; an approval
      or an answer reaches the request that asked for it.  The lemmas named in the
      sections on runs show the cases where the code drops or repeats a message.
    - Environment context: a reader of the emissions knows what the tracker knows,
      differences can be applied exactly when no typed setting was cleared, the
      timeline stays well formed and only grows, a resumed session recovers the
      state from its messages, and the messages are recognised by the retention
      policy; in a running session no difference reaches the timeline.
    - Policies: the resolver and the program check are equivalent to their
      relational specifications, account for every argument and never panic; a
      matched call passes every prohibition; errors are those of the last
      specification; the execution checker confines files to the given folders.
    - Auto Drive: the life cycle ends in the documented phases and gives up the
      lock, a scheduled prompt is submitted once when its countdown ends and by no
      stale tick, restart delays are bounded and monotone, and reviews of several processes do not overlap as long
      as stale locks are cleared without interruption; a trace shows that
      interrupted clearing lets them overlap.  What the model sent and what the screen
      shows reaches the coordinator once and in order; a compaction keeps the goal and the
      newer part of the tokens.  The coordinator has at most one decision outstanding,
      numbers decisions in order, takes conversations in the order of their arrival,
      asks at most four times in a row, and sends only checked decisions, whatever the
      model answers; which rejected answers are asked for again is exact.  A request reads
      each text of its stream once, waits only within its time, and asks another model only
      when that has run out.

    ** Conventions

    A [str] is the list of its Unicode scalar values; its byte length is
    [str_len].  Fallible code returns [result]; code that acts on the outside
    world is a state-error function ([io]) that returns the state on failure too.
    A panic is a value ([None], or [Panics]) and a theorem excludes it.  [u64] and
    [u32] are [N] with the wrap-around or saturation written out, [usize] is 64 bits
    wide and overflows as in a release build.  A [HashMap] is a
    [gmap], keyed by components where the key is a path.  A name that would clash
    has a prefix; otherwise names are the source's.

    Fuel: a compaction consumes a list of the model's answers, and [compaction_terminates]
    bounds how many it needs by its retries; the coordinator consumes a list of rounds, one
    per iteration, and [asked_at_most_four] bounds its requests between two commands; a
    request consumes a list of attempts, and [retry_returns] bounds them by its time; the follow-up inputs of a task are at most
    those queued ([turn_end_starts_next]); a turn consumes a list of attempts, and
    [turn_returns] bounds them.  The two loops of the parser run on as much fuel as there are lines
    ([parse_hunks], [update_chunks]); every round takes at least one line, so the
    fuel never runs out ([parse_loops_terminate]).  Other recursion is
    structural, or its fuel is bounded where it is defined.

    Parameters, with what is assumed of them named where it is used: the file
    system and the output streams ([FileSystemLaws]), the Tree-sitter grammar and
    query, the word splitting of [shlex], serde's encoders and decoders ([Serde],
    [SerdeLaws], and the printers and parsers of [ContextTimeline]), the SHA-1 digest
    of fingerprints, the clock, the unified diff of [similar], the regular expressions of [regex_lite],
    [path_absolutize], file metadata, the [askama] template of a compacted history, the
    patterns of [wildmatch], the reading of image files and of hook outputs, the JSON
    texts of tool results, fingerprints, reviews and decisions (a decoder per schema), temporary files ([tempfile]), the
    syntax of UUIDs, the answers of the model and the tools, and the floating-point branches of
    [format_duration] (never reached from the controller: its delays are at most
    two minutes).

    ** Not modelled

    The Starlark interpreter that evaluates policy files (a policy is the sequence
    of built-in calls it makes), process spawning, sandboxing, network clients, the
    terminal interface, configuration files and the code that serde derives.
    [is_dangerous_command.rs] is not part of the module tree.  Of the rebuilding of a
    session only the environment context is modelled.  Of a task, the execution of its
    tools, the compaction before a turn of the user and the events sent to the client
    are not modelled.  Of the coordinator, the schema of a decision, the building of its settings
    from the configuration, and the counters of its log are not modelled.  A following
    development would take, in this order, the caches and readiness flags of [utils/] and
    the input state machines of the terminal interface. *)

(** ** This file

    A Rust [str] is modelled as its sequence of Unicode scalar values; the
    standard-library string operations the source uses are defined here with
    the semantics of the Rust standard library ([trim], [lines], [split],
    [strip_prefix], [parse::<u64>], ...).  Fallible code returns [result]. *)

From Stdlib Require Import Ascii.
From Stdlib Require Export Sorted Permutation.
From stdpp Require Export base list gmap strings pretty.

(** ** Results: [Result<A, E>] *)

Inductive result (E A : Type) : Type :=
| Ok (a : A)
| Err (e : E).
Arguments Ok {E A} a.
Arguments Err {E A} e.

#[export] Instance result_ret E : MRet (result E) := fun A a => Ok a.
#[export] Instance result_bind E : MBind (result E) :=
  fun A B k m => match m with Ok a => k a | Err e => Err e end.
#[export] Instance result_fmap E : FMap (result E) :=
  fun A B f m => match m with Ok a => Ok (f a) | Err e => Err e end.

#[export] Instance result_eq_dec E A `{EqDecision E, EqDecision A} :
  EqDecision (result E A).
Proof. solve_decision. Defined.

Definition is_ok {E A} (r : result E A) : bool :=
  match r with Ok _ => true | Err _ => false end.

Definition ok_or {E A} (o : option A) (e : E) : result E A :=
  match o with Some a => Ok a | None => Err e end.

Definition map_err {E F A} (f : E -> F) (r : result E A) : result F A :=
  match r with Ok a => Ok a | Err e => Err (f e) end.

(** ** Stateful fallible computations

    The state is returned on success and on failure: an operation that fails may
    have had effects. *)

Definition io (S E A : Type) : Type := S -> result E A * S.

#[export] Instance io_ret S E : MRet (io S E) := fun A a s => (Ok a, s).
#[export] Instance io_bind S E : MBind (io S E) := fun A B k m s =>
  match m s with
  | (Ok a, s') => k a s'
  | (Err e, s') => (Err e, s')
  end.

Definition io_fail {S E A} (e : E) : io S E A := fun s => (Err e, s).
Definition io_lift {S E A} (r : result E A) : io S E A := fun s => (r, s).
Definition io_map_err {S E F A} (f : E -> F) (m : io S E A) : io S F A :=
  fun s => let '(r, s') := m s in (map_err f r, s').

(** ** Strings *)

(** A [char] is a Unicode scalar value, a [str] the sequence of them. *)
Abbreviation char := N.
Abbreviation str := (list N).

(** ASCII literals of the source. *)
Definition lit (s : string) : str :=
  (fun a => N_of_ascii a) <$> String.list_ascii_of_string s.

Definition LF : char := 10%N.
Definition CR : char := 13%N.

Definition str_eqb (a b : str) : bool := bool_decide (a = b).

(** [slice.contains(&s)] *)
Definition str_mem (s : str) (l : list str) : bool := existsb (str_eqb s) l.

(** [char::is_whitespace]: the Unicode White_Space property. *)
Definition is_whitespace (c : char) : bool :=
  ((9 <=? c) && (c <=? 13) || (c =? 32) || (c =? 133) || (c =? 160)
   || (c =? 5760) || ((8192 <=? c) && (c <=? 8202)) || (c =? 8232)
   || (c =? 8233) || (c =? 8239) || (c =? 8287) || (c =? 12288))%N.

Definition is_ascii_digit (c : char) : bool := ((48 <=? c) && (c <=? 57))%N.

Definition ascii_lower (c : char) : char :=
  (if (65 <=? c) && (c <=? 90) then c + 32 else c)%N.

Definition to_ascii_lowercase (s : str) : str := ascii_lower <$> s.

Definition eq_ignore_ascii_case (a b : str) : bool :=
  str_eqb (to_ascii_lowercase a) (to_ascii_lowercase b).

Fixpoint drop_while {A} (p : A -> bool) (l : list A) : list A :=
  match l with
  | [] => []
  | x :: l' => if p x then drop_while p l' else l
  end.

Definition drop_while_end {A} (p : A -> bool) (l : list A) : list A :=
  reverse (drop_while p (reverse l)).

Definition trim_start : str -> str := drop_while is_whitespace.
Definition trim_end : str -> str := drop_while_end is_whitespace.
Definition trim (s : str) : str := trim_start (trim_end s).

(** [str::trim_matches(c)], [str::trim_end_matches(c)] for a [char]. *)
Definition trim_matches (c : char) (s : str) : str :=
  drop_while (N.eqb c) (drop_while_end (N.eqb c) s).
Definition trim_end_matches (c : char) (s : str) : str :=
  drop_while_end (N.eqb c) s.

Fixpoint strip_prefix (p s : str) : option str :=
  match p, s with
  | [], _ => Some s
  | _, [] => None
  | a :: p', b :: s' => if (a =? b)%N then strip_prefix p' s' else None
  end.

Definition starts_with (p s : str) : bool :=
  match strip_prefix p s with Some _ => true | None => false end.

Definition strip_suffix (p s : str) : option str :=
  reverse <$> strip_prefix (reverse p) (reverse s).

Definition ends_with (p s : str) : bool :=
  match strip_suffix p s with Some _ => true | None => false end.

(** [str::split(c)] for a [char]: never empty. *)
Fixpoint split_on (c : char) (s : str) : list str :=
  match s with
  | [] => [[]]
  | x :: s' =>
      if (x =? c)%N then [] :: split_on c s'
      else match split_on c s' with
           | [] => [[x]]
           | w :: ws => (x :: w) :: ws
           end
  end.

(** [str::split_once(c)]. *)
Fixpoint split_once (c : char) (s : str) : option (str * str) :=
  match s with
  | [] => None
  | x :: s' =>
      if (x =? c)%N then Some ([], s')
      else match split_once c s' with
           | Some (a, b) => Some (x :: a, b)
           | None => None
           end
  end.

(** [slice.join(sep)]. *)
Fixpoint join (sep : str) (l : list str) : str :=
  match l with
  | [] => []
  | [x] => x
  | x :: l' => x ++ sep ++ join sep l'
  end.

Definition strip_cr (s : str) : str := default s (strip_suffix [CR] s).

(** [str::lines]: pieces ended by LF or CRLF; a last piece with no LF is kept
    as it is, and dropped when it is empty. *)
Fixpoint lines_of_pieces (l : list str) : list str :=
  match l with
  | [] => []
  | [last] => if str_eqb last [] then [] else [last]
  | p :: l' => strip_cr p :: lines_of_pieces l'
  end.

Definition str_lines (s : str) : list str := lines_of_pieces (split_on LF s).

(** [str::len]: the length of the UTF-8 encoding. *)
Definition char_len (c : char) : nat :=
  (if (c <? 128)%N then 1 else if (c <? 2048)%N then 2
   else if (c <? 65536)%N then 3 else 4).

Definition str_len (s : str) : nat := sum_list (char_len <$> s).

(** [str::contains(p)]. *)
Fixpoint str_contains (p s : str) : bool :=
  starts_with p s || match s with [] => false | _ :: s' => str_contains p s' end.

(** [str::parse::<u64>]: an optional [+], then at least one digit, no overflow. *)
Definition digits_value (s : str) : N :=
  fold_left (fun acc c => 10 * acc + (c - 48))%N s 0%N.

Definition parse_u64 (s : str) : option N :=
  let ds := match s with 43%N :: s' => s' | _ => s end in
  match ds with
  | [] => None
  | _ =>
      if forallb is_ascii_digit ds && (digits_value ds <? 2 ^ 64)%N
      then Some (digits_value ds) else None
  end.

(** [to_string] of an unsigned integer. *)
Definition show_N (n : N) : str := lit (pretty n).
Definition show_nat (n : nat) : str := show_N (N.of_nat n).

(** The order of Rust strings (UTF-8 preserves the order of scalar values). *)
Fixpoint str_leb (a b : str) : bool :=
  match a, b with
  | [], _ => true
  | _ :: _, [] => false
  | x :: a', y :: b' => if (x =? y)%N then str_leb a' b' else (x <? y)%N
  end.

(** [slice.sort] on strings: a stable insertion sort gives the same list. *)
Fixpoint insert_by {A} (leb : A -> A -> bool) (x : A) (l : list A) : list A :=
  match l with
  | [] => [x]
  | y :: l' => if leb x y then x :: l else y :: insert_by leb x l'
  end.

Definition sort_by {A} (leb : A -> A -> bool) (l : list A) : list A :=
  foldr (insert_by leb) [] l.

(** Unsigned machine integers as [N]: the arithmetic that the program uses on them. *)
Definition u64_max : N := 2 ^ 64 - 1.
Definition wrapping_add64 (a b : N) : N := (a + b) mod 2 ^ 64.
Definition wrapping_sub64 (a b : N) : N := (a + (2 ^ 64 - b mod 2 ^ 64)) mod 2 ^ 64.
Definition saturating_add64 (a b : N) : N := N.min (a + b) u64_max.
Definition saturating_add32 (a b : N) : N := N.min (a + b) (2 ^ 32 - 1).

(** [iter().position(p)]: the index of the first element that satisfies a test. *)
Fixpoint position {A} (p : A -> bool) (l : list A) : option nat :=
  match l with
  | [] => None
  | x :: l => if p x then Some 0 else S <$> position p l
  end.

(** The last element of a list satisfies a test. *)
Definition last_is_empty (l : list str) : bool :=
  match last l with Some [] => true | _ => false end.

(** ** Record update

    [r <| f := v |>]: the fields of a record type are listed once, as its
    eta-expansion ([Fields]); the update of a field abstracts it in the expansion. *)

Class Fields (R : Type) := eta_expand : R -> R.
Class Update {R T : Type} (proj : R -> T) := update : (T -> T) -> R -> R.
Arguments update {R T} proj {_} f r.

Ltac solve_update :=
  match goal with
  | |- @Update ?R ?T ?proj =>
      let inst := constr:(_ : Fields R) in
      let inst := eval red in inst in
      match eval pattern proj in inst with
      | ?body _ => exact (fun (f : T -> T) (r : R) => body (fun r' => f (proj r')) r)
      end
  end.

#[export] Hint Extern 1 (Update _) => solve_update : typeclass_instances.

Declare Scope record_scope.
Notation "r <| f := v |>" := (update f (fun _ => v) r)
  (at level 12, f at next level, left associativity, format "r  <| f  :=  v |>")
  : record_scope.

(** ** Tactics *)

(** Case analysis on every [match]/[if] of the goal, closing what computes. *)
Ltac cases :=
  repeat (case_match; simplify_eq/=; try done).

(** Destructs a conjunction of boolean facts into propositions. *)
Ltac bool_solve :=
  repeat match goal with
  | H : _ && _ = true |- _ => apply andb_true_iff in H; destruct H
  | H : _ || _ = false |- _ => apply orb_false_iff in H; destruct H
  | H : negb _ = true |- _ => apply negb_true_iff in H
  | H : negb _ = false |- _ => apply negb_false_iff in H
  | H : bool_decide _ = true |- _ => apply bool_decide_eq_true in H
  | H : bool_decide _ = false |- _ => apply bool_decide_eq_false in H
  | H : (_ =? _)%nat = true |- _ => apply Nat.eqb_eq in H
  | H : (_ =? _)%nat = false |- _ => apply Nat.eqb_neq in H
  | H : (_ <=? _)%nat = true |- _ => apply Nat.leb_le in H
  | H : (_ <=? _)%nat = false |- _ => apply Nat.leb_gt in H
  | H : (_ <? _)%nat = true |- _ => apply Nat.ltb_lt in H
  | H : (_ <? _)%nat = false |- _ => apply Nat.ltb_ge in H
  | H : (_ =? _)%N = true |- _ => apply N.eqb_eq in H
  | H : (_ =? _)%N = false |- _ => apply N.eqb_neq in H
  | H : (_ <=? _)%N = true |- _ => apply N.leb_le in H
  | H : (_ <=? _)%N = false |- _ => apply N.leb_gt in H
  | H : (_ <? _)%N = true |- _ => apply N.ltb_lt in H
  | H : (_ <? _)%N = false |- _ => apply N.ltb_ge in H
  end.

Create HintDb s2p discriminated.

(** ** Results *)

Lemma result_bind_Ok {E A B} (m : result E A) (k : A -> result E B) b :
  (m ≫= k) = Ok b <-> exists a, m = Ok a /\ k a = Ok b.
Proof. destruct m; naive_solver. Qed.

Lemma result_bind_Err {E A B} (m : result E A) (k : A -> result E B) e :
  (m ≫= k) = Err e <-> m = Err e \/ exists a, m = Ok a /\ k a = Err e.
Proof. destruct m; naive_solver. Qed.

Lemma is_ok_Ok {E A} (r : result E A) : is_ok r = true <-> exists a, r = Ok a.
Proof. destruct r; naive_solver. Qed.

Lemma io_bind_run {S E A B} (m : io S E A) (k : A -> io S E B) s r :
  (m ≫= k) s = r <->
  (exists a s', m s = (Ok a, s') /\ k a s' = r) \/
  (exists e s', m s = (Err e, s') /\ r = (Err e, s')).
Proof.
  unfold mbind, io_bind. destruct (m s) as [[a|e] s'].
  - split; [eauto|]. by intros [(? & ? & [= <- <-] & ?)|(? & ? & ? & ?)].
  - split; [eauto|]. by intros [(? & ? & ? & ?)|(? & ? & [= <- <-] & ->)].
Qed.

Lemma io_bind_Ok {S E A B} (m : io S E A) (k : A -> io S E B) s b s' :
  (m ≫= k) s = (Ok b, s') <-> exists a s1, m s = (Ok a, s1) /\ k a s1 = (Ok b, s').
Proof. unfold mbind, io_bind. destruct (m s) as [[]]; naive_solver. Qed.

Lemma io_bind_Err {S E A B} (m : io S E A) (k : A -> io S E B) s e s' :
  (m ≫= k) s = (Err e, s') <->
  m s = (Err e, s') \/ exists a s1, m s = (Ok a, s1) /\ k a s1 = (Err e, s').
Proof. unfold mbind, io_bind. destruct (m s) as [[]]; naive_solver. Qed.

Lemma is_Some_proj_eq {A} (o : option A) (H : is_Some o) x :
  o = Some x -> is_Some_proj H = x.
Proof. by intros ->. Qed.

(** ** Positions *)

Lemma position_spec {A} (p : A -> bool) l i : position p l = Some i <->
  exists before x after, l = before ++ x :: after /\ length before = i /\ p x = true /\
    Forall (fun y => p y = false) before.
Proof.
  split.
  - revert i. induction l as [|x l IH]; intros i H; cbn [position] in H; [done|].
    destruct (p x) eqn:E.
    + injection H as <-. by exists [], x, l.
    + apply fmap_Some in H as (j & Hj & ->).
      destruct (IH j Hj) as (before & y & after & -> & Hl & Hy & Hb).
      exists (x :: before), y, after. cbn. rewrite Hl. by repeat constructor.
  - intros (before & x & after & -> & <- & Hx & Hb).
    induction Hb as [|y before Hy Hb IH]; cbn [app position length]; [by rewrite Hx|].
    by rewrite Hy, IH.
Qed.

Lemma position_Some {A} (p : A -> bool) l i :
  position p l = Some i -> exists x, l !! i = Some x /\ p x = true.
Proof.
  intros (before & x & after & -> & <- & Hx & _)%position_spec.
  exists x. by rewrite list_lookup_middle.
Qed.

Lemma position_None {A} (p : A -> bool) l :
  position p l = None <-> forall x, x ∈ l -> p x = false.
Proof.
  rewrite <- (Forall_forall (fun y => p y = false)).
  induction l as [|x l IH]; cbn [position]; [done|].
  rewrite Forall_cons. destruct (p x); [by split; [|intros []]|].
  rewrite fmap_None, IH. naive_solver.
Qed.

(** ** Equality and prefixes of strings *)

Lemma str_eqb_eq a b : str_eqb a b = true <-> a = b.
Proof. apply bool_decide_eq_true. Qed.

Lemma str_eqb_neq a b : str_eqb a b = false <-> a <> b.
Proof. apply bool_decide_eq_false. Qed.

Lemma str_eqb_refl a : str_eqb a a = true.
Proof. by apply str_eqb_eq. Qed.

Lemma str_mem_elem s l : str_mem s l = true <-> s ∈ l.
Proof.
  unfold str_mem. rewrite existsb_exists. split.
  - intros (x & Hx & ->%str_eqb_eq). by apply list_elem_of_In.
  - intros H. exists s. split; [by apply list_elem_of_In | apply str_eqb_refl].
Qed.

Lemma strip_prefix_app p s : strip_prefix p (p ++ s) = Some s.
Proof. induction p as [|c p IH]; [done|]. simpl. by rewrite N.eqb_refl. Qed.

Lemma strip_prefix_Some p s r : strip_prefix p s = Some r <-> s = p ++ r.
Proof.
  split; [|intros ->; apply strip_prefix_app].
  revert s. induction p as [|c p IH]; intros [|d s] H; simplify_eq/=; try done.
  destruct (N.eqb_spec c d) as [->|]; [|done]. f_equal. by apply IH.
Qed.

Lemma starts_with_spec p s : starts_with p s = true <-> exists r, s = p ++ r.
Proof.
  unfold starts_with. destruct (strip_prefix p s) as [r|] eqn:E.
  - apply strip_prefix_Some in E. naive_solver.
  - split; [done|]. intros [r ->]. by rewrite strip_prefix_app in E.
Qed.

Lemma starts_with_app p s : starts_with p (p ++ s) = true.
Proof. apply starts_with_spec. by exists s. Qed.

Lemma strip_suffix_Some p s r : strip_suffix p s = Some r <-> s = r ++ p.
Proof.
  unfold strip_suffix. split.
  - intros H.
    apply fmap_Some in H as (x & E%strip_prefix_Some & ->).
    apply (f_equal reverse) in E. rewrite reverse_app, !reverse_involutive in E.
    done.
  - intros ->. rewrite reverse_app, strip_prefix_app. simpl.
    by rewrite reverse_involutive.
Qed.

Lemma strip_suffix_None p s : strip_suffix p s = None <-> forall r, s <> r ++ p.
Proof.
  destruct (strip_suffix p s) as [r|] eqn:E.
  - apply strip_suffix_Some in E. naive_solver.
  - split; [|done]. intros _ r Hr%strip_suffix_Some. congruence.
Qed.

(** ** Splitting and joining *)

Lemma split_on_ne c s : split_on c s <> [].
Proof. destruct s; simpl; repeat case_match; done. Qed.

Lemma split_on_cons c x s :
  split_on c (x :: s) =
  if (x =? c)%N then [] :: split_on c s
  else match split_on c s with [] => [[x]] | w :: ws => (x :: w) :: ws end.
Proof. done. Qed.

Lemma split_on_app c w s :
  c ∉ w -> split_on c (w ++ c :: s) = w :: split_on c s.
Proof.
  induction w as [|x w IH]; simpl; intros H.
  - by rewrite N.eqb_refl.
  - apply not_elem_of_cons in H as [H1 H2].
    destruct (N.eqb_spec x c); [congruence|]. by rewrite IH.
Qed.

Lemma split_on_notin c w : c ∉ w -> split_on c w = [w].
Proof.
  induction w as [|x w IH]; simpl; intros H; [done|].
  apply not_elem_of_cons in H as [H1 H2].
  destruct (N.eqb_spec x c); [congruence|]. by rewrite IH.
Qed.

Lemma join_cons sep x l : l <> [] -> join sep (x :: l) = x ++ sep ++ join sep l.
Proof. by destruct l. Qed.

Lemma split_join c l :
  l <> [] -> Forall (fun w => (c ∉ w)) l -> split_on c (join [c] l) = l.
Proof.
  induction l as [|w l IH]; [done|]. intros _ [Hw Hl]%Forall_cons.
  destruct l as [|w' l]; [by apply split_on_notin|].
  rewrite join_cons by done. change ([c] ++ ?x) with (c :: x).
  rewrite split_on_app by done. by rewrite IH.
Qed.

Lemma join_split c s : join [c] (split_on c s) = s.
Proof.
  induction s as [|x s IH]; [done|]. simpl.
  destruct (N.eqb_spec x c) as [->|].
  - destruct (split_on c s) eqn:E; [by apply split_on_ne in E|]. simpl in *.
    by rewrite IH.
  - destruct (split_on c s) as [|w ws] eqn:E; [by apply split_on_ne in E|].
    destruct ws; simpl in *; by rewrite IH.
Qed.

Lemma split_on_clean c s : Forall (fun w => (c ∉ w)) (split_on c s).
Proof.
  induction s as [|x s IH]; simpl.
  - repeat constructor. apply not_elem_of_nil.
  - destruct (N.eqb_spec x c); [constructor; [apply not_elem_of_nil|done]|].
    destruct (split_on c s) as [|w ws]; inversion IH; subst.
    + constructor; [|done]. set_solver.
    + constructor; [|done]. set_solver.
Qed.

Lemma split_once_Some c s a b :
  split_once c s = Some (a, b) <-> s = a ++ c :: b /\ c ∉ a.
Proof.
  split.
  - revert a. induction s as [|x s IH]; intros a H; simplify_eq/=.
    destruct (N.eqb_spec x c) as [->|Hx]; simplify_eq.
    { split; [done|]. apply not_elem_of_nil. }
    destruct (split_once c s) as [[a' b']|]; simplify_eq.
    destruct (IH a' eq_refl) as [-> Ha]. split; [done|]. set_solver.
  - intros [-> Ha]. induction a as [|x a IH]; simpl; [by rewrite N.eqb_refl|].
    apply not_elem_of_cons in Ha as [Hx Ha].
    destruct (N.eqb_spec x c); [congruence|]. by rewrite IH.
Qed.

(** A line of text: no LF in it and no CR at its end. *)
Definition clean_line (s : str) : Prop := (LF ∉ s) ∧ (strip_suffix [CR] s = None).

#[export] Instance clean_line_dec s : Decision (clean_line s).
Proof. unfold clean_line. apply _. Defined.

Lemma strip_cr_clean s : strip_suffix [CR] s = None -> strip_cr s = s.
Proof. unfold strip_cr. by intros ->. Qed.

Lemma lines_of_pieces_clean l :
  Forall clean_line l -> last l <> Some [] -> lines_of_pieces l = l.
Proof.
  induction l as [|w l IH]; [done|]. intros [[H1 H2] Hl]%Forall_cons Hlast.
  destruct l as [|w' l].
  - simpl. destruct (str_eqb w []) eqn:E; [|done]. apply str_eqb_eq in E. by subst.
  - change (strip_cr w :: lines_of_pieces (w' :: l) = w :: w' :: l).
    rewrite strip_cr_clean, IH; done.
Qed.

(** [lines] undoes joining clean lines with LF. *)
Lemma str_lines_join l :
  Forall clean_line l -> last l <> Some [] -> l <> [] ->
  str_lines (join [LF] l) = l.
Proof.
  intros Hl Hlast Hne. unfold str_lines. rewrite split_join; [|done|].
  - by apply lines_of_pieces_clean.
  - eapply Forall_impl; [done|]. by intros x [? ?].
Qed.

(** ** Trimming *)

Lemma drop_while_length {A} (p : A -> bool) l : length (drop_while p l) <= length l.
Proof.
  induction l as [|x l IH]; [done|]. cbn [drop_while length].
  destruct (p x); [|done]. lia.
Qed.

Lemma drop_while_id {A} (p : A -> bool) l :
  drop_while p l = l <-> forall x, head l = Some x -> p x = false.
Proof.
  destruct l as [|x l]; simpl; [done|].
  destruct (p x) eqn:E; [|split; [intros _ y [= <-]|]; done].
  split; [|intros H; specialize (H x eq_refl); congruence].
  intros H. exfalso. apply (f_equal length) in H. simpl in H.
  pose proof (drop_while_length p l). lia.
Qed.

Lemma drop_while_head {A} (p : A -> bool) l x :
  head (drop_while p l) = Some x -> p x = false.
Proof. 
  induction l as [|y l IH]; simpl; [done|]. destruct (p y) eqn:?; [done|].
  by intros [= <-].
Qed.

Lemma drop_while_idemp {A} (p : A -> bool) l :
  drop_while p (drop_while p l) = drop_while p l.
Proof. apply drop_while_id. intros x. apply drop_while_head. Qed.

Lemma head_reverse {A} (l : list A) : head (reverse l) = last l.
Proof.
  destruct l as [|x l _] using rev_ind; [done|].
  by rewrite reverse_snoc, last_snoc.
Qed.

Lemma drop_while_end_id {A} (p : A -> bool) l :
  drop_while_end p l = l <-> forall x, last l = Some x -> p x = false.
Proof.
  unfold drop_while_end. rewrite <- head_reverse, <- drop_while_id. split.
  - intros H. apply (f_equal reverse) in H. by rewrite reverse_involutive in H.
  - intros ->. apply reverse_involutive.
Qed.

Lemma drop_while_end_last {A} (p : A -> bool) l x :
  last (drop_while_end p l) = Some x -> p x = false.
Proof.
  unfold drop_while_end. rewrite <- head_reverse, reverse_involutive.
  apply drop_while_head.
Qed.

Lemma drop_while_suffix {A} (p : A -> bool) l : exists k, l = k ++ drop_while p l.
Proof.
  induction l as [|x l [k IH]]; simpl; [by exists []|].
  destruct (p x); [|by exists []]. exists (x :: k). simpl. by f_equal.
Qed.

Lemma drop_while_end_prefix {A} (p : A -> bool) l :
  exists k, l = drop_while_end p l ++ k.
Proof.
  destruct (drop_while_suffix p (reverse l)) as [k Hk].
  exists (reverse k). unfold drop_while_end. rewrite <- reverse_app, <- Hk.
  by rewrite reverse_involutive.
Qed.

Lemma drop_while_end_cons {A} (p : A -> bool) x l :
  p x = false -> drop_while_end p (x :: l) = x :: drop_while_end p l.
Proof.
  intros Hx. unfold drop_while_end. rewrite reverse_cons.
  induction (reverse l) as [|y l' IH]; simpl; [by rewrite Hx|].
  destruct (p y); [done|].
  by rewrite app_comm_cons, reverse_snoc.
Qed.

Lemma trim_cons c s : is_whitespace c = false -> trim (c :: s) = c :: trim_end s.
Proof.
  intros Hc. unfold trim, trim_end. rewrite drop_while_end_cons by done.
  unfold trim_start. simpl. by rewrite Hc.
Qed.

Lemma trim_end_app a p : p <> [] -> trim_end p = p -> trim_end (a ++ p) = a ++ p.
Proof.
  intros Hne Hp. apply drop_while_end_id. intros x Hx.
  apply (proj1 (drop_while_end_id is_whitespace p) Hp).
  destruct p as [|y p _] using rev_ind; [done|].
  rewrite app_assoc, last_snoc in Hx. by rewrite last_snoc.
Qed.

(** A text that neither starts nor ends with whitespace. *)
Lemma trim_id c s : is_whitespace c = false -> trim_end s = s -> trim (c :: s) = c :: s.
Proof. intros Hc Hs. by rewrite trim_cons, Hs. Qed.

Lemma trim_last s x : last (trim s) = Some x -> is_whitespace x = false.
Proof.
  unfold trim, trim_start. intros Hx.
  apply (drop_while_end_last is_whitespace s). fold (trim_end s).
  destruct (drop_while_suffix is_whitespace (trim_end s)) as [k Hk]. rewrite Hk.
  destruct (drop_while is_whitespace (trim_end s)) as [|y l _] using rev_ind; [done|].
  rewrite app_assoc, last_snoc. by rewrite last_snoc in Hx.
Qed.

(** ** Sorting *)

(** Sorting leaves a sorted list alone, and always gives a sorted permutation. *)
Section sort.
Context {A : Type} (leb : A -> A -> bool).

Lemma sort_by_sorted_id l :
  StronglySorted (fun x y => leb x y = true) l -> sort_by leb l = l.
Proof.
  induction 1 as [|x l Hs IH Hx]; [done|]. unfold sort_by in *. simpl. rewrite IH.
  destruct l as [|y l]; [done|]. apply Forall_cons in Hx as [Hy _]. simpl.
  by rewrite Hy.
Qed.

Lemma insert_by_perm x l : Permutation (insert_by leb x l) (x :: l).
Proof.
  induction l as [|y l IH]; simpl; [done|]. destruct (leb x y); [done|].
  rewrite IH. apply Permutation_swap.
Qed.

Lemma sort_by_perm l : Permutation (sort_by leb l) l.
Proof.
  induction l as [|x l IH]; [done|]. unfold sort_by in *. simpl.
  rewrite insert_by_perm. by constructor.
Qed.

Hypothesis leb_total : forall x y, leb x y = false -> leb y x = true.
Hypothesis leb_trans : forall x y z, leb x y = true -> leb y z = true -> leb x z = true.

Lemma insert_by_sorted x l :
  StronglySorted (fun x y => leb x y = true) l ->
  StronglySorted (fun x y => leb x y = true) (insert_by leb x l).
Proof.
  induction 1 as [|y l Hs IH Hy]; simpl; [by repeat constructor|].
  destruct (leb x y) eqn:E.
  - constructor; [by constructor|]. constructor; [done|].
    eapply Forall_impl; [done|]. intros z Hz. simpl in *. eauto.
  - constructor; [done|]. rewrite insert_by_perm. constructor; [|done]. auto.
Qed.

Lemma sort_by_sorted l : StronglySorted (fun x y => leb x y = true) (sort_by leb l).
Proof.
  induction l as [|x l IH]; [constructor|]. by apply insert_by_sorted.
Qed.

(** A list in strict order is what sorting makes of each of its permutations. *)
Lemma sorted_unique (R : A -> A -> Prop) l k :
  (forall x y, R x y -> leb y x = false) -> StronglySorted R l ->
  StronglySorted (fun x y => leb x y = true) k -> Permutation k l -> k = l.
Proof.
  intros HR Hl. revert k. induction Hl as [|x l Hl IH Hx]; intros k Hk Hp.
  - by apply Permutation_nil_r in Hp.
  - destruct k as [|y k]; [by apply Permutation_nil_l in Hp|].
    apply StronglySorted_inv in Hk as [Hk Hy]. rewrite Forall_forall in Hx, Hy.
    assert (y = x) as ->.
    { assert (Hyl : y ∈ x :: l) by (rewrite <- Hp; by left).
      assert (Hxk : x ∈ y :: k) by (rewrite Hp; by left).
      apply elem_of_cons in Hyl as [->|Hyl]; [done|].
      apply elem_of_cons in Hxk as [->|Hxk]; [done|].
      apply Hx, HR in Hyl. apply Hy in Hxk. congruence. }
    f_equal. apply IH; [done|]. by apply Permutation_cons_inv in Hp.
Qed.

Lemma sort_by_unique (R : A -> A -> Prop) l k :
  (forall x y, R x y -> leb y x = false) -> StronglySorted R l -> Permutation k l ->
  sort_by leb k = l.
Proof.
  intros HR Hl Hp. apply (sorted_unique R); [done..|apply sort_by_sorted|].
  by rewrite sort_by_perm.
Qed.
End sort.

(** What holds of a list holds of its sublists. *)
Lemma forall_sublist {A} (P : A -> Prop) l k : sublist l k -> Forall P k -> Forall P l.
Proof. intros H. rewrite !Forall_forall. eauto using elem_of_sublist. Qed.

Lemma strongly_sorted_sublist {A} (R : A -> A -> Prop) l k :
  sublist l k -> StronglySorted R k -> StronglySorted R l.
Proof.
  induction 1 as [|x l k H IH|x l k H IH]; intros Hk; [constructor| |].
  - apply StronglySorted_inv in Hk as [Hk Hx]. constructor; [by apply IH|].
    by eapply forall_sublist.
  - apply IH. by apply StronglySorted_inv in Hk as [Hk _].
Qed.

(** [forallb] does not depend on the order. *)
Lemma forallb_perm {A} (f : A -> bool) l k : Permutation l k -> forallb f l = forallb f k.
Proof.
  induction 1 as [| |x y l|]; simpl; [done|congruence|by destruct (f x), (f y)|congruence].
Qed.

Lemma existsb_false {A} (f : A -> bool) l :
  existsb f l = false <-> Forall (fun x => f x = false) l.
Proof.
  induction l as [|x l IH]; simpl; [done|]. by rewrite orb_false_iff, Forall_cons, IH.
Qed.

Lemma str_mem_false s l : str_mem s l = false <-> s ∉ l.
Proof. rewrite <- str_mem_elem. by destruct (str_mem s l). Qed.

#[global] Arguments strip_prefix : simpl never.
#[global] Arguments starts_with : simpl never.
#[global] Arguments lit : simpl never.
#[global] Arguments trim : simpl never.
#[global] Arguments split_on : simpl never.
#[global] Arguments str_eqb : simpl never.
