(* ===== verification/SeekSequence.v ===== *)
(** * Locating context lines of a patch

    [code-rs/apply-patch/src/seek_sequence.rs]: [seek_sequence] looks for a
    block of lines in a file in four passes of decreasing strictness (equal,
    equal up to trailing whitespace, up to surrounding whitespace, up to Unicode
    punctuation).  The specification [seek_spec] says which index each call
    returns: the first one of the strictest pass that has any. *)

From S2P Require Import Prelude.

(** ** The code *)

(** The character map of the inner function [normalise]. *)
Definition normalise_char (c : char) : char :=
  if existsb (N.eqb c) [8208; 8209; 8210; 8211; 8212; 8213; 8722]%N then 45%N
  else if existsb (N.eqb c) [8216; 8217; 8218; 8219]%N then 39%N
  else if existsb (N.eqb c) [8220; 8221; 8222; 8223]%N then 34%N
  else if existsb (N.eqb c)
            [160; 8194; 8195; 8196; 8197; 8198; 8199; 8200; 8201; 8202;
             8239; 8287; 12288]%N then 32%N
  else c.

Definition normalise (s : str) : str := normalise_char <$> trim s.

(** The body of a pass at index [i]: compares [pattern] with the lines from
    [i] on under the pass's [key].  [None] would be an index out of bounds,
    which [seek_window_in_bounds] excludes for the indices the passes visit. *)
Fixpoint window_matches (key : str -> str) (lines pattern : list str) (i : nat)
  : bool :=
  match pattern with
  | [] => true
  | pat :: rest =>
      match lines !! i with
      | Some line => str_eqb (key line) (key pat)
                     && window_matches key lines rest (S i)
      | None => false
      end
  end.

(** [for i in lo..=hi { if ok(i) { return Some(i) } }]; [n] counts what is
    left of the range. *)
Fixpoint find_from (ok : nat -> bool) (lo n : nat) : option nat :=
  match n with
  | O => None
  | S n' => if ok lo then Some lo else find_from ok (S lo) n'
  end.

Definition find_range (ok : nat -> bool) (lo hi : nat) : option nat :=
  find_from ok lo (S hi - lo).

(** One of the four search loops. *)
Definition seek_pass (lines pattern : list str) (search_start : nat)
  (key : str -> str) : option nat :=
  find_range (window_matches key lines pattern) search_start
             (length lines - length pattern).

Definition seek_sequence (lines pattern : list str) (start : nat) (eof : bool)
  : option nat :=
  match pattern with
  | [] => Some start
  | _ =>
      if length lines <? length pattern then None
      else
        let search_start :=
          if eof && (length pattern <=? length lines)
          then length lines - length pattern else start in
        let pass := seek_pass lines pattern search_start in
        match pass id with
        | Some i => Some i
        | None =>
            match pass trim_end with
            | Some i => Some i
            | None =>
                match pass trim with
                | Some i => Some i
                | None => pass normalise
                end
            end
        end
  end.

(** ** Specification *)

(** The loosest comparison: surrounding whitespace is ignored; the dashes U+2010 to U+2015 and
    the minus sign stand for [-], typographic quotes for plain ones, and the non-breaking, wide
    and narrow spaces for a blank. *)
Definition plain_char (c : char) : char :=
  if ((8208 <=? c) && (c <=? 8213) || (c =? 8722))%N then 45%N
  else if ((8216 <=? c) && (c <=? 8219))%N then 39%N
  else if ((8220 <=? c) && (c <=? 8223))%N then 34%N
  else if ((c =? 160) || (8194 <=? c) && (c <=? 8202) || (c =? 8239) || (c =? 8287) || (c =? 12288))%N
  then 32%N
  else c.

Definition unified (s : str) : str := plain_char <$> trim s.

(** The comparison keys, strictest first. *)
Definition seek_keys : list (str -> str) := [id; trim_end; trim; unified].

(** [pattern] occurs in [lines] at [i] when compared under [key]. *)
Definition occurs (key : str -> str) (lines pattern : list str) (i : nat) : Prop :=
  key <$> take (length pattern) (drop i lines) = key <$> pattern.

(** The indices a search may return: with [eof] only the one that puts the
    pattern at the end of the file. *)
Definition seek_range (lines pattern : list str) (start : nat) (eof : bool)
  (i : nat) : Prop :=
  (if eof then length lines - length pattern else start) <= i
  /\ i + length pattern <= length lines.

Inductive seek_spec (lines pattern : list str) (start : nat) (eof : bool)
  : option nat -> Prop :=
| seek_spec_empty :
    pattern = [] -> seek_spec lines pattern start eof (Some start)
| seek_spec_found k key i :
    pattern <> [] -> seek_keys !! k = Some key ->
    seek_range lines pattern start eof i -> occurs key lines pattern i ->
    (forall j, seek_range lines pattern start eof j -> j < i ->
               ~ occurs key lines pattern j) ->
    (forall k' key' j, k' < k -> seek_keys !! k' = Some key' ->
       seek_range lines pattern start eof j -> ~ occurs key' lines pattern j) ->
    seek_spec lines pattern start eof (Some i)
| seek_spec_none :
    pattern <> [] ->
    (forall key j, key ∈ seek_keys -> seek_range lines pattern start eof j ->
       ~ occurs key lines pattern j) ->
    seek_spec lines pattern start eof None.

(** ** Lemmas *)

Lemma normalise_char_plain c : normalise_char c = plain_char c.
Proof.
  destruct (decide (c ∈ [8208; 8209; 8210; 8211; 8212; 8213; 8722; 8216; 8217; 8218; 8219; 8220; 8221;
    8222; 8223; 160; 8194; 8195; 8196; 8197; 8198; 8199; 8200; 8201; 8202; 8239; 8287; 12288]%N)) as [Hc|Hc].
  - repeat (apply elem_of_cons in Hc as [->|Hc]; [reflexivity|]). by apply elem_of_nil in Hc.
  - rewrite !not_elem_of_cons in Hc. unfold normalise_char, plain_char. cbn [existsb].
    repeat match goal with |- context [N.eqb c ?k] => destruct (N.eqb_spec c k); [tauto|] end.
    cbn [orb]. rewrite ?orb_false_r.
    repeat match goal with |- context [N.leb ?a ?b] => destruct (N.leb_spec a b) end; cbn [andb orb];
      try done; lia.
Qed.

Lemma normalise_unified s : normalise s = unified s.
Proof. unfold normalise, unified. apply list_fmap_ext. intros i c _. apply normalise_char_plain. Qed.

Lemma find_from_Some ok lo n i :
  find_from ok lo n = Some i <->
  lo <= i < lo + n /\ ok i = true /\ forall j, lo <= j < i -> ok j = false.
Proof.
  revert lo. induction n as [|n IH]; intros lo; simpl.
  - split; [done | lia].
  - destruct (ok lo) eqn:E.
    + split.
      * intros [= <-]. repeat split; [lia..|done|]. lia.
      * intros (Hr & Hi & Hj). destruct (decide (lo = i)) as [->|]; [done|].
        rewrite Hj in E by lia. done.
    + rewrite IH. split.
      * intros (Hr & Hi & Hj). repeat split; [lia..|done|].
        intros j Hlt. destruct (decide (lo = j)) as [->|]; [done|]. apply Hj. lia.
      * intros (Hr & Hi & Hj). destruct (decide (lo = i)) as [->|]; [congruence|].
        repeat split; [lia..|done|]. intros j ?. apply Hj. lia.
Qed.

Lemma find_from_None ok lo n :
  find_from ok lo n = None <-> forall j, lo <= j < lo + n -> ok j = false.
Proof.
  revert lo. induction n as [|n IH]; intros lo; simpl.
  - split; [lia | done].
  - destruct (ok lo) eqn:E.
    + split; [done|]. intros H. rewrite H in E by lia. done.
    + rewrite IH. split.
      * intros H j ?. destruct (decide (lo = j)) as [->|]; [done|]. apply H. lia.
      * intros H j ?. apply H. lia.
Qed.

Lemma window_matches_occurs key lines pattern i :
  window_matches key lines pattern i = true <-> occurs key lines pattern i.
Proof.
  unfold occurs. revert i. induction pattern as [|pat rest IH]; intros i; simpl.
  - done.
  - destruct (lines !! i) as [line|] eqn:E.
    + rewrite (drop_S _ _ _ E). simpl. rewrite andb_true_iff, str_eqb_eq, IH.
      split; [by intros [??]; f_equal | by intros [= ??]].
    + apply lookup_ge_None in E. rewrite drop_ge by done. done.
Qed.

Lemma seek_window_in_bounds lines pattern start eof i p :
  seek_range lines pattern start eof i -> p < length pattern ->
  is_Some (lines !! (i + p)).
Proof. intros [_ ?] ?. apply lookup_lt_is_Some. lia. Qed.

Lemma occurs_weaken key (f : str -> str) lines pattern i :
  occurs key lines pattern i -> occurs (f ∘ key) lines pattern i.
Proof. unfold occurs. rewrite !list_fmap_compose. by intros ->. Qed.

(** Each pass accepts what a stricter one accepts. *)
Lemma occurs_next k key key' lines pattern i :
  seek_keys !! k = Some key -> seek_keys !! (S k) = Some key' ->
  occurs key lines pattern i -> occurs key' lines pattern i.
Proof.
  destruct k as [|[|[|[|k]]]]; simpl; intros [= <-] [= <-]; intros H.
  - by apply (occurs_weaken _ trim_end) in H.
  - by apply (occurs_weaken _ trim_start) in H.
  - by apply (occurs_weaken _ (fmap plain_char)) in H.
Qed.

Section passes.
Context (lines pattern : list str) (start : nat) (eof : bool).
Hypothesis Hne : pattern <> [].
Hypothesis Hlen : length pattern <= length lines.

Let lo := if eof && (length pattern <=? length lines)
          then length lines - length pattern else start.
Let pass := seek_pass lines pattern lo.

Lemma seek_range_lo j :
  seek_range lines pattern start eof j <->
  lo <= j < lo + (S (length lines - length pattern) - lo).
Proof.
  unfold seek_range, lo. rewrite (proj2 (Nat.leb_le _ _) Hlen), andb_true_r.
  destruct eof; lia.
Qed.

Lemma pass_Some key i :
  pass key = Some i <->
  seek_range lines pattern start eof i /\ occurs key lines pattern i /\
  forall j, seek_range lines pattern start eof j -> j < i ->
            ~ occurs key lines pattern j.
Proof.
  unfold pass, seek_pass, find_range. rewrite find_from_Some, window_matches_occurs.
  setoid_rewrite seek_range_lo. setoid_rewrite <- window_matches_occurs.
  setoid_rewrite not_true_iff_false. split.
  - intros (? & ? & H). split_and!; [lia|lia|done|].
    intros j ? ?. apply H. lia.
  - intros (? & ? & H). split_and!; [lia|lia|done|].
    intros j ?. apply H; lia.
Qed.

Lemma pass_None key :
  pass key = None <->
  forall j, seek_range lines pattern start eof j -> ~ occurs key lines pattern j.
Proof.
  unfold pass, seek_pass, find_range. rewrite find_from_None.
  setoid_rewrite seek_range_lo. setoid_rewrite <- window_matches_occurs.
  by setoid_rewrite not_true_iff_false.
Qed.

(** A pass that finds an index after the stricter ones failed. *)
Lemma pass_found k key i :
  seek_keys !! k = Some key -> pass key = Some i ->
  (forall k' key', k' < k -> seek_keys !! k' = Some key' -> pass key' = None) ->
  seek_spec lines pattern start eof (Some i).
Proof.
  intros Hk (Hr & Ho & Hfirst)%pass_Some Hprev.
  eapply seek_spec_found; eauto.
  intros k' key' j Hlt Hk'. apply pass_None. by eapply Hprev.
Qed.
End passes.

Lemma seek_pass_ext lines pattern lo key key' :
  (forall s, key s = key' s) -> seek_pass lines pattern lo key = seek_pass lines pattern lo key'.
Proof.
  intros Hk. unfold seek_pass, find_range. generalize (S (length lines - length pattern) - lo) as n.
  assert (forall pattern i, window_matches key lines pattern i = window_matches key' lines pattern i) as Hw.
  { induction pattern0 as [|p ps IH]; intros i; [done|]. cbn [window_matches].
    destruct (lines !! i); [|done]. by rewrite !Hk, IH. }
  intros n. revert lo. induction n as [|n IH]; intros lo; [done|]. cbn [find_from]. by rewrite Hw, IH.
Qed.

Lemma seek_sequence_meets_spec lines pattern start eof :
  seek_spec lines pattern start eof (seek_sequence lines pattern start eof).
Proof.
  unfold seek_sequence. destruct pattern as [|p ps] eqn:Hp.
  { by apply seek_spec_empty. }
  rewrite <- Hp. assert (Hne : pattern <> []) by congruence.
  destruct (Nat.ltb_spec (length lines) (length pattern)) as [Hl|Hl].
  { apply seek_spec_none; [done|]. intros key j _ [? ?]. lia. }
  cbv zeta.
  pose proof (pass_found lines pattern start eof Hne Hl) as Hf.
  pose proof (pass_None lines pattern start eof Hl) as HN.
  set (pass := seek_pass lines pattern _) in *.
  destruct (pass id) as [i|] eqn:E0.
  { apply (Hf 0 id); [done..|]. intros ? ? ?; lia. }
  destruct (pass trim_end) as [i|] eqn:E1.
  { apply (Hf 1 trim_end); [done..|]. intros [|] ? ? ?; simplify_eq/=; [done|lia]. }
  destruct (pass trim) as [i|] eqn:E2.
  { apply (Hf 2 trim); [done..|]. intros [|[|]] ? ? ?; simplify_eq/=; [done..|lia]. }
  assert (pass normalise = pass unified) as ->.
  { apply seek_pass_ext. apply normalise_unified. }
  destruct (pass unified) as [i|] eqn:E3.
  { apply (Hf 3 unified); [done..|]. intros [|[|[|]]] ? ? ?; simplify_eq/=; [done..|lia]. }
  apply seek_spec_none; [done|]. intros key j Hkey.
  repeat (apply elem_of_cons in Hkey as [->|Hkey]; [by apply HN|]). set_solver.
Qed.


Lemma occurs_unified k key lines pattern i :
  seek_keys !! k = Some key -> occurs key lines pattern i ->
  occurs unified lines pattern i.
Proof.
  intros Hk H. destruct k as [|[|[|[|k]]]]; simplify_eq/=; try done;
    repeat first [ done | apply (occurs_next 2 trim); [done..|]
                 | apply (occurs_next 1 trim_end); [done..|]
                 | apply (occurs_next 0 id); [done..|] ].
Qed.

(** What the clients of a successful search use. *)
Lemma seek_sequence_Some lines pattern start eof i :
  pattern <> [] -> seek_sequence lines pattern start eof = Some i ->
  i + length pattern <= length lines /\ (eof = false -> start <= i) /\
  occurs unified lines pattern i.
Proof.
  intros Hne Hs. pose proof (seek_sequence_meets_spec lines pattern start eof) as H.
  rewrite Hs in H. inversion H as [?|k key ? ? Hk Hr Ho|?]; subst; [done|].
  split_and!; [by destruct Hr|by intros ->; destruct Hr|].
  by eapply occurs_unified.
Qed.

(** ** Properties *)

(** C39: for a chunk that is not marked as the end of the file ([eof] is false),
    [seek_sequence] returns the first index from [start] on at which all lines of the pattern
    occur under the strictest of four comparisons that has any occurrence from [start] on:
    equal, up to trailing whitespace, up to surrounding whitespace, and up to whitespace and
    typographic punctuation; it returns [start] for an empty pattern, and [None] exactly when
    the loosest comparison has no occurrence. *)
Theorem seek_sequence_correct lines pattern start :
  seek_spec lines pattern start false (seek_sequence lines pattern start false).
Proof. apply seek_sequence_meets_spec. Qed.
(** With [eof] the search looks at one index only, the one that puts the
    pattern at the end of the file; the start index has no influence, so a match
    between the start index and the end is not found and a match before the
    start index is. *)
Theorem seek_sequence_eof_only_end lines pattern start start' :
  pattern <> [] ->
  seek_sequence lines pattern start true = seek_sequence lines pattern start' true
  /\ forall i, seek_sequence lines pattern start true = Some i ->
               i + length pattern = length lines.
Proof.
  intros Hne. unfold seek_sequence. destruct pattern as [|p ps] eqn:Hp; [done|].
  rewrite <- Hp. destruct (Nat.ltb_spec (length lines) (length pattern)) as [|Hl].
  { done. }
  rewrite (proj2 (Nat.leb_le _ _) Hl). simpl. split; [done|].
  pose proof (pass_Some lines pattern start true Hl) as HS.
  rewrite (proj2 (Nat.leb_le _ _) Hl) in HS. simpl in HS.
  intros i Hi. enough (seek_range lines pattern start true i) as [??] by lia.
  cases; eapply HS; simplify_eq; eassumption.
Qed.

Example seek_sequence_eof_only_end_witness :
  seek_sequence [lit "a"; lit "b"] [lit "b"] 0 true
  = seek_sequence [lit "a"; lit "b"] [lit "b"] 2 true /\
  forall i, seek_sequence [lit "a"; lit "b"] [lit "b"] 0 true = Some i -> i + 1 = 2.
Proof.
  apply (seek_sequence_eof_only_end [lit "a"; lit "b"] [lit "b"] 0 2). done.
Defined.

