(* ===== verification/PatchParser.v ===== *)
(** * The patch parser

    [code-rs/apply-patch/src/parser.rs]: a patch text is cut into lines, its
    begin and end markers are checked (strictly, or after removing a heredoc
    wrapper), and the lines between them are parsed into hunks.  The two
    [while] loops run on fuel; [parse_hunks_total] shows that as much fuel as
    there are lines is always enough, because every hunk and every chunk takes at
    least one line.  The printer [render_patch] is the specification side of the
    round trip. *)

From S2P Require Import Prelude.

(** ** Data *)

Definition BEGIN_PATCH_MARKER : str := lit "*** Begin Patch".
Definition END_PATCH_MARKER : str := lit "*** End Patch".
Definition ADD_FILE_MARKER : str := lit "*** Add File: ".
Definition DELETE_FILE_MARKER : str := lit "*** Delete File: ".
Definition UPDATE_FILE_MARKER : str := lit "*** Update File: ".
Definition MOVE_TO_MARKER : str := lit "*** Move to: ".
Definition EOF_MARKER : str := lit "*** End of File".
Definition CHANGE_CONTEXT_MARKER : str := lit "@@ ".
Definition EMPTY_CHANGE_CONTEXT_MARKER : str := lit "@@".
Definition PARSE_IN_STRICT_MODE : bool := false.

Inductive parse_error :=
| InvalidPatchError (message : str)
| InvalidHunkError (message : str) (line_number : nat).

Record update_file_chunk := UpdateFileChunk {
  change_context : option str;
  old_lines : list str;
  new_lines : list str;
  is_end_of_file : bool;
}.

(** A [PathBuf] is the text it was made from. *)
Inductive hunk :=
| AddFile (path : str) (contents : str)
| DeleteFile (path : str)
| UpdateFile (path : str) (move_path : option str) (chunks : list update_file_chunk).

Record apply_patch_args := ApplyPatchArgs {
  patch : str;
  hunks : list hunk;
  workdir : option str;
}.

Inductive parse_mode := Strict | Lenient.

#[export] Instance parse_error_eq_dec : EqDecision parse_error.
Proof. solve_decision. Defined.
#[export] Instance update_file_chunk_eq_dec : EqDecision update_file_chunk.
Proof. solve_decision. Defined.
#[export] Instance hunk_eq_dec : EqDecision hunk.
Proof. solve_decision. Defined.
#[export] Instance apply_patch_args_eq_dec : EqDecision apply_patch_args.
Proof. solve_decision. Defined.

(** ** One chunk of an update hunk *)

Definition push_old (l : str) (c : update_file_chunk) : update_file_chunk :=
  UpdateFileChunk (change_context c) (old_lines c ++ [l]) (new_lines c)
                  (is_end_of_file c).
Definition push_new (l : str) (c : update_file_chunk) : update_file_chunk :=
  UpdateFileChunk (change_context c) (old_lines c) (new_lines c ++ [l])
                  (is_end_of_file c).
Definition set_eof (c : update_file_chunk) : update_file_chunk :=
  UpdateFileChunk (change_context c) (old_lines c) (new_lines c) true.

(** The [for] loop over the lines after the context marker: returns the chunk
    and [parsed_lines]. *)
Fixpoint chunk_body (line_number : nat) (lines : list str)
  (chunk : update_file_chunk) (parsed_lines : nat)
  : result parse_error (update_file_chunk * nat) :=
  match lines with
  | [] => Ok (chunk, parsed_lines)
  | line :: lines' =>
      if str_eqb line EOF_MARKER then
        if parsed_lines =? 0 then
          Err (InvalidHunkError (lit "Update hunk does not contain any lines")
                                (line_number + 1))
        else Ok (set_eof chunk, parsed_lines + 1)
      else
        match line with
        | [] => chunk_body line_number lines' (push_new [] (push_old [] chunk))
                           (parsed_lines + 1)
        | 32%N :: l => chunk_body line_number lines' (push_new l (push_old l chunk))
                                  (parsed_lines + 1)
        | 43%N :: l => chunk_body line_number lines' (push_new l chunk)
                                  (parsed_lines + 1)
        | 45%N :: l => chunk_body line_number lines' (push_old l chunk)
                                  (parsed_lines + 1)
        | _ =>
            if parsed_lines =? 0 then
              Err (InvalidHunkError
                     (lit "Unexpected line found in update hunk: '" ++ line ++
                      lit "'. Every line should start with ' ' (context line), '+' (added line), or '-' (removed line)")
                     (line_number + 1))
            else Ok (chunk, parsed_lines)
        end
  end.

(** The [@@] line: the context and [start_index]. *)
Definition chunk_header (line0 : str) (line_number : nat)
  (allow_missing_context : bool) : result parse_error (option str * nat) :=
  if str_eqb line0 EMPTY_CHANGE_CONTEXT_MARKER then Ok (None, 1)
  else match strip_prefix CHANGE_CONTEXT_MARKER line0 with
       | Some context => Ok (Some context, 1)
       | None =>
           if negb allow_missing_context then
             Err (InvalidHunkError
                    (lit "Expected update hunk to start with a @@ context marker, got: '"
                     ++ line0 ++ lit "'") line_number)
           else Ok (None, 0)
       end.

Definition parse_update_file_chunk (lines : list str) (line_number : nat)
  (allow_missing_context : bool) : result parse_error (update_file_chunk * nat) :=
  match lines with
  | [] => Err (InvalidHunkError (lit "Update hunk does not contain any lines")
                                line_number)
  | line0 :: _ =>
      '(change_context, start_index) ← chunk_header line0 line_number allow_missing_context;
      if length lines <=? start_index then
        Err (InvalidHunkError (lit "Update hunk does not contain any lines")
                              (line_number + 1))
      else
        '(chunk, parsed_lines) ←
          chunk_body line_number (drop start_index lines)
                     (UpdateFileChunk change_context [] [] false) 0;
        Ok (chunk, parsed_lines + start_index)
  end.

(** ** One hunk *)

(** The [for] loop of an add hunk: the added text and [parsed_lines]. *)
Fixpoint add_file_body (lines : list str) (contents : str) (parsed_lines : nat)
  : str * nat :=
  match lines with
  | [] => (contents, parsed_lines)
  | add_line :: lines' =>
      match strip_prefix [43%N] add_line with
      | Some line_to_add =>
          add_file_body lines' (contents ++ line_to_add ++ [LF]) (parsed_lines + 1)
      | None => (contents, parsed_lines)
      end
  end.

(** The [while] loop of an update hunk; [None]: out of fuel. *)
Fixpoint update_chunks (fuel : nat) (remaining : list str) (line_number : nat)
  (chunks : list update_file_chunk) (parsed_lines : nat)
  : option (result parse_error (list update_file_chunk * nat)) :=
  match remaining with
  | [] => Some (Ok (chunks, parsed_lines))
  | line0 :: rest =>
      match fuel with
      | O => None
      | S fuel' =>
          if str_eqb (trim line0) [] then
            update_chunks fuel' rest line_number chunks (parsed_lines + 1)
          else if starts_with (lit "***") line0 then
            Some (Ok (chunks, parsed_lines))
          else
            match parse_update_file_chunk remaining (line_number + parsed_lines)
                    (bool_decide (chunks = [])) with
            | Err e => Some (Err e)
            | Ok (chunk, chunk_lines) =>
                update_chunks fuel' (drop chunk_lines remaining) line_number
                  (chunks ++ [chunk]) (parsed_lines + chunk_lines)
            end
      end
  end.

(** [parse_one_hunk(lines, line_number)] with [lines = line0 :: rest]: the code
    indexes [lines[0]], and is only called on a non-empty slice. *)
Definition parse_one_hunk (line0 : str) (rest : list str) (line_number : nat)
  : option (result parse_error (hunk * nat)) :=
  let first_line := trim line0 in
  match strip_prefix ADD_FILE_MARKER first_line with
  | Some path =>
      let '(contents, parsed_lines) := add_file_body rest [] 1 in
      Some (Ok (AddFile path contents, parsed_lines))
  | None =>
  match strip_prefix DELETE_FILE_MARKER first_line with
  | Some path => Some (Ok (DeleteFile path, 1))
  | None =>
  match strip_prefix UPDATE_FILE_MARKER first_line with
  | Some path =>
      let move_path := head rest ≫= strip_prefix MOVE_TO_MARKER in
      let '(remaining, parsed_lines) :=
        match move_path with Some _ => (drop 1 rest, 2) | None => (rest, 1) end in
      match update_chunks (length remaining) remaining line_number [] parsed_lines with
      | None => None
      | Some (Err e) => Some (Err e)
      | Some (Ok ([], _)) =>
          Some (Err (InvalidHunkError
                       (lit "Update file hunk for path '" ++ path ++ lit "' is empty")
                       line_number))
      | Some (Ok (chunks, parsed_lines)) =>
          Some (Ok (UpdateFile path move_path chunks, parsed_lines))
      end
  | None =>
      Some (Err (InvalidHunkError
        (lit "'" ++ first_line ++
         lit "' is not a valid hunk header. Valid hunk headers: '*** Add File: {path}', '*** Delete File: {path}', '*** Update File: {path}'")
        line_number))
  end end end.

(** ** The whole patch *)

Definition check_start_and_end_lines_strict (first_line last_line : option str)
  : result parse_error unit :=
  match first_line, last_line with
  | Some first, Some last =>
      if str_eqb first BEGIN_PATCH_MARKER && str_eqb last END_PATCH_MARKER then Ok tt
      else if negb (str_eqb first BEGIN_PATCH_MARKER) then
        Err (InvalidPatchError (lit "The first line of the patch must be '*** Begin Patch'"))
      else Err (InvalidPatchError (lit "The last line of the patch must be '*** End Patch'"))
  | Some first, None =>
      if negb (str_eqb first BEGIN_PATCH_MARKER) then
        Err (InvalidPatchError (lit "The first line of the patch must be '*** Begin Patch'"))
      else Err (InvalidPatchError (lit "The last line of the patch must be '*** End Patch'"))
  | None, _ =>
      Err (InvalidPatchError (lit "The last line of the patch must be '*** End Patch'"))
  end.

Definition check_patch_boundaries_strict (lines : list str) : result parse_error unit :=
  check_start_and_end_lines_strict (head lines) (last lines).

(** [&lines[1..lines.len() - 1]] *)
Definition inner_slice (lines : list str) : list str :=
  drop 1 (take (length lines - 1) lines).

Definition is_heredoc_start (first : str) : bool :=
  str_mem first [lit "<<EOF"; lit "<<'EOF'"; lit "<<" ++ [34%N] ++ lit "EOF" ++ [34%N]].

Definition check_patch_boundaries_lenient (original_lines : list str)
  (original_parse_error : parse_error) : result parse_error (list str) :=
  match original_lines, last original_lines with
  | first :: _ :: _, Some last =>
      if is_heredoc_start first && ends_with (lit "EOF") last
         && (4 <=? length original_lines) then
        let inner_lines := inner_slice original_lines in
        match check_patch_boundaries_strict inner_lines with
        | Ok _ => Ok inner_lines
        | Err e => Err e
        end
      else Err original_parse_error
  | _, _ => Err original_parse_error
  end.

(** The [while] loop of [parse_patch_text]; [None]: out of fuel. *)
Fixpoint parse_hunks (fuel : nat) (remaining : list str) (line_number : nat)
  (hs : list hunk) : option (result parse_error (list hunk)) :=
  match remaining with
  | [] => Some (Ok hs)
  | line0 :: rest =>
      match fuel with
      | O => None
      | S fuel' =>
          match parse_one_hunk line0 rest line_number with
          | None => None
          | Some (Err e) => Some (Err e)
          | Some (Ok (h, hunk_lines)) =>
              parse_hunks fuel' (drop hunk_lines remaining)
                (line_number + hunk_lines) (hs ++ [h])
          end
      end
  end.

Definition select_patch_lines (lines : list str) (mode : parse_mode)
  : result parse_error (list str) :=
  match check_patch_boundaries_strict lines with
  | Ok _ => Ok lines
  | Err e =>
      match mode with
      | Strict => Err e
      | Lenient => check_patch_boundaries_lenient lines e
      end
  end.

#[global] Arguments parse_update_file_chunk : simpl never.
#[global] Arguments parse_one_hunk : simpl never.

(** ** The loops make progress *)

Lemma chunk_body_bounds ln ls c n c' n' :
  chunk_body ln ls c n = Ok (c', n') ->
  n <= n' <= n + length ls /\ (ls <> [] -> n' <> 0).
Proof.
  revert c n. induction ls as [|l ls IH]; intros c n H; simplify_eq/=; [by split; [lia|]|].
  destruct (str_eqb l EOF_MARKER).
  { destruct (Nat.eqb_spec n 0); simplify_eq. split; lia. }
  repeat case_match; bool_solve; simplify_eq; try (split; lia);
    apply IH in H as [??]; split; lia.
Qed.

Lemma parse_update_file_chunk_progress ls ln allow c n :
  parse_update_file_chunk ls ln allow = Ok (c, n) -> 1 <= n <= length ls.
Proof.
  unfold parse_update_file_chunk. destruct ls as [|l ls'] eqn:Hls; [done|].
  rewrite <- Hls. intros ([ctx start] & Hctx & H)%result_bind_Ok.
  assert (start <= 1) by (unfold chunk_header in Hctx; repeat case_match; naive_solver lia).
  destruct (Nat.leb_spec (length ls) start); [done|].
  apply result_bind_Ok in H as ([c' k] & [Hk Hnz]%chunk_body_bounds & [= <- <-]).
  rewrite length_drop in Hk. split; [|lia].
  enough (k <> 0) by lia. apply Hnz. intros Hd. apply (f_equal length) in Hd.
  rewrite length_drop in Hd. simpl in Hd. lia.
Qed.

Lemma add_file_body_bounds ls txt n txt' n' :
  add_file_body ls txt n = (txt', n') -> n <= n' <= n + length ls.
Proof.
  revert txt n. induction ls as [|l ls IH]; intros txt n H; simplify_eq/=; [lia|].
  destruct (strip_prefix _ l); simplify_eq; [|lia]. apply IH in H. lia.
Qed.

Lemma update_chunks_total fuel ls ln cs n :
  length ls <= fuel -> is_Some (update_chunks fuel ls ln cs n).
Proof.
  revert ls cs n. induction fuel as [|fuel IH]; intros [|l ls] cs n Hf; simpl in *;
    try (by eexists); [lia|].
  destruct (str_eqb _ _); [apply IH; lia|].
  destruct (starts_with _ _); [by eexists|].
  destruct (parse_update_file_chunk _ _ _) as [[c k]|e] eqn:E; [|by eexists].
  apply parse_update_file_chunk_progress in E. simpl in E.
  apply IH. rewrite length_drop. simpl. lia.
Qed.

Lemma update_chunks_bounds fuel ls ln cs n cs' n' :
  update_chunks fuel ls ln cs n = Some (Ok (cs', n')) -> n <= n' <= n + length ls.
Proof.
  revert ls cs n. induction fuel as [|fuel IH]; intros [|l ls] cs n H; simplify_eq/=;
    try lia.
  destruct (str_eqb _ _); [apply IH in H; lia|].
  destruct (starts_with _ _); [simplify_eq; lia|].
  destruct (parse_update_file_chunk _ _ _) as [[c k]|e] eqn:E; simplify_eq.
  apply parse_update_file_chunk_progress in E. apply IH in H.
  rewrite length_drop in H. simpl in *. lia.
Qed.

Lemma parse_one_hunk_total l ls ln : is_Some (parse_one_hunk l ls ln).
Proof.
  unfold parse_one_hunk.
  destruct (strip_prefix ADD_FILE_MARKER _); [case_match; by eexists|].
  destruct (strip_prefix DELETE_FILE_MARKER _); [by eexists|].
  destruct (strip_prefix UPDATE_FILE_MARKER _); [|by eexists].
  destruct (head ls ≫= _); cbv beta iota zeta;
    match goal with
    | |- context [update_chunks ?f ?r ?n ?c ?p] =>
        destruct (update_chunks_total f r n c p (Nat.le_refl _)) as [x ->]
    end; repeat case_match; by eexists.
Qed.

Lemma parse_one_hunk_bounds l ls ln h n :
  parse_one_hunk l ls ln = Some (Ok (h, n)) -> 1 <= n <= S (length ls).
Proof.
  unfold parse_one_hunk.
  destruct (strip_prefix ADD_FILE_MARKER _).
  { destruct (add_file_body ls [] 1) eqn:E. intros [= <- <-].
    apply add_file_body_bounds in E. lia. }
  destruct (strip_prefix DELETE_FILE_MARKER _); [intros [= <- <-]; lia|].
  destruct (strip_prefix UPDATE_FILE_MARKER _); [|done].
  destruct (head ls ≫= _) eqn:Hm; cbv beta iota zeta; intros H;
    repeat case_match; simplify_eq;
    match goal with E : update_chunks _ _ _ _ _ = _ |- _ =>
      apply update_chunks_bounds in E end; destruct ls; simplify_eq/=;
    rewrite ?drop_0 in *; lia.
Qed.

Lemma parse_hunks_total fuel ls ln hs :
  length ls <= fuel -> is_Some (parse_hunks fuel ls ln hs).
Proof.
  revert ls ln hs. induction fuel as [|fuel IH]; intros [|l ls] ln hs Hf; simpl in *;
    try (by eexists); [lia|].
  destruct (parse_one_hunk_total l ls ln) as [[[h n]|e] E]; rewrite E; [|by eexists].
  apply parse_one_hunk_bounds in E. apply IH. rewrite length_drop. simpl. lia.
Qed.

(** ** The entry points *)

(** The hunk loop, which always ends within its fuel. *)
Definition parse_all_hunks (remaining : list str) : result parse_error (list hunk) :=
  is_Some_proj (parse_hunks_total (length remaining) remaining 2 [] (Nat.le_refl _)).

Definition parse_patch_text (text : str) (mode : parse_mode)
  : result parse_error apply_patch_args :=
  lines ← select_patch_lines (str_lines (trim text)) mode;
  hs ← parse_all_hunks (inner_slice lines);
  Ok (ApplyPatchArgs (join [LF] lines) hs None).

Definition parse_patch (text : str) : result parse_error apply_patch_args :=
  let mode := if PARSE_IN_STRICT_MODE then Strict else Lenient in
  parse_patch_text text mode.

(** ** Specification: a printer of patches *)

(** A patch as its author writes it: the lines of a chunk interleave context,
    removed and added lines, and an empty context line may be left blank. *)
Inductive edit :=
| Keep (line : str)
| KeepBlank
| Remove (line : str)
| Insert (line : str).

Definition old_line (e : edit) : option str :=
  match e with Keep l | Remove l => Some l | KeepBlank => Some [] | Insert _ => None end.

Definition new_line (e : edit) : option str :=
  match e with Keep l | Insert l => Some l | KeepBlank => Some [] | Remove _ => None end.

Definition render_edit (e : edit) : str :=
  match e with
  | Keep l => 32%N :: l | KeepBlank => [] | Remove l => 45%N :: l | Insert l => 43%N :: l
  end.

#[export] Instance edit_eq_dec : EqDecision edit.
Proof. solve_decision. Defined.

Record chunk_script := ChunkScript {
  script_context : option str;
  script_edits : list edit;
  script_eof : bool;
}.

Inductive hunk_script :=
| AddScript (path contents : str)
| DeleteScript (path : str)
| UpdateScript (path : str) (move_path : option str) (chunks : list chunk_script).

(** The hunks the author means. *)
Definition meant_chunk (c : chunk_script) : update_file_chunk :=
  UpdateFileChunk (script_context c) (omap old_line (script_edits c))
    (omap new_line (script_edits c)) (script_eof c).

Definition meant_hunk (h : hunk_script) : hunk :=
  match h with
  | AddScript path contents => AddFile path contents
  | DeleteScript path => DeleteFile path
  | UpdateScript path move_path chunks =>
      UpdateFile path move_path (meant_chunk <$> chunks)
  end.

Definition render_context (ctx : option str) : str :=
  match ctx with
  | None => EMPTY_CHANGE_CONTEXT_MARKER
  | Some c => CHANGE_CONTEXT_MARKER ++ c
  end.

Definition render_chunk (c : chunk_script) : list str :=
  render_context (script_context c) ::
  (render_edit <$> script_edits c) ++ (if script_eof c then [EOF_MARKER] else []).

(** The lines of an added file: its text without the LF that ends each. *)
Definition content_lines (contents : str) : list str :=
  removelast (split_on LF contents).

Definition render_move (move_path : option str) : list str :=
  match move_path with Some p => [MOVE_TO_MARKER ++ p] | None => [] end.

Definition render_hunk (h : hunk_script) : list str :=
  match h with
  | AddScript path contents =>
      (ADD_FILE_MARKER ++ path) :: (cons 43%N <$> content_lines contents)
  | DeleteScript path => [DELETE_FILE_MARKER ++ path]
  | UpdateScript path move_path chunks =>
      (UPDATE_FILE_MARKER ++ path) ::
      render_move move_path ++ concat (render_chunk <$> chunks)
  end.

Definition render_hunks (hs : list hunk_script) : list str := concat (render_hunk <$> hs).

Definition render_patch (hs : list hunk_script) : str :=
  join [LF] ([BEGIN_PATCH_MARKER] ++ render_hunks hs ++ [END_PATCH_MARKER]).

(** What the parser guarantees of a hunk. *)
Definition wf_chunk (c : update_file_chunk) : Prop :=
  old_lines c <> [] \/ new_lines c <> [].

Definition wf_path (p : str) : Prop := p <> [] /\ trim_end p = p.

Definition wf_contents (t : str) : Prop := t = [] \/ last t = Some LF.

Definition wf_hunk (h : hunk) : Prop :=
  match h with
  | AddFile path contents => wf_path path /\ wf_contents contents
  | DeleteFile path => wf_path path
  | UpdateFile path _ chunks => wf_path path /\ chunks <> [] /\ Forall wf_chunk chunks
  end.

#[export] Instance wf_hunk_dec h : Decision (wf_hunk h).
Proof. destruct h; unfold wf_hunk, wf_path, wf_contents, wf_chunk; apply _. Defined.

(** What the printer needs of a script. *)
Definition wf_chunk_script (c : chunk_script) : Prop := script_edits c <> [].

Definition wf_script (h : hunk_script) : Prop :=
  match h with
  | AddScript path contents => wf_path path /\ wf_contents contents
  | DeleteScript path => wf_path path
  | UpdateScript path _ chunks =>
      wf_path path /\ chunks <> [] /\ Forall wf_chunk_script chunks
  end.

#[export] Instance wf_script_dec h : Decision (wf_script h).
Proof. destruct h; unfold wf_script, wf_path, wf_contents, wf_chunk_script; apply _. Defined.

(** The script of a hunk without context lines. *)
Definition plain_chunk (c : update_file_chunk) : chunk_script :=
  ChunkScript (change_context c) ((Remove <$> old_lines c) ++ (Insert <$> new_lines c))
    (is_end_of_file c).

Definition plain_script (h : hunk) : hunk_script :=
  match h with
  | AddFile path contents => AddScript path contents
  | DeleteFile path => DeleteScript path
  | UpdateFile path move_path chunks => UpdateScript path move_path (plain_chunk <$> chunks)
  end.

Lemma omap_all {A B C} (g : A -> B) (f : B -> option C) (k : A -> C) (l : list A) :
  (forall x, f (g x) = Some (k x)) -> omap f (g <$> l) = k <$> l.
Proof. intros H. induction l as [|x l IH]; csimpl; [done|]. by rewrite H, IH. Qed.

Lemma omap_none {A B C} (g : A -> B) (f : B -> option C) (l : list A) :
  (forall x, f (g x) = None) -> omap f (g <$> l) = [].
Proof. intros H. induction l as [|x l IH]; csimpl; [done|]. by rewrite H, IH. Qed.

Lemma meant_plain_chunk c : meant_chunk (plain_chunk c) = c.
Proof.
  destruct c as [ctx old new eof]. unfold meant_chunk, plain_chunk. simpl.
  rewrite !omap_app, (omap_all Remove _ id), (omap_none Insert old_line),
    (omap_none Remove new_line), (omap_all Insert _ id) by done.
  by rewrite !list_fmap_id, app_nil_r.
Qed.

Lemma meant_plain h : meant_hunk (plain_script h) = h.
Proof.
  destruct h as [| |path move chunks]; [done..|]. simpl. f_equal.
  induction chunks as [|c cs IH]; csimpl; [done|]. by rewrite meant_plain_chunk, IH.
Qed.

Lemma wf_plain h : wf_hunk h -> wf_script (plain_script h).
Proof.
  destruct h as [| |path move chunks]; [done..|]. intros (Hp & Hne & Hcs). simpl.
  split_and!; [done|by destruct chunks|]. apply Forall_fmap. eapply Forall_impl; [exact Hcs|].
  intros [? [|] [|] ?] [?|?]; done.
Qed.

(** ** Printing a chunk and parsing it back *)

(** The line after a chunk: one that [chunk_body] does not take. *)
Definition stops_chunk (rest : list str) : Prop :=
  match rest with
  | [] => True
  | (c :: _) as l :: _ => l <> EOF_MARKER /\ c <> 32%N /\ c <> 43%N /\ c <> 45%N
  | [] :: _ => False
  end.

Lemma chunk_body_edits ln es rest c n :
  chunk_body ln ((render_edit <$> es) ++ rest) c n =
  chunk_body ln rest
    (UpdateFileChunk (change_context c) (old_lines c ++ omap old_line es)
       (new_lines c ++ omap new_line es) (is_end_of_file c)) (n + length es).
Proof.
  revert c n. induction es as [|e es IH]; intros [ctx old new eof] n.
  - simpl. by rewrite !app_nil_r, Nat.add_0_r.
  - rewrite fmap_cons. replace (n + length (e :: es)) with ((n + 1) + length es) by (simpl; lia).
    destruct e; simpl; change (list_fmap _ _ ?f es) with (f <$> es); rewrite IH;
      unfold push_old, push_new; simpl; by rewrite <- ?app_assoc.
Qed.

Lemma chunk_body_stop ln rest c n :
  stops_chunk rest -> n <> 0 -> chunk_body ln rest c n = Ok (c, n).
Proof.
  destruct rest as [|[|x l] rest]; [done..|]. simpl.
  intros (He & H1 & H2 & H3) Hn. rewrite (proj2 (str_eqb_neq _ _) He).
  rewrite (proj2 (Nat.eqb_neq _ _) Hn).
  repeat case_match; simplify_eq; done.
Qed.

Lemma chunk_header_render ctx ln allow :
  chunk_header (render_context ctx) ln allow = Ok (ctx, 1).
Proof.
  unfold chunk_header. destruct ctx as [c|]; [|done]. cbn [render_context].
  rewrite strip_prefix_app. by rewrite (proj2 (str_eqb_neq _ _)) by (by destruct c).
Qed.

Lemma parse_render_chunk c rest ln allow :
  wf_chunk_script c -> (script_eof c = false -> stops_chunk rest) ->
  parse_update_file_chunk (render_chunk c ++ rest) ln allow
  = Ok (meant_chunk c, length (render_chunk c)).
Proof.
  intros Hwf Hstop. destruct c as [ctx es eof]. unfold parse_update_file_chunk.
  unfold render_chunk, wf_chunk_script in *.
  cbn [script_context script_edits script_eof] in *.
  rewrite <- app_comm_cons, chunk_header_render. cbn [mbind result_bind skipn].
  rewrite drop_0, <- !app_assoc, chunk_body_edits.
  assert (Hpos : 0 + length es <> 0) by (destruct es; simpl; [done|lia]).
  rewrite (proj2 (Nat.leb_gt _ _))
    by (simpl; rewrite !length_app, !length_fmap; simpl in Hpos; lia).
  simpl length. rewrite !length_app, !length_fmap. cbn [old_lines new_lines app].
  destruct eof; cbn [app chunk_body].
  - rewrite str_eqb_refl, (proj2 (Nat.eqb_neq _ _)) by done. simpl. do 2 f_equal. lia.
  - rewrite chunk_body_stop by auto. simpl. do 2 f_equal. lia.
Qed.

Lemma render_chunk_nonempty c : exists l ls, render_chunk c = l :: ls.
Proof. destruct c. simpl. eauto. Qed.

(** ** Printing a hunk and parsing it back *)

(** The lines after a hunk: none, or a marker line. *)
Definition hunk_boundary (rest : list str) : Prop :=
  match rest with
  | [] => True
  | l :: _ => exists r, l = lit "*** " ++ r /\ l <> EOF_MARKER
  end.

Lemma hunk_boundary_stops rest : hunk_boundary rest -> stops_chunk rest.
Proof. destruct rest as [|l rest]; [done|]. intros (r & -> & ?). done. Qed.

Lemma marker_not_blank r : str_eqb (trim (lit "*** " ++ r)) [] = false.
Proof.
  change (lit "*** " ++ r) with (42%N :: (lit "** " ++ r)).
  by rewrite trim_cons.
Qed.

Lemma render_chunks_stops cs rest :
  hunk_boundary rest -> stops_chunk (concat (render_chunk <$> cs) ++ rest).
Proof.
  intros Hb. destruct cs as [|[ctx ? ?] cs]; [by apply hunk_boundary_stops|].
  by destruct ctx.
Qed.

Lemma update_chunks_render fuel cs rest ln acc n :
  Forall wf_chunk_script cs -> hunk_boundary rest ->
  length (concat (render_chunk <$> cs) ++ rest) <= fuel ->
  update_chunks fuel (concat (render_chunk <$> cs) ++ rest) ln acc n
  = Some (Ok (acc ++ (meant_chunk <$> cs), n + length (concat (render_chunk <$> cs)))).
Proof.
  revert acc n fuel. induction cs as [|c cs IH]; intros acc n fuel Hwf Hb Hf.
  - cbn [fmap list_fmap concat app length] in *. rewrite app_nil_r, Nat.add_0_r.
    destruct rest as [|l rest], fuel as [|fuel]; [done..|simpl in Hf; lia|].
    destruct Hb as (r & -> & ?). cbn [update_chunks].
    rewrite marker_not_blank. done.
  - apply Forall_cons in Hwf as [Hc Hcs].
    rewrite fmap_cons in *. cbn [concat] in *. rewrite <- app_assoc in *.
    destruct fuel as [|fuel].
    { unfold render_chunk in Hf. simpl in Hf. lia. }
    destruct (render_chunk_nonempty c) as (l & ls & Hl). rewrite Hl at 1.
    cbn [update_chunks app].
    assert (Hblank : str_eqb (trim l) [] = false /\ starts_with (lit "***") l = false).
    { destruct c as [[ctx|] ? ?]; unfold render_chunk in Hl; simplify_eq; [|done].
      cbn [render_context script_context].
      change (CHANGE_CONTEXT_MARKER ++ ctx) with (64%N :: (lit "@ " ++ ctx)).
      by rewrite trim_cons. }
    destruct Hblank as [-> ->].
    change (l :: ls ++ ?x) with ((l :: ls) ++ x). rewrite <- Hl.
    rewrite parse_render_chunk; [|done|intros _; by apply render_chunks_stops].
    rewrite drop_app_length, IH; [|done..|].
    + rewrite <- app_assoc, length_app. do 3 f_equal. lia.
    + rewrite length_app in Hf. rewrite Hl in Hf. simpl in Hf. lia.
Qed.

Lemma add_file_body_render ls rest txt n :
  (forall l, head rest = Some l -> strip_prefix [43%N] l = None) ->
  add_file_body ((cons 43%N <$> ls) ++ rest) txt n
  = (txt ++ concat ((fun l => l ++ [LF]) <$> ls), n + length ls).
Proof.
  intros Hr. revert txt n. induction ls as [|l ls IH]; intros txt n.
  - simpl. rewrite app_nil_r, Nat.add_0_r. destruct rest as [|l rest]; [done|].
    simpl. by rewrite Hr.
  - rewrite fmap_cons. cbn [app add_file_body].
    rewrite (strip_prefix_app [43%N] l : strip_prefix [43%N] (43%N :: l) = _).
    rewrite IH. rewrite fmap_cons. cbn [concat length].
    rewrite <- !app_assoc. f_equal. lia.
Qed.

Lemma join_removelast c l :
  l <> [] ->
  join [c] l = concat ((fun l => l ++ [c]) <$> removelast l) ++ List.last l [].
Proof.
  induction l as [|w [|w' ws] IH]; [done..|]. intros _.
  change (removelast (w :: w' :: ws)) with (w :: removelast (w' :: ws)).
  change (List.last (w :: w' :: ws) []) with (List.last (w' :: ws) []).
  rewrite fmap_cons, join_cons, IH by done. cbn [concat]. by rewrite <- !app_assoc.
Qed.

Lemma split_on_last c t : List.last (split_on c (t ++ [c])) [] = [].
Proof.
  induction t as [|y t IH]; cbn [app]; rewrite split_on_cons.
  - by rewrite N.eqb_refl.
  - destruct (N.eqb_spec y c).
    + destruct (split_on c (t ++ [c])) eqn:E; [by apply split_on_ne in E|]. exact IH.
    + destruct (split_on c (t ++ [c])) as [|w [|w' ws]] eqn:E; [by apply split_on_ne in E| |exact IH].
      exfalso. simpl in IH. subst w. apply (f_equal (join [c])) in E.
      rewrite join_split in E. by destruct t.
Qed.

Lemma content_lines_concat contents :
  wf_contents contents ->
  concat ((fun l => l ++ [LF]) <$> content_lines contents) = contents.
Proof.
  unfold content_lines. intros [->|Hl]; [done|].
  pose proof (join_removelast LF _ (split_on_ne LF contents)) as H.
  rewrite join_split in H. rewrite H at 2.
  destruct contents as [|x t _] using rev_ind; [done|].
  rewrite last_snoc in Hl. injection Hl as ->. by rewrite split_on_last, app_nil_r.
Qed.

Lemma path_header_trim m p :
  head m = Some 42%N -> wf_path p -> trim (m ++ p) = m ++ p.
Proof.
  intros Hm [Hne Hp]. destruct m as [|x m]; simplify_eq/=.
  apply trim_id; [done|]. by apply trim_end_app.
Qed.

Lemma move_header move chunks rest :
  chunks <> [] ->
  head ((render_move move ++ concat (render_chunk <$> chunks)) ++ rest)
  ≫= strip_prefix MOVE_TO_MARKER = move.
Proof.
  intros Hne. destruct move as [p|]; [apply (strip_prefix_app MOVE_TO_MARKER)|].
  destruct chunks as [|[[c|] ? ?] cs]; done.
Qed.

Lemma move_slice move tail rest :
  match move with
  | Some _ => (drop 1 ((render_move move ++ tail) ++ rest), 2)
  | None => ((render_move move ++ tail) ++ rest, 1)
  end = (tail ++ rest, S (length (render_move move))).
Proof. by destruct move. Qed.

Lemma parse_render_hunk h rest ln :
  wf_script h -> hunk_boundary rest ->
  exists l ls, render_hunk h = l :: ls /\
    parse_one_hunk l (ls ++ rest) ln = Some (Ok (meant_hunk h, length (render_hunk h))).
Proof.
  intros Hwf Hb. destruct h as [path contents|path|path move chunks]; cbn [render_hunk];
    eexists _, _; split; [done| |done| |done|]; unfold parse_one_hunk.
  - destruct Hwf as [Hp Hc]. rewrite path_header_trim, strip_prefix_app by done.
    rewrite add_file_body_render.
    + rewrite content_lines_concat by done. cbn [length app].
      by rewrite length_fmap.
    + intros l Hl. destruct rest as [|l' rest]; simplify_eq/=.
      by destruct Hb as (r & -> & _).
  - rewrite path_header_trim by done.
    change (strip_prefix ADD_FILE_MARKER (DELETE_FILE_MARKER ++ path)) with (@None str).
    by rewrite strip_prefix_app.
  - destruct Hwf as (Hp & Hne & Hcs). rewrite path_header_trim by done.
    change (strip_prefix ADD_FILE_MARKER (UPDATE_FILE_MARKER ++ path)) with (@None str).
    change (strip_prefix DELETE_FILE_MARKER (UPDATE_FILE_MARKER ++ path)) with (@None str).
    rewrite strip_prefix_app.
    rewrite move_header by done. rewrite move_slice, update_chunks_render by done.
    cbn [app]. destruct chunks as [|c cs]; [done|]. do 4 f_equal.
    cbn [length]. by rewrite length_app.
Qed.

Lemma render_hunk_boundary h rest :
  wf_script h -> hunk_boundary (render_hunk h ++ rest).
Proof.
  intros Hwf. destruct h as [path contents|path|path move chunks]; simpl; eexists; split; done.
Qed.

Lemma render_hunks_boundary hs :
  Forall wf_script hs -> hunk_boundary (render_hunks hs).
Proof.
  intros H. destruct H; [done|]. by apply render_hunk_boundary.
Qed.

Lemma parse_hunks_render fuel hs ln acc :
  Forall wf_script hs -> length (render_hunks hs) <= fuel ->
  parse_hunks fuel (render_hunks hs) ln acc = Some (Ok (acc ++ (meant_hunk <$> hs))).
Proof.
  revert fuel ln acc. induction hs as [|h hs IH]; intros fuel ln acc Hwf Hf.
  - rewrite app_nil_r. by destruct fuel.
  - apply Forall_cons in Hwf as [Hh Hhs].
    destruct (parse_render_hunk h (render_hunks hs) ln Hh (render_hunks_boundary _ Hhs))
      as (l & ls & Hl & Hp).
    unfold render_hunks in *. rewrite fmap_cons in *. cbn [concat] in *.
    rewrite Hl in Hf |- *. destruct fuel as [|fuel]; [simpl in Hf; lia|].
    cbn [app parse_hunks]. rewrite Hp, app_comm_cons, <- Hl, drop_app_length.
    rewrite IH; [by rewrite <- app_assoc|done|].
    simpl in Hf. rewrite length_app in Hf. lia.
Qed.

Lemma parse_all_hunks_eq ls :
  parse_hunks (length ls) ls 2 [] = Some (parse_all_hunks ls).
Proof.
  destruct (parse_hunks_total (length ls) ls 2 [] (Nat.le_refl _)) as [r Hr].
  transitivity (Some r); [done|]. f_equal. symmetry. by apply is_Some_proj_eq.
Qed.

Lemma parse_all_hunks_render hs :
  Forall wf_script hs -> parse_all_hunks (render_hunks hs) = Ok (meant_hunk <$> hs).
Proof.
  intros H. pose proof (parse_all_hunks_eq (render_hunks hs)) as E.
  rewrite parse_hunks_render in E by done. by injection E.
Qed.

(** ** Patch texts *)

Lemma join_snoc sep l x : exists a, join sep (l ++ [x]) = a ++ x.
Proof.
  induction l as [|y l [a IH]]; [by exists []|].
  cbn [app]. rewrite join_cons by (by destruct l). rewrite IH.
  exists (y ++ sep ++ a). by rewrite <- !app_assoc.
Qed.

Lemma trim_render_patch hs : trim (render_patch hs) = render_patch hs.
Proof.
  unfold render_patch. change ([BEGIN_PATCH_MARKER] ++ ?x) with (BEGIN_PATCH_MARKER :: x).
  rewrite join_cons by (by destruct (render_hunks hs)).
  change (BEGIN_PATCH_MARKER ++ ?x) with (42%N :: (lit "** Begin Patch" ++ x)).
  destruct (join_snoc [LF] (render_hunks hs) END_PATCH_MARKER) as [a ->].
  apply trim_id; [done|]. rewrite !app_assoc. by apply trim_end_app.
Qed.

Lemma str_lines_render_patch hs :
  Forall clean_line (render_hunks hs) ->
  str_lines (trim (render_patch hs))
  = BEGIN_PATCH_MARKER :: render_hunks hs ++ [END_PATCH_MARKER].
Proof.
  intros Hc. rewrite trim_render_patch. apply str_lines_join; [|by rewrite app_comm_cons, last_snoc|done].
  apply Forall_cons. split; [by apply (bool_decide_unpack _)|].
  apply Forall_app. split; [done|]. constructor; [by apply (bool_decide_unpack _)|done].
Qed.

Lemma inner_slice_spec x l y : inner_slice (x :: l ++ [y]) = l.
Proof.
  unfold inner_slice. cbn [length]. rewrite length_app. cbn [length].
  replace (S (length l + 1) - 1) with (S (length l)) by lia. simpl.
  by rewrite drop_0, take_app_length.
Qed.

Lemma check_strict_Ok ls :
  check_patch_boundaries_strict ls = Ok tt <->
  exists l, ls = BEGIN_PATCH_MARKER :: l ++ [END_PATCH_MARKER].
Proof.
  unfold check_patch_boundaries_strict, check_start_and_end_lines_strict. split.
  - destruct ls as [|x ls]; [done|]. cbn [head].
    destruct (last (x :: ls)) as [y|] eqn:Hl; [|by case_match].
    destruct (str_eqb x _ && str_eqb y _) eqn:E; [|by case_match].
    bool_solve. repeat match goal with H : str_eqb _ _ = true |- _ =>
      apply str_eqb_eq in H; subst end.
    intros _. destruct ls as [|z ls _] using rev_ind; [done|].
    rewrite app_comm_cons, last_snoc in Hl. simplify_eq. by exists ls.
  - intros [l ->]. cbn [head]. by rewrite app_comm_cons, last_snoc.
Qed.

Lemma check_strict_Err ls e :
  check_patch_boundaries_strict ls = Err e -> exists m, e = InvalidPatchError m.
Proof.
  unfold check_patch_boundaries_strict, check_start_and_end_lines_strict.
  intros H. repeat case_match; simplify_eq; eauto.
Qed.

Lemma select_patch_lines_Ok ls mode sel :
  select_patch_lines ls mode = Ok sel ->
  check_patch_boundaries_strict sel = Ok tt /\ (sel = ls \/ sel = inner_slice ls).
Proof.
  unfold select_patch_lines, check_patch_boundaries_lenient. intros H.
  repeat match goal with x : unit |- _ => destruct x | _ => case_match end;
    simplify_eq; eauto.
Qed.

(** ** The parser's output is well formed *)

Lemma chunk_body_wf ln ls c n c' n' :
  chunk_body ln ls c n = Ok (c', n') ->
  (n <> 0 -> wf_chunk c) -> n' <> 0 -> wf_chunk c'.
Proof.
  revert c n. induction ls as [|l ls IH]; intros c n H; [naive_solver|].
  cbn [chunk_body] in H. destruct (str_eqb l EOF_MARKER).
  { destruct (n =? 0) eqn:?; bool_solve; simplify_eq. unfold wf_chunk. naive_solver. }
  assert (Hpush : forall c, wf_chunk c -> wf_chunk c) by auto.
  repeat case_match; bool_solve; simplify_eq; try naive_solver;
    intros _; apply (IH _ _ H); intros _; unfold wf_chunk, push_old, push_new; simpl;
    first [ left; by destruct (old_lines c) | right; by destruct (new_lines c) ].
Qed.

Lemma parse_update_file_chunk_wf ls ln allow c n :
  parse_update_file_chunk ls ln allow = Ok (c, n) -> wf_chunk c.
Proof.
  unfold parse_update_file_chunk. destruct ls as [|l ls']; [done|].
  intros ([ctx start] & Hctx & H)%result_bind_Ok.
  assert (start <= 1) by (unfold chunk_header in Hctx; repeat case_match; naive_solver lia).
  destruct (Nat.leb_spec (length (l :: ls')) start); [done|].
  apply result_bind_Ok in H as ([c' k] & Hb & [= <- <-]).
  pose proof (chunk_body_bounds _ _ _ _ _ _ Hb) as [_ Hnz].
  eapply chunk_body_wf; [done|done|]. apply Hnz. intros Hd.
  apply (f_equal length) in Hd. rewrite length_drop in Hd. simpl in *. lia.
Qed.

Lemma update_chunks_wf fuel ls ln cs n cs' n' :
  update_chunks fuel ls ln cs n = Some (Ok (cs', n')) ->
  Forall wf_chunk cs -> Forall wf_chunk cs'.
Proof.
  revert ls cs n. induction fuel as [|fuel IH]; intros [|l ls] cs n H Hcs; simplify_eq/=;
    try done.
  destruct (str_eqb _ _); [by eapply IH|].
  destruct (starts_with _ _); [by simplify_eq|].
  destruct (parse_update_file_chunk _ _ _) as [[c k]|e] eqn:E; simplify_eq.
  apply parse_update_file_chunk_wf in E. eapply IH; [done|].
  apply Forall_app_2; [done|by apply Forall_singleton].
Qed.

Lemma header_path_wf m l p :
  last m = Some 32%N -> strip_prefix m (trim l) = Some p -> wf_path p.
Proof.
  intros Hm Hp%strip_prefix_Some. pose proof (trim_last l) as Hl. rewrite Hp in Hl.
  destruct p as [|y p _] using rev_ind.
  { rewrite app_nil_r in Hl. by apply Hl in Hm. }
  split; [by destruct p|]. apply drop_while_end_id. intros x Hx. apply Hl.
  by rewrite app_assoc, last_snoc in *.
Qed.

Lemma add_file_body_wf ls txt n txt' n' :
  add_file_body ls txt n = (txt', n') -> wf_contents txt -> wf_contents txt'.
Proof.
  revert txt n. induction ls as [|l ls IH]; intros txt n H Hw; simplify_eq/=; [done|].
  destruct (strip_prefix _ l); [|by simplify_eq]. eapply IH; [done|]. right.
  by rewrite app_assoc, last_snoc.
Qed.

Lemma parse_one_hunk_wf l ls ln h n :
  parse_one_hunk l ls ln = Some (Ok (h, n)) -> wf_hunk h.
Proof.
  unfold parse_one_hunk.
  destruct (strip_prefix ADD_FILE_MARKER _) eqn:Hp.
  { destruct (add_file_body ls [] 1) eqn:E. intros [= <- <-].
    split; [by eapply (header_path_wf ADD_FILE_MARKER)|]. eapply add_file_body_wf; [done|by left]. }
  destruct (strip_prefix DELETE_FILE_MARKER _) eqn:Hp'.
  { intros [= <- <-]. by eapply (header_path_wf DELETE_FILE_MARKER). }
  destruct (strip_prefix UPDATE_FILE_MARKER _) eqn:Hp''; [|done].
  intros H. repeat case_match; simplify_eq;
    (split; [by eapply (header_path_wf UPDATE_FILE_MARKER)|split; [done|]]);
    by eapply update_chunks_wf.
Qed.

Lemma parse_hunks_wf fuel ls ln hs hs' :
  parse_hunks fuel ls ln hs = Some (Ok hs') -> Forall wf_hunk hs -> Forall wf_hunk hs'.
Proof.
  revert ls ln hs. induction fuel as [|fuel IH]; intros [|l ls] ln hs H Hhs;
    simplify_eq/=; try done.
  destruct (parse_one_hunk l ls ln) as [[[h n]|e]|] eqn:E; simplify_eq.
  apply parse_one_hunk_wf in E. eapply IH; [done|]. apply Forall_app_2; [done|by apply Forall_singleton].
Qed.

(** ** Error positions *)

(** Line [n] of an error lies in the [len] lines from line [ln] on, or is the
    line after them. *)
Definition error_within (ln len : nat) (e : parse_error) : Prop :=
  match e with
  | InvalidPatchError _ => False
  | InvalidHunkError _ n => ln <= n <= ln + len
  end.

Lemma chunk_body_error ln ls c n e :
  chunk_body ln ls c n = Err e -> error_within ln 1 e.
Proof.
  revert c n. induction ls as [|l ls IH]; intros c n H; [done|].
  cbn [chunk_body] in H. repeat case_match; simplify_eq; try (simpl; lia); by eapply IH.
Qed.

Lemma parse_update_file_chunk_error ls ln allow e :
  parse_update_file_chunk ls ln allow = Err e -> error_within ln 1 e.
Proof.
  unfold parse_update_file_chunk, chunk_header. destruct ls as [|l ls'].
  { intros [= <-]. simpl. lia. }
  intros [H|([ctx start] & Hctx & H)]%result_bind_Err.
  { repeat case_match; simplify_eq. simpl. lia. }
  destruct (_ <=? _); [simplify_eq; simpl; lia|].
  apply result_bind_Err in H as [H|([? ?] & _ & H)]; [|done].
  by eapply chunk_body_error.
Qed.

Lemma update_chunks_error fuel ls ln cs n e :
  update_chunks fuel ls ln cs n = Some (Err e) -> error_within (ln + n) (length ls) e.
Proof.
  revert ls cs n. induction fuel as [|fuel IH]; intros [|l ls] cs n H; simplify_eq/=.
  destruct (str_eqb _ _).
  { apply IH in H. destruct e; simpl in *; lia. }
  destruct (starts_with _ _); [done|].
  destruct (parse_update_file_chunk _ _ _) as [[c k]|e'] eqn:E; simplify_eq.
  - apply parse_update_file_chunk_progress in E. apply IH in H.
    rewrite length_drop in H. destruct e; simpl in *; lia.
  - apply parse_update_file_chunk_error in E. destruct e; simpl in *; lia.
Qed.

Lemma parse_one_hunk_error l ls ln e :
  parse_one_hunk l ls ln = Some (Err e) -> error_within ln (S (length ls)) e.
Proof.
  unfold parse_one_hunk.
  destruct (strip_prefix ADD_FILE_MARKER _); [by case_match|].
  destruct (strip_prefix DELETE_FILE_MARKER _); [done|].
  destruct (strip_prefix UPDATE_FILE_MARKER _); [|intros [= <-]; simpl; lia].
  destruct (head ls ≫= _) eqn:Hm; cbv beta iota zeta; intros H;
    repeat case_match; simplify_eq; try (simpl; lia);
    match goal with E : update_chunks _ _ _ _ _ = _ |- _ =>
      apply update_chunks_error in E end; destruct ls, e; simplify_eq/=;
    rewrite ?drop_0 in *; try lia.
Qed.

Lemma parse_hunks_error fuel ls ln hs e :
  parse_hunks fuel ls ln hs = Some (Err e) -> error_within ln (length ls) e.
Proof.
  revert ls ln hs. induction fuel as [|fuel IH]; intros [|l ls] ln hs H; simplify_eq/=.
  destruct (parse_one_hunk l ls ln) as [[[h n]|e']|] eqn:E; simplify_eq.
  - apply parse_one_hunk_bounds in E. apply IH in H. rewrite length_drop in H.
    destruct e; simpl in *; lia.
  - by apply parse_one_hunk_error in E.
Qed.

(** ** Properties *)

(** C4: printing a patch and parsing the text gives the hunks that the patch
    means, in strict and in lenient mode, for every list of well-formed scripts
    (whose chunks interleave context, blank, removed and added lines in any way)
    whose printed lines contain no line break: no file operation, path, context
    line or changed line is lost, reordered or altered by the patch format. *)
Theorem parse_render_patch hs mode :
  Forall wf_script hs -> Forall clean_line (render_hunks hs) ->
  parse_patch_text (render_patch hs) mode
  = Ok (ApplyPatchArgs (render_patch hs) (meant_hunk <$> hs) None).
Proof.
  intros Hwf Hclean. unfold parse_patch_text. rewrite str_lines_render_patch by done.
  unfold select_patch_lines. rewrite (proj2 (check_strict_Ok _)) by eauto.
  cbn [mbind result_bind]. rewrite inner_slice_spec, parse_all_hunks_render by done.
  done.
Qed.

Definition sample_scripts : list hunk_script :=
  [ AddScript (lit "a/new.txt") (lit "one" ++ [LF] ++ lit "two" ++ [LF]);
    DeleteScript (lit "old.txt");
    UpdateScript (lit "src/x.rs") (Some (lit "src/y.rs"))
      [ ChunkScript (Some (lit "fn f()"))
          [Keep (lit "  {"); Remove (lit "  a"); KeepBlank; Insert (lit "  b"); Keep []] false;
        ChunkScript None [Insert (lit "tail")] true ] ].

Lemma sample_scripts_wf : Forall wf_script sample_scripts.
Proof. by apply (bool_decide_unpack _). Qed.

Lemma parse_render_patch_witness :
  parse_patch_text (render_patch sample_scripts) Lenient
  = Ok (ApplyPatchArgs (render_patch sample_scripts) (meant_hunk <$> sample_scripts) None).
Proof.
  apply parse_render_patch; [apply sample_scripts_wf | by apply (bool_decide_unpack _)].
Defined.

(** Every hunk the parser returns is well formed: its path is non-empty and
    does not end in whitespace, the text of an added file is empty or ends with a
    line feed, an update has at least one chunk and every chunk has at least one
    line; printing what was parsed and parsing it again changes nothing. *)
Theorem parse_patch_wf text mode args :
  parse_patch_text text mode = Ok args ->
  Forall wf_hunk (hunks args) /\ workdir args = None /\
  parse_all_hunks (render_hunks (plain_script <$> hunks args)) = Ok (hunks args).
Proof.
  intros (ls & _ & (hs & Hhs & [= <-])%result_bind_Ok)%result_bind_Ok.
  cbn [hunks workdir].
  assert (Hwf : Forall wf_hunk hs).
  { pose proof (parse_all_hunks_eq (inner_slice ls)) as E. rewrite Hhs in E.
    by eapply parse_hunks_wf. }
  split_and!; [done|done|]. rewrite parse_all_hunks_render.
  - f_equal. rewrite <- list_fmap_compose. rewrite <- (list_fmap_id hs) at 2.
    apply list_fmap_ext. intros _ h _. apply meant_plain.
  - apply Forall_fmap. eapply Forall_impl; [exact Hwf|]. apply wf_plain.
Qed.

Lemma parse_patch_wf_witness :
  exists args,
    parse_patch_text (lit "*** Begin Patch" ++ [LF] ++ lit "*** Delete File: x" ++ [LF]
                      ++ lit "*** End Patch") Strict = Ok args /\
    Forall wf_hunk (hunks args).
Proof.
  eexists. split; [vm_compute; reflexivity|].
  eapply (parse_patch_wf (lit "*** Begin Patch" ++ [LF] ++ lit "*** Delete File: x" ++ [LF]
                      ++ lit "*** End Patch") Strict). vm_compute. reflexivity.
Defined.

(** Both parsing loops terminate: with as much fuel as there are lines left
    the hunk loop and, inside it, the chunk loop always produce a result, since a
    hunk takes at least one line and at most all of them. *)
Theorem parse_loops_terminate fuel lines line_number :
  length lines <= fuel ->
  (forall hs, is_Some (parse_hunks fuel lines line_number hs)) /\
  (forall cs n, is_Some (update_chunks fuel lines line_number cs n)) /\
  (forall l h n, parse_one_hunk l lines line_number = Some (Ok (h, n)) ->
     1 <= n <= S (length lines)).
Proof.
  intros Hf. split_and!.
  - intros hs. by apply parse_hunks_total.
  - intros cs n. by apply update_chunks_total.
  - intros l h n. apply parse_one_hunk_bounds.
Qed.

Lemma parse_loops_terminate_witness :
  is_Some (parse_hunks 1 [lit "*** Delete File: x"] 2 []).
Proof. apply (parse_loops_terminate 1 [lit "*** Delete File: x"] 2). simpl. lia. Defined.

(** In lenient mode a heredoc wrapper ([<<EOF], [<<'EOF'] or the double-quoted
    form, up to a line ending in [EOF]) around a patch is removed and the lines
    between are used as they would be alone; strict mode refuses the wrapped text
    because its first line is not the begin marker. *)
Theorem lenient_strips_heredoc first_line lines last_line :
  is_heredoc_start first_line = true -> ends_with (lit "EOF") last_line = true ->
  check_patch_boundaries_strict lines = Ok tt ->
  select_patch_lines (first_line :: lines ++ [last_line]) Lenient = Ok lines /\
  select_patch_lines lines Strict = Ok lines /\
  select_patch_lines (first_line :: lines ++ [last_line]) Strict
  = Err (InvalidPatchError (lit "The first line of the patch must be '*** Begin Patch'")).
Proof.
  intros Hf Hl Hc. unfold select_patch_lines.
  assert (Hs : check_patch_boundaries_strict (first_line :: lines ++ [last_line])
    = Err (InvalidPatchError (lit "The first line of the patch must be '*** Begin Patch'"))).
  { unfold check_patch_boundaries_strict. cbn [head].
    rewrite app_comm_cons, last_snoc. unfold check_start_and_end_lines_strict.
    unfold is_heredoc_start in Hf. apply str_mem_elem in Hf.
    repeat (apply elem_of_cons in Hf as [->|Hf]; [done|]). set_solver. }
  rewrite Hs, Hc. split_and!; [|done|done].
  pose proof (inner_slice_spec first_line lines last_line) as Hin.
  assert (Hlast : last (first_line :: lines ++ [last_line]) = Some last_line)
    by (by rewrite app_comm_cons, last_snoc).
  assert (Hlen : 4 <= length (first_line :: lines ++ [last_line])).
  { apply check_strict_Ok in Hc as [l ->]. simpl. rewrite !length_app. simpl. lia. }
  unfold check_patch_boundaries_lenient. rewrite Hf, Hin, Hc.
  rewrite (proj2 (Nat.leb_le _ _) Hlen).
  destruct lines as [|x lines]; [done|]. cbn [app] in *. by rewrite Hlast, Hl.
Qed.

Lemma lenient_strips_heredoc_witness :
  select_patch_lines [lit "<<'EOF'"; BEGIN_PATCH_MARKER; END_PATCH_MARKER; lit "EOF"] Lenient
  = Ok [BEGIN_PATCH_MARKER; END_PATCH_MARKER].
Proof.
  apply (lenient_strips_heredoc (lit "<<'EOF'") [BEGIN_PATCH_MARKER; END_PATCH_MARKER]
           (lit "EOF")); reflexivity.
Defined.

(** How parsing fails: without the begin and end markers the error is an
    [InvalidPatchError] and no hunk is parsed; with them the only errors are
    [InvalidHunkError]s, and their line number is a line of the patch after the
    begin marker (the end marker's line at the latest). *)
Theorem parse_patch_errors text mode e :
  parse_patch_text text mode = Err e ->
  (exists m, e = InvalidPatchError m /\
     check_patch_boundaries_strict (str_lines (trim text)) <> Ok tt) \/
  (exists m n lines, e = InvalidHunkError m n /\
     select_patch_lines (str_lines (trim text)) mode = Ok lines /\
     2 <= n <= length lines).
Proof.
  intros [H|(ls & Hls & H)]%result_bind_Err.
  - left. unfold select_patch_lines, check_patch_boundaries_lenient in H.
    destruct (check_patch_boundaries_strict _) as [|e'] eqn:E1; [done|].
    apply check_strict_Err in E1 as [m ->].
    repeat case_match; simplify_eq; eauto.
    match goal with H' : check_patch_boundaries_strict _ = Err _ |- _ =>
      apply check_strict_Err in H' as [m' ->] end. eauto.
  - right. apply result_bind_Err in H as [H|(? & _ & ?)]; [|done].
    pose proof (parse_all_hunks_eq (inner_slice ls)) as E. rewrite H in E.
    apply parse_hunks_error in E.
    apply select_patch_lines_Ok in Hls as Hc. destruct Hc as [[l ->]%check_strict_Ok _].
    rewrite inner_slice_spec in E. destruct e as [|m n]; [done|].
    exists m, n, (BEGIN_PATCH_MARKER :: l ++ [END_PATCH_MARKER]). split_and!; [done..| |].
    + simpl in E. lia.
    + simpl in E |- *. rewrite length_app. simpl. lia.
Qed.

Lemma parse_patch_errors_witness :
  exists m n, parse_patch_text (lit "*** Begin Patch" ++ [LF] ++ lit "bad" ++ [LF]
     ++ lit "*** End Patch") Strict = Err (InvalidHunkError m n) /\ 2 <= n <= 3.
Proof.
  eexists _, _. split; [vm_compute; reflexivity|].
  destruct (parse_patch_errors (lit "*** Begin Patch" ++ [LF] ++ lit "bad" ++ [LF]
     ++ lit "*** End Patch") Strict _ ltac:(vm_compute; reflexivity))
    as [(m & [=] & _)|(m & n & ls & [= _ <-] & Hs & Hn)].
  vm_compute in Hs. injection Hs as <-. exact Hn.
Defined.
