(* ===== verification/Paths.v ===== *)
(** * Unix paths: the part of [std::path] the source uses

    A [Path] is its text.  Rust compares, hashes and prefixes paths by their
    components, so maps keyed by a path are keyed here by [path_components]. *)

From S2P Require Import Prelude.

Inductive component := RootDir | CurDir | ParentDir | Normal (s : str).

#[export] Instance component_eq_dec : EqDecision component.
Proof. solve_decision. Defined.

#[export] Instance component_countable : Countable component.
Proof.
  refine (inj_countable'
    (fun c => match c with
      | RootDir => inl (inl tt) | CurDir => inl (inr tt)
      | ParentDir => inr (inl tt) | Normal s => inr (inr s) end)
    (fun x => match x with
      | inl (inl _) => RootDir | inl (inr _) => CurDir
      | inr (inl _) => ParentDir | inr (inr s) => Normal s end) _).
  by intros [].
Defined.

Definition SLASH : char := 47%N.
Definition DOT : char := 46%N.

(** [Path::is_absolute], which is [has_root] on Unix. *)
Definition is_absolute (p : str) : bool := starts_with [SLASH] p.

(** Repeated separators are ignored, and so is [.] except at the very start of a
    relative path. *)
Definition part_component (at_start : bool) (s : str) : list component :=
  if str_eqb s [] then []
  else if str_eqb s [DOT] then (if at_start then [CurDir] else [])
  else if str_eqb s [DOT; DOT] then [ParentDir]
  else [Normal s].

Definition path_components (p : str) : list component :=
  match split_on SLASH p with
  | [] => []
  | s0 :: rest =>
      (if is_absolute p then [RootDir] else part_component true s0)
      ++ (rest ≫= part_component false)
  end.

(** [Path::join] (and [PathBuf::push]). *)
Definition path_join (base p : str) : str :=
  if is_absolute p then p
  else match last base with
       | None => p
       | Some c => if (c =? SLASH)%N then base ++ p else base ++ [SLASH] ++ p
       end.

(** The text of a component list: [as_os_str] up to redundant separators. *)
Definition component_text (c : component) : str :=
  match c with
  | RootDir => [] | CurDir => [DOT] | ParentDir => [DOT; DOT] | Normal s => s
  end.

Definition components_text (cs : list component) : str :=
  match cs with
  | [RootDir] => [SLASH]
  | _ => join [SLASH] (component_text <$> cs)
  end.

(** [Path::parent]. *)
Definition path_parent (p : str) : option (list component) :=
  match last (path_components p) with
  | None | Some RootDir => None
  | Some _ => Some (removelast (path_components p))
  end.

(** [Path::file_name] *)
Definition file_name (p : str) : option str :=
  match last (path_components p) with
  | Some (Normal s) => Some s
  | _ => None
  end.

(** [rsplit_file_at_dot]: the text before the last dot, unless that is empty. *)
Definition file_stem (p : str) : option str :=
  name ← file_name p;
  match split_once DOT (reverse name) with
  | None => Some name
  | Some (_, before_rev) =>
      if str_eqb before_rev [] then Some name else Some (reverse before_rev)
  end.

(** [Path::starts_with] *)
Definition path_starts_with (p base : str) : bool :=
  let n := length (path_components base) in
  bool_decide (take n (path_components p) = path_components base).

Example components_dots :
  path_components (lit "./a//./b/../c/")
  = [CurDir; Normal (lit "a"); Normal (lit "b"); ParentDir; Normal (lit "c")].
Proof. reflexivity. Qed.

Example components_root : path_components (lit "/usr/bin") = [RootDir; Normal (lit "usr"); Normal (lit "bin")].
Proof. reflexivity. Qed.

Example file_stem_ex :
  (file_stem (lit "/bin/bash.exe"), file_stem (lit ".profile"), file_stem (lit "a/.."))
  = (Some (lit "bash"), Some (lit ".profile"), None).
Proof. reflexivity. Qed.

Example components_text_ex :
  (components_text <$> path_parent (lit "a/b"), components_text <$> path_parent (lit "a"),
   components_text <$> path_parent (lit "/a"), path_parent (lit "/"))
  = (Some (lit "a"), Some [], Some (lit "/"), None).
Proof. reflexivity. Qed.
