(* ===== verification/FileSystem.v ===== *)
(** * The file system and the output streams, as the source uses them

    [std::fs] and [std::io::Write] are not part of the program: they are the
    classes [FileSystem] and [Console], over an abstract state of the outside
    world.  [FileSystemLaws] states what the program relies on: which file an
    operation may change, and what it changes it to.  A path names a location
    ([loc]; two paths may name the same one), and [file_at] is the text of the
    regular file at a location.  [MemFs] is an instance in memory, on which the
    witnesses run. *)

From S2P Require Import Prelude Paths.

(** [std::io::ErrorKind], [std::io::Error]: its kind and its text. *)
Inductive io_kind := NotFound | PermissionDenied | AlreadyExists | Other | OtherKind (n : N).

Record io_error := IoErr { io_err_kind : io_kind; io_err_text : str }.

#[export] Instance io_kind_eq_dec : EqDecision io_kind.
Proof. solve_decision. Defined.
#[export] Instance io_error_eq_dec : EqDecision io_error.
Proof. solve_decision. Defined.

(** [std::fs::read_to_string], [write], [create_dir_all], [remove_file]. *)
Class FileSystem (S : Type) := {
  read_to_string : str -> io S io_error str;
  write_file : str -> str -> io S io_error unit;
  create_dir_all : str -> io S io_error unit;
  remove_file : str -> io S io_error unit;
}.

(** [writeln!] on the two streams the caller passes: one call of
    [Write::write_fmt] with the whole line. *)
Class Console (S : Type) := {
  writeln_out : str -> io S io_error unit;
  writeln_err : str -> io S io_error unit;
}.

(** ** Views: the text of every file *)

Definition view (L : Type) : Type := L -> option str.

#[export] Instance view_equiv L : Equiv (view L) := fun v w => forall l, v l = w l.

#[export] Instance view_equivalence L : Equivalence (≡@{view L}).
Proof.
  split; [by intros ? ?|by intros ? ? H l|].
  intros u v w H1 H2 l. by rewrite (H1 l).
Qed.

Definition upd {L} `{EqDecision L} (l : L) (o : option str) (v : view L) : view L :=
  fun k => if decide (k = l) then o else v k.

#[export] Instance upd_proper {L} `{EqDecision L} l o :
  Proper ((≡) ==> (≡)) (upd (L:=L) l o).
Proof. intros v w H k. unfold upd. case_decide; [done|]. apply H. Qed.

Lemma upd_same {L} `{EqDecision L} (l : L) o v : upd l o v l = o.
Proof. unfold upd. by rewrite decide_True. Qed.

Lemma upd_other {L} `{EqDecision L} (l k : L) o v : k <> l -> upd l o v k = v k.
Proof. intros. unfold upd. by rewrite decide_False. Qed.

(** ** What the program relies on *)

Class FileSystemLaws (S L : Type) `{EqDecision L} `{!FileSystem S} `{!Console S} := {
  loc : str -> L;
  file_at : S -> view L;
  (** Reading changes nothing and returns the text of the file. *)
  read_Ok s p c s' : read_to_string p s = (Ok c, s') ->
    file_at s (loc p) = Some c /\ file_at s' ≡ file_at s;
  read_Err s p e s' : read_to_string p s = (Err e, s') -> file_at s' ≡ file_at s;
  (** Writing replaces the text; a failed write may have cut the file short. *)
  write_Ok s p c s' : write_file p c s = (Ok tt, s') ->
    file_at s' ≡ upd (loc p) (Some c) (file_at s);
  write_Err s p c e s' : write_file p c s = (Err e, s') ->
    forall l, l <> loc p -> file_at s' l = file_at s l;
  (** Creating directories creates no file. *)
  mkdir_frame s p r s' : create_dir_all p s = (r, s') -> file_at s' ≡ file_at s;
  remove_Ok s p s' : remove_file p s = (Ok tt, s') ->
    file_at s' ≡ upd (loc p) None (file_at s);
  remove_Err s p e s' : remove_file p s = (Err e, s') -> file_at s' ≡ file_at s;
  (** The output streams are not files of the file system. *)
  out_frame s m r s' : writeln_out m s = (r, s') -> file_at s' ≡ file_at s;
  err_frame s m r s' : writeln_err m s = (r, s') -> file_at s' ≡ file_at s;
}.

(** ** A file system in memory *)

Module MemFs.
Record world := World {
  files : gmap (list Paths.component) str;
  out : list str;
  err : list str;
}.

Definition not_found : io_error := IoErr NotFound (lit "No such file or directory (os error 2)").

#[export] Instance mem_fs : FileSystem world := {
  read_to_string p w :=
    match files w !! path_components p with
    | Some c => (Ok c, w)
    | None => (Err not_found, w)
    end;
  write_file p c w :=
    (Ok tt, World (<[path_components p := c]> (files w)) (out w) (err w));
  create_dir_all p w := (Ok tt, w);
  remove_file p w :=
    match files w !! path_components p with
    | Some _ => (Ok tt, World (delete (path_components p) (files w)) (out w) (err w))
    | None => (Err not_found, w)
    end;
}.

#[export] Instance mem_console : Console world := {
  writeln_out m w := (Ok tt, World (files w) (out w ++ [m]) (err w));
  writeln_err m w := (Ok tt, World (files w) (out w) (err w ++ [m]));
}.

#[export, refine] Instance mem_laws : FileSystemLaws world (list Paths.component) := {
  loc := path_components;
  file_at w l := files w !! l;
}.
Proof.
  - intros w p c w' H. simpl in H. by case_match; simplify_eq.
  - intros w p e w' H. simpl in H. by case_match; simplify_eq.
  - intros w p c w' H l. simpl in H. injection H as <-. simpl. unfold upd.
    case_decide; subst; by simplify_map_eq.
  - intros w p c e w' H. done.
  - intros w p r w' H. simpl in H. by simplify_eq.
  - intros w p w' H l. simpl in H. case_match; simplify_eq. simpl. unfold upd.
    case_decide; subst; by simplify_map_eq.
  - intros w p e w' H. simpl in H. by case_match; simplify_eq.
  - intros w m r w' H. simpl in H. by simplify_eq.
  - intros w m r w' H. simpl in H. by simplify_eq.
Defined.

Definition empty_world : world := World ∅ [] [].
End MemFs.
