(* ===== verification/PatchText.v ===== *)
(** * Applying the chunks of an update to the text of a file

    [code-rs/apply-patch/src/lib.rs], from [LineEnding] to [apply_replacements]:
    the file is cut into lines, each chunk is located with [seek_sequence] and
    turned into a replacement, the replacements are sorted and applied from the
    last one to the first, and the lines are joined with the file's own line
    ending.  [Vec::insert] panics out of range; [vec_insert] returns [None] there
    and [apply_replacements_total] shows that it never happens. *)

From S2P Require Import Prelude SeekSequence PatchParser Paths FileSystem.

(** ** Errors *)

Inductive apply_patch_error :=
| ParseError (e : parse_error)
| IoError (context : str) (source : io_error)
| ComputeReplacements (message : str)
| ImplicitInvocation
| MalformedHeredocInvocation.

#[export] Instance apply_patch_error_eq_dec : EqDecision apply_patch_error.
Proof. solve_decision. Defined.

(** ** Line endings *)

Inductive line_ending := Lf | Crlf.

Definition detect (contents : str) : line_ending :=
  if str_contains [CR; LF] contents then Crlf else Lf.

Definition joiner (e : line_ending) : str :=
  match e with Lf => [LF] | Crlf => [CR; LF] end.

(** [line.strip_suffix('\r').unwrap_or(line)] *)
Definition normalize_line_ending (line : str) : str := strip_cr line.

(** ** Computing the replacements *)

(** [(start_index, old_len, new_lines)] *)
Definition replacement : Type := nat * nat * list str.

Definition repl_start (r : replacement) : nat := r.1.1.
Definition repl_leb (a b : replacement) : bool := repl_start a <=? repl_start b.

(** The context line of a chunk moves [line_index] past its first match. *)
Definition seek_context (original_lines : list str) (path : str)
  (ctx : option str) (line_index : nat) : result apply_patch_error nat :=
  match ctx with
  | None => Ok line_index
  | Some ctx_line =>
      match seek_sequence original_lines [ctx_line] line_index false with
      | Some idx => Ok (idx + 1)
      | None =>
          Err (ComputeReplacements
                 (lit "Failed to find context '" ++ ctx_line ++ lit "' in " ++ path))
      end
  end.

(** The region of the old lines: the pattern and new lines that were used (both
    without the trailing empty line after a failed first search) and the match. *)
Definition locate (original_lines : list str) (c : update_file_chunk)
  (line_index : nat) : list str * list str * option nat :=
  let normalized_old_lines := normalize_line_ending <$> old_lines c in
  let normalized_new_lines := normalize_line_ending <$> new_lines c in
  let found := seek_sequence original_lines normalized_old_lines line_index
                             (is_end_of_file c) in
  match found with
  | None =>
      if last_is_empty normalized_old_lines then
        let pattern := removelast normalized_old_lines in
        let new_slice := if last_is_empty normalized_new_lines
                         then removelast normalized_new_lines
                         else normalized_new_lines in
        (pattern, new_slice,
         seek_sequence original_lines pattern line_index (is_end_of_file c))
      else (normalized_old_lines, normalized_new_lines, found)
  | Some _ => (normalized_old_lines, normalized_new_lines, found)
  end.

(** The loop body for one chunk: the replacement and the new [line_index]. *)
Definition chunk_replacement (original_lines : list str) (path : str)
  (c : update_file_chunk) (line_index : nat)
  : result apply_patch_error (replacement * nat) :=
  line_index ← seek_context original_lines path (change_context c) line_index;
  match old_lines c with
  | [] =>
      let insertion_idx := if last_is_empty original_lines
                           then length original_lines - 1
                           else length original_lines in
      Ok (insertion_idx, 0, normalize_line_ending <$> new_lines c, line_index)
  | _ =>
      let '(pattern, new_slice, found) := locate original_lines c line_index in
      match found with
      | Some start_idx =>
          Ok (start_idx, length pattern, new_slice, start_idx + length pattern)
      | None =>
          Err (ComputeReplacements
                 (lit "Failed to find expected lines in " ++ path ++ lit ":" ++ [LF] ++
                  join [LF] (normalize_line_ending <$> old_lines c)))
      end
  end.

Fixpoint collect_replacements (original_lines : list str) (path : str)
  (chunks : list update_file_chunk) (line_index : nat)
  : result apply_patch_error (list replacement) :=
  match chunks with
  | [] => Ok []
  | c :: cs =>
      '(r, line_index) ← chunk_replacement original_lines path c line_index;
      rs ← collect_replacements original_lines path cs line_index;
      Ok (r :: rs)
  end.

Definition compute_replacements (original_lines : list str) (path : str)
  (chunks : list update_file_chunk) : result apply_patch_error (list replacement) :=
  rs ← collect_replacements original_lines path chunks 0;
  Ok (sort_by repl_leb rs).

(** ** Applying the replacements *)

(** [for _ in 0..old_len { if start_idx < lines.len() { lines.remove(start_idx) } }] *)
Fixpoint remove_lines (start_idx old_len : nat) (lines : list str) : list str :=
  match old_len with
  | O => lines
  | S n => remove_lines start_idx n
             (if start_idx <? length lines then delete start_idx lines else lines)
  end.

(** [Vec::insert]; [None] is its panic. *)
Definition vec_insert (i : nat) (x : str) (l : list str) : option (list str) :=
  if i <=? length l then Some (take i l ++ x :: drop i l) else None.

(** [for (offset, new_line) in new_segment.iter().enumerate()] *)
Fixpoint insert_lines (start_idx : nat) (segment : list str) (lines : list str)
  : option (list str) :=
  match segment with
  | [] => Some lines
  | x :: seg => vec_insert start_idx x lines ≫= insert_lines (S start_idx) seg
  end.

Definition apply_one (lines : list str) (r : replacement) : option (list str) :=
  let '(start_idx, old_len, new_segment) := r in
  insert_lines start_idx new_segment (remove_lines start_idx old_len lines).

(** The replacements in reverse order: the last one is applied first. *)
Fixpoint apply_replacements (lines : list str) (rs : list replacement)
  : option (list str) :=
  match rs with
  | [] => Some lines
  | r :: rs' => apply_replacements lines rs' ≫= fun lines' => apply_one lines' r
  end.

#[global] Arguments apply_one : simpl never.

(** ** The replacements never panic *)

Lemma remove_lines_spec s n l :
  s <= length l -> remove_lines s n l = take s l ++ drop (s + n) l.
Proof.
  revert l. induction n as [|n IH]; intros l Hs; simpl.
  { by rewrite Nat.add_0_r, take_drop. }
  destruct (Nat.ltb_spec s (length l)) as [Hlt|Hge].
  - rewrite delete_take_drop. rewrite IH by (rewrite length_app, length_take; lia).
    rewrite take_app_le, take_take, Nat.min_id by (rewrite length_take; lia).
    f_equal. rewrite drop_app_ge by (rewrite length_take; lia).
    rewrite length_take, drop_drop. f_equal. lia.
  - rewrite IH by done. f_equal. rewrite !drop_ge by lia. done.
Qed.

Lemma insert_lines_spec s seg l :
  s <= length l -> insert_lines s seg l = Some (take s l ++ seg ++ drop s l).
Proof.
  revert s l. induction seg as [|x seg IH]; intros s l Hs; simpl.
  { by rewrite take_drop. }
  unfold vec_insert. rewrite (proj2 (Nat.leb_le _ _) Hs). simpl.
  assert (Hlen : length (take s l) = s) by (rewrite length_take; lia).
  rewrite IH by (rewrite length_app; simpl; lia).
  rewrite take_app_ge, drop_app_ge by lia.
  rewrite Hlen. replace (S s - s) with 1 by lia. simpl.
  by rewrite take_0, drop_0, <- app_assoc.
Qed.

Lemma apply_one_spec l s n seg :
  s <= length l -> apply_one l (s, n, seg) = Some (take s l ++ seg ++ drop (s + n) l).
Proof.
  intros Hs. unfold apply_one. rewrite remove_lines_spec by done.
  assert (Hlen : length (take s l) = s) by (rewrite length_take; lia).
  rewrite insert_lines_spec by (rewrite length_app; lia).
  rewrite take_app_le, take_take, drop_app_ge by lia.
  by rewrite Nat.min_id, Hlen, Nat.sub_diag, drop_0.
Qed.

Definition repl_le (a b : replacement) : Prop := repl_leb a b = true.

Lemma apply_replacements_total lines rs :
  StronglySorted repl_le rs -> Forall (fun r => repl_start r <= length lines) rs ->
  exists out, apply_replacements lines rs = Some out /\
    forall s, s <= length lines -> Forall (fun r => s <= repl_start r) rs ->
      take s out = take s lines /\ s <= length out.
Proof.
  induction 1 as [|[[s0 n] seg] rs Hs IH Hle]; intros Hb; [by exists lines|].
  apply Forall_cons in Hb as [Hb0 Hb]. destruct (IH Hb) as (out & Hout & Hpre).
  simpl. rewrite Hout. simpl.
  destruct (Hpre s0) as [Htake Hlen]; [done| |].
  { eapply Forall_impl; [exact Hle|]. intros r Hr. unfold repl_le, repl_leb in Hr.
    by apply Nat.leb_le in Hr. }
  rewrite apply_one_spec by done. eexists. split; [done|].
  intros s Hs1 [Hs2 _]%Forall_cons. unfold repl_start in Hs2. simpl in Hs2.
  rewrite take_app_le, take_take, Nat.min_l by (rewrite ?length_take; lia). split.
  - rewrite <- (Nat.min_l s s0) at 1 by lia. rewrite <- take_take, Htake, take_take.
    by rewrite Nat.min_l.
  - rewrite !length_app, length_take. lia.
Qed.

Definition repl_end (r : replacement) : nat := r.1.1 + r.1.2.

Lemma last_is_empty_spec l :
  last_is_empty l = true <-> l = removelast l ++ [[]].
Proof.
  unfold last_is_empty. destruct l as [|x l _] using rev_ind; [done|].
  rewrite last_snoc, removelast_last. split.
  - by destruct x.
  - intros H. apply app_inj_tail in H as [_ ->]. done.
Qed.

Lemma seek_context_bound ls p ctx i j :
  i <= length ls -> seek_context ls p ctx i = Ok j ->
  i <= j <= length ls /\
  (forall c, ctx = Some c -> i < j /\ occurs unified ls [c] (j - 1)).
Proof.
  unfold seek_context. intros Hi H. destruct ctx as [c|]; [|by simplify_eq].
  destruct (seek_sequence _ _ _ _) eqn:E; simplify_eq.
  apply seek_sequence_Some in E as (Hlen & Hle & Ho); [|done].
  specialize (Hle eq_refl). simpl in Hlen. split; [lia|].
  intros ? [= <-]. rewrite Nat.add_sub. split; [lia|done].
Qed.

(** Either the old lines as they are, or without the empty line at their end. *)
Definition pattern_of (c : update_file_chunk) (pattern new_slice : list str) : Prop :=
  (pattern = normalize_line_ending <$> old_lines c /\
   new_slice = normalize_line_ending <$> new_lines c) \/
  (normalize_line_ending <$> old_lines c = pattern ++ [[]] /\
   (normalize_line_ending <$> new_lines c = new_slice ++ [[]] \/
    (last (normalize_line_ending <$> new_lines c) <> Some [] /\
     new_slice = normalize_line_ending <$> new_lines c))).

Lemma locate_spec ls c i pattern new_slice idx :
  i <= length ls -> old_lines c <> [] ->
  locate ls c i = (pattern, new_slice, Some idx) ->
  pattern_of c pattern new_slice /\ idx + length pattern <= length ls /\
  (is_end_of_file c = false -> i <= idx) /\ occurs unified ls pattern idx.
Proof.
  intros Hi Hne. unfold locate.
  assert (Hseek : forall pat k, seek_sequence ls pat i (is_end_of_file c) = Some k ->
    k + length pat <= length ls /\ (is_end_of_file c = false -> i <= k) /\
    occurs unified ls pat k).
  { intros pat k Hk. destruct pat as [|x pat].
    - injection Hk as <-. split_and!; [simpl; lia|done|done].
    - by apply seek_sequence_Some in Hk. }
  destruct (seek_sequence ls (normalize_line_ending <$> old_lines c) i _) eqn:E.
  { intros [= <- <- <-]. split; [by left|]. by apply Hseek. }
  destruct (last_is_empty (normalize_line_ending <$> old_lines c)) eqn:Hl; [|done].
  intros [= <- <- Hk]. split; [|by apply Hseek]. right.
  apply last_is_empty_spec in Hl. split; [done|].
  destruct (last_is_empty (normalize_line_ending <$> new_lines c)) eqn:Hn;
    [left; by apply last_is_empty_spec in Hn|right]. split; [|done].
  unfold last_is_empty in Hn. by destruct (last _) as [[|]|].
Qed.

Lemma chunk_replacement_bound ls p c i r i' :
  i <= length ls -> chunk_replacement ls p c i = Ok (r, i') ->
  repl_end r <= length ls /\ i' <= length ls.
Proof.
  unfold chunk_replacement, repl_end. intros Hi (k & Hk & H)%result_bind_Ok.
  apply seek_context_bound in Hk as [[_ Hk] _]; [|done].
  destruct (old_lines c) eqn:Ho.
  { simplify_eq. simpl. destruct (last_is_empty ls); lia. }
  destruct (locate ls c k) as [[pat new] [idx|]] eqn:E; simplify_eq. simpl.
  apply locate_spec in E as (_ & ? & _); [lia|done|congruence].
Qed.

Lemma collect_replacements_bound ls p cs i rs :
  i <= length ls -> collect_replacements ls p cs i = Ok rs ->
  Forall (fun r => repl_end r <= length ls) rs.
Proof.
  revert i rs. induction cs as [|c cs IH]; intros i rs Hi H; simplify_eq/=; [done|].
  apply result_bind_Ok in H as ([r j] & Hr & (rs' & Hrs & [= <-])%result_bind_Ok).
  apply chunk_replacement_bound in Hr as [Hr Hj]; [|done]. constructor; [done|].
  by eapply IH.
Qed.

Lemma repl_sort_sorted rs : StronglySorted repl_le (sort_by repl_leb rs).
Proof.
  apply sort_by_sorted; unfold repl_leb.
  - intros x y H. apply Nat.leb_gt in H. apply Nat.leb_le. lia.
  - intros x y z H1 H2. apply Nat.leb_le in H1, H2. apply Nat.leb_le. lia.
Qed.

Lemma compute_replacements_no_panic ls p cs rs :
  compute_replacements ls p cs = Ok rs -> is_Some (apply_replacements ls rs).
Proof.
  unfold compute_replacements. intros (rs' & H & [= <-])%result_bind_Ok.
  destruct (apply_replacements_total ls (sort_by repl_leb rs')) as (out & Hout & _).
  - apply repl_sort_sorted.
  - rewrite sort_by_perm. apply collect_replacements_bound in H; [|lia].
    eapply Forall_impl; [done|]. intros r. unfold repl_end, repl_start. lia.
  - by exists out.
Qed.

(** ** The new contents of a file *)

(** [apply_replacements(original_lines, &compute_replacements(..)?)] *)
Definition patch_lines (original_lines : list str) (path : str)
  (chunks : list update_file_chunk) : result apply_patch_error (list str) :=
  match compute_replacements original_lines path chunks as r
    return compute_replacements original_lines path chunks = r -> _ with
  | Ok rs => fun H => Ok (is_Some_proj (compute_replacements_no_panic _ _ _ _ H))
  | Err e => fun _ => Err e
  end eq_refl.

(** The lines of a file: the empty piece after a final LF is dropped. *)
Definition file_lines (contents : str) : list str :=
  let original_lines := normalize_line_ending <$> split_on LF contents in
  if last_is_empty original_lines then removelast original_lines else original_lines.

Definition file_text (e : line_ending) (new_lines : list str) : str :=
  join (joiner e) (if last_is_empty new_lines then new_lines else new_lines ++ [[]]).

(** [derive_new_contents_from_chunks] after the file has been read. *)
Definition new_contents_of (original_contents path : str)
  (chunks : list update_file_chunk) : result apply_patch_error str :=
  new_lines ← patch_lines (file_lines original_contents) path chunks;
  Ok (file_text (detect original_contents) new_lines).

(** ** Specification: patching left to right *)

(** [patched ls cs out]: [out] is [ls] with, for each chunk in order, one block of
    lines replaced by the chunk's new lines; blocks do not overlap, each is equal
    to the chunk's old lines up to whitespace and punctuation, and comes after a
    line equal, in the same sense, to the chunk's context. *)
Inductive patched : list str -> list update_file_chunk -> list str -> Prop :=
| patched_nil ls : patched ls [] ls
| patched_cons c cs keep old pattern new rest out :
    pattern_of c pattern new ->
    unified <$> old = unified <$> pattern ->
    (forall ctx, change_context c = Some ctx ->
       exists l, l ∈ keep /\ unified l = unified ctx) ->
    patched rest cs out ->
    patched (keep ++ old ++ rest) (c :: cs) (keep ++ new ++ out).

(** Chunks that are searched for from the end of the previous one on. *)
Definition in_order_chunk (c : update_file_chunk) : Prop :=
  old_lines c <> [] /\ is_end_of_file c = false.

Section splice.
Context (ls : list str).

Fixpoint ordered_from (i : nat) (rs : list replacement) : Prop :=
  match rs with
  | [] => i <= length ls
  | (s, n, _) :: rs' => i <= s /\ s + n <= length ls /\ ordered_from (s + n) rs'
  end.

Fixpoint splice (i : nat) (rs : list replacement) : list str :=
  match rs with
  | [] => drop i ls
  | (s, n, seg) :: rs' => take (s - i) (drop i ls) ++ seg ++ splice (s + n) rs'
  end.

Lemma ordered_from_starts i rs :
  ordered_from i rs -> Forall (fun r => i <= repl_start r) rs.
Proof.
  revert i. induction rs as [|[[s n] seg] rs IH]; intros i H; [done|].
  destruct H as (H1 & H2 & H3). constructor; [done|].
  eapply Forall_impl; [by apply IH|]. intros r. simpl. lia.
Qed.

Lemma ordered_from_sorted i rs : ordered_from i rs -> StronglySorted repl_le rs.
Proof.
  revert i. induction rs as [|[[s n] seg] rs IH]; intros i H; [constructor|].
  destruct H as (H1 & H2 & H3). constructor; [by eapply IH|].
  eapply Forall_impl; [by apply ordered_from_starts|].
  intros r Hr. apply Nat.leb_le. unfold repl_start in *. simpl in *. lia.
Qed.

Lemma apply_ordered i rs :
  ordered_from i rs -> apply_replacements ls rs = Some (take i ls ++ splice i rs).
Proof.
  revert i. induction rs as [|[[s n] seg] rs IH]; intros i H; simpl.
  { by rewrite take_drop. }
  destruct H as (H1 & H2 & H3). rewrite (IH _ H3). simpl.
  assert (Hlen : length (take (s + n) ls) = s + n) by (rewrite length_take; lia).
  rewrite apply_one_spec by (rewrite length_app; lia).
  rewrite take_app_le, take_take, Nat.min_l by lia.
  rewrite drop_app_ge, Hlen, Nat.sub_diag, drop_0 by lia.
  rewrite (app_assoc (take i ls)), take_take_drop. do 3 f_equal. lia.
Qed.

Lemma chunk_in_order p c i r j :
  i <= length ls -> in_order_chunk c -> chunk_replacement ls p c i = Ok (r, j) ->
  exists s pattern new, r = (s, length pattern, new) /\ j = s + length pattern /\
    i <= s /\ j <= length ls /\ pattern_of c pattern new /\
    occurs unified ls pattern s /\
    (forall ctx, change_context c = Some ctx ->
       exists k, i <= k < s /\ occurs unified ls [ctx] k).
Proof.
  intros Hi [Hne Heof]. unfold chunk_replacement.
  intros (k & Hk & H)%result_bind_Ok.
  apply seek_context_bound in Hk as [Hk Hctx]; [|done].
  destruct (old_lines c) eqn:Ho; [done|].
  destruct (locate ls c k) as [[pat new] [idx|]] eqn:E; simplify_eq.
  apply locate_spec in E as (Hpat & Hlen & Hle & Hocc); [|lia|congruence].
  specialize (Hle Heof). exists idx, pat, new. split_and!; try done; [lia|].
  intros ctx Hc. apply Hctx in Hc as [Hc1 Hc2]. exists (k - 1). split; [lia|done].
Qed.

Lemma collect_in_order p cs i rs :
  i <= length ls -> Forall in_order_chunk cs ->
  collect_replacements ls p cs i = Ok rs ->
  ordered_from i rs /\ patched (drop i ls) cs (splice i rs).
Proof.
  revert i rs. induction cs as [|c cs IH]; intros i rs Hi Hcs H; simplify_eq/=.
  { split; [done|constructor]. }
  apply Forall_cons in Hcs as [Hc Hcs].
  apply result_bind_Ok in H as ([r j] & Hr & (rs' & Hrs & [= <-])%result_bind_Ok).
  apply chunk_in_order in Hr
    as (s & pat & new & -> & -> & Hle & Hlen & Hpat & Hocc & Hctx); [|done..].
  destruct (IH _ _ Hlen Hcs Hrs) as [Hord Hp]. split; [by split_and!|]. cbn [splice].
  assert (Hcut : drop i ls = take (s - i) (drop i ls)
    ++ take (length pat) (drop s ls) ++ drop (s + length pat) ls).
  { rewrite <- (take_drop (s - i) (drop i ls)) at 1. f_equal.
    rewrite drop_drop. replace (i + (s - i)) with s by lia.
    rewrite <- (take_drop (length pat) (drop s ls)) at 1. by rewrite drop_drop. }
  rewrite Hcut at 1. eapply patched_cons; [done|done| |done].
  intros ctx Hc'. destruct (Hctx ctx Hc') as (k & Hk & Ho). unfold occurs in Ho.
  destruct (lookup_lt_is_Some_2 ls k) as [l Hl]; [lia|].
  rewrite (drop_S _ _ _ Hl) in Ho. simpl in Ho. injection Ho as Ho.
  exists l. split; [|done]. apply list_elem_of_lookup. exists (k - i).
  rewrite lookup_take_lt, lookup_drop by lia. rewrite <- Hl. f_equal. lia.
Qed.
End splice.

Lemma patch_lines_Ok ls p cs out :
  patch_lines ls p cs = Ok out <->
  exists rs, compute_replacements ls p cs = Ok rs /\ apply_replacements ls rs = Some out.
Proof.
  unfold patch_lines.
  generalize (compute_replacements_no_panic ls p cs).
  destruct (compute_replacements ls p cs) as [rs|e]; intros H.
  - destruct (H rs eq_refl) as [out' Ho] eqn:E. 
    rewrite (is_Some_proj_eq _ _ _ Ho). split; naive_solver.
  - split; naive_solver.
Qed.

Lemma patch_lines_Err ls p cs e :
  patch_lines ls p cs = Err e <-> compute_replacements ls p cs = Err e.
Proof.
  unfold patch_lines. generalize (compute_replacements_no_panic ls p cs).
  destruct (compute_replacements ls p cs); naive_solver.
Qed.

(** ** Line endings of the result *)

(** Every LF of the text is preceded by a CR. *)
Definition crlf_only (t : str) : Prop :=
  forall i, t !! i = Some LF -> exists k, i = S k /\ t !! k = Some CR.

Definition no_lf (l : str) : Prop := LF ∉ l.

#[export] Instance no_lf_dec l : Decision (no_lf l).
Proof. unfold no_lf. apply _. Defined.

Lemma crlf_only_app a b : no_lf a -> crlf_only b -> crlf_only (a ++ [CR; LF] ++ b).
Proof.
  intros Ha Hb i Hi. destruct (decide (i < length a)) as [Hlt|Hge].
  { rewrite lookup_app_l in Hi by done. exfalso. apply Ha.
    by eapply list_elem_of_lookup_2. }
  rewrite lookup_app_r in Hi by lia.
  destruct (i - length a) as [|[|k]] eqn:Ek; simpl in Hi; [done| |].
  - exists (length a). split; [lia|]. rewrite lookup_app_r by lia.
    by rewrite Nat.sub_diag.
  - apply Hb in Hi as (k' & -> & Hk'). exists (length a + S (S k')). split; [lia|].
    rewrite lookup_app_r by lia. by replace (length a + S (S k') - length a) with (S (S k')) by lia.
Qed.

Lemma crlf_only_join l : Forall no_lf l -> crlf_only (join [CR; LF] l).
Proof.
  induction 1 as [|x l Hx Hl IH]; [done|]. destruct l as [|y l].
  { intros i Hi. exfalso. apply Hx. by eapply list_elem_of_lookup_2. }
  rewrite join_cons by done. by apply crlf_only_app.
Qed.

Lemma strip_cr_no_lf l : no_lf l -> no_lf (strip_cr l).
Proof.
  unfold strip_cr, no_lf. intros H. destruct (strip_suffix [CR] l) eqn:E; simpl; [|done].
  apply strip_suffix_Some in E as ->. set_solver.
Qed.

Lemma removelast_Forall {A} (P : A -> Prop) l : Forall P l -> Forall P (removelast l).
Proof.
  intros H. destruct l as [|x l _] using rev_ind; [done|].
  rewrite removelast_last. by apply Forall_app in H as [H _].
Qed.

Lemma file_lines_no_lf t : Forall no_lf (file_lines t).
Proof.
  unfold file_lines.
  assert (H : Forall no_lf (normalize_line_ending <$> split_on LF t)).
  { apply Forall_fmap. eapply Forall_impl; [apply split_on_clean|].
    intros x Hx. by apply strip_cr_no_lf. }
  case_match; [by apply removelast_Forall|done].
Qed.

Lemma apply_replacements_Forall (P : str -> Prop) lines rs out :
  apply_replacements lines rs = Some out -> StronglySorted repl_le rs ->
  Forall (fun r => repl_start r <= length lines) rs ->
  Forall P lines -> Forall (fun r : replacement => Forall P r.2) rs -> Forall P out.
Proof.
  intros Hout Hs Hb Hl. revert out Hout.
  induction Hs as [|[[s n] seg] rs Hs IH Hle]; intros out Hout Hseg; simplify_eq/=; [done|].
  apply Forall_cons in Hb as [Hb0 Hb]. apply Forall_cons in Hseg as [Hseg0 Hseg].
  destruct (apply_replacements_total lines rs Hs Hb) as (out' & Hout' & Hpre).
  rewrite Hout' in Hout. simpl in Hout.
  destruct (Hpre s) as [_ Hlen]; [done| |].
  { eapply Forall_impl; [exact Hle|]. intros r Hr. unfold repl_le, repl_leb in Hr.
    by apply Nat.leb_le in Hr. }
  rewrite apply_one_spec in Hout by done. simplify_eq.
  specialize (IH Hb _ Hout' Hseg).
  apply Forall_app. split; [by apply Forall_take|].
  apply Forall_app. split; [done|by apply Forall_drop].
Qed.

Lemma pattern_of_no_lf c pat new :
  pattern_of c pat new -> Forall no_lf (new_lines c) -> Forall no_lf new.
Proof.
  intros Hp Hc.
  assert (H : Forall no_lf (normalize_line_ending <$> new_lines c)).
  { apply Forall_fmap. eapply Forall_impl; [done|]. intros x. apply strip_cr_no_lf. }
  destruct Hp as [[_ ->]|[_ [Hn|[_ ->]]]]; [done| |done].
  rewrite Hn in H. by apply Forall_app in H as [H _].
Qed.

Lemma collect_replacements_no_lf ls p cs i rs :
  i <= length ls -> Forall (fun c => Forall no_lf (new_lines c)) cs ->
  collect_replacements ls p cs i = Ok rs ->
  Forall (fun r : replacement => Forall no_lf r.2) rs.
Proof.
  revert i rs. induction cs as [|c cs IH]; intros i rs Hi Hcs H; simplify_eq/=; [done|].
  apply Forall_cons in Hcs as [Hc Hcs].
  apply result_bind_Ok in H as ([r j] & Hr & (rs' & Hrs & [= <-])%result_bind_Ok).
  constructor; [|eapply IH; [|done..]; by apply chunk_replacement_bound in Hr as [_ ?]].
  unfold chunk_replacement in Hr. apply result_bind_Ok in Hr as (k & Hk & Hr).
  apply seek_context_bound in Hk as [[_ Hk] _]; [|done].
  destruct (old_lines c) eqn:Ho.
  { simplify_eq. simpl. eapply (pattern_of_no_lf c); [|done]. by left. }
  destruct (locate ls c k) as [[pat new] [idx|]] eqn:E; simplify_eq. simpl.
  apply locate_spec in E as [E _]; [|done|congruence]. by eapply pattern_of_no_lf.
Qed.

Lemma patch_lines_no_lf ls p cs out :
  Forall no_lf ls -> Forall (fun c => Forall no_lf (new_lines c)) cs ->
  patch_lines ls p cs = Ok out -> Forall no_lf out.
Proof.
  intros Hls Hcs (rs & Hrs & Hout)%patch_lines_Ok.
  unfold compute_replacements in Hrs. apply result_bind_Ok in Hrs as (rs' & Hrs & [= <-]).
  eapply apply_replacements_Forall; [done|apply repl_sort_sorted| |done|];
    rewrite sort_by_perm.
  - apply collect_replacements_bound in Hrs; [|lia].
    eapply Forall_impl; [done|]. intros r. unfold repl_end, repl_start. lia.
  - eapply collect_replacements_no_lf; [|done..]. lia.
Qed.

Lemma file_text_shape e l :
  exists k, file_text e l = join (joiner e) (k ++ [[]]) /\ (l = k \/ l = k ++ [[]]).
Proof.
  unfold file_text. destruct (last_is_empty l) eqn:E.
  - apply last_is_empty_spec in E. exists (removelast l). rewrite <- E. auto.
  - exists l. auto.
Qed.

Lemma join_final sep k :
  k <> [] -> join sep (k ++ [[]]) = join sep k ++ sep.
Proof.
  induction k as [|x k IH]; [done|]. intros _. destruct k as [|y k].
  { simpl. by rewrite app_nil_r. }
  change ((x :: y :: k) ++ [[]]) with (x :: ((y :: k) ++ [[]])).
  rewrite join_cons, IH, (join_cons _ x) by done. by rewrite <- !app_assoc.
Qed.

(** ** Why patching fails *)

(** From some index on, the context of the chunk or its old lines do not occur,
    not even up to whitespace and Unicode punctuation. *)
Definition unlocatable (ls : list str) (c : update_file_chunk) : Prop :=
  exists i, i <= length ls /\
  ((exists ctx, change_context c = Some ctx /\
      forall j, seek_range ls [ctx] i false j -> ~ occurs unified ls [ctx] j) \/
   (let old := normalize_line_ending <$> old_lines c in
    forall j, seek_range ls old i (is_end_of_file c) j -> ~ occurs unified ls old j)).

Lemma seek_sequence_None ls pat i eof :
  seek_sequence ls pat i eof = None ->
  forall j, seek_range ls pat i eof j -> ~ occurs unified ls pat j.
Proof.
  intros Hs. pose proof (seek_sequence_meets_spec ls pat i eof) as H. rewrite Hs in H.
  inversion H as [| |? Hn]; subst. intros j Hj. apply Hn; [|done]. set_solver.
Qed.

Lemma chunk_replacement_Err ls p c i e :
  i <= length ls -> chunk_replacement ls p c i = Err e ->
  (exists m, e = ComputeReplacements m) /\ unlocatable ls c.
Proof.
  intros Hi [H|(k & Hk & H)]%result_bind_Err.
  - unfold seek_context in H. destruct (change_context c) as [ctx|] eqn:Hc; [|done].
    destruct (seek_sequence _ _ _ _) eqn:E; simplify_eq. split; [eauto|].
    exists i. split; [done|]. left. exists ctx. split; [done|]. by apply seek_sequence_None.
  - apply seek_context_bound in Hk as [[_ Hk] _]; [|done].
    destruct (old_lines c) eqn:Ho; [done|].
    destruct (locate ls c k) as [[pat new] [idx|]] eqn:E; simplify_eq. split; [eauto|].
    exists k. split; [done|]. right. unfold locate in E.
    destruct (seek_sequence ls (normalize_line_ending <$> old_lines c) k _) eqn:E'; [done|].
    by apply seek_sequence_None.
Qed.

Lemma collect_replacements_Err ls p cs i e :
  i <= length ls -> collect_replacements ls p cs i = Err e ->
  (exists m, e = ComputeReplacements m) /\
  exists pre c post, cs = pre ++ c :: post /\ unlocatable ls c.
Proof.
  revert i. induction cs as [|c cs IH]; intros i Hi H; simplify_eq/=.
  apply result_bind_Err in H as [H|([r j] & Hr & H)].
  - apply chunk_replacement_Err in H as [Hm Hu]; [|done]. split; [done|].
    by exists [], c, cs.
  - apply chunk_replacement_bound in Hr as [_ Hj]; [|done].
    apply result_bind_Err in H as [H|(rs & _ & H)]; [|done].
    apply IH in H as [Hm (pre & c' & post & -> & Hu)]; [|done]. split; [done|].
    by exists (c :: pre), c', post.
Qed.

(** ** Properties *)

(** C8: when every chunk has old lines and none is marked as the end of the file, a
    successful update is a left-to-right patch of the file's lines: the blocks
    that were replaced are disjoint and in the order of the chunks, each equals its
    chunk's old lines (or those less a final empty one) up to whitespace and typographic
    punctuation and comes after its context line, if it has one, and after the blocks before
    it; it is replaced by the chunk's new lines (less a final empty one, when the old lines
    lose theirs), and every line outside the blocks is kept, in order. *)
Theorem patch_lines_patched ls path chunks out :
  Forall in_order_chunk chunks -> patch_lines ls path chunks = Ok out ->
  patched ls chunks out.
Proof.
  intros Hcs (rs & Hrs & Hout)%patch_lines_Ok.
  unfold compute_replacements in Hrs. apply result_bind_Ok in Hrs as (rs' & Hrs & [= <-]).
  apply collect_in_order in Hrs as [Hord Hp]; [|lia|done].
  rewrite sort_by_sorted_id in Hout by (by eapply ordered_from_sorted).
  rewrite (apply_ordered _ 0) in Hout by done. rewrite drop_0 in Hp. simpl in Hout.
  by simplify_eq.
Qed.
Lemma patch_lines_patched_witness :
  let c := UpdateFileChunk (Some (lit "a")) [lit "b "] [lit "x"; lit "y"] false in
  exists out, patch_lines [lit "a"; lit "b"; lit "c"] (lit "f") [c] = Ok out /\
    patched [lit "a"; lit "b"; lit "c"] [c] out.
Proof.
  intros c. exists [lit "a"; lit "x"; lit "y"; lit "c"].
  assert (H : patch_lines [lit "a"; lit "b"; lit "c"] (lit "f") [c]
    = Ok [lit "a"; lit "x"; lit "y"; lit "c"]) by (vm_compute; reflexivity).
  split; [exact H|]. apply (patch_lines_patched _ (lit "f")); [|exact H].
  apply Forall_singleton. by split.
Defined.

(** Applying replacements never panics: for replacements sorted by their start
    and starting inside the file every [Vec::insert] is in range, and the
    replacements [compute_replacements] returns are of this kind whatever the
    chunks, overlapping ones included. *)
Theorem replacements_never_panic ls path chunks :
  (forall rs, StronglySorted repl_le rs ->
     Forall (fun r => repl_start r <= length ls) rs ->
     is_Some (apply_replacements ls rs)) /\
  (forall rs, compute_replacements ls path chunks = Ok rs ->
     StronglySorted repl_le rs /\ Forall (fun r => repl_end r <= length ls) rs /\
     is_Some (apply_replacements ls rs)).
Proof.
  split.
  - intros rs Hs Hb. destruct (apply_replacements_total ls rs Hs Hb) as (out & Ho & _).
    by exists out.
  - intros rs H. split_and!; [| |by eapply compute_replacements_no_panic].
    + unfold compute_replacements in H. apply result_bind_Ok in H as (rs' & _ & [= <-]).
      apply repl_sort_sorted.
    + unfold compute_replacements in H. apply result_bind_Ok in H as (rs' & H & [= <-]).
      rewrite sort_by_perm. eapply collect_replacements_bound; [|done]. lia.
Qed.

(** An update fails only with a [ComputeReplacements] error, and only when it
    must: some chunk's context line, or its old lines, occur nowhere in the range
    that is searched for them, not even up to whitespace and punctuation. *)
Theorem patch_lines_error ls path chunks e :
  patch_lines ls path chunks = Err e ->
  (exists m, e = ComputeReplacements m) /\
  exists pre c post, chunks = pre ++ c :: post /\ unlocatable ls c.
Proof.
  intros H%patch_lines_Err. apply result_bind_Err in H as [H|(rs & _ & H)]; [|done].
  eapply collect_replacements_Err; [|done]. lia.
Qed.

Lemma patch_lines_error_witness :
  let c := UpdateFileChunk None [lit "z"] [] false in
  exists e, patch_lines [lit "a"] (lit "f") [c] = Err e /\
  exists m, e = ComputeReplacements m.
Proof.
  intros c. eexists. split; [vm_compute; reflexivity|].
  apply (patch_lines_error [lit "a"] (lit "f") [c]). vm_compute. reflexivity.
Defined.

(** The text of an updated file is empty or ends with the line ending of the
    original; and in a file that uses CRLF every line feed of the result is
    preceded by a carriage return, whatever mixture the original had, if the
    patch's new lines contain no line feed. *)
Theorem new_contents_line_endings original path chunks new :
  new_contents_of original path chunks = Ok new ->
  (new = [] \/ exists body, new = body ++ joiner (detect original)) /\
  (detect original = Crlf -> Forall (fun c => Forall no_lf (new_lines c)) chunks ->
   crlf_only new).
Proof.
  intros (out & Hout & [= <-])%result_bind_Ok.
  destruct (file_text_shape (detect original) out) as (k & -> & Hk). split.
  - destruct k as [|x k]; [by left|]. right. exists (join (joiner (detect original)) (x :: k)).
    by apply join_final.
  - intros -> Hcs. apply crlf_only_join.
    apply patch_lines_no_lf in Hout; [|apply file_lines_no_lf|done].
    apply Forall_app. split; [|apply Forall_singleton, not_elem_of_nil].
    destruct Hk as [->| ->]; [done|]. by apply Forall_app in Hout as [Hout _].
Qed.

Lemma new_contents_line_endings_witness :
  let original := lit "a" ++ [CR; LF] ++ lit "b" ++ [LF] in
  let c := UpdateFileChunk None [lit "b"] [lit "x"; lit "y"] false in
  exists new, new_contents_of original (lit "f") [c] = Ok new /\ crlf_only new.
Proof.
  intros original c. eexists. split; [vm_compute; reflexivity|].
  apply (new_contents_line_endings original (lit "f") [c]);
    [vm_compute; reflexivity|reflexivity|].
  apply (bool_decide_unpack _). vm_compute. exact I.
Defined.
