(* ===== verification/PatchFiles.v ===== *)
(** * Applying a patch to the file system

    [code-rs/apply-patch/src/lib.rs]: [derive_new_contents_from_chunks],
    [apply_hunks_to_files], [print_summary], [apply_hunks] and [apply_patch], over
    the interface of [FileSystem].  Their specification is [hunk_effect], an
    executable function on views; the refinement theorem relates the two through
    [file_at], on success and on failure. *)

From S2P Require Import Prelude SeekSequence PatchParser Paths FileSystem PatchText.

(** ** Errors and their texts *)

(** [anyhow::Error], as the loop makes it: a message, an [io::Error] with a
    context, or an [ApplyPatchError]. *)
Inductive anyhow_error :=
| AnyhowMsg (message : str)
| AnyhowIo (context : str) (source : io_error)
| AnyhowApply (source : apply_patch_error).

#[export] Instance anyhow_error_eq_dec : EqDecision anyhow_error.
Proof. solve_decision. Defined.

Definition QUOTE : str := [34%N].

Definition show_parse_error (e : parse_error) : str :=
  match e with
  | InvalidPatchError m => lit "invalid patch: " ++ m
  | InvalidHunkError m n => lit "invalid hunk at line " ++ show_nat n ++ lit ", " ++ m
  end.

(** [["apply_patch", "<patch>"]] *)
Definition invocation_text : str :=
  lit "[" ++ QUOTE ++ lit "apply_patch" ++ QUOTE ++ lit ", " ++ QUOTE ++ lit "<patch>"
  ++ QUOTE ++ lit "]".

Definition show_apply_patch_error (e : apply_patch_error) : str :=
  match e with
  | ParseError e => show_parse_error e
  | IoError context source => context ++ lit ": " ++ io_err_text source
  | ComputeReplacements m => m
  | ImplicitInvocation =>
      lit "patch detected without explicit call to apply_patch. Rerun as " ++ invocation_text
  | MalformedHeredocInvocation =>
      lit "apply_patch heredoc argv is malformed. Pass the patch as " ++ invocation_text
      ++ lit " or put the full heredoc in a single shell script string"
  end.

(** [to_string] of an [anyhow::Error] shows the outermost context only. *)
Definition show_anyhow (e : anyhow_error) : str :=
  match e with
  | AnyhowMsg m => m
  | AnyhowIo context _ => context
  | AnyhowApply e => show_apply_patch_error e
  end.

(** [err.downcast_ref::<std::io::Error>()] *)
Definition downcast_io (e : anyhow_error) : option io_error :=
  match e with AnyhowIo _ e => Some e | _ => None end.

(** [impl From<std::io::Error> for ApplyPatchError]; the one on references makes
    a new error of the same kind and text. *)
Definition from_io (e : io_error) : apply_patch_error := IoError (lit "I/O error") e.
Definition from_io_ref (e : io_error) : apply_patch_error :=
  IoError (lit "I/O error") (IoErr (io_err_kind e) (io_err_text e)).

Record affected_paths := AffectedPaths {
  added : list str; modified : list str; deleted : list str;
}.

Definition push_added p a := AffectedPaths (added a ++ [p]) (modified a) (deleted a).
Definition push_modified p a := AffectedPaths (added a) (modified a ++ [p]) (deleted a).
Definition push_deleted p a := AffectedPaths (added a) (modified a) (deleted a ++ [p]).

Record applied_patch := AppliedPatch { original_contents : str; new_contents : str }.

(** ** Operations *)

Section operations.
Context {S : Type} `{FS : FileSystem S, CO : Console S}.

Definition derive_new_contents_from_chunks (path : str) (chunks : list update_file_chunk)
  : io S apply_patch_error applied_patch :=
  original ← io_map_err (IoError (lit "Failed to read file to update " ++ path))
                        (read_to_string path);
  io_lift (AppliedPatch original <$> new_contents_of original path chunks).

(** [if let Some(parent) = path.parent() && !parent.as_os_str().is_empty()] *)
Definition ensure_parent (path : str) : io S anyhow_error unit :=
  match path_parent path with
  | Some parent =>
      if str_eqb (components_text parent) [] then mret tt
      else io_map_err (AnyhowIo (lit "Failed to create parent directories for " ++ path))
                      (create_dir_all (components_text parent))
  | None => mret tt
  end.

Definition write_with_context (path contents : str) : io S anyhow_error unit :=
  io_map_err (AnyhowIo (lit "Failed to write file " ++ path)) (write_file path contents).

(** The body of the loop over the hunks. *)
Definition apply_hunk (h : hunk) (a : affected_paths) : io S anyhow_error affected_paths :=
  match h with
  | AddFile path contents =>
      _ ← ensure_parent path;
      _ ← write_with_context path contents;
      mret (push_added path a)
  | DeleteFile path =>
      _ ← io_map_err (AnyhowIo (lit "Failed to delete file " ++ path)) (remove_file path);
      mret (push_deleted path a)
  | UpdateFile path move_path chunks =>
      p ← io_map_err AnyhowApply (derive_new_contents_from_chunks path chunks);
      match move_path with
      | Some dest =>
          _ ← ensure_parent dest;
          _ ← write_with_context dest (new_contents p);
          _ ← io_map_err (AnyhowIo (lit "Failed to remove original " ++ path))
                         (remove_file path);
          mret (push_modified dest a)
      | None =>
          _ ← write_with_context path (new_contents p);
          mret (push_modified path a)
      end
  end.

Fixpoint apply_loop (hs : list hunk) (a : affected_paths)
  : io S anyhow_error affected_paths :=
  match hs with
  | [] => mret a
  | h :: hs' => a' ← apply_hunk h a; apply_loop hs' a'
  end.

Definition apply_hunks_to_files (hs : list hunk) : io S anyhow_error affected_paths :=
  match hs with
  | [] => io_fail (AnyhowMsg (lit "No files were modified."))
  | _ => apply_loop hs (AffectedPaths [] [] [])
  end.

Fixpoint print_lines (ls : list str) : io S io_error unit :=
  match ls with
  | [] => mret tt
  | l :: ls' => _ ← writeln_out l; print_lines ls'
  end.

(** The lines of [print_summary]. *)
Definition summary (a : affected_paths) : list str :=
  lit "Success. Updated the following files:"
  :: ((fun p => lit "A " ++ p) <$> added a)
  ++ ((fun p => lit "M " ++ p) <$> modified a)
  ++ ((fun p => lit "D " ++ p) <$> deleted a).

Definition print_summary (a : affected_paths) : io S io_error unit :=
  print_lines (summary a).

Definition apply_hunks (hs : list hunk) : io S apply_patch_error unit := fun s =>
  match apply_hunks_to_files hs s with
  | (Ok affected, s') => io_map_err from_io (print_summary affected) s'
  | (Err err, s') =>
      let msg := show_anyhow err in
      (_ ← io_map_err from_io (writeln_err msg);
       io_fail (match downcast_io err with
                | Some e => from_io_ref e
                | None => IoError msg (IoErr Other msg)
                end)) s'
  end.

Definition apply_patch (patch_text : str) : io S apply_patch_error unit :=
  match parse_patch patch_text with
  | Ok source => apply_hunks (hunks source)
  | Err e =>
      _ ← io_map_err from_io (writeln_err
            (match e with
             | InvalidPatchError m => lit "Invalid patch: " ++ m
             | InvalidHunkError m n =>
                 lit "Invalid patch hunk on line " ++ show_nat n ++ lit ": " ++ m
             end));
      io_fail (ParseError e)
  end.
End operations.

(** ** Specification: the effect of a hunk on the files *)

Section effect.
Context {L : Type} `{EqDecision L} (at_path : str -> L).

Definition hunk_effect (v : view L) (h : hunk) : option (view L) :=
  match h with
  | AddFile p contents => Some (upd (at_path p) (Some contents) v)
  | DeleteFile p => Some (upd (at_path p) None v)
  | UpdateFile p move_path chunks =>
      old ← v (at_path p);
      match new_contents_of old p chunks with
      | Err _ => None
      | Ok new =>
          match move_path with
          | None => Some (upd (at_path p) (Some new) v)
          | Some d => Some (upd (at_path p) None (upd (at_path d) (Some new) v))
          end
      end
  end.

Fixpoint hunks_effect (v : view L) (hs : list hunk) : option (view L) :=
  match hs with
  | [] => Some v
  | h :: hs' => v' ← hunk_effect v h; hunks_effect v' hs'
  end.

(** The one file a hunk that fails may have changed: the one it was writing. *)
Definition write_target (h : hunk) : option L :=
  match h with
  | AddFile p _ => Some (at_path p)
  | DeleteFile _ => None
  | UpdateFile p move_path _ => Some (at_path (default p move_path))
  end.

#[export] Instance hunk_effect_proper :
  Proper ((≡) ==> (=) ==> option_relation (≡) (fun _ => False) (fun _ => False)) hunk_effect.
Proof.
  intros v w Hv h _ <-. destruct h as [p c|p|p mv cs]; simpl; [by rewrite Hv..|].
  rewrite (Hv (at_path p)). destruct (w (at_path p)) as [old|]; [|done]. simpl.
  destruct (new_contents_of _ _ _) as [new|]; [|done].
  destruct mv; simpl; by rewrite Hv.
Qed.

Lemma hunks_effect_app v hs hs' :
  hunks_effect v (hs ++ hs') = (w ← hunks_effect v hs; hunks_effect w hs').
Proof.
  revert v. induction hs as [|h hs IH]; intros v; [done|]. simpl.
  destruct (hunk_effect v h); [|done]. apply IH.
Qed.

Lemma hunks_effect_equiv v w v' hs :
  v ≡ w -> hunks_effect v hs = Some v' ->
  exists w', hunks_effect w hs = Some w' /\ v' ≡ w'.
Proof.
  revert v w. induction hs as [|h hs IH]; intros v w Hvw H; simplify_eq/=; [eauto|].
  pose proof (hunk_effect_proper _ _ Hvw h h eq_refl) as Hp.
  destruct (hunk_effect v h) as [v1|]; [|done].
  destruct (hunk_effect w h) as [w1|]; [|done]. by eapply IH.
Qed.
End effect.

(** What the summary reports. *)
Definition added_by (h : hunk) : option str :=
  match h with AddFile p _ => Some p | _ => None end.
Definition modified_by (h : hunk) : option str :=
  match h with UpdateFile p mv _ => Some (default p mv) | _ => None end.
Definition deleted_by (h : hunk) : option str :=
  match h with DeleteFile p => Some p | _ => None end.

Definition affected_by (hs : list hunk) : affected_paths :=
  AffectedPaths (omap added_by hs) (omap modified_by hs) (omap deleted_by hs).

(** An error of the environment, as opposed to one of the patch. *)
Definition is_io_failure (e : anyhow_error) : Prop :=
  match e with
  | AnyhowIo _ _ | AnyhowApply (IoError _ _) => True
  | _ => False
  end.

(** ** The refinement *)

Section refinement.
Context {S L : Type} `{HL : FileSystemLaws S L}.
Implicit Types (s : S) (a : affected_paths).

Lemma io_map_err_Ok {E F A} (f : E -> F) (m : io S E A) s x s' :
  io_map_err f m s = (Ok x, s') <-> m s = (Ok x, s').
Proof. unfold io_map_err. destruct (m s) as [[]]; naive_solver. Qed.

Lemma io_map_err_Err {E F A} (f : E -> F) (m : io S E A) s e s' :
  io_map_err f m s = (Err e, s') <-> exists e', m s = (Err e', s') /\ e = f e'.
Proof. unfold io_map_err. destruct (m s) as [[]]; naive_solver. Qed.

Lemma ensure_parent_frame p s r s' :
  ensure_parent p s = (r, s') -> file_at s' ≡ file_at s.
Proof.
  unfold ensure_parent. destruct (path_parent p); [|by intros [= <- <-]].
  case_match; [by intros [= <- <-]|].
  destruct r; intros H'.
  - apply io_map_err_Ok in H'. by eapply mkdir_frame.
  - apply io_map_err_Err in H' as (? & H' & _). by eapply mkdir_frame.
Qed.

Lemma ensure_parent_Err p s e s' :
  ensure_parent p s = (Err e, s') -> file_at s' ≡ file_at s /\ is_io_failure e.
Proof.
  intros H'. split; [by eapply ensure_parent_frame|]. revert H'.
  unfold ensure_parent. repeat case_match; try done.
  by intros (? & _ & ->)%io_map_err_Err.
Qed.

Lemma write_with_context_Ok p c s u s' :
  write_with_context p c s = (Ok u, s') -> file_at s' ≡ upd (loc p) (Some c) (file_at s).
Proof. destruct u. intros H'%io_map_err_Ok. by apply write_Ok. Qed.

Lemma write_with_context_Err p c s e s' :
  write_with_context p c s = (Err e, s') -> 
  (forall l, l <> loc p -> file_at s' l = file_at s l) /\ is_io_failure e.
Proof. intros (? & H' & ->)%io_map_err_Err. split; [|done]. by eapply write_Err. Qed.

Lemma derive_Ok p cs s x s' :
  derive_new_contents_from_chunks p cs s = (Ok x, s') ->
  file_at s' ≡ file_at s /\
  exists old, file_at s (loc p) = Some old /\
    new_contents_of old p cs = Ok (new_contents x).
Proof.
  unfold derive_new_contents_from_chunks.
  intros [(old & s1 & H1%io_map_err_Ok & H2)|(? & ? & _ & ?)]%io_bind_run; [|done].
  apply read_Ok in H1 as [Hf Hs]. unfold io_lift in H2. simplify_eq.
  split; [done|]. exists old. split; [done|].
  destruct (new_contents_of old p cs) eqn:E; simplify_eq/=. done.
Qed.

Lemma derive_Err p cs s e s' :
  derive_new_contents_from_chunks p cs s = (Err e, s') -> file_at s' ≡ file_at s.
Proof.
  unfold derive_new_contents_from_chunks.
  intros [(old & s1 & H1%io_map_err_Ok & H2)|(? & ? & H1 & ?)]%io_bind_run.
  - apply read_Ok in H1 as [Hf Hs]. unfold io_lift in H2. by simplify_eq.
  - simplify_eq. apply io_map_err_Err in H1 as (? & H1 & _). by eapply read_Err.
Qed.
(** One hunk: on success, its effect; on failure, at most the file it was
    writing has changed (and, for a move, what was already written stays). *)
Lemma apply_hunk_Ok h a s a' s' :
  apply_hunk h a s = (Ok a', s') ->
  exists v, hunk_effect loc (file_at s) h = Some v /\ file_at s' ≡ v /\
    a' = AffectedPaths (added a ++ omap added_by [h]) (modified a ++ omap modified_by [h])
                       (deleted a ++ omap deleted_by [h]).
Proof.
  destruct h as [p c|p|p mv cs]; simpl.
  - intros (? & s1 & H1%ensure_parent_frame & H2)%io_bind_Ok.
    apply io_bind_Ok in H2 as (? & s2 & H2%write_with_context_Ok & [= <- <-]).
    eexists. split_and!; [done|by rewrite H2, H1|]. by rewrite !app_nil_r.
  - intros (? & s1 & H1%io_map_err_Ok & [= <- <-])%io_bind_Ok. destruct x.
    eexists. split_and!; [done|by eapply remove_Ok|]. by rewrite !app_nil_r.
  - intros (x & s1 & H1%io_map_err_Ok & H2)%io_bind_Ok.
    apply derive_Ok in H1 as (H1 & old & Hold & Hnew). rewrite Hold. simpl.
    rewrite Hnew. destruct mv as [d|].
    + apply io_bind_Ok in H2 as (? & s2 & H2%ensure_parent_frame & H3).
      apply io_bind_Ok in H3 as (? & s3 & H3%write_with_context_Ok & H4).
      apply io_bind_Ok in H4 as ([] & s4 & H4%io_map_err_Ok & [= <- <-]).
      eexists. split_and!; [done| |by rewrite !app_nil_r].
      apply remove_Ok in H4. by rewrite H4, H3, H2, H1.
    + apply io_bind_Ok in H2 as (? & s2 & H2%write_with_context_Ok & [= <- <-]).
      eexists. split_and!; [done|by rewrite H2, H1|]. by rewrite !app_nil_r.
Qed.

(** What a hunk that failed leaves: everything but its write target, or, when
    only the removal of a moved file's original failed, the file written. *)
Definition left_by (h : hunk) (v w : view L) : Prop :=
  forall l, write_target loc h <> Some l -> w l = v l.

Lemma derive_Err_cause p cs s e s' :
  derive_new_contents_from_chunks p cs s = (Err e, s') ->
  (exists c i, e = IoError c i) \/
  exists old, file_at s (loc p) = Some old /\ new_contents_of old p cs = Err e.
Proof.
  unfold derive_new_contents_from_chunks.
  intros [(? & _ & ->)%io_map_err_Err|(old & s1 & H1%io_map_err_Ok & H2)]%io_bind_Err;
    [by eauto|]. right.
  apply read_Ok in H1 as [Hf _]. exists old. split; [done|].
  unfold io_lift in H2. by destruct (new_contents_of old p cs); simplify_eq/=.
Qed.

Lemma apply_hunk_Err h a s e s' :
  apply_hunk h a s = (Err e, s') ->
  left_by h (file_at s) (file_at s') /\
  (is_io_failure e \/ hunk_effect loc (file_at s) h = None).
Proof.
  unfold left_by. destruct h as [p c|p|p mv cs]; simpl.
  - intros [[H1 Hio]%ensure_parent_Err|(? & s1 & H1%ensure_parent_frame & H2)]%io_bind_Err;
      [by eauto|].
    apply io_bind_Err in H2 as [[H2 Hio]%write_with_context_Err|(? & s2 & _ & ?)]; [|done].
    split; [|by left]. intros l Hl. rewrite <- (H1 l). apply H2. congruence.
  - intros [(? & H1%remove_Err & ->)%io_map_err_Err|(? & s1 & _ & ?)]%io_bind_Err; [|done].
    split; [|by left]. intros l _. apply H1.
  - intros [(e' & H1 & ->)%io_map_err_Err|(x & s1 & H1%io_map_err_Ok & H2)]%io_bind_Err.
    { split; [intros l _; by eapply derive_Err|].
      apply derive_Err_cause in H1 as [(? & ? & ->)|(old & -> & Hnew)]; [by left|].
      right. simpl. by rewrite Hnew. }
    apply derive_Ok in H1 as (H1 & _). destruct mv as [d|]; simpl.
    + apply io_bind_Err in H2 as [[H2 Hio]%ensure_parent_Err
                                 |(? & s2 & H2%ensure_parent_frame & H3)].
      { split; [|by left]. intros l _. by rewrite (H2 l), (H1 l). }
      apply io_bind_Err in H3 as [[H3 Hio]%write_with_context_Err
                                 |(? & s3 & H3%write_with_context_Ok & H4)].
      { split; [|by left]. intros l Hl. rewrite <- (H1 l), <- (H2 l). apply H3. congruence. }
      apply io_bind_Err in H4 as [(? & H4%remove_Err & ->)%io_map_err_Err
                                 |(? & s4 & _ & ?)]; [|done].
      split; [|by left]. intros l Hl. rewrite (H4 l), (H3 l), upd_other by congruence.
      by rewrite (H2 l).
    + apply io_bind_Err in H2 as [[H2 Hio]%write_with_context_Err|(? & s2 & _ & ?)]; [|done].
      split; [|by left]. intros l Hl. rewrite <- (H1 l). apply H2. congruence.
Qed.

(** The loop. *)
Lemma apply_loop_Ok hs a s a' s' :
  apply_loop hs a s = (Ok a', s') ->
  exists v, hunks_effect loc (file_at s) hs = Some v /\ file_at s' ≡ v /\
    a' = AffectedPaths (added a ++ omap added_by hs) (modified a ++ omap modified_by hs)
                       (deleted a ++ omap deleted_by hs).
Proof.
  revert a s. induction hs as [|h hs IH]; intros a s; simpl.
  { intros [= <- <-]. eexists. split_and!; [done..|]. rewrite !app_nil_r. by destruct a. }
  intros (a1 & s1 & (v1 & Hv1 & Hs1 & ->)%apply_hunk_Ok & H2)%io_bind_Ok.
  apply IH in H2 as (v2 & Hv2 & Hs2 & ->). rewrite Hv1. simpl.
  eapply hunks_effect_equiv in Hv2 as (v3 & Hv3 & Hv23); [|done].
  exists v3. split_and!; [done|by rewrite Hs2|]. simpl.
  rewrite <- !app_assoc. f_equal; f_equal; by case_match.
Qed.

Lemma apply_loop_Err hs a s e s' :
  apply_loop hs a s = (Err e, s') ->
  exists pre h post v, hs = pre ++ h :: post /\
    hunks_effect loc (file_at s) pre = Some v /\ left_by h v (file_at s') /\
    (is_io_failure e \/ hunk_effect loc v h = None).
Proof.
  revert a s. induction hs as [|h hs IH]; intros a s; [done|]. simpl.
  intros [[H1 H2]%apply_hunk_Err|(a1 & s1 & (v1 & Hv1 & Hs1 & ->)%apply_hunk_Ok & H2)]%io_bind_Err.
  { by exists [], h, hs, (file_at s). }
  apply IH in H2 as (pre & h' & post & v2 & -> & Hv2 & Hleft & Hcause).
  eapply hunks_effect_equiv in Hv2 as (v3 & Hv3 & Hv23); [|done].
  exists (h :: pre), h', post, v3. split_and!; [done|by simpl; rewrite Hv1| |].
  - intros l Hl. rewrite (Hleft l Hl). apply Hv23.
  - destruct Hcause as [?|Hn]; [by left|]. right.
    pose proof (hunk_effect_proper loc v2 v3 Hv23 h' h' eq_refl) as Hp.
    rewrite Hn in Hp. by destruct (hunk_effect loc v3 h').
Qed.

Lemma print_lines_frame ls s r s' :
  print_lines ls s = (r, s') -> file_at s' ≡ file_at s.
Proof.
  revert s. induction ls as [|l ls IH]; intros s; simpl; [by intros [= <- <-]|].
  intros [(u & s1 & H1%out_frame & H2%IH)|(e & s1 & H1%out_frame & H2)]%io_bind_run.
  - by rewrite H2.
  - by simplify_eq.
Qed.
Lemma apply_hunks_to_files_Ok hs s a s' :
  apply_hunks_to_files hs s = (Ok a, s') ->
  hs <> [] /\ a = affected_by hs /\
  exists v, hunks_effect loc (file_at s) hs = Some v /\ file_at s' ≡ v.
Proof.
  unfold apply_hunks_to_files. destruct hs as [|h hs]; [done|].
  intros (v & Hv & Hs & ->)%apply_loop_Ok. eauto.
Qed.

Lemma apply_hunks_to_files_Err hs s e s' :
  apply_hunks_to_files hs s = (Err e, s') ->
  (hs = [] /\ s' = s) \/
  exists pre h post v, hs = pre ++ h :: post /\
    hunks_effect loc (file_at s) pre = Some v /\ left_by h v (file_at s') /\
    (is_io_failure e \/ hunk_effect loc v h = None).
Proof.
  unfold apply_hunks_to_files. destruct hs as [|h hs].
  - intros [= _ <-]. by left.
  - intros H'%apply_loop_Err. by right.
Qed.

(** What [apply_hunks] leaves behind: the effect of all hunks, or of a prefix and
    part of the next hunk. *)
Definition partly_applied (hs : list hunk) (v w : view L) : Prop :=
  exists pre post u, hs = pre ++ post /\ hunks_effect loc v pre = Some u /\
    match post with [] => w ≡ u | h :: _ => left_by h u w end.

Lemma apply_hunks_Ok hs s s' :
  apply_hunks hs s = (Ok tt, s') ->
  hs <> [] /\ exists v, hunks_effect loc (file_at s) hs = Some v /\ file_at s' ≡ v.
Proof.
  unfold apply_hunks. destruct (apply_hunks_to_files hs s) as [[a|e] s1] eqn:E.
  - intros H'%io_map_err_Ok. apply print_lines_frame in H'.
    apply apply_hunks_to_files_Ok in E as (Hne & _ & v & Hv & Hs). split; [done|].
    exists v. by rewrite H'.
  - by intros (? & ? & _ & ?)%io_bind_Ok.
Qed.

Lemma apply_hunks_Err hs s e s' :
  apply_hunks hs s = (Err e, s') ->
  (exists c i, e = IoError c i) /\ partly_applied hs (file_at s) (file_at s').
Proof.
  unfold apply_hunks. destruct (apply_hunks_to_files hs s) as [[a|e1] s1] eqn:E.
  - intros (e2 & H' & ->)%io_map_err_Err. split; [by unfold from_io; eauto|].
    apply print_lines_frame in H'.
    apply apply_hunks_to_files_Ok in E as (_ & _ & v & Hv & Hs).
    exists hs, [], v. rewrite app_nil_r. split_and!; [done..|]. by rewrite H'.
  - intros H'. assert (Hs' : file_at s' ≡ file_at s1 /\ exists c i, e = IoError c i).
    { apply io_bind_Err in H' as [(e2 & H' & ->)%io_map_err_Err
                                 |(u & s2 & H'%io_map_err_Ok & H2)].
      - split; [by eapply err_frame|]. unfold from_io. eauto.
      - unfold io_fail in H2. simplify_eq. split; [by eapply err_frame|].
        unfold from_io_ref. case_match; eauto. }
    destruct Hs' as [Hs' Hc]. split; [done|].
    apply apply_hunks_to_files_Err in E as [[-> ->]|(pre & h & post & v & -> & Hv & Hl & _)].
    + by exists [], [], (file_at s).
    + exists pre, (h :: post), v. split_and!; [done..|]. intros l Hl'.
      rewrite (Hs' l). by apply Hl.
Qed.

(** The locations a hunk names. *)
Definition named_by (h : hunk) : list L :=
  match h with
  | AddFile p _ | DeleteFile p | UpdateFile p None _ => [loc p]
  | UpdateFile p (Some d) _ => [loc p; loc d]
  end.

Lemma hunks_effect_frame hs v w l :
  hunks_effect loc v hs = Some w -> l ∉ hs ≫= named_by -> w l = v l.
Proof.
  revert v. induction hs as [|h hs IH]; intros v H' Hl; simplify_eq/=; [done|].
  destruct (hunk_effect loc v h) as [v1|] eqn:E; simplify_eq/=.
  rewrite (IH v1) by set_solver.
  destruct h as [p c|p|p mv cs]; simplify_eq/=; [apply upd_other; set_solver..|].
  destruct (v (loc p)); simplify_eq/=. destruct (new_contents_of _ _ _); [|done]. destruct mv; simplify_eq.
  - rewrite !upd_other; [done|set_solver..].
  - rewrite !upd_other; [done|set_solver..].
Qed.

Lemma left_by_frame h v w l : left_by h v w -> l ∉ named_by h -> w l = v l.
Proof.
  intros Hw Hl. apply Hw. destruct h as [p c|p|p [d|] cs]; simpl in *; set_solver.
Qed.

Lemma partly_applied_frame hs v w l :
  partly_applied hs v w -> l ∉ hs ≫= named_by -> w l = v l.
Proof.
  intros (pre & post & u & -> & Hu & Hw) Hl. rewrite bind_app in Hl.
  apply not_elem_of_app in Hl as [Hl1 Hl2].
  eapply hunks_effect_frame in Hu; [|done]. rewrite <- Hu.
  destruct post as [|h post]; [apply Hw|].
  eapply left_by_frame; [done|]. by apply not_elem_of_app in Hl2 as [? _].
Qed.

Lemma apply_patch_parsed text args s :
  parse_patch text = Ok args -> apply_patch text s = apply_hunks (hunks args) s.
Proof. unfold apply_patch. by intros ->. Qed.

Lemma apply_patch_unparsed text e s r s' :
  parse_patch text = Err e -> apply_patch text s = (r, s') ->
  file_at s' ≡ file_at s /\ (r = Err (ParseError e) \/ exists i, r = Err (from_io i)).
Proof.
  unfold apply_patch. intros ->.
  intros [(u & s1 & H1%io_map_err_Ok & [= <- <-])|(e' & s1 & H1 & [= -> ->])]%io_bind_run.
  - split; [by eapply err_frame|by left].
  - apply io_map_err_Err in H1 as (i & H1 & ->). split; [by eapply err_frame|eauto].
Qed.
End refinement.

(** ** Properties *)

Section properties.
Context {S L : Type} `{HL : FileSystemLaws S L}.

(** C1: when [apply_patch] returns [Ok], the text was a patch with at least one
    hunk and the files are what the specification says: [hunks_effect] applied the
    hunks in order, each update computed from the text its file had when its turn
    came. *)
Theorem apply_patch_refines text (s s' : S) :
  apply_patch text s = (Ok tt, s') ->
  exists args v, parse_patch text = Ok args /\ hunks args <> [] /\
    hunks_effect loc (file_at s) (hunks args) = Some v /\ file_at s' ≡ v.
Proof.
  intros H'. destruct (parse_patch text) as [args|e] eqn:E.
  - rewrite (apply_patch_parsed _ _ _ E) in H'. apply apply_hunks_Ok in H' as (? & v & ? & ?).
    by exists args, v.
  - pose proof (apply_patch_unparsed _ _ _ _ _ E H') as [_ [?|[? ?]]]; done.
Qed.

(** C38: when [apply_patch] fails, the error is a parse error and no file has
    changed, or an [IoError] and the files are those after some prefix of the
    hunks (the next hunk may have changed the file it was writing): the hunks
    before the one that failed are not undone. *)
Theorem apply_patch_fails text (s s' : S) e :
  apply_patch text s = (Err e, s') ->
  (exists pe, parse_patch text = Err pe /\ file_at s' ≡ file_at s /\
     (e = ParseError pe \/ exists i, e = from_io i)) \/
  (exists args c i, parse_patch text = Ok args /\ e = IoError c i /\
     partly_applied (hunks args) (file_at s) (file_at s')).
Proof.
  intros H'. destruct (parse_patch text) as [args|pe] eqn:E.
  - rewrite (apply_patch_parsed _ _ _ E) in H'.
    apply apply_hunks_Err in H' as [(c & i & ->) Hp]. right. by exists args, c, i.
  - pose proof (apply_patch_unparsed _ _ _ _ _ E H') as [Hs He]. left. exists pe.
    split_and!; [done..|]. naive_solver.
Qed.

(** The loop over the hunks stops at the first hunk that fails, after a
    prefix of hunks with their whole effect; and it stops there only because the
    environment failed or because the hunk has no effect on the files as they
    are then: the file to update does not exist or its chunks do not match. *)
Theorem apply_hunks_first_error hs (s s' : S) e :
  hs <> [] -> apply_hunks_to_files hs s = (Err e, s') ->
  exists pre h post v, hs = pre ++ h :: post /\
    hunks_effect loc (file_at s) pre = Some v /\ left_by h v (file_at s') /\
    (is_io_failure e \/ hunk_effect loc v h = None).
Proof. intros Hne [[? _]|H']%apply_hunks_to_files_Err; done. Qed.

(** Whatever [apply_patch] returns, and wherever it failed, a file that the
    patch does not name (as the target of a hunk or as the destination of a
    move) has the text it had before. *)
Theorem apply_patch_frame text (s s' : S) r l :
  apply_patch text s = (r, s') ->
  (forall args, parse_patch text = Ok args -> l ∉ hunks args ≫= named_by) ->
  file_at s' l = file_at s l.
Proof.
  intros H' Hl. destruct (parse_patch text) as [args|pe] eqn:E.
  - specialize (Hl args eq_refl). rewrite (apply_patch_parsed _ _ _ E) in H'.
    destruct r as [[]|e].
    + apply apply_hunks_Ok in H' as (_ & v & Hv & Hs). rewrite (Hs l).
      by eapply hunks_effect_frame.
    + apply apply_hunks_Err in H' as [_ Hp]. by eapply partly_applied_frame.
  - pose proof (apply_patch_unparsed _ _ _ _ _ E H') as [Hs _]. apply Hs.
Qed.

(** An update that moves a file onto itself destroys it: the new text is
    written and the original, which is the same file, is removed; the file is
    gone although the hunk is reported as a modification. *)
Theorem move_onto_itself_deletes p d chunks a (s s' : S) a' :
  loc d = loc p ->
  apply_hunk (UpdateFile p (Some d) chunks) a s = (Ok a', s') ->
  file_at s' (loc p) = None /\ modified a' = modified a ++ [d].
Proof.
  intros Hd H'. apply apply_hunk_Ok in H' as (v & Hv & Hs & ->). split; [|done].
  rewrite (Hs (loc p)). simpl in Hv.
  destruct (file_at s (loc p)); [|done]. simpl in Hv.
  destruct (new_contents_of _ _ _); [|done]. injection Hv as <-. by rewrite upd_same.
Qed.
End properties.

(** Concrete runs in memory. *)
Module PatchRuns.
Import MemFs.

Definition text (l : list str) : str := join [LF] l.
Definition w0 : world :=
  World {[ path_components (lit "d/f") := text [lit "a"; lit "b"; []] ]} [] [].
Definition chunk (old new : string) : update_file_chunk :=
  UpdateFileChunk None [lit old] [lit new] false.
Definition update_text : str :=
  text [lit "*** Begin Patch"; lit "*** Update File: d/f"; lit "@@"; lit "-b"; lit "+c";
        lit "*** Add File: g"; lit "+x"; lit "*** End Patch"].
Definition bad_text : str :=
  text [lit "*** Begin Patch"; lit "*** Add File: g"; lit "+x";
        lit "*** Update File: d/f"; lit "@@"; lit "-z"; lit "+c"; lit "*** End Patch"].

Lemma apply_patch_refines_witness :
  exists w' args v, apply_patch update_text w0 = (Ok tt, w') /\
    out w' = [lit "Success. Updated the following files:"; lit "A g"; lit "M d/f"] /\
    parse_patch update_text = Ok args /\
    hunks_effect loc (file_at w0) (hunks args) = Some v /\ file_at w' ≡ v.
Proof.
  eexists.
  assert (H : apply_patch update_text w0 = (Ok tt, _)) by (vm_compute; reflexivity).
  destruct (apply_patch_refines update_text w0 _ H) as (args & v & H1 & _ & H2 & H3).
  exists args, v. split_and!; [exact H|vm_compute; reflexivity|exact H1|exact H2|exact H3].
Defined.

Lemma apply_patch_fails_witness :
  exists w' e, apply_patch bad_text w0 = (Err e, w') /\
    ((exists pe, parse_patch bad_text = Err pe /\ file_at w' ≡ file_at w0 /\
       (e = ParseError pe \/ exists i, e = from_io i)) \/
     (exists args c i, parse_patch bad_text = Ok args /\ e = IoError c i /\
       partly_applied (hunks args) (file_at w0) (file_at w'))).
Proof.
  do 2 eexists.
  assert (H : apply_patch bad_text w0 = (Err _, _)) by (vm_compute; reflexivity).
  split; [exact H|]. exact (apply_patch_fails bad_text w0 _ _ H).
Defined.

Lemma apply_hunks_first_error_witness :
  let hs := [AddFile (lit "g") (lit "x"); UpdateFile (lit "d/f") None [chunk "z" "c"]] in
  exists w' e, apply_hunks_to_files hs w0 = (Err e, w') /\
  exists pre h post v, hs = pre ++ h :: post /\
    hunks_effect loc (file_at w0) pre = Some v /\ left_by h v (file_at w') /\
    (is_io_failure e \/ hunk_effect loc v h = None).
Proof.
  intros hs. do 2 eexists.
  assert (H : apply_hunks_to_files hs w0 = (Err _, _)) by (vm_compute; reflexivity).
  split; [exact H|]. apply (apply_hunks_first_error hs w0 _ _); [done|exact H].
Defined.

Lemma apply_patch_frame_witness :
  exists w' r, apply_patch update_text w0 = (r, w') /\
    file_at w' (path_components (lit "other")) = file_at w0 (path_components (lit "other")).
Proof.
  do 2 eexists. assert (H : apply_patch update_text w0 = (_, _)) by (vm_compute; reflexivity).
  split; [exact H|]. apply (apply_patch_frame update_text w0 _ _ _ H).
  intros args [= <-]. apply (bool_decide_unpack _). vm_compute. exact I.
Defined.

Lemma move_onto_itself_deletes_witness :
  exists w' a, apply_hunk (UpdateFile (lit "d/f") (Some (lit "d//f")) [chunk "b" "c"])
             (AffectedPaths [] [] []) w0 = (Ok a, w') /\
  file_at w' (path_components (lit "d/f")) = None.
Proof.
  do 2 eexists.
  assert (H : apply_hunk (UpdateFile (lit "d/f") (Some (lit "d//f")) [chunk "b" "c"])
                         (AffectedPaths [] [] []) w0 = (Ok _, _)) by (vm_compute; reflexivity).
  split; [exact H|].
  refine (proj1 (move_onto_itself_deletes (lit "d/f") (lit "d//f") _ _ _ _ _ _ H)).
  vm_compute. reflexivity.
Defined.
End PatchRuns.
