(* ===== verification/PatchInvocation.v ===== *)
(** * Recognising and verifying an [apply_patch] invocation

    [code-rs/apply-patch/src/lib.rs]: which command lines invoke [apply_patch]
    ([classify_shell], [parse_shell_script], [extract_apply_patch_from_bash],
    [maybe_parse_apply_patch]) and the dry run that turns an invocation into the
    file changes shown for approval ([maybe_parse_apply_patch_verified]).  The
    Tree-sitter grammar and query, and the diff of the [similar] crate, are
    parameters.  A [HashMap] keyed by paths is keyed by their components. *)

From S2P Require Import Prelude SeekSequence PatchParser Paths FileSystem PatchText PatchFiles.

(** ** Data *)

Inductive apply_patch_shell := Unix | PowerShell | Cmd.

(** [std::str::Utf8Error] *)
Record utf8_error := Utf8Error { valid_up_to : nat; error_len : option nat }.

Inductive extract_heredoc_error (language_error : Type) :=
| CommandDidNotStartWithApplyPatch
| FailedToLoadBashGrammar (e : language_error)
| HeredocNotUtf8 (e : utf8_error)
| FailedToParsePatchIntoAst
| FailedToFindHeredocBody.
Arguments CommandDidNotStartWithApplyPatch {language_error}.
Arguments FailedToLoadBashGrammar {language_error} e.
Arguments HeredocNotUtf8 {language_error} e.
Arguments FailedToParsePatchIntoAst {language_error}.
Arguments FailedToFindHeredocBody {language_error}.

Inductive maybe_apply_patch (language_error : Type) :=
| Body (args : apply_patch_args)
| ShellParseError (e : extract_heredoc_error language_error)
| PatchParseError (e : parse_error)
| NotApplyPatch.
Arguments Body {language_error} args.
Arguments ShellParseError {language_error} e.
Arguments PatchParseError {language_error} e.
Arguments NotApplyPatch {language_error}.

Inductive apply_patch_file_change :=
| AddChange (content : str)
| DeleteChange (content : str)
| UpdateChange (unified_diff : str) (move_path : option str) (new_content : str).

(** [HashMap<PathBuf, ApplyPatchFileChange>]: each key with the path it was
    inserted under. *)
Abbreviation change_map := (gmap (list Paths.component) (str * apply_patch_file_change)).

Record apply_patch_action := ApplyPatchAction {
  changes : change_map;
  action_patch : str;
  action_cwd : str;
}.

Inductive maybe_apply_patch_verified (language_error : Type) :=
| VerifiedBody (action : apply_patch_action)
| VerifiedShellParseError (e : extract_heredoc_error language_error)
| CorrectnessError (e : apply_patch_error)
| VerifiedNotApplyPatch.
Arguments VerifiedBody {language_error} action.
Arguments VerifiedShellParseError {language_error} e.
Arguments CorrectnessError {language_error} e.
Arguments VerifiedNotApplyPatch {language_error}.

(** ** Which shell *)

Definition APPLY_PATCH_COMMANDS : list str := [lit "apply_patch"; lit "applypatch"].

Definition classify_shell_name (shell : str) : option str :=
  to_ascii_lowercase <$> file_stem shell.

Definition classify_shell (shell flag : str) : option apply_patch_shell :=
  name ← classify_shell_name shell;
  if str_mem name [lit "bash"; lit "zsh"; lit "sh"]
     && str_mem flag [lit "-lc"; lit "-c"] then Some Unix
  else if str_mem name [lit "pwsh"; lit "powershell"]
          && eq_ignore_ascii_case flag (lit "-command") then Some PowerShell
  else if str_eqb name (lit "cmd") && eq_ignore_ascii_case flag (lit "/c") then Some Cmd
  else None.

Definition can_skip_flag (shell flag : str) : bool :=
  match classify_shell_name shell with
  | Some name => str_mem name [lit "pwsh"; lit "powershell"]
                 && eq_ignore_ascii_case flag (lit "-noprofile")
  | None => false
  end.

Definition parse_shell_script (argv : list str) : option (apply_patch_shell * str) :=
  match argv with
  | [shell; flag; script] => t ← classify_shell shell flag; Some (t, script)
  | [shell; skip_flag; flag; script] =>
      if can_skip_flag shell skip_flag
      then t ← classify_shell shell flag; Some (t, script)
      else None
  | _ => None
  end.

(** [PathBuf] of a hunk against the working directory. *)
Definition hunk_path (h : hunk) : str :=
  match h with AddFile p _ | DeleteFile p | UpdateFile p _ _ => p end.

Definition resolve_path (h : hunk) (cwd : str) : str := path_join cwd (hunk_path h).

(** ** The heredoc of a shell script *)

(** A capture of the query: its name and the text of its node. *)
Abbreviation capture := (str * result utf8_error str)%type.

Section extract.
Context {language_error : Type}.
(** [parser.set_language(&lang)] *)
Context (set_language : result language_error unit).
(** [parser.parse(src, None)] and the matches of the query: the captures of each
    match, in order; [None] when there is no tree. *)
Context (query_matches : str -> option (list (list capture))).

Notation error := (extract_heredoc_error language_error).

(** The [for] loop over the captures of a match: [heredoc_text], [cd_path]. *)
Fixpoint read_captures (cs : list capture) (heredoc_text cd_path : option str)
  : result error (option str * option str) :=
  match cs with
  | [] => Ok (heredoc_text, cd_path)
  | (name, text) :: cs' =>
      if str_eqb name (lit "heredoc") then
        t ← map_err HeredocNotUtf8 text;
        read_captures cs' (Some (trim_end_matches LF t)) cd_path
      else if str_eqb name (lit "cd_path") then
        t ← map_err HeredocNotUtf8 text;
        read_captures cs' heredoc_text (Some t)
      else if str_eqb name (lit "cd_raw_string") then
        raw ← map_err HeredocNotUtf8 text;
        let trimmed := default raw (s ← strip_prefix [39%N] raw; strip_suffix [39%N] s) in
        read_captures cs' heredoc_text (Some trimmed)
      else read_captures cs' heredoc_text cd_path
  end.

(** The [while] loop over the matches. *)
Fixpoint first_heredoc (ms : list (list capture)) : result error (str * option str) :=
  match ms with
  | [] => Err CommandDidNotStartWithApplyPatch
  | m :: ms' =>
      '(heredoc_text, cd_path) ← read_captures m None None;
      match heredoc_text with
      | Some heredoc => Ok (heredoc, cd_path)
      | None => first_heredoc ms'
      end
  end.

Definition extract_apply_patch_from_bash (src : str) : result error (str * option str) :=
  _ ← map_err FailedToLoadBashGrammar set_language;
  ms ← ok_or (query_matches src) FailedToParsePatchIntoAst;
  first_heredoc ms.

Definition extract_apply_patch_from_shell (shell : apply_patch_shell) (script : str)
  : result error (str * option str) :=
  match shell with
  | Unix | PowerShell | Cmd => extract_apply_patch_from_bash script
  end.

Definition parse_heredoc (r : result error (str * option str))
  : maybe_apply_patch language_error :=
  match r with
  | Ok (body, workdir) =>
      match parse_patch body with
      | Ok source => Body (ApplyPatchArgs (patch source) (hunks source) workdir)
      | Err e => PatchParseError e
      end
  | Err CommandDidNotStartWithApplyPatch => NotApplyPatch
  | Err e => ShellParseError e
  end.

Definition parse_shell_heredoc (argv : list str) : maybe_apply_patch language_error :=
  match parse_shell_script argv with
  | Some (shell, script) => parse_heredoc (extract_apply_patch_from_shell shell script)
  | None => NotApplyPatch
  end.

Definition maybe_parse_apply_patch (argv : list str) : maybe_apply_patch language_error :=
  match argv with
  | [script] => parse_heredoc (extract_apply_patch_from_bash script)
  | [cmd; body] =>
      if str_mem cmd APPLY_PATCH_COMMANDS then
        match parse_patch body with
        | Ok source => Body source
        | Err e => PatchParseError e
        end
      else parse_shell_heredoc argv
  | _ => parse_shell_heredoc argv
  end.
End extract.

(** ** The dry run *)

Section verified.
Context {language_error : Type}.
Context (set_language : result language_error unit).
Context (query_matches : str -> option (list (list capture))).
(** [TextDiff::from_lines(a, b).unified_diff().context_radius(n).to_string()] *)
Context (unified_diff : str -> str -> nat -> str).
Context {S : Type} `{FS : FileSystem S, CO : Console S}.

Definition unified_diff_from_chunks_with_context (path : str)
  (chunks : list update_file_chunk) (context : nat) : io S apply_patch_error (str * str) :=
  p ← derive_new_contents_from_chunks path chunks;
  mret (unified_diff (original_contents p) (new_contents p) context, new_contents p).

Definition unified_diff_from_chunks (path : str) (chunks : list update_file_chunk)
  : io S apply_patch_error (str * str) :=
  unified_diff_from_chunks_with_context path chunks 1.

(** The change of one hunk: the [match] of the loop body. *)
Definition hunk_change (effective_cwd path : str) (h : hunk)
  : io S apply_patch_error apply_patch_file_change :=
  match h with
  | AddFile _ contents => mret (AddChange contents)
  | DeleteFile _ =>
      content ← io_map_err (IoError (lit "Failed to read " ++ path)) (read_to_string path);
      mret (DeleteChange content)
  | UpdateFile _ move_path chunks =>
      '(diff, contents) ← unified_diff_from_chunks path chunks;
      mret (UpdateChange diff (path_join effective_cwd <$> move_path) contents)
  end.

Fixpoint collect_changes (effective_cwd : str) (hs : list hunk) (changes : change_map)
  : io S apply_patch_error change_map :=
  match hs with
  | [] => mret changes
  | h :: hs' =>
      let path := resolve_path h effective_cwd in
      match changes !! path_components path with
      | Some _ =>
          io_fail (ParseError (InvalidPatchError
                     (lit "multiple operations target " ++ path)))
      | None =>
          change ← hunk_change effective_cwd path h;
          collect_changes effective_cwd hs' (<[path_components path := (path, change)]> changes)
      end
  end.

(** [workdir.map(..).unwrap_or_else(|| cwd.to_path_buf())] *)
Definition effective_cwd (workdir : option str) (cwd : str) : str :=
  match workdir with
  | Some dir => if is_absolute dir then dir else path_join cwd dir
  | None => cwd
  end.

(** A direct invocation whose later arguments hold a heredoc operator. *)
Definition is_malformed_heredoc (argv : list str) : bool :=
  match argv with
  | [] => false
  | cmd :: rest =>
      str_mem cmd APPLY_PATCH_COMMANDS
      && existsb (fun arg => starts_with (lit "<<") (trim_start arg)) rest
  end.

(** A raw patch as the only argument or as the script of a shell. *)
Definition is_implicit_invocation (argv : list str) : bool :=
  match argv with
  | [body] => is_ok (parse_patch body)
  | _ => false
  end
  || match parse_shell_script argv with
     | Some (_, script) => is_ok (parse_patch script)
     | None => false
     end.

Definition maybe_parse_apply_patch_verified (argv : list str) (cwd : str)
  : S -> maybe_apply_patch_verified language_error * S := fun s =>
  if is_malformed_heredoc argv then (CorrectnessError MalformedHeredocInvocation, s)
  else if is_implicit_invocation argv then (CorrectnessError ImplicitInvocation, s)
  else
    match maybe_parse_apply_patch set_language query_matches argv with
    | Body args =>
        let effective_cwd := effective_cwd (workdir args) cwd in
        match collect_changes effective_cwd (hunks args) ∅ s with
        | (Ok changes, s') =>
            (VerifiedBody (ApplyPatchAction changes (patch args) effective_cwd), s')
        | (Err e, s') => (CorrectnessError e, s')
        end
    | ShellParseError e => (VerifiedShellParseError e, s)
    | PatchParseError e => (CorrectnessError (ParseError e), s)
    | NotApplyPatch => (VerifiedNotApplyPatch, s)
    end.
End verified.

(** ** Specification: what a verified action promises *)

(** The text of a file after its change. *)
Definition change_outcome (c : apply_patch_file_change) : option str :=
  match c with
  | AddChange content => Some content
  | DeleteChange _ => None
  | UpdateChange _ _ new_content => Some new_content
  end.

(** The hunk as it is applied in the working directory. *)
Definition resolve_hunk (cwd : str) (h : hunk) : hunk :=
  match h with
  | AddFile p c => AddFile (path_join cwd p) c
  | DeleteFile p => DeleteFile (path_join cwd p)
  | UpdateFile p mv cs => UpdateFile (path_join cwd p) (path_join cwd <$> mv) cs
  end.

Definition is_move (h : hunk) : bool :=
  match h with UpdateFile _ (Some _) _ => true | _ => false end.

Section promise.
Context {S L : Type} `{HL : FileSystemLaws S L}.

(** The files that the hunks name. *)
Definition files_of (cwd : str) (hs : list hunk) : list L := (fun h => loc (resolve_path h cwd)) <$> hs.

(** [w] is [v] but for the files that the hunks name, each of which is as its change announces. *)
Definition announced (cwd : str) (hs : list hunk) (cs : change_map) (v w : view L) : Prop :=
  (forall h, h ∈ hs -> exists c, cs !! path_components (resolve_path h cwd) = Some (resolve_path h cwd, c) /\
     w (loc (resolve_path h cwd)) = change_outcome c) /\
  forall l, l ∉ files_of cwd hs -> w l = v l.

Context (unified_diff : str -> str -> nat -> str).
Implicit Types (s : S) (v w : view L) (cs : change_map).

Notation hunk_change := (hunk_change unified_diff).
Notation collect_changes := (collect_changes unified_diff).

(** *** The dry run only reads *)

Lemma unified_diff_from_chunks_frame p chunks s r s' :
  unified_diff_from_chunks unified_diff p chunks s = (r, s') -> file_at s' ≡ file_at s.
Proof.
  unfold unified_diff_from_chunks, unified_diff_from_chunks_with_context.
  intros [(x & s1 & [H1 _]%derive_Ok & [= _ <-])|(e & s1 & H1%derive_Err & [= _ <-])]%io_bind_run;
    done.
Qed.

Lemma hunk_change_frame cwd p h s r s' :
  hunk_change cwd p h s = (r, s') -> file_at s' ≡ file_at s.
Proof.
  destruct h as [q c|q|q mv chunks]; simpl.
  - by intros [= _ <-].
  - intros [(x & s1 & H1%io_map_err_Ok & [= _ <-])|(e & s1 & H1 & [= _ <-])]%io_bind_run.
    + by apply read_Ok in H1 as [_ H1].
    + apply io_map_err_Err in H1 as (? & H1 & _). by eapply read_Err.
  - intros [([d c] & s1 & H1%unified_diff_from_chunks_frame & [= _ <-])
           |(e & s1 & H1%unified_diff_from_chunks_frame & [= _ <-])]%io_bind_run; done.
Qed.

Lemma collect_changes_frame cwd hs cs s r s' :
  collect_changes cwd hs cs s = (r, s') -> file_at s' ≡ file_at s.
Proof.
  revert cs s. induction hs as [|h hs IH]; intros cs s; simpl; [by intros [= _ <-]|].
  destruct (cs !! _); [by intros [= _ <-]|].
  intros [(x & s1 & H1%hunk_change_frame & H2%IH)
         |(e & s1 & H1%hunk_change_frame & [= _ <-])]%io_bind_run; [|done].
  by rewrite H2.
Qed.

(** *** The changes it collects *)

Definition hunk_key (cwd : str) (h : hunk) : list Paths.component :=
  path_components (resolve_path h cwd).

Lemma collect_changes_kept cwd hs cs s cs' s' k x :
  collect_changes cwd hs cs s = (Ok cs', s') -> cs !! k = Some x -> cs' !! k = Some x.
Proof.
  revert cs s. induction hs as [|h hs IH]; intros cs s; simpl; [by intros [= <- _]|].
  destruct (cs !! path_components (resolve_path h cwd)) eqn:E; [done|].
  intros (c & s1 & H1 & H2)%io_bind_Ok Hx. eapply IH; [done|].
  by rewrite lookup_insert_ne by congruence.
Qed.

Lemma collect_changes_keys cwd hs cs s cs' s' :
  collect_changes cwd hs cs s = (Ok cs', s') ->
  size cs' = size cs + length hs /\
  NoDup (hunk_key cwd <$> hs) /\
  (forall h, h ∈ hs -> cs !! hunk_key cwd h = None /\
     exists c, cs' !! hunk_key cwd h = Some (resolve_path h cwd, c)).
Proof.
  revert cs s. induction hs as [|h hs IH]; intros cs s; simpl.
  { intros [= <- _]. split_and!; [lia|constructor|]. by intros ? ?%not_elem_of_nil. }
  destruct (cs !! path_components (resolve_path h cwd)) eqn:E; [done|].
  intros (c & s1 & H1 & H2)%io_bind_Ok.
  pose proof (collect_changes_kept _ _ _ _ _ _ (hunk_key cwd h)
    (resolve_path h cwd, c) H2 (lookup_insert_eq _ _ _)) as Hh.
  apply IH in H2 as (Hsize & Hnd & Hin).
  rewrite map_size_insert_None in Hsize by done. split_and!; [lia| |].
  - constructor; [|done]. intros (h' & Heq & Hin')%list_elem_of_fmap.
    apply Hin in Hin' as [Hn _]. rewrite <- Heq in Hn.
    unfold hunk_key in Hn. by rewrite lookup_insert_eq in Hn.
  - intros h' [->|Hin']%elem_of_cons; [by eauto|].
    apply Hin in Hin' as [Hn Hs]. split; [|done].
    by apply lookup_insert_None in Hn as [Hn _].
Qed.

(** One change announces the effect of its hunk. *)
Lemma hunk_change_effect cwd h s c s' v :
  hunk_change cwd (resolve_path h cwd) h s = (Ok c, s') -> is_move h = false ->
  v (loc (resolve_path h cwd)) = file_at s (loc (resolve_path h cwd)) ->
  hunk_effect loc v (resolve_hunk cwd h)
  = Some (upd (loc (resolve_path h cwd)) (change_outcome c) v).
Proof.
  unfold resolve_path. destruct h as [q t|q|q [d|] chunks]; simpl; [| |done|].
  - by intros [= <- _].
  - by intros (x & s1 & _ & [= <- _])%io_bind_Ok.
  - intros ([d t] & s1 & H1 & [= <- _])%io_bind_Ok _ Hv.
    apply io_bind_Ok in H1 as (x & s2 & H1 & [= <- <- _]).
    apply derive_Ok in H1 as (_ & old & Hold & Hnew).
    rewrite Hv, Hold. simpl. by rewrite Hnew.
Qed.

Lemma collect_changes_announced cwd hs cs s cs' s' v :
  collect_changes cwd hs cs s = (Ok cs', s') ->
  Forall (fun h => is_move h = false) hs -> NoDup (files_of cwd hs) ->
  (forall l, l ∈ files_of cwd hs -> v l = file_at s l) ->
  exists w, hunks_effect loc v (resolve_hunk cwd <$> hs) = Some w /\ announced cwd hs cs' v w.
Proof.
  revert cs s v. induction hs as [|h hs IH]; intros cs s v; simpl.
  { intros [= <- _] _ _ _. exists v. split; [done|]. split; [|done]. by intros ? ?%not_elem_of_nil. }
  destruct (cs !! path_components (resolve_path h cwd)) as [|] eqn:E; [done|].
  intros (c & s1 & H1 & H2)%io_bind_Ok [Hm Hms]%Forall_cons [Hfresh Hnd]%NoDup_cons Hv.
  rewrite (hunk_change_effect _ _ _ _ _ _ H1 Hm) by (apply Hv; by left). simpl.
  pose proof (collect_changes_kept _ _ _ _ _ _ (path_components (resolve_path h cwd))
    (resolve_path h cwd, c) H2 (lookup_insert_eq _ _ _)) as Hh.
  apply hunk_change_frame in H1.
  apply (IH _ _ (upd (loc (resolve_path h cwd)) (change_outcome c) v)) in H2
    as (w & Hw & Hin & Hout); [|done..|].
  2: { intros l Hl. rewrite upd_other by (intros Hl'; by subst l).
       rewrite (H1 l). apply Hv. by right. }
  exists w. split; [exact Hw|]. split.
  - intros h' [->|Hh']%elem_of_cons; [|by apply Hin].
    exists c. split; [done|]. rewrite Hout by done. apply upd_same.
  - intros l [Hne Hl]%not_elem_of_cons. rewrite Hout by done. by apply upd_other.
Qed.
End promise.

(** ** Properties *)

Section properties.
Context {language_error : Type} (set_language : result language_error unit)
  (query_matches : str -> option (list (list capture)))
  (unified_diff : str -> str -> nat -> str).
Context {S L : Type} `{HL : FileSystemLaws S L}.

(** The dry run changes no file, whatever its outcome; and when it accepts an
    invocation, the announced changes are those of the parsed hunks: one change
    per hunk, under the hunk's path in the effective directory, no two hunks of
    the patch having the same path. *)
Theorem verified_changes argv cwd (s s' : S) r :
  maybe_parse_apply_patch_verified set_language query_matches unified_diff argv cwd s
    = (r, s') ->
  file_at s' ≡ file_at s /\
  forall action, r = VerifiedBody action ->
    exists args, maybe_parse_apply_patch set_language query_matches argv = Body args /\
      action_patch action = patch args /\
      size (changes action) = length (hunks args) /\
      NoDup (hunk_key (action_cwd action) <$> hunks args) /\
      forall h, h ∈ hunks args -> exists c,
        changes action !! hunk_key (action_cwd action) h
        = Some (resolve_path h (action_cwd action), c).
Proof.
  unfold maybe_parse_apply_patch_verified. intros H'.
  destruct (is_malformed_heredoc argv); [by simplify_eq|].
  destruct (is_implicit_invocation argv); [by simplify_eq|].
  destruct (maybe_parse_apply_patch _ _ argv) as [args| | |]; [|by simplify_eq..].
  destruct (collect_changes _ _ _ _ s) as [[cs|e] s1] eqn:E; simplify_eq;
    (split; [by eapply collect_changes_frame|]); [|done].
  intros action [= <-]. exists args.
  apply collect_changes_keys in E as (Hsize & Hnd & Hin). split_and!; [done..|].
  intros h Hh. by apply Hin.
Qed.

(** C37: What is announced is what is applied.  When the dry run accepts a patch without moves,
    of whose hunks no two name the same file, then applying its hunks one after the other, in
    the effective directory and to the files that the dry run read, is defined; afterwards every
    file that a hunk names is as the change announced for that hunk says, and every other file
    is as it was. *)
Theorem verified_announces argv cwd (s s' : S) action args :
  maybe_parse_apply_patch_verified set_language query_matches unified_diff argv cwd s
    = (VerifiedBody action, s') ->
  maybe_parse_apply_patch set_language query_matches argv = Body args ->
  Forall (fun h => is_move h = false) (hunks args) ->
  NoDup (files_of (action_cwd action) (hunks args)) ->
  exists w,
    hunks_effect loc (file_at s) (resolve_hunk (action_cwd action) <$> hunks args) = Some w /\
    announced (action_cwd action) (hunks args) (changes action) (file_at s) w.
Proof.
  intros H' Hargs Hm Hnd. unfold maybe_parse_apply_patch_verified in H'.
  rewrite Hargs in H'. destruct (is_malformed_heredoc argv); [done|].
  destruct (is_implicit_invocation argv); [done|].
  destruct (collect_changes _ _ _ _ s) as [[cs|e] s1] eqn:E; simplify_eq. simpl in *.
  by eapply collect_changes_announced in E.
Qed.
End properties.

(** A concrete run: no grammar is consulted for a direct invocation. *)
Module InvocationRuns.
Import MemFs PatchRuns.

Definition no_grammar : result unit unit := Err tt.
Definition no_matches (src : str) : option (list (list capture)) := None.
Definition no_diff (a b : str) (context : nat) : str := [].
Definition argv : list str :=
  [lit "apply_patch";
   text [lit "*** Begin Patch"; lit "*** Update File: f"; lit "@@"; lit "-b"; lit "+c";
         lit "*** Add File: g"; lit "+x"; lit "*** End Patch"]].
Definition run := maybe_parse_apply_patch_verified no_grammar no_matches no_diff argv (lit "d") w0.

Lemma verified_changes_witness :
  exists action w', run = (VerifiedBody action, w') /\ size (changes action) = 2 /\
    file_at w' ≡ file_at w0.
Proof.
  do 2 eexists. assert (H : run = (VerifiedBody _, _)) by (vm_compute; reflexivity).
  split; [exact H|]. split; [vm_compute; reflexivity|].
  exact (proj1 (verified_changes _ _ _ argv (lit "d") w0 _ _ H)).
Defined.

Lemma verified_announces_witness :
  exists action w' args v, run = (VerifiedBody action, w') /\
    hunks_effect loc (file_at w0) (resolve_hunk (action_cwd action) <$> hunks args) = Some v /\
    announced (action_cwd action) (hunks args) (changes action) (file_at w0) v.
Proof.
  do 2 eexists. assert (H : run = (VerifiedBody _, _)) by (vm_compute; reflexivity).
  eexists. assert (Hargs : maybe_parse_apply_patch no_grammar no_matches argv = Body _)
    by (vm_compute; reflexivity).
  destruct (verified_announces _ _ _ argv (lit "d") w0 _ _ _ H Hargs) as (v & H1 & H2).
  { apply (bool_decide_unpack _). vm_compute. exact I. }
  { apply (bool_decide_unpack _). vm_compute. exact I. }
  exists v. split; [exact H|]. split; [exact H1|exact H2].
Defined.
End InvocationRuns.
