(* ===== verification/CommandSafety.v ===== *)
(** * Which commands are known to be safe

    [code-rs/core/src/bash.rs] and
    [code-rs/core/src/command_safety/is_safe_command.rs]: the commands that are
    run without asking the user.  A script is read through a Tree-sitter tree:
    the parser is a parameter ([try_parse_bash]) and a tree is what the accessors
    of its nodes show.  This is the build for a platform other than Windows (see
    [PowerShellSafety] for what Windows adds).  The specification is
    [read_only_call], clause by clause, and [simple_commands] of a command line. *)

From S2P Require Import Prelude Paths.

(** ** Syntax trees *)

(** A node: [kind()], [is_named()], [start_byte()], [utf8_text(src).ok()] and
    [children]. *)
Inductive node := Node {
  kind : str;
  is_named : bool;
  start_byte : N;
  utf8_text : option str;
  children : list node;
}.

(** A [Tree]: its root, and whether that [has_error]. *)
Record tree := Tree { root_node : node; has_error : bool }.

Definition named_children (n : node) : list node := filter is_named (children n).

(** The nodes of a tree: in source order, and in the order in which a stack
    visits them. *)
Fixpoint nodes (n : node) : list node :=
  match n with Node _ _ _ _ cs => n :: concat (nodes <$> cs) end.

Fixpoint visit (n : node) : list node :=
  match n with Node _ _ _ _ cs => n :: concat (reverse (visit <$> cs)) end.

(** ** Reading a script: [try_parse_word_only_commands_sequence] *)

Definition ALLOWED_KINDS : list str :=
  [lit "program"; lit "list"; lit "pipeline"; lit "command"; lit "command_name";
   lit "word"; lit "string"; lit "string_content"; lit "raw_string"; lit "number"].

Definition DQUOTE : str := [34%N].

Definition ALLOWED_PUNCT_TOKENS : list str :=
  [lit "&&"; lit "||"; lit ";"; lit "|"; DQUOTE; lit "'"].

(** The checks of one round of the [while] loop, which return [None]. *)
Definition node_allowed (n : node) : bool :=
  if is_named n then str_mem (kind n) ALLOWED_KINDS
  else
    negb (existsb (fun c => existsb (N.eqb c) (lit "&;|")) (kind n)
          && negb (str_mem (kind n) ALLOWED_PUNCT_TOKENS))
    && (str_mem (kind n) ALLOWED_PUNCT_TOKENS || str_eqb (trim (kind n)) []).

Definition is_command_node (n : node) : bool :=
  is_named n && str_eqb (kind n) (lit "command").

(** The [while] loop, with its stack (the top first) and [command_nodes]; the
    outer [option] is the fuel. *)
Fixpoint walk (fuel : nat) (stack command_nodes : list node) : option (option (list node)) :=
  match stack, fuel with
  | [], _ => Some (Some command_nodes)
  | _, O => None
  | n :: stack', S fuel' =>
      if node_allowed n then
        walk fuel' (reverse (children n) ++ stack')
             (if is_command_node n then command_nodes ++ [n] else command_nodes)
      else Some None
  end.

(** The words of a [string] node: a quote, its content and a quote. *)
Definition string_word (child : node) : option str :=
  match children child with
  | [q1; content; q2] =>
      if str_eqb (kind q1) DQUOTE && str_eqb (kind content) (lit "string_content")
         && str_eqb (kind q2) DQUOTE
      then utf8_text content else None
  | _ => None
  end.

(** One round of the [for] loop over the named children. *)
Definition child_word (child : node) : option str :=
  if str_eqb (kind child) (lit "command_name") then
    word_node ← head (named_children child);
    if str_eqb (kind word_node) (lit "word") then utf8_text word_node else None
  else if str_eqb (kind child) (lit "word") || str_eqb (kind child) (lit "number") then
    utf8_text child
  else if str_eqb (kind child) (lit "string") then string_word child
  else if str_eqb (kind child) (lit "raw_string") then
    raw_string ← utf8_text child;
    rest ← strip_prefix (lit "'") raw_string;
    strip_suffix (lit "'") rest
  else None.

Definition parse_plain_command_from_node (cmd : node) : option (list str) :=
  if str_eqb (kind cmd) (lit "command") then mapM child_word (named_children cmd) else None.

(** Every node is visited once, so the number of nodes is fuel enough; the walk
    collects the command nodes unless some node is not allowed. *)
Lemma walk_spec fuel stack acc :
  length (concat (visit <$> stack)) <= fuel ->
  walk fuel stack acc =
  Some (if forallb node_allowed (concat (visit <$> stack))
        then Some (acc ++ filter is_command_node (concat (visit <$> stack))) else None).
Proof.
  revert stack acc. induction fuel as [|fuel IH]; intros [|[k nm sb t cs] stack] acc Hf;
    [by rewrite app_nil_r|simpl in Hf; lia|by rewrite app_nil_r|].
  cbn [walk]. set (n := Node k nm sb t cs) in *.
  assert (Hv : concat (visit <$> n :: stack)
               = n :: concat (visit <$> reverse (children n) ++ stack)).
  { rewrite fmap_app, concat_app, fmap_reverse. done. }
  rewrite Hv in *. cbn [forallb]. rewrite filter_cons. destruct (node_allowed n); [|done].
  rewrite IH by (simpl in *; lia). cbn [andb]. case_match; [|done]. do 2 f_equal.
  destruct (is_command_node n); simpl; [|done]. by rewrite <- app_assoc.
Qed.

Lemma walk_total root : is_Some (walk (length (visit root)) [root] []).
Proof. rewrite walk_spec by (simpl; by rewrite app_nil_r). by eexists. Qed.

Definition command_nodes (root : node) : option (list node) := is_Some_proj (walk_total root).

Definition start_leb (a b : node) : bool := (start_byte a <=? start_byte b)%N.

Definition try_parse_word_only_commands_sequence (t : tree) : option (list (list str)) :=
  if has_error t then None
  else
    ns ← command_nodes (root_node t);
    mapM parse_plain_command_from_node (sort_by start_leb ns).

(** ** The list of safe commands *)

Definition all_digits (s : str) : bool := negb (str_eqb s []) && forallb is_ascii_digit s.

(** Matches [/^(\d+,)?\d+p$/]. *)
Definition is_valid_sed_n_arg (arg : option str) : bool :=
  match arg with
  | None => false
  | Some s =>
      match strip_suffix (lit "p") s with
      | None => false
      | Some core =>
          match split_on 44%N core with
          | [num] => all_digits num
          | [a; b] => all_digits a && all_digits b
          | _ => false
          end
      end
  end.

Definition READ_ONLY_PROGRAMS : list str :=
  [lit "cat"; lit "cd"; lit "echo"; lit "false"; lit "grep"; lit "head"; lit "ls"; lit "nl";
   lit "pwd"; lit "tail"; lit "true"; lit "wc"; lit "which"].

Definition UNSAFE_FIND_OPTIONS : list str :=
  [lit "-exec"; lit "-execdir"; lit "-ok"; lit "-okdir"; lit "-delete"; lit "-fls";
   lit "-fprint"; lit "-fprint0"; lit "-fprintf"].

Definition UNSAFE_RIPGREP_OPTIONS_WITH_ARGS : list str := [lit "--pre"; lit "--hostname-bin"].
Definition UNSAFE_RIPGREP_OPTIONS_WITHOUT_ARGS : list str := [lit "--search-zip"; lit "-z"].

Definition unsafe_ripgrep_arg (arg : str) : bool :=
  str_mem arg UNSAFE_RIPGREP_OPTIONS_WITHOUT_ARGS
  || existsb (fun opt => str_eqb arg opt || starts_with (opt ++ lit "=") arg)
       UNSAFE_RIPGREP_OPTIONS_WITH_ARGS.

Definition is_some_in (o : option str) (l : list str) : bool :=
  match o with Some s => str_mem s l | None => false end.

(** The [match] on the first word; the guard of [sed] is its last arm. *)
Definition is_safe_to_call_with_exec (command : list str) : bool :=
  match head command with
  | None => false
  | Some cmd0 =>
      if str_mem cmd0 READ_ONLY_PROGRAMS then true
      else if str_eqb cmd0 (lit "find") then
        negb (existsb (fun arg => str_mem arg UNSAFE_FIND_OPTIONS) command)
      else if str_eqb cmd0 (lit "rg") then negb (existsb unsafe_ripgrep_arg command)
      else if str_eqb cmd0 (lit "git") then
        is_some_in (command !! 1)
          [lit "branch"; lit "status"; lit "log"; lit "diff"; lit "show"]
      else if str_eqb cmd0 (lit "cargo") && is_some_in (command !! 1) [lit "check"] then true
      else if str_eqb cmd0 (lit "sed") then
        (length command =? 4) && is_some_in (command !! 1) [lit "-n"]
        && is_valid_sed_n_arg (command !! 2)
        && match command !! 3 with Some f => negb (str_eqb f []) | None => false end
      else false
  end.

Definition is_bash (cmd : str) : bool :=
  let trimmed := trim_matches 39%N (trim_matches 34%N cmd) in
  if eq_ignore_ascii_case trimmed (lit "bash") || eq_ignore_ascii_case trimmed (lit "bash.exe")
  then true
  else match file_name trimmed with
       | Some name =>
           eq_ignore_ascii_case name (lit "bash") || eq_ignore_ascii_case name (lit "bash.exe")
       | None => false
       end.

Section known_safe.
(** The Tree-sitter parser with the grammar of bash. *)
Context (try_parse_bash : str -> option tree).

(** Both uses of the parser: a script of safe simple commands. *)
Definition safe_script (script : str) : bool :=
  match (tree ← try_parse_bash script; try_parse_word_only_commands_sequence tree) with
  | Some all_commands =>
      negb (length all_commands =? 0) && forallb is_safe_to_call_with_exec all_commands
  | None => false
  end.

Definition is_known_safe_command (command : list str) : bool :=
  if is_safe_to_call_with_exec command then true
  else if match command with [script] => safe_script script | _ => false end then true
  else match command with
       | [bash; flag; script] =>
           if is_bash bash && str_eqb flag (lit "-lc") then safe_script script else false
       | _ => false
       end.
End known_safe.

(** ** Specification *)

(** The clauses of the safe list. *)
Definition digits (s : str) : Prop := s <> [] /\ Forall (fun c => is_ascii_digit c = true) s.

Inductive line_range : str -> Prop :=
| line_range_one n : digits n -> line_range (n ++ lit "p")
| line_range_two m n : digits m -> digits n -> line_range (m ++ lit "," ++ n ++ lit "p").

Definition opens_program (arg : str) : Prop :=
  arg ∈ UNSAFE_RIPGREP_OPTIONS_WITHOUT_ARGS \/
  exists opt, opt ∈ UNSAFE_RIPGREP_OPTIONS_WITH_ARGS /\
    (arg = opt \/ exists value, arg = opt ++ lit "=" ++ value).

Inductive read_only_call : list str -> Prop :=
| ro_listed cmd args : cmd ∈ READ_ONLY_PROGRAMS -> read_only_call (cmd :: args)
| ro_find args :
    Forall (fun arg => arg ∉ UNSAFE_FIND_OPTIONS) args -> read_only_call (lit "find" :: args)
| ro_rg args : Forall (fun arg => ~ opens_program arg) args -> read_only_call (lit "rg" :: args)
| ro_git sub args :
    sub ∈ [lit "branch"; lit "status"; lit "log"; lit "diff"; lit "show"] ->
    read_only_call (lit "git" :: sub :: args)
| ro_cargo args : read_only_call (lit "cargo" :: lit "check" :: args)
| ro_sed range file :
    line_range range -> file <> [] -> read_only_call [lit "sed"; lit "-n"; range; file].

(** The simple commands of a script, in source order. *)
Definition script_commands (t : tree) : option (list (list str)) :=
  if has_error t then None
  else if forallb node_allowed (nodes (root_node t)) then
    mapM parse_plain_command_from_node (filter is_command_node (nodes (root_node t)))
  else None.

(** Documented of a parser: nodes are met in the order in which they start, and
    two commands that start together are the same. *)
Definition in_source_order (t : tree) : Prop :=
  StronglySorted (fun a b => (start_byte a < start_byte b)%N)
    (filter is_command_node (nodes (root_node t))).

(** *** Scripts of plain commands, independently of the code *)

Definition named_kinds : list str :=
  [lit "program"; lit "list"; lit "pipeline"; lit "command"; lit "command_name";
   lit "word"; lit "string"; lit "string_content"; lit "raw_string"; lit "number"].
Definition operators_and_quotes : list str :=
  [lit "&&"; lit "||"; lit ";"; lit "|"; [34%N]; [39%N]].

(** A node is a container, a command or one of its words, or an operator, a quote or blank. *)
Definition plain_node (n : node) : Prop :=
  if is_named n then kind n ∈ named_kinds
  else kind n ∈ operators_and_quotes \/ Forall (fun c => is_whitespace c = true) (kind n).

(** The word that a child of a command stands for. *)
Inductive word_of (child : node) (word : str) : Prop :=
| word_name w more :
    kind child = lit "command_name" -> filter is_named (children child) = w :: more ->
    kind w = lit "word" -> utf8_text w = Some word -> word_of child word
| word_bare :
    kind child = lit "word" \/ kind child = lit "number" -> utf8_text child = Some word ->
    word_of child word
| word_quoted q1 content q2 :
    kind child = lit "string" -> children child = [q1; content; q2] ->
    kind q1 = [34%N] -> kind content = lit "string_content" -> kind q2 = [34%N] ->
    utf8_text content = Some word -> word_of child word
| word_raw :
    kind child = lit "raw_string" -> utf8_text child = Some (39%N :: word ++ [39%N]) ->
    word_of child word.

Definition command_in (t : tree) (c : node) : Prop :=
  c ∈ nodes (root_node t) /\ is_named c = true /\ kind c = lit "command".

Definition reads_as (c : node) (words : list str) : Prop :=
  Forall2 word_of (filter is_named (children c)) words.

(** The script of a command line: its only word, or that of [bash -lc]. *)
Inductive script_of : list str -> str -> Prop :=
| script_alone script : script_of [script] script
| script_bash bash script : is_bash bash = true -> script_of [bash; lit "-lc"; script] script.

(** ** Lemmas *)

Lemma node_rect' (P : node -> Prop) :
  (forall k nm sb t cs, Forall P cs -> P (Node k nm sb t cs)) -> forall n, P n.
Proof.
  intros H. fix IH 1. intros [k nm sb t cs]. apply H.
  induction cs as [|c cs IHcs]; constructor; [apply IH|exact IHcs].
Qed.

Lemma visit_perm n : visit n ≡ₚ nodes n.
Proof.
  induction n as [k nm sb t cs IH] using node_rect'. simpl. constructor.
  induction IH as [|c cs Hc _ IHcs]; [done|]. csimpl.
  rewrite reverse_cons, concat_app, IHcs. simpl. rewrite app_nil_r, Hc. apply Permutation_app_comm.
Qed.

Lemma command_nodes_eq root :
  command_nodes root =
  if forallb node_allowed (visit root) then Some (filter is_command_node (visit root)) else None.
Proof.
  apply is_Some_proj_eq. rewrite walk_spec by (simpl; by rewrite app_nil_r).
  simpl. by rewrite app_nil_r.
Qed.

Lemma parse_in_order t :
  in_source_order t -> try_parse_word_only_commands_sequence t = script_commands t.
Proof.
  intros Ho. unfold try_parse_word_only_commands_sequence, script_commands.
  destruct (has_error t); [done|]. rewrite command_nodes_eq.
  rewrite (forallb_perm _ _ _ (visit_perm (root_node t))).
  destruct (forallb _ _); [|done]. simpl. f_equal.
  eapply (sort_by_unique start_leb); [| | |exact Ho|by rewrite visit_perm];
    unfold start_leb; intros *; rewrite ?N.leb_le, ?N.leb_gt; lia.
Qed.

Lemma parse_sound t cmds :
  try_parse_word_only_commands_sequence t = Some cmds ->
  has_error t = false /\ Forall (fun n => node_allowed n = true) (nodes (root_node t)) /\
  exists ns, ns ≡ₚ filter is_command_node (nodes (root_node t)) /\
    mapM parse_plain_command_from_node ns = Some cmds.
Proof.
  unfold try_parse_word_only_commands_sequence. destruct (has_error t); [done|].
  rewrite command_nodes_eq, (forallb_perm _ _ _ (visit_perm (root_node t))).
  destruct (forallb _ _) eqn:E; [|done]. simpl. intros H. split_and!; [done| |].
  - apply Forall_forall. intros n Hn. by eapply forallb_forall in E; [|apply list_elem_of_In].
  - eexists. split; [|exact H]. by rewrite sort_by_perm, visit_perm.
Qed.

Lemma trim_blank s : trim s = [] <-> Forall (fun c => is_whitespace c = true) s.
Proof.
  assert (forall l, drop_while is_whitespace l = [] <-> Forall (fun c => is_whitespace c = true) l) as Hd.
  { induction l as [|c l IH]; cbn [drop_while]; [by split|]. rewrite Forall_cons.
    destruct (is_whitespace c); [by rewrite IH; tauto|]. by split; [|intros []]. }
  unfold trim, trim_start, trim_end, drop_while_end. rewrite Hd. split; intros H.
  - apply Forall_reverse in H. rewrite reverse_involutive in H.
    destruct (drop_while is_whitespace (reverse s)) as [|c l] eqn:E.
    + apply Hd, Forall_reverse in E. by rewrite reverse_involutive in E.
    + apply Forall_cons in H as [H _]. assert (is_whitespace c = false) as Hf
        by (eapply (drop_while_head _ (reverse s)); by rewrite E). congruence.
  - rewrite (proj2 (Hd (reverse s))) by (by apply Forall_reverse). constructor.
Qed.

Lemma node_allowed_plain n : node_allowed n = true <-> plain_node n.
Proof.
  unfold node_allowed, plain_node. destruct (is_named n); [by rewrite str_mem_elem|].
  rewrite andb_true_iff, orb_true_iff, negb_true_iff, andb_false_iff, negb_false_iff.
  rewrite str_mem_elem, str_eqb_eq, trim_blank. change ALLOWED_PUNCT_TOKENS with operators_and_quotes.
  split; [tauto|]. intros H. split; [|done]. destruct H as [?|H]; [by right|left].
  apply not_true_iff_false. rewrite existsb_exists. setoid_rewrite <- list_elem_of_In.
  intros (c & Hc & Ho). rewrite Forall_forall in H. specialize (H c Hc).
  apply existsb_exists in Ho as (o & Ho%list_elem_of_In & Hco%N.eqb_eq). subst c.
  change (lit "&;|") with [38%N; 59%N; 124%N] in Ho.
  rewrite !elem_of_cons in Ho. destruct Ho as [->|[->|[->|[]%not_elem_of_nil]]]; vm_compute in H; discriminate.
Qed.

Lemma child_word_of child word : child_word child = Some word <-> word_of child word.
Proof.
  unfold child_word, named_children, string_word. split.
  - destruct (str_eqb (kind child) (lit "command_name")) eqn:E1.
    { apply str_eqb_eq in E1. destruct (filter is_named (children child)) as [|w more] eqn:Ef; [done|].
      cbn [head hd_error mbind option_bind]. destruct (str_eqb (kind w) (lit "word")) eqn:E2; [|done].
      apply str_eqb_eq in E2. intros H. by eapply word_name. }
    destruct (_ || _) eqn:E2.
    { apply orb_true_iff in E2. rewrite !str_eqb_eq in E2. by apply word_bare. }
    destruct (str_eqb (kind child) (lit "string")) eqn:E3.
    { apply str_eqb_eq in E3. destruct (children child) as [|q1 [|c [|q2 [|]]]] eqn:Ec; try done.
      destruct (_ && _) eqn:E4; [|done]. rewrite !andb_true_iff, !str_eqb_eq in E4.
      destruct E4 as [[H1 H2] H3]. intros H. by eapply word_quoted. }
    destruct (str_eqb (kind child) (lit "raw_string")) eqn:E5; [|done]. apply str_eqb_eq in E5.
    destruct (utf8_text child) as [raw|] eqn:Et; [|done]. cbn [mbind option_bind].
    destruct (strip_prefix (lit "'") raw) as [rest|] eqn:Ep; [|done]. cbn [mbind option_bind].
    apply strip_prefix_Some in Ep as ->. intros ->%strip_suffix_Some. by apply word_raw.
  - intros [w more Hk Hf Hw Ht|Hk Ht|q1 c q2 Hk Hc H1 H2 H3 Ht|Hk Ht].
    + rewrite Hk, Hf. cbn. by rewrite Hw.
    + by destruct Hk as [-> | ->].
    + rewrite Hk, Hc, H1, H2, H3. exact Ht.
    + rewrite Hk, Ht. change (39%N :: word ++ [39%N]) with (lit "'" ++ (word ++ lit "'")).
      cbn -[lit strip_prefix strip_suffix]. rewrite strip_prefix_app. by apply strip_suffix_Some.
Qed.

Lemma reads_as_unique c words words' : reads_as c words -> reads_as c words' -> words = words'.
Proof.
  unfold reads_as. intros H. revert words'. induction H as [|x w l ws Hw _ IH]; intros words'.
  - by intros ->%Forall2_nil_inv_l.
  - intros (w' & ws' & Hw' & Hl & ->)%Forall2_cons_inv_l. apply child_word_of in Hw, Hw'.
    f_equal; [congruence|by apply IH].
Qed.

Lemma reads_as_parse t c words : command_in t c ->
  parse_plain_command_from_node c = Some words <-> reads_as c words.
Proof.
  intros (_ & _ & Hk). unfold parse_plain_command_from_node, reads_as, named_children.
  rewrite Hk. cbn [str_eqb]. change (str_eqb (lit "command") (lit "command")) with true. cbv iota.
  rewrite mapM_Some. split; intros H; (eapply Forall2_impl; [exact H|]); apply child_word_of.
Qed.

(** What reading a tree gives, or why it gives nothing. *)
Lemma parse_plain t :
  match try_parse_word_only_commands_sequence t with
  | Some cmds =>
      has_error t = false /\ Forall plain_node (nodes (root_node t)) /\
      (forall words, words ∈ cmds -> exists c, command_in t c /\ reads_as c words) /\
      (forall c, command_in t c -> exists words, words ∈ cmds /\ reads_as c words)
  | None =>
      has_error t = true \/ ~ Forall plain_node (nodes (root_node t)) \/
      exists c, command_in t c /\ forall words, ~ reads_as c words
  end.
Proof.
  assert (forall ns, ns ≡ₚ filter is_command_node (nodes (root_node t)) ->
    forall c, c ∈ ns <-> command_in t c) as Hin.
  { intros ns Hp c. rewrite Hp, list_elem_of_filter. unfold is_command_node, command_in.
    rewrite Is_true_true, andb_true_iff, str_eqb_eq. naive_solver. }
  assert (Forall plain_node (nodes (root_node t)) <-> forallb node_allowed (nodes (root_node t)) = true) as Hpl.
  { rewrite forallb_forall, Forall_forall. setoid_rewrite <- list_elem_of_In.
    by setoid_rewrite node_allowed_plain. }
  unfold try_parse_word_only_commands_sequence. destruct (has_error t); [by left|].
  rewrite command_nodes_eq, (forallb_perm _ _ _ (visit_perm (root_node t))).
  destruct (forallb node_allowed (nodes (root_node t))); [|right; left; by intros H%Hpl].
  cbn [mbind option_bind].
  specialize (Hin (sort_by start_leb (filter is_command_node (visit (root_node t))))
    ltac:(by rewrite sort_by_perm, visit_perm)).
  set (ns := sort_by _ _) in *.
  destruct (mapM parse_plain_command_from_node ns) as [cmds|] eqn:Em.
  - apply mapM_Some in Em. split; [done|]. split; [by apply Hpl|]. split.
    + intros words [i Hi]%list_elem_of_lookup. eapply Forall2_lookup_r in Hi as (c & Hc & Hp); [|exact Em].
      apply list_elem_of_lookup_2, Hin in Hc. exists c. split; [done|]. by eapply reads_as_parse.
    + intros c Hc. pose proof Hc as [i Hi]%Hin%list_elem_of_lookup.
      eapply Forall2_lookup_l in Hi as (words & Hw & Hp); [|exact Em].
      exists words. split; [by eapply list_elem_of_lookup_2|by eapply reads_as_parse].
  - right; right. apply mapM_None, Exists_exists in Em as (c & Hc%Hin & Hp). exists c.
    split; [done|]. intros words Hr. apply (reads_as_parse t) in Hr; [congruence|done].
Qed.

Lemma all_digits_spec s : all_digits s = true <-> digits s.
Proof.
  unfold all_digits, digits. rewrite andb_true_iff, negb_true_iff, str_eqb_neq, forallb_forall.
  rewrite Forall_forall. by setoid_rewrite list_elem_of_In.
Qed.

Lemma digits_no_comma s : digits s -> 44%N ∉ s.
Proof. intros [_ H] Hin. by eapply Forall_forall in H; [|exact Hin]. Qed.

Lemma is_valid_sed_n_arg_spec s : is_valid_sed_n_arg (Some s) = true <-> line_range s.
Proof.
  unfold is_valid_sed_n_arg. split.
  - destruct (strip_suffix (lit "p") s) as [core|] eqn:E; [|done].
    apply strip_suffix_Some in E as ->. rewrite <- (join_split 44%N core) at 2.
    destruct (split_on 44%N core) as [|a [|b [|]]]; [done| | |done]; rewrite ?andb_true_iff, !all_digits_spec.
    + apply line_range_one.
    + intros [Ha Hb]. simpl. rewrite <- !app_assoc. by apply line_range_two.
  - intros [n Hn|m n Hm Hn].
    + rewrite (proj2 (strip_suffix_Some _ _ n)) by done.
      rewrite split_on_notin by (by apply digits_no_comma). by apply all_digits_spec.
    + rewrite !app_assoc, (proj2 (strip_suffix_Some _ _ ((m ++ lit ",") ++ n))) by done.
      change (lit ",") with [44%N]. rewrite <- app_assoc. cbn [app].
      rewrite split_on_app, (split_on_notin _ n) by (by apply digits_no_comma).
      by rewrite andb_true_iff, !all_digits_spec.
Qed.

Lemma unsafe_ripgrep_arg_spec arg : unsafe_ripgrep_arg arg = true <-> opens_program arg.
Proof.
  unfold unsafe_ripgrep_arg, opens_program. rewrite orb_true_iff, str_mem_elem, existsb_exists.
  setoid_rewrite <- list_elem_of_In. setoid_rewrite orb_true_iff.
  setoid_rewrite str_eqb_eq. setoid_rewrite starts_with_spec.
  by setoid_rewrite <- app_assoc.
Qed.

Lemma is_some_in_spec o l : is_some_in o l = true <-> exists s, o = Some s /\ s ∈ l.
Proof. destruct o; simpl; [rewrite str_mem_elem|]; naive_solver. Qed.

#[local] Arguments is_valid_sed_n_arg : simpl never.

Lemma sed_guard_spec args :
  (length (lit "sed" :: args) =? 4) && is_some_in (args !! 0) [lit "-n"]
    && is_valid_sed_n_arg (args !! 1)
    && match args !! 2 with Some f => negb (str_eqb f []) | None => false end = true <->
  exists range file, args = [lit "-n"; range; file] /\ line_range range /\ file <> [].
Proof.
  rewrite !andb_true_iff, Nat.eqb_eq, is_some_in_spec. split.
  - destruct args as [|n [|range [|file [|]]]]; try (by intros [[[? _] _] _]).
    simpl. rewrite is_valid_sed_n_arg_spec, negb_true_iff, str_eqb_neq.
    setoid_rewrite list_elem_of_singleton. naive_solver.
  - intros (range & file & -> & Hr & Hf). simpl.
    rewrite is_valid_sed_n_arg_spec, negb_true_iff, str_eqb_neq.
    setoid_rewrite list_elem_of_singleton. naive_solver.
Qed.

Lemma safe_call_spec command :
  is_safe_to_call_with_exec command = true <-> read_only_call command.
Proof.
  split.
  - destruct command as [|cmd0 args]; [done|]. unfold is_safe_to_call_with_exec. cbn [head hd_error].
    destruct (str_mem cmd0 _) eqn:E1; [intros _; apply ro_listed; by apply str_mem_elem|].
    destruct (str_eqb cmd0 (lit "find")) eqn:E2.
    { apply str_eqb_eq in E2 as ->. rewrite negb_true_iff, existsb_false, Forall_cons.
      setoid_rewrite str_mem_false. intros [_ H]. by apply ro_find. }
    destruct (str_eqb cmd0 (lit "rg")) eqn:E3.
    { apply str_eqb_eq in E3 as ->. rewrite negb_true_iff, existsb_false, Forall_cons.
      intros [_ H]. apply ro_rg. eapply Forall_impl; [exact H|]. intros a Ha Ho.
      apply unsafe_ripgrep_arg_spec in Ho. simpl in Ha. congruence. }
    destruct (str_eqb cmd0 (lit "git")) eqn:E4.
    { apply str_eqb_eq in E4 as ->. rewrite is_some_in_spec. intros (sub & Hs & Hin).
      destruct args as [|? args]; simplify_eq/=. by apply ro_git. }
    destruct (str_eqb cmd0 (lit "cargo") && _) eqn:E5.
    { intros _. apply andb_true_iff in E5 as [->%str_eqb_eq (sub & Hs & Hin)%is_some_in_spec].
      destruct args as [|? args]; simplify_eq/=. apply list_elem_of_singleton in Hin as ->.
      apply ro_cargo. }
    destruct (str_eqb cmd0 (lit "sed")) eqn:E6; [|done]. apply str_eqb_eq in E6 as ->.
    intros (range & file & -> & Hr & Hf)%sed_guard_spec. by apply ro_sed.
  - intros [cmd args Hin|args Ha|args Ha|sub args Hin|args|range file Hr Hf];
      unfold is_safe_to_call_with_exec; cbn [head hd_error].
    + by rewrite (proj2 (str_mem_elem _ _) Hin).
    + change (negb (existsb (fun arg => str_mem arg UNSAFE_FIND_OPTIONS) args) = true).
      rewrite negb_true_iff, existsb_false. by setoid_rewrite str_mem_false.
    + change (negb (existsb unsafe_ripgrep_arg args) = true).
      rewrite negb_true_iff, existsb_false. eapply Forall_impl; [exact Ha|].
      intros a Hn. apply not_true_iff_false. by rewrite unsafe_ripgrep_arg_spec.
    + apply is_some_in_spec. by exists sub.
    + done.
    + apply sed_guard_spec. by exists range, file.
Qed.

Section properties.
Context (try_parse_bash : str -> option tree).

Lemma safe_script_spec script :
  safe_script try_parse_bash script = true <->
  exists t cmds, try_parse_bash script = Some t /\
    try_parse_word_only_commands_sequence t = Some cmds /\ cmds <> [] /\
    Forall read_only_call cmds.
Proof.
  unfold safe_script. destruct (try_parse_bash script) as [t|]; simpl; [|naive_solver].
  destruct (try_parse_word_only_commands_sequence t) as [cmds|] eqn:E; [|naive_solver].
  rewrite andb_true_iff, negb_true_iff, Nat.eqb_neq, forallb_forall.
  setoid_rewrite <- list_elem_of_In. setoid_rewrite safe_call_spec.
  rewrite <- Forall_forall. split.
  - intros [Hl H]. exists t, cmds. split; [done|]. split; [done|]. split; [by intros ->|done].
  - intros (? & c & [= <-] & ? & Hne & H). simplify_eq. split; [by destruct cmds|done].
Qed.

(** A script is split into exactly its simple commands, in source order:
    the walk over the syntax tree, whose stack visits the nodes from right to
    left, accepts the tree when the parser found no error and every node is a
    plain command, a word, a quote or one of the operators [&&], [||], [;], [|],
    and the sort puts the commands back in order. *)
Theorem script_in_source_order script t :
  try_parse_bash script = Some t -> in_source_order t ->
  (tree ← try_parse_bash script; try_parse_word_only_commands_sequence tree)
  = script_commands t.
Proof. intros Hp Ho. rewrite Hp. by apply parse_in_order. Qed.

(** C31: A script that is run by [bash -lc] is known to be safe exactly when the parser gives a
    tree for it without errors, of which every node is a container, a command, a word, a string
    or number, an operator [&&], [||], [;] or [|], a quote or blank, and which has a command; and
    every command in it consists of plain words that are a safe call by themselves
    ([is_safe_to_call_with_exec]). *)
Theorem bash_script_safe_iff bash script :
  bash ∈ [lit "bash"; lit "/bin/bash"; lit "/usr/bin/bash"] ->
  is_known_safe_command try_parse_bash [bash; lit "-lc"; script] = true <->
  exists t, try_parse_bash script = Some t /\ has_error t = false /\
    Forall plain_node (nodes (root_node t)) /\ (exists c, command_in t c) /\
    forall c, command_in t c -> exists words, reads_as c words /\
      is_safe_to_call_with_exec words = true.
Proof.
  intros Hb. assert (is_known_safe_command try_parse_bash [bash; lit "-lc"; script] =
    safe_script try_parse_bash script) as ->.
  { unfold is_known_safe_command. set (r := safe_script _ _). rewrite !elem_of_cons in Hb.
    destruct Hb as [->|[->|[->|[]%not_elem_of_nil]]]; vm_compute; reflexivity. }
  unfold safe_script. destruct (try_parse_bash script) as [t|]; cbn [mbind option_bind]; [|naive_solver].
  pose proof (parse_plain t) as Hp.
  destruct (try_parse_word_only_commands_sequence t) as [cmds|].
  - destruct Hp as (He & Hn & Hl & Hc). rewrite andb_true_iff, negb_true_iff, Nat.eqb_neq, forallb_forall.
    setoid_rewrite <- list_elem_of_In. split.
    + intros [Hne Hs]. exists t. split_and!; [done..| |].
      * destruct cmds as [|words cmds]; [done|]. destruct (Hl words) as (c & ? & _); [by left|eauto].
      * intros c H. destruct (Hc c H) as (words & Hw & Hr). exists words. auto.
    + intros (t' & [= <-] & _ & _ & [c H] & Hall). split.
      * destruct (Hc c H) as (words & Hw & _). by destruct cmds; [apply not_elem_of_nil in Hw|].
      * intros words (c' & H' & Hr)%Hl. destruct (Hall c' H') as (words' & Hr' & Hs).
        by rewrite (reads_as_unique _ _ _ Hr Hr').
  - split; [done|]. intros (t' & [= <-] & He & Hn & _ & Hall). destruct Hp as [Hp|[Hp|(c & H & Hp)]].
    + congruence.
    + done.
    + destruct (Hall c H) as (words & Hr & _). by destruct (Hp words).
Qed.

(** The commands that run without asking are a call of a listed program with no option that
    runs or writes something, or a script (alone, or of [bash -lc]) all of whose simple commands
    are such calls and whose syntax tree holds nothing else. *)
Theorem known_safe_iff command :
  is_known_safe_command try_parse_bash command = true <->
  read_only_call command \/
  exists script t cmds, script_of command script /\ try_parse_bash script = Some t /\
    try_parse_word_only_commands_sequence t = Some cmds /\ cmds <> [] /\
    Forall read_only_call cmds.
Proof.
  unfold is_known_safe_command. rewrite <- safe_call_spec.
  destruct (is_safe_to_call_with_exec command) eqn:E; [naive_solver|]. split.
  - intros H. right. destruct command as [|w [|w2 [|w3 [|]]]]; try done.
    + destruct (safe_script _ w) eqn:E2; [|done]. apply safe_script_spec in E2.
      exists w. naive_solver (eauto using script_of).
    + destruct (is_bash w && _) eqn:E2; [|done]. apply andb_true_iff in E2 as [Hb ->%str_eqb_eq].
      apply safe_script_spec in H. exists w3. naive_solver (eauto using script_of).
  - intros [?|(script & t & cmds & Hs & H)]; [done|].
    assert (Hsafe : safe_script try_parse_bash script = true) by (apply safe_script_spec; eauto).
    destruct Hs as [|bash script Hb]; [by rewrite Hsafe|]. by rewrite Hb, Hsafe.
Qed.

(** A sub-command of [git] that is safe is safe with any arguments, so that
    [git branch -D main], which deletes a branch, runs without asking. *)
Theorem git_arguments_unchecked sub args :
  sub ∈ [lit "branch"; lit "status"; lit "log"; lit "diff"; lit "show"] ->
  is_known_safe_command try_parse_bash (lit "git" :: sub :: args) = true.
Proof.
  intros Hs. unfold is_known_safe_command.
  by rewrite (proj2 (safe_call_spec _) (ro_git _ _ Hs)).
Qed.
End properties.

(** A concrete tree: the script [ls && wc -l]. *)
Module SafetyRuns.
Definition word (k s : str) (at_byte : N) : node := Node k true at_byte (Some s) [].
Definition command_name (s : str) (at_byte : N) : node :=
  Node (lit "command_name") true at_byte (Some s) [word (lit "word") s at_byte].
Definition sample_tree : tree :=
  Tree (Node (lit "program") true 0 None
    [Node (lit "list") true 0 None
      [Node (lit "command") true 0 None [command_name (lit "ls") 0];
       Node (lit "&&") false 3 None [];
       Node (lit "command") true 6 None
         [command_name (lit "wc") 6; word (lit "word") (lit "-l") 9]]]) false.

Definition sample_parser (script : str) : option tree :=
  if str_eqb script (lit "ls && wc -l") then Some sample_tree else None.

Example sample_safe :
  is_known_safe_command sample_parser [lit "/bin/bash"; lit "-lc"; lit "ls && wc -l"] = true /\
  is_known_safe_command sample_parser [lit "bash"; lit "-lc"; lit "ls > out.txt"] = false /\
  is_known_safe_command sample_parser [lit "find"; lit "."; lit "-delete"] = false /\
  is_known_safe_command sample_parser [lit "sed"; lit "-n"; lit "1,5p"; lit "f"] = true.
Proof. by vm_compute. Qed.

(** Both commands of the sample script are safe calls, so the script is. *)
Lemma bash_script_safe_iff_witness :
  (forall c, command_in sample_tree c -> exists words, reads_as c words /\
    is_safe_to_call_with_exec words = true) /\
  Forall plain_node (nodes (root_node sample_tree)).
Proof.
  assert (Hb : lit "/bin/bash" ∈ [lit "bash"; lit "/bin/bash"; lit "/usr/bin/bash"])
    by (apply (bool_decide_unpack _); vm_compute; exact I).
  destruct (proj1 (bash_script_safe_iff sample_parser (lit "/bin/bash") (lit "ls && wc -l") Hb)
    ltac:(vm_compute; reflexivity)) as (t & Ht & _ & Hn & _ & Hc).
  assert (t = sample_tree) as -> by (vm_compute in Ht; injection Ht as <-; reflexivity).
  split; [exact Hc|exact Hn].
Defined.

Lemma script_in_source_order_witness :
  script_commands sample_tree = Some [[lit "ls"]; [lit "wc"; lit "-l"]] /\
  (tree ← sample_parser (lit "ls && wc -l"); try_parse_word_only_commands_sequence tree)
  = script_commands sample_tree.
Proof.
  split; [by vm_compute|]. apply (script_in_source_order sample_parser); [by vm_compute|].
  vm_compute. repeat constructor.
Defined.

Lemma git_arguments_unchecked_witness :
  is_known_safe_command sample_parser [lit "git"; lit "branch"; lit "-D"; lit "main"] = true.
Proof.
  apply (git_arguments_unchecked sample_parser (lit "branch") [lit "-D"; lit "main"]). by left.
Defined.
End SafetyRuns.
