(* ===== verification/PowerShellSafety.v ===== *)
(** * Which PowerShell invocations are known to be safe

    [code-rs/core/src/command_safety/windows_safe_commands.rs]: on Windows, what
    [is_known_safe_command] tries first.  The tokens of an inline script are those
    of the [shlex] crate, a parameter.  The specification says what an accepted
    invocation consists of, and that no word of it can redirect, chain or
    substitute. *)

From S2P Require Import Prelude.

(** ** Splitting into commands *)

Definition SEPARATORS : list str := [lit "|"; lit "||"; lit "&&"; lit ";"].

(** [token.contains(['|', ';', '>', '<', '&']) || token.contains("$(")] *)
Definition embeds_operator (token : str) : bool :=
  existsb (fun c => existsb (N.eqb c) (lit "|;><&")) token || str_contains (lit "$(") token.

(** The [for] loop over the tokens, with [commands] and [current]. *)
Fixpoint split_loop (tokens : list str) (commands : list (list str)) (current : list str)
  : option (list (list str)) :=
  match tokens with
  | [] => match current with [] => None | _ => Some (commands ++ [current]) end
  | token :: tokens' =>
      if str_mem token SEPARATORS then
        match current with
        | [] => None
        | _ => split_loop tokens' (commands ++ [current]) []
        end
      else if embeds_operator token then None
      else split_loop tokens' commands (current ++ [token])
  end.

Definition split_into_commands (tokens : list str) : option (list (list str)) :=
  match tokens with [] => None | _ => split_loop tokens [] [] end.

(** ** Git and ripgrep *)

Definition is_quote (c : char) : bool := (c =? 34)%N || (c =? 39)%N.

Definition trim_quotes (s : str) : str := drop_while is_quote (drop_while_end is_quote s).

Definition is_safe_git_config_override (raw : str) : bool :=
  match split_once 61%N raw with
  | None => false
  | Some (key, value) =>
      let key := to_ascii_lowercase (trim key) in
      let value_lc := to_ascii_lowercase (trim_quotes (trim value)) in
      str_eqb key (lit "core.pager") && str_mem value_lc [lit "cat"; lit "type"]
  end.

Definition SAFE_SUBCOMMANDS : list str :=
  [lit "status"; lit "log"; lit "show"; lit "diff"; lit "cat-file"].

(** The [while let] loop over the arguments of [git]. *)
Fixpoint git_args_safe (args : list str) : bool :=
  match args with
  | [] => false
  | arg :: args' =>
      let arg_lc := to_ascii_lowercase arg in
      if starts_with (lit "-") arg then
        if eq_ignore_ascii_case arg (lit "-c") || eq_ignore_ascii_case arg (lit "--config") then
          match args' with
          | [] => false
          | value :: args'' =>
              if is_safe_git_config_override value then git_args_safe args'' else false
          end
        else if starts_with (lit "-c=") arg_lc || starts_with (lit "--config=") arg_lc
                || starts_with (lit "--git-dir=") arg_lc
                || starts_with (lit "--work-tree=") arg_lc then
          if starts_with (lit "-c=") arg_lc || starts_with (lit "--config=") arg_lc then
            match split_once 61%N arg with
            | None => false
            | Some (_, value) =>
                if is_safe_git_config_override value then git_args_safe args' else false
            end
          else git_args_safe args'
        else if eq_ignore_ascii_case arg (lit "--git-dir")
                || eq_ignore_ascii_case arg (lit "--work-tree") then
          match args' with [] => false | _ :: args'' => git_args_safe args'' end
        else git_args_safe args'
      else str_mem arg_lc SAFE_SUBCOMMANDS
  end.

Definition is_safe_git_command (words : list str) : bool := git_args_safe (drop 1 words).

Definition PS_UNSAFE_RIPGREP_OPTIONS_WITH_ARGS : list str := [lit "--pre"; lit "--hostname-bin"].
Definition PS_UNSAFE_RIPGREP_OPTIONS_WITHOUT_ARGS : list str := [lit "--search-zip"; lit "-z"].

Definition unsafe_ripgrep_word (arg : str) : bool :=
  let arg_lc := to_ascii_lowercase arg in
  str_mem arg_lc PS_UNSAFE_RIPGREP_OPTIONS_WITHOUT_ARGS
  || existsb (fun opt => str_eqb arg_lc opt || starts_with (opt ++ lit "=") arg_lc)
       PS_UNSAFE_RIPGREP_OPTIONS_WITH_ARGS.

Definition is_safe_ripgrep (words : list str) : bool :=
  negb (existsb unsafe_ripgrep_word (drop 1 words)).

(** ** One command *)

Definition is_paren (c : char) : bool := (c =? 40)%N || (c =? 41)%N.

(** [w.trim_matches(parentheses).trim_start_matches('-').to_ascii_lowercase()] *)
Definition bare_word (w : str) : str :=
  to_ascii_lowercase (drop_while (N.eqb 45)
    (drop_while is_paren (drop_while_end is_paren w))).

Definition SIDE_EFFECT_CMDLETS : list str :=
  [lit "set-content"; lit "add-content"; lit "out-file"; lit "new-item"; lit "remove-item";
   lit "move-item"; lit "copy-item"; lit "rename-item"; lit "start-process";
   lit "stop-process"].

Definition REDIRECTIONS : list str :=
  [lit "&"; lit ">"; lit ">>"; lit "1>"; lit "2>"; lit "2>&1"; lit "*>"; lit "<"; lit "<<"].

(** The arms of the [match] that are [true]. *)
Definition READ_ONLY_CMDLETS : list str :=
  [lit "echo"; lit "write-output"; lit "write-host"; lit "dir"; lit "ls"; lit "get-childitem";
   lit "gci"; lit "cat"; lit "type"; lit "gc"; lit "get-content"; lit "select-string";
   lit "sls"; lit "findstr"; lit "measure-object"; lit "measure"; lit "get-location"; lit "gl";
   lit "pwd"; lit "test-path"; lit "tp"; lit "resolve-path"; lit "rvpa"; lit "select-object";
   lit "select"; lit "get-item"].

Definition is_safe_powershell_command (words : list str) : bool :=
  match words with
  | [] => false
  | word0 :: _ =>
      if existsb (fun w => str_mem (bare_word w) SIDE_EFFECT_CMDLETS) words then false
      else if existsb (fun w => str_mem w REDIRECTIONS) words then false
      else
        let command := bare_word word0 in
        if str_mem command READ_ONLY_CMDLETS then true
        else if str_eqb command (lit "git") then is_safe_git_command words
        else if str_eqb command (lit "rg") then is_safe_ripgrep words
        else false
  end.

(** ** The invocation *)

Section invocation.
Context (shlex_split : str -> option (list str)).

Definition parse_powershell_script (script : str) : option (list (list str)) :=
  tokens ← shlex_split script; split_into_commands tokens.

(** The [while] loop over the arguments. *)
Fixpoint parse_powershell_invocation (args : list str) : option (list (list str)) :=
  match args with
  | [] => None
  | arg :: script_args =>
      let lower := to_ascii_lowercase arg in
      if str_mem lower [lit "-command"; lit "/command"; lit "-c"] then
        match script_args with
        | [] => None
        | [script] =>
            match parse_powershell_script script with
            | Some commands => Some commands
            | None => split_into_commands script_args
            end
        | _ => split_into_commands script_args
        end
      else if starts_with (lit "-command:") lower || starts_with (lit "/command:") lower then
        match script_args with
        | [] => '(_, script) ← split_once 58%N arg; parse_powershell_script script
        | _ => None
        end
      else if str_mem lower [lit "-nologo"; lit "-noprofile"; lit "-noninteractive"; lit "-mta";
                             lit "-sta"] then
        parse_powershell_invocation script_args
      else if str_mem lower [lit "-encodedcommand"; lit "-ec"; lit "-file"; lit "/file";
                             lit "-windowstyle"; lit "-executionpolicy";
                             lit "-workingdirectory"] then None
      else if starts_with (lit "-") lower then None
      else split_into_commands args
  end.

Definition is_powershell_executable (exe : str) : bool :=
  str_mem (to_ascii_lowercase exe)
    [lit "powershell"; lit "powershell.exe"; lit "pwsh"; lit "pwsh.exe"].

Definition try_parse_powershell_command_sequence (command : list str)
  : option (list (list str)) :=
  match command with
  | [] => None
  | exe :: rest =>
      if is_powershell_executable exe then parse_powershell_invocation rest else None
  end.

Definition is_safe_command_windows (command : list str) : bool :=
  match try_parse_powershell_command_sequence command with
  | Some commands => forallb is_safe_powershell_command commands
  | None => false
  end.
End invocation.

(** ** Specification *)

(** [splits tokens commands]: the tokens are the commands with one separator
    between two neighbours. *)
Inductive splits : list str -> list (list str) -> Prop :=
| splits_one c : c <> [] -> splits c [c]
| splits_cons c sep rest cs :
    c <> [] -> sep ∈ SEPARATORS -> splits rest cs -> splits (c ++ sep :: rest) (c :: cs).

(** A word that cannot redirect, chain or substitute. *)
Definition inert (word : str) : Prop :=
  Forall (fun c => c ∉ lit "|;><&") word /\ str_contains (lit "$(") word = false.

(** The options of git that take the next word as their value. *)
Definition CONFIG : list str := [lit "-c"; lit "--config"].
Definition DIRS : list str := [lit "--git-dir"; lit "--work-tree"].

(** [git_reads args sub]: the options before the sub-command [sub], with the values
    that are read with them; every configuration value is a safe one. *)
Inductive git_reads : list str -> str -> Prop :=
| git_sub sub args : starts_with (lit "-") sub = false -> git_reads (sub :: args) sub
| git_config opt value args sub :
    to_ascii_lowercase opt ∈ CONFIG ->
    is_safe_git_config_override value = true ->
    git_reads args sub -> git_reads (opt :: value :: args) sub
| git_dir opt value args sub :
    to_ascii_lowercase opt ∈ DIRS ->
    git_reads args sub -> git_reads (opt :: value :: args) sub
| git_other opt args sub :
    starts_with (lit "-") opt = true ->
    to_ascii_lowercase opt ∉ CONFIG ++ DIRS ->
    (forall pre value, to_ascii_lowercase pre ∈ CONFIG ->
       opt = pre ++ lit "=" ++ value -> is_safe_git_config_override value = true) ->
    git_reads args sub -> git_reads (opt :: args) sub.

(** What an accepted command is. *)
Inductive read_only_cmdlet : list str -> Prop :=
| ro_cmdlet word0 args :
    bare_word word0 ∈ READ_ONLY_CMDLETS -> read_only_cmdlet (word0 :: args)
| ro_git word0 args sub :
    bare_word word0 = lit "git" -> git_reads args sub ->
    to_ascii_lowercase sub ∈ SAFE_SUBCOMMANDS -> read_only_cmdlet (word0 :: args)
| ro_rg word0 args :
    bare_word word0 = lit "rg" -> Forall (fun a => unsafe_ripgrep_word a = false) args ->
    read_only_cmdlet (word0 :: args).

Definition harmless (words : list str) : Prop :=
  read_only_cmdlet words /\ Forall inert words /\
  Forall (fun w => bare_word w ∉ SIDE_EFFECT_CMDLETS) words.

(** ** Lemmas *)

Lemma embeds_operator_inert w : embeds_operator w = false <-> inert w.
Proof.
  unfold embeds_operator, inert. rewrite orb_false_iff, existsb_false.
  assert (H : forall c, existsb (N.eqb c) (lit "|;><&") = false <-> c ∉ lit "|;><&").
  { intros c. rewrite existsb_false, Forall_forall. split.
    - intros H Hc. apply H in Hc. by rewrite N.eqb_refl in Hc.
    - intros H x Hx. apply N.eqb_neq. by intros ->. }
  by setoid_rewrite H.
Qed.

Lemma separator_not_inert w : w ∈ SEPARATORS -> ~ inert w.
Proof.
  intros Hw [H _]. unfold SEPARATORS in Hw.
  repeat (apply elem_of_cons in Hw as [->|Hw];
          [apply Forall_cons in H as [H _]; apply H; by apply (bool_decide_unpack _)|]).
  by apply elem_of_nil in Hw.
Qed.

Lemma splits_nonempty tokens cmds : splits tokens cmds -> tokens <> [] /\ cmds <> [].
Proof. intros [|[] ? ? ? ?]; done. Qed.

(** The loop, from a state with [commands] done and [current] under way. *)
Lemma split_loop_sound tokens commands current cmds :
  Forall inert current -> split_loop tokens commands current = Some cmds ->
  exists cs, cmds = commands ++ cs /\ splits (current ++ tokens) cs /\ Forall (Forall inert) cs.
Proof.
  revert commands current. induction tokens as [|w tokens IH]; intros commands current Hc H;
    cbn [split_loop] in H.
  - destruct current as [|a l]; simplify_eq. exists [a :: l]. rewrite app_nil_r.
    split; [done|]. split; [by apply splits_one|by constructor].
  - destruct (str_mem w SEPARATORS) eqn:Hs.
    + destruct current as [|a l]; [done|].
      apply IH in H as (cs & -> & Hcs & Hi); [|by constructor].
      exists ((a :: l) :: cs). rewrite <- app_assoc. split; [done|].
      split; [|by constructor]. apply splits_cons; [done|by apply str_mem_elem|done].
    + destruct (embeds_operator w) eqn:He; [done|].
      apply IH in H as (cs & -> & Hcs & Hi).
      * exists cs. by rewrite <- app_assoc in Hcs.
      * apply Forall_app. split; [done|]. constructor; [by apply embeds_operator_inert|done].
Qed.

Lemma split_loop_word tokens commands current w :
  inert w -> split_loop (w :: tokens) commands current = split_loop tokens commands (current ++ [w]).
Proof.
  intros Hw. cbn [split_loop]. rewrite (proj2 (str_mem_false _ _)).
  - by rewrite (proj2 (embeds_operator_inert _) Hw).
  - intros Hs. by eapply separator_not_inert.
Qed.

Lemma split_loop_words c tokens commands current :
  Forall inert c -> split_loop (c ++ tokens) commands current = split_loop tokens commands (current ++ c).
Proof.
  intros Hc. revert current. induction Hc as [|w c Hw _ IH]; intros current; [by rewrite app_nil_r|].
  cbn [app]. rewrite split_loop_word, IH by done. by rewrite <- app_assoc.
Qed.

Lemma split_loop_complete tokens cs commands :
  splits tokens cs -> Forall (Forall inert) cs -> split_loop tokens commands [] = Some (commands ++ cs).
Proof.
  intros Hs. revert commands. induction Hs as [c Hc|c sep rest cs Hc Hsep _ IH]; intros commands Hi.
  - apply Forall_cons in Hi as [Hi _]. rewrite <- (app_nil_r c) at 1.
    rewrite split_loop_words by done. by destruct c.
  - apply Forall_cons in Hi as [Hi Hcs]. rewrite split_loop_words by done.
    cbn [split_loop app]. rewrite (proj2 (str_mem_elem _ _) Hsep). destruct c as [|a l]; [done|].
    rewrite IH by done. by rewrite <- app_assoc.
Qed.

Lemma split_iff tokens cmds :
  split_into_commands tokens = Some cmds <-> splits tokens cmds /\ Forall (Forall inert) cmds.
Proof.
  split.
  - destruct tokens as [|w tokens]; [done|]. intros (cs & -> & Hs)%split_loop_sound; [|by constructor].
    exact Hs.
  - intros [Hs Hi]. destruct tokens as [|w tokens].
    + by apply splits_nonempty in Hs as [? _].
    + by apply (split_loop_complete _ _ [] Hs).
Qed.

Lemma invocation_splits shlex_split args cmds :
  parse_powershell_invocation shlex_split args = Some cmds ->
  exists tokens, splits tokens cmds /\ Forall (Forall inert) cmds.
Proof.
  assert (Hscript : forall script cs, parse_powershell_script shlex_split script = Some cs ->
            exists tokens, splits tokens cs /\ Forall (Forall inert) cs).
  { unfold parse_powershell_script. intros script cs (ts & _ & H)%bind_Some.
    exists ts. by apply split_iff. }
  assert (Hsplit : forall ts cs, split_into_commands ts = Some cs ->
            exists tokens, splits tokens cs /\ Forall (Forall inert) cs).
  { intros ts cs H. exists ts. by apply split_iff. }
  induction args as [|arg rest IH]; [done|]. cbn [parse_powershell_invocation].
  destruct (str_mem _ _).
  { destruct rest as [|script [|]]; [done| |apply Hsplit].
    destruct (parse_powershell_script _ _) eqn:E; [intros [= <-]; eauto|apply Hsplit]. }
  destruct (_ || _).
  { destruct rest; [|done]. intros ([pre script] & _ & H)%bind_Some. eauto. }
  destruct (str_mem _ _); [done|]. destruct (str_mem _ _); [done|].
  destruct (starts_with _ _); [done|]. apply Hsplit.
Qed.

(** *** The options of git *)

Lemma ascii_lower_inv c x :
  ascii_lower c = x -> ~ (97 <= x <= 122)%N -> c = x.
Proof. unfold ascii_lower. destruct ((65 <=? c) && (c <=? 90))%N eqn:E; [bool_solve; lia|done]. Qed.

Lemma lower_starts_with_eq p s :
  starts_with (p ++ lit "=") (to_ascii_lowercase s) = true <->
  exists pre value, s = pre ++ lit "=" ++ value /\ to_ascii_lowercase pre = p.
Proof.
  rewrite starts_with_spec. unfold to_ascii_lowercase. split.
  - intros [r Hr]. rewrite <- app_assoc in Hr.
    apply fmap_app_inv in Hr as (pre & rest & Hp & Hrest & ->).
    destruct rest as [|c value]; [done|]. injection Hrest as Hc _.
    symmetry in Hc. apply ascii_lower_inv in Hc as ->; [|lia]. by exists pre, value.
  - intros (pre & value & -> & <-). exists (ascii_lower <$> value).
    by rewrite !fmap_app, <- app_assoc.
Qed.

Lemma lower_no_eq pre : 61%N ∉ to_ascii_lowercase pre -> 61%N ∉ pre.
Proof. intros H Hin. apply H. by apply (list_elem_of_fmap_2 ascii_lower _ 61%N). Qed.

Lemma eq_ignore_lower a l : to_ascii_lowercase l = l ->
  eq_ignore_ascii_case a l = true <-> to_ascii_lowercase a = l.
Proof. intros Hl. unfold eq_ignore_ascii_case. by rewrite Hl, str_eqb_eq. Qed.

Lemma lower_dash s l : to_ascii_lowercase s = 45%N :: l -> starts_with (lit "-") s = true.
Proof.
  destruct s as [|c s]; [done|]. intros [= Hc _]. apply ascii_lower_inv in Hc as ->; [done|lia].
Qed.

Lemma lower_mem a p q :
  to_ascii_lowercase p = p -> to_ascii_lowercase q = q ->
  eq_ignore_ascii_case a p || eq_ignore_ascii_case a q = true <-> to_ascii_lowercase a ∈ [p; q].
Proof.
  intros Hp Hq. rewrite orb_true_iff, !eq_ignore_lower by done.
  rewrite !elem_of_cons, elem_of_nil. tauto.
Qed.

Lemma config_assignment arg :
  starts_with (lit "-c=") (to_ascii_lowercase arg)
  || starts_with (lit "--config=") (to_ascii_lowercase arg) = true <->
  exists pre value, to_ascii_lowercase pre ∈ CONFIG /\ arg = pre ++ lit "=" ++ value.
Proof.
  change (lit "-c=") with (lit "-c" ++ lit "=").
  change (lit "--config=") with (lit "--config" ++ lit "=").
  rewrite orb_true_iff, !lower_starts_with_eq. unfold CONFIG.
  setoid_rewrite elem_of_cons. setoid_rewrite list_elem_of_singleton. naive_solver.
Qed.

Lemma config_split pre value :
  to_ascii_lowercase pre ∈ CONFIG -> split_once 61%N (pre ++ lit "=" ++ value) = Some (pre, value).
Proof.
  intros Hp. apply split_once_Some. split; [done|]. apply lower_no_eq.
  unfold CONFIG in Hp. rewrite !elem_of_cons, elem_of_nil in Hp.
  destruct Hp as [->|[->|[]]]; by apply (bool_decide_unpack _).
Qed.

Lemma value_option_dash arg : to_ascii_lowercase arg ∈ CONFIG ++ DIRS -> starts_with (lit "-") arg = true.
Proof.
  unfold CONFIG, DIRS. cbn [app]. rewrite !elem_of_cons, elem_of_nil.
  assert (Hl : forall l, to_ascii_lowercase arg = l -> head l = Some 45%N ->
    starts_with (lit "-") arg = true).
  { intros [|c l] H; [done|]. intros [= ->]. by eapply lower_dash. }
  intros [H|[H|[H|[H|H]]]]; [by apply (Hl _ H)..|done].
Qed.

Definition assigns_safely (arg : str) : Prop :=
  forall pre value, to_ascii_lowercase pre ∈ CONFIG -> arg = pre ++ lit "=" ++ value ->
  is_safe_git_config_override value = true.

Lemma assigns_safely_spec pre value :
  to_ascii_lowercase pre ∈ CONFIG ->
  assigns_safely (pre ++ lit "=" ++ value) <-> is_safe_git_config_override value = true.
Proof.
  intros Hp. split; [intros H; by eapply H|]. intros Hv pre' value' Hp' He.
  pose proof (config_split _ value Hp) as H1. rewrite He, config_split in H1 by done.
  by simplify_eq.
Qed.

(** A word with [=] in it is not one of the options that take the next word. *)
Lemma assignment_not_dir p arg :
  starts_with (p ++ lit "=") (to_ascii_lowercase arg) = true -> to_ascii_lowercase arg ∉ DIRS.
Proof.
  rewrite starts_with_spec. intros [r ->] Hd. unfold DIRS in Hd.
  rewrite !elem_of_cons, elem_of_nil in Hd.
  assert (Hin : 61%N ∈ (p ++ lit "=") ++ r) by (rewrite !elem_of_app; left; right; by left).
  destruct Hd as [H|[H|[]]]; rewrite H in Hin; revert Hin; by apply (bool_decide_unpack _).
Qed.

Lemma git_reads_cons arg rest sub :
  git_reads (arg :: rest) sub <->
  (starts_with (lit "-") arg = false /\ sub = arg) \/
  (to_ascii_lowercase arg ∈ CONFIG /\ exists value rest', rest = value :: rest' /\
     is_safe_git_config_override value = true /\ git_reads rest' sub) \/
  (to_ascii_lowercase arg ∈ DIRS /\ exists value rest', rest = value :: rest' /\
     git_reads rest' sub) \/
  (starts_with (lit "-") arg = true /\ to_ascii_lowercase arg ∉ CONFIG ++ DIRS /\
     assigns_safely arg /\ git_reads rest sub).
Proof.
  split.
  - inversion 1; subst; naive_solver.
  - intros [[? ->]|[(? & ? & ? & -> & ? & ?)|[(? & ? & ? & -> & ?)|(? & ? & ? & ?)]]].
    + by apply git_sub.
    + by apply git_config.
    + by apply git_dir.
    + by apply git_other.
Qed.

Lemma other_option (C D A X : Prop) (P Q R : Prop) :
  ~ C -> ~ D -> A -> X <-> (true = false /\ P) \/ C /\ Q \/ D /\ R \/ true = true /\ ~ (C \/ D) /\ A /\ X.
Proof. intros. split; [tauto|]. intros [[? _]|?]; [done|tauto]. Qed.

(** The same four cases of the code. *)
Lemma git_args_safe_cons arg rest :
  git_args_safe (arg :: rest) = true <->
  (starts_with (lit "-") arg = false /\ to_ascii_lowercase arg ∈ SAFE_SUBCOMMANDS) \/
  (to_ascii_lowercase arg ∈ CONFIG /\ exists value rest', rest = value :: rest' /\
     is_safe_git_config_override value = true /\ git_args_safe rest' = true) \/
  (to_ascii_lowercase arg ∈ DIRS /\ exists value rest', rest = value :: rest' /\
     git_args_safe rest' = true) \/
  (starts_with (lit "-") arg = true /\ to_ascii_lowercase arg ∉ CONFIG ++ DIRS /\
     assigns_safely arg /\ git_args_safe rest = true).
Proof.
  cbn [git_args_safe]. rewrite elem_of_app.
  pose proof (value_option_dash arg) as Hdash. rewrite elem_of_app in Hdash.
  assert (Hdisj : to_ascii_lowercase arg ∈ CONFIG -> to_ascii_lowercase arg ∈ DIRS -> False).
  { unfold CONFIG, DIRS. rewrite !elem_of_cons, !elem_of_nil.
    intros [->|[->|[]]] [?|[?|[]]]; done. }
  pose proof (lower_mem arg (lit "-c") (lit "--config") eq_refl eq_refl) as Hc.
  pose proof (lower_mem arg (lit "--git-dir") (lit "--work-tree") eq_refl eq_refl) as Hw.
  fold CONFIG in Hc. fold DIRS in Hw.
  destruct (starts_with (lit "-") arg); [|rewrite str_mem_elem; naive_solver].
  destruct (eq_ignore_ascii_case arg (lit "-c") || _).
  { destruct rest as [|v rest]; [naive_solver|]. destruct (is_safe_git_config_override v) eqn:Hv; naive_solver. }
  pose proof (config_assignment arg) as Ha.
  destruct (starts_with (lit "-c=") _ || _) eqn:E.
  { destruct (proj1 Ha eq_refl) as (pre & value & Hp & ->). cbn [orb].
    assert (Hd : to_ascii_lowercase (pre ++ lit "=" ++ value) ∉ DIRS).
    { apply orb_true_iff in E as [E|E];
        [by apply (assignment_not_dir (lit "-c"))|by apply (assignment_not_dir (lit "--config"))]. }
    rewrite config_split, assigns_safely_spec by done. case_match; naive_solver. }
  assert (Hs : assigns_safely arg).
  { intros pre value Hp ->. assert (false = true) by naive_solver. done. }
  assert (Hnc : to_ascii_lowercase arg ∉ CONFIG) by (intros Hin%Hc; done).
  clear Hc Ha Hdash. cbn [orb]. destruct (starts_with (lit "--git-dir=") _ || _) eqn:E2.
  { apply other_option; [done| |done]. apply orb_true_iff in E2 as [E2|E2];
      [by apply (assignment_not_dir (lit "--git-dir"))
      |by apply (assignment_not_dir (lit "--work-tree"))]. }
  destruct (eq_ignore_ascii_case arg (lit "--git-dir") || _).
  - destruct rest as [|v rest]; naive_solver.
  - apply other_option; [done| |done]. intros Hin%Hw. done.
Qed.

Lemma git_args_safe_spec args :
  git_args_safe args = true <->
  exists sub, git_reads args sub /\ to_ascii_lowercase sub ∈ SAFE_SUBCOMMANDS.
Proof.
  remember (length args) as n eqn:Hn. revert args Hn.
  induction n as [n IH] using lt_wf_ind. intros [|arg rest] ->.
  { split; [done|]. intros (sub & H & _). inversion H. }
  assert (Hr : forall l, length l < length (arg :: rest) -> git_args_safe l = true <->
            exists sub, git_reads l sub /\ to_ascii_lowercase sub ∈ SAFE_SUBCOMMANDS).
  { intros l Hl. by apply (IH _ Hl). }
  rewrite git_args_safe_cons. setoid_rewrite git_reads_cons.
  split.
  - intros [[Hs Hm]|[(Hc & v & r & -> & Ho & Hg)|[(Hd & v & r & -> & Hg)|(H1 & H2 & H3 & Hg)]]].
    + exists arg. by split; [left|].
    + apply Hr in Hg as (sub & ? & ?); [|simpl; lia]. exists sub.
      split; [right; left; split; [|exists v, r]|]; done.
    + apply Hr in Hg as (sub & ? & ?); [|simpl; lia]. exists sub.
      split; [do 2 right; left; split; [|exists v, r]|]; done.
    + apply Hr in Hg as (sub & ? & ?); [|simpl; lia]. exists sub. by split; [do 3 right|].
  - intros (sub & [[Hs ->]|[(Hc & v & r & -> & Ho & Hg)|[(Hd & v & r & -> & Hg)|(H1 & H2 & H3 & Hg)]]] & Hm).
    + by left.
    + right; left. split; [done|]. exists v, r. rewrite Hr by (simpl; lia). eauto.
    + do 2 right; left. split; [done|]. exists v, r. rewrite Hr by (simpl; lia). eauto.
    + do 3 right. rewrite Hr by (simpl; lia). do 3 (split; [done|]). by exists sub.
Qed.

(** *** One command *)

Lemma safe_command_harmless words :
  is_safe_powershell_command words = true -> Forall inert words -> harmless words.
Proof.
  unfold is_safe_powershell_command, harmless. destruct words as [|word0 args]; [done|].
  destruct (existsb (fun w => str_mem (bare_word w) _) _) eqn:Hs; [done|].
  destruct (existsb (fun w => str_mem w REDIRECTIONS) _); [done|].
  intros H Hi. split; [|split; [done|]].
  2: { apply existsb_false in Hs. eapply Forall_impl; [exact Hs|]. intros w. apply str_mem_false. }
  destruct (str_mem (bare_word word0) READ_ONLY_CMDLETS) eqn:E1.
  { apply ro_cmdlet. by apply str_mem_elem. }
  destruct (str_eqb (bare_word word0) (lit "git")) eqn:E2.
  { apply str_eqb_eq in E2. apply git_args_safe_spec in H as (sub & Hr & Hs').
    by eapply ro_git. }
  destruct (str_eqb (bare_word word0) (lit "rg")) eqn:E3; [|done].
  apply str_eqb_eq in E3. apply ro_rg; [done|].
  unfold is_safe_ripgrep in H. by apply negb_true_iff, existsb_false in H.
Qed.

Section properties.
Context (shlex_split : str -> option (list str)).

(** On Windows, a command that runs without asking is an invocation of
    PowerShell with at least one command, and each command of it is
    harmless: it is a listed read-only cmdlet, a read-only git
    sub-command with safe options before it, or a search with [rg]; none of its
    words names a cmdlet with side effects or holds a pipe, a separator, a
    redirection or a substitution. *)
Theorem windows_safe_sound command :
  is_safe_command_windows shlex_split command = true ->
  exists exe args cmds, command = exe :: args /\
    is_powershell_executable exe = true /\
    parse_powershell_invocation shlex_split args = Some cmds /\
    cmds <> [] /\ Forall harmless cmds.
Proof.
  unfold is_safe_command_windows, try_parse_powershell_command_sequence.
  destruct command as [|exe args]; [done|]. destruct (is_powershell_executable exe) eqn:He; [|done].
  destruct (parse_powershell_invocation _ _) as [cmds|] eqn:E; [|done]. intros H.
  destruct (invocation_splits _ _ _ E) as (tokens & [_ Hs]%splits_nonempty & Hi).
  exists exe, args, cmds. do 4 (split; [done|]). apply Forall_forall. intros c Hc.
  apply safe_command_harmless; [|by eapply Forall_forall in Hi].
  by eapply forallb_forall in H; [|apply list_elem_of_In].
Qed.
End properties.

(** A tokenizer for the witness: words are separated by spaces. *)
Definition space_split (s : str) : option (list str) :=
  Some (filter (fun w => negb (str_eqb w [])) (split_on 32%N s)).

Lemma windows_safe_sound_witness :
  exists exe args cmds,
    [lit "pwsh.exe"; lit "-NoLogo"; lit "-Command"; lit "git -c core.pager=cat log | Select-String fix"]
    = exe :: args /\
    is_powershell_executable exe = true /\
    parse_powershell_invocation space_split args = Some cmds /\
    cmds <> [] /\ Forall harmless cmds.
Proof. apply (windows_safe_sound space_split). by vm_compute. Defined.

Example windows_unsafe :
  (is_safe_command_windows space_split [lit "pwsh"; lit "-Command"; lit "Get-Content f > g"],
   is_safe_command_windows space_split [lit "pwsh"; lit "-EncodedCommand"; lit "x"],
   is_safe_command_windows space_split [lit "pwsh"; lit "-c"; lit "git -c core.pager=sh log"],
   is_safe_command_windows space_split [lit "cmd"; lit "dir"])
  = (false, false, false, false).
Proof. by vm_compute. Qed.
