(* ===== verification/Approval.v ===== *)
(** * When a command runs, asks the user or is refused

    [code-rs/core/src/safety.rs] ([assess_command_safety] and what it calls), the
    patterns of approved commands of [code-rs/core/src/codex/session.rs] with the
    offer of the terminal interface that makes them
    ([code-rs/tui/src/user_approval_widget.rs]), and the policies of
    [code-rs/core/src/protocol.rs].  The Tree-sitter parser and the tokenizer of
    the [shlex] crate are parameters; [cfg!(target_os)] is the argument
    [target_os]. *)

From S2P Require Import Prelude Paths CommandSafety.

(** ** Policies *)

Record reject_config := RejectConfig {
  sandbox_approval : bool;
  rules : bool;
  skill_approval : bool;
  request_permissions : bool;
  mcp_elicitations : bool;
}.

Inductive ask_for_approval :=
| UnlessTrusted
| OnFailure
| OnRequest
| AskReject (config : reject_config)
| Never.

Inductive sandbox_policy :=
| DangerFullAccess
| ReadOnly
| WorkspaceWrite (writable_roots : list str) (network_access exclude_tmpdir_env_var
    exclude_slash_tmp allow_git_writes : bool).

Inductive sandbox_type := SandboxNone | MacosSeatbelt | LinuxSeccomp.

Inductive safety_check :=
| AutoApprove (sandbox : sandbox_type) (user_explicitly_approved : bool)
| AskUser
| Reject (reason : str).

#[export] Instance reject_config_eq_dec : EqDecision reject_config.
Proof. solve_decision. Defined.
#[export] Instance ask_for_approval_eq_dec : EqDecision ask_for_approval.
Proof. solve_decision. Defined.
#[export] Instance sandbox_policy_eq_dec : EqDecision sandbox_policy.
Proof. solve_decision. Defined.
#[export] Instance sandbox_type_eq_dec : EqDecision sandbox_type.
Proof. solve_decision. Defined.
#[export] Instance safety_check_eq_dec : EqDecision safety_check.
Proof. solve_decision. Defined.

Definition rejects_sandbox_approval (c : reject_config) : bool := sandbox_approval c.
Definition rejects_rules_approval (c : reject_config) : bool := rules c.

(** The [target_os] of the build. *)
Inductive target_os := MacOs | Linux | OtherUnix | Windows.

Definition get_platform_sandbox (os : target_os) : option sandbox_type :=
  match os with
  | MacOs => Some MacosSeatbelt
  | Linux => Some LinuxSeccomp
  | _ => None
  end.

(** ** Approved commands *)

Inductive approved_command_match_kind := Exact | Prefix.

Record approved_command_pattern := ApprovedCommandPattern {
  argv : list str;
  match_kind : approved_command_match_kind;
  semantic_prefix : option (list str);
}.

#[export] Instance match_kind_eq_dec : EqDecision approved_command_match_kind.
Proof. solve_decision. Defined.
#[export] Instance match_kind_countable : Countable approved_command_match_kind.
Proof.
  refine (inj_countable' (fun k => if k is Exact then true else false)
    (fun b : bool => if b then Exact else Prefix) _). by intros [].
Defined.
#[export] Instance pattern_eq_dec : EqDecision approved_command_pattern.
Proof. solve_decision. Defined.
#[export] Instance pattern_countable : Countable approved_command_pattern.
Proof.
  refine (inj_countable' (fun p => (argv p, match_kind p, semantic_prefix p))
    (fun t => ApprovedCommandPattern t.1.1 t.1.2 t.2) _). by intros [].
Defined.

(** [ApprovedCommandPattern::new] *)
Definition new_pattern (argv : list str) (kind : approved_command_match_kind)
  (semantic_prefix : option (list str)) : approved_command_pattern :=
  ApprovedCommandPattern argv kind
    (match kind with
     | Prefix => Some (default argv semantic_prefix)
     | Exact => None
     end).

(** [slice.starts_with(prefix)] *)
Definition list_starts_with (l prefix : list str) : bool :=
  bool_decide (take (length prefix) l = prefix).

Definition is_shell_like_executable (token : str) : bool :=
  let trimmed := trim_matches 39%N (trim_matches 34%N token) in
  let name := to_ascii_lowercase (default trimmed (file_name trimmed)) in
  str_mem name [lit "bash"; lit "bash.exe"; lit "sh"; lit "sh.exe"; lit "zsh"; lit "zsh.exe";
                lit "dash"; lit "dash.exe"; lit "ksh"; lit "ksh.exe"; lit "busybox"].

Definition extract_shell_script (command : list str) : option (nat * str) :=
  match command with
  | [script] => Some (0, script)
  | [first; second; third] =>
      if is_shell_like_executable first && str_mem second [lit "-lc"; lit "-c"]
      then Some (2, third) else None
  | _ => None
  end.

(** The prefix that the terminal interface offers to approve. *)
Definition stops_prefix (token : str) : bool :=
  starts_with (lit "-") token || str_contains (lit "/") token
  || str_contains (lit ".") token || str_contains (lit "\") token.

(** The [for] loop, from the second token on. *)
Fixpoint prefix_loop (tokens prefix : list str) : list str :=
  match tokens with
  | [] => prefix
  | token :: tokens' =>
      if stops_prefix token then prefix
      else
        let prefix := prefix ++ [token] in
        if length prefix =? 3 then prefix else prefix_loop tokens' prefix
  end.

Definition prefix_candidate (tokens : list str) : option (list str) :=
  match tokens with
  | [] | [_] => None
  | token :: tokens' =>
      let prefix := prefix_loop tokens' [token] in
      if (2 <=? length prefix) && (length prefix <? length tokens) then Some prefix else None
  end.

Section commands.
Context (try_parse_bash : str -> option tree).
Context (shlex_split : str -> option (list str)).

(** [semantic_tokens], which is also [normalized_command_tokens]. *)
Definition semantic_tokens (command : list str) : option (list str) :=
  match command with
  | [] => None
  | _ =>
      match extract_shell_script command with
      | Some (_, script) => Some (default [script] (shlex_split script))
      | None => Some command
      end
  end.

Definition pattern_matches (p : approved_command_pattern) (command : list str) : bool :=
  match match_kind p with
  | Exact => bool_decide (command = argv p)
  | Prefix =>
      if list_starts_with command (argv p) then true
      else match semantic_prefix p, semantic_tokens command with
           | Some pattern, Some candidate => list_starts_with candidate pattern
           | _, _ => false
           end
  end.

(** [approved.iter().any(|pattern| pattern.matches(command))] *)
Definition any_matches (approved : gset approved_command_pattern) (command : list str) : bool :=
  existsb (fun p => pattern_matches p command) (elements approved).

Definition add_approved_command (p : approved_command_pattern)
  (approved : gset approved_command_pattern) : gset approved_command_pattern :=
  {[ p ]} ∪ approved.

(** ** The decision *)

Definition auto_approve_in (sandbox : option sandbox_type) (otherwise : safety_check)
  : safety_check :=
  match sandbox with Some t => AutoApprove t false | None => otherwise end.

Definition assess_safety_for_untrusted_command (os : target_os)
  (approval_policy : ask_for_approval) (sandbox_policy : sandbox_policy)
  (with_escalated_permissions : bool) : safety_check :=
  match approval_policy, sandbox_policy with
  | UnlessTrusted, _ => AskUser
  | _, DangerFullAccess => AutoApprove SandboxNone false
  | AskReject config, _ =>
      if rejects_sandbox_approval config || rejects_rules_approval config then
        Reject (lit "auto-rejected by approval policy")
      else if with_escalated_permissions then AskUser
      else auto_approve_in (get_platform_sandbox os) AskUser
  | OnRequest, _ =>
      if with_escalated_permissions then AskUser
      else auto_approve_in (get_platform_sandbox os) AskUser
  | Never, _ | OnFailure, _ =>
      auto_approve_in (get_platform_sandbox os)
        (match approval_policy with
         | OnFailure => AskUser
         | _ => Reject (lit "auto-rejected because command is not on trusted list")
         end)
  end.

Definition assess_command_safety (os : target_os) (command : list str)
  (approval_policy : ask_for_approval) (sandbox_policy : sandbox_policy)
  (approved : gset approved_command_pattern) (with_escalated_permissions : bool)
  : safety_check :=
  if is_known_safe_command try_parse_bash command || any_matches approved command then
    AutoApprove SandboxNone (any_matches approved command)
  else
    assess_safety_for_untrusted_command os approval_policy sandbox_policy
      with_escalated_permissions.
End commands.

(** ** Lemmas *)

Lemma list_starts_with_spec l p : list_starts_with l p = true <-> exists rest, l = p ++ rest.
Proof.
  unfold list_starts_with. rewrite bool_decide_eq_true. split.
  - intros H. exists (drop (length p) l). by rewrite <- H at 1; rewrite take_drop.
  - intros [rest ->]. by rewrite take_app_length.
Qed.

Lemma prefix_loop_spec tokens prefix :
  exists k, prefix_loop tokens prefix = prefix ++ take k tokens.
Proof.
  revert prefix. induction tokens as [|t ts IH]; intros prefix; simpl.
  - exists 0. by rewrite app_nil_r.
  - destruct (stops_prefix t); [exists 0; by rewrite app_nil_r|].
    destruct (length (prefix ++ [t]) =? 3); [by exists 1|].
    destruct (IH (prefix ++ [t])) as [k ->]. exists (S k). by rewrite <- app_assoc.
Qed.

Lemma prefix_candidate_spec tokens p :
  prefix_candidate tokens = Some p -> exists rest, tokens = p ++ rest /\ rest <> [] /\ 2 <= length p.
Proof.
  destruct tokens as [|t [|t2 ts]]; [done..|]. unfold prefix_candidate.
  destruct (prefix_loop_spec (t2 :: ts) [t]) as [k ->].
  destruct ((2 <=? _) && _) eqn:E; [|done]. intros [= <-]. bool_solve.
  exists (drop k (t2 :: ts)). split; [|split; [|done]].
  - change (t :: t2 :: ts = t :: (take k (t2 :: ts) ++ drop k (t2 :: ts))). by rewrite take_drop.
  - intros Hd. apply (f_equal length) in Hd. rewrite length_drop in Hd.
    rewrite length_app, length_take in *. simpl in *. lia.
Qed.

Section lemmas.
Context (try_parse_bash : str -> option tree).
Context (shlex_split : str -> option (list str)).
Local Abbreviation pattern_matches := (pattern_matches shlex_split).
Local Abbreviation any_matches := (any_matches shlex_split).
Local Abbreviation assess := (assess_command_safety try_parse_bash shlex_split).

Lemma any_matches_spec approved command :
  any_matches approved command = true <->
  exists p, p ∈ approved /\ pattern_matches p command = true.
Proof.
  unfold Approval.any_matches. rewrite existsb_exists.
  setoid_rewrite <- list_elem_of_In. by setoid_rewrite elem_of_elements.
Qed.

Lemma any_matches_add p approved command :
  any_matches (add_approved_command p approved) command
  = pattern_matches p command || any_matches approved command.
Proof.
  apply eq_bool_prop_intro. rewrite !Is_true_true, orb_true_iff, !any_matches_spec.
  unfold add_approved_command. setoid_rewrite elem_of_union. setoid_rewrite elem_of_singleton.
  naive_solver.
Qed.

Lemma exact_matches command other prefix :
  pattern_matches (new_pattern command Exact prefix) other = bool_decide (other = command).
Proof. done. Qed.

(** A prefix covers what starts with it, as words or as the words of a script. *)
Lemma prefix_matches p command tokens rest :
  semantic_tokens shlex_split command = Some tokens -> tokens = p ++ rest ->
  pattern_matches (new_pattern p Prefix (Some p)) command = true.
Proof.
  intros Ht ->. unfold Approval.pattern_matches. simpl. case_match; [done|]. rewrite Ht.
  apply list_starts_with_spec. by exists rest.
Qed.
End lemmas.

(** A policy that lets a request for more permissions reach the user. *)
Definition prompts (policy : ask_for_approval) : bool :=
  match policy with
  | OnRequest => true
  | AskReject c => negb (sandbox_approval c || rules c)
  | _ => false
  end.

Lemma untrusted_prompt_iff os policy sandbox escalated :
  assess_safety_for_untrusted_command os policy sandbox escalated = AskUser <->
  policy = UnlessTrusted \/
  sandbox <> DangerFullAccess /\
  (prompts policy = true /\ escalated = true \/
   (prompts policy = true \/ policy = OnFailure) /\ get_platform_sandbox os = None).
Proof.
  destruct policy as [| | |c|], sandbox; simpl;
    unfold rejects_sandbox_approval, rejects_rules_approval, auto_approve_in;
    try destruct (sandbox_approval c || rules c); try destruct escalated;
    try destruct (get_platform_sandbox os); simpl; intuition congruence.
Qed.

(** ** Properties *)

Section properties.
Context (try_parse_bash : str -> option tree).
Context (shlex_split : str -> option (list str)).
Local Abbreviation pattern_matches := (pattern_matches shlex_split).
Local Abbreviation any_matches := (any_matches shlex_split).
Local Abbreviation assess := (assess_command_safety try_parse_bash shlex_split).

(** C18: how a command is decided that is not known to be safe, in a session in which nothing
    was approved: it runs without a sandbox exactly when full access was given and the policy is
    not [UnlessTrusted]; it is only confined by the sandbox of the platform, and never counts as
    approved by the user; [UnlessTrusted] always asks, [OnRequest] always asks for a confined
    command that wants more permissions, [Never] never asks, and neither does a policy that
    rejects requests to leave the sandbox. *)
Theorem unsandboxed_iff os command policy sandbox escalated :
  is_known_safe_command try_parse_bash command = false ->
  let decision := assess os command policy sandbox ∅ escalated in
  ((exists u, decision = AutoApprove SandboxNone u) <->
     sandbox = DangerFullAccess /\ policy <> UnlessTrusted) /\
  (forall t u, decision = AutoApprove t u ->
     u = false /\
     (t = SandboxNone \/ (t = MacosSeatbelt /\ os = MacOs) \/ (t = LinuxSeccomp /\ os = Linux))) /\
  (policy = UnlessTrusted -> decision = AskUser) /\
  (policy = OnRequest -> sandbox <> DangerFullAccess -> escalated = true -> decision = AskUser) /\
  (policy = Never \/ (exists c, policy = AskReject c /\ sandbox_approval c = true) ->
     decision <> AskUser).
Proof.
  intros Hk. cbv zeta. unfold assess_command_safety. rewrite Hk.
  change (any_matches ∅ command) with false. cbn [orb].
  destruct policy as [| | |c|], sandbox, escalated, os; cbn;
    unfold rejects_sandbox_approval, rejects_rules_approval;
    try (destruct (sandbox_approval c) eqn:?); try destruct (rules c); cbn;
    (split_and!; [split; [intros [u [=]]|intros [[=] ?]]; try done; by eexists
      |intros t u [= <- <-]; by auto|done..|intros [[=]|(c' & [= <-] & ?)]; congruence]).
Qed.
(** The user is asked exactly when the command is not trusted and the policy
    is [UnlessTrusted], or the command is confined and either asks for more
    permissions under a policy that prompts, or cannot be sandboxed on this
    platform under a policy that falls back to asking; so [Never], and [Reject]
    with a rejecting flag, never ask. *)
Theorem prompt_iff os command policy sandbox approved escalated :
  assess os command policy sandbox approved escalated = AskUser <->
  is_known_safe_command try_parse_bash command = false /\
  any_matches approved command = false /\
  (policy = UnlessTrusted \/
   sandbox <> DangerFullAccess /\
   (prompts policy = true /\ escalated = true \/
    (prompts policy = true \/ policy = OnFailure) /\ get_platform_sandbox os = None)).
Proof.
  unfold assess_command_safety.
  destruct (is_known_safe_command _ _); [naive_solver|]. cbn [orb].
  destruct (any_matches approved command); [naive_solver|].
  rewrite untrusted_prompt_iff. tauto.
Qed.

(** Approving a command for the session changes the decision of that very
    command, which then runs as approved by the user, and of no other. *)
Theorem session_approval os command other policy sandbox approved escalated :
  assess os other policy sandbox
    (add_approved_command (new_pattern command Exact None) approved) escalated
  = if decide (other = command) then AutoApprove SandboxNone true
    else assess os other policy sandbox approved escalated.
Proof.
  unfold assess_command_safety. rewrite any_matches_add, exact_matches.
  case_decide; [|by rewrite bool_decide_false]. by rewrite bool_decide_true, orb_true_r.
Qed.

(** Approving a prefix, as the interface offers it, approves every shell
    script whose words start with it, whatever follows: [git log && rm -rf ~]
    runs unsandboxed and without asking once [git log] is approved. *)
Theorem prefix_approval_runs_scripts os policy sandbox approved escalated prefix rest shell flag script :
  is_shell_like_executable shell = true -> flag ∈ [lit "-lc"; lit "-c"] ->
  shlex_split script = Some (prefix ++ rest) ->
  assess os [shell; flag; script] policy sandbox
    (add_approved_command (new_pattern prefix Prefix (Some prefix)) approved) escalated
  = AutoApprove SandboxNone true.
Proof.
  intros Hs Hf Hp. unfold assess_command_safety. rewrite any_matches_add.
  rewrite (prefix_matches _ _ _ (prefix ++ rest) rest); [by rewrite orb_true_r| |done].
  unfold semantic_tokens, extract_shell_script.
  rewrite Hs, (proj2 (str_mem_elem _ _) Hf). cbn [andb]. by rewrite Hp.
Qed.

(** The prefix that the interface offers for a command is a proper prefix of
    its words, at least two of them, and approving it approves the command. *)
Theorem offered_prefix_covers os policy sandbox approved escalated command tokens prefix :
  semantic_tokens shlex_split command = Some tokens ->
  prefix_candidate tokens = Some prefix ->
  2 <= length prefix < length tokens /\
  assess os command policy sandbox
    (add_approved_command (new_pattern prefix Prefix (Some prefix)) approved) escalated
  = AutoApprove SandboxNone true.
Proof.
  intros Ht (rest & -> & Hr & Hl)%prefix_candidate_spec. split.
  - rewrite length_app. destruct rest; [done|simpl; lia].
  - unfold assess_command_safety. rewrite any_matches_add.
    rewrite (prefix_matches _ _ _ _ _ Ht eq_refl). by rewrite orb_true_r.
Qed.
End properties.

(** Concrete decisions. *)
Module ApprovalRuns.
Definition no_parser (script : str) : option tree := None.
Definition words (s : str) : option (list str) := Some (split_on 32%N s).

Lemma unsandboxed_iff_witness :
  (exists u, assess_command_safety no_parser words Linux [lit "make"] OnRequest DangerFullAccess ∅ false
             = AutoApprove SandboxNone u) /\
  assess_command_safety no_parser words Linux [lit "make"] UnlessTrusted DangerFullAccess ∅ false = AskUser.
Proof.
  split.
  - apply (unsandboxed_iff no_parser words Linux [lit "make"] OnRequest DangerFullAccess false);
      [by vm_compute|by split].
  - destruct (unsandboxed_iff no_parser words Linux [lit "make"] UnlessTrusted DangerFullAccess false)
      as (_ & _ & Hask & _); [by vm_compute|by apply Hask].
Defined.

Lemma prefix_approval_runs_scripts_witness :
  assess_command_safety no_parser words Linux [lit "bash"; lit "-lc"; lit "git log && rm -rf ~"]
    UnlessTrusted ReadOnly
    (add_approved_command (new_pattern [lit "git"; lit "log"] Prefix (Some [lit "git"; lit "log"])) ∅)
    false
  = AutoApprove SandboxNone true.
Proof.
  apply (prefix_approval_runs_scripts no_parser words Linux UnlessTrusted ReadOnly ∅ false
           [lit "git"; lit "log"] [lit "&&"; lit "rm"; lit "-rf"; lit "~"]);
    [by vm_compute|by left|by vm_compute].
Defined.

Lemma offered_prefix_covers_witness :
  2 <= 2 < 3 /\
  assess_command_safety no_parser words Linux [lit "bash"; lit "-lc"; lit "cargo test -q"]
    UnlessTrusted ReadOnly
    (add_approved_command (new_pattern [lit "cargo"; lit "test"] Prefix
                             (Some [lit "cargo"; lit "test"])) ∅) false
  = AutoApprove SandboxNone true.
Proof.
  apply (offered_prefix_covers no_parser words Linux UnlessTrusted ReadOnly ∅ false
           [lit "bash"; lit "-lc"; lit "cargo test -q"]
           [lit "cargo"; lit "test"; lit "-q"] [lit "cargo"; lit "test"]); by vm_compute.
Defined.

Example decisions :
  (assess_command_safety no_parser words Windows [lit "make"] OnFailure ReadOnly ∅ false,
   assess_command_safety no_parser words Linux [lit "make"] OnFailure ReadOnly ∅ false,
   assess_command_safety no_parser words Linux [lit "ls"] UnlessTrusted ReadOnly ∅ true,
   assess_command_safety no_parser words Linux [lit "make"] OnRequest ReadOnly ∅ true)
  = (AskUser, AutoApprove LinuxSeccomp false, AutoApprove SandboxNone false, AskUser).
Proof. by vm_compute. Qed.
End ApprovalRuns.
