(* ===== verification/PatchApproval.v ===== *)
(** * Approving a patch and applying it in the agent

    [code-rs/core/src/safety.rs] ([assess_patch_safety]), the writable roots of
    [code-rs/core/src/protocol.rs] and [code-rs/core/src/apply_patch.rs]: the
    changes that the dry run announced ([PatchInvocation]) are assessed and, when
    they are approved, applied.  A path under construction is kept as its
    components.  [std::fs::rename] is the class [Rename], with its laws; the
    iteration over a [HashMap] is over any order of its entries. *)

From S2P Require Import Prelude SeekSequence PatchParser Paths FileSystem PatchText.
From S2P Require Import PatchFiles PatchInvocation CommandSafety Approval.

(** ** Writable roots *)

(** What [get_writable_roots_with_cwd] asks the machine. *)
Record machine := Machine {
  os : target_os;
  is_dir : str -> bool;
  tmpdir : option str;
}.

Definition cfg_unix (o : target_os) : bool := match o with Windows => false | _ => true end.

Record writable_root := WritableRoot { root : str; read_only_subpaths : list str }.

(** [Path::starts_with] on components. *)
Definition components_start_with (cs base : list Paths.component) : bool :=
  bool_decide (take (length base) cs = base).

Definition is_path_writable_under (r : writable_root) (cs : list Paths.component) : bool :=
  if negb (components_start_with cs (path_components (root r))) then false
  else negb (existsb (fun sub => components_start_with cs (path_components sub))
               (read_only_subpaths r)).

Definition root_with_subpaths (m : machine) (allow_git_writes : bool) (dir : str)
  : writable_root :=
  let top_level_git := path_join dir (lit ".git") in
  WritableRoot dir
    (if negb allow_git_writes && is_dir m top_level_git then [top_level_git] else []).

Definition get_writable_roots_with_cwd (m : machine) (p : sandbox_policy) (cwd : str)
  : list writable_root :=
  match p with
  | DangerFullAccess | ReadOnly => []
  | WorkspaceWrite writable_roots _ exclude_tmpdir_env_var exclude_slash_tmp allow_git_writes =>
      let roots := writable_roots ++ [cwd]
        ++ (if cfg_unix (os m) && negb exclude_slash_tmp && is_dir m (lit "/tmp")
            then [lit "/tmp"] else [])
        ++ (if negb exclude_tmpdir_env_var then
              match tmpdir m with
              | Some d => if str_eqb d [] then [] else [d]
              | None => []
              end
            else []) in
      root_with_subpaths m allow_git_writes <$> roots
  end.

(** ** Paths inside the roots *)

(** [PathBuf::pop] *)
Definition path_pop (out : list Paths.component) : list Paths.component :=
  match last out with
  | None | Some RootDir => out
  | Some _ => removelast out
  end.

(** One round of the loop of [normalize]. *)
Definition normalize_step (out : list Paths.component) (comp : Paths.component)
  : list Paths.component :=
  match comp with
  | ParentDir => path_pop out
  | CurDir => out
  | RootDir => [RootDir]
  | Normal s => out ++ [Normal s]
  end.

Definition normalize_path (path : str) : list Paths.component :=
  fold_left normalize_step (path_components path) [].

Definition is_path_writable (roots : list writable_root) (cwd p : str) : bool :=
  let abs := if is_absolute p then p else path_join cwd p in
  existsb (fun r => is_path_writable_under r (normalize_path abs)) roots.

(** The body of the loop over the changes. *)
Definition change_writable (roots : list writable_root) (cwd : str)
  (entry : str * apply_patch_file_change) : bool :=
  let '(path, change) := entry in
  match change with
  | AddChange _ | DeleteChange _ => is_path_writable roots cwd path
  | UpdateChange _ move_path _ =>
      is_path_writable roots cwd path
      && match move_path with
         | Some dest => is_path_writable roots cwd dest
         | None => true
         end
  end.

(** [action.changes()], in the order of the keys. *)
Definition entries (action : apply_patch_action) : list (str * apply_patch_file_change) :=
  (map_to_list (changes action)).*2.

Definition is_write_patch_constrained_to_writable_paths (m : machine)
  (action : apply_patch_action) (p : sandbox_policy) (cwd : str) : bool :=
  match p with
  | ReadOnly => false
  | DangerFullAccess => true
  | WorkspaceWrite _ _ _ _ _ =>
      forallb (change_writable (get_writable_roots_with_cwd m p cwd) cwd) (entries action)
  end.

Definition is_empty_action (action : apply_patch_action) : bool :=
  bool_decide (changes action = ∅).

Definition assess_patch_safety (m : machine) (action : apply_patch_action)
  (policy : ask_for_approval) (sandbox_policy : sandbox_policy) (cwd : str) : safety_check :=
  if is_empty_action action then Reject (lit "empty patch")
  else if bool_decide (sandbox_policy = ReadOnly) then
    match policy with
    | Never =>
        Reject (lit "write operations require approval but approval policy is set to never")
    | AskReject config =>
        if rejects_sandbox_approval config || rejects_rules_approval config then
          Reject (lit "write operations require approval but approval policy is set to reject")
        else AskUser
    | _ => AskUser
    end
  else if bool_decide (policy = UnlessTrusted) then AskUser
  else if is_write_patch_constrained_to_writable_paths m action sandbox_policy cwd
          || bool_decide (policy = OnFailure) then
    match get_platform_sandbox (os m) with
    | Some sandbox_type => AutoApprove sandbox_type false
    | None =>
        if bool_decide (sandbox_policy = DangerFullAccess)
        then AutoApprove SandboxNone false else AskUser
    end
  else if bool_decide (policy = Never) then
    Reject (lit "writing outside of the project; rejected by user approval settings")
  else AskUser.

(** ** Applying the changes *)

(** [std::fs::rename] *)
Class Rename (S : Type) := { rename : str -> str -> io S io_error unit }.

(** What the code relies on of [rename], for regular files. *)
Class RenameLaws (S L : Type) `{HL : FileSystemLaws S L} `{!Rename S} := {
  rename_Ok s p d s' c : file_at s (loc p) = Some c -> loc p <> loc d ->
    rename p d s = (Ok tt, s') ->
    file_at s' ≡ upd (loc p) None (upd (loc d) (Some c) (file_at s));
  rename_Err s p d e s' : rename p d s = (Err e, s') -> file_at s' ≡ file_at s;
}.

(** [anyhow::Error]: with a context, or the error itself. *)
Inductive core_error := Contextual (context : str) (source : io_error) | Plain (source : io_error).

(** [format!("{err:#}")] *)
Definition show_core_error (e : core_error) : str :=
  match e with
  | Contextual context source => context ++ lit ": " ++ io_err_text source
  | Plain source => io_err_text source
  end.

Section apply.
Context {S : Type} `{FS : FileSystem S, CO : Console S, RN : Rename S}.

Definition create_parent (path : str) : io S core_error unit :=
  match path_parent path with
  | Some parent =>
      if str_eqb (components_text parent) [] then mret tt
      else io_map_err (Contextual (lit "Failed to create parent directories for " ++ path))
                      (create_dir_all (components_text parent))
  | None => mret tt
  end.

(** The body of the loop, with [added], [modified] and [deleted]; the writer is
    [StdFileSystem]. *)
Definition apply_change (entry : str * apply_patch_file_change) (a : affected_paths)
  : io S core_error affected_paths :=
  let '(path, change) := entry in
  match change with
  | AddChange content =>
      _ ← create_parent path;
      _ ← io_map_err (Contextual (lit "Failed to write file " ++ path)) (write_file path content);
      mret (push_added path a)
  | DeleteChange _ =>
      _ ← io_map_err (Contextual (lit "Failed to delete file " ++ path)) (remove_file path);
      mret (push_deleted path a)
  | UpdateChange _ move_path new_content =>
      match move_path with
      | Some dest =>
          _ ← create_parent dest;
          _ ← io_map_err (Contextual (lit "Failed to rename file " ++ path)) (rename path dest);
          _ ← io_map_err Plain (write_file dest new_content);
          mret (push_deleted path (push_modified dest a))
      | None =>
          _ ← io_map_err Plain (write_file path new_content);
          mret (push_modified path a)
      end
  end.

Fixpoint apply_changes (es : list (str * apply_patch_file_change)) (a : affected_paths)
  : io S core_error affected_paths :=
  match es with
  | [] => mret a
  | e :: es' => a' ← apply_change e a; apply_changes es' a'
  end.

(** [apply_changes_from_apply_patch], the map being iterated in the order [es]. *)
Definition apply_changes_from_apply_patch (es : list (str * apply_patch_file_change))
  : io S core_error affected_paths :=
  apply_changes es (AffectedPaths [] [] []).

Definition apply_changes_from_apply_patch_and_report
  (es : list (str * apply_patch_file_change)) : io S io_error unit := fun s =>
  match apply_changes_from_apply_patch es s with
  | (Ok affected_paths, s') => print_summary affected_paths s'
  | (Err err, s') => writeln_err (show_core_error err) s'
  end.

(** [ReviewDecision] of the user, when asked. *)
Inductive review_decision := Approved | ApprovedForSession | Denied | Abort.

Inductive apply_patch_result := Applied (auto_approved success : bool) | Reply (message : str).

(** [apply_patch] of the agent: the assessment, the question, the application.
    The checks of [run_patch_harness] before it, which only make a summary, and
    the texts of the two streams are left out. *)
Definition core_apply_patch (m : machine) (policy : ask_for_approval)
  (sandbox_policy : sandbox_policy) (cwd : str) (decision : review_decision)
  (action : apply_patch_action) (es : list (str * apply_patch_file_change))
  : S -> apply_patch_result * S := fun s =>
  let run auto_approved :=
    let '(result, s') := apply_changes_from_apply_patch_and_report es s in
    (Applied auto_approved (is_ok result), s') in
  match assess_patch_safety m action policy sandbox_policy cwd with
  | AutoApprove _ _ => run true
  | AskUser =>
      match decision with
      | Approved | ApprovedForSession => run false
      | Denied | Abort => (Reply (lit "patch rejected by user"), s)
      end
  | Reject reason => (Reply (lit "patch rejected: " ++ reason), s)
  end.
End apply.

(** ** Specification *)

(** The paths that a change names, and all paths that a patch names. *)
Definition touched (entry : str * apply_patch_file_change) : list str :=
  match entry.2 with
  | UpdateChange _ (Some dest) _ => [entry.1; dest]
  | _ => [entry.1]
  end.

Definition touched_by (es : list (str * apply_patch_file_change)) : list str :=
  concat (touched <$> es).

(** A path strictly below a root: the root, and then only names. *)
Definition is_name (c : Paths.component) : Prop :=
  match c with Normal _ => True | _ => False end.

Section effect.
Context {L : Type} `{EqDecision L} (at_path : str -> L).

(** The texts that a change gives to files. *)
Definition assigns (entry : str * apply_patch_file_change) : list (L * option str) :=
  match entry with
  | (path, AddChange content) => [(at_path path, Some content)]
  | (path, DeleteChange _) => [(at_path path, None)]
  | (path, UpdateChange _ None new_content) => [(at_path path, Some new_content)]
  | (path, UpdateChange _ (Some dest) new_content) =>
      [(at_path path, None); (at_path dest, Some new_content)]
  end.

Definition assigned (es : list (str * apply_patch_file_change)) : list (L * option str) :=
  concat (assigns <$> es).

(** After the assignments, in any order: every assigned file has its text, every
    other file is as before. *)
Definition realises (as_ : list (L * option str)) (v w : view L) : Prop :=
  forall l, (forall o, (l, o) ∈ as_ -> w l = o) /\ (l ∉ as_.*1 -> w l = v l).

(** The files to move exist. *)
Definition moves_exist (es : list (str * apply_patch_file_change)) (v : view L) : Prop :=
  forall p diff d new, (p, UpdateChange diff (Some d) new) ∈ es -> v (at_path p) <> None.

Lemma assigns_touched e : (assigns e).*1 = at_path <$> touched e.
Proof. by destruct e as [p [?|?|? [?|] ?]]. Qed.

Lemma assigned_touched es : (assigned es).*1 = at_path <$> touched_by es.
Proof.
  unfold assigned, touched_by. induction es as [|e es IH]; [done|].
  csimpl. by rewrite !fmap_app, IH, assigns_touched.
Qed.

Lemma realises_nil v w : w ≡ v -> realises [] v w.
Proof. intros H l. split; [by intros o ?%not_elem_of_nil|]. intros _. apply H. Qed.

Lemma realises_upd l o v w : w ≡ upd l o v -> realises [(l, o)] v w.
Proof.
  intros H k. rewrite (H k). split.
  - intros o' [= -> ->]%list_elem_of_singleton. apply upd_same.
  - intros Hk. apply upd_other. intros ->. apply Hk. by left.
Qed.

Lemma realises_app as1 as2 u v w :
  NoDup (as1 ++ as2).*1 -> realises as1 u v -> realises as2 v w -> realises (as1 ++ as2) u w.
Proof.
  rewrite fmap_app. intros (_ & Hd & _)%NoDup_app H1 H2 l. split.
  - intros o [Ho|Ho]%elem_of_app; [|by apply H2].
    rewrite (proj2 (H2 l)); [by apply H1|]. apply Hd.
    apply list_elem_of_fmap. by exists (l, o).
  - rewrite fmap_app, not_elem_of_app. intros [Hl1 Hl2].
    rewrite (proj2 (H2 l)) by done. by apply H1.
Qed.

Lemma realises_perm as1 as2 v w : as1 ≡ₚ as2 -> realises as1 v w -> realises as2 v w.
Proof.
  intros Hp H l. split; [intros o; rewrite <- Hp|rewrite <- Hp]; apply H.
Qed.

Lemma assigned_perm es es' : es ≡ₚ es' -> assigned es ≡ₚ assigned es'.
Proof.
  unfold assigned. induction 1 as [|e es es' _ IH|e1 e2 es|]; csimpl; [done|by rewrite IH| |by etrans].
  rewrite !app_assoc. by rewrite (Permutation_app_comm (assigns e1)).
Qed.

Lemma moves_exist_perm es es' v : es ≡ₚ es' -> moves_exist es v -> moves_exist es' v.
Proof. intros Hp H p diff d new. rewrite <- Hp. apply H. Qed.
End effect.

Lemma touched_first e es : e ∈ es -> e.1 ∈ touched_by es.
Proof.
  intros He. unfold touched_by. apply list_elem_of_In, in_concat. exists (touched e).
  split; [apply in_map_iff; exists e; split; [done|]; by apply list_elem_of_In|].
  destruct e as [? [| |? [] ?]]; by left.
Qed.

Lemma touched_by_perm es es' : es ≡ₚ es' -> touched_by es ≡ₚ touched_by es'.
Proof.
  unfold touched_by. induction 1 as [|e es es' _ IH|e1 e2 es|]; csimpl; [done|by rewrite IH| |by etrans].
  rewrite !app_assoc. by rewrite (Permutation_app_comm (touched e1)).
Qed.

Lemma realises_unique {L} `{EqDecision L} as_ (v w1 w2 : view L) :
  realises as_ v w1 -> realises as_ v w2 -> w1 ≡ w2.
Proof.
  intros H1 H2 l. destruct (decide (l ∈ as_.*1)) as [Hin|Hn].
  - apply list_elem_of_fmap in Hin as ([l' o] & -> & Hin). simpl.
    by rewrite (proj1 (H1 l') o Hin), (proj1 (H2 l') o Hin).
  - by rewrite (proj2 (H1 l) Hn), (proj2 (H2 l) Hn).
Qed.

(** ** What applying the changes does *)

Section applying.
Context {S L : Type} `{HR : RenameLaws S L}.
Implicit Types (s : S) (v w : view L) (l : L).
Local Abbreviation entry := (str * apply_patch_file_change)%type.

Lemma create_parent_frame p s r s' : create_parent p s = (r, s') -> file_at s' ≡ file_at s.
Proof.
  unfold create_parent. destruct (path_parent p); [|by intros [= _ <-]].
  case_match; [by intros [= _ <-]|]. unfold io_map_err.
  destruct (create_dir_all _ s) as [r' s1] eqn:E. intros [= _ <-]. by eapply mkdir_frame.
Qed.

(** Nothing outside the paths that a change names changes, whatever it returns. *)
Definition keeps_others (paths : list str) s s' : Prop :=
  forall l, l ∉ loc <$> paths -> file_at s' l = file_at s l.

Lemma write_run (p c : str) s r s' :
  write_file p c s = (r, s') ->
  keeps_others [p] s s' /\ (r = Ok tt -> realises [(loc p, Some c)] (file_at s) (file_at s')).
Proof.
  intros H. destruct r as [[]|e].
  - apply write_Ok in H. split; [|by intros _; apply realises_upd].
    intros l Hl. rewrite (H l). apply upd_other. intros ->. apply Hl. by left.
  - split; [|done]. intros l Hl. eapply write_Err; [done|]. intros ->. apply Hl. by left.
Qed.

Lemma remove_run p s r s' :
  remove_file p s = (r, s') ->
  keeps_others [p] s s' /\ (r = Ok tt -> realises [(loc p, None)] (file_at s) (file_at s')).
Proof.
  intros H. destruct r as [[]|e].
  - apply remove_Ok in H. split; [|by intros _; apply realises_upd].
    intros l Hl. rewrite (H l). apply upd_other. intros ->. apply Hl. by left.
  - apply remove_Err in H. split; [|done]. intros l _. apply H.
Qed.

Lemma io_map_err_run {E F A} (f : E -> F) (m : io S E A) s r s' :
  io_map_err f m s = (r, s') -> exists r0, m s = (r0, s') /\ r = map_err f r0.
Proof. unfold io_map_err. destruct (m s) as [r0 s0]. intros [= <- <-]. eauto. Qed.

Lemma keeps_others_equiv ps s s' : file_at s' ≡ file_at s -> keeps_others ps s s'.
Proof. intros H l _. apply H. Qed.

Lemma keeps_others_trans ps1 ps2 s s1 s2 :
  keeps_others ps1 s s1 -> keeps_others ps2 s1 s2 -> keeps_others (ps1 ++ ps2) s s2.
Proof.
  intros H1 H2 l. rewrite fmap_app, not_elem_of_app. intros [Hl1 Hl2].
  by rewrite (H2 l Hl2), (H1 l Hl1).
Qed.

Lemma realises_from as_ v v' w : v' ≡ v -> realises as_ v' w -> realises as_ v w.
Proof. intros Hv H l. rewrite <- (Hv l). apply H. Qed.

(** One step: a directory is made, then [m] runs, then the rest is bookkeeping. *)
Lemma simple_change_run {A} (dir : io S core_error unit) (m : io S io_error unit)
    (f : io_error -> core_error) (x : A) as_ p s r s' :
  (forall s0 r0 s1, dir s0 = (r0, s1) -> file_at s1 ≡ file_at s0) ->
  (forall s0 r0 s1, m s0 = (r0, s1) ->
     keeps_others [p] s0 s1 /\ (r0 = Ok tt -> realises as_ (file_at s0) (file_at s1))) ->
  (_ ← dir; _ ← io_map_err f m; mret x) s = (r, s') ->
  keeps_others [p] s s' /\ (is_ok r = true -> realises as_ (file_at s) (file_at s')).
Proof.
  intros Hd Hm [(u & s1 & H1%Hd & H)|(e & s1 & H1%Hd & [= -> <-])]%io_bind_run.
  2: { split; [by apply keeps_others_equiv|done]. }
  apply io_bind_run in H as [([] & s2 & H2 & [= <- <-])|(e & s2 & H2 & [= -> <-])];
    apply io_map_err_run in H2 as (r0 & H2%Hm & Hr); destruct H2 as [Hk Ho].
  - split; [intros l Hl; by rewrite (Hk l Hl), (H1 l)|]. intros _.
    apply (realises_from _ _ (file_at s1)); [done|]. apply Ho. by destruct r0 as [[]|].
  - split; [|done]. intros l Hl. by rewrite (Hk l Hl), (H1 l).
Qed.

Lemma move_run {A} p d new (x : A) s r s' :
  loc p <> loc d -> file_at s (loc p) <> None ->
  (_ ← io_map_err (Contextual (lit "Failed to rename file " ++ p)) (rename p d);
   _ ← io_map_err Plain (write_file d new); mret x) s = (r, s') ->
  keeps_others [p; d] s s' /\
  (is_ok r = true -> realises [(loc p, None); (loc d, Some new)] (file_at s) (file_at s')).
Proof.
  intros Hpd Hp [([] & s1 & H1 & H2)|(e & s1 & H1 & [= -> <-])]%io_bind_run;
    apply io_map_err_run in H1 as (r0 & H1 & Hr); destruct r0 as [[]|?]; simplify_eq/=.
  2: { split; [|done]. apply keeps_others_equiv. by eapply rename_Err. }
  destruct (file_at s (loc p)) as [c|] eqn:Hc; [|done].
  eapply rename_Ok in H1; [|exact Hc|done].
  assert (exists r1, write_file d new s1 = (r1, s') /\ (is_ok r = true -> r1 = Ok tt))
    as (r1 & [Hk Ho]%write_run & Hr).
  { apply io_bind_run in H2 as [(u & s2 & H2 & [= <- <-])|(e & s2 & H2 & [= -> <-])];
      apply io_map_err_run in H2 as (r1 & H2 & Hr); exists r1; (split; [done|]);
      destruct r1 as [[]|]; by simplify_eq. }
  assert (Hs : forall l, l <> loc p -> l <> loc d -> file_at s1 l = file_at s l).
  { intros l ? ?. by rewrite (H1 l), !upd_other. }
  split.
  - intros l Hl. simpl in Hl. rewrite !not_elem_of_cons in Hl. destruct Hl as (Hlp & Hld & _).
    rewrite (Hk l) by (csimpl; rewrite list_elem_of_singleton; done). by apply Hs.
  - intros Hok. specialize (Ho (Hr Hok)). intros l. split.
    + intros o [[= -> ->]|[= -> ->]%list_elem_of_singleton]%elem_of_cons; [|by apply Ho, list_elem_of_singleton].
      rewrite (proj2 (Ho _)) by (intros ?%list_elem_of_singleton; done).
      by rewrite (H1 _), upd_same.
    + simpl. rewrite !not_elem_of_cons. intros (Hlp & Hld & _).
      rewrite (proj2 (Ho _)) by (intros ?%list_elem_of_singleton; done). by apply Hs.
Qed.

Lemma apply_change_run e (a : affected_paths) s r s' :
  NoDup (loc <$> touched e) -> moves_exist loc [e] (file_at s) ->
  apply_change e a s = (r, s') ->
  keeps_others (touched e) s s' /\
  (is_ok r = true -> realises (assigns loc e) (file_at s) (file_at s')).
Proof.
  intros Hnd Hmv. destruct e as [p [c|c|diff [d|] new]]; cbn [apply_change touched snd fst assigns].
  - apply simple_change_run; [apply create_parent_frame|]. intros *. apply write_run.
  - refine (simple_change_run (mret tt) (remove_file p) (Contextual _) (push_deleted p a) _ p s r s' _ _);
      [by intros ? ? ? [= _ <-]|]. intros *. apply remove_run.
  - intros [(u & s1 & H1%create_parent_frame & H)|(e & s1 & H1%create_parent_frame & [= -> <-])]%io_bind_run.
    2: { split; [by apply keeps_others_equiv|done]. }
    assert (Hpd : loc p <> loc d).
    { apply NoDup_cons in Hnd as [Hn _]. intros He. apply Hn. csimpl.
      rewrite He. by left. }
    assert (Hp : file_at s1 (loc p) <> None).
    { rewrite (H1 (loc p)). eapply Hmv. by left. }
    destruct (move_run p d new (push_deleted p (push_modified d a)) s1 r s' Hpd Hp H) as [Hk Ho].
    split; [intros l Hl; by rewrite (Hk l Hl)|]. intros Hok.
    by apply (realises_from _ _ (file_at s1)), Ho.
  - refine (simple_change_run (mret tt) (write_file p new) Plain (push_modified p a) _ p s r s' _ _);
      [by intros ? ? ? [= _ <-]|]. intros *. apply write_run.
Qed.

Lemma apply_changes_run (es : list entry) (a : affected_paths) s r s' :
  NoDup (loc <$> touched_by es) -> moves_exist loc es (file_at s) ->
  apply_changes es a s = (r, s') ->
  keeps_others (touched_by es) s s' /\
  (is_ok r = true -> realises (assigned loc es) (file_at s) (file_at s')).
Proof.
  revert a s. induction es as [|e es IH]; intros a s Hnd Hmv H.
  { injection H as <- <-. split; [done|]. intros _. by apply realises_nil. }
  change (touched_by (e :: es)) with (touched e ++ touched_by es) in *.
  rewrite fmap_app in Hnd. pose proof Hnd as (Hnd1 & Hdisj & Hnd2)%NoDup_app.
  assert (Hmv1 : moves_exist loc [e] (file_at s)).
  { intros p diff d new Hin%list_elem_of_singleton. apply (Hmv p diff d new). rewrite Hin. by left. }
  cbn [apply_changes] in H.
  apply io_bind_run in H as [(a1 & s1 & H1 & H2)|(x & s1 & H1 & [= -> <-])];
    apply (apply_change_run _ _ _ _ _ Hnd1 Hmv1) in H1 as [Hk1 Ho1].
  2: { split; [|done]. intros l Hl. apply Hk1. rewrite fmap_app in Hl. set_solver. }
  apply IH in H2 as [Hk2 Ho2]; [|done|].
  - split; [by apply (keeps_others_trans _ _ _ s1)|]. intros Hok.
    change (assigned loc (e :: es)) with (assigns loc e ++ assigned loc es).
    apply (realises_app _ _ _ (file_at s1)); [|by apply Ho1|by apply Ho2].
    by rewrite fmap_app, assigns_touched, assigned_touched.
  - intros p diff d new Hin. rewrite (Hk1 (loc p)); [eapply Hmv; by right|].
    intros Hp. apply (Hdisj _ Hp). apply list_elem_of_fmap. exists p. split; [done|].
    by apply (touched_first (p, UpdateChange diff (Some d) new)).
Qed.
End applying.

(** *** Normal forms of paths *)

Lemma part_component_no_root s c : c ∈ part_component false s -> c <> RootDir.
Proof. unfold part_component. repeat case_match; set_solver. Qed.

Lemma components_no_root rest :
  Forall (fun c => c <> RootDir) (rest ≫= part_component false).
Proof.
  induction rest as [|s rest IH]; simpl; [done|]. apply Forall_app. split; [|done].
  apply Forall_forall. intros c. apply part_component_no_root.
Qed.

Lemma path_pop_names names :
  Forall is_name names ->
  path_pop (RootDir :: names) = RootDir :: removelast names /\ Forall is_name (removelast names).
Proof.
  intros Hn. unfold path_pop. destruct names as [|x names _] using rev_ind; [done|].
  rewrite app_comm_cons, last_snoc, !removelast_last.
  apply Forall_app in Hn as [Hn Hx]. apply Forall_cons in Hx as [Hx _].
  by destruct x.
Qed.

Lemma normalize_steps cs names :
  Forall (fun c => c <> RootDir) cs -> Forall is_name names ->
  exists names', fold_left normalize_step cs (RootDir :: names) = RootDir :: names' /\
    Forall is_name names'.
Proof.
  intros Hcs. revert names. induction Hcs as [|c cs Hc _ IH]; intros names Hn;
    cbn [fold_left]; [eauto|].
  destruct c as [| | |s]; [done|by apply IH| |]; cbn [normalize_step].
  - destruct (path_pop_names _ Hn) as [-> ?]. by apply IH.
  - apply (IH (names ++ [Normal s])). apply Forall_app. split; [done|]. by constructor.
Qed.

(** An absolute path is the root followed by names: no [.] and no [..] is left. *)
Lemma normalize_absolute p :
  is_absolute p = true -> exists names, normalize_path p = RootDir :: names /\ Forall is_name names.
Proof.
  intros Ha. unfold normalize_path, path_components. rewrite Ha.
  pose proof (split_on_ne SLASH p) as Hne. destruct (split_on SLASH p) as [|s0 rest]; [done|].
  rewrite fold_left_app. simpl. apply (normalize_steps _ []); [|done]. apply components_no_root.
Qed.

Lemma join_absolute base p :
  is_absolute base = true -> is_absolute (if is_absolute p then p else path_join base p) = true.
Proof.
  intros Hb. destruct (is_absolute p) eqn:Hp; [done|]. unfold path_join. rewrite Hp.
  unfold is_absolute in *. apply starts_with_spec in Hb as [r ->].
  destruct (last _) as [c|] eqn:Hl; [|by apply last_None in Hl].
  case_match; apply starts_with_spec; rewrite <- app_assoc; eauto.
Qed.

(** A writable path is lexically inside a writable root: an absolute path without
    dots that starts with the root and with none of its read-only parts. *)
Definition inside (r : writable_root) (names : list Paths.component) : Prop :=
  Forall is_name names /\
  components_start_with (RootDir :: names) (path_components (root r)) = true /\
  Forall (fun sub => components_start_with (RootDir :: names) (path_components sub) = false)
    (read_only_subpaths r).

Definition absolute_in (cwd p : str) : str := if is_absolute p then p else path_join cwd p.

Lemma is_path_writable_spec roots cwd p :
  is_absolute cwd = true -> is_path_writable roots cwd p = true ->
  exists r names, r ∈ roots /\ normalize_path (absolute_in cwd p) = RootDir :: names /\ inside r names.
Proof.
  intros Hc (r & Hr & H)%existsb_exists. fold (absolute_in cwd p) in H.
  destruct (normalize_absolute (absolute_in cwd p)) as (names & Hn & Hnames).
  { by apply join_absolute. }
  exists r, names. split; [by apply list_elem_of_In|]. split; [done|].
  unfold is_path_writable_under in H. rewrite Hn in H.
  destruct (components_start_with _ (path_components (root r))) eqn:E; [|done].
  split; [done|]. split; [done|]. simpl in H. by apply negb_true_iff, existsb_false in H.
Qed.

Lemma change_writable_spec roots cwd e :
  change_writable roots cwd e = true <->
  Forall (fun p => is_path_writable roots cwd p = true) (touched e).
Proof.
  destruct e as [p [?|?|? [d|] ?]]; simpl; unfold touched; simpl;
    rewrite ?andb_true_iff, ?Forall_cons, ?Forall_nil; tauto.
Qed.

Lemma constrained_spec m action p cwd :
  is_write_patch_constrained_to_writable_paths m action p cwd = true <->
  p = DangerFullAccess \/
  (p <> ReadOnly /\
   Forall (fun q => is_path_writable (get_writable_roots_with_cwd m p cwd) cwd q = true)
     (touched_by (entries action))).
Proof.
  unfold touched_by. rewrite Forall_concat, Forall_fmap.
  destruct p as [| |]; simpl; [naive_solver|naive_solver|]. rewrite forallb_forall, Forall_forall.
  setoid_rewrite <- list_elem_of_In. setoid_rewrite change_writable_spec. naive_solver.
Qed.

(** *** The changes that a dry run announces *)

Section announcing.
Context {S L : Type} `{HL : FileSystemLaws S L}.
Context (unified_diff : str -> str -> nat -> str).
Implicit Types (s : S) (v w : view L).

(** [announces cwd v h e]: the change [e] is what the hunk [h] does to [v]. *)
Definition announces (cwd : str) v (h : hunk) (e : str * apply_patch_file_change) : Prop :=
  e.1 = resolve_path h cwd /\
  match h, e.2 with
  | AddFile _ c, AddChange c' => c' = c
  | DeleteFile _, DeleteChange _ => True
  | UpdateFile _ mv chunks, UpdateChange _ mv' new =>
      mv' = path_join cwd <$> mv /\
      exists old, v (loc e.1) = Some old /\ new_contents_of old e.1 chunks = Ok new
  | _, _ => False
  end.

Lemma hunk_change_announces cwd h s c s' :
  hunk_change unified_diff cwd (resolve_path h cwd) h s = (Ok c, s') ->
  announces cwd (file_at s) h (resolve_path h cwd, c).
Proof.
  destruct h as [q t|q|q mv chunks]; simpl.
  - by intros [= <- _].
  - by intros (x & s1 & _ & [= <- _])%io_bind_Ok.
  - intros ([d t] & s1 & H1 & [= <- _])%io_bind_Ok. split; [done|]. split; [done|].
    apply io_bind_Ok in H1 as (x & s2 & H1 & [= <- <- _]).
    apply derive_Ok in H1 as (_ & old & Hold & Hnew). by exists old.
Qed.

Lemma announces_equiv cwd v w h e : v ≡ w -> announces cwd v h e -> announces cwd w h e.
Proof. intros Hv. unfold announces. by rewrite (Hv (loc e.1)). Qed.

Lemma collect_entries (cwd : str) (hs : list hunk) (cs cs' : change_map) s s' :
  collect_changes unified_diff cwd hs cs s = (Ok cs', s') ->
  exists es, (map_to_list cs').*2 ≡ₚ es ++ (map_to_list cs).*2 /\
    Forall2 (announces cwd (file_at s)) hs es.
Proof.
  revert cs s. induction hs as [|h hs IH]; intros cs s; simpl.
  { intros [= <- _]. by exists []. }
  destruct (cs !! path_components (resolve_path h cwd)) eqn:E; [done|].
  intros (c & s1 & H1 & H2)%io_bind_Ok. apply IH in H2 as (es & Hp & Hes).
  exists ((resolve_path h cwd, c) :: es). split.
  - rewrite Hp, map_to_list_insert by done. simpl. by rewrite Permutation_middle.
  - constructor; [by eapply hunk_change_announces|].
    apply hunk_change_frame in H1. eapply Forall2_impl; [exact Hes|]. intros ? ?.
    by apply announces_equiv.
Qed.

Lemma realises_move (l1 l2 : L) o1 o2 v :
  l1 <> l2 -> realises [(l1, o1); (l2, o2)] v (upd l1 o1 (upd l2 o2 v)).
Proof.
  intros Hne l. split.
  - intros o [[= -> ->]|[= -> ->]%list_elem_of_singleton]%elem_of_cons; [by rewrite upd_same|].
    by rewrite upd_other, upd_same.
  - simpl. rewrite !not_elem_of_cons. intros (? & ? & _). by rewrite !upd_other.
Qed.

Lemma announces_moves_exist cwd v hs es :
  Forall2 (announces cwd v) hs es -> moves_exist loc es v.
Proof.
  intros H p diff d new Hin. apply list_elem_of_lookup in Hin as [i Hi].
  apply (Forall2_lookup_r _ _ _ _ _ H) in Hi as (h & _ & _ & Hh). simpl in Hh.
  destruct h; try done. destruct Hh as (_ & old & Hold & _). by rewrite Hold.
Qed.

(** The entries of a verified action, in the order of the hunks. *)
Lemma verified_entries {language_error} (set_language : result language_error unit)
    query_matches command cwd s action s1 args :
  maybe_parse_apply_patch_verified set_language query_matches unified_diff command cwd s
    = (VerifiedBody action, s1) ->
  maybe_parse_apply_patch set_language query_matches command = Body args ->
  exists es, entries action ≡ₚ es /\
    Forall2 (announces (action_cwd action) (file_at s1)) (hunks args) es.
Proof.
  intros H Hargs. unfold maybe_parse_apply_patch_verified in H. rewrite Hargs in H.
  destruct (is_malformed_heredoc command); [done|].
  destruct (is_implicit_invocation command); [done|].
  destruct (collect_changes _ _ _ _ s) as [[cs|e] s2] eqn:E; simplify_eq.
  pose proof (collect_changes_frame _ _ _ _ _ _ _ E) as Hf.
  apply collect_entries in E as (es & Hp & Hes). exists es. split.
  - unfold entries. simpl. rewrite Hp, map_to_list_empty. simpl. by rewrite app_nil_r.
  - eapply Forall2_impl; [exact Hes|]. intros ? ?. by apply announces_equiv.
Qed.

Lemma announced_one cwd v0 v h e :
  announces cwd v0 h e -> NoDup (loc <$> touched e) -> v (loc e.1) = v0 (loc e.1) ->
  exists w, hunk_effect loc v (resolve_hunk cwd h) = Some w /\ realises (assigns loc e) v w.
Proof.
  intros [Hp H] Hnd Hv. destruct e as [p c]. simpl in Hp. subst p.
  destruct h as [q t|q|q mv chunks], c as [t'|t'|diff mv' new]; try done;
    unfold resolve_path, hunk_path in *; simpl in *.
  - subst. eexists. split; [done|]. by apply realises_upd.
  - eexists. split; [done|]. by apply realises_upd.
  - destruct H as (-> & old & Hold & Hnew). rewrite Hv, Hold. simpl. rewrite Hnew.
    destruct mv as [d|]; simpl; (eexists; split; [done|]); [|by apply realises_upd].
    apply realises_move. apply NoDup_cons in Hnd as [Hn _]. intros He. apply Hn. csimpl.
    rewrite He. by left.
Qed.

(** Applying the hunks realises the announced assignments. *)
Lemma announced_effect cwd v0 v hs es :
  Forall2 (announces cwd v0) hs es -> NoDup (loc <$> touched_by es) ->
  (forall e, e ∈ es -> v (loc e.1) = v0 (loc e.1)) ->
  exists w, hunks_effect loc v (resolve_hunk cwd <$> hs) = Some w /\
    realises (assigned loc es) v w.
Proof.
  intros H. revert v. induction H as [|h e hs es He Hes IH]; intros v Hnd Hv.
  { exists v. split; [done|]. by apply realises_nil. }
  change (touched_by (e :: es)) with (touched e ++ touched_by es) in Hnd.
  rewrite fmap_app in Hnd. pose proof Hnd as (Hnd1 & Hdisj & Hnd2)%NoDup_app.
  destruct (announced_one cwd v0 v h e He Hnd1) as (w1 & Hw1 & Hr1); [apply Hv; by left|].
  destruct (IH w1 Hnd2) as (w & Hw & Hr).
  - intros e' He'. rewrite (proj2 (Hr1 (loc e'.1))); [apply Hv; by right|].
    rewrite assigns_touched. intros Hin. apply (Hdisj _ Hin). apply list_elem_of_fmap.
    exists e'.1. split; [done|]. by apply touched_first.
  - exists w. rewrite fmap_cons. cbn [hunks_effect]. rewrite Hw1. split; [exact Hw|].
    change (assigned loc (e :: es)) with (assigns loc e ++ assigned loc es).
    apply (realises_app _ _ _ w1); [|done..].
    by rewrite fmap_app, assigns_touched, assigned_touched.
Qed.
End announcing.

(** ** Properties *)

(** A printer to a buffer, which never fails: [impl Write for Vec<u8>]. *)
Definition buffers_never_fail (S : Type) `{!Console S} : Prop :=
  (forall m (s : S), (writeln_out m s).1 = Ok tt) /\ (forall m (s : S), (writeln_err m s).1 = Ok tt).

(** What auto-approval says of the paths, where the sandbox confines them. *)
Lemma patch_writable_paths m action policy sandbox cwd t u :
  assess_patch_safety m action policy sandbox cwd = AutoApprove t u ->
  policy <> OnFailure -> sandbox <> DangerFullAccess ->
  Forall (fun p => is_path_writable (get_writable_roots_with_cwd m sandbox cwd) cwd p = true)
    (touched_by (entries action)).
Proof.
  unfold assess_patch_safety. pose proof (constrained_spec m action sandbox cwd) as Hc.
  intros H Hp Hs. destruct (is_empty_action action); [done|].
  case_bool_decide; [by destruct policy; repeat case_match|]. case_bool_decide; [done|].
  rewrite (bool_decide_false _ Hp), orb_false_r in H.
  destruct (is_write_patch_constrained_to_writable_paths _ _ _ _); [naive_solver|].
  by case_bool_decide.
Qed.

(** *** Where a path leads, read part by part

    Independently of the code: from the names of the directories so far, outermost first. *)

Fixpoint walk (here parts : list str) : list str :=
  match parts with
  | [] => here
  | part :: parts =>
      if bool_decide (part = [] \/ part = lit ".") then walk here parts
      else if bool_decide (part = lit "..") then walk (removelast here) parts
      else walk (here ++ [part]) parts
  end.

(** The names of a path, a relative one read in [cwd]. *)
Definition leads_to (cwd path : str) : list str :=
  if starts_with (lit "/") path then walk [] (split_on 47%N path)
  else walk (walk [] (split_on 47%N cwd)) (split_on 47%N path).

(** [names] is the directory [dir] or lies under it. *)
Definition under (dir : str) (names : list str) : Prop :=
  exists more, names = walk [] (split_on 47%N dir) ++ more.

(** The directories that the sandbox leaves writable. *)
Definition writable_dir (m : machine) (sandbox : sandbox_policy) (cwd dir : str) : Prop :=
  exists roots network no_tmpdir no_tmp git, sandbox = WorkspaceWrite roots network no_tmpdir no_tmp git /\
    (dir ∈ roots \/ dir = cwd \/
     (dir = lit "/tmp" /\ os m <> Windows /\ no_tmp = false /\ is_dir m dir = true) \/
     (tmpdir m = Some dir /\ no_tmpdir = false)).

(** Its [.git] directory is protected. *)
Definition git_protected (m : machine) (sandbox : sandbox_policy) (dir : str) : Prop :=
  exists roots network no_tmpdir no_tmp, sandbox = WorkspaceWrite roots network no_tmpdir no_tmp false /\
    is_dir m (path_join dir (lit ".git")) = true.

Lemma split_on_middle c w r : split_on c (w ++ c :: r) = split_on c w ++ split_on c r.
Proof.
  induction w as [|x w IH]; cbn [app]; [by rewrite split_on_cons, N.eqb_refl|]. rewrite !split_on_cons.
  destruct (x =? c)%N; [by rewrite IH|]. rewrite IH. pose proof (split_on_ne c w).
  by destruct (split_on c w).
Qed.

Lemma normalize_walk parts here :
  fold_left normalize_step (parts ≫= part_component false) (RootDir :: (Normal <$> here)) =
  RootDir :: (Normal <$> walk here parts).
Proof.
  revert here. induction parts as [|p parts IH]; intros here; [done|].
  cbn [mbind list_bind walk]. rewrite fold_left_app. unfold part_component at 2.
  destruct (str_eqb p []) eqn:E1; [apply str_eqb_eq in E1|apply str_eqb_neq in E1].
  { rewrite bool_decide_true by auto. cbn [fold_left]. apply IH. }
  destruct (str_eqb p [DOT]) eqn:E2; [apply str_eqb_eq in E2|apply str_eqb_neq in E2].
  { rewrite bool_decide_true by auto. cbn [fold_left]. apply IH. }
  rewrite (bool_decide_false (p = [] \/ p = lit ".")) by (intros [?|?]; done).
  destruct (str_eqb p [DOT; DOT]) eqn:E3; [apply str_eqb_eq in E3|apply str_eqb_neq in E3].
  - rewrite bool_decide_true by done. cbn [fold_left normalize_step]. rewrite <- IH. f_equal.
    unfold path_pop. destruct here as [|h here _] using rev_ind; [done|].
    rewrite fmap_app. cbn [fmap list_fmap]. rewrite app_comm_cons, last_snoc, !removelast_last. done.
  - rewrite bool_decide_false by done. cbn [fold_left normalize_step].
    rewrite <- IH, fmap_app. done.
Qed.

(** Parts that are all names are appended. *)
Lemma walk_names parts here names : (parts ≫= part_component false) = Normal <$> names ->
  walk here parts = here ++ names.
Proof.
  revert here names. induction parts as [|p parts IH]; intros here names; cbn [mbind list_bind walk].
  { intros H. symmetry in H. apply fmap_nil_inv in H as ->. by rewrite app_nil_r. }
  unfold part_component at 1.
  destruct (str_eqb p []) eqn:E1; [apply str_eqb_eq in E1|apply str_eqb_neq in E1].
  { rewrite bool_decide_true by auto. apply IH. }
  destruct (str_eqb p [DOT]) eqn:E2; [apply str_eqb_eq in E2|apply str_eqb_neq in E2].
  { rewrite bool_decide_true by auto. apply IH. }
  rewrite (bool_decide_false (p = [] \/ p = lit ".")) by (intros [?|?]; done).
  destruct (str_eqb p [DOT; DOT]) eqn:E3; [by destruct names|apply str_eqb_neq in E3].
  rewrite bool_decide_false by done. destruct names as [|n names]; [done|]. intros [= <- H].
  by rewrite (IH _ _ H), <- app_assoc.
Qed.

Lemma walk_app here a b : walk here (a ++ b) = walk (walk here a) b.
Proof.
  revert here. induction a as [|p a IH]; intros here; [done|]. cbn [app walk]. by repeat case_bool_decide.
Qed.

Lemma absolute_parts p : is_absolute p = true ->
  path_components p = RootDir :: (split_on SLASH p ≫= part_component false).
Proof.
  intros Ha. unfold path_components. rewrite Ha. pose proof Ha as Hs.
  apply starts_with_spec in Hs as [r ->]. change ([SLASH] ++ r) with (SLASH :: r).
  rewrite split_on_cons. by rewrite N.eqb_refl.
Qed.

Lemma normalize_leads p : is_absolute p = true ->
  normalize_path p = RootDir :: (Normal <$> walk [] (split_on SLASH p)).
Proof.
  intros Ha. unfold normalize_path. rewrite absolute_parts by done. cbn [fold_left normalize_step].
  apply (normalize_walk _ []).
Qed.

(** Joining an absolute directory and a relative path joins their parts, up to empty ones. *)
Lemma join_parts cwd p : is_absolute cwd = true -> is_absolute p = false ->
  exists gap, split_on SLASH (path_join cwd p) = gap ++ split_on SLASH p /\
    (split_on SLASH cwd = gap \/ split_on SLASH cwd = gap ++ [[]]).
Proof.
  intros Hc Hp. unfold path_join. rewrite Hp. destruct (last cwd) as [c|] eqn:El.
  2: { apply last_None in El as ->. done. }
  apply last_Some in El as [d ->]. destruct (c =? SLASH)%N eqn:Ec.
  - apply N.eqb_eq in Ec as ->. exists (split_on SLASH d). rewrite <- app_assoc.
    change ([SLASH] ++ p) with (SLASH :: p). rewrite split_on_middle.
    split; [done|]. right. change (d ++ [SLASH]) with (d ++ SLASH :: []). by rewrite split_on_middle.
  - exists (split_on SLASH (d ++ [c])). change ([SLASH] ++ p) with (SLASH :: p).
    rewrite split_on_middle. by split; [|left].
Qed.

Lemma leads_to_normalized cwd p : is_absolute cwd = true ->
  normalize_path (absolute_in cwd p) = RootDir :: (Normal <$> leads_to cwd p).
Proof.
  intros Hc. rewrite normalize_leads by by apply join_absolute. do 2 f_equal.
  unfold leads_to, absolute_in. change (starts_with (lit "/") p) with (is_absolute p).
  change 47%N with SLASH.
  destruct (is_absolute p) eqn:Hp; [done|].
  destruct (join_parts cwd p Hc Hp) as (gap & -> & [->| ->]); by rewrite !walk_app.
Qed.

Lemma start_with_spec (cs base : list Paths.component) :
  components_start_with cs base = true <-> exists more, cs = base ++ more.
Proof.
  unfold components_start_with. rewrite bool_decide_eq_true. split.
  - intros H. exists (drop (length base) cs). by rewrite <- H at 1; rewrite take_drop.
  - intros [more ->]. by rewrite take_app_length.
Qed.

Lemma relative_components dir : is_absolute dir = false ->
  dir = [] \/ exists c cs, path_components dir = c :: cs /\ c <> RootDir.
Proof.
  intros Ha. destruct dir as [|x dir]; [by left|right]. unfold path_components. rewrite Ha.
  unfold is_absolute in Ha. rewrite split_on_cons. destruct (x =? SLASH)%N eqn:Ex.
  { apply N.eqb_eq in Ex as ->. exfalso. apply not_true_iff_false in Ha. apply Ha, starts_with_spec.
    by exists dir. }
  pose proof (split_on_ne SLASH dir). destruct (split_on SLASH dir) as [|w ws]; [done|].
  unfold part_component at 1. cbn [str_eqb].
  destruct (str_eqb (x :: w) []) eqn:E0; [by apply str_eqb_eq in E0|].
  destruct (str_eqb _ [DOT]); [by eexists _, _|].
  destruct (str_eqb _ [DOT; DOT]); by eexists _, _.
Qed.

(** A root that the names start with is read name by name. *)
Lemma root_names dir names :
  components_start_with (RootDir :: (Normal <$> names)) (path_components dir) = true ->
  under dir names /\
  (is_absolute dir = true -> path_components dir = RootDir :: (Normal <$> walk [] (split_on SLASH dir))).
Proof.
  intros [more H]%start_with_spec. destruct (is_absolute dir) eqn:Ha.
  - rewrite absolute_parts in H |- * by done. injection H as H.
    apply fmap_app_inv in H as (base & rest & Hb & Hr & Hn).
    rewrite Hb, (walk_names _ [] base) by done. split; [|done].
    exists rest. change 47%N with SLASH. by rewrite (walk_names _ [] base).
  - split; [|done]. destruct (relative_components dir Ha) as [->|(c & cs & Hc & Hne)].
    + by exists names.
    + rewrite Hc in H. by injection H as <- _.
Qed.

Lemma git_names dir : is_absolute dir = true ->
  path_components (path_join dir (lit ".git")) = path_components dir ++ [Normal (lit ".git")].
Proof.
  intros Ha. assert (is_absolute (path_join dir (lit ".git")) = true) as Hj
    by (by apply (join_absolute dir (lit ".git"))).
  rewrite (absolute_parts _ Hj), (absolute_parts _ Ha). cbn [app]. f_equal.
  destruct (join_parts dir (lit ".git") Ha eq_refl) as (gap & -> & [->| ->]).
  - rewrite bind_app. done.
  - rewrite !bind_app. cbn [mbind list_bind part_component]. by rewrite app_nil_r.
Qed.

(** A writable path leads into a writable directory and into no protected [.git]. *)
Lemma writable_leads m sandbox cwd p : is_absolute cwd = true ->
  is_path_writable (get_writable_roots_with_cwd m sandbox cwd) cwd p = true ->
  exists dir, writable_dir m sandbox cwd dir /\ under dir (leads_to cwd p) /\
    (git_protected m sandbox dir -> starts_with (lit "/") dir = true ->
     ~ under (path_join dir (lit ".git")) (leads_to cwd p)).
Proof.
  intros Hc (r & names & Hr & Hn & (_ & Hroot & Hsub))%is_path_writable_spec; [|done].
  rewrite leads_to_normalized in Hn by done. injection Hn as <-.
  destruct sandbox as [| |roots network no_tmpdir no_tmp git]; [by apply elem_of_nil in Hr..|].
  cbn [get_writable_roots_with_cwd] in Hr. apply list_elem_of_fmap in Hr as (dir & -> & Hdir).
  cbn [root root_with_subpaths] in Hroot. apply root_names in Hroot as [Hu Hd]. exists dir.
  split; [|split; [done|]].
  - exists roots, network, no_tmpdir, no_tmp, git. split; [done|].
    rewrite !elem_of_app in Hdir. destruct Hdir as [H|[H|[H|H]]]; [by left|right; left|..].
    + by apply list_elem_of_singleton in H.
    + right. right. left. destruct (cfg_unix (os m)) eqn:Eu, no_tmp, (is_dir m (lit "/tmp")) eqn:Et;
        cbn in H; try by apply elem_of_nil in H.
      apply list_elem_of_singleton in H as ->. split; [done|]. split; [by intros Ho; rewrite Ho in Eu|done].
    + right. right. right. destruct no_tmpdir; [by apply elem_of_nil in H|]. cbn in H.
      destruct (tmpdir m) as [d|]; [|by apply elem_of_nil in H].
      destruct (str_eqb d []); [by apply elem_of_nil in H|]. by apply list_elem_of_singleton in H as ->.
  - intros (? & ? & ? & ? & [= -> -> -> -> ->] & Hg) Ha [more Hm].
    cbn [root_with_subpaths read_only_subpaths] in Hsub. rewrite Hg in Hsub. cbn [negb andb] in Hsub.
    apply Forall_cons, proj1 in Hsub. apply not_true_iff_false in Hsub. apply Hsub, start_with_spec.
    rewrite git_names, Hd by done. exists (Normal <$> more). rewrite Hm.
    rewrite (walk_names _ [] (walk [] (split_on SLASH dir) ++ [lit ".git"])).
    + cbn [app]. by rewrite !fmap_app.
    + pose proof (git_names dir Ha) as Hgn. rewrite Hd in Hgn by done.
      rewrite absolute_parts in Hgn by (by apply (join_absolute dir (lit ".git"))).
      injection Hgn as Hgn. change 47%N with SLASH. rewrite Hgn. by rewrite fmap_app.
Qed.

Section properties.
Context {S L : Type} `{HR : RenameLaws S L}.
Implicit Types (s : S) (v w : view L) (l : L).
Local Abbreviation entry := (str * apply_patch_file_change)%type.

Lemma print_summary_never_fails (a : affected_paths) s :
  buffers_never_fail S -> is_ok (print_summary a s).1 = true.
Proof.
  intros [Ho _]. unfold print_summary. generalize (summary a). intros ls. revert s.
  induction ls as [|x ls IH]; intros s; [done|]. cbn [print_lines].
  unfold mbind, io_bind. specialize (Ho x s). destruct (writeln_out x s) as [r s1].
  simpl in Ho. subst r. apply IH.
Qed.

Lemma report_run (es : list entry) s r s' :
  apply_changes_from_apply_patch_and_report es s = (r, s') ->
  exists r0 s1, apply_changes_from_apply_patch es s = (r0, s1) /\ file_at s' ≡ file_at s1.
Proof.
  unfold apply_changes_from_apply_patch_and_report.
  destruct (apply_changes_from_apply_patch es s) as [[a|e] s1]; intros H; do 2 eexists;
    (split; [done|]); [by eapply print_lines_frame|by eapply err_frame].
Qed.

(** A patch is applied without asking exactly when it is not empty, the
    sandbox is not read-only, the policy is not [UnlessTrusted], the platform can
    confine it (or full access was given), and every path it names, destinations
    of moves included, is writable; under [OnFailure] the paths are not looked at. *)
Theorem patch_auto_approve_iff m action policy sandbox cwd t u :
  assess_patch_safety m action policy sandbox cwd = AutoApprove t u <->
  changes action <> ∅ /\ sandbox <> ReadOnly /\ policy <> UnlessTrusted /\ u = false /\
  (policy = OnFailure \/ sandbox = DangerFullAccess \/
   Forall (fun p => is_path_writable (get_writable_roots_with_cwd m sandbox cwd) cwd p = true)
     (touched_by (entries action))) /\
  (get_platform_sandbox (os m) = Some t \/
   get_platform_sandbox (os m) = None /\ sandbox = DangerFullAccess /\ t = SandboxNone).
Proof.
  unfold assess_patch_safety, is_empty_action. pose proof (constrained_spec m action sandbox cwd) as Hc.
  case_bool_decide as H1; [split; [done|tauto]|].
  case_bool_decide as H2; [split; [by destruct policy; repeat case_match|tauto]|].
  case_bool_decide as H3; [split; [done|tauto]|].
  destruct (is_write_patch_constrained_to_writable_paths _ _ _ _) eqn:E; cbn [orb].
  - destruct (get_platform_sandbox (os m)) as [t0|]; [|case_bool_decide as H4]; intuition congruence.
  - case_bool_decide as H4.
    + destruct (get_platform_sandbox (os m)) as [t0|]; [|case_bool_decide as H5]; intuition congruence.
    + case_bool_decide as H5; split; try done; intuition congruence.
Qed.

(** C24: a patch that no user approved stays inside the project.  Under a policy other than
    [OnFailure] and a sandbox policy other than [DangerFullAccess], let the paths that the patch
    names be different files and the files it moves exist.  Then every file whose text changes,
    whatever the outcome and the order of the changes, is the file of a path that the patch
    names, and this path, read part by part in the absolute directory [cwd], leads into a
    directory that [WorkspaceWrite] leaves writable, and not into its [.git] when that is
    protected.  (Symbolic links are not followed.) *)
Theorem unattended_patch_stays_inside m policy sandbox cwd decision action (es : list entry)
    s res s' l :
  starts_with (lit "/") cwd = true -> decision ∈ [Denied; Abort] -> policy <> OnFailure ->
  sandbox <> DangerFullAccess -> es ≡ₚ entries action ->
  NoDup (loc <$> touched_by es) -> moves_exist loc es (file_at s) ->
  core_apply_patch m policy sandbox cwd decision action es s = (res, s') ->
  file_at s' l <> file_at s l ->
  exists p dir, p ∈ touched_by es /\ l = loc p /\
    writable_dir m sandbox cwd dir /\ under dir (leads_to cwd p) /\
    (git_protected m sandbox dir -> starts_with (lit "/") dir = true ->
     ~ under (path_join dir (lit ".git")) (leads_to cwd p)).
Proof.
  intros Hcwd Hd Hof Hda Hp Hnd Hmv Hrun Hl. unfold core_apply_patch in Hrun.
  destruct (assess_patch_safety _ _ _ _ _) as [t u| |reason] eqn:Ha.
  - apply patch_writable_paths in Ha; [|done..]. rewrite <- (touched_by_perm _ _ Hp) in Ha.
    destruct (apply_changes_from_apply_patch_and_report es s) as [r s1] eqn:E. simplify_eq.
    apply report_run in E as (r0 & s2 & E & Hs). apply apply_changes_run in E as [Hk _]; [|done..].
    destruct (decide (l ∈ loc <$> touched_by es)) as [(p & -> & Hin)%list_elem_of_fmap|Hn].
    + rewrite Forall_forall in Ha. destruct (writable_leads _ _ _ _ Hcwd (Ha _ Hin))
        as (dir & ? & ? & ?). by exists p, dir.
    + exfalso. apply Hl. by rewrite (Hs l), (Hk l Hn).
  - destruct decision; simplify_eq; rewrite !elem_of_cons, elem_of_nil in Hd;
      destruct Hd as [?|[?|[]]]; done.
  - by simplify_eq.
Qed.
(** The agent applies what the dry run announced, and that is what applying
    the hunks of the patch gives: for every order in which the map of changes is
    iterated, moves included, when the paths that the patch names are different
    files, a successful application leaves the files as the hunks, applied one
    after the other in the effective directory, leave them. *)
Theorem agent_applies_hunks {language_error} (set_language : result language_error unit)
    query_matches unified_diff command cwd s action s1 args (es : list entry) a s2 :
  maybe_parse_apply_patch_verified set_language query_matches unified_diff command cwd s
    = (VerifiedBody action, s1) ->
  maybe_parse_apply_patch set_language query_matches command = Body args ->
  es ≡ₚ entries action -> NoDup (loc <$> touched_by es) ->
  apply_changes_from_apply_patch es s1 = (Ok a, s2) ->
  exists w, hunks_effect loc (file_at s1) (resolve_hunk (action_cwd action) <$> hunks args)
      = Some w /\ file_at s2 ≡ w.
Proof.
  intros Hv Hargs Hp Hnd Hrun.
  destruct (verified_entries _ _ _ _ _ _ _ _ _ Hv Hargs) as (es' & Hp' & Hes').
  assert (Hpp : es ≡ₚ es') by (by rewrite Hp, Hp').
  assert (Hnd' : NoDup (loc <$> touched_by es')) by (by rewrite <- (touched_by_perm _ _ Hpp)).
  destruct (announced_effect _ _ (file_at s1) _ _ Hes' Hnd') as (w & Hw & Hr); [done|].
  exists w. split; [exact Hw|]. apply apply_changes_run in Hrun as [_ Ho]; [|done|].
  2: { apply (moves_exist_perm _ es'); [done|]. by eapply announces_moves_exist. }
  specialize (Ho eq_refl). apply (realises_perm _ (assigned loc es')) in Ho; [|by apply assigned_perm].
  by eapply realises_unique.
Qed.

(** A patch that cannot be applied is reported as applied with success: the
    error goes to the error text and [apply_changes_from_apply_patch_and_report]
    returns [Ok], so that [success] is true whatever happened to the files. *)
Theorem failed_patch_reported_success m policy sandbox cwd decision action (es : list entry)
    s auto_approved success s' :
  buffers_never_fail S ->
  core_apply_patch m policy sandbox cwd decision action es s = (Applied auto_approved success, s') ->
  success = true.
Proof.
  intros Hb. assert (H : forall s0, is_ok (apply_changes_from_apply_patch_and_report es s0).1 = true).
  { intros s0. unfold apply_changes_from_apply_patch_and_report.
    destruct (apply_changes_from_apply_patch es s0) as [[x|e] s1].
    - by apply print_summary_never_fails.
    - destruct Hb as [_ He]. by rewrite He. }
  specialize (H s). unfold core_apply_patch.
  destruct (apply_changes_from_apply_patch_and_report es s) as [r s1]. simpl in H.
  repeat case_match; naive_solver.
Qed.
End properties.

(** Concrete runs, on the file system in memory. *)
Module AgentRuns.
Import MemFs PatchRuns InvocationRuns.

#[export] Instance mem_rename : Rename world := {
  rename p d w :=
    match files w !! path_components p with
    | Some c =>
        (Ok tt, World (<[path_components d := c]> (delete (path_components p) (files w)))
                      (out w) (err w))
    | None => (Err not_found, w)
    end;
}.

#[export, refine] Instance mem_rename_laws : RenameLaws world (list Paths.component) := {}.
Proof.
  - intros w p d w' c Hc Hne H l. simpl in *. rewrite Hc in H. injection H as <-. simpl. unfold upd.
    repeat case_decide; subst; by simplify_map_eq.
  - intros w p d e w' H. simpl in H. by case_match; simplify_eq.
Defined.

Definition linux : machine := Machine Linux (fun _ => true) None.
Definition workspace : sandbox_policy := WorkspaceWrite [] false true true false.

(** A file added through a path with dots, in the project [/w]. *)
Definition dotted : str * apply_patch_file_change := (lit "/w/a/../f", AddChange (lit "x")).
Definition add_action : apply_patch_action :=
  ApplyPatchAction {[ path_components dotted.1 := dotted ]} [] (lit "/w").

Lemma unattended_patch_stays_inside_witness :
  exists res s' p dir,
    core_apply_patch linux Never workspace (lit "/w") Denied add_action [dotted] empty_world
      = (res, s') /\
    path_components dotted.1 = path_components p /\
    writable_dir linux workspace (lit "/w") dir /\ under dir (leads_to (lit "/w") p).
Proof.
  destruct (core_apply_patch linux Never workspace (lit "/w") Denied add_action [dotted] empty_world)
    as [res s'] eqn:E.
  destruct (unattended_patch_stays_inside linux Never workspace (lit "/w") Denied add_action [dotted]
    empty_world res s' (path_components dotted.1)) as (p & dir & _ & Hp & Hw & Hu & _);
    [by vm_compute|by left|done|done| | | |exact E| |].
  - unfold entries. simpl. by rewrite map_to_list_singleton.
  - by apply (bool_decide_unpack _).
  - by intros ? ? ? ? ?%list_elem_of_singleton.
  - change (files s' !! path_components dotted.1 <> files empty_world !! path_components dotted.1).
    apply (f_equal snd) in E. cbn [snd] in E. rewrite <- E. by vm_compute.
  - exists res, s', p, dir. split; [reflexivity|]. split; [exact Hp|]. split; [exact Hw|exact Hu].
Defined.

Definition verified := run.

Lemma agent_applies_hunks_witness :
  exists action s1 args s2 w, verified = (VerifiedBody action, s1) /\
    (apply_changes_from_apply_patch (entries action) s1).2 = s2 /\
    hunks_effect loc (file_at s1) (resolve_hunk (action_cwd action) <$> hunks args) = Some w /\
    file_at s2 ≡ w.
Proof.
  do 2 eexists. assert (H : run = (VerifiedBody _, _)) by (vm_compute; reflexivity).
  eexists. assert (Hargs : maybe_parse_apply_patch no_grammar no_matches argv = Body _)
    by (vm_compute; reflexivity).
  eexists. match type of H with _ = (VerifiedBody ?a, ?s) =>
    assert (Hrun : apply_changes_from_apply_patch (entries a) s = (Ok _, _))
      by (vm_compute; reflexivity) end.
  destruct (agent_applies_hunks no_grammar no_matches no_diff argv (lit "d") w0 _ _ _ _ _ _
              H Hargs (Permutation_refl _)
              ltac:(apply (bool_decide_unpack _); vm_compute; exact I) Hrun) as (w & Hw & Hs).
  exists w. split; [exact H|]. split; [by rewrite Hrun|]. split; [exact Hw|exact Hs].
Defined.

Lemma failed_patch_reported_success_witness :
  (apply_changes_from_apply_patch [(lit "gone", DeleteChange [])] empty_world).1
    = Err (Contextual (lit "Failed to delete file gone") not_found) /\
  exists s', core_apply_patch linux OnFailure workspace (lit "/w") Denied
      (ApplyPatchAction {[ path_components (lit "gone") := (lit "gone", DeleteChange []) ]} [] [])
      [(lit "gone", DeleteChange [])] empty_world = (Applied true true, s').
Proof.
  split; [by vm_compute|].
  destruct (core_apply_patch linux OnFailure workspace (lit "/w") Denied
      (ApplyPatchAction {[ path_components (lit "gone") := (lit "gone", DeleteChange []) ]} [] [])
      [(lit "gone", DeleteChange [])] empty_world) as [[auto ok|msg] s'] eqn:E; [|by vm_compute in E].
  pose proof (failed_patch_reported_success linux OnFailure workspace (lit "/w") Denied _ _
    empty_world auto ok s' (conj (fun _ _ => eq_refl) (fun _ _ => eq_refl)) E) as ->.
  exists s'. vm_compute in E. by injection E as <- <-.
Defined.

(** [Never] asks all the same where no sandbox is available. *)
Lemma never_policy_asks :
  assess_patch_safety (Machine OtherUnix (fun _ => true) None) add_action Never workspace (lit "/w")
  = AskUser.
Proof. by vm_compute. Qed.
End AgentRuns.
