(* ===== verification/ExecEnv.v ===== *)
(** * The environment of a command

    [core/src/exec_env.rs] and the policy of [core/src/config_types.rs]: which environment
    variables a command that the model runs gets, and with what values.  A [HashMap] is a
    [gmap]; the glob patterns of the wildmatch library are a parameter, and so is the
    platform. *)

From stdpp Require Import base list gmap fin_maps.
From S2P Require Import Prelude.

Notation env := (gmap str str).

(** ** The policy *)

Inductive shell_environment_policy_inherit := InheritCore | InheritAll | InheritNone.

Section environment.
(** [EnvironmentVariablePattern]: [new_case_insensitive] and [matches]. *)
Context {pattern : Type} (new_case_insensitive : str -> pattern).
Context (pattern_matches : pattern -> str -> bool).
Context (unix : bool).

Record shell_environment_policy_toml := ShellEnvironmentPolicyToml {
  toml_inherit : option shell_environment_policy_inherit;
  toml_ignore_default_excludes : option bool;
  toml_exclude : option (list str);
  toml_set : option env;
  toml_include_only : option (list str);
  toml_experimental_use_profile : option bool
}.

Record shell_environment_policy := ShellEnvironmentPolicy {
  inherit : shell_environment_policy_inherit;
  ignore_default_excludes : bool;
  exclude : list pattern;
  set_vars : env;
  include_only : list pattern;
  use_profile : bool
}.

Definition default_policy : shell_environment_policy :=
  ShellEnvironmentPolicy InheritAll true [] ∅ [] false.

Definition policy_of_toml (toml : shell_environment_policy_toml) : shell_environment_policy :=
  ShellEnvironmentPolicy
    (default InheritAll (toml_inherit toml))
    (default true (toml_ignore_default_excludes toml))
    (new_case_insensitive <$> default [] (toml_exclude toml))
    (default ∅ (toml_set toml))
    (new_case_insensitive <$> default [] (toml_include_only toml))
    (default false (toml_experimental_use_profile toml)).

(** ** Building the environment *)

Definition CODEX_SESSION_ID_ENV_VAR : str := lit "CODEX_SESSION_ID".

Definition NON_INHERITABLE_ENV_VARS : list str :=
  [lit "OPENAI_FEDERATION_RULE_ID"; lit "OPENAI_IDENTITY_TOKEN_FILE"].

Definition is_non_inheritable_env_var (name : str) : bool :=
  existsb (fun restricted => eq_ignore_ascii_case restricted name) NON_INHERITABLE_ENV_VARS.

Definition CORE_VARS : list str :=
  lit <$> ["HOME"; "LOGNAME"; "PATH"; "PATHEXT"; "SHELL"; "USER"; "USERNAME"; "TMPDIR"; "TEMP";
           "TMP"]%string.

(** [collect()]: of several values of a variable the last one stays. *)
Definition collect_vars (vars : list (str * str)) : env :=
  fold_left (fun m kv => <[kv.1 := kv.2]> m) vars ∅.

(** [retain(|k, _| p(k))] *)
Definition retain (p : str -> bool) (m : env) : env := filter (fun kv => p kv.1 = true) m.

(** [entry(k).or_insert_with(|| v)] *)
Definition or_insert (m : env) (kv : str * str) : env :=
  match m !! kv.1 with Some _ => m | None => <[kv.1 := kv.2]> m end.

Definition is_empty {A} (l : list A) : bool := match l with [] => true | _ => false end.

Definition matches_any (name : str) (patterns : list pattern) : bool :=
  existsb (fun pattern => pattern_matches pattern name) patterns.

Definition DEFAULT_EXCLUDES : list pattern :=
  new_case_insensitive <$> (lit <$> ["*KEY*"; "*SECRET*"; "*TOKEN*"]%string).

(** The variables that are set when nothing else does. *)
Definition PAGER_DEFAULTS : list (str * str) :=
  [(lit "PAGER", lit "cat"); (lit "GIT_PAGER", lit "cat"); (lit "GH_PAGER", lit "cat")].

Definition NON_INTERACTIVE_DEFAULTS : list (str * str) :=
  [(lit "GIT_TERMINAL_PROMPT", lit "0"); (lit "CI", lit "1");
   (lit "DEBIAN_FRONTEND", lit "noninteractive"); (lit "LANG", lit "C.UTF-8");
   (lit "LC_ALL", lit "C.UTF-8")].

Definition ASKPASS : str * str := (lit "GIT_ASKPASS", lit "true").

Definition populate_env (vars : list (str * str)) (policy : shell_environment_policy) : env :=
  let env_map :=
    match inherit policy with
    | InheritAll => collect_vars vars
    | InheritNone => ∅
    | InheritCore => collect_vars (filter (fun kv => str_mem kv.1 CORE_VARS = true) vars)
    end in
  let env_map :=
    if negb (ignore_default_excludes policy)
    then retain (fun k => negb (matches_any k DEFAULT_EXCLUDES)) env_map else env_map in
  let env_map :=
    if negb (is_empty (exclude policy))
    then retain (fun k => negb (matches_any k (exclude policy))) env_map else env_map in
  let env_map := set_vars policy ∪ env_map in
  let env_map := fold_left or_insert PAGER_DEFAULTS env_map in
  let env_map := fold_left or_insert NON_INTERACTIVE_DEFAULTS env_map in
  let env_map := if unix then or_insert env_map ASKPASS else env_map in
  let env_map :=
    if negb (is_empty (include_only policy))
    then retain (fun k => matches_any k (include_only policy)) env_map else env_map in
  retain (fun name => negb (is_non_inheritable_env_var name)) env_map.

Definition inject_session_id_env (m : env) (session_id : str) : env :=
  <[CODEX_SESSION_ID_ENV_VAR := session_id]> m.

(** ** Specification *)

(** The value that the parent process has for a variable. *)
Definition parent_value (vars : list (str * str)) (name : str) : option str :=
  snd <$> last (filter (fun kv => kv.1 = name) vars).

(** Whether the policy lets a variable be inherited. *)
Definition inherited (policy : shell_environment_policy) (name : str) : bool :=
  negb (matches_any name (exclude policy)) &&
  (ignore_default_excludes policy || negb (matches_any name DEFAULT_EXCLUDES)) &&
  match inherit policy with
  | InheritAll => true
  | InheritCore => str_mem name CORE_VARS
  | InheritNone => false
  end.

(** The value used when the policy does not set a variable and it is not inherited. *)
Definition fallback (name : str) : option str :=
  snd <$> List.find (fun kv => str_eqb kv.1 name)
    (PAGER_DEFAULTS ++ NON_INTERACTIVE_DEFAULTS ++ if unix then [ASKPASS] else []).

(** Whether a variable may be in the environment at all. *)
Definition admitted (policy : shell_environment_policy) (name : str) : bool :=
  negb (is_non_inheritable_env_var name) &&
  (is_empty (include_only policy) || matches_any name (include_only policy)).

(** The first of these that there is: the value that the policy sets, the inherited value,
    the fallback. *)
Definition env_value (vars : list (str * str)) (policy : shell_environment_policy) (name : str)
    : option str :=
  if admitted policy name then
    union (set_vars policy !! name)
      (union (if inherited policy name then parent_value vars name else None) (fallback name))
  else None.

(** ** Lemmas *)

Lemma lookup_retain (p : str -> bool) (m : env) (k : str) : retain p m !! k = if p k then m !! k else None.
Proof.
  unfold retain. rewrite map_lookup_filter. destruct (m !! k) as [v|]; cbn; [|by destruct (p k)].
  destruct (p k) eqn:E; case_guard; cbn; congruence.
Qed.

Lemma lookup_collect (vars : list (str * str)) (k : str) : collect_vars vars !! k = parent_value vars k.
Proof.
  unfold parent_value, collect_vars. induction vars as [|[k' v] vars IH] using rev_ind; [done|].
  rewrite fold_left_app, filter_app. cbn [fold_left fst snd].
  destruct (decide (k' = k)) as [->|Hne].
  - rewrite lookup_insert_eq, filter_cons, decide_True by done.
    by rewrite filter_nil, last_snoc.
  - rewrite lookup_insert_ne by done. rewrite IH, filter_cons, decide_False by done.
    by rewrite filter_nil, app_nil_r.
Qed.

Lemma parent_value_filter (p : str -> bool) (vars : list (str * str)) (k : str) :
  parent_value (filter (fun kv => p kv.1 = true) vars) k =
  if p k then parent_value vars k else None.
Proof.
  unfold parent_value. rewrite list_filter_filter. destruct (p k) eqn:E.
  - f_equal. f_equal. apply list_filter_iff. intros [k' v]. cbn. naive_solver.
  - induction vars as [|[k' v] vars IH]; [done|]. rewrite filter_cons.
    destruct (decide _) as [Hk|]; [|done]. cbn in Hk. destruct Hk as [-> ?]. congruence.
Qed.

Lemma lookup_or_insert (m : env) (kv : str * str) (k : str) :
  or_insert m kv !! k = union (m !! k) (if str_eqb kv.1 k then Some kv.2 else None).
Proof.
  unfold or_insert. destruct kv as [k' v]. cbn [fst snd].
  destruct (str_eqb k' k) eqn:E.
  - apply str_eqb_eq in E as ->. destruct (m !! k) eqn:Em; [by rewrite Em|].
    by rewrite lookup_insert_eq.
  - apply str_eqb_neq in E. destruct (m !! k'); [|rewrite lookup_insert_ne by done];
      by destruct (m !! k).
Qed.

Lemma lookup_defaults (l : list (str * str)) (m : env) (k : str) :
  fold_left or_insert l m !! k = union (m !! k) (snd <$> List.find (fun kv => str_eqb kv.1 k) l).
Proof.
  revert m. induction l as [|kv l IH]; intros m; cbn [fold_left List.find].
  - by destruct (m !! k).
  - rewrite IH, lookup_or_insert. by destruct (str_eqb kv.1 k), (m !! k), (List.find _ l).
Qed.

Lemma lookup_include (ps : list pattern) (m : env) (k : str) :
  (if negb (is_empty ps) then retain (fun k => matches_any k ps) m else m) !! k =
  if is_empty ps || matches_any k ps then m !! k else None.
Proof. destruct ps; [done | apply lookup_retain]. Qed.

Lemma lookup_exclude (ps : list pattern) (m : env) (k : str) :
  (if negb (is_empty ps) then retain (fun k => negb (matches_any k ps)) m else m) !! k =
  if negb (matches_any k ps) then m !! k else None.
Proof. destruct ps; [done | apply lookup_retain]. Qed.

Lemma lookup_default_excludes (b : bool) (m : env) (k : str) :
  (if negb b then retain (fun k => negb (matches_any k DEFAULT_EXCLUDES)) m else m) !! k =
  if b || negb (matches_any k DEFAULT_EXCLUDES) then m !! k else None.
Proof. destruct b; [done | apply lookup_retain]. Qed.

(** The three steps that fill in variables are one list of fallbacks. *)
Lemma lookup_fallbacks (m : env) (k : str) :
  (if unix then or_insert (fold_left or_insert NON_INTERACTIVE_DEFAULTS
                             (fold_left or_insert PAGER_DEFAULTS m)) ASKPASS
   else fold_left or_insert NON_INTERACTIVE_DEFAULTS (fold_left or_insert PAGER_DEFAULTS m))
    !! k = union (m !! k) (fallback k).
Proof.
  unfold fallback. rewrite <- lookup_defaults, !fold_left_app. by destruct unix.
Qed.

Lemma lookup_start (vars : list (str * str)) (i : shell_environment_policy_inherit) (k : str) :
  match i with
  | InheritAll => collect_vars vars
  | InheritNone => ∅
  | InheritCore => collect_vars (filter (fun kv => str_mem kv.1 CORE_VARS = true) vars)
  end !! k =
  if match i with
     | InheritAll => true | InheritCore => str_mem k CORE_VARS | InheritNone => false
     end
  then parent_value vars k else None.
Proof.
  destruct i; rewrite ?lookup_collect; [|done..].
  apply (parent_value_filter (fun k => str_mem k CORE_VARS)).
Qed.

Lemma if_if {A} (a b : bool) (x : option A) :
  (if a then if b then x else None else None) = if a && b then x else None.
Proof. by destruct a. Qed.

Lemma union_assoc {A} (x y z : option A) : union (union x y) z = union x (union y z).
Proof. by destruct x, y, z. Qed.

(** The environment of a command.  A variable has the value that the policy sets; else,
    when the policy lets it be inherited, the last value that the parent process gives it;
    else its fallback; and it is absent when there is none of these, when the policy names the
    variables to include and this is not among them, or when it is restricted: no policy, not
    even one that sets it, passes a restricted variable to a command. *)
Theorem populate_env_value (vars : list (str * str)) (policy : shell_environment_policy)
    (name : str) : populate_env vars policy !! name = env_value vars policy name.
Proof.
  unfold populate_env, env_value, admitted, inherited. cbv zeta.
  rewrite lookup_retain, lookup_include, lookup_fallbacks, lookup_union, lookup_exclude,
    lookup_default_excludes, lookup_start.
  rewrite !if_if, union_assoc. done.
Qed.
End environment.

(** A command whose policy inherits nothing still gets the fallbacks, and the [set] of a
    policy does not bring back a restricted variable. *)
Example nothing_inherited :
  populate_env id (fun p n => str_eqb p n) false [(lit "HOME", lit "/h")]
    (ShellEnvironmentPolicy InheritNone false [] {[ lit "OPENAI_IDENTITY_TOKEN_FILE" := [] ]}
       [lit "CI"; lit "OPENAI_IDENTITY_TOKEN_FILE"] false)
  = {[ lit "CI" := lit "1" ]}.
Proof. vm_compute. reflexivity. Qed.
