(* ===== verification/PendingAnswers.v ===== *)
(** * Requests that wait for an answer

    [core/src/codex/session.rs] keeps a table for each kind of question that the agent
    asks: approvals, questions to the user, calls of dynamic tools.  The asking side waits
    on the receiver of a [oneshot] channel, the table holds the sender under an identifier;
    [notify_*] takes the sender out and sends, and a sender that is dropped without sending
    wakes its receiver with an error.  Channels are numbered in the order of their
    creation. *)

From stdpp Require Import base list gmap fin_maps.
From S2P Require Import Prelude.
Open Scope record_scope.

Section pending.
Context {value : Type}.

Inductive channel :=
| Waiting
| Answered (v : value)
| Dropped.

Record table := Table {
  pending : gmap str nat;
  channels : list channel
}.

Definition empty_table : table := Table ∅ [].

(** Dropping or using a sender. *)
Definition set_channel (c : nat) (s : channel) (t : table) : table :=
  Table (pending t) (<[ c := s ]> (channels t)).

(** [HashMap::insert]: the sender that was under the key is dropped. *)
Definition insert_sender (key : str) (t : table) : nat * table :=
  let c := length (channels t) in
  let t := match pending t !! key with Some old => set_channel old Dropped t | None => t end in
  (c, Table (<[ key := c ]> (pending t)) (channels t ++ [Waiting])).

(** What [request_command_approval] and [request_patch_approval] do to the table, once
    they have sent their event. *)
Definition request_approval (call_id : str) (approval_id : option str) (t : table)
    : nat * table := insert_sender (default call_id approval_id) t.

(** [register_pending_user_input] and [register_pending_dynamic_tool], which refuse an
    identifier that is in use; [what] starts the error. *)
Definition register_pending (what key : str) (t : table) : result str nat * table :=
  match pending t !! key with
  | Some _ => (Err (what ++ key), t)
  | None => let '(c, t) := insert_sender key t in (Ok c, t)
  end.

(** [notify_approval], [notify_user_input_response], [notify_dynamic_tool_response]. *)
Definition notify (key : str) (v : value) (t : table) : table :=
  match pending t !! key with
  | Some c => set_channel c (Answered v) (Table (delete key (pending t)) (channels t))
  | None => t
  end.

(** [clear()] in [abort]: every sender in the table is dropped. *)
Definition clear (t : table) : table :=
  Table ∅ (imap (fun c s => if bool_decide (map_Exists (fun _ c' => c' = c) (pending t))
                            then Dropped else s) (channels t)).

(** ** Runs *)

Inductive table_op :=
| RequestApproval (call_id : str) (approval_id : option str)
| RegisterPending (what key : str)
| Notify (key : str) (v : value)
| Clear.

Definition run_table_op (o : table_op) (t : table) : table :=
  match o with
  | RequestApproval call_id approval_id => (request_approval call_id approval_id t).2
  | RegisterPending what key => (register_pending what key t).2
  | Notify key v => notify key v t
  | Clear => clear t
  end.

Definition run_table (l : list table_op) (t : table) : table :=
  fold_left (fun t o => run_table_op o t) l t.

(** ** Specification *)

(** What a receiver registered under [key] gets: the first answer to its identifier,
    unless everything is cleared or another approval takes the identifier before. *)
Fixpoint fate (key : str) (later : list table_op) : channel :=
  match later with
  | [] => Waiting
  | RequestApproval call_id approval_id :: later =>
      if str_eqb key (default call_id approval_id) then Dropped else fate key later
  | RegisterPending _ _ :: later => fate key later
  | Notify key' v :: later => if str_eqb key key' then Answered v else fate key later
  | Clear :: _ => Dropped
  end.

(** The table leads from its keys to distinct waiting channels. *)
Definition wf_table (t : table) : Prop :=
  (forall key c, pending t !! key = Some c -> channels t !! c = Some Waiting) /\
  (forall key key' c, pending t !! key = Some c -> pending t !! key' = Some c -> key = key').

(** ** Lemmas *)

Lemma set_channel_other c c' s t : c <> c' -> channels (set_channel c s t) !! c' = channels t !! c'.
Proof. intros H. cbn. by rewrite list_lookup_insert_ne. Qed.

Lemma insert_sender_spec key t : wf_table t ->
  let '(c, t') := insert_sender key t in
  wf_table t' /\ c = length (channels t) /\ pending t' = <[ key := c ]> (pending t) /\
  channels t' !! c = Some Waiting /\
  forall c', c' < length (channels t) ->
    channels t' !! c' = if bool_decide (pending t !! key = Some c') then Some Dropped
                        else channels t !! c'.
Proof.
  intros [Hw Hi]. unfold insert_sender.
  set (t1 := match pending t !! key with Some old => set_channel old Dropped t | None => t end).
  assert (pending t1 = pending t /\ length (channels t1) = length (channels t) /\
    forall c', c' < length (channels t) -> channels t1 !! c' =
      if bool_decide (pending t !! key = Some c') then Some Dropped else channels t !! c')
    as (Hp & Hl & Hc).
  { unfold t1. destruct (pending t !! key) as [old|]; [|done]. cbn [pending channels set_channel].
    rewrite length_insert. split_and!; [done..|]. intros c' Hc'.
    destruct (decide (old = c')) as [->|Hne].
    - by rewrite bool_decide_eq_true_2, list_lookup_insert_eq.
    - rewrite bool_decide_eq_false_2 by congruence. by rewrite list_lookup_insert_ne. }
  clearbody t1. cbn [pending channels]. rewrite Hp.
  assert (Hlast : (channels t1 ++ [Waiting]) !! length (channels t) = Some Waiting)
    by (rewrite <- Hl; by apply list_lookup_middle).
  assert (forall c', c' < length (channels t) ->
    (channels t1 ++ [Waiting]) !! c' = if bool_decide (pending t !! key = Some c')
      then Some Dropped else channels t !! c') as Hold.
  { intros c' Hc'. rewrite lookup_app_l by lia. by apply Hc. }
  assert (forall key' c, pending t !! key' = Some c -> c < length (channels t)) as Hlt.
  { intros key' c H%Hw. by apply lookup_lt_Some in H. }
  split_and!; [|done..|exact Hold]. split.
  - intros key' c. cbn. intros [[<- <-]|[Hne H]]%lookup_insert_Some; [done|].
    rewrite Hold by eauto. rewrite bool_decide_eq_false_2; [eauto|]. intros H'. by destruct (Hi _ _ _ H H').
  - intros k1 k2 c. cbn. intros [[<- <-]|[Hne H]]%lookup_insert_Some
      [[<- E]|[Hne' H']]%lookup_insert_Some; eauto; exfalso.
    + apply Hlt in H'. lia.
    + apply Hlt in H. lia.
Qed.

Lemma notify_spec key v t : wf_table t -> wf_table (notify key v t) /\
  pending (notify key v t) = delete key (pending t) /\
  forall c, channels (notify key v t) !! c =
    if bool_decide (pending t !! key = Some c) then Some (Answered v) else channels t !! c.
Proof.
  intros [Hw Hi]. unfold notify. destruct (pending t !! key) as [c|] eqn:E.
  - cbn [pending set_channel channels]. pose proof (Hw _ _ E) as Hc%lookup_lt_Some.
    split_and!; [split|done|].
    + cbn. intros key' c' [Hne H]%lookup_delete_Some. rewrite list_lookup_insert_ne; [by eauto|].
      intros ->. by destruct (Hi _ _ _ E H).
    + cbn. intros k1 k2 c' [_ H1]%lookup_delete_Some [_ H2]%lookup_delete_Some. eauto.
    + intros c'. destruct (decide (c = c')) as [->|Hne].
      * by rewrite bool_decide_eq_true_2, list_lookup_insert_eq.
      * rewrite bool_decide_eq_false_2 by congruence. by rewrite list_lookup_insert_ne.
  - split_and!; [by split|by rewrite delete_id|done].
Qed.

Lemma clear_spec t : wf_table t -> wf_table (clear t) /\ pending (clear t) = ∅ /\
  (forall key c, pending t !! key = Some c -> channels (clear t) !! c = Some Dropped) /\
  forall c s, channels t !! c = Some s -> s <> Waiting -> channels (clear t) !! c = Some s.
Proof.
  intros [Hw Hi]. unfold clear. cbn [pending channels]. split_and!; [split|done| |].
  - cbn. by intros key c H%lookup_empty_Some.
  - cbn. by intros k1 k2 c H%lookup_empty_Some.
  - intros key c H. rewrite list_lookup_imap, (Hw _ _ H). cbn.
    rewrite bool_decide_eq_true_2; [done|]. by exists key, c.
  - intros c s H Hs. rewrite list_lookup_imap, H. cbn.
    rewrite bool_decide_eq_false_2; [done|]. intros (key & c' & Hk & ->).
    rewrite (Hw _ _ Hk) in H. congruence.
Qed.

Lemma register_pending_Ok what key t c t' : register_pending what key t = (Ok c, t') ->
  pending t !! key = None /\ insert_sender key t = (c, t').
Proof.
  unfold register_pending. destruct (pending t !! key); [done|].
  destruct (insert_sender key t). by intros [= -> ->].
Qed.

Lemma run_table_op_wf o t : wf_table t -> wf_table (run_table_op o t).
Proof.
  intros Hw. destruct o as [call_id approval_id|what key|key v|]; cbn [run_table_op].
  - unfold request_approval. pose proof (insert_sender_spec (default call_id approval_id) t Hw) as H.
    destruct (insert_sender _ t). by destruct H.
  - unfold register_pending. destruct (pending t !! key); [done|].
    pose proof (insert_sender_spec key t Hw) as H. destruct (insert_sender key t). by destruct H.
  - by apply notify_spec.
  - by apply clear_spec.
Qed.

Lemma run_table_wf l t : wf_table t -> wf_table (run_table l t).
Proof.
  revert t. induction l as [|o l IH]; intros t Hw; [done|]. by apply IH, run_table_op_wf.
Qed.

Lemma empty_table_wf : wf_table empty_table.
Proof. split; cbn; [by intros key c H%lookup_empty_Some|by intros k1 k2 c H%lookup_empty_Some]. Qed.

(** An answered or dropped channel never changes. *)
Lemma settled_stays o t c s : wf_table t -> channels t !! c = Some s -> s <> Waiting ->
  channels (run_table_op o t) !! c = Some s.
Proof.
  intros Hw Hc Hs. pose proof (lookup_lt_Some _ _ _ Hc) as Hlt.
  assert (forall key, pending t !! key <> Some c) as Hnot
    by (intros key Hk; rewrite (proj1 Hw _ _ Hk) in Hc; congruence).
  destruct o as [call_id approval_id|what key|key v|]; cbn [run_table_op].
  - unfold request_approval. pose proof (insert_sender_spec (default call_id approval_id) t Hw) as H.
    destruct (insert_sender _ t). destruct H as (_ & _ & _ & _ & H). cbn.
    rewrite H by done. by rewrite bool_decide_eq_false_2.
  - unfold register_pending. destruct (pending t !! key); [done|].
    pose proof (insert_sender_spec key t Hw) as H. destruct (insert_sender key t).
    destruct H as (_ & _ & _ & _ & H). cbn. rewrite H by done. by rewrite bool_decide_eq_false_2.
  - destruct (notify_spec key v t Hw) as (_ & _ & ->). by rewrite bool_decide_eq_false_2.
  - by apply clear_spec.
Qed.

Lemma run_settled l t c s : wf_table t -> channels t !! c = Some s -> s <> Waiting ->
  channels (run_table l t) !! c = Some s.
Proof.
  revert t. induction l as [|o l IH]; intros t Hw Hc Hs; [done|].
  apply IH; [by apply run_table_op_wf|by apply settled_stays|done].
Qed.

Lemma run_waiting later : forall t key c, wf_table t -> pending t !! key = Some c ->
  channels (run_table later t) !! c = Some (fate key later).
Proof.
  induction later as [|o later IH]; intros t key c Hw Hk; [cbn; by apply (proj1 Hw key)|].
  change (run_table (o :: later) t) with (run_table later (run_table_op o t)).
  pose proof (run_table_op_wf o t Hw) as Hw'. pose proof (proj1 Hw _ _ Hk) as Hc.
  pose proof (lookup_lt_Some _ _ _ Hc) as Hlt.
  destruct o as [call_id approval_id|what key'|key' v|]; cbn [fate run_table_op] in *.
  - unfold request_approval in *. pose proof (insert_sender_spec (default call_id approval_id) t Hw) as H.
    destruct (insert_sender _ t) as [c' t']. destruct H as (_ & _ & Hp & _ & H). cbn [snd] in *.
    destruct (str_eqb key _) eqn:E.
    + apply str_eqb_eq in E as ->. apply run_settled; [done| |done].
      rewrite H by done. by rewrite bool_decide_eq_true_2.
    + apply str_eqb_neq in E. apply IH; [done|]. rewrite Hp, lookup_insert_ne; [done|].
      intros Hk'. by rewrite Hk' in E.
  - apply IH; [done|]. unfold register_pending. destruct (pending t !! key') eqn:E; [done|].
    pose proof (insert_sender_spec key' t Hw) as H. destruct (insert_sender key' t) as [c' t'].
    destruct H as (_ & _ & Hp & _). cbn [snd]. rewrite Hp, lookup_insert_ne; [done|].
    intros ->. congruence.
  - destruct (notify_spec key' v t Hw) as (_ & Hp & H). destruct (str_eqb key key') eqn:E.
    + apply str_eqb_eq in E as <-. apply run_settled; [done| |done].
      by rewrite H, bool_decide_eq_true_2.
    + apply str_eqb_neq in E. apply IH; [done|]. by rewrite Hp, lookup_delete_ne by congruence.
  - apply run_settled; [done| |done]. by apply (clear_spec t Hw) in Hk.
Qed.
End pending.
Arguments table : clear implicits.
Arguments table_op : clear implicits.
Arguments channel : clear implicits.

(** ** Properties *)

(** An answer reaches exactly the question it is meant for.  Whatever happened before,
    the receiver of a question registered under an identifier gets the first answer to that
    identifier; it learns that there will be none when everything is cleared before that
    (an abort), or, for approvals, when another question takes the identifier; and it goes
    on waiting otherwise: answers to other identifiers, and second answers, change
    nothing. *)
Theorem answers_routed {value} (before later : list (table_op value)) (o : table_op value) key c :
  let t := run_table before empty_table in
  match o with
  | RequestApproval call_id approval_id =>
      key = default call_id approval_id /\ (request_approval call_id approval_id t).1 = c
  | RegisterPending what key' => key = key' /\ (register_pending what key t).1 = Ok c
  | _ => False
  end ->
  channels (run_table (before ++ o :: later) empty_table) !! c = Some (fate key later).
Proof.
  intros t Ho. unfold run_table. rewrite fold_left_app. fold (run_table before (empty_table (value:=value))).
  fold t. cbn [fold_left]. fold (run_table later (run_table_op o t)).
  assert (wf_table t) as Hw by apply run_table_wf, empty_table_wf. clearbody t.
  apply run_waiting; [by apply run_table_op_wf|].
  destruct o as [call_id approval_id|what key'|key' v|]; try done; cbn [run_table_op].
  - destruct Ho as [-> <-]. unfold request_approval.
    pose proof (insert_sender_spec (default call_id approval_id) t Hw) as H.
    destruct (insert_sender _ t). destruct H as (_ & _ & Hp & _). cbn [snd fst].
    by rewrite Hp, lookup_insert_eq.
  - destruct Ho as [<- Hr]. destruct (register_pending what key t) as [r t'] eqn:E. cbn in Hr. subst r.
    apply register_pending_Ok in E as [_ E]. pose proof (insert_sender_spec key t Hw) as H.
    rewrite E in H. destruct H as (_ & _ & Hp & _). cbn [snd]. by rewrite Hp, lookup_insert_eq.
Qed.

(** ** Concrete runs *)

Module AnswerRuns.
Lemma answers_routed_witness :
  (request_approval (lit "c1") None (run_table (value:=bool) [] empty_table)).1 = 0 /\
  channels (run_table ([] ++ RequestApproval (lit "c1") None ::
    [RequestApproval (lit "c2") (Some (lit "a2")); Notify (lit "a2") false; Notify (lit "c1") true])
    empty_table) !! 0 = Some (Answered true).
Proof.
  split; [by vm_compute|].
  apply (answers_routed [] [RequestApproval (lit "c2") (Some (lit "a2")); Notify (lit "a2") false;
    Notify (lit "c1") true] (RequestApproval (lit "c1") None) (lit "c1") 0).
  by vm_compute.
Defined.

(** An approval is announced to the interface before its sender is in the table: an answer
    that comes in between is lost, and the question waits for ever. *)
Lemma early_answer_lost :
  channels (run_table [Notify (lit "c1") true; RequestApproval (lit "c1") None] empty_table)
  = [Waiting].
Proof. by vm_compute. Qed.
End AnswerRuns.
