(* ===== verification/History.v ===== *)
(** * The transcript of a conversation

    [ResponseItem] and [ContentItem] of [protocol/src/models.rs], the
    [ConversationHistory] of [core/src/conversation_history.rs], and the tests on the
    text of an item that history cleaning shares ([core/src/retention.rs],
    [core/src/codex/session.rs]).

    The fields of an item that none of this code reads are one value of an arbitrary
    type ([opaque]); cleaning moves them around without looking at them.  The JSON
    encoder of structured tool output is a parameter. *)

From stdpp Require Import base list.
From S2P Require Import Prelude.

(** ** Items *)

Inductive content_item :=
| InputText (text : str)
| InputImage (image_url : str)
| OutputText (text : str).

Inductive image_detail := Auto | Low | High | Original.

Inductive function_call_output_content_item :=
| OutInputText (text : str)
| OutInputImage (image_url : str) (detail : option image_detail).

Inductive function_call_output_body :=
| Text (content : str)
| ContentItems (items : list function_call_output_content_item).

Record function_call_output_payload := FunctionCallOutputPayload {
  body : function_call_output_body;
  success : option bool
}.

Section items.
Context {opaque : Type}.

Inductive response_item :=
| AdditionalTools (rest : opaque)
| Message (role : str) (content : list content_item) (rest : opaque)
| Reasoning (content : option (list opaque)) (rest : opaque)
| LocalShellCall (id call_id : option str) (rest : opaque)
| FunctionCall (arguments call_id : str) (rest : opaque)
| ToolSearchCall (call_id : option str) (rest : opaque)
| FunctionCallOutput (call_id : str) (output : function_call_output_payload)
| CustomToolCall (call_id input : str) (rest : opaque)
| CustomToolCallOutput (call_id : str) (output : function_call_output_payload) (rest : opaque)
| ToolSearchOutput (call_id : option str) (rest : opaque)
| WebSearchCall (rest : opaque)
| ImageGenerationCall (image_result : str) (rest : opaque)
| GhostSnapshot (rest : opaque)
| CompactionSummary (rest : opaque)
| ContextCompaction (rest : opaque)
| OtherItem.

(** ** [ConversationHistory] *)

Definition is_api_message (message : response_item) : bool :=
  match message with
  | AdditionalTools _ => false
  | Message role _ _ => negb (str_eqb role (lit "system"))
  | FunctionCallOutput _ _ | FunctionCall _ _ _ | ToolSearchCall _ _ | ToolSearchOutput _ _
  | CustomToolCall _ _ _ | CustomToolCallOutput _ _ _ | LocalShellCall _ _ _
  | CompactionSummary _ | ContextCompaction _ | GhostSnapshot _ | Reasoning _ _
  | WebSearchCall _ | ImageGenerationCall _ _ => true
  | OtherItem => false
  end.

Record conversation_history := ConversationHistory { items : list response_item }.

Definition new_history : conversation_history := ConversationHistory [].

Definition contents (h : conversation_history) : list response_item := items h.

Definition take_contents (h : conversation_history)
    : list response_item * conversation_history := (items h, ConversationHistory []).

(** The loop of [record_items] and [replace_filtered]: items are pushed in order. *)
Definition push_api (l : list response_item) (item : response_item) : list response_item :=
  if negb (is_api_message item) then l else l ++ [item].

Definition record_items (new : list response_item) (h : conversation_history)
    : conversation_history := ConversationHistory (fold_left push_api new (items h)).

Definition replace (new : list response_item) (h : conversation_history)
    : conversation_history := ConversationHistory new.

Definition replace_filtered (new : list response_item) (h : conversation_history)
    : conversation_history := ConversationHistory (fold_left push_api new []).

End items.
Arguments response_item : clear implicits.
Arguments conversation_history : clear implicits.

(** ** Tests on the text of an item *)

Definition ENVIRONMENT_CONTEXT_OPEN_TAG : str := lit "<environment_context>".
Definition ENVIRONMENT_CONTEXT_DELTA_OPEN_TAG : str := lit "<environment_context_delta>".
Definition BROWSER_SNAPSHOT_OPEN_TAG : str := lit "<browser_snapshot>".

(** [content.iter().any(|c| if let ContentItem::InputText { text } = c { p } else { false })] *)
Definition any_input_text (p : str -> bool) (content : list content_item) : bool :=
  existsb (fun c => match c with InputText text => p text | _ => false end) content.

Definition has_image (content : list content_item) : bool :=
  existsb (fun c => match c with InputImage _ => true | _ => false end) content.

Definition mentions_env_baseline (text : str) : bool :=
  str_contains ENVIRONMENT_CONTEXT_OPEN_TAG text &&
  negb (str_contains ENVIRONMENT_CONTEXT_DELTA_OPEN_TAG text).

Definition mentions_env_delta (text : str) : bool :=
  str_contains ENVIRONMENT_CONTEXT_DELTA_OPEN_TAG text.

Definition mentions_browser_snapshot (text : str) : bool :=
  str_contains BROWSER_SNAPSHOT_OPEN_TAG text.

Definition mentions_system_status (text : str) : bool :=
  str_contains (lit "== System Status ==") text ||
  str_contains (lit "Current working directory:") text ||
  str_contains (lit "Git branch:") text.

Definition is_real_text (text : str) : bool :=
  negb (str_contains (lit "== System Status ==") text) &&
  negb (str_contains (lit "Current working directory:") text) &&
  negb (str_contains (lit "Git branch:") text) &&
  negb (str_eqb (trim text) []) &&
  negb (str_contains ENVIRONMENT_CONTEXT_OPEN_TAG text) &&
  negb (str_contains ENVIRONMENT_CONTEXT_DELTA_OPEN_TAG text) &&
  negb (str_contains BROWSER_SNAPSHOT_OPEN_TAG text).

(** ** Lemmas *)

Section lemmas.
Context {opaque : Type}.
Implicit Types (l : list (response_item opaque)) (h : conversation_history opaque).

Lemma push_api_all new l :
  fold_left push_api new l = l ++ filter (fun x => is_api_message x = true) new.
Proof.
  revert l. induction new as [|x new IH]; intros l; simpl; [by rewrite app_nil_r|].
  rewrite IH, filter_cons. unfold push_api. destruct (is_api_message x); simpl.
  - by rewrite <- app_assoc.
  - done.
Qed.

End lemmas.
