(* ===== verification/Retention.v ===== *)
(** * Keeping the transcript small

    [core/src/retention.rs]: the policy that removes old environment snapshots, deltas,
    browser snapshots, screenshots and status messages from the transcript and then
    applies a byte budget, in its two variants (on borrowed and on owned items).
    Specification: [retained] (which items the limits keep) and [within] (which of
    those the budget keeps).

    [usize] is 64 bits wide; additions written with [+] and [sum] wrap around, as in a
    release build. *)

From stdpp Require Import base list sorting.
From S2P Require Import Prelude History.
Open Scope record_scope.

(** ** Policy and statistics *)

Record retention_policy := RetentionPolicy {
  max_env_deltas : N;
  max_browser_snapshots : N;
  max_total_bytes : N;
  keep_latest_baseline : bool
}.

Definition default_policy : retention_policy := RetentionPolicy 3 2 (100 * 1024) true.

Record retention_stats := RetentionStats {
  removed_env_baselines : N;
  removed_env_deltas : N;
  removed_browser_snapshots : N;
  removed_screenshots : N;
  removed_status : N;
  kept_env_deltas : N;
  kept_browser_snapshots : N;
  kept_recent_screenshots : N;
  bytes_removed : N;
  bytes_kept : N;
  dropped_for_budget : N
}.

#[export] Instance retention_stats_fields : Fields retention_stats := fun s =>
  RetentionStats (removed_env_baselines s) (removed_env_deltas s)
    (removed_browser_snapshots s) (removed_screenshots s) (removed_status s)
    (kept_env_deltas s) (kept_browser_snapshots s) (kept_recent_screenshots s)
    (bytes_removed s) (bytes_kept s) (dropped_for_budget s).

Definition default_stats : retention_stats := RetentionStats 0 0 0 0 0 0 0 0 0 0 0.

Definition any_removed (s : retention_stats) : bool :=
  (0 <? removed_screenshots s)%N || (0 <? removed_status s)%N ||
  (0 <? removed_env_baselines s)%N || (0 <? removed_env_deltas s)%N ||
  (0 <? removed_browser_snapshots s)%N.

Definition total_delta_count (s : retention_stats) : N :=
  wrapping_add64 (kept_env_deltas s) (removed_env_deltas s).

Module ItemCategory.
Inductive item_category :=
| RealUserMessage | StatusMessage | EnvBaseline | EnvDelta | BrowserSnapshot
| Screenshot | Other.

#[export] Instance item_category_eq_dec : EqDecision item_category.
Proof. solve_decision. Defined.
End ItemCategory.
Export (hints) ItemCategory.
Notation item_category := ItemCategory.item_category.

(** [Vec::pop] *)
Definition vec_pop {A} (l : list A) : option A * list A :=
  match last l with
  | Some x => (Some x, take (length l - 1) l)
  | None => (None, l)
  end.

Definition vec_len {A} (l : list A) : N := N.of_nat (length l).

Section retention.
Context {opaque : Type}.
(** [serde_json::to_string] on structured tool output; [None] for its error. *)
Context (to_json : list function_call_output_content_item -> option str).
Notation item := (response_item opaque).

(** ** Size and category of an item *)

Definition len (s : str) : N := N.of_nat (str_len s).

(** [Iterator::sum] over [usize] *)
Definition sum_usize (l : list N) : N := fold_left wrapping_add64 l 0%N.

Definition payload_text (output : function_call_output_payload) : str :=
  match body output with
  | Text content => content
  | ContentItems its => default [] (to_json its)
  end.

Definition content_size (c : content_item) : N :=
  match c with
  | InputText text | OutputText text => len text
  | InputImage image_url => len image_url
  end.

Definition estimate_item_size (i : item) : N :=
  match i with
  | Message _ content _ => sum_usize (content_size <$> content)
  | FunctionCall arguments _ _ => len arguments
  | FunctionCallOutput _ output => len (payload_text output)
  | CustomToolCall _ input _ => len input
  | CustomToolCallOutput _ output _ => len (payload_text output)
  | Reasoning content _ => match content with Some c => vec_len c | None => 0 end
  | _ => 0
  end.

Definition categorize_item (i : item) : item_category :=
  match i with
  | Message role content _ =>
      if negb (str_eqb role (lit "user")) then ItemCategory.Other
      else if any_input_text mentions_env_baseline content then ItemCategory.EnvBaseline
      else if any_input_text mentions_env_delta content then ItemCategory.EnvDelta
      else if any_input_text mentions_browser_snapshot content
           then ItemCategory.BrowserSnapshot
      else if any_input_text mentions_system_status content then ItemCategory.StatusMessage
      else if has_image content then ItemCategory.Screenshot
      else if any_input_text is_real_text content then ItemCategory.RealUserMessage
      else ItemCategory.StatusMessage
  | _ => ItemCategory.Other
  end.

Record categorized_item := CategorizedItem {
  the_item : item;
  category : item_category;
  size_bytes : N;
  index : nat
}.

Definition new_categorized (index : nat) (i : item) : categorized_item :=
  CategorizedItem i (categorize_item i) (estimate_item_size i) index.

Definition categorized (items : list item) : list categorized_item :=
  imap new_categorized items.

(** ** The six vectors *)

Record buckets := Buckets {
  env_baselines : list categorized_item;
  env_deltas : list categorized_item;
  browser_snapshots : list categorized_item;
  screenshots : list categorized_item;
  status_messages : list categorized_item;
  other_items : list categorized_item
}.

Definition push_bucket (b : buckets) (c : categorized_item) : buckets :=
  let 'Buckets bl de sn sc st ot := b in
  match category c with
  | ItemCategory.EnvBaseline => Buckets (bl ++ [c]) de sn sc st ot
  | ItemCategory.EnvDelta => Buckets bl (de ++ [c]) sn sc st ot
  | ItemCategory.BrowserSnapshot => Buckets bl de (sn ++ [c]) sc st ot
  | ItemCategory.Screenshot => Buckets bl de sn (sc ++ [c]) st ot
  | ItemCategory.StatusMessage => Buckets bl de sn sc (st ++ [c]) ot
  | _ => Buckets bl de sn sc st (ot ++ [c])
  end.

Definition separate (l : list categorized_item) : buckets :=
  fold_left push_bucket l (Buckets [] [] [] [] [] []).

(** ** Selection by limits *)

(** [stats.bytes_kept += item.size_bytes; kept.push(..)], for both element types. *)
Definition keep_as {B} (view : categorized_item -> B) (ks : list B * retention_stats)
    (c : categorized_item) : list B * retention_stats :=
  (ks.1 ++ [view c],
   ks.2 <| bytes_kept := wrapping_add64 (bytes_kept ks.2) (size_bytes c) |>).

Definition remove_bytes (s : retention_stats) (c : categorized_item) : retention_stats :=
  s <| bytes_removed := wrapping_add64 (bytes_removed s) (size_bytes c) |>.

Definition remove_baseline (s : retention_stats) (c : categorized_item) : retention_stats :=
  remove_bytes (s <| removed_env_baselines := wrapping_add64 (removed_env_baselines s) 1 |>) c.

Definition remove_status (s : retention_stats) (c : categorized_item) : retention_stats :=
  remove_bytes (s <| removed_status := wrapping_add64 (removed_status s) 1 |>) c.

Definition remove_screenshot (s : retention_stats) (c : categorized_item)
    : retention_stats :=
  remove_bytes (s <| removed_screenshots := wrapping_add64 (removed_screenshots s) 1 |>) c.

Definition count_deltas (n : N) (s : retention_stats) : retention_stats :=
  s <| removed_env_deltas := wrapping_add64 (removed_env_deltas s) n |>.

Definition count_snapshots (n : N) (s : retention_stats) : retention_stats :=
  s <| removed_browser_snapshots := wrapping_add64 (removed_browser_snapshots s) n |>.

(** Owned: [if v.len() > max { to_drop = ..saturating_sub..; v.drain(0..to_drop) }] *)
Definition drain_oldest (max : N) (count : N -> retention_stats -> retention_stats)
    (v : list categorized_item) (s : retention_stats)
    : list categorized_item * retention_stats :=
  if (max <? vec_len v)%N then
    let to_drop := (vec_len v - max)%N in
    (drop (N.to_nat to_drop) v,
     fold_left remove_bytes (take (N.to_nat to_drop) v) (count to_drop s))
  else (v, s).

(** Borrowed: [if v.len() <= max { v } else { to_drop = v.len() - max; ..skip(to_drop) }] *)
Definition skip_oldest (max : N) (count : N -> retention_stats -> retention_stats)
    (v : list categorized_item) (s : retention_stats)
    : list categorized_item * retention_stats :=
  if (vec_len v <=? max)%N then (v, s)
  else
    let to_drop := (vec_len v - max)%N in
    (drop (N.to_nat to_drop) v,
     fold_left remove_bytes (take (N.to_nat to_drop) v) (count to_drop s)).

(** From the older baselines on in [apply_retention_policy_owned] *)
Definition remove_older_owned (policy : retention_policy) (b : buckets)
    (ks : list categorized_item * retention_stats) (older : list categorized_item)
    : list categorized_item * retention_stats :=
  let keep := keep_as (fun c => c) in
  let s := fold_left remove_baseline older ks.2 in
  let '(deltas, s) := drain_oldest (max_env_deltas policy) count_deltas (env_deltas b) s in
  let s := s <| kept_env_deltas := vec_len deltas |> in
  let ks := fold_left keep deltas (ks.1, s) in
  let '(snapshots, s) :=
    drain_oldest (max_browser_snapshots policy) count_snapshots (browser_snapshots b) ks.2 in
  let s := s <| kept_browser_snapshots := vec_len snapshots |> in
  let ks := fold_left keep snapshots (ks.1, s) in
  let s := fold_left remove_status (status_messages b) ks.2 in
  match vec_pop (screenshots b) with
  | (Some latest, older) =>
      let s := s <| kept_recent_screenshots := 1%N |> in
      let ks := keep (ks.1, s) latest in
      (ks.1, fold_left remove_screenshot older ks.2)
  | (None, _) => (ks.1, s)
  end.

(** Rules 1 to 5 of [apply_retention_policy_owned] *)
Definition select_owned (policy : retention_policy) (b : buckets)
    : list categorized_item * retention_stats :=
  let keep := keep_as (fun c => c) in
  let ks := fold_left keep (other_items b) ([], default_stats) in
  let '(ks, older) :=
    if keep_latest_baseline policy then
      match vec_pop (env_baselines b) with
      | (Some latest, older) => (keep ks latest, older)
      | (None, older) => (ks, older)
      end
    else (ks, env_baselines b) in
  remove_older_owned policy b ks older.

(** From the older baselines on in [apply_retention_policy]; [unwrap] is guarded. *)
Definition remove_older_borrowed (policy : retention_policy) (b : buckets)
    (ks : list (nat * item) * retention_stats) (older : list categorized_item)
    : list (nat * item) * retention_stats :=
  let keep := keep_as (fun c => (index c, the_item c)) in
  let s := fold_left remove_baseline older ks.2 in
  let '(deltas, s) := skip_oldest (max_env_deltas policy) count_deltas (env_deltas b) s in
  let s := s <| kept_env_deltas := vec_len deltas |> in
  let ks := fold_left keep deltas (ks.1, s) in
  let '(snapshots, s) :=
    skip_oldest (max_browser_snapshots policy) count_snapshots (browser_snapshots b) ks.2 in
  let s := s <| kept_browser_snapshots := vec_len snapshots |> in
  let ks := fold_left keep snapshots (ks.1, s) in
  let s := fold_left remove_status (status_messages b) ks.2 in
  if negb (vec_len (screenshots b) =? 0)%N then
    match vec_pop (screenshots b) with
    | (Some latest, older) =>
        let s := s <| kept_recent_screenshots := 1%N |> in
        let ks := keep (ks.1, s) latest in
        (ks.1, fold_left remove_screenshot older ks.2)
    | (None, _) => (ks.1, s)
    end
  else (ks.1, s).

(** Rules 1 to 5 of [apply_retention_policy]; the two [unwrap]s are guarded by
    [is_empty]. *)
Definition select_borrowed (policy : retention_policy) (b : buckets)
    : list (nat * item) * retention_stats :=
  let keep := keep_as (fun c => (index c, the_item c)) in
  let ks := fold_left keep (other_items b) ([], default_stats) in
  let '(ks, older) :=
    if keep_latest_baseline policy && negb (vec_len (env_baselines b) =? 0)%N then
      match vec_pop (env_baselines b) with
      | (Some latest, older) => (keep ks latest, older)
      | (None, older) => (ks, older)
      end
    else (ks, env_baselines b) in
  remove_older_borrowed policy b ks older.

(** ** The byte budget *)

Definition index_leb (a b : categorized_item) : bool := (index a <=? index b)%nat.
Definition pair_leb (a b : nat * item) : bool := (a.1 <=? b.1)%nat.

(** The variables of the owned loop: [cumulative_bytes], [final_items], [bytes_kept] and
    [stats]. *)
Definition budget_owned_step (max : N)
    (v : N * list categorized_item * N * retention_stats) (c : categorized_item)
    : N * list categorized_item * N * retention_stats :=
  let '(cumulative, final, kept_bytes, s) := v in
  if (saturating_add64 cumulative (size_bytes c) <=? max)%N then
    (saturating_add64 cumulative (size_bytes c), final ++ [c], kept_bytes, s)
  else
    let s := s <| dropped_for_budget := wrapping_add64 (dropped_for_budget s) 1 |> in
    (cumulative, final, (kept_bytes - size_bytes c)%N, remove_bytes s c).

Definition apply_retention_policy_owned (items : list item) (policy : retention_policy)
    : list item * retention_stats :=
  let '(kept, s) := select_owned policy (separate (categorized items)) in
  let kept := sort_by index_leb kept in
  if (max_total_bytes policy <? bytes_kept s)%N then
    let '(_, final, kept_bytes, s) :=
      fold_left (budget_owned_step (max_total_bytes policy)) (reverse kept)
        (0%N, [], bytes_kept s, s) in
    (the_item <$> sort_by index_leb final, s <| bytes_kept := kept_bytes |>)
  else (the_item <$> kept, s).

(** The borrowed loop estimates each size again and updates [stats.bytes_kept] itself. *)
Definition budget_step (max : N) (v : N * list (nat * item) * retention_stats)
    (p : nat * item) : N * list (nat * item) * retention_stats :=
  let '(cumulative, final, s) := v in
  let item_size := estimate_item_size p.2 in
  if (wrapping_add64 cumulative item_size <=? max)%N then
    (wrapping_add64 cumulative item_size, final ++ [p], s)
  else
    let s := s <| dropped_for_budget := wrapping_add64 (dropped_for_budget s) 1 |> in
    let s := s <| bytes_removed := wrapping_add64 (bytes_removed s) item_size |> in
    (cumulative, final, s <| bytes_kept := wrapping_sub64 (bytes_kept s) item_size |>).

Definition apply_retention_policy (items : list item) (policy : retention_policy)
    : list item * retention_stats :=
  let '(kept, s) := select_borrowed policy (separate (categorized items)) in
  let '(kept, s) :=
    if (max_total_bytes policy <? bytes_kept s)%N then
      let kept := sort_by pair_leb kept in
      let '(_, final, s) :=
        fold_left (budget_step (max_total_bytes policy)) (reverse kept) (0%N, [], s) in
      (sort_by pair_leb final, s)
    else (sort_by pair_leb kept, s) in
  (snd <$> kept, s).

End retention.
Arguments categorized_item : clear implicits.
Arguments buckets : clear implicits.

(** ** Specification

    Over any type of items with a category and a size, because the code works on
    categorized items and the statements are about plain ones. *)

(** How many of the latest items of a category are kept; [None] for all. *)
Definition limit (policy : retention_policy) (c : item_category) : option N :=
  match c with
  | ItemCategory.EnvBaseline => Some (if keep_latest_baseline policy then 1 else 0)%N
  | ItemCategory.EnvDelta => Some (max_env_deltas policy)
  | ItemCategory.BrowserSnapshot => Some (max_browser_snapshots policy)
  | ItemCategory.Screenshot => Some 1%N
  | ItemCategory.StatusMessage => Some 0%N
  | ItemCategory.RealUserMessage | ItemCategory.Other => None
  end.

Section specification.
Context {A : Type} (cat : A -> item_category) (size : A -> N).

Definition in_category (c : item_category) (l : list A) : list A :=
  filter (fun x => cat x = c) l.

Definition count (c : item_category) (l : list A) : N := vec_len (in_category c l).

Definition total (l : list A) : N := foldr (fun x n => (size x + n)%N) 0%N l.

(** An item is retained when fewer later items of its category than the limit exist. *)
Definition below (n : N) (o : option N) : bool :=
  match o with Some m => (n <? m)%N | None => true end.

Fixpoint retained (policy : retention_policy) (l : list A) : list A :=
  match l with
  | [] => []
  | x :: later =>
      if below (count (cat x) later) (limit policy (cat x))
      then x :: retained policy later else retained policy later
  end.

(** From the newest item to the oldest, an item is kept when it still fits. *)
Fixpoint within (budget : N) (l : list A) : list A :=
  match l with
  | [] => []
  | x :: later =>
      if (total (within budget later) + size x <=? budget)%N
      then x :: within budget later else within budget later
  end.

Definition survivors (policy : retention_policy) (l : list A) : list A :=
  within (max_total_bytes policy) (retained policy l).

(** The statistics, from all items, those the limits keep and those the budget keeps:
    the counts of kept items are the ones before the byte budget. *)
Definition stats_of (l r w : list A) : retention_stats :=
  RetentionStats
    (count ItemCategory.EnvBaseline l - count ItemCategory.EnvBaseline r)
    (count ItemCategory.EnvDelta l - count ItemCategory.EnvDelta r)
    (count ItemCategory.BrowserSnapshot l - count ItemCategory.BrowserSnapshot r)
    (count ItemCategory.Screenshot l - count ItemCategory.Screenshot r)
    (count ItemCategory.StatusMessage l)
    (count ItemCategory.EnvDelta r)
    (count ItemCategory.BrowserSnapshot r)
    (count ItemCategory.Screenshot r)
    (total l - total w) (total w) (vec_len r - vec_len w).

Definition expected_stats (policy : retention_policy) (l : list A) : retention_stats :=
  stats_of l (retained policy l) (survivors policy l).

(** ** Lemmas about the specification *)

Definition keep_last (n : N) (l : list A) : list A := drop (length l - N.to_nat n) l.

Lemma keep_last_cons n x l :
  keep_last n (x :: l) = if (vec_len l <? n)%N then x :: keep_last n l else keep_last n l.
Proof.
  unfold keep_last, vec_len. simpl length. destruct (N.ltb_spec (N.of_nat (length l)) n).
  - replace (S (length l) - N.to_nat n) with 0 by lia.
    by replace (length l - N.to_nat n) with 0 by lia.
  - by replace (S (length l) - N.to_nat n) with (S (length l - N.to_nat n)) by lia.
Qed.

Lemma in_category_cons c x l :
  in_category c (x :: l) =
  if decide (cat x = c) then x :: in_category c l else in_category c l.
Proof. unfold in_category. by rewrite filter_cons. Qed.

Definition is_unlimited (c : item_category) : bool :=
  match c with ItemCategory.RealUserMessage | ItemCategory.Other => true | _ => false end.

Definition unlimited (l : list A) : list A := filter (fun x => is_unlimited (cat x) = true) l.

(** The limits keep the unlimited items and the last ones of each category. *)
Lemma retained_perm policy l :
  unlimited l ++
  keep_last (if keep_latest_baseline policy then 1 else 0)
    (in_category ItemCategory.EnvBaseline l) ++
  keep_last (max_env_deltas policy) (in_category ItemCategory.EnvDelta l) ++
  keep_last (max_browser_snapshots policy) (in_category ItemCategory.BrowserSnapshot l) ++
  keep_last 1 (in_category ItemCategory.Screenshot l) ≡ₚ retained policy l.
Proof.
  induction l as [|x l IH]; [done|]. cbn [retained]. rewrite !in_category_cons.
  unfold unlimited in *. rewrite filter_cons. unfold count.
  destruct (cat x) eqn:Hx; cbn [is_unlimited];
    repeat match goal with |- context [decide ?P] => destruct (decide P); [try congruence|] end;
    try congruence; cbn [limit below]; rewrite ?keep_last_cons;
    try (match goal with |- context [(?a <? ?b)%N] => destruct (N.ltb_spec a b) end);
    try lia; try exact IH; rewrite <- IH; cbn [app]; by rewrite <- ?Permutation_middle.
Qed.

Lemma total_app l k : total (l ++ k) = (total l + total k)%N.
Proof. unfold total. induction l as [|x l IH]; simpl; [done|]. rewrite IH. lia. Qed.

Lemma total_perm l k : l ≡ₚ k -> total l = total k.
Proof. unfold total. induction 1; simpl; lia. Qed.

Lemma vec_len_app (l k : list A) : vec_len (l ++ k) = (vec_len l + vec_len k)%N.
Proof. unfold vec_len. rewrite length_app. lia. Qed.

Lemma count_cons c x l :
  count c (x :: l) = ((if decide (cat x = c) then 1 else 0) + count c l)%N.
Proof. unfold count, vec_len. rewrite in_category_cons. case_decide; simpl; lia. Qed.

(** Every item is unlimited or in one of the five categories. *)
Lemma categories_perm l :
  unlimited l ++ in_category ItemCategory.EnvBaseline l ++
  in_category ItemCategory.EnvDelta l ++ in_category ItemCategory.BrowserSnapshot l ++
  in_category ItemCategory.Screenshot l ++ in_category ItemCategory.StatusMessage l ≡ₚ l.
Proof.
  induction l as [|x l IH]; [done|]. rewrite !in_category_cons.
  unfold unlimited in *. rewrite filter_cons.
  destruct (cat x) eqn:Hx; cbn [is_unlimited];
    repeat match goal with |- context [decide ?P] => destruct (decide P); [try congruence|] end;
    try congruence; rewrite <- IH at 7; cbn [app]; by rewrite <- ?Permutation_middle.
Qed.

Lemma categories_sum l :
  (total (unlimited l) + total (in_category ItemCategory.EnvBaseline l) +
   total (in_category ItemCategory.EnvDelta l) +
   total (in_category ItemCategory.BrowserSnapshot l) +
   total (in_category ItemCategory.Screenshot l) +
   total (in_category ItemCategory.StatusMessage l))%N = total l.
Proof. rewrite <- (total_perm _ _ (categories_perm l)), !total_app. lia. Qed.

Lemma count_retained policy c l :
  count c (retained policy l) =
  match limit policy c with Some n => N.min n (count c l) | None => count c l end.
Proof.
  induction l as [|x l IH].
  { destruct (limit policy c); unfold count, vec_len; simpl; lia. }
  cbn [retained].
  rewrite count_cons. destruct (decide (cat x = c)) as [<-|Hne].
  - destruct (limit policy (cat x)) as [n|]; cbn [below].
    + destruct (N.ltb_spec (count (cat x) l) n); rewrite ?count_cons, IH;
        repeat (destruct (decide _); [|congruence]); lia.
    + rewrite count_cons, IH. destruct (decide _); [lia|congruence].
  - destruct (below _ _); rewrite ?count_cons, IH; [|done]. by destruct (decide _).
Qed.

Lemma count_length c l : (count c l <= vec_len l)%N.
Proof. unfold count, vec_len, in_category. pose proof (length_filter (fun x => cat x = c) l). lia. Qed.

Lemma keep_last_split n l :
  (total (take (length l - N.to_nat n) l) + total (keep_last n l))%N = total l.
Proof. unfold keep_last. by rewrite <- total_app, take_drop. Qed.

Lemma total_cons x l : total (x :: l) = (size x + total l)%N.
Proof. done. Qed.

Lemma within_cons budget x l :
  within budget (x :: l) =
  if (total (within budget l) + size x <=? budget)%N
  then x :: within budget l else within budget l.
Proof. done. Qed.

Lemma within_total budget l : (total (within budget l) <= budget)%N.
Proof.
  induction l as [|x l IH]; [apply N.le_0_l|]. cbn [within].
  destruct (N.leb_spec (total (within budget l) + size x) budget); [|done].
  rewrite total_cons. lia.
Qed.

Lemma within_fits budget l : (total l <= budget)%N -> within budget l = l.
Proof.
  induction l as [|x l IH]; [done|]. rewrite total_cons. intros H. cbn [within].
  rewrite IH by lia. destruct (N.leb_spec (total l + size x) budget); [done|lia].
Qed.

Lemma within_sublist budget l : sublist (within budget l) l.
Proof. induction l as [|x l IH]; [done|]. simpl. case_match; by constructor. Qed.

Lemma retained_sublist policy l : sublist (retained policy l) l.
Proof. induction l as [|x l IH]; [done|]. simpl. case_match; by constructor. Qed.

Lemma sublist_total l k : sublist l k -> (total l <= total k)%N.
Proof. unfold total. induction 1; simpl; lia. Qed.

Lemma sublist_vec_len (l k : list A) : sublist l k -> (vec_len l <= vec_len k)%N.
Proof. intros H%sublist_length. unfold vec_len. lia. Qed.

Lemma total_element x l : x ∈ l -> (size x <= total l)%N.
Proof. induction 1; rewrite total_cons; lia. Qed.
End specification.

Lemma total_fmap {A B} (f : A -> B) (size : B -> N) (l : list A) :
  total size (f <$> l) = total (fun x => size (f x)) l.
Proof. induction l as [|x l IH]; [done|]. rewrite fmap_cons, !total_cons. by rewrite IH. Qed.

Lemma count_fmap {A B} (f : A -> B) (cat : B -> item_category) c (l : list A) :
  count cat c (f <$> l) = count (fun x => cat (f x)) c l.
Proof. induction l as [|x l IH]; [done|]. rewrite fmap_cons, !count_cons. by rewrite IH. Qed.

Lemma retained_fmap {A B} (f : A -> B) (cat : B -> item_category) policy (l : list A) :
  retained cat policy (f <$> l) = f <$> retained (fun x => cat (f x)) policy l.
Proof.
  induction l as [|x l IH]; [done|]. rewrite fmap_cons. cbn [retained].
  rewrite count_fmap, IH. by destruct (below _ _).
Qed.

Lemma within_fmap {A B} (f : A -> B) (size : B -> N) budget (l : list A) :
  within size budget (f <$> l) = f <$> within (fun x => size (f x)) budget l.
Proof.
  induction l as [|x l IH]; [done|]. rewrite fmap_cons. cbn [within].
  rewrite IH, total_fmap. by destruct (_ <=? _)%N.
Qed.

(** The specification depends on the category and size of the items only. *)
Section extensionality.
Context {A : Type} (cat1 cat2 : A -> item_category) (size1 size2 : A -> N).
Implicit Types l : list A.

Lemma count_ext c l :
  Forall (fun x => cat1 x = cat2 x) l -> count cat1 c l = count cat2 c l.
Proof. induction 1 as [|x l Hx _ IH]; [done|]. by rewrite !count_cons, Hx, IH. Qed.

Lemma total_ext l : Forall (fun x => size1 x = size2 x) l -> total size1 l = total size2 l.
Proof. induction 1 as [|x l Hx _ IH]; [done|]. by rewrite !total_cons, Hx, IH. Qed.

Lemma retained_ext policy l :
  Forall (fun x => cat1 x = cat2 x) l -> retained cat1 policy l = retained cat2 policy l.
Proof.
  induction 1 as [|x l Hx Hl IH]; [done|]. cbn [retained]. by rewrite (count_ext _ l Hl), Hx, IH.
Qed.
End extensionality.

Lemma within_ext {A} (size1 size2 : A -> N) budget l :
  Forall (fun x => size1 x = size2 x) l -> within size1 budget l = within size2 budget l.
Proof.
  induction 1 as [|x l Hx Hl IH]; [done|]. cbn [within]. rewrite Hx, IH.
  rewrite (total_ext size1 size2); [done|]. eapply forall_sublist; [apply within_sublist|done].
Qed.

(** ** Lemmas about the code *)

Lemma wrap_small a b : (a + b < 2 ^ 64)%N -> wrapping_add64 a b = (a + b)%N.
Proof. apply N.mod_small. Qed.

Lemma vec_len_cons {A} (x : A) l : vec_len (x :: l) = (vec_len l + 1)%N.
Proof. unfold vec_len. simpl. lia. Qed.

(** Two records of statistics that agree field by field. *)
Ltac fields_lia :=
  repeat match goal with |- (_, _) = (_, _) => apply f_equal2 end;
  try reflexivity; try lia; f_equal; lia.

Ltac stats :=
  unfold vec_len, remove_bytes, update; cbn -[N.add N.sub N.of_nat]; fields_lia.

Ltac norm :=
  unfold update, default_stats; cbn -[N.add N.sub N.min N.pow total vec_len fold_left
    vec_pop drain_oldest keep_last].

Lemma vec_pop_spec {A} (l : list A) :
  match vec_pop l with
  | (Some x, k) => l = k ++ [x]
  | (None, k) => l = [] /\ k = []
  end.
Proof.
  unfold vec_pop. destruct l as [|x k _] using rev_ind; [done|].
  rewrite last_snoc, length_app, Nat.add_sub. by rewrite take_app_length.
Qed.

Section code.
Context {opaque : Type} (to_json : list function_call_output_content_item -> option str).
Notation item := (response_item opaque).
Notation citem := (categorized_item opaque).
Implicit Types (l k v : list citem) (c : citem) (s : retention_stats).

Lemma separate_spec l :
  separate l =
  Buckets (in_category category ItemCategory.EnvBaseline l)
    (in_category category ItemCategory.EnvDelta l)
    (in_category category ItemCategory.BrowserSnapshot l)
    (in_category category ItemCategory.Screenshot l)
    (in_category category ItemCategory.StatusMessage l)
    (unlimited category l).
Proof.
  unfold separate. induction l as [|c l IH] using rev_ind; [done|].
  rewrite fold_left_app, IH. unfold in_category, unlimited. rewrite !filter_app. simpl.
  destruct (category c) eqn:Hc; rewrite !filter_cons, Hc; cbn [is_unlimited];
    repeat match goal with |- context [decide ?P] => destruct (decide P); [try congruence|] end;
    try congruence; by rewrite !filter_nil, ?app_nil_r.
Qed.

Lemma fold_keep {B} (view : citem -> B) l kept s :
  (bytes_kept s + total size_bytes l < 2 ^ 64)%N ->
  fold_left (keep_as view) l (kept, s) =
  (kept ++ (view <$> l), s <| bytes_kept := (bytes_kept s + total size_bytes l)%N |>).
Proof.
  revert kept s. induction l as [|c l IH]; intros kept s H; cbn [fold_left].
  - rewrite app_nil_r. destruct s; stats.
  - rewrite total_cons in *. unfold keep_as at 2. cbn [fst snd].
    rewrite wrap_small by lia. rewrite IH by (destruct s; cbn in *; lia).
    rewrite <- app_assoc. destruct s; stats.
Qed.

(** The loops that remove items add up their bytes, and some count them. *)
Lemma fold_remove_bytes l s :
  (bytes_removed s + total size_bytes l < 2 ^ 64)%N ->
  fold_left remove_bytes l s =
  s <| bytes_removed := (bytes_removed s + total size_bytes l)%N |>.
Proof.
  revert s. induction l as [|c l IH]; intros s H; cbn [fold_left]; [destruct s; stats|].
  rewrite total_cons in *. unfold remove_bytes at 2. rewrite wrap_small by lia.
  rewrite IH by (destruct s; cbn in *; lia). destruct s; stats.
Qed.

Lemma fold_remove_baseline l s :
  (removed_env_baselines s + vec_len l < 2 ^ 64)%N ->
  fold_left remove_baseline l s =
  fold_left remove_bytes l
    (s <| removed_env_baselines := (removed_env_baselines s + vec_len l)%N |>).
Proof.
  revert s. induction l as [|c l IH]; intros s H; cbn [fold_left]; [destruct s; stats|].
  rewrite vec_len_cons in *. unfold remove_baseline at 2. rewrite wrap_small by lia.
  rewrite IH by (destruct s; cbn in *; lia). f_equal. destruct s; stats.
Qed.

Lemma fold_remove_status l s :
  (removed_status s + vec_len l < 2 ^ 64)%N ->
  fold_left remove_status l s =
  fold_left remove_bytes l (s <| removed_status := (removed_status s + vec_len l)%N |>).
Proof.
  revert s. induction l as [|c l IH]; intros s H; cbn [fold_left]; [destruct s; stats|].
  rewrite vec_len_cons in *. unfold remove_status at 2. rewrite wrap_small by lia.
  rewrite IH by (destruct s; cbn in *; lia). f_equal. destruct s; stats.
Qed.

Lemma fold_remove_screenshot l s :
  (removed_screenshots s + vec_len l < 2 ^ 64)%N ->
  fold_left remove_screenshot l s =
  fold_left remove_bytes l
    (s <| removed_screenshots := (removed_screenshots s + vec_len l)%N |>).
Proof.
  revert s. induction l as [|c l IH]; intros s H; cbn [fold_left]; [destruct s; stats|].
  rewrite vec_len_cons in *. unfold remove_screenshot at 2. rewrite wrap_small by lia.
  rewrite IH by (destruct s; cbn in *; lia). f_equal. destruct s; stats.
Qed.

Lemma drain_skip max count v s : drain_oldest max count v s = skip_oldest max count v s.
Proof.
  unfold drain_oldest, skip_oldest.
  by destruct (N.ltb_spec max (vec_len v)), (N.leb_spec (vec_len v) max); try lia.
Qed.

Lemma keep_last_len n l : vec_len (keep_last n l) = N.min n (vec_len l).
Proof. unfold keep_last, vec_len. rewrite length_drop. lia. Qed.

Lemma keep_last_le n l : (total size_bytes (keep_last n l) <= total size_bytes l)%N.
Proof. pose proof (keep_last_split size_bytes n l). lia. Qed.

(** Both counters of dropped items are updated the same way. *)
Lemma drain_spec max (count set : N -> retention_stats -> retention_stats)
    (removed : retention_stats -> N) v s :
  (forall n, count n s = set (wrapping_add64 (removed s) n) s) ->
  (forall n, bytes_removed (set n s) = bytes_removed s) -> set (removed s) s = s ->
  (removed s + vec_len v < 2 ^ 64)%N ->
  (bytes_removed s + total size_bytes v < 2 ^ 64)%N ->
  drain_oldest max count v s =
  (keep_last max v,
   set (removed s + (vec_len v - N.min max (vec_len v)))%N s
     <| bytes_removed :=
          (bytes_removed s + (total size_bytes v - total size_bytes (keep_last max v)))%N |>).
Proof.
  intros Hcount Hset Hid Hn Hb. pose proof (keep_last_split size_bytes max v) as Ht.
  unfold drain_oldest, keep_last in *. destruct (N.ltb_spec max (vec_len v)).
  - assert (N.to_nat (vec_len v - max) = length v - N.to_nat max) as -> by (unfold vec_len; lia).
    f_equal. rewrite Hcount, wrap_small by lia.
    rewrite fold_remove_bytes; rewrite Hset; [|lia].
    replace (N.min max (vec_len v)) with max by lia.
    by replace (total size_bytes v - total size_bytes (drop (length v - N.to_nat max) v))%N
      with (total size_bytes (take (length v - N.to_nat max) v)) by lia.
  - assert (length v - N.to_nat max = 0) as Hz by (unfold vec_len in *; lia).
    rewrite Hz in *. change (drop 0 v) with v in *.
    replace (vec_len v - N.min max (vec_len v))%N with 0%N by lia.
    rewrite N.add_0_r, N.sub_diag, N.add_0_r, Hid. destruct s; reflexivity.
Qed.

Lemma drain_deltas max v s :
  (removed_env_deltas s + vec_len v < 2 ^ 64)%N ->
  (bytes_removed s + total size_bytes v < 2 ^ 64)%N ->
  drain_oldest max count_deltas v s =
  (keep_last max v,
   s <| removed_env_deltas :=
          (removed_env_deltas s + (vec_len v - N.min max (vec_len v)))%N |>
     <| bytes_removed :=
          (bytes_removed s + (total size_bytes v - total size_bytes (keep_last max v)))%N |>).
Proof.
  intros Hn Hb.
  by apply (drain_spec max _ (fun n s => s <| removed_env_deltas := n |>) removed_env_deltas);
    try done; destruct s.
Qed.

Lemma drain_snapshots max v s :
  (removed_browser_snapshots s + vec_len v < 2 ^ 64)%N ->
  (bytes_removed s + total size_bytes v < 2 ^ 64)%N ->
  drain_oldest max count_snapshots v s =
  (keep_last max v,
   s <| removed_browser_snapshots :=
          (removed_browser_snapshots s + (vec_len v - N.min max (vec_len v)))%N |>
     <| bytes_removed :=
          (bytes_removed s + (total size_bytes v - total size_bytes (keep_last max v)))%N |>).
Proof.
  intros Hn Hb.
  by apply (drain_spec max _ (fun n s => s <| removed_browser_snapshots := n |>)
    removed_browser_snapshots); try done; destruct s.
Qed.

Lemma vec_pop_last l :
  match vec_pop l with
  | (Some x, older) => l = older ++ [x] /\ keep_last 1 l = [x]
  | (None, older) => older = [] /\ l = [] /\ keep_last 1 l = []
  end.
Proof.
  pose proof (vec_pop_spec l) as H. destruct (vec_pop l) as [[x|] older]; [|by destruct H as [-> ->]].
  subst l. split; [done|]. unfold keep_last. rewrite length_app.
  change (N.to_nat 1) with 1. cbn [length]. rewrite Nat.add_sub. apply drop_app_length.
Qed.

(** The statistics after the limits and before the byte budget. *)
Definition selected_stats (policy : retention_policy) l : retention_stats :=
  stats_of category size_bytes l (retained category policy l) (retained category policy l).

Notation keep := (keep_as (fun c => c)).

Lemma total_single c : total size_bytes [c] = size_bytes c.
Proof. unfold total. simpl. lia. Qed.

(** The latest baseline is kept when the policy says so. *)
Lemma pick_baseline policy l kept s :
  (bytes_kept s + total size_bytes l < 2 ^ 64)%N ->
  let n := (if keep_latest_baseline policy then 1 else 0)%N in
  exists older,
    (if keep_latest_baseline policy then
       match vec_pop l with
       | (Some latest, older) => (keep (kept, s) latest, older)
       | (None, older) => ((kept, s), older)
       end
     else ((kept, s), l)) =
    ((kept ++ keep_last n l,
      s <| bytes_kept := (bytes_kept s + total size_bytes (keep_last n l))%N |>), older) /\
    (total size_bytes older + total size_bytes (keep_last n l))%N = total size_bytes l /\
    vec_len older = (vec_len l - N.min n (vec_len l))%N.
Proof.
  intros H n. subst n. destruct (keep_latest_baseline policy).
  - pose proof (vec_pop_last l) as Hl. destruct (vec_pop l) as [[x|] older].
    + destruct Hl as [-> ->]. exists older. rewrite total_app, total_single, vec_len_app in *.
      unfold keep_as. cbn [fst snd]. rewrite wrap_small by lia.
      split; [done|]. split; [done|]. change (vec_len [x]) with 1%N. lia.
    + destruct Hl as (-> & -> & ->). exists []. rewrite app_nil_r.
      split; [destruct s; stats|done].
  - exists l. pose proof (keep_last_len 0 l) as Hk. unfold vec_len in Hk.
    destruct (keep_last 0 l); [|simpl in Hk; lia]. rewrite app_nil_r.
    split; [destruct s; stats|]. split; [unfold total; simpl|]; lia.
Qed.

(** The most recent screenshot is kept. *)
Lemma pick_screenshot l kept s :
  kept_recent_screenshots s = 0%N -> removed_screenshots s = 0%N ->
  (bytes_kept s + total size_bytes l < 2 ^ 64)%N ->
  (bytes_removed s + total size_bytes l < 2 ^ 64)%N -> (vec_len l < 2 ^ 64)%N ->
  match vec_pop l with
  | (Some latest, older) =>
      let s := s <| kept_recent_screenshots := 1%N |> in
      let ks := keep (kept, s) latest in
      (ks.1, fold_left remove_screenshot older ks.2)
  | (None, _) => (kept, s)
  end =
  (kept ++ keep_last 1 l,
   s <| kept_recent_screenshots := N.min 1 (vec_len l) |>
     <| bytes_kept := (bytes_kept s + total size_bytes (keep_last 1 l))%N |>
     <| removed_screenshots := (vec_len l - N.min 1 (vec_len l))%N |>
     <| bytes_removed :=
          (bytes_removed s + (total size_bytes l - total size_bytes (keep_last 1 l)))%N |>).
Proof.
  intros H1 H2 Hk Hr Hn. pose proof (vec_pop_last l) as Hl.
  destruct (vec_pop l) as [[x|] older].
  - destruct Hl as [-> ->]. rewrite total_app, total_single, vec_len_app in *.
    change (vec_len [x]) with 1%N in *. unfold keep_as. cbn [fst snd].
    rewrite fold_remove_screenshot by (destruct s; cbn in *; lia).
    rewrite fold_remove_bytes by (destruct s; cbn in *; lia).
    rewrite wrap_small by (destruct s; cbn in *; lia).
    destruct s; cbn in H1, H2; subst. stats.
  - destruct Hl as (-> & -> & ->). rewrite app_nil_r.
    destruct s; cbn in H1, H2; subst. stats.
Qed.

Lemma select_owned_run policy b :
  let sizes (f : buckets opaque -> list citem) := total size_bytes (f b) in
  let lens (f : buckets opaque -> list citem) := vec_len (f b) in
  let nb := (if keep_latest_baseline policy then 1 else 0)%N in
  (sizes other_items + sizes env_baselines + sizes env_deltas + sizes browser_snapshots +
   sizes screenshots + sizes status_messages < 2 ^ 64)%N ->
  (lens env_baselines < 2 ^ 64)%N -> (lens env_deltas < 2 ^ 64)%N ->
  (lens browser_snapshots < 2 ^ 64)%N -> (lens screenshots < 2 ^ 64)%N ->
  (lens status_messages < 2 ^ 64)%N ->
  let kept :=
    other_items b ++ keep_last nb (env_baselines b) ++
    keep_last (max_env_deltas policy) (env_deltas b) ++
    keep_last (max_browser_snapshots policy) (browser_snapshots b) ++
    keep_last 1 (screenshots b) in
  select_owned policy b =
  (kept,
   RetentionStats (lens env_baselines - N.min nb (lens env_baselines))
     (lens env_deltas - N.min (max_env_deltas policy) (lens env_deltas))
     (lens browser_snapshots - N.min (max_browser_snapshots policy) (lens browser_snapshots))
     (lens screenshots - N.min 1 (lens screenshots)) (lens status_messages)
     (N.min (max_env_deltas policy) (lens env_deltas))
     (N.min (max_browser_snapshots policy) (lens browser_snapshots))
     (N.min 1 (lens screenshots))
     (sizes other_items + sizes env_baselines + sizes env_deltas + sizes browser_snapshots +
      sizes screenshots + sizes status_messages - total size_bytes kept)
     (total size_bytes kept) 0).
Proof.
  destruct b as [bl de sn sc st ot]. cbn -[N.add N.sub N.min N.pow total vec_len keep_last].
  intros H Hb Hd Hs Hp Ht. unfold select_owned, remove_older_owned.
  cbn [other_items env_baselines env_deltas browser_snapshots screenshots status_messages].
  rewrite fold_keep by (cbn; lia).
  match goal with |- context [keep (?k, ?s) _] =>
    destruct (pick_baseline policy bl k s) as (older & E & Hob & Hol) end.
  { cbn -[N.add total]; lia. }
  rewrite E. clear E. norm.
  pose proof (keep_last_le (max_env_deltas policy) de) as Hde.
  pose proof (keep_last_le (max_browser_snapshots policy) sn) as Hsn.
  pose proof (keep_last_le 1 sc) as Hsc.
  rewrite fold_remove_baseline by (norm; lia). rewrite fold_remove_bytes by (norm; lia). norm.
  rewrite drain_deltas by (norm; lia). norm.
  rewrite fold_keep by (norm; lia). norm.
  rewrite drain_snapshots by (norm; lia). norm.
  rewrite fold_keep by (norm; lia). norm.
  rewrite fold_remove_status by (norm; lia). rewrite fold_remove_bytes by (norm; lia). norm.
  match goal with |- context [match _ with Some _ => _ | None => (?k, ?s) end] =>
    etrans; [refine (pick_screenshot sc k s _ _ _ _ _); norm; lia|] end.
  norm. rewrite !list_fmap_id, !keep_last_len, !total_app, <- !app_assoc.
  f_equal. f_equal; lia.
Qed.

Lemma select_owned_spec policy l :
  (total size_bytes l + vec_len l < 2 ^ 64)%N ->
  exists kept, select_owned policy (separate l) = (kept, selected_stats policy l) /\
    kept ≡ₚ retained category policy l.
Proof.
  intros H. pose proof (retained_perm category policy l) as Hp.
  pose proof (total_perm size_bytes _ _ Hp) as Ht.
  pose proof (categories_sum category size_bytes l) as Hsum.
  pose proof (fun cat => count_length category cat l) as Hc. unfold count in Hc.
  eexists. split; [|exact Hp]. rewrite separate_spec, select_owned_run.
  all: cbn [other_items env_baselines env_deltas browser_snapshots screenshots status_messages].
  2-7: try lia; match goal with |- (vec_len (in_category _ ?k _) < _)%N => specialize (Hc k) end; lia.
  unfold selected_stats, stats_of. rewrite !count_retained, <- Ht. cbn [limit]. unfold count.
  rewrite N.sub_diag.
  f_equal. f_equal; lia.
Qed.

(** The borrowed selection differs only in the elements it builds. *)
Notation as_pair := (fun c => (index c, the_item c)).

Lemma fold_keep_pair l (kept : list citem) s :
  fold_left (keep_as as_pair) l (as_pair <$> kept, s) =
  (as_pair <$> (fold_left keep l (kept, s)).1, (fold_left keep l (kept, s)).2).
Proof.
  revert kept s. induction l as [|c l IH]; intros kept s; [done|]. cbn [fold_left].
  pose proof (IH (kept ++ [c])
    (s <| bytes_kept := wrapping_add64 (bytes_kept s) (size_bytes c) |>)) as E.
  rewrite fmap_app in E. exact E.
Qed.

Lemma vec_len_zero {A} (l : list A) : (vec_len l =? 0)%N = bool_decide (l = []).
Proof. by destruct l. Qed.

(** The rules after the baseline, from the same state. *)
Lemma remove_older_pair policy b (kept : list citem) s0 (older : list citem) :
  remove_older_borrowed policy b (as_pair <$> kept, s0) older =
  (as_pair <$> (remove_older_owned policy b (kept, s0) older).1,
   (remove_older_owned policy b (kept, s0) older).2).
Proof.
  unfold remove_older_borrowed, remove_older_owned. cbn [fst snd]. rewrite !drain_skip.
  destruct (skip_oldest _ count_deltas _ _) as [deltas s1].
  rewrite fold_keep_pair. cbn [fst snd].
  destruct (fold_left keep deltas _) as [k2 s2]. cbn [fst snd]. rewrite drain_skip.
  destruct (skip_oldest _ count_snapshots _ _) as [snapshots s3].
  rewrite fold_keep_pair. cbn [fst snd].
  destruct (fold_left keep snapshots _) as [k4 s4]. cbn [fst snd].
  rewrite vec_len_zero. pose proof (vec_pop_spec (screenshots b)) as Hp.
  destruct (vec_pop (screenshots b)) as [[x|] sc] eqn:E.
  - rewrite bool_decide_false by (rewrite Hp; by destruct sc). cbn. by rewrite fmap_app.
  - by destruct (negb _).
Qed.

Lemma select_borrowed_spec policy b :
  select_borrowed policy b =
  (as_pair <$> (select_owned policy b).1, (select_owned policy b).2).
Proof.
  unfold select_borrowed, select_owned.
  change (@nil (nat * item), default_stats) with (as_pair <$> @nil citem, default_stats).
  rewrite fold_keep_pair. destruct (fold_left keep (other_items b) _) as [k0 s0].
  cbn [fst snd]. pose proof (vec_pop_spec (env_baselines b)) as Hb.
  rewrite vec_len_zero. destruct (keep_latest_baseline policy); cbn [andb]; [|apply remove_older_pair].
  destruct (vec_pop (env_baselines b)) as [[x|] older] eqn:E.
  - rewrite bool_decide_false by (rewrite Hb; by destruct older). cbn [negb].
    unfold keep_as. cbn [fst snd]. rewrite <- remove_older_pair. by rewrite fmap_app.
  - destruct Hb as [Hb ->]. rewrite Hb. cbn [negb]. apply remove_older_pair.
Qed.

Definition before (a b : citem) : Prop := index a < index b.

Lemma imap_sorted {A} (f : nat -> A -> citem) n (l : list A) :
  (forall i x, index (f i x) = n + i) -> StronglySorted before (imap f l).
Proof.
  revert f n. induction l as [|x l IH]; intros f n Hf; [constructor|].
  rewrite imap_cons. constructor.
  - apply (IH _ (S n)). intros i y. unfold compose. rewrite Hf. lia.
  - apply Forall_forall. intros c (i & y & -> & _)%elem_of_lookup_imap.
    unfold before, compose. rewrite !Hf. lia.
Qed.

Lemma sort_kept l k :
  StronglySorted before l -> k ≡ₚ l -> sort_by index_leb k = l.
Proof.
  intros Hl Hk. unfold index_leb.
  apply sort_by_unique with (R := before); [| | |done..]; unfold before; intros *;
    rewrite ?Nat.leb_gt, ?Nat.leb_le; lia.
Qed.

(** What the owned loop computes from the newest item to the oldest. *)
Lemma budget_owned_loop max l kept_bytes s :
  (total size_bytes l < 2 ^ 64)%N -> (dropped_for_budget s + vec_len l < 2 ^ 64)%N ->
  (bytes_removed s + total size_bytes l < 2 ^ 64)%N ->
  let w := within size_bytes max l in
  fold_left (budget_owned_step max) (reverse l) (0%N, [], kept_bytes, s) =
  (total size_bytes w, reverse w, (kept_bytes - (total size_bytes l - total size_bytes w))%N,
   s <| dropped_for_budget := (dropped_for_budget s + (vec_len l - vec_len w))%N |>
     <| bytes_removed := (bytes_removed s + (total size_bytes l - total size_bytes w))%N |>).
Proof.
  intros Ht Hd Hr. induction l as [|x l IH].
  - destruct s; norm. by rewrite !N.add_0_r, N.sub_0_r.
  - rewrite total_cons, vec_len_cons in *. rewrite reverse_cons, fold_left_app.
    cbv zeta in IH. rewrite IH by lia. clear IH. cbn [fold_left within].
    pose proof (sublist_total size_bytes _ _ (within_sublist size_bytes max l)).
    pose proof (sublist_vec_len _ _ (within_sublist size_bytes max l)).
    unfold budget_owned_step at 1. unfold saturating_add64, u64_max.
    replace (N.min (total size_bytes (within size_bytes max l) + size_bytes x) (2 ^ 64 - 1))
      with (total size_bytes (within size_bytes max l) + size_bytes x)%N by lia.
    destruct (N.leb_spec (total size_bytes (within size_bytes max l) + size_bytes x) max).
    + rewrite reverse_cons, total_cons, vec_len_cons.
      destruct s; norm. fields_lia.
    + destruct s; cbn [dropped_for_budget bytes_removed] in *. unfold remove_bytes. norm.
      rewrite !wrap_small by lia. fields_lia.
Qed.

(** The borrowed loop, when the recorded sizes are the estimated ones. *)
Lemma budget_loop max l s :
  Forall (fun c => estimate_item_size to_json (the_item c) = size_bytes c) l ->
  (bytes_kept s < 2 ^ 64)%N -> (total size_bytes l <= bytes_kept s)%N ->
  (dropped_for_budget s + vec_len l < 2 ^ 64)%N ->
  (bytes_removed s + total size_bytes l < 2 ^ 64)%N ->
  let w := within size_bytes max l in
  fold_left (budget_step to_json max) (reverse (as_pair <$> l)) (0%N, [], s) =
  (total size_bytes w, reverse (as_pair <$> w),
   s <| dropped_for_budget := (dropped_for_budget s + (vec_len l - vec_len w))%N |>
     <| bytes_removed := (bytes_removed s + (total size_bytes l - total size_bytes w))%N |>
     <| bytes_kept := (bytes_kept s - (total size_bytes l - total size_bytes w))%N |>).
Proof.
  intros Hsize Hk Ht Hd Hr. induction l as [|x l IH].
  - destruct s; norm. by rewrite !N.add_0_r, N.sub_0_r.
  - apply Forall_cons in Hsize as [Hx Hsize]. rewrite total_cons, vec_len_cons in *.
    rewrite fmap_cons, reverse_cons, fold_left_app.
    cbv zeta in IH. rewrite IH by (done || lia). clear IH. cbn [fold_left within].
    pose proof (sublist_total size_bytes _ _ (within_sublist size_bytes max l)).
    pose proof (sublist_vec_len _ _ (within_sublist size_bytes max l)).
    unfold budget_step at 1. cbn [snd]. rewrite Hx.
    rewrite (wrap_small (total size_bytes (within size_bytes max l))) by lia.
    destruct (N.leb_spec (total size_bytes (within size_bytes max l) + size_bytes x) max).
    + rewrite fmap_cons, reverse_cons, total_cons, vec_len_cons.
      destruct s; norm. fields_lia.
    + destruct s; cbn [dropped_for_budget bytes_removed bytes_kept] in *. norm.
      rewrite !wrap_small by lia. unfold wrapping_sub64.
      rewrite (N.mod_small (size_bytes x)) by lia.
      match goal with |- context [((?a + (2 ^ 64 - ?b)) mod 2 ^ 64)%N] =>
        replace ((a + (2 ^ 64 - b)) mod 2 ^ 64)%N with (a - b)%N
          by (apply N.mod_unique with (q := 1%N); lia) end.
      fields_lia.
Qed.

Lemma sort_kept_pairs l (ps : list (nat * item)) :
  StronglySorted before l -> ps ≡ₚ (as_pair <$> l) -> sort_by pair_leb ps = as_pair <$> l.
Proof.
  intros Hl Hk.
  apply (sort_by_unique pair_leb) with (R := fun a b => a.1 < b.1); [| | | |done];
    unfold pair_leb; [intros * ; rewrite ?Nat.leb_gt, ?Nat.leb_le; lia..|].
  clear Hk. induction Hl as [|x l Hl IH Hx]; [constructor|]. rewrite fmap_cons.
  constructor; [done|]. rewrite Forall_fmap. exact Hx.
Qed.

Lemma categorized_facts (items : list item) :
  (the_item <$> categorized to_json items = items) /\
  StronglySorted before (categorized to_json items) /\
  Forall (fun c => category c = categorize_item (the_item c)) (categorized to_json items) /\
  Forall (fun c => estimate_item_size to_json (the_item c) = size_bytes c)
    (categorized to_json items).
Proof.
  unfold categorized. split; [|split; [|split]].
  - rewrite fmap_imap. unfold compose. etrans; [apply (imap_const (fun x => x))|apply list_fmap_id].
  - by apply (imap_sorted _ 0).
  - apply Forall_forall. by intros c (i & y & -> & _)%elem_of_lookup_imap.
  - apply Forall_forall. by intros c (i & y & -> & _)%elem_of_lookup_imap.
Qed.

Notation size := (estimate_item_size to_json).

Lemma survivors_transfer policy (items : list item) :
  the_item <$> survivors category size_bytes policy (categorized to_json items) =
  survivors categorize_item size policy items.
Proof.
  destruct (categorized_facts items) as (E & _ & Hc & Hs).
  rewrite <- E at 2. unfold survivors. rewrite retained_fmap, within_fmap. f_equal.
  rewrite (retained_ext category (fun c => categorize_item (the_item c))) by done.
  apply within_ext. eapply forall_sublist; [apply retained_sublist|].
  eapply Forall_impl; [exact Hs|]. by intros c <-.
Qed.

Lemma count_transfer (cat : item_category) l :
  Forall (fun c => category c = categorize_item (the_item c)) l ->
  count categorize_item cat (the_item <$> l) = count category cat l.
Proof. intros H. rewrite count_fmap. symmetry. by apply count_ext. Qed.

Lemma total_transfer l :
  Forall (fun c => size (the_item c) = size_bytes c) l ->
  total size (the_item <$> l) = total size_bytes l.
Proof. intros H. rewrite total_fmap. by apply total_ext. Qed.

Lemma stats_transfer policy (items : list item) :
  expected_stats category size_bytes policy (categorized to_json items) =
  expected_stats categorize_item size policy items.
Proof.
  destruct (categorized_facts items) as (E & _ & Hc & Hs).
  assert (Hr : sublist (retained category policy (categorized to_json items))
    (categorized to_json items)) by apply retained_sublist.
  assert (Hw : sublist (survivors category size_bytes policy (categorized to_json items))
    (categorized to_json items)).
  { etrans; [apply within_sublist|exact Hr]. }
  unfold expected_stats. rewrite <- survivors_transfer.
  replace (retained categorize_item policy items)
    with (the_item <$> retained category policy (categorized to_json items)).
  2: { rewrite <- E at 2. rewrite retained_fmap. f_equal. by apply retained_ext. }
  assert (Hk : forall cat, count categorize_item cat items =
    count category cat (categorized to_json items)).
  { intros cat. rewrite <- E at 1. by apply count_transfer. }
  assert (Ht : total size items = total size_bytes (categorized to_json items)).
  { rewrite <- E at 1. by apply total_transfer. }
  unfold stats_of. rewrite !Hk, Ht, !count_transfer, !total_transfer by eauto using forall_sublist.
  unfold vec_len. by rewrite !length_fmap.
Qed.

(** Sizes and lengths of the categorized items are those of the items. *)
Lemma categorized_bound (items : list item) :
  (total size items + vec_len items < 2 ^ 64)%N ->
  (total size_bytes (categorized to_json items) +
   vec_len (categorized to_json items) < 2 ^ 64)%N.
Proof.
  destruct (categorized_facts items) as (E & _ & _ & Hs). intros H.
  rewrite <- total_transfer, E by done. unfold vec_len, categorized in *.
  by rewrite length_imap.
Qed.

(** Both variants give the items that the specification keeps, and its statistics. *)
Lemma apply_owned_spec (items : list item) policy :
  (total size items + vec_len items < 2 ^ 64)%N ->
  apply_retention_policy_owned to_json items policy =
  (survivors categorize_item size policy items,
   expected_stats categorize_item size policy items).
Proof.
  intros H%categorized_bound. destruct (categorized_facts items) as (_ & Hsort & _ & _).
  rewrite <- survivors_transfer, <- stats_transfer.
  unfold apply_retention_policy_owned. revert H Hsort.
  generalize (categorized to_json items) as L. intros L H Hsort.
  destruct (select_owned_spec policy L H) as (kept & -> & Hp).
  pose proof (retained_sublist category policy L) as Hr.
  assert (Hrs : StronglySorted before (retained category policy L))
    by (eapply strongly_sorted_sublist; done).
  rewrite (sort_kept (retained category policy L)) by done.
  pose proof (sublist_total size_bytes _ _ Hr). pose proof (sublist_vec_len _ _ Hr).
  unfold selected_stats, expected_stats, survivors. set (r := retained category policy L) in *.
  unfold stats_of. cbn [bytes_kept].
  pose proof (sublist_total size_bytes _ _ (within_sublist size_bytes (max_total_bytes policy) r)).
  destruct (N.ltb_spec (max_total_bytes policy) (total size_bytes r)).
  - rewrite budget_owned_loop by (cbn [dropped_for_budget bytes_removed]; lia).
    rewrite (sort_kept (within size_bytes (max_total_bytes policy) r)).
    + unfold update. cbn -[N.add N.sub total count]. fields_lia.
    + by eapply strongly_sorted_sublist; [apply within_sublist|].
    + apply reverse_Permutation.
  - rewrite (within_fits size_bytes (max_total_bytes policy) r) by lia. by rewrite N.sub_diag.
Qed.

Lemma apply_borrowed_spec (items : list item) policy :
  (total size items + vec_len items < 2 ^ 64)%N ->
  apply_retention_policy to_json items policy =
  (survivors categorize_item size policy items,
   expected_stats categorize_item size policy items).
Proof.
  intros H%categorized_bound. destruct (categorized_facts items) as (_ & Hsort & _ & Hs).
  rewrite <- survivors_transfer, <- stats_transfer.
  unfold apply_retention_policy. rewrite select_borrowed_spec. revert H Hsort Hs.
  generalize (categorized to_json items) as L. intros L H Hsort Hs.
  destruct (select_owned_spec policy L H) as (kept & -> & Hp). cbn [fst snd].
  pose proof (retained_sublist category policy L) as Hr.
  assert (Hrs : StronglySorted before (retained category policy L))
    by (eapply strongly_sorted_sublist; done).
  rewrite (sort_kept_pairs (retained category policy L)) by (done || by rewrite Hp).
  pose proof (sublist_total size_bytes _ _ Hr). pose proof (sublist_vec_len _ _ Hr).
  pose proof (forall_sublist _ _ _ Hr Hs) as Hsr.
  unfold selected_stats, expected_stats, survivors. set (r := retained category policy L) in *.
  unfold stats_of. cbn [bytes_kept].
  pose proof (sublist_total size_bytes _ _ (within_sublist size_bytes (max_total_bytes policy) r)).
  destruct (N.ltb_spec (max_total_bytes policy) (total size_bytes r)).
  - rewrite budget_loop by (done || cbn [dropped_for_budget bytes_removed bytes_kept]; lia).
    rewrite (sort_kept_pairs (within size_bytes (max_total_bytes policy) r)).
    + rewrite <- list_fmap_compose. unfold update. cbn -[N.add N.sub total count]. fields_lia.
    + by eapply strongly_sorted_sublist; [apply within_sublist|].
    + apply reverse_Permutation.
  - rewrite (within_fits size_bytes (max_total_bytes policy) r) by lia.
    rewrite <- list_fmap_compose. by rewrite N.sub_diag.
Qed.
End code.

(** ** Properties *)

Section properties.
Context {opaque : Type} (to_json : list function_call_output_content_item -> option str).
Notation item := (response_item opaque).
Notation size := (estimate_item_size to_json).

(** *** What an item is and how large it is, independently of the code *)

(** The texts of a message of the user. *)
Definition is_user_message (i : item) : bool :=
  match i with Message role _ _ => bool_decide (role = lit "user") | _ => false end.

Definition parts (i : item) : list content_item :=
  match i with Message _ content _ => content | _ => [] end.

Definition texts (i : item) : list str :=
  omap (fun c => match c with InputText t => Some t | _ => None end) (parts i).

Definition some_text (p : str -> bool) (i : item) : bool := existsb p (texts i).
Definition says (marker : string) (t : str) : bool := str_contains (lit marker) t.

Definition kind (i : item) : item_category :=
  if negb (is_user_message i) then ItemCategory.Other
  else if some_text (fun t => says "<environment_context>" t &&
                              negb (says "<environment_context_delta>" t)) i
  then ItemCategory.EnvBaseline
  else if some_text (says "<environment_context_delta>") i then ItemCategory.EnvDelta
  else if some_text (says "<browser_snapshot>") i then ItemCategory.BrowserSnapshot
  else if some_text (says "== System Status ==") i || some_text (says "Current working directory:") i
          || some_text (says "Git branch:") i then ItemCategory.StatusMessage
  else if existsb (fun c => match c with InputImage _ => true | _ => false end) (parts i)
  then ItemCategory.Screenshot
  else if some_text (fun t => bool_decide (trim t <> [])) i then ItemCategory.RealUserMessage
  else ItemCategory.StatusMessage.

Definition part_bytes (c : content_item) : N :=
  match c with InputText t | OutputText t => len t | InputImage url => len url end.

Definition output_bytes (o : function_call_output_payload) : N :=
  match body o with
  | Text t => len t
  | ContentItems its => match to_json its with Some t => len t | None => 0 end
  end.

(** The bytes of its texts; a reasoning item counts its parts, every other item nothing. *)
Definition bytes (i : item) : N :=
  match i with
  | Message _ content _ => total part_bytes content
  | FunctionCall t _ _ | CustomToolCall _ t _ => len t
  | FunctionCallOutput _ o | CustomToolCallOutput _ o _ => output_bytes o
  | Reasoning (Some c) _ => vec_len c
  | _ => 0
  end.

Lemma any_input_text_texts p role content o :
  any_input_text p content = some_text p (Message role content o).
Proof.
  unfold any_input_text, some_text, texts. cbn [parts].
  induction content as [|[t|t|t] l IH]; [done|..]; cbn; by rewrite IH.
Qed.

Lemma existsb_orb {A} (p q : A -> bool) l : existsb (fun x => p x || q x) l = existsb p l || existsb q l.
Proof. induction l as [|x l IH]; [done|]. cbn. rewrite IH. by destruct (p x), (q x), (existsb p l). Qed.

(** A text that shows none of the markers is a real one when it is not blank. *)
Lemma real_texts (l : list str) :
  existsb (fun t => says "<environment_context>" t && negb (says "<environment_context_delta>" t)) l = false ->
  existsb (says "<environment_context_delta>") l = false ->
  existsb (says "<browser_snapshot>") l = false ->
  existsb (says "== System Status ==") l || existsb (says "Current working directory:") l
    || existsb (says "Git branch:") l = false ->
  existsb is_real_text l = existsb (fun t => bool_decide (trim t <> [])) l.
Proof.
  induction l as [|t l IH]; [done|]. cbn [existsb]. rewrite !orb_false_iff.
  intros (H1 & K1) (H2 & K2) (H3 & K3) (((H4 & K4) & (H5 & K5)) & (H6 & K6)).
  rewrite IH by (rewrite ?K4, ?K5, ?K6; done). f_equal. unfold is_real_text.
  unfold says in *. rewrite H2 in H1. rewrite andb_true_r in H1.
  unfold ENVIRONMENT_CONTEXT_OPEN_TAG, ENVIRONMENT_CONTEXT_DELTA_OPEN_TAG, BROWSER_SNAPSHOT_OPEN_TAG.
  rewrite H1, H2, H3, H4, H5, H6. cbn. rewrite !andb_true_r. apply eq_iff_eq_true.
  by rewrite negb_true_iff, str_eqb_neq, bool_decide_eq_true.
Qed.

Lemma categorize_kind (i : item) : categorize_item i = kind i.
Proof.
  destruct i as [|role content o| | | | | | | | | | | | | |]; try done. unfold categorize_item, kind. cbn [is_user_message].
  destruct (str_eqb role (lit "user")) eqn:E;
    [apply str_eqb_eq in E as ->; rewrite bool_decide_true by done
    |apply str_eqb_neq in E; by rewrite bool_decide_false by done].
  cbn [negb]. rewrite !(any_input_text_texts _ (lit "user") content o).
  change (some_text mentions_env_baseline) with
    (some_text (fun t => says "<environment_context>" t && negb (says "<environment_context_delta>" t))).
  change (some_text mentions_env_delta) with (some_text (says "<environment_context_delta>")).
  change (some_text mentions_browser_snapshot) with (some_text (says "<browser_snapshot>")).
  assert (some_text mentions_system_status (Message (lit "user") content o) =
    some_text (says "== System Status ==") (Message (lit "user") content o)
    || some_text (says "Current working directory:") (Message (lit "user") content o)
    || some_text (says "Git branch:") (Message (lit "user") content o)) as ->.
  { unfold some_text. by rewrite <- !existsb_orb. }
  destruct (some_text (fun _ => _ && _) _) eqn:E1; [done|].
  destruct (some_text (says "<environment_context_delta>") _) eqn:E2; [done|].
  destruct (some_text (says "<browser_snapshot>") _) eqn:E3; [done|].
  destruct (_ || _ || _) eqn:E4; [done|].
  change (has_image content) with
    (existsb (fun c => match c with InputImage _ => true | _ => false end) (parts (Message (lit "user") content o))).
  destruct (existsb _ (parts _)); [done|]. unfold some_text in *. by rewrite real_texts.
Qed.

Lemma sum_total (l : list content_item) n :
  (n + total part_bytes l < 2 ^ 64)%N ->
  fold_left wrapping_add64 (content_size <$> l) n = (n + total part_bytes l)%N.
Proof.
  revert n. induction l as [|c l IH]; intros n Hn; [cbn; lia|].
  rewrite total_cons in Hn. cbn [fmap list_fmap fold_left].
  assert (content_size c = part_bytes c) as -> by (by destruct c).
  rewrite wrap_small by lia. rewrite IH by lia. rewrite total_cons. lia.
Qed.

Lemma estimate_bytes (i : item) : (bytes i < 2 ^ 64)%N -> estimate_item_size to_json i = bytes i.
Proof.
  destruct i as [|role content o|[c|] o| | | |id output| |id output o| | | | | | |]; try done;
    cbn [estimate_item_size bytes]; intros Hb.
  - unfold sum_usize. by rewrite sum_total.
  - unfold output_bytes, payload_text. destruct (body output) as [t|its]; [done|].
    by destruct (to_json its).
  - unfold output_bytes, payload_text. destruct (body output) as [t|its]; [done|].
    by destruct (to_json its).
Qed.

Lemma estimates (items : list item) :
  (total bytes items < 2 ^ 64)%N -> Forall (fun i => size i = bytes i) items.
Proof.
  induction items as [|i l IH]; [constructor|]. rewrite total_cons. intros H.
  constructor; [apply estimate_bytes; lia|apply IH; lia].
Qed.

(** The newest items that fit together are kept. *)
Lemma within_suffix {A} (sz : A -> N) budget (older newer : list A) :
  (total sz newer <= budget)%N ->
  exists more, within sz budget (older ++ newer) = more ++ newer /\ sublist more older.
Proof.
  intros Hn. induction older as [|x older (more & IH & Hs)].
  - exists []. split; [by apply within_fits|constructor].
  - cbn [app within]. rewrite IH. case_match.
    + exists (x :: more). split; [done|by constructor].
    + exists more. split; [done|by constructor].
Qed.

(** The variant on owned items and the variant on borrowed items give the same
    history and the same statistics. *)
Theorem retention_variants_agree (items : list item) policy :
  (total size items + vec_len items < 2 ^ 64)%N ->
  apply_retention_policy_owned to_json items policy =
  apply_retention_policy to_json items policy.
Proof. intros H. by rewrite apply_owned_spec, apply_borrowed_spec. Qed.

(** The budget can drop a tool call and keep its output: when the arguments do not
    fit next to the output, the history that remains has an output whose call is gone. *)
Theorem budget_orphans_output arguments call_id rest output policy :
  (len (payload_text to_json output) <= max_total_bytes policy)%N ->
  (max_total_bytes policy < len arguments + len (payload_text to_json output))%N ->
  (len arguments + len (payload_text to_json output) + 2 < 2 ^ 64)%N ->
  (apply_retention_policy_owned to_json
     [FunctionCall arguments call_id rest; FunctionCallOutput call_id output : item]
     policy).1 = [FunctionCallOutput call_id output].
Proof.
  intros H1 H2 H3.
  assert (Ho : forall c : item, total size [c] = size c)
    by (intros c; rewrite total_cons; apply N.add_0_r).
  rewrite apply_owned_spec; [|rewrite total_cons, Ho; change (vec_len [_; _]) with 2%N;
    cbn [estimate_item_size]; lia].
  cbn [fst]. unfold survivors.
  change (retained categorize_item policy _) with
    [FunctionCall arguments call_id rest; FunctionCallOutput call_id output : item].
  rewrite within_cons, within_fits by (by rewrite Ho). rewrite Ho. cbn [estimate_item_size].
  destruct (N.leb_spec (len (payload_text to_json output) + len arguments)
    (max_total_bytes policy)); [lia|done].
Qed.
End properties.

(** ** Runs *)

Module RetentionRuns.
Definition no_json (_ : list function_call_output_content_item) : option str := None.

Definition user (s : string) : response_item unit := Message (lit "user") [InputText (lit s)] ().

Definition session : list (response_item unit) := [
  user "<environment_context>old</environment_context>";
  user "hello";
  user "<environment_context>new</environment_context>";
  user "== System Status ==";
  FunctionCall (lit "{}") (lit "c1") ();
  user "<environment_context_delta>1</environment_context_delta>";
  user "<environment_context_delta>2</environment_context_delta>";
  user "<environment_context_delta>3</environment_context_delta>";
  user "<environment_context_delta>4</environment_context_delta>" ].


Lemma retention_variants_agree_witness :
  apply_retention_policy_owned no_json session default_policy =
  apply_retention_policy no_json session default_policy.
Proof. apply retention_variants_agree. by vm_compute. Defined.

Definition tight : retention_policy := RetentionPolicy 3 2 10 true.

(** An item that does not fit is skipped and an older one is kept in its place. *)
Example older_item_kept :
  (apply_retention_policy_owned no_json [user "old"; user "much too large"; user "new"] tight).1
  = [user "old"; user "new"].
Proof. vm_compute. reflexivity. Qed.

(** The differences that the byte budget drops are reported as kept. *)
Example dropped_counted_as_kept :
  let r := apply_retention_policy_owned no_json
             [user "<environment_context_delta>1</environment_context_delta>"] tight in
  (r.1, kept_env_deltas r.2) = ([], 1%N).
Proof. vm_compute. reflexivity. Qed.

Lemma budget_orphans_output_witness :
  (apply_retention_policy_owned no_json
     [FunctionCall (lit "{ cmd : ls }") (lit "c1") ();
      FunctionCallOutput (lit "c1") (FunctionCallOutputPayload (Text (lit "a b")) None)]
     tight).1 =
  [FunctionCallOutput (lit "c1") (FunctionCallOutputPayload (Text (lit "a b")) None)].
Proof. apply budget_orphans_output; by vm_compute. Defined.
End RetentionRuns.
