(* ===== verification/HistoryCleanup.v ===== *)
(** * Cleaning the transcript when a user message arrives

    [core/src/codex/session.rs]: [cleanup_old_status_items], which replaces the
    transcript by what the retention policy keeps ([Retention]) or, without the new
    environment context, by what [prune_history_items_owned] keeps, and that function.
    Specification: [kept_at], which positions of the transcript survive.

    Telemetry and the log message are left out.  Counters of removed items are at most
    the length of the transcript, so they cannot overflow. *)

From stdpp Require Import base list sorting gmap.
From S2P Require Import Prelude History Retention.
Open Scope record_scope.

(** ** Pruning without the new environment context *)

Record cleanup_stats := CleanupStats {
  cleaned_screenshots : N;
  cleaned_status : N;
  cleaned_env_baselines : N;
  cleaned_env_deltas : N;
  cleaned_browser_snapshots : N;
  left_recent_screenshots : N;
  left_env_deltas : N;
  left_browser_snapshots : N
}.

Definition any_cleaned (s : cleanup_stats) : bool :=
  (0 <? cleaned_screenshots s)%N || (0 <? cleaned_status s)%N ||
  (0 <? cleaned_env_baselines s)%N || (0 <? cleaned_env_deltas s)%N ||
  (0 <? cleaned_browser_snapshots s)%N.

Definition MAX_ENV_DELTAS : nat := 3.
Definition MAX_BROWSER_SNAPSHOTS : nat := 2.

(** The five vectors of positions that the first loop fills. *)
Record scanned := Scanned {
  real_positions : list nat;
  status_positions : list nat;
  baseline_positions : list nat;
  delta_positions : list nat;
  snapshot_positions : list nat
}.

#[export] Instance scanned_fields : Fields scanned := fun v =>
  Scanned (real_positions v) (status_positions v) (baseline_positions v)
    (delta_positions v) (snapshot_positions v).

Section cleanup.
Context {opaque : Type}.
Notation item := (response_item opaque).

Definition mentions_status (text : str) : bool :=
  mentions_system_status text || str_contains ENVIRONMENT_CONTEXT_OPEN_TAG text ||
  str_contains ENVIRONMENT_CONTEXT_DELTA_OPEN_TAG text ||
  str_contains BROWSER_SNAPSHOT_OPEN_TAG text.

(** The body of the first loop. *)
Definition scan_item (v : scanned) (entry : nat * item) : scanned :=
  let '(idx, i) := entry in
  match i with
  | Message role content _ =>
      if negb (str_eqb role (lit "user")) then v
      else
        let has_status := any_input_text mentions_status content in
        let has_screenshot := has_image content in
        let has_real_text := any_input_text is_real_text content in
        let v :=
          if has_real_text && negb has_status && negb has_screenshot
          then v <| real_positions := real_positions v ++ [idx] |>
          else if has_status || has_screenshot
          then v <| status_positions := status_positions v ++ [idx] |>
          else v in
        let v :=
          if any_input_text mentions_env_baseline content
          then v <| baseline_positions := baseline_positions v ++ [idx] |> else v in
        let v :=
          if any_input_text mentions_env_delta content
          then v <| delta_positions := delta_positions v ++ [idx] |> else v in
        if any_input_text mentions_browser_snapshot content
        then v <| snapshot_positions := snapshot_positions v ++ [idx] |> else v
  | _ => v
  end.

(** [items.iter().enumerate()] *)
Definition enumerate (items : list item) : list (nat * item) := imap pair items.

Definition scan (items : list item) : scanned :=
  fold_left scan_item (enumerate items) (Scanned [] [] [] [] []).

(** [if let Some(ResponseItem::Message { content, .. }) = items.get(i)]: an image there *)
Definition image_at (items : list item) (i : nat) : bool :=
  match items !! i with
  | Some (Message _ content _) => has_image content
  | _ => false
  end.

(** The loop over the last two real user messages: the first status message with an image
    after each. *)
Definition screenshots_to_keep (items : list item) (v : scanned) : gset nat :=
  fold_left (fun keep user_idx =>
      match List.find (fun status_idx => (user_idx <? status_idx)%nat &&
                                         image_at items status_idx) (status_positions v) with
      | Some status_idx => {[ status_idx ]} ∪ keep
      | None => keep
      end)
    (take 2 (reverse (real_positions v))) ∅.

Definition baseline_to_keep (v : scanned) : option nat := last (baseline_positions v).

Definition env_deltas_to_keep (v : scanned) : gset nat :=
  list_to_set (take MAX_ENV_DELTAS (reverse (delta_positions v))).

Definition browser_snapshots_to_keep (v : scanned) : gset nat :=
  list_to_set (take MAX_BROWSER_SNAPSHOTS (reverse (snapshot_positions v))).

Definition keep (items : list item) (v : scanned) (idx : nat) : bool :=
  if bool_decide (idx ∈ status_positions v) then
    bool_decide (idx ∈ screenshots_to_keep items v) ||
    bool_decide (idx ∈ browser_snapshots_to_keep v) ||
    bool_decide (baseline_to_keep v = Some idx) ||
    bool_decide (idx ∈ env_deltas_to_keep v)
  else true.

(** The variables of the last loop: [items_to_keep], [removed_screenshots] and
    [removed_status]. *)
Definition prune_step (items : list item) (v : scanned) (st : list item * N * N)
    (entry : nat * item) : list item * N * N :=
  let '(kept, screenshots, status) := st in
  let '(idx, i) := entry in
  if keep items v idx then (kept ++ [i], screenshots, status)
  else
    match i with
    | Message _ content _ =>
        if has_image content then (kept, (screenshots + 1)%N, status)
        else (kept, screenshots, (status + 1)%N)
    | _ => (kept, screenshots, status)
    end.

Definition prune_history_items_owned (items : list item) : list item * cleanup_stats :=
  let v := scan items in
  let '(kept, screenshots, status) :=
    fold_left (prune_step items v) (enumerate items) ([], 0%N, 0%N) in
  (kept,
   CleanupStats screenshots status
     (vec_len (baseline_positions v) -
      match baseline_to_keep v with Some _ => 1 | None => 0 end)
     (vec_len (delta_positions v) - N.of_nat (size (env_deltas_to_keep v)))
     (vec_len (snapshot_positions v) - N.of_nat (size (browser_snapshots_to_keep v)))
     (N.of_nat (size (screenshots_to_keep items v)))
     (N.of_nat (size (env_deltas_to_keep v)))
     (N.of_nat (size (browser_snapshots_to_keep v)))).

(** ** [cleanup_old_status_items] *)

Definition legacy_stats (s : retention_stats) : cleanup_stats :=
  CleanupStats (removed_screenshots s) (removed_status s) (removed_env_baselines s)
    (removed_env_deltas s) (removed_browser_snapshots s) (kept_recent_screenshots s)
    (kept_env_deltas s) (kept_browser_snapshots s).

Definition cleanup_old_status_items
    (to_json : list function_call_output_content_item -> option str)
    (env_ctx_v2 : bool) (policy : retention_policy) (h : conversation_history opaque)
    : conversation_history opaque * cleanup_stats :=
  let '(current, h) := take_contents h in
  let '(items_to_keep, stats) :=
    if env_ctx_v2 then
      let '(kept, s) := apply_retention_policy_owned to_json current policy in
      (kept, legacy_stats s)
    else prune_history_items_owned current in
  (replace_filtered items_to_keep h, stats).

(** ** Specification *)

Definition user_content (p : list content_item -> bool) (i : item) : bool :=
  match i with
  | Message role content _ => str_eqb role (lit "user") && p content
  | _ => false
  end.

(** What the first loop looks for in an item. *)
Definition is_real_message : item -> bool := user_content (fun c =>
  any_input_text is_real_text c && negb (any_input_text mentions_status c) &&
  negb (has_image c)).
Definition is_status_item : item -> bool :=
  user_content (fun c => any_input_text mentions_status c || has_image c).
Definition is_screenshot : item -> bool := user_content has_image.
Definition is_baseline : item -> bool := user_content (any_input_text mentions_env_baseline).
Definition is_delta : item -> bool := user_content (any_input_text mentions_env_delta).
Definition is_snapshot : item -> bool :=
  user_content (any_input_text mentions_browser_snapshot).

Definition at_position (test : item -> bool) (items : list item) (i : nat) : Prop :=
  exists x, items !! i = Some x /\ test x = true.

(** The item at [i] passes the test and fewer than [n] later ones do. *)
Definition among_last (n : nat) (test : item -> bool) (items : list item) (i : nat) : Prop :=
  at_position test items i /\
  length (filter (fun x => test x = true) (drop (S i) items)) < n.

(** The first screenshot after one of the last two real user messages. *)
Definition recent_screenshot (items : list item) (i : nat) : Prop :=
  exists u, among_last 2 is_real_message items u /\ u < i /\
    at_position is_screenshot items i /\
    forall j, u < j < i -> ~ at_position is_screenshot items j.

Definition kept_at (items : list item) (i : nat) : Prop :=
  at_position is_status_item items i ->
  among_last 1 is_baseline items i \/ among_last 3 is_delta items i \/
  among_last 2 is_snapshot items i \/ recent_screenshot items i.

(** The items at the positions that a test accepts. *)
Definition pick (p : nat -> bool) (items : list item) : list item :=
  snd <$> filter (fun e => p e.1 = true) (enumerate items).

End cleanup.

(** ** Lemmas on positions *)

Section positions.
Context {opaque : Type}.
Notation item := (response_item opaque).
Implicit Types (test : item -> bool) (items : list item).

Definition indices test items : list nat :=
  fst <$> filter (fun e => test e.2 = true) (enumerate items).

Lemma enumerate_snoc items x : enumerate (items ++ [x]) = enumerate items ++ [(length items, x)].
Proof. unfold enumerate. rewrite imap_app. simpl. by rewrite Nat.add_0_r. Qed.

Lemma indices_snoc test items x :
  indices test (items ++ [x]) =
  indices test items ++ (if test x then [length items] else []).
Proof.
  unfold indices. rewrite enumerate_snoc, filter_app, fmap_app. f_equal.
  rewrite filter_cons. cbn. by destruct (test x).
Qed.

Lemma elem_enumerate items i x : (i, x) ∈ enumerate items <-> items !! i = Some x.
Proof.
  unfold enumerate. rewrite elem_of_lookup_imap. split; [intros (? & ? & [= <- <-] & ?)|]; eauto.
Qed.

Lemma elem_indices test items i : i ∈ indices test items <-> at_position test items i.
Proof.
  unfold indices, at_position. rewrite list_elem_of_fmap. split.
  - intros ([j x] & -> & [Ht He]%list_elem_of_filter). exists x. by rewrite elem_enumerate in He.
  - intros (x & Hx & Ht). exists (i, x). split; [done|]. rewrite list_elem_of_filter.
    by rewrite elem_enumerate.
Qed.

Lemma at_position_lt test items i : at_position test items i -> i < length items.
Proof. intros (x & Hx & _). by apply lookup_lt_Some in Hx. Qed.

Lemma indices_sorted test items : StronglySorted lt (indices test items).
Proof.
  induction items as [|x items IH] using rev_ind; [constructor|]. rewrite indices_snoc.
  apply StronglySorted_app_2; [|done|destruct (test x); by repeat constructor].
  intros i j Hi Hj. apply elem_indices, at_position_lt in Hi. destruct (test x); [|by inversion Hj].
  by apply list_elem_of_singleton in Hj as ->.
Qed.

Lemma later_count test items i :
  length (filter (fun j => i < j) (indices test items)) =
  length (filter (fun x => test x = true) (drop (S i) items)).
Proof.
  induction items as [|x items IH] using rev_ind; [by destruct i|].
  rewrite indices_snoc, filter_app, length_app, IH.
  destruct (decide (i < length items)).
  - rewrite drop_app_le, filter_app, length_app by lia. f_equal.
    rewrite (filter_cons _ x), filter_nil. destruct (test x); [|by destruct (decide _)].
    rewrite filter_cons, filter_nil. by repeat (destruct (decide _); [|done]).
  - rewrite !drop_ge by (rewrite ?length_app; simpl; lia). rewrite Nat.add_0_l.
    destruct (test x); [|done]. rewrite filter_cons. by destruct (decide _).
Qed.

Lemma filter_none_nil {A} (P : A -> Prop) `{!forall x, Decision (P x)} (l : list A) :
  (forall x, x ∈ l -> ~ P x) -> filter P l = [].
Proof.
  intros Hn. apply elem_of_nil_inv. intros x [Hp Hx]%list_elem_of_filter. by apply (Hn x).
Qed.

Lemma elem_take_reverse (l : list nat) k i :
  StronglySorted lt l ->
  i ∈ take k (reverse l) <-> i ∈ l /\ length (filter (fun j => i < j) l) < k.
Proof.
  revert k. induction l as [|x l IH] using rev_ind; intros k Hs.
  - change (reverse (@nil nat)) with (@nil nat). rewrite take_nil. split; [by inversion 1|]. intros [H _]. by inversion H.
  - rewrite reverse_snoc. apply StronglySorted_app in Hs as (Hx & Hl & _).
    rewrite elem_of_app, list_elem_of_singleton, filter_app, length_app.
    destruct k as [|k]; [split; [by inversion 1|lia]|]. cbn [take].
    rewrite elem_of_cons, IH by done. rewrite filter_cons.
    assert (Hlt : i ∈ l -> i < x) by (intros Hi; apply Hx; [done|by left]).
    assert (Hz : i = x -> filter (fun j => i < j) l = []).
    { intros ->. apply filter_none_nil. intros j Hj.
      assert (j < x) by (apply Hx; [done|by left]). lia. }
    rewrite filter_nil. destruct (decide (i < x)); cbn [length].
    + split; [intros [->|[Hi Hk]]; [lia|split; [by left|lia]]|].
      intros [[Hi| ->] Hk]; [right; split; [done|lia]|lia].
    + rewrite Nat.add_0_r. split.
      * intros [->|[Hi _]]; [|by apply Hlt in Hi]. rewrite Hz by done. split; [by right|simpl; lia].
      * intros [[Hi| ->] _]; [by apply Hlt in Hi|by left].
Qed.

(** The last [k] positions found are those of the last [k] items that pass the test. *)
Lemma elem_last_positions test items k i :
  i ∈ take k (reverse (indices test items)) <-> among_last k test items i.
Proof.
  rewrite elem_take_reverse by apply indices_sorted. by rewrite elem_indices, later_count.
Qed.

Lemma last_position test items i :
  last (indices test items) = Some i <-> among_last 1 test items i.
Proof.
  rewrite <- elem_last_positions, <- head_reverse.
  destruct (reverse (indices test items)) as [|j l]; simpl.
  - split; [done|]. intros H. by apply elem_of_nil in H.
  - change (take 0 l) with (@nil nat). rewrite list_elem_of_singleton.
    split; [by intros [= ->]|by intros ->].
Qed.

(** The first position of an increasing list that passes a test. *)
Lemma find_first (p : nat -> bool) (l : list nat) i :
  StronglySorted lt l ->
  List.find p l = Some i <-> i ∈ l /\ p i = true /\ forall j, j ∈ l -> j < i -> p j = false.
Proof.
  induction 1 as [|x l Hs IH Hx]; simpl.
  - split; [done|]. intros [H _]. by apply elem_of_nil in H.
  - rewrite elem_of_cons. rewrite Forall_forall in Hx. destruct (p x) eqn:Hp.
    + split.
      * intros [= <-]. split; [by left|]. split; [done|].
        intros j [->|Hj]%elem_of_cons Hlt; [lia|]. apply Hx in Hj. lia.
      * intros ([->|Hi] & Hpi & Hfirst); [done|]. apply Hx in Hi as Hlt.
        by rewrite (Hfirst x) in Hp by (by left || done).
    + rewrite IH. split.
      * intros (Hi & Hpi & Hfirst). split; [by right|]. split; [done|].
        intros j [->|Hj]%elem_of_cons Hlt; auto.
      * intros ([->|Hi] & Hpi & Hfirst); [congruence|]. split; [done|]. split; [done|].
        intros j Hj. apply Hfirst. by right.
Qed.

Lemma scan_spec items :
  scan items =
  Scanned (indices is_real_message items) (indices is_status_item items)
    (indices is_baseline items) (indices is_delta items) (indices is_snapshot items).
Proof.
  unfold scan. induction items as [|x items IH] using rev_ind; [done|].
  rewrite enumerate_snoc, fold_left_app, IH, !indices_snoc. cbn [fold_left scan_item].
  unfold is_real_message, is_status_item, is_baseline, is_delta, is_snapshot.
  destruct x as [| role content rest | | | | | | | | | | | | | | ]; cbn [user_content];
    try by rewrite !app_nil_r.
  destruct (str_eqb role (lit "user")); cbn [negb andb]; [|by rewrite !app_nil_r].
  destruct (any_input_text is_real_text content), (any_input_text mentions_status content),
    (has_image content), (any_input_text mentions_env_baseline content),
    (any_input_text mentions_env_delta content),
    (any_input_text mentions_browser_snapshot content); cbn; by rewrite ?app_nil_r.
Qed.

Lemma image_at_status items i :
  at_position is_status_item items i ->
  image_at items i = true <-> at_position is_screenshot items i.
Proof.
  unfold image_at, at_position, is_status_item, is_screenshot. intros (x & Hx & Hs).
  rewrite Hx. destruct x as [| role content rest | | | | | | | | | | | | | | ]; try done.
  cbn in *. apply andb_true_iff in Hs as [Hr _]. split.
  - intros Hi. eexists. split; [done|]. cbn. by rewrite Hr, Hi.
  - intros (y & [= <-] & Hy). by apply andb_true_iff in Hy as [_ Hy].
Qed.

Lemma screenshot_status items i :
  at_position is_screenshot items i -> at_position is_status_item items i.
Proof.
  intros (x & Hx & Hs). exists x. split; [done|].
  destruct x as [| role content rest | | | | | | | | | | | | | | ]; try done. cbn in *.
  apply andb_true_iff in Hs as [-> ->]. by rewrite orb_true_r.
Qed.

Lemma elem_fold_keep (f : nat -> option nat) us (init : gset nat) i :
  i ∈ fold_left (fun keep u => match f u with Some s => {[ s ]} ∪ keep | None => keep end)
    us init <-> (exists u, u ∈ us /\ f u = Some i) \/ i ∈ init.
Proof.
  revert init. induction us as [|u us IH]; intros init; cbn [fold_left].
  - split; [by right|]. by intros [(u & Hu & _)|H]; [apply elem_of_nil in Hu|].
  - rewrite IH. setoid_rewrite elem_of_cons. destruct (f u) as [j|] eqn:Hf.
    + rewrite elem_of_union, elem_of_singleton. split.
      * intros [(v & Hv & E)|[->|H]]; eauto 6.
      * intros [(v & [->|Hv] & E)|H]; [|by eauto..]. rewrite Hf in E. injection E as ->. eauto.
    + split; [intros [(v & Hv & E)|H]; eauto 6|].
      intros [(v & [->|Hv] & E)|H]; [congruence|by eauto..].
Qed.

Lemma elem_screenshots items i :
  i ∈ screenshots_to_keep items (scan items) <-> recent_screenshot items i.
Proof.
  unfold screenshots_to_keep. rewrite elem_fold_keep, scan_spec.
  cbn [real_positions status_positions]. setoid_rewrite elem_last_positions.
  setoid_rewrite (find_first _ _ _ (indices_sorted is_status_item items)).
  setoid_rewrite elem_indices. unfold recent_screenshot. split.
  - intros [(u & Hu & Hi & Ht & Hfirst)|H]; [|by apply elem_of_empty in H].
    apply andb_true_iff in Ht as [Hlt%Nat.ltb_lt Him]. exists u.
    rewrite image_at_status in Him by done.
    split; [done|]. split; [done|]. split; [done|].
    intros j [Hj1 Hj2] Hj. specialize (Hfirst j (screenshot_status _ _ Hj) Hj2).
    apply andb_false_iff in Hfirst as [Hf%Nat.ltb_ge|Hf]; [lia|].
    rewrite <- image_at_status in Hj by by apply screenshot_status. congruence.
  - intros (u & Hu & Hlt & Hi & Hfirst). left. exists u. split; [done|].
    pose proof (screenshot_status _ _ Hi) as Hs. split; [done|]. split.
    + apply andb_true_iff. rewrite Nat.ltb_lt. split; [done|]. by apply image_at_status.
    + intros j Hj Hji. apply andb_false_iff. destruct (decide (u < j)) as [Huj|]; [right|left].
      * destruct (image_at items j) eqn:E; [|done]. apply image_at_status in E; [|done].
        by destruct (Hfirst j).
      * apply Nat.ltb_ge. lia.
Qed.

Lemma keep_spec items i : keep items (scan items) i = true <-> kept_at items i.
Proof.
  unfold keep, kept_at, baseline_to_keep, env_deltas_to_keep, browser_snapshots_to_keep.
  pose proof (elem_screenshots items i) as Hs. rewrite scan_spec in *.
  cbn [status_positions baseline_positions delta_positions snapshot_positions] in *.
  rewrite <- elem_indices. destruct (decide (i ∈ indices is_status_item items)) as [Hi|Hi].
  - rewrite bool_decide_true by done. rewrite !orb_true_iff, !bool_decide_eq_true.
    rewrite !elem_of_list_to_set, !elem_last_positions, last_position, Hs.
    unfold MAX_ENV_DELTAS, MAX_BROWSER_SNAPSHOTS. tauto.
  - rewrite bool_decide_false by done. tauto.
Qed.

Lemma removed_is_message items i x :
  items !! i = Some x -> keep items (scan items) i = false -> is_status_item x = true.
Proof.
  intros Hx Hk. unfold keep in Hk. destruct (decide (i ∈ status_positions (scan items))) as [Hi|Hi].
  - rewrite scan_spec in Hi. apply elem_indices in Hi as (y & Hy & Ht). congruence.
  - by rewrite bool_decide_false in Hk.
Qed.

(** The last loop picks the kept positions and counts every other item once. *)
Lemma prune_loop items es kept screenshots status :
  Forall (fun e => items !! e.1 = Some e.2) es ->
  exists screenshots' status',
    fold_left (prune_step items (scan items)) es (kept, screenshots, status) =
    (kept ++ (snd <$> filter (fun e => keep items (scan items) e.1 = true) es),
     screenshots', status') /\
    (vec_len kept + screenshots + status + vec_len es)%N =
    (vec_len (kept ++ (snd <$> filter (fun e => keep items (scan items) e.1 = true) es)) +
     screenshots' + status')%N.
Proof.
  intros H. revert kept screenshots status.
  induction H as [|[i x] es Hx H IH]; intros kept screenshots status; cbn [fold_left].
  - exists screenshots, status. rewrite app_nil_r. split; [done|]. change (vec_len []) with 0%N. lia.
  - cbn [prune_step]. rewrite filter_cons. cbn [fst snd] in *.
    destruct (keep items (scan items) i) eqn:Hk; destruct (decide _) as [Hd|Hd]; try done.
    + destruct (IH (kept ++ [x]) screenshots status) as (a & b & -> & E). exists a, b.
      rewrite fmap_cons. cbn [snd]. rewrite <- app_assoc in *. split; [done|].
      cbn [app] in E. rewrite <- E. unfold vec_len. rewrite length_app. simpl. lia.
    + pose proof (removed_is_message items i x Hx Hk) as Hm.
      destruct x as [| role content rest | | | | | | | | | | | | | | ]; try done.
      destruct (has_image content).
      * destruct (IH kept (screenshots + 1)%N status) as (a & b & -> & E). exists a, b.
        split; [done|]. rewrite <- E, vec_len_cons. lia.
      * destruct (IH kept screenshots (status + 1)%N) as (a & b & -> & E). exists a, b.
        split; [done|]. rewrite <- E, vec_len_cons. lia.
Qed.

Lemma prune_spec items :
  let r := prune_history_items_owned items in
  r.1 = pick (keep items (scan items)) items /\
  (vec_len r.1 + cleaned_screenshots r.2 + cleaned_status r.2)%N = vec_len items.
Proof.
  unfold prune_history_items_owned.
  destruct (prune_loop items (enumerate items) [] 0 0) as (a & b & -> & E).
  { apply Forall_forall. intros [i x] Hx. by apply elem_enumerate. }
  cbn [fst snd cleaned_screenshots cleaned_status]. split; [done|].
  cbn [app] in E. etrans; [symmetry; exact E|]. unfold vec_len, enumerate.
  rewrite length_imap. simpl. lia.
Qed.

(** ** What a pick keeps *)

Lemma filter_pick test (p : nat -> bool) items :
  filter (fun x => test x = true) (pick p items) =
  snd <$> filter (fun e => test e.2 = true /\ p e.1 = true) (enumerate items).
Proof.
  unfold pick. rewrite <- list_filter_filter. induction (filter _ (enumerate items)) as [|e es IH];
    [done|]. rewrite fmap_cons, !filter_cons. cbn [snd].
  destruct (test e.2); repeat (destruct (decide _); [|done]); rewrite ?fmap_cons; by f_equal.
Qed.

Lemma enumerate_snd items : snd <$> enumerate items = items.
Proof.
  unfold enumerate. rewrite fmap_imap.
  etrans; [apply (imap_const (fun x => x))|apply list_fmap_id].
Qed.

Lemma pick_sublist (p : nat -> bool) items : sublist (pick p items) items.
Proof.
  unfold pick. rewrite <- (enumerate_snd items) at 2. apply fmap_sublist, sublist_filter.
Qed.

Lemma filter_pick_all test (p : nat -> bool) items :
  (forall i x, items !! i = Some x -> test x = true -> p i = true) ->
  filter (fun x => test x = true) (pick p items) = filter (fun x => test x = true) items.
Proof.
  intros Hp. rewrite filter_pick. rewrite <- (enumerate_snd items) at 2.
  assert (Ha : Forall (fun e => items !! e.1 = Some e.2) (enumerate items)).
  { apply Forall_forall. intros [i x] Hx. by apply elem_enumerate. }
  induction Ha as [|[i x] es Hx Ha IH]; [done|]. cbn [fst snd] in Hx.
  rewrite fmap_cons, !filter_cons. cbn [fst snd]. specialize (Hp i x Hx).
  destruct (test x), (p i); repeat (destruct (decide _)); rewrite ?fmap_cons, ?IH; try done;
    intuition congruence.
Qed.

(** At most [size s] positions are picked among those of a set. *)
Lemma filter_pick_bound test (p : nat -> bool) items (s : gset nat) :
  (forall i, at_position test items i -> p i = true -> i ∈ s) ->
  length (filter (fun x => test x = true) (pick p items)) <= size s.
Proof.
  intros Hs. rewrite filter_pick, length_fmap.
  set (es := filter _ (enumerate items)).
  assert (Hn : NoDup (fst <$> es)).
  { eapply sublist_NoDup; [apply (NoDup_seq 0 (length items))|].
    replace (seq 0 (length items)) with (fst <$> enumerate items).
    - apply fmap_sublist, sublist_filter.
    - unfold enumerate. rewrite fmap_imap. clear. induction items as [|x items IH] using rev_ind.
      + done.
      + rewrite imap_app, length_app, seq_app, IH. simpl. by rewrite Nat.add_0_r. }
  rewrite <- (length_fmap fst es), <- (size_list_to_set (C := gset nat)) by done.
  apply subseteq_size. intros i Hi%elem_of_list_to_set.
  apply list_elem_of_fmap in Hi as ([j x] & -> & [[Ht Hp] He]%list_elem_of_filter).
  apply elem_enumerate in He. apply Hs; [|done]. by exists x.
Qed.
End positions.

(** ** Properties *)

Lemma size_list_to_set_le (l : list nat) : size (list_to_set l : gset nat) <= length l.
Proof.
  induction l as [|i l IH]; cbn [list_to_set]; [by rewrite size_empty|].
  rewrite size_union_alt, size_singleton. simpl.
  assert (size ((list_to_set l : gset nat) ∖ {[i]}) <= size (list_to_set l : gset nat))
    by (apply subseteq_size; set_solver). lia.
Qed.

Lemma size_fold_keep (f : nat -> option nat) us (init : gset nat) :
  size (fold_left (fun keep u => match f u with Some s => {[ s ]} ∪ keep | None => keep end)
    us init) <= length us + size init.
Proof.
  revert init. induction us as [|u us IH]; intros init; cbn [fold_left length]; [lia|].
  etrans; [apply IH|]. destruct (f u) as [j|]; [|lia]. rewrite size_union_alt, size_singleton.
  assert (size (init ∖ {[j]}) <= size init) by (apply subseteq_size; set_solver). lia.
Qed.

Section properties.
Context {opaque : Type}.
Notation item := (response_item opaque).
Implicit Types (items : list item) (h : conversation_history opaque).

(** Not a status message: what pruning always keeps. *)
Definition is_conversation (x : item) : bool := negb (is_status_item x).

Lemma kept_status_bound items :
  length (filter (fun x => is_status_item x = true)
    (pick (keep items (scan items)) items)) <= 8.
Proof.
  set (v := scan items).
  set (b := match baseline_to_keep v with Some i => {[ i ]} | None => ∅ : gset nat end).
  etrans; [apply (filter_pick_bound _ _ _ (screenshots_to_keep items v ∪
    (env_deltas_to_keep v ∪ (browser_snapshots_to_keep v ∪ b))))|].
  - intros i Hi Hk. unfold keep in Hk. rewrite bool_decide_true in Hk.
    + rewrite !orb_true_iff, !bool_decide_eq_true in Hk. rewrite !elem_of_union.
      destruct Hk as [[[Hk|Hk]|Hk]|Hk]; auto. right. right. right. subst b. rewrite Hk.
      by apply elem_of_singleton.
    + subst v. rewrite scan_spec. by apply elem_indices.
  - assert (Hb : size b <= 1).
    { subst b. destruct (baseline_to_keep v); [by rewrite size_singleton|].
      rewrite size_empty. lia. }
    assert (Hs : size (screenshots_to_keep items v) <= 2).
    { unfold screenshots_to_keep. etrans; [apply size_fold_keep|].
      rewrite size_empty, length_take. lia. }
    assert (Hd : size (env_deltas_to_keep v) <= 3).
    { etrans; [apply size_list_to_set_le|]. rewrite length_take. unfold MAX_ENV_DELTAS. lia. }
    assert (Hn : size (browser_snapshots_to_keep v) <= 2).
    { etrans; [apply size_list_to_set_le|]. rewrite length_take.
      unfold MAX_BROWSER_SNAPSHOTS. lia. }
    pose proof (fun x y : gset nat => size_union_alt x y) as Hu.
    assert (Hle : forall x y : gset nat, size (x ∪ y) <= size x + size y).
    { intros x y. rewrite Hu.
      assert (size (y ∖ x) <= size y) by (apply subseteq_size; set_solver). lia. }
    etrans; [apply Hle|]. etrans; [apply Nat.add_le_mono_l, Hle|].
    etrans; [apply Nat.add_le_mono_l, Nat.add_le_mono_l, Hle|]. lia.
Qed.

Lemma filter_comm {A} (f g : A -> bool) (l : list A) :
  filter (fun x => f x = true) (filter (fun x => g x = true) l) =
  filter (fun x => g x = true) (filter (fun x => f x = true) l).
Proof. rewrite !list_filter_filter. apply list_filter_iff. tauto. Qed.

Lemma conversation_kept items :
  filter (fun x => is_conversation x = true) (pick (keep items (scan items)) items) =
  filter (fun x => is_conversation x = true) items.
Proof.
  apply filter_pick_all. intros i x Hx Hc. apply keep_spec. intros (y & Hy & Hs).
  unfold is_conversation in Hc. rewrite Hx in Hy. injection Hy as <-. by rewrite Hs in Hc.
Qed.

(** Pruning keeps, in order, the items at exactly the positions that the
    specification keeps: every item that is not a status message, the latest baseline, the
    last three deltas, the last two browser snapshots and the first screenshot after each
    of the last two user messages.  So at most eight status messages remain, and every
    item is either kept or counted as removed. *)
Theorem prune_outcome items :
  let r := prune_history_items_owned items in
  (exists p, r.1 = pick p items /\ forall i, p i = true <-> kept_at items i) /\
  filter (fun x => is_conversation x = true) r.1 =
    filter (fun x => is_conversation x = true) items /\
  length (filter (fun x => is_status_item x = true) r.1) <= 8 /\
  (vec_len r.1 + cleaned_screenshots r.2 + cleaned_status r.2)%N = vec_len items.
Proof.
  cbv zeta. destruct (prune_spec items) as [-> E]. split; [|split; [|split]].
  - eexists. split; [done|]. intros i. apply keep_spec.
  - apply conversation_kept.
  - apply kept_status_bound.
  - exact E.
Qed.

(** Cleaning the transcript when a user message arrives leaves a sublist of the
    transcript with only items that may be sent to the model.  Without the new environment
    context it keeps every such item that is not a status message. *)
Theorem cleanup_outcome to_json env_ctx_v2 policy h :
  (env_ctx_v2 = true ->
   total (estimate_item_size to_json) (items h) + vec_len (items h) < 2 ^ 64)%N ->
  let h' := (cleanup_old_status_items to_json env_ctx_v2 policy h).1 in
  Forall (fun x => is_api_message x = true) (items h') /\ sublist (items h') (items h) /\
  (env_ctx_v2 = false ->
   filter (fun x => is_conversation x = true) (items h') =
   filter (fun x => is_conversation x = true)
     (filter (fun x => is_api_message x = true) (items h)) /\
   length (filter (fun x => is_status_item x = true) (items h')) <= 8).
Proof.
  intros H. unfold cleanup_old_status_items. cbn [take_contents].
  set (r := if env_ctx_v2 then _ else _).
  assert (Hr : (let '(kept, stats) := r in (replace_filtered kept (ConversationHistory []), stats))
    = (replace_filtered r.1 (ConversationHistory []), r.2)) by by destruct r.
  rewrite Hr. cbn [fst]. unfold replace_filtered. cbn [items]. rewrite push_api_all. cbn [app].
  split; [|split].
  - apply Forall_forall. by intros x [Hx _]%list_elem_of_filter.
  - etrans; [apply sublist_filter|]. subst r. destruct env_ctx_v2.
    + rewrite apply_owned_spec by auto. cbn [fst].
      etrans; [apply within_sublist|apply retained_sublist].
    + destruct (prune_spec (items h)) as [-> _]. apply pick_sublist.
  - intros ->. subst r. destruct (prune_spec (items h)) as [-> _].
    rewrite filter_comm, conversation_kept. split; [apply filter_comm|].
    etrans; [|apply (kept_status_bound (items h))].
    rewrite filter_comm. apply length_filter.
Qed.

(** A user message with an image counts as a screenshot whatever its text says: once
    the user has sent another message, pruning removes it, text included. *)
Theorem image_message_forgotten to_json policy text image next r1 r2 :
  is_real_text text = true -> is_real_text next = true ->
  let h := ConversationHistory [
    Message (lit "user") [InputText text; InputImage image] r1;
    Message (lit "user") [InputText next] r2 : item] in
  items (cleanup_old_status_items to_json false policy h).1 =
    [Message (lit "user") [InputText next] r2].
Proof.
  intros H1 H2 h. unfold cleanup_old_status_items, prune_history_items_owned.
  assert (Hm : forall t, is_real_text t = true -> mentions_status t = false /\
    mentions_env_baseline t = false /\ mentions_env_delta t = false /\
    mentions_browser_snapshot t = false).
  { intros t Ht. unfold is_real_text in Ht. rewrite !andb_true_iff, !negb_true_iff in Ht.
    destruct Ht as ((((((E1 & E2) & E3) & _) & E4) & E5) & E6).
    unfold mentions_status, mentions_system_status, mentions_env_baseline, mentions_env_delta,
      mentions_browser_snapshot. by rewrite E1, E2, E3, E4, E5, E6. }
  destruct (Hm text H1) as (A1 & A2 & A3 & A4), (Hm next H2) as (B1 & B2 & B3 & B4).
  assert (Hs : scan (items h) = Scanned [1] [0] [] [] []).
  { change (scan (items h)) with (scan_item (scan_item (Scanned [] [] [] [] [])
      (0, Message (lit "user") [InputText text; InputImage image] r1))
      (1, Message (lit "user") [InputText next] r2)).
    unfold scan_item, any_input_text, has_image. cbn [existsb].
    change (str_eqb (lit "user") (lit "user")) with true.
    by rewrite H1, H2, A1, A2, A3, A4, B1, B2, B3, B4. }
  cbn [take_contents]. rewrite Hs. reflexivity.
Qed.
End properties.

(** ** Runs *)

Module CleanupRuns.
Definition session : conversation_history unit := ConversationHistory [
  Message (lit "system") [InputText (lit "rules")] ();
  Message (lit "user") [InputText (lit "== System Status ==")] ();
  Message (lit "user") [InputText (lit "hello")] () ].

Lemma cleanup_outcome_witness :
  Forall (fun x => is_api_message x = true) (items
    (cleanup_old_status_items (fun _ => None) true default_policy session).1).
Proof.
  apply (cleanup_outcome (fun _ => None) true default_policy session). intros _. by vm_compute.
Defined.

Lemma image_message_forgotten_witness :
  length (items (cleanup_old_status_items (fun _ => None) false default_policy
    (ConversationHistory [
      Message (lit "user") [InputText (lit "see this"); InputImage (lit "data:")] ();
      Message (lit "user") [InputText (lit "and now?")] ()])).1) = 1.
Proof. by rewrite image_message_forgotten by by vm_compute. Defined.
End CleanupRuns.
