(* ===== verification/Truncation.v ===== *)
(** * Truncating the middle of a text

    [core/src/truncate.rs] ([truncate_middle], for compaction) and
    [truncate_middle_bytes] of [core/src/codex/streaming.rs] (for tool output): both keep
    the beginning and the end of a text that is too long, around a marker.  Budgets are
    in bytes while a [str] is a list of characters, so positions are byte offsets that
    have to fall between characters; a slice at any other offset panics ([None]). *)

From stdpp Require Import base list.
From S2P Require Import Prelude.

(** ** Byte offsets *)

(** [s.get(..n)] *)
Fixpoint byte_prefix (n : nat) (s : str) {struct s} : option str :=
  match n, s with
  | 0, _ => Some []
  | _, [] => None
  | _, c :: s => if n <? char_len c then None else cons c <$> byte_prefix (n - char_len c) s
  end.

(** [s.get(n..)] *)
Fixpoint byte_suffix (n : nat) (s : str) {struct s} : option str :=
  match n, s with
  | 0, _ => Some s
  | _, [] => None
  | _, c :: s => if n <? char_len c then None else byte_suffix (n - char_len c) s
  end.

Definition is_char_boundary (s : str) (n : nat) : bool :=
  match byte_suffix n s with Some _ => true | None => false end.

(** [s.rfind('\n')] and [s.find('\n')] *)
Fixpoint rfind_newline (s : str) : option nat :=
  match s with
  | [] => None
  | c :: s =>
      match rfind_newline s with
      | Some i => Some (char_len c + i)
      | None => if (c =? LF)%N then Some 0 else None
      end
  end.

Fixpoint find_newline (s : str) : option nat :=
  match s with
  | [] => None
  | c :: s => if (c =? LF)%N then Some 0 else Nat.add (char_len c) <$> find_newline s
  end.

(** [while end > 0 && !s.is_char_boundary(end) { end -= 1 }] *)
Fixpoint boundary_before (s : str) (end_ : nat) : nat :=
  match end_ with
  | 0 => 0
  | S before => if is_char_boundary s end_ then end_ else boundary_before s before
  end.

(** [while start < s.len() && !s.is_char_boundary(start) { start += 1 }], with the
    distance to the end. *)
Fixpoint boundary_after (s : str) (start room : nat) : nat :=
  match room with
  | 0 => start
  | S room => if is_char_boundary s start then start else boundary_after s (S start) room
  end.

(** ** [truncate_middle] *)

Definition div_ceil4 (n : nat) : nat := (n + 3) / 4.

Definition ELLIPSIS_CHAR : char := 8230%N.

(** [format!("…{tokens} tokens truncated…")] *)
Definition token_marker (tokens : nat) : str :=
  [ELLIPSIS_CHAR] ++ show_nat tokens ++ lit " tokens truncated" ++ [ELLIPSIS_CHAR].

Definition truncate_on_boundary (input : str) (max_len : nat) : option str :=
  if str_len input <=? max_len then Some input
  else byte_prefix (boundary_before input max_len) input.

Definition pick_prefix_end (s : str) (left_budget : nat) : option nat :=
  match byte_prefix left_budget s ≫= rfind_newline with
  | Some i => Some (i + 1)
  | None => str_len <$> truncate_on_boundary s left_budget
  end.

Definition pick_suffix_start (s : str) (right_budget : nat) : nat :=
  let start_tail := str_len s - right_budget in
  match byte_suffix start_tail s ≫= find_newline with
  | Some i => start_tail + i + 1
  | None =>
      let idx := start_tail `min` str_len s in boundary_after s idx (str_len s - idx)
  end.

(** The two positions for a budget. *)
Definition positions (s : str) (keep_budget : nat) : option (nat * nat) :=
  let left_budget := keep_budget / 2 in
  let right_budget := keep_budget - left_budget in
  prefix_end ← pick_prefix_end s left_budget;
  Some (prefix_end, pick_suffix_start s right_budget).

(** The pieces put together: [&s[..prefix_end]], the marker, [&s[suffix_start..]]. *)
Definition cut (s : str) (prefix_end suffix_start : nat) (marker : str) : option str :=
  head ← byte_prefix prefix_end s;
  tail ← byte_suffix suffix_start s;
  Some (head ++ marker ++ [LF] ++ tail).

(** The loop [for _ in 0..4]: a returned text, or the last guess. *)
Fixpoint guess_loop (rounds : nat) (s : str) (max_bytes est_tokens guess_tokens : nat)
    : option (str + nat) :=
  match rounds with
  | 0 => Some (inr guess_tokens)
  | S rounds =>
      let marker := token_marker guess_tokens in
      let keep_budget := max_bytes - str_len marker in
      if keep_budget =? 0 then Some (inl (token_marker est_tokens))
      else
        pos ← positions s keep_budget;
        let '(prefix_end, suffix_start) := pos in
        let suffix_start := if suffix_start <? prefix_end then prefix_end else suffix_start in
        let kept_content_bytes := prefix_end + (str_len s - suffix_start) in
        let new_tokens := div_ceil4 (str_len s - kept_content_bytes) in
        if new_tokens =? guess_tokens then inl <$> cut s prefix_end suffix_start marker
        else guess_loop rounds s max_bytes est_tokens new_tokens
  end.

Definition truncate_middle (s : str) (max_bytes : nat) : option (str * option nat) :=
  if str_len s <=? max_bytes then Some (s, None)
  else
    let est_tokens := div_ceil4 (str_len s) in
    if max_bytes =? 0 then Some (token_marker est_tokens, Some est_tokens)
    else
      guessed ← guess_loop 4 s max_bytes est_tokens est_tokens;
      match guessed with
      | inl out => Some (out, Some est_tokens)
      | inr guess_tokens =>
          let marker := token_marker guess_tokens in
          let keep_budget := max_bytes - str_len marker in
          if keep_budget =? 0 then Some (token_marker est_tokens, Some est_tokens)
          else
            pos ← positions s keep_budget;
            out ← cut s pos.1 pos.2 marker;
            Some (out, Some est_tokens)
      end.

(** ** [truncate_middle_bytes] *)

Definition TRUNCATION_MARKER : str := [ELLIPSIS_CHAR] ++ lit "truncated" ++ [ELLIPSIS_CHAR; LF].

(** The text, whether it was truncated, and the end and start of what is kept. *)
Definition truncate_middle_bytes (s : str) (max_bytes : nat) : option (str * bool * nat * nat) :=
  if str_len s <=? max_bytes then Some (s, false, str_len s, str_len s)
  else if max_bytes =? 0 then Some (trim_end TRUNCATION_MARKER, true, 0, str_len s)
  else
    let keep := max_bytes - str_len TRUNCATION_MARKER in
    let left_budget := keep / 2 in
    let right_budget := keep - left_budget in
    let prefix_end :=
      let end_ := left_budget `min` str_len s in
      boundary_before s
        (match byte_prefix end_ s ≫= rfind_newline with Some i => i + 1 | None => end_ end) in
    let suffix_start :=
      let start := str_len s - right_budget in
      let start :=
        match byte_suffix start s ≫= find_newline with Some i => start + (i + 1) | None => start end in
      boundary_after s start (str_len s - start) in
    head ← byte_prefix prefix_end s;
    tail ← byte_suffix suffix_start s;
    Some (head ++ TRUNCATION_MARKER ++ tail, true, prefix_end, suffix_start).

(** ** Lemmas: offsets between characters *)

Lemma char_len_pos c : 1 <= char_len c.
Proof. unfold char_len. repeat case_match; lia. Qed.

Lemma str_len_cons c s : str_len (c :: s) = char_len c + str_len s.
Proof. done. Qed.

Lemma str_len_app s t : str_len (s ++ t) = str_len s + str_len t.
Proof.
  induction s as [|c s IH]; [done|]. cbn [app]. rewrite !str_len_cons, IH. lia.
Qed.

(** An offset between two characters. *)
Definition boundary (s : str) (n : nat) : Prop := exists p q, s = p ++ q /\ str_len p = n.

Lemma boundary_0 s : boundary s 0.
Proof. by exists [], s. Qed.

Lemma boundary_len s : boundary s (str_len s).
Proof. exists s, []. by rewrite app_nil_r. Qed.

Lemma boundary_cons c s n : n <> 0 ->
  boundary (c :: s) n <-> char_len c <= n /\ boundary s (n - char_len c).
Proof.
  intros Hn. split.
  - intros ([|d p] & q & E & Hp); [done|]. injection E as <- ->.
    rewrite str_len_cons in Hp. split; [lia|]. exists p, q. split; [done|lia].
  - intros (Hc & p & q & -> & Hp). exists (c :: p), q. split; [done|].
    rewrite str_len_cons. lia.
Qed.

(** Both slices exist exactly at boundaries. *)
Lemma byte_suffix_spec n s q :
  byte_suffix n s = Some q <-> exists p, s = p ++ q /\ str_len p = n.
Proof.
  revert n. induction s as [|c s IH]; intros [|n]; cbn [byte_suffix].
  - split; [intros [= <-]; by exists []|]. by intros ([|? ?] & [= <-] & _).
  - split; [done|]. by intros ([|? ?] & [= <-] & H).
  - split; [intros [= <-]; by exists []|].
    intros ([|d p] & E & H); [by rewrite E|]. rewrite str_len_cons in H.
    pose proof (char_len_pos d). lia.
  - destruct (Nat.ltb_spec (S n) (char_len c)).
    + split; [done|]. intros ([|d p] & E & Hp); [done|]. injection E as <- ->.
      rewrite str_len_cons in Hp. lia.
    + rewrite IH. split.
      * intros (p & -> & Hp). exists (c :: p). split; [done|]. rewrite str_len_cons. lia.
      * intros ([|d p] & E & Hp); [done|]. injection E as <- ->. rewrite str_len_cons in Hp.
        exists p. split; [done|lia].
Qed.

Lemma byte_prefix_spec n s p :
  byte_prefix n s = Some p <-> exists q, s = p ++ q /\ str_len p = n.
Proof.
  revert n p. induction s as [|c s IH]; intros [|n] p; cbn [byte_prefix].
  - split; [intros [= <-]; by exists []|]. intros (q & E & _). by destruct p.
  - split; [done|]. intros (q & E & H). by destruct p.
  - split; [intros [= <-]; by exists (c :: s)|]. intros (q & E & H). destruct p as [|d p]; [done|].
    rewrite str_len_cons in H. pose proof (char_len_pos d). lia.
  - destruct (Nat.ltb_spec (S n) (char_len c)).
    + split; [done|]. intros (q & E & Hp). destruct p as [|d p]; [done|]. injection E as <- ->.
      rewrite str_len_cons in Hp. lia.
    + rewrite fmap_Some. setoid_rewrite IH. split.
      * intros (p' & (q & -> & Hp) & ->). exists q. split; [done|]. rewrite str_len_cons. lia.
      * intros (q & E & Hp). destruct p as [|d p]; [done|]. injection E as <- ->.
        rewrite str_len_cons in Hp. exists p. split; [|done]. exists q. split; [done|lia].
Qed.

Lemma is_char_boundary_spec s n : is_char_boundary s n = true <-> boundary s n.
Proof.
  unfold is_char_boundary. destruct (byte_suffix n s) as [q|] eqn:E.
  - split; [|done]. intros _. apply byte_suffix_spec in E as (p & -> & <-). by exists p, q.
  - split; [done|]. intros (p & q & H). assert (byte_suffix n s = Some q) as E'
      by (apply byte_suffix_spec; by exists p). congruence.
Qed.

(** The pieces between two boundaries, and the slices that give them. *)
Lemma boundary_split s a b : boundary s a -> boundary s b -> a <= b ->
  exists p mid q, s = p ++ mid ++ q /\ str_len p = a /\ str_len (p ++ mid) = b /\
    byte_prefix a s = Some p /\ byte_suffix b s = Some q.
Proof.
  intros (p & r & -> & <-) (t & q & E & <-) Hle.
  assert (exists mid, t = p ++ mid) as [mid ->].
  { clear -E Hle. revert t E Hle. induction p as [|c p IH]; intros t E Hle; [by exists t|].
    destruct t as [|d t].
    - rewrite str_len_cons in Hle. pose proof (char_len_pos c). cbn in Hle. lia.
    - injection E as <- E. rewrite !str_len_cons in Hle.
      destruct (IH t E) as [mid ->]; [lia|]. by exists mid. }
  rewrite <- app_assoc in E. apply app_inv_head in E as ->.
  exists p, mid, q. split_and!; [done..| |].
  - apply byte_prefix_spec. by exists (mid ++ q).
  - apply byte_suffix_spec. exists (p ++ mid). by rewrite <- app_assoc.
Qed.

Lemma boundary_le s n : boundary s n -> n <= str_len s.
Proof. intros (p & q & -> & <-). rewrite str_len_app. lia. Qed.

Lemma boundary_before_spec s e :
  boundary s (boundary_before s e) /\ boundary_before s e <= e.
Proof.
  induction e as [|e IH]; cbn [boundary_before]; [split; [apply boundary_0|lia]|].
  destruct (is_char_boundary s (S e)) eqn:E; [|split; [apply IH|lia]].
  split; [by apply is_char_boundary_spec|lia].
Qed.

(** A boundary is near every offset. *)
Lemma boundary_near (text : str) n : n <= str_len text -> exists b, boundary text b /\ b <= n <= b + 3.
Proof.
  revert n. induction text as [|c text IH]; intros n Hn.
  - change (str_len []) with 0 in Hn. exists 0. split; [apply boundary_0|lia].
  - rewrite str_len_cons in Hn. assert (char_len c <= 4) as Hc
      by (unfold char_len; repeat case_match; lia).
    destruct (decide (n < char_len c)).
    + exists 0. split; [apply boundary_0|lia].
    + destruct (IH (n - char_len c)) as (b & (p & q & -> & Hp) & Hb); [lia|].
      exists (char_len c + b). split; [|lia]. exists (c :: p), q. split; [done|].
      rewrite str_len_cons. lia.
Qed.

Lemma boundary_before_id s e : boundary s e -> boundary_before s e = e.
Proof. destruct e as [|e]; [done|]. cbn [boundary_before]. by intros ->%is_char_boundary_spec. Qed.

Lemma boundary_after_spec s start room : start + room = str_len s ->
  boundary s (boundary_after s start room) /\
  start <= boundary_after s start room <= str_len s.
Proof.
  revert start. induction room as [|room IH]; intros start H; cbn [boundary_after].
  - rewrite <- H, Nat.add_0_r. split; [|lia]. replace start with (str_len s) by lia.
    apply boundary_len.
  - destruct (is_char_boundary s start) eqn:E.
    + split; [by apply is_char_boundary_spec|lia].
    + destruct (IH (S start)); [lia|]. split; [done|lia].
Qed.

Lemma boundary_after_id s start room : boundary s start -> boundary_after s start room = start.
Proof. destruct room; [done|]. cbn [boundary_after]. by intros ->%is_char_boundary_spec. Qed.

(** Where the newlines are. *)
Lemma rfind_newline_spec s i : rfind_newline s = Some i ->
  exists a b, s = a ++ LF :: b /\ str_len a = i.
Proof.
  revert i. induction s as [|c s IH]; intros i; cbn [rfind_newline]; [done|].
  destruct (rfind_newline s) as [j|] eqn:E.
  - intros [= <-]. destruct (IH j eq_refl) as (a & b & -> & <-). by exists (c :: a), b.
  - destruct (N.eqb_spec c LF) as [->|]; [|done]. intros [= <-]. by exists [], s.
Qed.

Lemma find_newline_spec s i : find_newline s = Some i ->
  exists a b, s = a ++ LF :: b /\ str_len a = i.
Proof.
  revert i. induction s as [|c s IH]; intros i; cbn [find_newline]; [done|].
  destruct (N.eqb_spec c LF) as [->|]; [intros [= <-]; by exists [], s|].
  intros (j & E & ->)%fmap_Some. destruct (IH j E) as (a & b & -> & <-). by exists (c :: a), b.
Qed.

(** After the last newline of a prefix, and after the first one of a suffix. *)
Lemma after_last_newline s n i : byte_prefix n s ≫= rfind_newline = Some i ->
  boundary s (i + 1) /\ i + 1 <= n.
Proof.
  intros (p & Hp & Hi)%bind_Some. apply byte_prefix_spec in Hp as (q & -> & <-).
  apply rfind_newline_spec in Hi as (a & b & -> & <-).
  rewrite str_len_app, str_len_cons. change (char_len LF) with 1. split; [|lia].
  exists (a ++ [LF]), (b ++ q). rewrite <- !app_assoc. split; [done|].
  by rewrite str_len_app.
Qed.

Lemma after_first_newline s n i : byte_suffix n s ≫= find_newline = Some i ->
  boundary s (n + i + 1) /\ n <= n + i + 1 <= str_len s.
Proof.
  intros (q & Hq & Hi)%bind_Some. apply byte_suffix_spec in Hq as (p & -> & <-).
  apply find_newline_spec in Hi as (a & b & -> & <-).
  rewrite !str_len_app, str_len_cons. change (char_len LF) with 1. split; [|lia].
  exists (p ++ a ++ [LF]), b. rewrite <- !app_assoc. split; [done|].
  rewrite !str_len_app. change (str_len [LF]) with 1. lia.
Qed.

(** ** Lemmas: the two positions *)

Lemma pick_prefix_end_spec s n : n <= str_len s ->
  exists e, pick_prefix_end s n = Some e /\ boundary s e /\ e <= n.
Proof.
  intros Hn. unfold pick_prefix_end. destruct (byte_prefix n s ≫= rfind_newline) as [i|] eqn:E.
  - apply after_last_newline in E. by exists (i + 1).
  - unfold truncate_on_boundary. destruct (Nat.leb_spec (str_len s) n) as [Hl|Hl].
    + exists (str_len s). split_and!; [done|apply boundary_len|done].
    + destruct (boundary_before_spec s n) as [Hb Hle].
      destruct (boundary_split s _ _ Hb Hb) as (p & mid & q & _ & Hp & _ & -> & _); [done|].
      exists (boundary_before s n). split; [cbn; by rewrite Hp|done].
Qed.

Lemma pick_suffix_start_spec s n :
  boundary s (pick_suffix_start s n) /\ str_len s - n <= pick_suffix_start s n.
Proof.
  unfold pick_suffix_start. destruct (byte_suffix (str_len s - n) s ≫= find_newline) as [i|] eqn:E.
  - apply after_first_newline in E as [? ?]. split; [done|lia].
  - destruct (boundary_after_spec s ((str_len s - n) `min` str_len s)
      (str_len s - (str_len s - n) `min` str_len s)); [lia|]. split; [done|lia].
Qed.

(** With a budget below the length the two pieces do not touch. *)
Lemma positions_spec s keep : keep < str_len s ->
  exists p mid q, s = p ++ mid ++ q /\ str_len p + str_len q <= keep /\
    positions s keep = Some (str_len p, str_len (p ++ mid)) /\
    forall marker, cut s (str_len p) (str_len (p ++ mid)) marker = Some (p ++ marker ++ [LF] ++ q).
Proof.
  intros Hk. pose proof (Nat.div_le_upper_bound keep 2 keep ltac:(lia) ltac:(lia)) as Hh.
  destruct (pick_prefix_end_spec s (keep / 2)) as (e & E & Hb & He); [lia|].
  destruct (pick_suffix_start_spec s (keep - keep / 2)) as [Hb' Hs].
  destruct (boundary_split s _ _ Hb Hb') as (p & mid & q & Hpq & Hp & Hm & Ep & Eq); [lia|].
  exists p, mid, q. unfold positions, cut. rewrite E, Hp, Hm. cbn [mbind option_bind].
  rewrite Ep, Eq. split_and!; [done| |done|done].
  assert (str_len s = str_len (p ++ mid) + str_len q) by (by rewrite Hpq, app_assoc, str_len_app).
  lia.
Qed.

Lemma div_ceil4_le a b : a <= b -> div_ceil4 a <= div_ceil4 b.
Proof. intros H. apply Nat.Div0.div_le_mono. lia. Qed.

(** What a truncated text looks like: its beginning and its end around a marker, within the
    budget but for the line feed after the marker; or the bare marker, when the budget has
    no room besides a marker. *)
Definition truncated (s : str) (max_bytes : nat) (out : str) : Prop :=
  (exists p mid q tokens, s = p ++ mid ++ q /\ tokens <= div_ceil4 (str_len s) /\
     out = p ++ token_marker tokens ++ [LF] ++ q /\ str_len out <= max_bytes + 1) \/
  (out = token_marker (div_ceil4 (str_len s)) /\
   exists tokens, tokens <= div_ceil4 (str_len s) /\ max_bytes <= str_len (token_marker tokens)).

Lemma cut_truncated s max_bytes tokens keep :
  keep = max_bytes - str_len (token_marker tokens) -> keep <> 0 ->
  max_bytes < str_len s -> tokens <= div_ceil4 (str_len s) ->
  exists p mid q, s = p ++ mid ++ q /\
    positions s keep = Some (str_len p, str_len (p ++ mid)) /\
    exists out, cut s (str_len p) (str_len (p ++ mid)) (token_marker tokens) = Some out /\
      truncated s max_bytes out.
Proof.
  intros -> Hk Hm Ht. destruct (positions_spec s (max_bytes - str_len (token_marker tokens)))
    as (p & mid & q & E & Hlen & Hpos & Hcut); [lia|].
  exists p, mid, q. split_and!; [done..|]. eexists. split; [apply Hcut|].
  left. exists p, mid, q, tokens. split_and!; [done..|].
  rewrite !str_len_app in *. change (str_len [LF]) with 1. lia.
Qed.

Lemma guess_loop_spec rounds s max_bytes guess :
  max_bytes < str_len s -> guess <= div_ceil4 (str_len s) ->
  exists r, guess_loop rounds s max_bytes (div_ceil4 (str_len s)) guess = Some r /\
    match r with inl out => truncated s max_bytes out | inr g => g <= div_ceil4 (str_len s) end.
Proof.
  intros Hm. revert guess. induction rounds as [|rounds IH]; intros guess Hg; cbn [guess_loop].
  { by exists (inr guess). }
  destruct (Nat.eqb_spec (max_bytes - str_len (token_marker guess)) 0) as [Hz|Hz].
  { eexists. split; [done|]. right. split; [done|]. exists guess. split; [done|lia]. }
  destruct (cut_truncated s max_bytes guess _ eq_refl Hz Hm Hg)
    as (p & mid & q & E & Hpos & out & Hcut & Hout).
  rewrite Hpos. cbn [mbind option_bind].
  assert (Nat.ltb (str_len (p ++ mid)) (str_len p) = false) as ->
    by (apply Nat.ltb_ge; rewrite str_len_app; lia).
  destruct (Nat.eqb_spec (div_ceil4 (str_len s - (str_len p + (str_len s - str_len (p ++ mid))))) guess)
    as [Hn|Hn].
  - rewrite Hcut. by exists (inl out).
  - apply IH, div_ceil4_le. lia.
Qed.

Lemma truncate_middle_total s max_bytes :
  exists out tokens, truncate_middle s max_bytes = Some (out, tokens) /\
    if str_len s <=? max_bytes then out = s /\ tokens = None
    else truncated s max_bytes out /\ tokens = Some (div_ceil4 (str_len s)).
Proof.
  unfold truncate_middle. destruct (Nat.leb_spec (str_len s) max_bytes) as [Hl|Hl]; [by eauto|].
  destruct (Nat.eqb_spec max_bytes 0) as [->|Hz].
  { do 2 eexists. split_and!; [done| |done]. right. split; [done|]. exists 0. split; lia. }
  destruct (guess_loop_spec 4 s max_bytes _ Hl (le_n _)) as (r & -> & Hr). cbn [mbind option_bind].
  destruct r as [out|guess]; [by do 2 eexists|].
  destruct (Nat.eqb_spec (max_bytes - str_len (token_marker guess)) 0) as [Hk|Hk].
  { do 2 eexists. split_and!; [done| |done]. right. split; [done|]. exists guess. split; [done|lia]. }
  destruct (cut_truncated s max_bytes guess _ eq_refl Hk Hl Hr)
    as (p & mid & q & E & Hpos & out & Hcut & Hout).
  rewrite Hpos. cbn [mbind option_bind fst snd]. rewrite Hcut. cbn [mbind option_bind].
  by do 2 eexists.
Qed.

(** Markers are short. *)
Lemma pretty_length k : forall x s, (x < 10 ^ N.of_nat k)%N ->
  String.length (pretty_N_go x s) <= k + String.length s.
Proof.
  induction k as [|k IH]; intros x s Hx.
  { assert (x = 0%N) as -> by (change (10 ^ N.of_nat 0)%N with 1%N in Hx; lia).
    by rewrite pretty_N_go_0. }
  destruct (N.eq_dec x 0%N) as [->|Hz]; [rewrite pretty_N_go_0; lia|].
  rewrite pretty_N_go_step by lia. etrans; [apply IH|cbn; lia].
  apply N.Div0.div_lt_upper_bound. rewrite Nat2N.inj_succ, N.pow_succ_r' in Hx. exact Hx.
Qed.

Lemma str_len_le s : str_len s <= 4 * length s.
Proof.
  induction s as [|c s IH]; [done|]. rewrite str_len_cons. cbn [length].
  assert (char_len c <= 4) by (unfold char_len; repeat case_match; lia). lia.
Qed.

Lemma show_nat_short n : (N.of_nat n < 2 ^ 64)%N -> str_len (show_nat n) <= 80.
Proof.
  intros Hn. etrans; [apply str_len_le|]. unfold show_nat, show_N, lit. rewrite length_fmap.
  assert (Hl : forall s, length (String.list_ascii_of_string s) = String.length s)
    by (intros s; induction s as [|a s IH]; cbn; [done|by rewrite IH]).
  rewrite Hl. unfold pretty, pretty_N. case_decide; [cbn; lia|].
  pose proof (pretty_length 20 (N.of_nat n) EmptyString) as H1. cbn [String.length] in H1.
  specialize (H1 ltac:(etrans; [exact Hn|by vm_compute])). lia.
Qed.

Lemma token_marker_short n : (N.of_nat n < 2 ^ 64)%N -> str_len (token_marker n) <= 120.
Proof.
  intros Hn%show_nat_short. unfold token_marker. rewrite !str_len_app.
  assert (str_len [ELLIPSIS_CHAR] = 3) as -> by by vm_compute.
  assert (str_len (lit " tokens truncated") = 17) as -> by by vm_compute. lia.
Qed.

Lemma div_ceil4_small n : div_ceil4 n <= n.
Proof.
  unfold div_ceil4. destruct n as [|n]; [done|]. apply Nat.Div0.div_le_upper_bound. lia.
Qed.

(** ** Properties *)

(** Truncating a text never slices inside a character and always returns: a text within
    the budget unchanged, and otherwise the estimated number of its tokens with a beginning
    and an end of the text around a marker, at most one byte over the budget, or only the
    marker when the budget leaves no room beside it. *)
Theorem truncate_middle_spec s max_bytes :
  exists out tokens, truncate_middle s max_bytes = Some (out, tokens) /\
    if str_len s <=? max_bytes then out = s /\ tokens = None
    else truncated s max_bytes out /\ tokens = Some (div_ceil4 (str_len s)).
Proof. apply truncate_middle_total. Qed.

Lemma truncate_middle_bytes_total s max_bytes :
  exists out was e b, truncate_middle_bytes s max_bytes = Some (out, was, e, b) /\
    if str_len s <=? max_bytes then out = s /\ was = false /\ e = str_len s /\ b = str_len s
    else was = true /\
      exists p mid q marker, s = p ++ mid ++ q /\ e = str_len p /\ b = str_len (p ++ mid) /\
        out = p ++ marker ++ q /\ marker = (if max_bytes =? 0 then trim_end TRUNCATION_MARKER
                                            else TRUNCATION_MARKER) /\
        str_len p + str_len q <= max_bytes - str_len TRUNCATION_MARKER.
Proof.
  unfold truncate_middle_bytes.
  destruct (Nat.leb_spec (str_len s) max_bytes) as [Hl|Hl]; [by repeat eexists|].
  destruct (Nat.eqb_spec max_bytes 0) as [->|Hz].
  { do 4 eexists. split_and!; [done..|]. exists [], s, [], (trim_end TRUNCATION_MARKER).
    rewrite !app_nil_r. split_and!; done. }
  set (keep := max_bytes - str_len TRUNCATION_MARKER).
  pose proof (Nat.div_le_upper_bound keep 2 keep ltac:(lia) ltac:(lia)) as Hh.
  set (e0 := match byte_prefix _ s ≫= rfind_newline with Some i => i + 1 | None => _ end).
  set (b0 := match byte_suffix _ s ≫= find_newline with Some i => _ | None => _ end).
  assert (He : e0 <= keep / 2).
  { unfold e0. destruct (_ ≫= _) as [i|] eqn:E; [|lia]. apply after_last_newline in E. lia. }
  assert (Hb : str_len s - (keep - keep / 2) <= b0 <= str_len s).
  { unfold b0. clear e0 He b0. destruct (_ ≫= _) as [i|] eqn:E; [|lia].
    apply after_first_newline in E as [_ E]. lia. }
  clearbody e0 b0.
  destruct (boundary_before_spec s e0) as [Hb1 Hl1].
  destruct (boundary_after_spec s b0 (str_len s - b0)) as [Hb2 Hl2]; [lia|].
  destruct (boundary_split s _ _ Hb1 Hb2) as (p & mid & q & E & Hp & Hm & Ep & Eq);
    [unfold keep in *; lia|].
  rewrite Ep, Eq. cbn [mbind option_bind]. do 4 eexists. split; [done|]. split; [done|].
  exists p, mid, q, TRUNCATION_MARKER. split_and!; [done..|].
  assert (str_len s = str_len (p ++ mid) + str_len q) by (by rewrite E, app_assoc, str_len_app).
  unfold keep in *. lia.
Qed.

(** Truncating tool output never slices inside a character: a text within the limit is
    unchanged, and otherwise the result is a beginning and an end of the text around the
    marker, within the limit (or the marker's length, if that is more), and the returned
    positions are those where the kept parts end and start. *)
Theorem truncate_middle_bytes_spec s max_bytes :
  exists out was e b, truncate_middle_bytes s max_bytes = Some (out, was, e, b) /\
    if str_len s <=? max_bytes then out = s /\ was = false /\ e = str_len s /\ b = str_len s
    else was = true /\
      exists p mid q marker, s = p ++ mid ++ q /\ e = str_len p /\ b = str_len (p ++ mid) /\
        out = p ++ marker ++ q /\ marker = (if max_bytes =? 0 then trim_end TRUNCATION_MARKER
                                            else TRUNCATION_MARKER) /\
        str_len out <= max_bytes `max` str_len TRUNCATION_MARKER.
Proof.
  destruct (truncate_middle_bytes_total s max_bytes) as (out & was & e & b & Hr & H).
  exists out, was, e, b. split; [done|]. destruct (str_len s <=? max_bytes); [done|].
  destruct H as [Hw (p & mid & q & marker & H1 & H2 & H3 & H4 & H5 & H6)]. split; [done|].
  exists p, mid, q, marker. split_and!; [done..|]. rewrite H4, !str_len_app.
  assert (str_len marker <= str_len TRUNCATION_MARKER); [|lia].
  rewrite H5. destruct (max_bytes =? 0); [|done]. apply Nat.leb_le. by vm_compute.
Qed.

(** ** Concrete runs *)

(** The example of the source's test: twenty numbered lines, cut to 64 bytes. *)
Example truncate_lines :
  let line i := lit i ++ [LF] in
  truncate_middle (concat (line <$> ["001"; "002"; "003"; "004"; "005"; "006"; "007"; "008";
      "009"; "010"; "011"; "012"; "013"; "014"; "015"; "016"; "017"; "018"; "019"; "020"]%string)) 64
  = Some (concat (line <$> ["001"; "002"; "003"; "004"]%string) ++ token_marker 12 ++ [LF] ++
      concat (line <$> ["017"; "018"; "019"; "020"]%string), Some 20).
Proof. by vm_compute. Qed.

(** One byte over the budget: 40 bytes asked for, 41 returned. *)
Lemma truncate_exceeds_budget :
  exists out tokens, truncate_middle (replicate 100 97%N) 40 = Some (out, tokens) /\
    str_len out = 41.
Proof. do 2 eexists. split; [by vm_compute|by vm_compute]. Qed.
