(* ===== verification/UserMessage.v ===== *)
(** * Messages of the user

    How what the user submits becomes a message for the model
    ([response_input_from_core_items] of [core/src/codex/compact.rs] and its copy in
    [core/src/codex/streaming.rs]), and how a message whose texts are too long together is
    cut ([enforce_user_message_limits] of [core/src/codex/session.rs]).

    Reading an image file and saving the full text are outcomes of the environment: the
    data URL or nothing, the path of the saved file or the text of the error. *)

From stdpp Require Import base list.
From S2P Require Import Prelude History Truncation.

(** ** What the user submits *)

Inductive input_item :=
| TextInput (text : str)
| ImageInput (image_url : str)
| LocalImage (path : str)
| EphemeralImage (path : str) (metadata : option str).

Section input.
Context (read_image : str -> option str).

Definition content_of_input (i : input_item) : list content_item :=
  match i with
  | TextInput text => [InputText text]
  | ImageInput image_url => [InputImage image_url]
  | LocalImage path => match read_image path with Some url => [InputImage url] | None => [] end
  | EphemeralImage path metadata =>
      match metadata with
      | Some meta => [InputText (lit "[EPHEMERAL:" ++ meta ++ lit "]")]
      | None => []
      end ++
      match read_image path with Some url => [InputImage url] | None => [] end
  end.

(** The content of the message; its role is that of the user. *)
Definition response_input_from_core_items (items : list input_item) : list content_item :=
  concat (content_of_input <$> items).
End input.

(** ** Messages that are too long *)

Section limits.
Context (save_full_text : str -> result str str).

(** The texts of a message end to end, and where each of them starts and ends. *)
Definition aggregate_step (acc : str * list (nat * nat)) (c : content_item)
    : str * list (nat * nat) :=
  match c with
  | InputText text =>
      let start := str_len acc.1 in
      let aggregated := acc.1 ++ text in
      (aggregated, acc.2 ++ [(start, str_len aggregated)])
  | _ => acc
  end.

Definition aggregate (content : list content_item) : str * list (nat * nat) :=
  fold_left aggregate_step content ([], []).

(** What is left of one text: the part in front of [prefix_end], the marker when this is
    the first text that reaches into the gap, and the part after [suffix_start]. *)
Definition cut_segment (prefix_end suffix_start : nat) (marker_inserted : bool)
    (seg : nat * nat) (text : str) : str * bool :=
  let '(seg_start, seg_end) := seg in
  let head :=
    if seg_start <? prefix_end
    then default [] (byte_prefix (seg_end `min` prefix_end - seg_start) text) else [] in
  let gap := negb marker_inserted && (prefix_end <? seg_end) && (seg_start <? suffix_start) in
  let tail :=
    if suffix_start <? seg_end
    then default [] (byte_suffix (seg_start `max` suffix_start - seg_start) text) else [] in
  (head ++ (if gap then TRUNCATION_MARKER else []) ++ tail, marker_inserted || gap).

Record cutting := Cutting {
  new_content : list content_item;
  segment_iter : list (nat * nat);
  marker_inserted : bool;
  last_text_idx : option nat
}.

Definition cut_content_step (prefix_end suffix_start : nat) (s : cutting) (c : content_item)
    : cutting :=
  match c with
  | InputText text =>
      match segment_iter s with
      | [] => s
      | seg :: segments =>
          let '(new_text, inserted) :=
            cut_segment prefix_end suffix_start (marker_inserted s) seg text in
          Cutting (new_content s ++ [InputText new_text]) segments inserted
            (Some (length (new_content s)))
      end
  | other => Cutting (new_content s ++ [other]) (segment_iter s) (marker_inserted s)
               (last_text_idx s)
  end.

Definition push_str (extra : str) (c : content_item) : content_item :=
  match c with InputText text => InputText (text ++ extra) | _ => c end.

Definition add_missing_marker (s : cutting) : cutting :=
  if marker_inserted s then s
  else
    match last_text_idx s with
    | Some idx =>
        Cutting (alter (push_str TRUNCATION_MARKER) idx (new_content s)) (segment_iter s)
          (marker_inserted s) (Some idx)
    | None =>
        Cutting (new_content s ++ [InputText TRUNCATION_MARKER]) (segment_iter s)
          (marker_inserted s) (Some (length (new_content s)))
    end.

Definition add_note (note : str) (s : cutting) : list content_item :=
  match last_text_idx s with
  | Some idx => alter (push_str note) idx (new_content s)
  | None => new_content s ++ [InputText note]
  end.

Definition file_note (saved : result str str) : str :=
  match saved with
  | Ok path => [LF; LF] ++ lit "[Full output saved to: " ++ path ++ lit "]"
  | Err e => [LF; LF] ++ lit "[Full output was too large and truncation applied; failed to save file: "
             ++ e ++ lit "]"
  end.

(** The content of a user message within the limit; [None] when a slice panics. *)
Definition enforce_user_message_limits (tool_output_max_bytes : nat)
    (content : list content_item) : option (list content_item) :=
  let '(aggregated, text_segments) := aggregate content in
  match text_segments with
  | [] => Some content
  | _ =>
      r ← truncate_middle_bytes aggregated tool_output_max_bytes;
      let '(_, was_truncated, prefix_end, suffix_start) := r in
      if negb was_truncated then Some content
      else
        let note := file_note (save_full_text aggregated) in
        let s := fold_left (cut_content_step prefix_end suffix_start) content
                   (Cutting [] text_segments false None) in
        Some (add_note note (add_missing_marker s))
  end.
End limits.

(** ** Lemmas *)

#[local] Opaque TRUNCATION_MARKER.

Definition texts (content : list content_item) : list str :=
  omap (fun c => match c with InputText text => Some text | _ => None end) content.

(** What is not text. *)
Definition others (content : list content_item) : list content_item :=
  omap (fun c => match c with InputText _ => None | _ => Some c end) content.

Lemma texts_app l1 l2 : texts (l1 ++ l2) = texts l1 ++ texts l2.
Proof. apply omap_app. Qed.

Lemma others_app l1 l2 : others (l1 ++ l2) = others l1 ++ others l2.
Proof. apply omap_app. Qed.

Lemma str_len_zero s : str_len s = 0 -> s = [].
Proof. destruct s as [|c s]; [done|]. rewrite str_len_cons. pose proof (char_len_pos c). lia. Qed.

(** Of two ways to split a text, by where they split it. *)
Lemma app_split_le (x y u v : str) : x ++ y = u ++ v -> str_len x <= str_len u ->
  exists w, u = x ++ w /\ y = w ++ v.
Proof.
  intros [(w & -> & ->)|(w & -> & ->)]%app_eq_inv Hl; [|by exists w].
  rewrite str_len_app in Hl. exists []. rewrite (str_len_zero w) by lia. by rewrite !app_nil_r.
Qed.

Lemma byte_prefix_app p q : byte_prefix (str_len p) (p ++ q) = Some p.
Proof. apply byte_prefix_spec. by exists q. Qed.

Lemma byte_suffix_app p q : byte_suffix (str_len p) (p ++ q) = Some q.
Proof. apply byte_suffix_spec. by exists p. Qed.

(** The segments of a content whose texts start at an offset. *)
Fixpoint segments_from (offset : nat) (content : list content_item) : list (nat * nat) :=
  match content with
  | [] => []
  | InputText text :: content =>
      (offset, offset + str_len text) :: segments_from (offset + str_len text) content
  | _ :: content => segments_from offset content
  end.

Lemma aggregate_spec content :
  aggregate content = (concat (texts content), segments_from 0 content).
Proof.
  unfold aggregate.
  assert (forall a segs, fold_left aggregate_step content (a, segs) =
    (a ++ concat (texts content), segs ++ segments_from (str_len a) content)) as ->; [|done].
  induction content as [|c content IH]; intros a segs; cbn [fold_left segments_from].
  { by rewrite !app_nil_r. }
  destruct c; cbn [aggregate_step fst snd]; rewrite IH; [|done..].
  rewrite <- !app_assoc, str_len_app. done.
Qed.

Section cut.
Context (p mid q : str).
Notation prefix_end := (str_len p).
Notation suffix_start := (str_len (p ++ mid)).
Hypothesis mid_nonempty : mid <> [].

Lemma gap_nonempty : prefix_end < suffix_start.
Proof.
  rewrite str_len_app. destruct mid as [|c m]; [done|]. rewrite str_len_cons.
  pose proof (char_len_pos c). lia.
Qed.

(** What the loop has written once it has read [a]. *)
Definition written (a out : str) (inserted : bool) : Prop :=
  if str_len a <=? prefix_end then out = a /\ inserted = false
  else inserted = true /\
    out = p ++ TRUNCATION_MARKER ++
      (if str_len a <=? suffix_start then [] else default [] (byte_suffix suffix_start a)).

Lemma written_step a t b out inserted text inserted' :
  a ++ t ++ b = p ++ mid ++ q -> written a out inserted ->
  cut_segment prefix_end suffix_start inserted (str_len a, str_len a + str_len t) t
    = (text, inserted') ->
  written (a ++ t) (out ++ text) inserted'.
Proof.
  intros E Hw Hc. pose proof gap_nonempty as Hgap. unfold written, cut_segment in *.
  rewrite (str_len_app a t). rewrite app_assoc in E.
  destruct (Nat.leb_spec (str_len a) prefix_end) as [Ha|Ha].
  - destruct Hw as [-> ->]. cbn [negb andb] in Hc.
    destruct (Nat.leb_spec (str_len a + str_len t) prefix_end) as [Hat|Hat].
    + (* the text ends in front of the gap *)
      rewrite Nat.min_l in Hc by done.
      rewrite (proj2 (Nat.ltb_ge prefix_end _)), (proj2 (Nat.ltb_ge suffix_start _)) in Hc by lia.
      cbn [andb app] in Hc. rewrite app_nil_r in Hc. injection Hc as <- <-. split; [|done]. f_equal.
      replace (str_len a + str_len t - str_len a) with (str_len t) by lia.
      rewrite <- (app_nil_r t) at 2. rewrite byte_prefix_app. cbn [default].
      destruct (Nat.ltb_spec (str_len a) prefix_end); [done|]. symmetry. apply str_len_zero. lia.
    + (* the text reaches into the gap *)
      rewrite Nat.min_r in Hc by lia.
      rewrite (proj2 (Nat.ltb_lt prefix_end _)), (proj2 (Nat.ltb_lt (str_len a) suffix_start)) in Hc
        by lia.
      destruct (app_split_le a (t ++ b) p (mid ++ q)) as (t1 & Hp & Et); [by rewrite app_assoc|done|].
      destruct (app_split_le t1 (mid ++ q) t b) as (t2 & -> & E2);
        [done|rewrite Hp, str_len_app in Hat; lia|].
      rewrite str_len_app in *.
      assert ((if str_len a <? prefix_end
        then default [] (byte_prefix (prefix_end - str_len a) (t1 ++ t2)) else []) = t1) as Hh.
      { replace (prefix_end - str_len a) with (str_len t1) by (rewrite Hp, str_len_app; lia).
        rewrite byte_prefix_app. cbn [default].
        destruct (Nat.ltb_spec (str_len a) prefix_end) as [|Hle]; [done|].
        symmetry. apply str_len_zero. rewrite Hp, str_len_app in Hle. lia. }
      rewrite Hh in Hc. cbn [andb negb] in Hc. injection Hc as <- <-. split; [done|].
      rewrite Nat.max_r by lia. rewrite Nat.ltb_antisym, !str_len_app.
      rewrite (app_assoc a t1), <- Hp. f_equal. f_equal.
      destruct (Nat.leb_spec (str_len a + (str_len t1 + str_len t2)) (prefix_end + str_len mid))
        as [|Hs]; [done|].
      cbn [negb]. assert (prefix_end = str_len a + str_len t1) as Hpe by (by rewrite Hp, str_len_app).
      destruct (app_split_le mid q t2 b) as (t3 & -> & E3); [done|lia|].
      rewrite <- str_len_app.
      rewrite (app_assoc a t1), <- Hp, (app_assoc p), byte_suffix_app.
      replace (suffix_start - str_len a) with (str_len (t1 ++ mid)) by (rewrite !str_len_app; lia).
      by rewrite app_assoc, byte_suffix_app.
  - destruct Hw as [-> ->]. cbn [negb andb app] in Hc.
    rewrite (proj2 (Nat.ltb_ge (str_len a) prefix_end)) in Hc by lia.
    destruct (Nat.leb_spec (str_len a + str_len t) prefix_end); [lia|].
    cbn [app] in Hc. injection Hc as <- <-. split; [done|].
    rewrite <- !app_assoc. do 2 f_equal. rewrite Nat.ltb_antisym.
    destruct (Nat.leb_spec (str_len a) suffix_start) as [Hs|Hs].
    + cbn [app]. destruct (Nat.leb_spec (str_len a + str_len t) suffix_start) as [|Ht]; [done|].
      cbn [negb]. rewrite Nat.max_r by done.
      destruct (app_split_le a (t ++ b) (p ++ mid) q) as (t1 & Hp & Et);
        [by rewrite app_assoc, <- app_assoc with (l := p)|done|].
      destruct (app_split_le t1 q t b) as (t2 & -> & E2); [done|rewrite Hp, str_len_app in Ht; lia|].
      replace (suffix_start - str_len a) with (str_len t1) by (rewrite Hp, str_len_app; lia).
      rewrite byte_suffix_app. rewrite app_assoc, <- Hp. by rewrite byte_suffix_app.
    + destruct (Nat.leb_spec (str_len a + str_len t) suffix_start); [lia|]. cbn [negb].
      rewrite Nat.max_l, Nat.sub_diag by lia.
      destruct (app_split_le (p ++ mid) q a (t ++ b)) as (a1 & -> & Eq);
        [by rewrite <- app_assoc, <- E, app_assoc|lia|].
      rewrite byte_suffix_app, <- app_assoc, byte_suffix_app. cbn. by destruct t.
Qed.

(** The last text written. *)
Definition last_text (content : list content_item) (idx : option nat) : Prop :=
  match idx with
  | Some idx => exists l1 t l2, content = l1 ++ InputText t :: l2 /\ length l1 = idx /\ texts l2 = []
  | None => texts content = []
  end.

Lemma last_text_other content idx c :
  last_text content idx -> texts [c] = [] -> last_text (content ++ [c]) idx.
Proof.
  destruct idx as [idx|]; cbn [last_text].
  - intros (l1 & t & l2 & -> & Hl & Ht) Hc. exists l1, t, (l2 ++ [c]).
    rewrite texts_app, Ht, Hc, <- app_assoc. done.
  - intros Ht Hc. by rewrite texts_app, Ht, Hc.
Qed.

Lemma cut_content_spec content : forall a s,
  a ++ concat (texts content) = p ++ mid ++ q ->
  segment_iter s = segments_from (str_len a) content ->
  written a (concat (texts (new_content s))) (marker_inserted s) ->
  last_text (new_content s) (last_text_idx s) ->
  let s' := fold_left (cut_content_step prefix_end suffix_start) content s in
  written (p ++ mid ++ q) (concat (texts (new_content s'))) (marker_inserted s') /\
  others (new_content s') = others (new_content s) ++ others content /\
  length (new_content s') = length (new_content s) + length content /\
  last_text (new_content s') (last_text_idx s').
Proof.
  induction content as [|c content IH]; intros a s E Hseg Hw Hlast; cbn [fold_left].
  { cbn in E. rewrite app_nil_r in E. subst a. cbn. rewrite app_nil_r, Nat.add_0_r. done. }
  destruct c as [text|url|text].
  - cbn [cut_content_step]. rewrite Hseg. cbn [segments_from].
    destruct (cut_segment prefix_end suffix_start (marker_inserted s)
      (str_len a, str_len a + str_len text) text) as [new_text inserted] eqn:Ec.
    change (texts (InputText text :: content)) with (text :: texts content) in E. cbn [concat] in E.
    destruct (IH (a ++ text) (Cutting (new_content s ++ [InputText new_text])
      (segments_from (str_len a + str_len text) content) inserted (Some (length (new_content s)))))
      as (H1 & H2 & H3 & H4); cbn [new_content segment_iter marker_inserted last_text_idx].
    + by rewrite <- app_assoc.
    + by rewrite str_len_app.
    + rewrite texts_app, concat_app. cbn [texts omap list_omap concat]. rewrite app_nil_r.
      by eapply written_step.
    + by exists (new_content s), new_text, [].
    + split_and!; [done| | |done].
      * rewrite H2. cbn [new_content]. rewrite others_app. cbn. by rewrite app_nil_r.
      * rewrite H3. cbn [new_content]. rewrite length_app. cbn. lia.
  - destruct (IH a (Cutting (new_content s ++ [InputImage url]) (segment_iter s) (marker_inserted s)
      (last_text_idx s)))
      as (H1 & H2 & H3 & H4); cbn [cut_content_step new_content segment_iter marker_inserted last_text_idx] in *;
      [done|done| |by apply last_text_other|].
    + rewrite texts_app. cbn. by rewrite app_nil_r.
    + split_and!; [done| | |done]; [rewrite H2|rewrite H3].
      * rewrite others_app, <- app_assoc. done.
      * rewrite length_app. cbn. lia.
  - destruct (IH a (Cutting (new_content s ++ [OutputText text]) (segment_iter s) (marker_inserted s)
      (last_text_idx s)))
      as (H1 & H2 & H3 & H4); cbn [cut_content_step new_content segment_iter marker_inserted last_text_idx] in *;
      [done|done| |by apply last_text_other|].
    + rewrite texts_app. cbn. by rewrite app_nil_r.
    + split_and!; [done| | |done]; [rewrite H2|rewrite H3].
      * rewrite others_app, <- app_assoc. done.
      * rewrite length_app. cbn. lia.
Qed.

Lemma written_all out inserted : written (p ++ mid ++ q) out inserted ->
  inserted = true /\ out = p ++ TRUNCATION_MARKER ++ q.
Proof.
  pose proof gap_nonempty as Hgap. unfold written. rewrite (app_assoc p), (str_len_app (p ++ mid)).
  destruct (Nat.leb_spec (suffix_start + str_len q) prefix_end); [lia|]. intros [-> ->].
  split; [done|]. do 2 f_equal. destruct (Nat.leb_spec (suffix_start + str_len q) suffix_start).
  - symmetry. apply str_len_zero. lia.
  - by rewrite byte_suffix_app.
Qed.

Lemma add_note_spec note s :
  last_text (new_content s) (last_text_idx s) -> concat (texts (new_content s)) <> [] ->
  concat (texts (add_note note s)) = concat (texts (new_content s)) ++ note /\
  others (add_note note s) = others (new_content s) /\
  length (add_note note s) = length (new_content s).
Proof.
  unfold add_note. destruct (last_text_idx s) as [idx|]; cbn [last_text]; intros Hl Hn.
  - destruct Hl as (l1 & t & l2 & -> & <- & Ht).
    assert (alter (push_str note) (length l1) (l1 ++ InputText t :: l2)
      = l1 ++ InputText (t ++ note) :: l2) as ->.
    { rewrite <- (Nat.add_0_r (length l1)), alter_app_r. done. }
    change (InputText t :: l2) with ([InputText t] ++ l2).
    change (InputText (t ++ note) :: l2) with ([InputText (t ++ note)] ++ l2).
    rewrite !texts_app, Ht, !others_app, !length_app. split_and!; [|done|done].
    rewrite !concat_app. cbn. by rewrite !app_nil_r, app_assoc.
  - by rewrite Hl in Hn.
Qed.
End cut.

(** ** Properties *)

(** A message of the user that is too long is cut as if its texts were one: whatever the
    texts are, the part in front of the gap, one marker, the part after the gap and the note
    about the saved text follow each other, within the limit (or the marker's length) but
    for the note; images stay where they were, no slice falls inside a character, and a
    message within the limit is left alone. *)
Theorem user_message_cut save max content :
  exists content', enforce_user_message_limits save max content = Some content' /\
    if str_len (concat (texts content)) <=? max then content' = content
    else
      length content' = length content /\ others content' = others content /\
      exists p mid q, concat (texts content) = p ++ mid ++ q /\
        concat (texts content') =
          p ++ TRUNCATION_MARKER ++ q ++ file_note (save (concat (texts content))) /\
        str_len (p ++ TRUNCATION_MARKER ++ q) <= max `max` str_len TRUNCATION_MARKER.
Proof.
  unfold enforce_user_message_limits. rewrite aggregate_spec.
  destruct (truncate_middle_bytes_total (concat (texts content)) max)
    as (out & was & e & b & Hr & H).
  destruct (segments_from 0 content) as [|seg segs] eqn:Eseg.
  { exists content. split; [done|].
    assert (texts content = []) as ->.
    { clear -Eseg. revert Eseg. generalize 0. induction content as [|[] content IH]; cbn; naive_solver. }
    done. }
  rewrite <- Eseg, Hr. clear Eseg seg segs. cbn [mbind option_bind].
  destruct (Nat.leb_spec (str_len (concat (texts content))) max) as [Hl|Hl].
  { destruct H as (_ & -> & _). by exists content. }
  destruct H as [-> (p & mid & q & marker & E & -> & -> & _ & _ & Hpq)]. cbn [negb].
  eexists. split; [done|].
  assert (mid <> []) as Hmid.
  { intros ->. cbn [app] in E. rewrite E, str_len_app in Hl. lia. }
  destruct (cut_content_spec p mid q Hmid content [] (Cutting [] (segments_from 0 content) false None))
    as (Hw & Ho & Hn & Ht); [done|done| |done|].
  { unfold written. cbn. done. }
  cbn [new_content others texts omap list_omap app length] in *.
  destruct (written_all p mid q Hmid _ _ Hw) as [Hm Hout].
  unfold add_missing_marker. rewrite Hm.
  destruct (add_note_spec (file_note (save (concat (texts content)))) _ Ht) as (H1 & H2 & H3).
  { rewrite Hout. destruct p; [|done]. by vm_compute. }
  split_and!; [by rewrite H3|by rewrite H2|]. exists p, mid, q. split_and!; [done| |].
  - by rewrite H1, Hout, <- !app_assoc.
  - rewrite !str_len_app. lia.
Qed.
