(* ===== verification/Compaction.v ===== *)
(** * Compacting a conversation

    [core/src/codex/compact.rs] and [core/src/codex/compact_remote.rs]: when a conversation
    no longer fits the model, its items are shortened ([sanitize_items_for_compact]), sent
    to the model with a request for a summary, again and again after errors, and the
    history is replaced by a summary.  [perform_compaction] is the background task,
    [run_compact_task_inner_inline] the same in the middle of a turn, and
    [run_remote_compact_task_inner] asks the service for the new history.

    The answers of the model are a list of attempts, one for each request; [None] means
    that the list was too short, which [compaction_terminates] excludes.  The requests are
    recorded in the session.  The notices to the interface and the delays are left out,
    and so is the part of an error that is only displayed.  The initial context and the
    items of a turn come from elsewhere in the session and are arguments; the template of
    the summary is rendered by askama, a parameter. *)

From stdpp Require Import base list gmap.
From S2P Require Import Prelude History Retention Truncation.

(** ** Constants *)

Definition COMPACT_USER_MESSAGE_MAX_TOKENS : nat := N.to_nat 20000.
Definition COMPACT_TEXT_CONTENT_MAX_BYTES : nat := N.to_nat 8192.
Definition COMPACT_TOOL_ARGS_MAX_BYTES : nat := N.to_nat 4096.
Definition COMPACT_TOOL_OUTPUT_MAX_BYTES : nat := N.to_nat 4096.
Definition COMPACT_IMAGE_URL_MAX_BYTES : nat := N.to_nat 512.
Definition MAX_COMPACTION_SNIPPETS : nat := 12.
Definition MAX_COMPACT_CONTEXT_OVERFLOW_TRIMS : nat := 32.
Definition MAX_COMPACT_USAGE_LIMIT_RETRIES : nat := 2.

Definition USER_INSTRUCTIONS_OPEN_TAG : str := lit "<user_instructions>".

Definition COMPACTION_EMERGENCY_MESSAGE : str :=
  [9888%N; 65039%N] ++ lit " Compaction failed: The conversation history is too large to compact within the model's context limits. The history has been reset to prevent further errors. Please start a new session or manually reduce context by clearing history.".

(** ** Text of a message *)

Definition content_items_to_text (content : list content_item) : option str :=
  let pieces := omap (fun c =>
    match c with
    | InputText text | OutputText text => if str_eqb text [] then None else Some text
    | InputImage _ => None
    end) content in
  match pieces with [] => None | _ => Some (join [LF] pieces) end.

(** [truncate_middle] always returns ([truncate_middle_spec]). *)
Definition truncate_for_compact (text : str) (max_bytes : nat) : str :=
  if str_len text <=? max_bytes then text
  else default text (fst <$> truncate_middle text max_bytes).

(** [InputMessageKind::from((role, text))] of [protocol/src/protocol.rs] *)
Inductive input_message_kind :=
| KindUser | KindAssistant | KindUserInstructions | KindEnvironmentContext
| KindBrowserSnapshot | KindOther.

Definition message_kind (role text : str) : input_message_kind :=
  if str_eqb role (lit "user") then
    if str_contains USER_INSTRUCTIONS_OPEN_TAG text then KindUserInstructions
    else if str_contains ENVIRONMENT_CONTEXT_OPEN_TAG text
            || str_contains ENVIRONMENT_CONTEXT_DELTA_OPEN_TAG text then KindEnvironmentContext
    else if str_contains BROWSER_SNAPSHOT_OPEN_TAG text then KindBrowserSnapshot
    else KindUser
  else if str_eqb role (lit "assistant") then KindAssistant
  else KindOther.

Definition is_session_prefix_message (text : str) : bool :=
  match message_kind (lit "user") text with
  | KindUserInstructions | KindEnvironmentContext => true
  | _ => false
  end.

Record compaction_snippet := CompactionSnippet { snippet_role : str; snippet_text : str }.

(** ** Errors *)

(** The constructors of [CodexErr] that compaction tells apart. *)
Inductive codex_err :=
| Interrupted
| UsageLimitReached
| UnexpectedStatus (body : str)
| StreamError (message : str)
| RateLimitExceeded (message : str)
| OtherError.

Definition looks_like_context_overflow (message : str) : bool :=
  let lower := to_ascii_lowercase message in
  let contains p := str_contains (lit p) lower in
  contains "context_length_exceeded"%string
  || contains "context length exceeded"%string
  || contains "context window"%string
     && (contains "exceed"%string || contains "exceeded"%string || contains "full"%string
         || contains "too long"%string)
  || contains "maximum context length"%string
  || contains "exceeds the context window"%string.

Definition is_context_overflow_error (err : codex_err) : bool :=
  match err with
  | UnexpectedStatus body => looks_like_context_overflow body
  | StreamError msg | RateLimitExceeded msg => looks_like_context_overflow msg
  | _ => false
  end.

Section compaction.
Context {opaque : Type}.
Notation item := (response_item opaque).
(** The fields of an item that only the wire format knows: those of a new message without
    identifier; a message without [end_turn] and [phase]; a reasoning item without
    [encrypted_content]. *)
Context (new_fields : opaque) (clear_turn clear_encrypted : opaque -> opaque).
Context (to_json : list function_call_output_content_item -> option str).
Context (render_history_bridge : list compaction_snippet -> str -> option str).

(** ** Shortening the items *)

Definition sanitize_content (c : content_item) : content_item :=
  match c with
  | InputText text => InputText (truncate_for_compact text COMPACT_TEXT_CONTENT_MAX_BYTES)
  | OutputText text => OutputText (truncate_for_compact text COMPACT_TEXT_CONTENT_MAX_BYTES)
  | InputImage image_url =>
      if starts_with (lit "data:") image_url
         || (COMPACT_IMAGE_URL_MAX_BYTES <? str_len image_url)
      then InputText (lit "(image omitted for compaction; " ++ show_nat (str_len image_url) ++
                      lit " bytes)")
      else InputImage image_url
  end.

Definition sanitize_item (i : item) : option item :=
  match i with
  | Message role content rest =>
      match sanitize_content <$> content with
      | [] => None
      | filtered_content => Some (Message role filtered_content (clear_turn rest))
      end
  | FunctionCall arguments call_id rest =>
      Some (FunctionCall (truncate_for_compact arguments COMPACT_TOOL_ARGS_MAX_BYTES) call_id rest)
  | FunctionCallOutput call_id output =>
      let content := truncate_for_compact (payload_text to_json output)
                       COMPACT_TOOL_OUTPUT_MAX_BYTES in
      Some (FunctionCallOutput call_id
              (FunctionCallOutputPayload (Text content) (success output)))
  | CustomToolCall call_id input rest =>
      Some (CustomToolCall call_id (truncate_for_compact input COMPACT_TOOL_ARGS_MAX_BYTES) rest)
  | CustomToolCallOutput call_id output rest =>
      let output := truncate_for_compact (payload_text to_json output)
                      COMPACT_TOOL_OUTPUT_MAX_BYTES in
      Some (CustomToolCallOutput call_id (FunctionCallOutputPayload (Text output) None) rest)
  | Reasoning _ rest => Some (Reasoning None (clear_encrypted rest))
  | other => Some other
  end.

Definition sanitize_items_for_compact (items : list item) : list item := omap sanitize_item items.

(** The identifiers under which an item's output may come. *)
Definition call_ids (i : item) : list str :=
  match i with
  | FunctionCall _ call_id _ | ToolSearchCall (Some call_id) _ | CustomToolCall call_id _ _ =>
      [call_id]
  | LocalShellCall id call_id _ => option_list call_id ++ option_list id
  | _ => []
  end.

Definition output_id (i : item) : option str :=
  match i with
  | FunctionCallOutput call_id _ | ToolSearchOutput (Some call_id) _
  | CustomToolCallOutput call_id _ _ => Some call_id
  | _ => None
  end.

Definition seen_calls (items : list item) : gset str :=
  fold_left (fun seen i => list_to_set (call_ids i) ∪ seen) items ∅.

Definition has_call (seen : gset str) (i : item) : bool :=
  match output_id i with Some call_id => bool_decide (call_id ∈ seen) | None => true end.

(** The kept items and the number of removed ones. *)
Definition prune_orphan_tool_outputs (items : list item) : list item * nat :=
  let kept := filter (fun i => has_call (seen_calls items) i = true) items in
  (kept, length items - length kept).

(** ** The summary *)

(** One item of the loop of [collect_compaction_snippets], newest first: the snippet it
    gives, if any. *)
Definition snippet_of (i : item) : option compaction_snippet :=
  match i with
  | Message role content _ =>
      if negb (str_eqb role (lit "user")) && negb (str_eqb role (lit "assistant")) then None
      else
        match content_items_to_text content with
        | None => None
        | Some text =>
            if str_eqb role (lit "user") && is_session_prefix_message text then None
            else
              let truncated := truncate_for_compact text COMPACT_TEXT_CONTENT_MAX_BYTES in
              if str_eqb (trim truncated) [] then None
              else Some (CompactionSnippet role truncated)
        end
  | _ => None
  end.

Fixpoint snippets_loop (newest_first : list item) (snippets : list compaction_snippet)
    (total_bytes : nat) : list compaction_snippet :=
  match newest_first with
  | [] => snippets
  | i :: older =>
      match snippet_of i with
      | None => snippets_loop older snippets total_bytes
      | Some snippet =>
          if MAX_COMPACTION_SNIPPETS <=? length snippets then snippets
          else
            let snippet_len := str_len (snippet_text snippet) in
            if negb (length snippets =? 0)
               && (COMPACT_USER_MESSAGE_MAX_TOKENS * 4 <? total_bytes + snippet_len)
            then snippets
            else snippets_loop older (snippets ++ [snippet]) (total_bytes + snippet_len)
      end
  end.

Definition collect_compaction_snippets (items : list item) : list compaction_snippet :=
  reverse (snippets_loop (reverse items) [] 0).

Definition render_compaction_summary (snippets : list compaction_snippet) (summary_text : str)
    : str :=
  let normalized_summary :=
    if str_eqb (trim summary_text) [] then lit "(no summary available)" else summary_text in
  default normalized_summary (render_history_bridge snippets normalized_summary).

Definition user_text (text : str) : item := Message (lit "user") [InputText text] new_fields.

Definition make_compaction_summary_message (snippets : list compaction_snippet)
    (summary_text : str) : item := user_text (render_compaction_summary snippets summary_text).

Definition build_compacted_history (initial_context : list item)
    (snippets : list compaction_snippet) (summary_text : str) : list item :=
  initial_context ++ [make_compaction_summary_message snippets summary_text].

Definition build_emergency_compacted_history (initial_context : list item)
    (warning_message : str) : list item := initial_context ++ [user_text warning_message].

Definition get_last_assistant_message_from_turn (responses : list item) : option str :=
  let last_output content :=
    head (omap (fun c => match c with OutputText text => Some text | _ => None end)
            (reverse content)) in
  head (omap (fun i =>
    match i with
    | Message role content _ =>
        if str_eqb role (lit "assistant") then last_output content else None
    | _ => None
    end) (reverse responses)).

(** ** The session and one attempt *)

(** What compaction changes in the session; [requests] are the inputs sent to the model and
    [rollout] the messages of the compactions recorded on disk. *)
Record session := Session {
  history : conversation_history opaque;
  token_usage_info : option opaque;
  current_task : option str;
  rollout : list str;
  requests : list (list item)
}.

#[local] Instance session_fields : Fields session := fun s =>
  Session (history s) (token_usage_info s) (current_task s) (rollout s) (requests s).

Local Open Scope record_scope.

Definition replace_history (new : list item) (s : session) : session :=
  s <| history := replace new (history s) |>.

Definition remove_task (sub_id : str) (s : session) : session :=
  if match current_task s with Some task => str_eqb task sub_id | None => false end
  then s <| current_task := None |> else s.

(** The events of a response stream; an attempt fails to open the stream, or reads events
    until the stream is closed or the time is up. *)
Inductive stream_event :=
| OutputItemDone (i : item)
| ResponseCompleted
| OtherEvent
| EventFailed (e : codex_err).

Inductive attempt :=
| OpenFailed (e : codex_err)
| Streamed (events : list stream_event) (timed_out : bool).

Fixpoint drain_events (events : list stream_event) (timed_out : bool) (s : session)
    : result codex_err unit * session :=
  match events with
  | [] =>
      (Err (StreamError (if timed_out then lit "compaction stream timed out"
                         else lit "stream closed before response.completed")), s)
  | OutputItemDone i :: events =>
      drain_events events timed_out (s <| history := record_items [i] (history s) |>)
  | ResponseCompleted :: _ => (Ok tt, s)
  | OtherEvent :: events => drain_events events timed_out s
  | EventFailed e :: _ => (Err e, s)
  end.

Definition drain_to_completed (input : list item) (a : attempt) (s : session)
    : result codex_err unit * session :=
  let s := s <| requests := requests s ++ [input] |> in
  match a with
  | OpenFailed e => (Err e, s)
  | Streamed events timed_out => drain_events events timed_out s
  end.

(** ** The loop *)

Record progress := Progress {
  turn_input : list item;
  retries : nat;
  truncated_count : nat;
  usage_limit_retries : nat
}.

Definition start (input : list item) : progress :=
  Progress (sanitize_items_for_compact input) 0 0 0.

(** How the loop ends, or goes on. *)
Inductive verdict :=
| Again (p : progress)
| GiveUp (e : codex_err)
| Emergency (reason : str) (e : codex_err).

(** Context overflow: the oldest item is dropped, or compaction is given up. *)
Definition on_overflow (trimmed minimal : str) (e : codex_err) (p : progress) : verdict :=
  if (1 <? length (turn_input p)) && (truncated_count p <? MAX_COMPACT_CONTEXT_OVERFLOW_TRIMS)
  then Again (Progress (drop 1 (turn_input p)) 0 (truncated_count p + 1) 0)
  else Emergency (if MAX_COMPACT_CONTEXT_OVERFLOW_TRIMS <=? truncated_count p
                  then trimmed else minimal) e.

Definition on_usage_limit (reason : str) (e : codex_err) (p : progress) : verdict :=
  if MAX_COMPACT_USAGE_LIMIT_RETRIES <=? usage_limit_retries p then Emergency reason e
  else Again (Progress (turn_input p) 0 (truncated_count p) (usage_limit_retries p + 1)).

Definition on_stream_error (max_retries : nat) (e : codex_err) (p : progress) : verdict :=
  if retries p <? max_retries
  then Again (Progress (turn_input p) (retries p + 1) (truncated_count p) (usage_limit_retries p))
  else GiveUp e.

(** The error arms of [perform_compaction] and [run_compact_task_inner_inline]. *)
Definition on_error (max_retries : nat) (e : codex_err) (p : progress) : verdict :=
  match e with
  | Interrupted => GiveUp Interrupted
  | UsageLimitReached =>
      on_usage_limit (lit "Compaction hit persistent usage limits and cannot continue.") e p
  | _ =>
      if is_context_overflow_error e then
        on_overflow
          (lit "Compaction trimmed " ++ show_nat (truncated_count p) ++
           lit " items but still exceeded the context window.")
          (lit "Compaction failed: context overflow even with minimal input.") e p
      else on_stream_error max_retries e p
  end.

(** The error arms of [run_remote_compact_task_inner]. *)
Definition on_remote_error (max_retries : nat) (e : codex_err) (p : progress) : verdict :=
  if is_context_overflow_error e then
    on_overflow
      (lit "Remote compact trimmed " ++ show_nat (truncated_count p) ++
       lit " items but still exceeded the context window.")
      (lit "Remote compact failed: context overflow even with minimal input.") e p
  else
    match e with
    | UsageLimitReached =>
        on_usage_limit (lit "Remote compact hit persistent usage limits and cannot continue.") e p
    | _ => on_stream_error max_retries e p
    end.

Inductive ending :=
| Finished
| Failed (e : codex_err)
| GaveUp (reason : str) (e : codex_err).

(** The loops of [perform_compaction] ([prunes]) and [run_compact_task_inner_inline] (not). *)
Fixpoint compact_loop (prunes : bool) (max_retries : nat) (attempts : list attempt)
    (p : progress) (s : session) : option (ending * session) :=
  match attempts with
  | [] => None
  | a :: attempts =>
      let p :=
        if prunes
        then Progress (prune_orphan_tool_outputs (turn_input p)).1 (retries p)
               (truncated_count p) (usage_limit_retries p)
        else p in
      let '(r, s) := drain_to_completed (turn_input p) a s in
      match r with
      | Ok _ => Some (Finished, s)
      | Err e =>
          match on_error max_retries e p with
          | Again p => compact_loop prunes max_retries attempts p s
          | GiveUp e => Some (Failed e, s)
          | Emergency reason e => Some (GaveUp reason e, s)
          end
      end
  end.

(** The loop of [run_remote_compact_task_inner]: an attempt is the service's answer. *)
Fixpoint remote_loop (max_retries : nat) (attempts : list (result codex_err (list item)))
    (p : progress) (s : session) : option (list item * ending * session) :=
  match attempts with
  | [] => None
  | a :: attempts =>
      let p := Progress (prune_orphan_tool_outputs (turn_input p)).1 (retries p)
                 (truncated_count p) (usage_limit_retries p) in
      let s := s <| requests := requests s ++ [turn_input p] |> in
      match a with
      | Ok new_history => Some (new_history, Finished, s)
      | Err e =>
          match on_remote_error max_retries e p with
          | Again p => remote_loop max_retries attempts p s
          | GiveUp e => Some ([], Failed e, s)
          | Emergency reason e => Some ([], GaveUp reason e, s)
          end
      end
  end.

(** ** The three tasks *)

Definition apply_emergency_compaction_fallback (initial_context : list item) (reason : str)
    (s : session) : list item * session :=
  let message :=
    if str_eqb (trim reason) [] then COMPACTION_EMERGENCY_MESSAGE
    else reason ++ lit " " ++ COMPACTION_EMERGENCY_MESSAGE in
  let emergency_history := build_emergency_compacted_history initial_context message in
  (emergency_history, replace_history emergency_history s <| token_usage_info := None |>).

(** The compacted history and its summary, from the session's history. *)
Definition summarize (initial_context : list item) (s : session) : list item * str :=
  let history_snapshot := contents (history s) in
  let summary_text := default [] (get_last_assistant_message_from_turn history_snapshot) in
  (build_compacted_history initial_context (collect_compaction_snippets history_snapshot)
     summary_text, summary_text).

Definition perform_compaction (max_retries : nat) (sub_id : str) (input initial_context : list item)
    (remove_task_on_completion : bool) (attempts : list attempt) (s : session)
    : option (result codex_err unit * session) :=
  r ← compact_loop true max_retries attempts (start input) s;
  Some (match r with
    | (Finished, s) =>
        let s := if remove_task_on_completion then remove_task sub_id s else s in
        let '(new_history, summary_text) := summarize initial_context s in
        let s := replace_history new_history s in
        (Ok tt, s <| rollout := rollout s ++ [summary_text] |>)
    | (Failed e, s) => (Err e, s)
    | (GaveUp reason e, s) =>
        (Err e, (apply_emergency_compaction_fallback initial_context reason s).2)
    end).

Definition run_compact_task_inner_inline (max_retries : nat) (input initial_context : list item)
    (attempts : list attempt) (s : session) : option (list item * session) :=
  r ← compact_loop false max_retries attempts (start input) s;
  Some (match r with
    | (Finished, s) =>
        let '(new_history, summary_text) := summarize initial_context s in
        let s := s <| history := record_items new_history History.new_history |>
                   <| token_usage_info := None |> in
        (new_history, s <| rollout := rollout s ++ [summary_text] |>)
    | (Failed e, s) => ([], s)
    | (GaveUp reason e, s) => apply_emergency_compaction_fallback initial_context reason s
    end).

Definition run_remote_compact_task_inner (max_retries : nat) (input initial_context : list item)
    (attempts : list (result codex_err (list item))) (s : session)
    : option (result codex_err (list item) * session) :=
  r ← remote_loop max_retries attempts (start input) s;
  Some (match r with
    | (new_history, Finished, s) =>
        let s := replace_history new_history s <| token_usage_info := None |> in
        (Ok new_history, s <| rollout := rollout s ++ [lit "Conversation history compacted."] |>)
    | (_, Failed e, s) => (Err e, s)
    | (_, GaveUp reason e, s) =>
        let '(emergency_history, s) := apply_emergency_compaction_fallback initial_context reason s in
        (Ok emergency_history, s)
    end).
End compaction.

(** ** Lemmas: the loops end *)

Section lemmas.
Context {opaque : Type}.
Notation item := (response_item opaque).
Context (new_fields : opaque) (clear_turn clear_encrypted : opaque -> opaque).
Context (to_json : list function_call_output_content_item -> option str).
Context (render_history_bridge : list compaction_snippet -> str -> option str).
Implicit Types (p : progress (opaque:=opaque)) (s : session (opaque:=opaque)) (l : list item).

(** What every retry uses up: trims first, then waits for the limit, then retries. *)
Definition attempts_left (max_retries : nat) p : nat :=
  (MAX_COMPACT_CONTEXT_OVERFLOW_TRIMS - truncated_count p) * (3 * (max_retries + 1)) +
  (MAX_COMPACT_USAGE_LIMIT_RETRIES - usage_limit_retries p) * (max_retries + 1) +
  (max_retries - retries p).

Lemma on_overflow_again trimmed minimal e p p' R :
  on_overflow trimmed minimal e p = Again p' ->
  turn_input p' = drop 1 (turn_input p) /\ 1 < length (turn_input p) /\
  attempts_left R p' < attempts_left R p.
Proof.
  unfold on_overflow. destruct (Nat.ltb_spec 1 (length (turn_input p))); [|done].
  destruct (Nat.ltb_spec (truncated_count p) MAX_COMPACT_CONTEXT_OVERFLOW_TRIMS); [|done].
  intros [= <-]. split_and!; [done..|]. unfold attempts_left. cbn [turn_input retries
    truncated_count usage_limit_retries].
  replace (MAX_COMPACT_CONTEXT_OVERFLOW_TRIMS - truncated_count p)
    with (1 + (MAX_COMPACT_CONTEXT_OVERFLOW_TRIMS - (truncated_count p + 1))) by lia.
  rewrite Nat.mul_add_distr_r. generalize (MAX_COMPACT_CONTEXT_OVERFLOW_TRIMS - (truncated_count p + 1)).
  intros k. generalize (k * (3 * (R + 1))). intros a.
  generalize ((MAX_COMPACT_USAGE_LIMIT_RETRIES - usage_limit_retries p) * (R + 1)). intros b.
  unfold MAX_COMPACT_USAGE_LIMIT_RETRIES. lia.
Qed.

Lemma on_usage_limit_again reason e p p' R :
  on_usage_limit reason e p = Again p' ->
  turn_input p' = turn_input p /\ attempts_left R p' < attempts_left R p.
Proof.
  unfold on_usage_limit.
  destruct (Nat.leb_spec MAX_COMPACT_USAGE_LIMIT_RETRIES (usage_limit_retries p)); [done|].
  intros [= <-]. split; [done|]. unfold attempts_left. cbn [turn_input retries
    truncated_count usage_limit_retries].
  assert (E : (MAX_COMPACT_USAGE_LIMIT_RETRIES - usage_limit_retries p) * (R + 1)
    = R + 1 + (MAX_COMPACT_USAGE_LIMIT_RETRIES - (usage_limit_retries p + 1)) * (R + 1)).
  { replace (MAX_COMPACT_USAGE_LIMIT_RETRIES - usage_limit_retries p)
      with (S (MAX_COMPACT_USAGE_LIMIT_RETRIES - (usage_limit_retries p + 1))) by lia. done. }
  rewrite E. generalize ((MAX_COMPACT_USAGE_LIMIT_RETRIES - (usage_limit_retries p + 1)) * (R + 1)).
  intros b. generalize ((MAX_COMPACT_CONTEXT_OVERFLOW_TRIMS - truncated_count p) * (3 * (R + 1))).
  intros a. lia.
Qed.

Lemma on_stream_error_again e p p' R :
  on_stream_error R e p = Again p' ->
  turn_input p' = turn_input p /\ attempts_left R p' < attempts_left R p.
Proof.
  unfold on_stream_error. destruct (Nat.ltb_spec (retries p) R); [|done].
  intros [= <-]. split; [done|]. unfold attempts_left. cbn. lia.
Qed.

(** A retry sends the same items, or all but the oldest of at least two. *)
Definition retried p p' : Prop :=
  turn_input p' = turn_input p \/
  turn_input p' = drop 1 (turn_input p) /\ 1 < length (turn_input p).

Lemma on_error_again e p p' R :
  on_error R e p = Again p' -> retried p p' /\ attempts_left R p' < attempts_left R p.
Proof.
  unfold on_error, retried.
  destruct e; [done|by intros []%(on_usage_limit_again _ _ _ _ R); auto|..];
    (destruct (is_context_overflow_error _);
     [by intros (? & ? & ?)%(on_overflow_again _ _ _ _ _ R); auto
     |by intros []%on_stream_error_again; auto]).
Qed.

Lemma on_remote_error_again e p p' R :
  on_remote_error R e p = Again p' -> retried p p' /\ attempts_left R p' < attempts_left R p.
Proof.
  unfold on_remote_error, retried. destruct (is_context_overflow_error _).
  - by intros (? & ? & ?)%(on_overflow_again _ _ _ _ _ R); auto.
  - destruct e; by (intros []%(on_usage_limit_again _ _ _ _ R) || intros []%on_stream_error_again);
      auto.
Qed.

Lemma compact_loop_ends prunes R attempts p s :
  attempts_left R p < length attempts -> is_Some (compact_loop prunes R attempts p s).
Proof.
  revert p s. induction attempts as [|a attempts IH]; intros p s H; cbn [length] in H; [lia|].
  cbn [compact_loop]. set (p1 := if prunes then _ else p).
  assert (attempts_left R p1 = attempts_left R p) as Hp by (unfold p1; by destruct prunes).
  destruct (drain_to_completed (turn_input p1) a s) as [[u|e] s1]; [by eexists|].
  destruct (on_error R e p1) as [p2|e2|reason e2] eqn:E; [|by eexists..].
  apply IH. apply on_error_again in E. lia.
Qed.

Lemma remote_loop_ends R attempts p s :
  attempts_left R p < length attempts -> is_Some (remote_loop R attempts p s).
Proof.
  revert p s. induction attempts as [|a attempts IH]; intros p s H; cbn [length] in H; [lia|].
  cbn [remote_loop]. set (p1 := Progress _ _ _ _).
  assert (attempts_left R p1 = attempts_left R p) as Hp by done.
  destruct a as [new|e]; [by eexists|].
  destruct (on_remote_error R e p1) as [p2|e2|reason e2] eqn:E; [|by eexists..].
  apply IH. apply on_remote_error_again in E. lia.
Qed.

Lemma attempts_left_start R input :
  attempts_left R (start clear_turn clear_encrypted to_json input) + 1 = 99 * (R + 1).
Proof.
  unfold attempts_left, start, MAX_COMPACT_CONTEXT_OVERFLOW_TRIMS,
    MAX_COMPACT_USAGE_LIMIT_RETRIES. cbn [turn_input retries truncated_count usage_limit_retries].
  lia.
Qed.

(** ** Lemmas: tool outputs and their calls *)

(** Every tool output comes with the call it answers. *)
Definition no_orphans l : Prop :=
  forall i id, i ∈ l -> output_id i = Some id -> exists c, c ∈ l /\ id ∈ call_ids c.

Lemma call_ids_output (i : item) : call_ids i <> [] -> output_id i = None.
Proof. by destruct i. Qed.

Lemma elem_seen_calls id l : id ∈ seen_calls l <-> exists c, c ∈ l /\ id ∈ call_ids c.
Proof.
  unfold seen_calls. assert (Hg : forall acc,
    id ∈ fold_left (fun seen i => list_to_set (call_ids i) ∪ seen) l acc <->
    id ∈ (acc : gset str) \/ exists c, c ∈ l /\ id ∈ call_ids c).
  { induction l as [|i l IH]; intros acc; cbn [fold_left]; [set_solver|].
    rewrite IH, elem_of_union, elem_of_list_to_set. set_solver. }
  rewrite Hg. set_solver.
Qed.

Lemma prune_sublist l : sublist (prune_orphan_tool_outputs l).1 l.
Proof. unfold prune_orphan_tool_outputs. cbn [fst]. apply sublist_filter. Qed.

Lemma prune_no_orphans l : no_orphans (prune_orphan_tool_outputs l).1.
Proof.
  intros i id. unfold prune_orphan_tool_outputs. cbn [fst].
  rewrite list_elem_of_filter. intros [Hk Hi] Ho. unfold has_call in Hk. rewrite Ho in Hk.
  apply bool_decide_eq_true, elem_seen_calls in Hk as (c & Hc & Hid). exists c.
  rewrite list_elem_of_filter. split_and!; [|done|done].
  unfold has_call. rewrite call_ids_output; [done|]. intros E. rewrite E in Hid. set_solver.
Qed.

Lemma prune_last l (m : item) : last l = Some m -> output_id m = None ->
  last (prune_orphan_tool_outputs l).1 = Some m.
Proof.
  intros (l' & ->)%last_Some Ho. unfold prune_orphan_tool_outputs. cbn [fst].
  rewrite filter_app. set (seen := seen_calls _).
  assert (filter (fun i => has_call seen i = true) [m] = [m]) as ->.
  { rewrite filter_cons, decide_True; [done|]. unfold has_call. by rewrite Ho. }
  apply last_snoc.
Qed.

(** A request that a loop may send for the items [l]. *)
Definition request_of l (request : list item) : Prop :=
  sublist request l /\
  forall m, last l = Some m -> output_id m = None -> last request = Some m.

Lemma request_of_trans l1 l2 request :
  request_of l1 l2 -> request_of l2 request -> request_of l1 request.
Proof. intros [H1 H2] [H3 H4]. split; [by etrans|eauto]. Qed.

Lemma request_of_prune l : request_of l (prune_orphan_tool_outputs l).1.
Proof. split; [apply prune_sublist|apply prune_last]. Qed.

Lemma request_of_retried p p' : retried p p' -> request_of (turn_input p) (turn_input p').
Proof.
  intros [->|[-> Hl]]; [by split|]. split; [apply sublist_drop|]. intros m Hm _.
  destruct (turn_input p) as [|i [|j l]]; cbn in *; [lia|lia|done].
Qed.

Lemma drain_requests input a s r s1 :
  drain_to_completed input a s = (r, s1) -> requests s1 = requests s ++ [input].
Proof.
  unfold drain_to_completed. destruct a as [e|events timed_out]; [by intros [= _ <-]|].
  assert (Hg : forall s0, drain_events events timed_out s0 = (r, s1) -> requests s1 = requests s0);
    [|by intros ->%Hg].
  induction events as [|[i| | |e] events IH]; intros s0; cbn [drain_events];
    [by intros [= _ <-]|by intros ->%IH|by intros [= _ <-]|by apply IH|by intros [= _ <-]].
Qed.

Lemma compact_loop_requests R attempts p s e s' :
  compact_loop true R attempts p s = Some (e, s') ->
  exists new, requests s' = requests s ++ new /\
    Forall (fun request => no_orphans request /\ request_of (turn_input p) request) new.
Proof.
  revert p s. induction attempts as [|a attempts IH]; intros p s; cbn [compact_loop]; [done|].
  set (p1 := Progress _ _ _ _).
  assert (Hp : no_orphans (turn_input p1) /\ request_of (turn_input p) (turn_input p1))
    by (split; [apply prune_no_orphans|apply request_of_prune]).
  destruct (drain_to_completed (turn_input p1) a s) as [r s1] eqn:Ed.
  apply drain_requests in Ed. cbn [turn_input] in Ed.
  destruct r as [u|err]; [intros [= <- <-]; by exists [turn_input p1]; rewrite Forall_singleton|].
  destruct (on_error R err p1) as [p2|e2|reason e2] eqn:E;
    [|intros [= <- <-]; by exists [turn_input p1]; rewrite Forall_singleton..].
  intros (new & Hr & Hnew)%IH. exists (turn_input p1 :: new). rewrite Hr, Ed, <- app_assoc.
  split; [done|]. constructor; [done|]. eapply Forall_impl; [exact Hnew|].
  intros request [Ho Hq]. split; [done|].
  apply on_error_again in E as [E%request_of_retried _].
  eapply request_of_trans; [apply Hp|]. by eapply request_of_trans.
Qed.

Lemma remote_loop_requests R attempts p s h e s' :
  remote_loop R attempts p s = Some (h, e, s') ->
  exists new, requests s' = requests s ++ new /\
    Forall (fun request => no_orphans request /\ request_of (turn_input p) request) new.
Proof.
  revert p s. induction attempts as [|a attempts IH]; intros p s; cbn [remote_loop]; [done|].
  set (p1 := Progress _ _ _ _). set (s1 := update _ _ _).
  assert (Hp : no_orphans (turn_input p1) /\ request_of (turn_input p) (turn_input p1))
    by (split; [apply prune_no_orphans|apply request_of_prune]).
  assert (Ed : requests s1 = requests s ++ [turn_input p1]) by done.
  destruct a as [u|err]; [intros [= <- <- <-]; by exists [turn_input p1]; rewrite Forall_singleton|].
  destruct (on_remote_error R err p1) as [p2|e2|reason e2] eqn:E;
    [|intros [= <- <- <-]; by exists [turn_input p1]; rewrite Forall_singleton..].
  intros (new & Hr & Hnew)%IH. exists (turn_input p1 :: new). rewrite Hr, Ed, <- app_assoc.
  split; [done|]. constructor; [done|]. eapply Forall_impl; [exact Hnew|].
  intros request [Ho Hq]. split; [done|].
  apply on_remote_error_again in E as [E%request_of_retried _].
  eapply request_of_trans; [apply Hp|]. by eapply request_of_trans.
Qed.

(** ** Lemmas: what the loop leaves behind *)

Lemma record_items_app new (h : conversation_history opaque) :
  items (record_items new h) = items h ++ filter (fun i => is_api_message i = true) new.
Proof. unfold record_items. cbn [items]. apply push_api_all. Qed.

(** *** What is streamed, independently of the loop *)

(** The items of a response up to its end, its failure or the first lack of events. *)
Fixpoint streamed_items (events : list stream_event) : list item :=
  match events with
  | OutputItemDone i :: events => i :: streamed_items events
  | OtherEvent :: events => streamed_items events
  | ResponseCompleted :: _ | EventFailed _ :: _ | [] => []
  end.

Definition streamed_by (a : attempt) : list item :=
  match a with OpenFailed _ => [] | Streamed events _ => streamed_items events end.

Definition quiet (e : stream_event (opaque := opaque)) : Prop :=
  match e with OutputItemDone _ | OtherEvent => True | ResponseCompleted | EventFailed _ => False end.

(** An attempt whose response is complete. *)
Definition completes (a : attempt) : Prop :=
  exists before after timed_out,
    a = Streamed (before ++ ResponseCompleted :: after) timed_out /\ Forall quiet before.

(** The items that some attempts add to the history. *)
Definition streamed_in (l : list attempt) : list item :=
  filter (fun i => is_api_message i = true) (concat (streamed_by <$> l)).

(** Compaction gives up for good at a usage limit and when the context is exceeded. *)
Definition resets (e : codex_err) : Prop :=
  e <> Interrupted /\ (e = UsageLimitReached \/ is_context_overflow_error e = true).

(** What [session] changes while answers [added] are streamed. *)
Definition streamed added s s' : Prop :=
  items (history s') = items (history s) ++ added /\
  token_usage_info s' = token_usage_info s /\ current_task s' = current_task s /\
  rollout s' = rollout s.

Lemma streamed_trans a1 a2 s1 s2 s3 :
  streamed a1 s1 s2 -> streamed a2 s2 s3 -> streamed (a1 ++ a2) s1 s3.
Proof.
  intros (E1 & T1 & C1 & R1) (E2 & T2 & C2 & R2). split; [|split_and!; congruence].
  by rewrite E2, E1, <- app_assoc.
Qed.

Lemma streamed_in_app (l k : list attempt) : streamed_in (l ++ k) = streamed_in l ++ streamed_in k.
Proof. unfold streamed_in. by rewrite fmap_app, concat_app, filter_app. Qed.

Lemma streamed_in_one (a : attempt) :
  streamed_in [a] = filter (fun i => is_api_message i = true) (streamed_by a).
Proof. unfold streamed_in. cbn. by rewrite app_nil_r. Qed.

Lemma completes_events (events : list stream_event) timed_out :
  completes (Streamed events timed_out) <->
  exists before after, events = before ++ ResponseCompleted :: after /\ Forall quiet before.
Proof.
  unfold completes. split.
  - intros (before & after & t & [= -> _] & H). by exists before, after.
  - intros (before & after & -> & H). by exists before, after, timed_out.
Qed.

Lemma completes_cons (e : stream_event) events timed_out : quiet e ->
  completes (Streamed (e :: events) timed_out) <-> completes (Streamed events timed_out).
Proof.
  intros He. rewrite !completes_events. split.
  - intros ([|e' before] & after & [= -> ->] & H); [done|]. apply Forall_cons in H as [_ H]. eauto.
  - intros (before & after & -> & H). exists (e :: before), after. split; [done|]. by constructor.
Qed.

Lemma completes_end (e : stream_event) events timed_out : ~ quiet e ->
  completes (Streamed (e :: events) timed_out) <-> e = ResponseCompleted.
Proof.
  intros He. rewrite completes_events. split.
  - intros ([|e' before] & after & [= -> ->] & H); [done|]. by apply Forall_cons in H as [H _].
  - intros ->. by exists [], events.
Qed.

Lemma drain_events_streamed (events : list stream_event) timed_out s r s1 :
  drain_events events timed_out s = (r, s1) ->
  streamed (filter (fun i => is_api_message i = true) (streamed_items events)) s s1 /\
  (is_ok r = true <-> completes (Streamed events timed_out)).
Proof.
  revert s. induction events as [|[i| | |e] events IH]; intros s; cbn [drain_events streamed_items].
  - intros [= <- <-]. split; [by rewrite filter_nil; split; [by rewrite app_nil_r|]|].
    rewrite completes_events. split; [done|]. by intros ([] & ? & ? & _).
  - intros [H Hr]%IH. rewrite completes_cons by done. split; [|done].
    change (i :: streamed_items events) with ([i] ++ streamed_items events). rewrite filter_app.
    eapply streamed_trans; [|exact H]. split; [apply record_items_app|done].
  - intros [= <- <-]. split; [by split; [by rewrite app_nil_r|]|].
    rewrite completes_end by (by intros []). done.
  - intros [H Hr]%IH. by rewrite completes_cons by done.
  - intros [= <- <-]. split; [by split; [by rewrite app_nil_r|]|].
    rewrite completes_end by (by intros []). done.
Qed.

Lemma drain_streamed input a s r s1 : drain_to_completed input a s = (r, s1) ->
  streamed (streamed_in [a]) s s1 /\ (is_ok r = true <-> completes a).
Proof.
  unfold drain_to_completed. rewrite streamed_in_one. destruct a as [e|events timed_out]; cbn [streamed_by].
  { intros [= <- <-]. split; [by split; [by rewrite app_nil_r|]|]. split; [done|].
    by intros (? & ? & ? & ? & _). }
  by intros [(H & ? & ? & ?) Hr]%drain_events_streamed.
Qed.

Lemma on_error_ends R e p :
  match on_error R e p with
  | Again _ => True
  | GiveUp e' => e' = e /\ ~ resets e
  | Emergency _ e' => e' = e /\ resets e
  end.
Proof.
  unfold on_error, on_usage_limit, on_overflow, on_stream_error, resets.
  clear. destruct e; repeat case_match; try done; simplify_eq; (split; [done|]); try (split; [done|by auto]).
  all: intros [? [?|?]]; congruence.
Qed.

(** The attempts that the loop makes: only the last one may be complete. *)
Lemma compact_loop_streamed prunes R attempts p s e s' :
  compact_loop prunes R attempts p s = Some (e, s') ->
  exists made last_ rest, attempts = made ++ last_ :: rest /\
    Forall (fun a => ~ completes a) made /\ streamed (streamed_in (made ++ [last_])) s s' /\
    match e with
    | Finished => completes last_
    | Failed e => ~ completes last_ /\ ~ resets e
    | GaveUp _ e => ~ completes last_ /\ resets e
    end.
Proof.
  revert p s. induction attempts as [|a attempts IH]; intros p s; cbn [compact_loop]; [done|].
  set (p1 := if prunes then _ else p).
  destruct (drain_to_completed (turn_input p1) a s) as [r s1] eqn:Ed.
  apply drain_streamed in Ed as [Hs Hr]. destruct r as [u|err].
  { intros [= <- <-]. exists [], a, attempts. split_and!; [done|constructor|done|]. by apply Hr. }
  assert (~ completes a) as Hn by (intros H; by apply Hr in H).
  pose proof (on_error_ends R err p1) as He.
  destruct (on_error R err p1) as [p2|e2|reason e2]; [|intros [= <- <-]; destruct He as [-> He]..].
  - intros (made & last_ & rest & -> & Hm & H & He')%IH. exists (a :: made), last_, rest.
    split_and!; [done|by constructor| |done].
    change ((a :: made) ++ [last_]) with ([a] ++ (made ++ [last_])). rewrite streamed_in_app.
    by eapply streamed_trans.
  - exists [], a, attempts. by split_and!.
  - exists [], a, attempts. by split_and!.
Qed.

(** ** Lemmas: the exchanges that are kept *)

Lemma omap_step {A B} (f : A -> option B) x (l : list A) :
  omap f (x :: l) = match f x with Some y => y :: omap f l | None => omap f l end.
Proof. done. Qed.

Lemma omap_reverse {A B} (f : A -> option B) (l : list A) :
  omap f (reverse l) = reverse (omap f l).
Proof.
  induction l as [|x l IH]; [done|]. rewrite reverse_cons, omap_app, IH, !omap_step.
  destruct (f x); [by rewrite reverse_cons|by rewrite app_nil_r].
Qed.

Notation snippet := (compaction_snippet).

Definition snippets_bytes (l : list snippet) : nat :=
  sum_list ((fun x => str_len (snippet_text x)) <$> l).

Lemma snippets_bytes_app (l1 l2 : list snippet) :
  snippets_bytes (l1 ++ l2) = snippets_bytes l1 + snippets_bytes l2.
Proof. unfold snippets_bytes. by rewrite fmap_app, sum_list_with_app. Qed.

(** The kept snippets: within both limits, but for a single one, and as many as fit. *)
Definition fits (l : list snippet) : Prop :=
  length l <= MAX_COMPACTION_SNIPPETS /\
  (length l <= 1 \/ snippets_bytes l <= COMPACT_USER_MESSAGE_MAX_TOKENS * 4).

Lemma snippets_loop_spec (newest_first : list item) acc :
  fits acc ->
  exists taken rest, omap snippet_of newest_first = taken ++ rest /\
    snippets_loop newest_first acc (snippets_bytes acc) = acc ++ taken /\
    fits (acc ++ taken) /\
    forall x rest', rest = x :: rest' -> ~ fits (acc ++ taken ++ [x]).
Proof.
  revert acc. induction newest_first as [|i older IH]; intros acc Hacc; cbn [snippets_loop].
  { exists [], []. rewrite !app_nil_r. by split_and!. }
  rewrite omap_step. destruct (snippet_of i) as [x|]; [|by apply IH].
  destruct (Nat.leb_spec MAX_COMPACTION_SNIPPETS (length acc)) as [Hm|Hm].
  { exists [], (x :: omap snippet_of older). rewrite !app_nil_r. split_and!; [done..|].
    intros y rest [= <- _] [Hl _]. rewrite !length_app in Hl. cbn in Hl. lia. }
  destruct (negb (length acc =? 0) && _) eqn:Hb.
  { apply andb_true_iff in Hb as [Hz Hb].
    rewrite negb_true_iff, Nat.eqb_neq in Hz. apply Nat.ltb_lt in Hb.
    exists [], (x :: omap snippet_of older). rewrite !app_nil_r. split_and!; [done..|].
    intros y rest [= <- _] [_ Hf]. rewrite !length_app, !snippets_bytes_app in Hf.
    unfold snippets_bytes in Hf at 2. cbn in Hf. unfold snippets_bytes in *. lia. }
  assert (Hx : snippets_bytes acc + str_len (snippet_text x) = snippets_bytes (acc ++ [x])).
  { rewrite snippets_bytes_app. unfold snippets_bytes at 3. cbn. lia. }
  rewrite Hx. destruct (IH (acc ++ [x])) as (taken & rest & E & El & Hf & Hmax).
  { split; [rewrite length_app; cbn; lia|].
    apply andb_false_iff in Hb as [Hz|Hb].
    - rewrite negb_false_iff, Nat.eqb_eq in Hz. left. rewrite length_app. cbn. lia.
    - right. apply Nat.ltb_ge in Hb. lia. }
  exists (x :: taken), rest. rewrite E, El. rewrite <- app_assoc in Hf |- *. split_and!; [done..|].
  intros y rest' Hy. specialize (Hmax y rest' Hy). by rewrite <- app_assoc in Hmax.
Qed.


Lemma fits_reverse (l : list snippet) : fits (reverse l) <-> fits l.
Proof.
  unfold fits, snippets_bytes. by rewrite length_reverse, fmap_reverse, sum_list_with_reverse.
Qed.

(** ** Lemmas: sizes of the shortened items *)

(** The texts of an item, which are strings in memory. *)
Definition item_texts (i : item) : list str :=
  match i with
  | Message _ content _ =>
      (fun c => match c with InputText t | OutputText t | InputImage t => t end) <$> content
  | FunctionCall arguments _ _ => [arguments]
  | CustomToolCall _ input _ => [input]
  | FunctionCallOutput _ output | CustomToolCallOutput _ output _ => [payload_text to_json output]
  | _ => []
  end.

Definition addressable (i : item) : Prop :=
  Forall (fun t => (N.of_nat (str_len t) < 2 ^ 64)%N) (item_texts i).

(** One byte above the limit is possible ([truncate_exceeds_budget]). *)
Definition within_limits (i : item) : Prop :=
  match i with
  | Message _ content _ =>
      Forall (fun c =>
        match c with
        | InputText t | OutputText t => str_len t <= COMPACT_TEXT_CONTENT_MAX_BYTES + 1
        | InputImage t =>
            starts_with (lit "data:") t = false /\ str_len t <= COMPACT_IMAGE_URL_MAX_BYTES
        end) content
  | FunctionCall arguments _ _ => str_len arguments <= COMPACT_TOOL_ARGS_MAX_BYTES + 1
  | CustomToolCall _ input _ => str_len input <= COMPACT_TOOL_ARGS_MAX_BYTES + 1
  | FunctionCallOutput _ output | CustomToolCallOutput _ output _ =>
      str_len (payload_text to_json output) <= COMPACT_TOOL_OUTPUT_MAX_BYTES + 1
  | Reasoning content _ => content = None
  | _ => True
  end.

Lemma truncate_for_compact_bound text max :
  (N.of_nat (str_len text) < 2 ^ 64)%N -> 120 <= max ->
  str_len (truncate_for_compact text max) <= max + 1.
Proof.
  intros Ht Hm. unfold truncate_for_compact. destruct (Nat.leb_spec (str_len text) max); [lia|].
  destruct (truncate_middle_total text max) as (out & tokens & -> & Hout). cbn [fmap option_fmap option_map fst default].
  destruct (Nat.leb_spec (str_len text) max); [lia|].
  destruct Hout as [[(p & mid & q & n & _ & _ & _ & Hl)|[-> _]] _]; [exact Hl|].
  pose proof (div_ceil4_small (str_len text)).
  pose proof (token_marker_short (div_ceil4 (str_len text)) ltac:(lia)). unfold id. lia.
Qed.

Lemma omitted_image_short n : (N.of_nat n < 2 ^ 64)%N ->
  str_len (lit "(image omitted for compaction; " ++ show_nat n ++ lit " bytes)") <=
  COMPACT_TEXT_CONTENT_MAX_BYTES + 1.
Proof.
  intros Hn%show_nat_short. rewrite !str_len_app.
  assert (str_len (lit "(image omitted for compaction; ") = 31) as -> by by vm_compute.
  assert (str_len (lit " bytes)") = 7) as -> by by vm_compute.
  unfold COMPACT_TEXT_CONTENT_MAX_BYTES. lia.
Qed.

Lemma sanitize_within i j : addressable i ->
  sanitize_item clear_turn clear_encrypted to_json i = Some j -> within_limits j.
Proof.
  unfold addressable. intros Ha.
  assert (Hb : forall t max, t ∈ item_texts i -> 120 <= max ->
    str_len (truncate_for_compact t max) <= max + 1).
  { intros t max Ht Hm. apply truncate_for_compact_bound; [|done].
    by apply (proj1 (Forall_forall _ _) Ha). }
  assert (Hl : 120 <= COMPACT_TEXT_CONTENT_MAX_BYTES /\ 120 <= COMPACT_TOOL_ARGS_MAX_BYTES /\
    120 <= COMPACT_TOOL_OUTPUT_MAX_BYTES) by (unfold COMPACT_TEXT_CONTENT_MAX_BYTES,
    COMPACT_TOOL_ARGS_MAX_BYTES, COMPACT_TOOL_OUTPUT_MAX_BYTES; lia).
  destruct Hl as (Hl1 & Hl2 & Hl3).
  destruct i as [| role content rest| | | | | | | | | | | | | |]; cbn [sanitize_item item_texts] in *;
    try (intros [= <-]; cbn [within_limits]; first [done|apply Hb; [set_solver|done]]).
  destruct (sanitize_content <$> content) as [|c cs] eqn:E; [done|]. intros [= <-].
  cbn [within_limits]. rewrite <- E. apply Forall_fmap, Forall_forall. intros d Hd. cbn [compose].
  pose proof (list_elem_of_fmap_2
    (fun c => match c with InputText t | OutputText t | InputImage t => t end) _ _ Hd) as Ht.
  destruct d as [t|t|t]; cbn [compose sanitize_content]; [by apply Hb| |by apply Hb].
  destruct (starts_with (lit "data:") t || _) eqn:Hi.
  - apply omitted_image_short. by apply (proj1 (Forall_forall _ _) Ha).
  - apply orb_false_iff in Hi as [? ?%Nat.ltb_ge]. done.
Qed.

Lemma sanitized_within l : Forall addressable l ->
  Forall within_limits (sanitize_items_for_compact clear_turn clear_encrypted to_json l).
Proof.
  intros Ha. apply Forall_forall. intros j. unfold sanitize_items_for_compact.
  rewrite list_elem_of_omap. intros (i & Hi & Hj). eapply sanitize_within; [|exact Hj].
  by apply (proj1 (Forall_forall _ _) Ha).
Qed.

(** ** Properties *)

Notation perform := (perform_compaction new_fields clear_turn clear_encrypted to_json
  render_history_bridge).
Notation inline := (run_compact_task_inner_inline new_fields clear_turn clear_encrypted to_json
  render_history_bridge).
Notation remote := (run_remote_compact_task_inner new_fields clear_turn clear_encrypted to_json).
Notation sanitize := (sanitize_items_for_compact clear_turn clear_encrypted to_json).

(** Compaction ends, whatever the model answers: 99 attempts for the first try and each
    allowed retry are more than any of the three tasks makes. *)
Theorem compaction_terminates R sub_id input initial_context remove s
    (attempts : list attempt) (answers : list (result codex_err (list item))) :
  99 * (R + 1) <= length attempts -> 99 * (R + 1) <= length answers ->
  is_Some (perform R sub_id input initial_context remove attempts s) /\
  is_Some (inline R input initial_context attempts s) /\
  is_Some (remote R input initial_context answers s).
Proof.
  intros H1 H2. pose proof (attempts_left_start R input) as Hs.
  unfold perform_compaction, run_compact_task_inner_inline, run_remote_compact_task_inner.
  destruct (compact_loop_ends true R attempts (start clear_turn clear_encrypted to_json input) s)
    as [x1 ->]; [lia|].
  destruct (compact_loop_ends false R attempts (start clear_turn clear_encrypted to_json input) s)
    as [x2 ->]; [lia|].
  destruct (remote_loop_ends R answers (start clear_turn clear_encrypted to_json input) s)
    as [x3 ->]; [lia|].
  split_and!; by eexists.
Qed.

(** Every request that the background task or the remote task sends consists of
    shortened items of the turn, in order, and within their limits; no tool output comes
    without its call; and the last item, the request for a summary, is always there. *)
Theorem compaction_requests R sub_id input initial_context remove s s'
    (attempts : list attempt) (answers : list (result codex_err (list item))) :
  Forall addressable input ->
  (exists r, perform R sub_id input initial_context remove attempts s = Some (r, s')) \/
  (exists r, remote R input initial_context answers s = Some (r, s')) ->
  exists new, requests s' = requests s ++ new /\
    Forall (fun request =>
      no_orphans request /\ sublist request (sanitize input) /\ Forall within_limits request /\
      forall m, last (sanitize input) = Some m -> output_id m = None -> last request = Some m) new.
Proof.
  intros Ha Hrun.
  assert (exists new, requests s' = requests s ++ new /\
    Forall (fun request => no_orphans request /\ request_of (sanitize input) request) new)
    as (new & Hr & Hnew).
  { destruct Hrun as [(r & H)|(r & H)].
    - unfold perform_compaction in H. apply bind_Some in H as ([e s1] & Hl & H).
      apply compact_loop_requests in Hl as (new & Hr & Hnew). exists new. split; [|exact Hnew].
      rewrite <- Hr. destruct e; apply (inj Some) in H; unfold summarize in H;
        injection H as _ <-; [|done..]. destruct remove; [|done]. unfold remove_task. by case_match.
    - unfold run_remote_compact_task_inner in H. apply bind_Some in H as ([[h e] s1] & Hl & H).
      apply remote_loop_requests in Hl as (new & Hr & Hnew). exists new. split; [|exact Hnew].
      rewrite <- Hr. by destruct e; apply (inj Some) in H; injection H as _ <-. }
  exists new. split; [done|]. eapply Forall_impl; [exact Hnew|]. intros request [Ho [Hs Hl]].
  split_and!; [done|done| |done]. apply (forall_sublist _ _ _ Hs). by apply sanitized_within.
Qed.

(** The exchanges kept in a summary are the most recent ones of the conversation, in
    order: at most twelve, at most 80000 bytes unless there is only one, and as many as
    fit. *)
Theorem snippets_kept (items : list item) :
  exists older, omap snippet_of items = older ++ collect_compaction_snippets items /\
    fits (collect_compaction_snippets items) /\
    forall older' x, older = older' ++ [x] -> ~ fits (x :: collect_compaction_snippets items).
Proof.
  unfold collect_compaction_snippets.
  destruct (snippets_loop_spec (reverse items) []) as (taken & rest & E & El & Hf & Hmax).
  { split; [cbn; unfold MAX_COMPACTION_SNIPPETS; lia|left; cbn; lia]. }
  change (snippets_bytes []) with 0 in El. rewrite El. cbn [app] in *.
  exists (reverse rest). split_and!.
  - rewrite <- reverse_app, <- E, <- omap_reverse. by rewrite reverse_involutive.
  - by apply fits_reverse.
  - intros older' x Hr Hx. apply (Hmax x (reverse older')).
    + rewrite <- (reverse_involutive rest), Hr. by rewrite reverse_snoc.
    + apply fits_reverse. by rewrite reverse_snoc.
Qed.

(** *** The result, independently of the code *)

Definition says (i : item) (text : str) : Prop :=
  exists before after fields,
    i = Message (lit "assistant") (before ++ OutputText text :: after) fields /\
    Forall (fun c => forall t, c <> OutputText t) after.

(** The last output text of the last message of the assistant that has one; empty if none has. *)
Definition last_words (l : list item) (text : str) : Prop :=
  (exists before i after, l = before ++ i :: after /\ says i text /\
     Forall (fun j => forall t, ~ says j t) after) \/
  (Forall (fun j => forall t, ~ says j t) l /\ text = []).

(** The message that stands for a history. *)
Definition stands_for (before : list item) (summary : str) (i : item) : Prop :=
  let shown := if bool_decide (trim summary = []) then lit "(no summary available)" else summary in
  i = Message (lit "user") [InputText (default shown
        (render_history_bridge (collect_compaction_snippets before) shown))] new_fields.

Definition last_output (content : list content_item) : option str :=
  head (omap (fun c => match c with OutputText text => Some text | _ => None end) (reverse content)).

Lemma last_output_Some content text : last_output content = Some text <->
  exists before after, content = before ++ OutputText text :: after /\
    Forall (fun c => forall t, c <> OutputText t) after.
Proof.
  unfold last_output. split.
  - induction content as [|c content IH] using rev_ind; [done|]. rewrite reverse_snoc.
    assert ((forall t, c <> OutputText t) \/ exists t, c = OutputText t) as [Hc|[t ->]]
      by (destruct c; [by left|by left|by right; eexists]).
    + assert (omap (fun c => match c with OutputText text => Some text | _ => None end) (c :: reverse content)
        = omap (fun c => match c with OutputText text => Some text | _ => None end) (reverse content)) as ->
        by (destruct c as [t|t|t]; [done|done|by destruct (Hc t)]).
      intros (b & a & -> & H)%IH. exists b, (a ++ [c]). rewrite <- app_assoc.
      split; [done|]. apply Forall_app. split; [done|]. by apply Forall_singleton.
    + cbn. intros [= ->]. by exists content, [].
  - intros (b & a & -> & H). rewrite reverse_app, reverse_cons, <- app_assoc, omap_app.
    assert (omap (fun c => match c with OutputText text => Some text | _ => None end) (reverse a) = []) as ->;
      [|done].
    apply Forall_reverse in H. induction H as [|c l Hc _ IH]; [done|]. cbn. rewrite IH.
    destruct c as [t|t|t]; [done|done|by destruct (Hc t)].
Qed.

Definition said_by (i : item) : option str :=
  match i with
  | Message role content _ => if str_eqb role (lit "assistant") then last_output content else None
  | _ => None
  end.

Lemma said_by_says (i : item) text : said_by i = Some text <-> says i text.
Proof.
  unfold says. split.
  - destruct i as [|role content fields| | | | | | | | | | | | | |]; try done. cbn.
    destruct (str_eqb role _) eqn:E; [|done]. apply str_eqb_eq in E as ->.
    intros (b & a & -> & H)%last_output_Some. by exists b, a, fields.
  - intros (b & a & fields & -> & H). cbn. apply last_output_Some. by exists b, a.
Qed.

Lemma last_words_get (l : list item) :
  last_words l (default [] (get_last_assistant_message_from_turn l)).
Proof.
  change (get_last_assistant_message_from_turn l) with (head (omap said_by (reverse l))).
  unfold last_words. induction l as [|i l IH] using rev_ind; [by right|].
  rewrite reverse_snoc. cbn [omap list_omap]. destruct (said_by i) as [text|] eqn:E.
  - left. exists l, i, []. split; [done|]. by split; [apply said_by_says|].
  - assert (forall t, ~ says i t) as Hi by (intros t Ht%said_by_says; congruence).
    destruct IH as [(b & j & a & -> & Hj & Ha)|[Hl ->]]; [left|right].
    + exists b, j, (a ++ [i]). rewrite <- app_assoc. split; [done|]. split; [done|].
      apply Forall_app. by split; [|apply Forall_singleton].
    + split; [|done]. apply Forall_app. by split; [|apply Forall_singleton].
Qed.

Lemma summary_stands (before : list item) summary :
  stands_for before summary (make_compaction_summary_message new_fields render_history_bridge
    (collect_compaction_snippets before) summary).
Proof.
  unfold stands_for, make_compaction_summary_message, render_compaction_summary. cbn zeta.
  assert (str_eqb (trim summary) [] = bool_decide (trim summary = [])) as ->; [|done].
  apply eq_true_iff_eq. by rewrite str_eqb_eq, bool_decide_eq_true.
Qed.

(** C36: What the local background task leaves.  It makes the attempts up to some one, of which
    only the last may be a complete response.  To the history are added, in order, the items
    streamed by them, as far as the history records them ([is_api_message]).  If the last
    attempt is complete, that history is then replaced by the initial context and one message,
    made from that history's kept exchanges ([collect_compaction_snippets]) and the last words
    of the assistant in it, which are also recorded on disk.  Otherwise an error is returned:
    after a usage limit or an exceeded context the history is replaced by the initial context
    and a warning, and after every other error it stays. *)
Theorem compaction_outcome R sub_id input initial_context remove attempts s r s' :
  perform R sub_id input initial_context remove attempts s = Some (r, s') ->
  exists made last_ rest, attempts = made ++ last_ :: rest /\
    Forall (fun a => ~ completes a) made /\ (is_ok r = true <-> completes last_) /\
    let before := items (history s) ++ streamed_in (made ++ [last_]) in
    match r with
    | Ok _ => exists summary message, last_words before summary /\ stands_for before summary message /\
        items (history s') = initial_context ++ [message] /\ rollout s' = rollout s ++ [summary]
    | Err e => rollout s' = rollout s /\
        ((~ resets e /\ items (history s') = before) \/
         (resets e /\ exists reason, items (history s') = initial_context ++
            [Message (lit "user") [InputText (reason ++ COMPACTION_EMERGENCY_MESSAGE)] new_fields]))
    end.
Proof.
  unfold perform_compaction. intros ([e s1] & Hl & H)%bind_Some.
  apply compact_loop_streamed in Hl as (made & last_ & rest & -> & Hm & (Hi & _ & _ & Hr) & He).
  exists made, last_, rest. split; [done|]. split; [done|]. cbv zeta. rewrite <- Hi, <- Hr.
  destruct e; apply (inj Some) in H; unfold summarize in H; injection H as <- <-.
  - split; [done|].
    assert (history (if remove then remove_task sub_id s1 else s1) = history s1) as ->
      by (unfold remove_task; by repeat case_match).
    eexists _, _. split; [apply last_words_get|]. split; [apply summary_stands|]. split; [done|].
    unfold remove_task. by repeat case_match.
  - destruct He as [Hn He]. split; [by split|]. split; [done|]. by left.
  - destruct He as [Hn He]. split; [by split|]. split; [done|]. right. split; [done|].
    case_match; [by exists []|]. eexists (_ ++ lit " "). cbn. by rewrite <- app_assoc.
Qed.
End lemmas.

(** ** Concrete runs *)

Module CompactionRuns.
Definition no_json (_ : list function_call_output_content_item) : option str := None.
Definition plain_bridge (snippets : list compaction_snippet) (summary : str) : option str :=
  Some (concat (snippet_text <$> snippets) ++ [LF] ++ summary).

Definition call : response_item unit := FunctionCall (lit "{}") (lit "c1") tt.
Definition output : response_item unit :=
  FunctionCallOutput (lit "c1") (FunctionCallOutputPayload (Text (lit "done")) None).
Definition prompt : response_item unit := Message (lit "user") [InputText (lit "Summarize")] tt.
Definition question : response_item unit := Message (lit "user") [InputText (lit "Why?")] tt.
Definition answer : response_item unit :=
  Message (lit "assistant") [OutputText (lit "Because.")] tt.
Definition idle : session (opaque:=unit) :=
  Session (ConversationHistory [question; call; output]) None (Some (lit "t1")) [] [].

(** The first request is too long, the second one is answered. *)
Definition attempts : list (attempt (opaque:=unit)) :=
  [Streamed [EventFailed (StreamError (lit "context_length_exceeded"))] false;
   Streamed [OutputItemDone answer; ResponseCompleted] false].

Notation perform := (perform_compaction tt id id no_json plain_bridge).
Notation inline := (run_compact_task_inner_inline tt id id no_json plain_bridge).

Lemma compaction_terminates_witness :
  is_Some (perform 0 (lit "t1") [prompt] [] true (replicate 99 (OpenFailed OtherError)) idle).
Proof.
  apply (compaction_terminates tt id id no_json plain_bridge 0 (lit "t1") [prompt] [] true idle
    (replicate 99 (OpenFailed OtherError)) (replicate 99 (Err OtherError)));
    rewrite length_replicate; lia.
Defined.

Definition input := [call; output; prompt].
Definition after : session := default idle (snd <$> perform 1 (lit "t1") input [] true attempts idle).

Lemma ran : perform 1 (lit "t1") input [] true attempts idle = Some (Ok tt, after).
Proof. by vm_compute. Qed.

(** When the call is dropped, its output goes with it. *)
Lemma compaction_requests_witness :
  requests after = [input; [prompt]] /\
  Forall (fun request => no_orphans request /\ last request = Some prompt) (requests after).
Proof.
  split; [by vm_compute|].
  destruct (compaction_requests tt id id no_json plain_bridge 1 (lit "t1") input [] true idle after
    attempts []) as (new & Hr & Hnew).
  - repeat constructor.
  - left. exists (Ok tt). exact ran.
  - change (requests idle ++ new) with new in Hr. rewrite Hr.
    eapply Forall_impl; [exact Hnew|]. intros request (Ho & _ & _ & Hl). split; [exact Ho|].
    by apply Hl.
Defined.

Lemma compaction_outcome_witness :
  items (history after) =
    [user_text tt (lit "Why?Because." ++ [LF] ++ lit "Because.")] /\ rollout after = [lit "Because."].
Proof.
  destruct (compaction_outcome tt id id no_json plain_bridge 1 (lit "t1") input [] true attempts
    idle (Ok tt) after ran) as (made & last_ & rest & _ & _ & _ & _).
  split; by vm_compute.
Defined.

(** The inline task does not remove outputs whose calls it has dropped: its second request
    is an output without its call. *)
Lemma inline_sends_orphans :
  exists h s', inline 1 input [] attempts idle = Some (h, s') /\
    requests s' = [input; [output; prompt]] /\ ~ no_orphans [output; prompt].
Proof.
  do 2 eexists. split; [by vm_compute|]. split; [by vm_compute|]. intros H.
  destruct (H output (lit "c1")) as (c & Hc & Hid); [set_solver|done|].
  rewrite !elem_of_cons in Hc. destruct Hc as [->|[->|Hc]]; set_solver.
Qed.
End CompactionRuns.
