(* ===== verification/SessionMetrics.v ===== *)
(** * Token counts of an Auto Drive session

    [code-auto-drive-core/src/session_metrics.rs] and [TokenUsage] of
    [core/src/protocol.rs]: what the coordinator knows of the tokens it has used, an
    estimate of its next prompt from the last few, and a warning when its conversation
    repeats itself.

    The counters wrap or saturate as in a release build.  [metrics_follow] relates the
    state to the list of the turns recorded so far: the window holds the last prompts
    that were not empty. *)

From stdpp Require Import base list.
From S2P Require Import Prelude.

(** ** [TokenUsage] *)

Record token_usage := TokenUsage {
  input_tokens : N;
  cached_input_tokens : N;
  cache_write_input_tokens : N;
  output_tokens : N;
  reasoning_output_tokens : N;
  total_tokens : N
}.

Definition no_usage : token_usage := TokenUsage 0 0 0 0 0 0.

Definition is_zero (u : token_usage) : bool := (total_tokens u =? 0)%N.

Definition cached_input (u : token_usage) : N := cached_input_tokens u.

Definition non_cached_input (u : token_usage) : N := (input_tokens u - cached_input u)%N.

Definition usage_blended_total (u : token_usage) : N :=
  wrapping_add64 (non_cached_input u) (output_tokens u).

Definition tokens_in_context_window (u : token_usage) : N :=
  (total_tokens u - reasoning_output_tokens u)%N.

Definition add_assign (u other : token_usage) : token_usage :=
  TokenUsage
    (wrapping_add64 (input_tokens u) (input_tokens other))
    (wrapping_add64 (cached_input_tokens u) (cached_input_tokens other))
    (wrapping_add64 (cache_write_input_tokens u) (cache_write_input_tokens other))
    (wrapping_add64 (output_tokens u) (output_tokens other))
    (wrapping_add64 (reasoning_output_tokens u) (reasoning_output_tokens other))
    (wrapping_add64 (total_tokens u) (total_tokens other)).

(** ** [SessionMetrics] *)

Definition DEFAULT_PROMPT_ESTIMATE : N := 4000.

Record session_metrics := SessionMetrics {
  running_total : token_usage;
  last_turn : token_usage;
  turn_count : N;
  replay_updates : N;
  duplicate_items : N;
  recent_prompt_tokens : list N;
  window : nat
}.

#[export] Instance session_metrics_fields : Fields session_metrics := fun m =>
  SessionMetrics (running_total m) (last_turn m) (turn_count m) (replay_updates m)
    (duplicate_items m) (recent_prompt_tokens m) (window m).

Local Open Scope record_scope.

Definition new_metrics (window : nat) : session_metrics :=
  SessionMetrics no_usage no_usage 0 0 0 [] (Nat.max window 1).

Definition default_metrics : session_metrics := new_metrics 3.

Definition push_prompt_observation (tokens : N) (m : session_metrics) : session_metrics :=
  if (tokens =? 0)%N then m
  else
    let recent :=
      if length (recent_prompt_tokens m) =? window m
      then drop 1 (recent_prompt_tokens m) else recent_prompt_tokens m in
    m <| recent_prompt_tokens := recent ++ [tokens] |>.

Definition record_turn (usage : token_usage) (m : session_metrics) : session_metrics :=
  push_prompt_observation (non_cached_input usage)
    (m <| running_total := add_assign (running_total m) usage |>
       <| last_turn := usage |>
       <| turn_count := saturating_add32 (turn_count m) 1 |>).

Definition record_turn_without_usage (estimated_prompt_tokens : N) (m : session_metrics)
    : session_metrics :=
  push_prompt_observation estimated_prompt_tokens
    (m <| turn_count := saturating_add32 (turn_count m) 1 |>).

Definition sync_absolute (total last : token_usage) (count : N) (m : session_metrics)
    : session_metrics :=
  push_prompt_observation (non_cached_input last)
    (m <| running_total := total |> <| last_turn := last |> <| turn_count := count |>
       <| replay_updates := 0%N |> <| duplicate_items := 0%N |>
       <| recent_prompt_tokens := [] |>).

Definition has_recorded_usage (m : session_metrics) : bool :=
  negb (is_zero (running_total m)) || negb (is_zero (last_turn m)).

Definition blended_total (m : session_metrics) : N := usage_blended_total (running_total m).

(** [iter().sum::<u64>()] *)
Definition sum_u64 (l : list N) : N := fold_left wrapping_add64 l 0%N.

Definition estimated_next_prompt_tokens (m : session_metrics) : N :=
  match recent_prompt_tokens m with
  | [] =>
      let fallback := non_cached_input (last_turn m) in
      if (0 <? fallback)%N then fallback else DEFAULT_PROMPT_ESTIMATE
  | recent => (sum_u64 recent / N.of_nat (length recent))%N
  end.

Definition reset (m : session_metrics) : session_metrics := new_metrics (window m).

Definition record_replay (m : session_metrics) : session_metrics :=
  m <| replay_updates := saturating_add32 (replay_updates m) 1 |>.

Definition record_duplicate_items (count : nat) (m : session_metrics) : session_metrics :=
  if count =? 0 then m
  else m <| duplicate_items :=
         saturating_add32 (duplicate_items m) (N.min (N.of_nat count) (2 ^ 32 - 1)) |>.

Definition set_duplicate_items (count : N) (m : session_metrics) : session_metrics :=
  m <| duplicate_items := count |>.

Definition set_replay_updates (count : N) (m : session_metrics) : session_metrics :=
  m <| replay_updates := count |>.

Definition REPLAY_WARNING_THRESHOLD : N := 2.
Definition REPLAY_CRITICAL_THRESHOLD : N := 4.
Definition DUPLICATE_WARNING_THRESHOLD : N := 3.

Definition loop_detection_warning (m : session_metrics) : option str :=
  let replays := replay_updates m in
  let duplicates := duplicate_items m in
  if (REPLAY_CRITICAL_THRESHOLD <=? replays)%N then
    Some (lit "LOOP DETECTED: " ++ show_N replays ++
          lit (" consecutive replay attempts observed. " ++
               "The same commands are being issued repeatedly without progress. " ++
               "STOP and reassess: (1) Check if the task is already complete, " ++
               "(2) Try a fundamentally different approach, " ++
               "(3) If stuck, use finish_failed with a clear explanation of the blocker."))
  else if (REPLAY_WARNING_THRESHOLD <=? replays)%N then
    Some (lit "Potential loop detected: " ++ show_N replays ++
          lit (" replay attempts observed. " ++
               "Recent actions may be repeating. Consider: " ++
               "(1) Verifying actual progress was made, " ++
               "(2) Trying a different strategy if the current approach isn't working, " ++
               "(3) Checking for already-completed conditions before retrying."))
  else if (DUPLICATE_WARNING_THRESHOLD <=? duplicates)%N then
    Some (lit "Repetition detected: " ++ show_N duplicates ++
          lit (" duplicate items in conversation history. " ++
               "This may indicate a stuck state. Ensure each action produces new, " ++
               "meaningful progress toward the goal."))
  else None.

(** ** What the metrics say of the turns recorded *)

(** A turn of the coordinator: the service reported its usage, or the prompt is estimated. *)
Inductive turn :=
| WithUsage (usage : token_usage)
| WithoutUsage (estimated_prompt_tokens : N).

Definition record (m : session_metrics) (t : turn) : session_metrics :=
  match t with
  | WithUsage usage => record_turn usage m
  | WithoutUsage tokens => record_turn_without_usage tokens m
  end.

Definition prompt (t : turn) : N :=
  match t with WithUsage usage => non_cached_input usage | WithoutUsage tokens => tokens end.

Definition usage_of (t : turn) : option token_usage :=
  match t with WithUsage usage => Some usage | WithoutUsage _ => None end.

(** The last [n] elements. *)
Definition lastn {A} (n : nat) (l : list A) : list A := drop (length l - n) l.

(** The prompts the window is about: those that were not empty. *)
Definition prompts (turns : list turn) : list N :=
  filter (fun p => (0 < p)%N) (prompt <$> turns).

Definition metrics_follow (turns : list turn) (m : session_metrics) : Prop :=
  1 <= window m /\
  recent_prompt_tokens m = lastn (window m) (prompts turns) /\
  turn_count m = N.min (N.of_nat (length turns)) (2 ^ 32 - 1) /\
  last_turn m = default no_usage (last (omap usage_of turns)) /\
  running_total m = fold_left add_assign (omap usage_of turns) no_usage.

Lemma lastn_length {A} n (l : list A) : length (lastn n l) = Nat.min n (length l).
Proof. unfold lastn. rewrite length_drop. lia. Qed.

Lemma lastn_snoc {A} n (l : list A) x : 1 <= n ->
  lastn n (l ++ [x]) =
  (if length (lastn n l) =? n then drop 1 (lastn n l) else lastn n l) ++ [x].
Proof.
  intros Hn. rewrite lastn_length. unfold lastn. rewrite length_app. cbn [length].
  destruct (Nat.eqb_spec (Nat.min n (length l)) n).
  - rewrite drop_drop, drop_app_le by lia. do 2 f_equal. lia.
  - rewrite drop_app_le by lia. do 2 f_equal. lia.
Qed.

Lemma push_follows tokens m ps : 1 <= window m ->
  recent_prompt_tokens m = lastn (window m) ps ->
  recent_prompt_tokens (push_prompt_observation tokens m) =
  lastn (window m) (ps ++ filter (fun p => (0 < p)%N) [tokens]) /\
  window (push_prompt_observation tokens m) = window m /\
  turn_count (push_prompt_observation tokens m) = turn_count m /\
  last_turn (push_prompt_observation tokens m) = last_turn m /\
  running_total (push_prompt_observation tokens m) = running_total m.
Proof.
  intros Hw Hr. unfold push_prompt_observation.
  destruct (N.eqb_spec tokens 0) as [->|].
  - rewrite filter_cons_False, filter_nil, app_nil_r by lia. done.
  - rewrite filter_cons_True, filter_nil by lia. cbn. rewrite Hr.
    split; [|done]. symmetry. by apply lastn_snoc.
Qed.

Lemma record_follows turns m t :
  metrics_follow turns m -> metrics_follow (turns ++ [t]) (record m t).
Proof.
  intros (Hw & Hr & Hc & Hl & Ht).
  assert (Hp : prompts (turns ++ [t]) = prompts turns ++ filter (fun p => (0 < p)%N) [prompt t])
    by (unfold prompts; by rewrite fmap_app, filter_app).
  unfold metrics_follow. rewrite Hp, length_app, omap_app. cbn [length].
  assert (Hcount : saturating_add32 (turn_count m) 1 =
                   N.min (N.of_nat (length turns + 1)) (2 ^ 32 - 1))
    by (rewrite Hc; unfold saturating_add32; lia).
  destruct t as [usage|tokens]; cbn [record prompt usage_of omap list_omap].
  - unfold record_turn.
    edestruct (push_follows (non_cached_input usage)) as (-> & -> & -> & -> & ->);
      [| |cbn; rewrite last_snoc, fold_left_app, <- Ht]; cbn; done.
  - unfold record_turn_without_usage.
    edestruct (push_follows tokens) as (-> & -> & -> & -> & ->);
      [| |cbn; rewrite app_nil_r]; cbn; done.
Qed.

Lemma fold_record turns m prefix :
  metrics_follow prefix m -> metrics_follow (prefix ++ turns) (fold_left record turns m).
Proof.
  revert m prefix. induction turns as [|t turns IH]; intros m prefix H; cbn [fold_left].
  - by rewrite app_nil_r.
  - rewrite (assoc_L (++) prefix [t] turns : prefix ++ t :: turns = _).
    by apply IH, record_follows.
Qed.

(** However the turns come, the metrics are those of the turns: the window holds the last
    prompts. *)
Theorem metrics_of_turns window turns :
  metrics_follow turns (fold_left record turns (new_metrics window)).
Proof.
  apply (fold_record turns (new_metrics window) []). unfold metrics_follow. cbn.
  repeat split; lia.
Qed.

(** ** The estimate lies between the prompts it is made of *)

Lemma fold_wrapping l acc : (acc + foldr N.add 0 l < 2 ^ 64)%N ->
  fold_left wrapping_add64 l acc = (acc + foldr N.add 0 l)%N.
Proof.
  revert acc. induction l as [|x l IH]; intros acc H; cbn [fold_left foldr] in *; [lia|].
  assert (E : wrapping_add64 acc x = (acc + x)%N)
    by (unfold wrapping_add64; apply N.mod_small; lia).
  rewrite E, IH; lia.
Qed.

Lemma sum_bounds lo hi l : Forall (fun x => lo <= x <= hi)%N l ->
  (lo * N.of_nat (length l) <= foldr N.add 0 l <= hi * N.of_nat (length l))%N.
Proof. induction 1; cbn [foldr length]; lia. Qed.

(** The estimate of the next prompt is between the smallest and the largest of the last
    prompts, as long as their sum fits a word. *)
Theorem estimate_between window turns lo hi :
  prompts turns <> [] ->
  Forall (fun p => lo <= p <= hi)%N (lastn (Nat.max window 1) (prompts turns)) ->
  (hi * N.of_nat (Nat.max window 1) < 2 ^ 64)%N ->
  (lo <= estimated_next_prompt_tokens (fold_left record turns (new_metrics window)) <= hi)%N.
Proof.
  intros Hne Hb Hfit.
  destruct (metrics_of_turns window turns) as (_ & Hr & _).
  assert (Hwin : forall ts m, SessionMetrics.window (fold_left record ts m) =
                              SessionMetrics.window m).
  { induction ts as [|t ts IH]; intros m; cbn [fold_left]; [done|]. rewrite IH.
    destruct t; cbn [record]; unfold record_turn, record_turn_without_usage,
      push_prompt_observation; by case_match. }
  rewrite Hwin in Hr. cbn [SessionMetrics.window new_metrics] in Hr.
  unfold estimated_next_prompt_tokens. rewrite Hr.
  set (recent := lastn _ _) in *.
  assert (Hlen : 1 <= length recent <= Nat.max window 1).
  { unfold recent. rewrite lastn_length. destruct (prompts turns); [done|]. cbn. lia. }
  pose proof (sum_bounds lo hi recent Hb) as Hs.
  assert (Hsum : sum_u64 recent = foldr N.add 0%N recent)
    by (unfold sum_u64; rewrite fold_wrapping; nia).
  destruct recent as [|x l] eqn:E; [cbn in Hlen; lia|]. rewrite <- E in *. rewrite Hsum.
  split; [apply N.div_le_lower_bound | apply N.div_le_upper_bound]; lia.
Qed.

(** The warning is given exactly for two replays or three duplicates. *)
Lemma warning_given m :
  loop_detection_warning m = None <->
  (replay_updates m < 2)%N /\ (duplicate_items m < 3)%N.
Proof.
  unfold loop_detection_warning, REPLAY_CRITICAL_THRESHOLD, REPLAY_WARNING_THRESHOLD,
    DUPLICATE_WARNING_THRESHOLD.
  repeat case_match; bool_solve; split; try done; lia.
Qed.

(** ** Runs *)

Module MetricsRuns.
Definition used (input output : N) : token_usage := TokenUsage input 0 0 output 0 (input + output).

Definition turns : list turn :=
  [WithUsage (used 1000 500); WithoutUsage 0; WithUsage (used 4000 2000);
   WithoutUsage 7000; WithUsage (used 100 1)].

Example window_of_three :
  recent_prompt_tokens (fold_left record turns default_metrics) = [4000; 7000; 100]%N.
Proof. reflexivity. Qed.

Example no_prompt_yet : estimated_next_prompt_tokens default_metrics = 4000%N.
Proof. reflexivity. Qed.

Lemma estimate_between_witness :
  (100 <= estimated_next_prompt_tokens (fold_left record turns (new_metrics 3)) <= 7000)%N.
Proof.
  apply estimate_between; [done| |reflexivity].
  change (lastn _ _) with [4000; 7000; 100]%N. repeat constructor; lia.
Defined.
End MetricsRuns.
