(* ===== verification/AutoHistory.v ===== *)
(** * The transcript of Auto Drive

    [code-auto-drive-core/src/auto_drive_history.rs] and the two functions of
    [tui/src/chatwidget.rs] that rebuild the coordinator's conversation from it.

    [converted] is the last export of the screen and [raw] what the coordinator is sent:
    the exact items of the model ([append_raw]) and what else appeared on the screen
    ([append_converted_tail]).  An item of the model appears on the screen later, so
    [append_raw] queues it in [pending_duplicates] and [replace_converted] leaves out the
    items at the start of the new part of an export that match the queue.

    Lengths of texts in memory do not overflow and are naturals.  The fields of an item
    that [History] keeps together are read through [ItemFields]. *)

From stdpp Require Import base list.
From S2P Require Import Prelude History Retention Truncation SessionMetrics.

(** The fields of an item that only this code reads: the name of a call, the texts of a
    reasoning item, and the remaining fields of a message without any. *)
Class ItemFields (opaque : Type) := {
  call_name : opaque -> str;
  summary_texts : opaque -> list str;
  segment_text : opaque -> str;
  plain_fields : opaque
}.

(** ** Messages up to what the screen keeps of them *)

Inductive normalized_content :=
| NormInputText (text : str)
| NormOutputText (text : str)
| NormInputImage (image_url : str).

#[export] Instance normalized_content_eq_dec : EqDecision normalized_content.
Proof. solve_decision. Defined.

Record normalized_message := NormalizedMessage {
  norm_role : str;
  norm_content : list normalized_content
}.

#[export] Instance normalized_message_eq_dec : EqDecision normalized_message.
Proof. solve_decision. Defined.

Definition normalize_content (c : content_item) : normalized_content :=
  match c with
  | InputText text => NormInputText text
  | OutputText text => NormOutputText text
  | InputImage image_url => NormInputImage image_url
  end.

Definition content_text (c : normalized_content) : option str :=
  match c with NormInputText text | NormOutputText text | NormInputImage text => Some text end.

(** The first index at which the running sum of the tokens reaches the target. *)
Fixpoint midpoint_from (token_counts : list nat) (idx accumulated target default_idx : nat)
    : nat :=
  match token_counts with
  | [] => default_idx
  | count :: token_counts =>
      if target <=? accumulated + count then idx
      else midpoint_from token_counts (idx + 1) (accumulated + count) target default_idx
  end.

Section history.
Context {opaque : Type} `{!ItemFields opaque}.
Notation item := (response_item opaque).
Context (to_json : list function_call_output_content_item -> option str).

Definition normalize_message (i : item) : option normalized_message :=
  match i with
  | Message role content _ => Some (NormalizedMessage role (normalize_content <$> content))
  | _ => None
  end.

(** [matches!(item, ResponseItem::Message { role, .. } if role == "user")] *)
Definition is_user_message (i : item) : bool :=
  match i with Message role _ _ => str_eqb role (lit "user") | _ => false end.

(** ** Estimates *)

Definition content_bytes (c : content_item) : nat :=
  match c with
  | InputText text | OutputText text => str_len text
  | InputImage image_url => str_len image_url / 10
  end.

Definition output_bytes (c : function_call_output_content_item) : nat :=
  match c with
  | OutInputText text => str_len text
  | OutInputImage image_url _ => str_len image_url / 10
  end.

Definition estimate_item_tokens (i : item) : nat :=
  let byte_count :=
    match i with
    | Message _ content _ => sum_list (content_bytes <$> content)
    | FunctionCall arguments _ rest => str_len (call_name rest) + str_len arguments
    | FunctionCallOutput _ output =>
        match body output with
        | Text text => str_len text
        | ContentItems items => sum_list (output_bytes <$> items)
        end
    | CustomToolCall _ input rest => str_len (call_name rest) + str_len input
    | CustomToolCallOutput _ output _ => str_len (payload_text to_json output)
    | Reasoning content rest =>
        sum_list (str_len <$> summary_texts rest) +
        match content with
        | Some segments => sum_list ((fun s => str_len (segment_text s)) <$> segments)
        | None => 0
        end
    | _ => 0
    end in
  div_ceil4 byte_count.

Definition estimate_tokens (items : list item) : nat :=
  sum_list (estimate_item_tokens <$> items).

(** The index of the first message of the user from [start_idx] on, or the length. *)
Definition advance_to_turn_boundary (items : list item) (start_idx : nat) : nat :=
  match position is_user_message (drop start_idx items) with
  | Some n => start_idx + n
  | None => Nat.max start_idx (length items)
  end.

(** ** [AutoDriveHistory] *)

Record auto_drive_history := AutoDriveHistory {
  converted : list item;
  raw : list item;
  pending_duplicates : list normalized_message;
  prev_compact_summary : option str;
  metrics : session_metrics
}.

#[local] Instance history_fields : Fields auto_drive_history := fun h =>
  AutoDriveHistory (converted h) (raw h) (pending_duplicates h) (prev_compact_summary h)
    (metrics h).

Local Open Scope record_scope.

Definition new_history : auto_drive_history := AutoDriveHistory [] [] [] None default_metrics.

Definition same_texts (i : item) (expected : normalized_message) : bool :=
  match normalize_message i with
  | None => false
  | Some message =>
      str_eqb (norm_role message) (norm_role expected) &&
      bool_decide (omap content_text (norm_content message) =
                   omap content_text (norm_content expected))
  end.

Definition should_skip_entire_tail (tail : list item) (h : auto_drive_history) : bool :=
  match pending_duplicates h with
  | [] => false
  | pending =>
      (length tail =? length pending + 1)
      && match tail with i :: _ => is_user_message i | [] => false end
      && forallb (fun p => same_texts p.1 p.2) (zip (drop 1 tail) pending)
  end.

(** The loop of [replace_converted]: the items kept, what is left of the queue, and the
    metrics. *)
Fixpoint filter_tail (tail : list item) (queue : list normalized_message)
    (m : session_metrics) : list item * list normalized_message * session_metrics :=
  match tail with
  | [] => ([], queue, m)
  | i :: tail =>
      let matched :=
        match normalize_message i, queue with
        | Some message, expected :: _ => bool_decide (message = expected)
        | _, _ => false
        end in
      if matched then filter_tail tail (drop 1 queue) (record_duplicate_items 1 m)
      else
        let '(filtered, queue, m) := filter_tail tail [] m in (i :: filtered, queue, m)
  end.

Definition replace_converted (items : list item) (h : auto_drive_history)
    : list item * auto_drive_history :=
  let prev_len := length (converted h) in
  let h := h <| converted := items |> in
  let tail := if length items <=? prev_len then [] else drop prev_len items in
  match tail with
  | [] => ([], h)
  | _ =>
      if should_skip_entire_tail tail h then
        ([], h <| metrics := record_replay (record_duplicate_items (length tail - 1) (metrics h)) |>
               <| pending_duplicates := [] |>)
      else
        match pending_duplicates h with
        | [] => (tail, h)
        | queue =>
            let '(filtered, queue, m) := filter_tail tail queue (metrics h) in
            (filtered, h <| pending_duplicates := queue |> <| metrics := m |>)
        end
  end.

Definition append_raw (items : list item) (h : auto_drive_history) : auto_drive_history :=
  match items with
  | [] => h
  | _ =>
      h <| raw := raw h ++ items |>
        <| pending_duplicates := pending_duplicates h ++ omap normalize_message items |>
  end.

Definition append_converted_tail (items : list item) (h : auto_drive_history)
    : auto_drive_history :=
  match items with [] => h | _ => h <| raw := raw h ++ items |> end.

Definition raw_snapshot (h : auto_drive_history) : list item := raw h.

Definition replace_all (items : list item) (h : auto_drive_history) : auto_drive_history :=
  h <| converted := items |> <| raw := items |> <| pending_duplicates := [] |>.

Definition clear (h : auto_drive_history) : auto_drive_history :=
  AutoDriveHistory [] [] [] None (reset (metrics h)).

Definition converted_is_empty (h : auto_drive_history) : bool :=
  match converted h with [] => true | _ => false end.

Definition apply_token_metrics (total last : token_usage) (count duplicates replays : N)
    (h : auto_drive_history) : auto_drive_history :=
  h <| metrics := set_replay_updates replays
                    (set_duplicate_items duplicates (sync_absolute total last count (metrics h))) |>.

Definition compact_item (summary_text : str) : item :=
  Message (lit "user")
    [InputText (lit "<compact_summary>" ++ [LF] ++ summary_text ++ [LF] ++
                lit "</compact_summary>")] plain_fields.

(** [compact_slice]; it never fails. *)
Definition compact_slice (summarizer : list item -> str) (h : auto_drive_history)
    : bool * auto_drive_history :=
  match position is_user_message (converted h) with
  | None => (false, h)
  | Some goal_idx =>
      if length (converted h) <=? goal_idx + 3 then (false, h)
      else
        let items_after_goal := drop (goal_idx + 1) (converted h) in
        let total_tokens := estimate_tokens items_after_goal in
        if total_tokens <? N.to_nat 1000 then (false, h)
        else
          let midpoint_idx :=
            midpoint_from (estimate_item_tokens <$> items_after_goal) (goal_idx + 1) 0
              (total_tokens / 2) (goal_idx + 1) in
          let slice_end := advance_to_turn_boundary (converted h) midpoint_idx in
          if slice_end <=? goal_idx + 1 then (false, h)
          else
            let slice_to_compact :=
              take (slice_end - (goal_idx + 1)) (drop (goal_idx + 1) (converted h)) in
            let summary_text := summarizer slice_to_compact in
            (true,
             h <| converted := take (goal_idx + 1) (converted h) ++ [compact_item summary_text] ++
                               drop slice_end (converted h) |>
               <| prev_compact_summary := Some summary_text |>)
  end.

(** ** The two callers of [ChatWidget]; the export of the screen is an argument *)

Definition rebuild_auto_history (export : list item) (h : auto_drive_history)
    : list item * auto_drive_history :=
  let '(tail, h) := replace_converted export h in
  let h := match tail with [] => h | _ => append_converted_tail tail h end in
  (raw_snapshot h, h).

Definition current_auto_history (export : list item) (h : auto_drive_history)
    : list item * auto_drive_history :=
  if converted_is_empty h then rebuild_auto_history export h else (raw_snapshot h, h).

(** ** Matching an export with the queue *)

Lemma filter_tail_nil tail m : filter_tail tail [] m = (tail, [], m).
Proof.
  induction tail as [|i tail IH]; [done|]. cbn [filter_tail].
  destruct (normalize_message i); by rewrite IH.
Qed.

Lemma filter_tail_echo echoes rest queue m :
  normalize_message <$> echoes = Some <$> queue ->
  filter_tail (echoes ++ rest) queue m =
  (rest, [], Nat.iter (length echoes) (record_duplicate_items 1) m).
Proof.
  revert queue m. induction echoes as [|i echoes IH]; intros [|q queue] m H; try done.
  - apply filter_tail_nil.
  - cbn [fmap list_fmap] in H. injection H as Hi H.
    cbn [app filter_tail]. rewrite Hi, bool_decide_true by done.
    cbn [drop length]. rewrite (IH queue) by done. by rewrite Nat.iter_succ_r.
Qed.

(** [replace_converted] removes the longest start of the new items that repeats the queue. *)
Lemma filter_tail_spec tail queue m :
  exists matched, let '(filtered, queue', m') := filter_tail tail queue m in
  tail = matched ++ filtered /\
  normalize_message <$> matched = Some <$> take (length matched) queue /\
  queue' = (match filtered with [] => drop (length matched) queue | _ => [] end) /\
  m' = Nat.iter (length matched) (record_duplicate_items 1) m /\
  (forall i expected, head filtered = Some i -> queue !! length matched = Some expected ->
     normalize_message i <> Some expected).
Proof.
  revert queue m. induction tail as [|i tail IH]; intros queue m.
  { exists []. cbn. rewrite drop_0. done. }
  cbn [filter_tail].
  destruct (match normalize_message i, queue with
            | Some message, expected :: _ => bool_decide (message = expected)
            | _, _ => false
            end) eqn:E.
  - destruct (normalize_message i) as [msg|] eqn:Hi; [|done].
    destruct queue as [|q queue]; [done|]. apply bool_decide_eq_true in E as ->.
    change (drop 1 (q :: queue)) with queue. destruct (IH queue (record_duplicate_items 1 m)) as (matched & H).
    exists (i :: matched).
    destruct (filter_tail tail queue _) as [[filtered q'] m'].
    destruct H as (-> & Hn & Hq & Hm & Hmax). cbn [length take fmap list_fmap drop].
    rewrite Hi, Hn, Nat.iter_succ_r. split_and!; [done|done|exact Hq|exact Hm|exact Hmax].
  - exists []. rewrite filter_tail_nil. repeat split; try done.
    intros j expected [= <-] Hq Hj. rewrite Hj in E. destruct queue as [|q queue]; [done|].
    injection Hq as ->. by apply bool_decide_eq_false in E.
Qed.

(** ** Every item reaches the coordinator once *)

(** Between two exports of the screen the model answers with [sent]; the next export grows
    by their [echoes] and then by [others]. *)
Record round := Round { sent : list item; echoes : list item; others : list item }.

Definition run_round (r : round) (h : auto_drive_history) : auto_drive_history :=
  (rebuild_auto_history (converted h ++ echoes r ++ others r) (append_raw (sent r) h)).2.

(** The screen repeats the messages sent; if a single item follows, the first message is
    not one of the user. *)
Definition echoed (r : round) : Prop :=
  normalize_message <$> echoes r = Some <$> omap normalize_message (sent r) /\
  (length (others r) = 1 -> forall message,
     head (omap normalize_message (sent r)) = Some message -> norm_role message <> lit "user").

Lemma append_raw_unfold items h :
  append_raw items h =
  h <| raw := raw h ++ items |>
    <| pending_duplicates := pending_duplicates h ++ omap normalize_message items |>.
Proof.
  destruct items as [|i items]; [|done]. cbn. rewrite !app_nil_r. by destruct h.
Qed.

Lemma append_converted_tail_unfold items h :
  append_converted_tail items h = h <| raw := raw h ++ items |>.
Proof. destruct items; [|done]. cbn. rewrite app_nil_r. by destruct h. Qed.

Lemma rebuild_unfold export h :
  rebuild_auto_history export h =
  let '(tail, h) := replace_converted export h in
  (raw h ++ tail, h <| raw := raw h ++ tail |>).
Proof.
  unfold rebuild_auto_history, raw_snapshot. destruct (replace_converted export h) as [tail h'].
  rewrite append_converted_tail_unfold. destruct tail as [|i tail]; [|done].
  cbn. rewrite app_nil_r. by destruct h'.
Qed.

Lemma echo_not_skipped r h : echoed r ->
  pending_duplicates h = omap normalize_message (sent r) ->
  should_skip_entire_tail (echoes r ++ others r) h = false.
Proof.
  intros [He Hu] Hp. unfold should_skip_entire_tail. rewrite Hp.
  pose proof (f_equal length He) as Hl. rewrite !length_fmap in Hl.
  destruct (omap normalize_message (sent r)) as [|q pending] eqn:Hs; [done|].
  destruct (Nat.eqb_spec (length (echoes r ++ others r)) (length (q :: pending) + 1)) as [E|];
    [|done].
  rewrite length_app in E.
  destruct (echoes r) as [|i es]; [done|]. cbn [app]. cbn [fmap list_fmap] in He.
  injection He as Hi _. destruct i; try done. cbn in Hi. injection Hi as <-.
  specialize (Hu ltac:(lia) _ eq_refl). cbn [is_user_message norm_role] in *.
  apply str_eqb_neq in Hu. by rewrite Hu.
Qed.

Lemma run_round_spec r h : echoed r -> pending_duplicates h = [] ->
  raw (run_round r h) = raw h ++ sent r ++ others r /\
  converted (run_round r h) = converted h ++ echoes r ++ others r /\
  pending_duplicates (run_round r h) = [].
Proof.
  intros Hr Hp. unfold run_round. rewrite append_raw_unfold, Hp, rebuild_unfold. cbn [app].
  unfold replace_converted.
  set (h1 := update converted _ _). cbn [converted update].
  assert (Htail : (if length (converted h ++ echoes r ++ others r) <=? length (converted h)
                   then [] else drop (length (converted h)) (converted h ++ echoes r ++ others r))
                  = echoes r ++ others r).
  { destruct (Nat.leb_spec (length (converted h ++ echoes r ++ others r))
                (length (converted h))) as [E|]; [|apply drop_app_length].
    rewrite length_app in E. destruct (echoes r ++ others r); [done|cbn in E; lia]. }
  change (converted (h <| raw := _ |> <| pending_duplicates := _ |>)) with (converted h).
  rewrite Htail.
  assert (Hskip : should_skip_entire_tail (echoes r ++ others r) h1 = false)
    by (by apply echo_not_skipped).
  destruct Hr as [He _].
  destruct (echoes r ++ others r) as [|i tail] eqn:Et.
  { apply app_eq_nil in Et as [Ee Eo]. rewrite Ee in He. rewrite Eo.
    subst h1. cbn. rewrite !app_nil_r. split_and!; [done|done|].
    by destruct (omap normalize_message (sent r)). }
  rewrite Hskip, <- Et. clear Hskip.
  change (pending_duplicates h1) with (omap normalize_message (sent r)).
  destruct (omap normalize_message (sent r)) as [|q pending] eqn:Hs.
  - destruct (echoes r); [|done]. subst h1. cbn in Et |- *. by rewrite <- app_assoc, Et.
  - rewrite (filter_tail_echo _ _ (q :: pending)) by done.
    subst h1. cbn. by rewrite <- app_assoc, Et.
Qed.

(** What the model sent and what else appeared on the screen reaches the coordinator once,
    in order, as long as the screen repeats what was sent. *)
Theorem items_reach_once rounds h :
  Forall echoed rounds -> pending_duplicates h = [] ->
  let h' := foldl (fun h r => run_round r h) h rounds in
  raw h' = raw h ++ concat ((fun r => sent r ++ others r) <$> rounds) /\
  converted h' = converted h ++ concat ((fun r => echoes r ++ others r) <$> rounds).
Proof.
  revert h. induction rounds as [|r rounds IH]; intros h Hr Hp; cbn [foldl].
  { cbn. by rewrite !app_nil_r. }
  apply Forall_cons in Hr as [Hr Hrs].
  destruct (run_round_spec r h Hr Hp) as (Eraw & Econv & Hp').
  destruct (IH (run_round r h) Hrs Hp') as [-> ->]. rewrite Eraw, Econv.
  cbn [fmap list_fmap concat]. by rewrite <- !app_assoc.
Qed.

(** ** Slices *)

(** The rest of a conversation is empty or starts with a message of the user. *)
Definition starts_turn (rest : list item) : Prop :=
  rest = [] \/ exists i rest', rest = i :: rest' /\ is_user_message i = true.

Lemma boundary_found items start : start <= length items ->
  exists slice rest, drop start items = slice ++ rest /\
    advance_to_turn_boundary items start = start + length slice /\
    Forall (fun i => is_user_message i = false) slice /\
    starts_turn rest.
Proof.
  intros Hs. unfold advance_to_turn_boundary.
  destruct (position is_user_message (drop start items)) as [n|] eqn:E.
  - apply position_spec in E as (slice & i & rest & E & <- & Hi & Hf).
    exists slice, (i :: rest). rewrite E. split_and!; [done..|]. right. by exists i, rest.
  - pose proof (proj1 (position_None _ _) E).
    exists (drop start items), []. rewrite app_nil_r, length_drop.
    split_and!; [done|lia|by apply Forall_forall|by left].
Qed.

Lemma midpoint_bounds counts idx acc target default_idx :
  midpoint_from counts idx acc target default_idx = default_idx \/
  idx <= midpoint_from counts idx acc target default_idx < idx + length counts.
Proof.
  revert idx acc. induction counts as [|c counts IH]; intros idx acc; cbn [midpoint_from]; [by left|].
  destruct (target <=? acc + c); cbn [length]; [right; lia|].
  destruct (IH (idx + 1) (acc + c)); [by left|right; lia].
Qed.

(** The items up to the midpoint reach the target. *)
Lemma midpoint_reaches counts idx acc target default_idx :
  counts <> [] -> target <= acc + sum_list counts ->
  let n := midpoint_from counts idx acc target default_idx - idx in
  idx <= midpoint_from counts idx acc target default_idx /\ n < length counts /\
  target <= acc + sum_list (take (n + 1) counts).
Proof.
  revert idx acc. induction counts as [|c counts IH]; intros idx acc Hne Ht; [done|].
  cbn [midpoint_from]. change (sum_list (c :: counts)) with (c + sum_list counts) in Ht.
  destruct (Nat.leb_spec target (acc + c)).
  - rewrite Nat.sub_diag. cbn [length Nat.add]. change (sum_list (take 1 (c :: counts))) with (c + sum_list (take 0 counts)).
    rewrite take_0. cbn. lia.
  - destruct (decide (counts = [])) as [->|Hc]; [cbn in Ht; lia|].
    destruct (IH (idx + 1) (acc + c) Hc ltac:(lia)) as (Hle & Hlt & Hsum).
    set (mid := midpoint_from _ _ _ _ _) in *.
    replace (mid - idx + 1) with (S (mid - (idx + 1) + 1)) by lia.
    cbn [take length]. change (sum_list (c :: ?l)) with (c + sum_list l). cbn. lia.
Qed.

(** A conversation around its goal, the first message of the user. *)
Definition around_goal (items before : list item) (goal : item) (after : list item) : Prop :=
  items = before ++ goal :: after /\ is_user_message goal = true /\
  Forall (fun i => is_user_message i = false) before.

Lemma goal_position items goal_idx :
  position is_user_message items = Some goal_idx <->
  exists before goal after, around_goal items before goal after /\ length before = goal_idx.
Proof. rewrite position_spec. unfold around_goal. naive_solver. Qed.

Lemma around_goal_take items before goal after : around_goal items before goal after ->
  take (length before + 1) items = before ++ [goal].
Proof.
  intros [-> _]. rewrite take_app_add. done.
Qed.

Lemma around_goal_drop items before goal after n : around_goal items before goal after ->
  drop (length before + 1 + n) items = drop n after.
Proof. intros [-> _]. by rewrite <- Nat.add_assoc, drop_app_add. Qed.

(** Compaction keeps what precedes the goal, the goal and everything from the end of the
    slice on, which is the end of the conversation or the start of a turn of the user; it
    replaces a slice that is not empty by its summary, or does nothing. *)
Theorem slice_compacted summarizer h :
  let '(compacted, h') := compact_slice summarizer h in
  if compacted then
    exists before goal slice rest,
      around_goal (converted h) before goal (slice ++ rest) /\ slice <> [] /\
      starts_turn rest /\
      h' = h <| converted := before ++ goal :: compact_item (summarizer slice) :: rest |>
             <| prev_compact_summary := Some (summarizer slice) |>
  else h' = h.
Proof.
  unfold compact_slice.
  destruct (position is_user_message (converted h)) as [goal_idx|] eqn:Hg; [|done].
  apply goal_position in Hg as (before & goal & after & Hg & <-).
  destruct (Nat.leb_spec (length (converted h)) (length before + 3)); [done|].
  assert (Hafter : drop (length before + 1) (converted h) = after).
  { rewrite <- (Nat.add_0_r (_ + 1)), (around_goal_drop _ _ _ _ _ Hg). apply drop_0. }
  assert (Hlen : length after = length (converted h) - (length before + 1))
    by (by rewrite <- Hafter, length_drop).
  rewrite Hafter. destruct (estimate_tokens after <? _); [done|].
  set (mid := midpoint_from _ _ _ _ _).
  assert (Hmid : length before + 1 <= mid <= length (converted h)).
  { subst mid. edestruct (midpoint_bounds (estimate_item_tokens <$> after) (length before + 1) 0)
      as [->|Hb]; [lia|]. rewrite length_fmap in Hb. lia. }
  destruct (boundary_found (converted h) mid) as (piece & rest & Hd & Hend & _ & Hrest); [lia|].
  destruct (Nat.leb_spec (advance_to_turn_boundary (converted h) mid) (length before + 1));
    [done|].
  rewrite Hend in *.
  set (n := mid + length piece - (length before + 1)).
  assert (Hn : drop n after = rest).
  { rewrite <- Hafter, drop_drop. replace (length before + 1 + n) with (mid + length piece)
      by (subst n; lia). by rewrite <- drop_drop, Hd, drop_app_length. }
  exists before, goal, (take n after), rest.
  assert (Hsplit : take n after ++ rest = after) by (rewrite <- Hn; apply take_drop).
  rewrite Hsplit. split_and!; [done| |done|].
  - intros Hnil. apply (f_equal length) in Hnil. rewrite length_take in Hnil. cbn in Hnil.
    lia.
  - rewrite (around_goal_take _ _ _ _ Hg), <- drop_drop, Hd, drop_app_length.
    by rewrite <- app_assoc.
Qed.

End history.

(** ** Runs *)

Module HistoryRuns.
#[local] Instance fields : ItemFields unit :=
  {| call_name _ := []; summary_texts _ := []; segment_text _ := []; plain_fields := () |}.

Definition says (role text : string) : response_item unit :=
  Message (lit role) [InputText (lit text)] ().

Definition no_text (_ : list function_call_output_content_item) : option str := None.

Definition rounds : list (@round unit) := [
  Round [] [] [says "user" "fix the build"];
  Round [says "assistant" "run make"; Reasoning None ()] [says "assistant" "run make"]
    [says "assistant" "make failed"];
  Round [says "assistant" "install gcc"] [says "assistant" "install gcc"] []].

Lemma items_reach_once_witness :
  raw (foldl (fun h r => run_round r h) new_history rounds) =
  [says "user" "fix the build"; says "assistant" "run make"; Reasoning None ();
   says "assistant" "make failed"; says "assistant" "install gcc"].
Proof.
  refine (proj1 (items_reach_once rounds new_history _ eq_refl)).
  unfold rounds, echoed. rewrite !Forall_cons. cbn.
  split_and!; try done; intros _ ? [= <-]; done.
Defined.

(** The user sends a prompt through Auto Drive and types the same words again: the screen
    shows both, and neither [raw] nor the result has the second. *)
Example repeated_prompt_dropped :
  let go := says "user" "go on" in
  let h := append_raw [go] new_history in
  (rebuild_auto_history [go; go] h).1 = [go].
Proof. reflexivity. Qed.

(** A prompt that precedes the echo of an answer is dropped with the echo. *)
Example replayed_prompt_dropped :
  let answer := says "assistant" "run make" in
  let h := append_raw [answer] new_history in
  (rebuild_auto_history [says "user" "stop"; answer] h).1 = [answer].
Proof. reflexivity. Qed.
End HistoryRuns.
