(* ===== verification/AutoCompact.v ===== *)
(** * Compacting the coordinator's conversation

    [code-auto-drive-core/src/auto_compact.rs], and [maybe_compact] and [should_compact] of
    [auto_coordinator.rs]: when the conversation and the next prompt come near the model's
    limit, the service is asked to compact it; if that fails, the items after the goal are
    cut at a turn boundary past their middle, summarised by the model in chunks, or by a
    fixed rule when it does not answer, and replaced by the summary.

    The model and the endpoint are parameters: an answer for each request, by its number.
    The requests made are returned.  The fields of a prompt that do not depend on the
    conversation are left out.  An [anyhow] error is its text. *)

From Stdlib Require Import SpecFloat.
From stdpp Require Import base list.
From S2P Require Import Prelude History Retention Truncation Compaction SessionMetrics AutoHistory.

(** ** Texts *)

Definition MAX_TRANSCRIPT_BYTES : nat := N.to_nat 32000.
Definition MAX_COMMANDS_IN_SUMMARY : nat := 5.
Definition MAX_ACTION_LINES : nat := 5.

(** [FunctionCallOutputBody::to_text] *)
Definition to_text (b : function_call_output_body) : option str :=
  match b with
  | Text content => Some content
  | ContentItems items =>
      let text_segments := omap (fun c =>
        match c with
        | OutInputText text => if str_eqb (trim text) [] then None else Some text
        | OutInputImage _ _ => None
        end) items in
      match text_segments with [] => None | _ => Some (join [LF] text_segments) end
  end.

Definition is_blank (text : str) : bool := str_eqb (trim text) [].

(** [prev_summary.filter(|text| !text.trim().is_empty())] *)
Definition not_blank (text : option str) : option str :=
  match text with Some t => if is_blank t then None else Some t | None => None end.

(** The end of the chunk that starts at [start]: [MAX_TRANSCRIPT_BYTES] on, moved back to a
    character boundary, or the end of the next character. *)
Definition chunk_end (text : str) (start : nat) : nat :=
  let len := str_len text in
  let end_ := Nat.min (start + MAX_TRANSCRIPT_BYTES) len in
  if end_ <? len then
    let end_ := Nat.max start (boundary_before text end_) in
    if end_ =? start then
      start + match byte_suffix start text with
              | Some (c :: _) => char_len c
              | _ => len - start
              end
    else end_
  else end_.

Fixpoint chunks_from (fuel : nat) (text : str) (start : nat) : list str :=
  match fuel with
  | 0 => []
  | S fuel =>
      if start <? str_len text then
        let end_ := chunk_end text start in
        if end_ <=? start then []
        else
          match byte_suffix start text ≫= byte_prefix (end_ - start) with
          | Some chunk => chunk :: chunks_from fuel text end_
          | None => [] (* both are boundaries: [chunk_text_spec] *)
          end
      else []
  end.

Definition chunk_text (text : str) : list str :=
  match text with [] => [] | _ => chunks_from (str_len text) text 0 end.

Section compaction.
Context {opaque : Type} `{!ItemFields opaque}.
Notation item := (response_item opaque).
Context (to_json : list function_call_output_content_item -> option str).
Context (clear_turn clear_encrypted : opaque -> opaque).
Context (render_history_bridge : list compaction_snippet -> str -> option str).

Abbreviation sanitize := (sanitize_items_for_compact clear_turn clear_encrypted to_json).
Abbreviation summary_message :=
  (make_compaction_summary_message plain_fields render_history_bridge).
Abbreviation tokens := (estimate_item_tokens to_json).

(** ** The goal *)

Definition message_text (i : item) : option str :=
  match i with
  | Message _ content _ =>
      match content_items_to_text content with
      | None => None
      | Some text => let trimmed := trim text in if str_eqb trimmed [] then None else Some trimmed
      end
  | _ => None
  end.

Definition has_goal_text (goal_text : str) (i : item) : bool :=
  is_user_message i && bool_decide (message_text i = Some goal_text).

Definition ensure_goal_is_present (conversation : list item) (goal_item : item)
    (original_idx : nat) : list item :=
  match sanitize [goal_item] with
  | [] => conversation
  | goal_item :: _ =>
      match message_text goal_item with
      | None => conversation
      | Some goal_text =>
          if existsb (has_goal_text goal_text) conversation then conversation
          else
            let insert_at := Nat.min original_idx (length conversation) in
            take insert_at conversation ++ goal_item :: drop insert_at conversation
      end
  end.

(** The answer of the endpoint to the shortened conversation; [None] is a timeout. *)
Definition compact_with_endpoint (endpoint : list item -> option (result str (list item)))
    (conversation : list item) : result str (list item) :=
  let goal_marker :=
    match position is_user_message conversation with
    | Some idx => (fun msg => (idx, msg)) <$> conversation !! idx
    | None => None
    end in
  match endpoint (sanitize conversation) with
  | None => Err (lit "remote compaction request timed out after 45s")
  | Some (Err e) => Err e
  | Some (Ok compacted) =>
      Ok (match goal_marker with
          | Some (goal_idx, goal_item) => ensure_goal_is_present compacted goal_item goal_idx
          | None => compacted
          end)
  end.

(** ** The slice *)

Definition compute_slice_bounds (conversation : list item) : option (nat * nat) :=
  match position is_user_message conversation with
  | None => None
  | Some goal_idx =>
      if length conversation <=? goal_idx + 3 then None
      else
        let after_goal := drop (goal_idx + 1) conversation in
        let token_counts := tokens <$> after_goal in
        let total_tokens := sum_list token_counts in
        let midpoint :=
          if 0 <? total_tokens then
            midpoint_from token_counts (goal_idx + 1) 0 ((total_tokens + 1) / 2) (goal_idx + 1)
          else goal_idx + 1 + (length after_goal + 1) / 2 in
        let slice_start := goal_idx + 1 in
        let slice_end := advance_to_turn_boundary conversation (midpoint + 1) in
        if slice_end <=? slice_start then None else Some (slice_start, slice_end)
  end.

Definition apply_compaction (conversation : list item) (bounds : nat * nat)
    (prev_summary_text : option str) (summary : item) : option (list item) :=
  match position is_user_message conversation with
  | None => None
  | Some goal_idx =>
      let '(slice_start, slice_end) := bounds in
      if (slice_start <=? goal_idx) || (length conversation <? slice_end) then None
      else
        Some (take (goal_idx + 1) conversation ++
              option_list (summary_message [] <$> not_blank prev_summary_text) ++
              [summary] ++ drop slice_end conversation)
  end.

(** ** The summary *)

Definition text_of (c : content_item) : option str :=
  match c with InputText text | OutputText text => Some text | InputImage _ => None end.

(** One item of [deterministic_summary]: its action and its command. *)
Definition action_of (i : item) : option str * option str :=
  match i with
  | Message role content _ =>
      let text := join (lit " ") (trim <$> omap text_of content) in
      if str_eqb text [] then (None, None)
      else
        (Some (role ++ lit ": " ++ text),
         if str_eqb role (lit "assistant") then
           trim <$> head (filter (fun line => starts_with (lit "$") (trim_start line) = true)
                            (str_lines text))
         else None)
  | FunctionCall _ _ rest => (Some (lit "Tool call: " ++ call_name rest), None)
  | FunctionCallOutput _ output =>
      ((fun text => lit "Tool output: " ++ text) <$> not_blank (to_text (body output)), None)
  | _ => (None, None)
  end.

Definition is_function_call (i : item) : bool :=
  match i with FunctionCall _ _ _ => true | _ => false end.

Definition deterministic_summary (items : list item) (prev_summary : option str) : str :=
  let actions := omap (fun i => (action_of i).1) items in
  let commands := omap (fun i => (action_of i).2) items in
  let lines :=
    option_list ((fun prev => lit "Building on previous checkpoint: " ++ prev) <$>
                 not_blank prev_summary) ++
    [lit "Checkpoint covers " ++ show_nat (length actions) ++ lit " exchanges and " ++
     show_nat (length (filter (fun i => is_function_call i = true) items)) ++
     lit " tool events."] ++
    (match commands with
     | [] => []
     | _ => [lit "Key commands: " ++ join (lit " | ") (take MAX_COMMANDS_IN_SUMMARY commands)]
     end) ++
    (match actions with
     | [] => []
     | _ => [join (lit " " ++ [LF]) (take MAX_ACTION_LINES actions)]
     end) in
  join [LF; LF] lines.

Definition flatten_item (i : item) : str :=
  match i with
  | Message role content _ =>
      let text := join (lit " ") ((fun c => match c with
        | InputText text | OutputText text => text
        | InputImage _ => lit "<image>"
        end) <$> content) in
      if str_eqb text [] then [] else role ++ lit ": " ++ text ++ [LF]
  | FunctionCall arguments _ rest =>
      lit "tool_call " ++ call_name rest ++ lit ": " ++ arguments ++ [LF]
  | FunctionCallOutput _ output =>
      let text := default [] (to_text (body output)) in
      if is_blank text then [] else lit "tool_output: " ++ text ++ [LF]
  | CustomToolCall _ input rest =>
      lit "custom_tool " ++ call_name rest ++ lit ": " ++ input ++ [LF]
  | CustomToolCallOutput _ output _ =>
      lit "custom_tool_output: " ++ payload_text to_json output ++ [LF]
  | Reasoning _ rest =>
      concat ((fun text => lit "reasoning: " ++ text ++ [LF]) <$> summary_texts rest)
  | _ => []
  end.

Definition flatten_items (items : list item) : str := concat (flatten_item <$> items).

(** The events of a response, and the answer to a request for a summary. *)
Inductive summary_event :=
| TextDelta (delta : str)
| ItemDone (i : item)
| ResponseDone
| OtherEvent
| EventError (e : str).

Inductive summary_answer :=
| RequestTimedOut
| RequestFailed (e : str)
| Response (events : list summary_event).

Fixpoint read_events (events : list summary_event) (collected : str) (response_items : list item)
    : result str (str * list item) :=
  match events with
  | [] | ResponseDone :: _ => Ok (collected, response_items)
  | TextDelta delta :: events => read_events events (collected ++ delta) response_items
  | ItemDone i :: events => read_events events collected (response_items ++ [i])
  | OtherEvent :: events => read_events events collected response_items
  | EventError e :: _ => Err e
  end.

Definition assistant_content (i : item) : option (list content_item) :=
  match i with
  | Message role content _ => if str_eqb role (lit "assistant") then Some content else None
  | _ => None
  end.

Definition summary_of_answer (answer : summary_answer) : result str str :=
  match answer with
  | RequestTimedOut => Err (lit "checkpoint summary request timed out after 45s")
  | RequestFailed e => Err e
  | Response events =>
      match read_events events [] [] with
      | Err e => Err e
      | Ok (collected, response_items) =>
          let text :=
            match head (omap assistant_content response_items) with
            | Some content =>
                concat (omap (fun c => match c with OutputText t => Some t | _ => None end) content)
            | None => []
            end in
          Ok (if is_blank text then collected else text)
      end
  end.

Definition plain_message (role : str) (text : str) : item :=
  Message role [InputText text] plain_fields.

(** The input of a request: the instructions and a chunk after the summary so far. *)
Definition summary_request (compact_prompt : str) (current_prev : option str) (chunk : str)
    : list item :=
  [plain_message (lit "developer") compact_prompt;
   plain_message (lit "user")
     (match current_prev with
      | Some prev => lit "Previous checkpoint summary:" ++ [LF] ++ prev ++ [LF; LF]
      | None => []
      end ++ lit "Conversation slice:" ++ [LF] ++ chunk)].

Section model.
(** The answer to the [n]-th request. *)
Context (client : nat -> list item -> summary_answer) (compact_prompt : str).

(** The loop of [summarize_with_model] after [n] requests: the summary, and the requests. *)
Fixpoint summarize_chunks (chunks : list str) (n : nat) (aggregate_summary : option str)
    : result str (option str) * list (list item) :=
  match chunks with
  | [] => (Ok aggregate_summary, [])
  | chunk :: chunks =>
      if is_blank chunk then summarize_chunks chunks n aggregate_summary
      else
        let request := summary_request compact_prompt aggregate_summary chunk in
        match summary_of_answer (client n request) with
        | Err e => (Err e, [request])
        | Ok summary =>
            let '(r, requests) :=
              summarize_chunks chunks (n + 1)
                (if is_blank summary then aggregate_summary else Some summary) in
            (r, request :: requests)
        end
  end.

Definition summarize_with_model (items : list item) (prev_summary : option str)
    : result str str * list (list item) :=
  match chunk_text (flatten_items items) with
  | [] => (Err (lit "empty transcript chunk"), [])
  | chunks =>
      let '(r, requests) := summarize_chunks chunks 0 (not_blank prev_summary) in
      (r ≫= (fun aggregate => ok_or aggregate (lit "empty summary")), requests)
  end.

Record checkpoint_summary := CheckpointSummary { message : item; summary_text : str }.

(** The summary, the warning, and the requests. *)
Definition build_checkpoint_summary (items : list item) (prev_summary : option str)
    : checkpoint_summary * option str * list (list item) :=
  let snippets := collect_compaction_snippets items in
  let '(r, requests) := summarize_with_model items prev_summary in
  let '(text, warning) :=
    match r with
    | Ok text =>
        (if is_blank text then deterministic_summary items prev_summary else text, None)
    | Err e =>
        (deterministic_summary items prev_summary,
         Some (lit "checkpoint summary model request failed: " ++ e))
    end in
  (CheckpointSummary (summary_message snippets text) text, warning, requests).

(** ** When, and the whole *)

(** The limits of a model family ([core/src/model_family.rs]). *)
Record model_family := ModelFamily {
  auto_compact_token_limit : option Z;
  context_window : option N
}.

(** [f64]: the number nearest to an integer, the product with the number nearest to 0.8,
    and [as u64] of a number that is not negative. *)
Definition f64_of_N (n : N) : spec_float := binary_normalize 53 1024 (Z.of_N n) 0 false.
Definition f64_four_fifths : spec_float := S754_finite false 7205759403792794 (-53).

Definition u64_of_f64 (x : spec_float) : N :=
  match x with
  | S754_finite false m e => N.min (Z.to_N (Z.shiftl (Zpos m) e)) u64_max
  | S754_infinity false => u64_max
  | _ => 0
  end.

Definition compaction_threshold (token_limit : N) : N :=
  u64_of_f64 (SFmul 53 1024 (f64_of_N token_limit) f64_four_fifths).

(** [((context_window as i64) * 9) / 10] *)
Definition default_auto_compact_limit (context_window : N) : Z :=
  let as_i64 (z : Z) := ((z + 2 ^ 63) mod 2 ^ 64 - 2 ^ 63)%Z in
  Z.quot (as_i64 (as_i64 (Z.of_N context_window) * 9)%Z) 10.

Definition family_token_limit (f : model_family) : option Z :=
  match auto_compact_token_limit f with
  | Some limit => Some limit
  | None => default_auto_compact_limit <$> context_window f
  end.

Definition MESSAGE_LIMIT_FALLBACK : nat := 120.

Definition fallback_message_limit (message_count : nat) : bool :=
  MESSAGE_LIMIT_FALLBACK <=? message_count.

Definition should_compact (family : model_family) (transcript_tokens estimated_next : N)
    (message_count : nat) (has_recorded_usage : bool) : bool :=
  let from_limit :=
    match family_token_limit family with
    | Some limit => if (0 <? limit)%Z then Some (Z.to_N limit) else None
    | None => None
    end in
  let token_limit := match from_limit with Some l => Some l | None => context_window family end in
  let without_limit := if has_recorded_usage then false else fallback_message_limit message_count in
  match token_limit with
  | Some token_limit =>
      if (0 <? token_limit)%N then
        (compaction_threshold token_limit <=? saturating_add64 transcript_tokens estimated_next)%N
      else without_limit
  | None => without_limit
  end.

Inductive compaction_result :=
| Skipped
| Completed (summary : option str).

(** What the interface is told. *)
Definition removed_text (removed total : nat) : str :=
  lit "Finished compacting history (" ++ show_nat removed ++ lit " message" ++
  (if removed =? 1 then [] else lit "s") ++ lit " -> " ++ show_nat total ++ lit " total).".

Context (endpoint : list item -> option (result str (list item))).

(** The result, the conversation, and the texts sent to the interface. *)
Definition maybe_compact (family : model_family) (conversation : list item)
    (m : session_metrics) (prev_summary : option str)
    : compaction_result * list item * list str :=
  let transcript_tokens := sum_u64 ((fun i => N.of_nat (tokens i)) <$> conversation) in
  if negb (should_compact family transcript_tokens (estimated_next_prompt_tokens m)
             (length conversation) (has_recorded_usage m))
  then (Skipped, conversation, [])
  else
    match compute_slice_bounds conversation with
    | None => (Skipped, conversation, [])
    | Some bounds =>
        let start := lit "Compacting history to stay within the context window" ++ [8230%N] in
        match compact_with_endpoint endpoint conversation with
        | Ok compacted =>
            (Completed None, compacted,
             [start; removed_text (length conversation - length compacted) (length compacted)])
        | Err _ =>
            let fallback := lit "Remote compaction failed; falling back to local summary." in
            let slice := take (bounds.2 - bounds.1) (drop bounds.1 conversation) in
            let '(checkpoint, warning, _) := build_checkpoint_summary slice prev_summary in
            let warned := option_list ((fun w =>
              lit "History compaction warning: " ++ w ++
              lit ". Falling back to a deterministic summary.") <$> warning) in
            let applied :=
              match apply_compaction conversation bounds prev_summary (message checkpoint) with
              | Some rebuilt => Some rebuilt
              | None =>
                  match compute_slice_bounds conversation with
                  | Some retry_bounds =>
                      if bool_decide (retry_bounds = bounds) then None
                      else apply_compaction conversation retry_bounds prev_summary
                             (message checkpoint)
                  | None => None
                  end
              end in
            match applied with
            | None =>
                (Skipped, conversation,
                 [start; fallback] ++ warned ++
                 [lit "Failed to compact history because the conversation changed while applying the summary. Continuing without compaction."])
            | Some rebuilt =>
                (Completed (Some (summary_text checkpoint)), rebuilt,
                 [start; fallback] ++ warned ++ [removed_text (length slice) (length rebuilt)])
            end
        end
    end.

End model.
End compaction.

(** ** Chunks *)

Lemma boundary_before_greatest s e b : boundary s b -> b <= e -> b <= boundary_before s e.
Proof.
  intros Hb. induction e as [|e IH]; intros Hle; cbn [boundary_before]; [lia|].
  destruct (is_char_boundary s (S e)) eqn:E; [lia|].
  destruct (decide (b = S e)) as [->|]; [|apply IH; lia].
  apply is_char_boundary_spec in Hb. congruence.
Qed.

Lemma chunk_end_spec text start : boundary text start -> start < str_len text ->
  boundary text (chunk_end text start) /\
  start < chunk_end text start <= start + MAX_TRANSCRIPT_BYTES /\
  (chunk_end text start = str_len text \/ start + MAX_TRANSCRIPT_BYTES < chunk_end text start + 4).
Proof.
  intros Hb Hlt. unfold chunk_end.
  assert (Hmax : 4 <= MAX_TRANSCRIPT_BYTES) by (unfold MAX_TRANSCRIPT_BYTES; lia).
  set (e := Nat.min _ _). destruct (Nat.ltb_spec e (str_len text)) as [He|He].
  - assert (Ee : e = start + MAX_TRANSCRIPT_BYTES) by lia.
    destruct (boundary_near text e) as (b & Hbb & Hbe); [lia|].
    destruct (boundary_before_spec text e) as [Hbnd Hle].
    pose proof (boundary_before_greatest text e b Hbb ltac:(lia)).
    pose proof (boundary_before_greatest text e start Hb ltac:(lia)).
    rewrite Nat.max_r by done.
    destruct (Nat.eqb_spec (boundary_before text e) start); [lia|].
    split_and!; [done|lia|lia|right; lia].
  - assert (Ee : e = str_len text) by lia. rewrite Ee.
    split_and!; [apply boundary_len|lia|lia|by left].
Qed.

(** A text in parts of at most [MAX_TRANSCRIPT_BYTES], all but the last as long as the next
    character allows. *)
Definition chunks_of (text : str) (chunks : list str) : Prop :=
  concat chunks = text /\
  Forall (fun chunk => chunk <> [] /\ str_len chunk <= MAX_TRANSCRIPT_BYTES) chunks /\
  forall chunk rest before, chunks = before ++ chunk :: rest ->
    rest = [] \/ MAX_TRANSCRIPT_BYTES < str_len chunk + 4.

Lemma chunks_from_spec fuel : forall text p q,
  text = p ++ q -> str_len q <= fuel -> chunks_of q (chunks_from fuel text (str_len p)).
Proof.
  assert (Hnil : chunks_of [] []).
  { split_and!; [done|constructor|]. by intros chunk rest [|? ?]. }
  induction fuel as [|fuel IH]; intros text p q -> Hf; cbn [chunks_from].
  { assert (q = []) as -> by (destruct q as [|c q]; [done|];
      rewrite str_len_cons in Hf; pose proof (char_len_pos c); lia). done. }
  destruct (Nat.ltb_spec (str_len p) (str_len (p ++ q))) as [Hlt|Hge].
  2: { rewrite str_len_app in Hge. assert (q = []) as -> by (destruct q as [|c q]; [done|];
         rewrite str_len_cons in Hge; pose proof (char_len_pos c); lia). done. }
  assert (Hb : boundary (p ++ q) (str_len p)) by (by exists p, q).
  destruct (chunk_end_spec _ _ Hb Hlt) as (He & Hbounds & Hlong).
  set (e := chunk_end _ _) in *.
  destruct (Nat.leb_spec e (str_len p)); [lia|].
  destruct (boundary_split (p ++ q) (str_len p) e Hb He ltac:(lia))
    as (p' & mid & q' & E & Hp' & Hmid & Hpre & _).
  assert (p' = p) as ->.
  { assert (Hpre' : byte_prefix (str_len p) (p ++ q) = Some p)
      by (apply byte_prefix_spec; by exists q). congruence. }
  apply app_inv_head in E. subst q.
  assert (Hsuf : byte_suffix (str_len p) (p ++ mid ++ q') = Some (mid ++ q'))
    by (apply byte_suffix_spec; by exists p).
  rewrite str_len_app in Hmid.
  assert (Hchunk : byte_prefix (e - str_len p) (mid ++ q') = Some mid)
    by (apply byte_prefix_spec; exists q'; split; [done|lia]).
  rewrite Hsuf. cbn [mbind option_bind]. rewrite Hchunk.
  rewrite <- Hmid, <- str_len_app.
  destruct (IH (p ++ mid ++ q') (p ++ mid) q') as (Hcat & Hall & Hrest).
  { by rewrite <- app_assoc. }
  { rewrite str_len_app in Hf. lia. }
  split_and!; cbn [concat].
  - by rewrite Hcat.
  - constructor; [|done]. split; [intros ->; cbn in Hmid; lia|lia].
  - intros chunk rest [|c before] E; injection E as <- E; [|by eapply Hrest].
    rewrite <- E. destruct Hlong as [Hl|]; [left|right; lia].
    rewrite !str_len_app in Hl. assert (q' = []) as -> by (destruct q' as [|c q']; [done|];
      rewrite str_len_cons in Hl; pose proof (char_len_pos c); lia).
    rewrite app_nil_r. destruct fuel; cbn [chunks_from]; [done|].
    by rewrite Nat.ltb_irrefl.
Qed.

(** The chunks are the text, each within the limit. *)
Theorem chunk_text_spec text : chunks_of text (chunk_text text).
Proof.
  unfold chunk_text. destruct text as [|c text].
  - split_and!; [done|constructor|]. by intros chunk rest [|? ?].
  - by apply (chunks_from_spec _ (c :: text) [] (c :: text)).
Qed.

Section facts.
Context {opaque : Type} `{!ItemFields opaque}.
Notation item := (response_item opaque).
Context (to_json : list function_call_output_content_item -> option str).
Context (clear_turn clear_encrypted : opaque -> opaque).
Context (render_history_bridge : list compaction_snippet -> str -> option str).
Abbreviation sanitize := (sanitize_items_for_compact clear_turn clear_encrypted to_json).
Abbreviation summary_message :=
  (make_compaction_summary_message plain_fields render_history_bridge).
Implicit Types (conversation before after slice rest : list item) (goal : item).

(** ** Slices *)

(** A slice after the goal, up to the start of a turn, with at least half of the tokens. *)
Definition sliced conversation before goal slice rest : Prop :=
  around_goal conversation before goal (slice ++ rest) /\ slice <> [] /\ starts_turn rest /\
  estimate_tokens to_json (slice ++ rest) <= 2 * estimate_tokens to_json slice.

Lemma estimate_tokens_app (l1 l2 : list item) :
  estimate_tokens to_json (l1 ++ l2) = estimate_tokens to_json l1 + estimate_tokens to_json l2.
Proof. unfold estimate_tokens. by rewrite fmap_app, sum_list_with_app. Qed.

Lemma around_goal_after conversation before goal after : around_goal conversation before goal after ->
  drop (length before + 1) conversation = after /\
  length conversation = length before + 1 + length after.
Proof.
  intros H. split.
  - rewrite <- (Nat.add_0_r (_ + 1)), (around_goal_drop _ _ _ _ _ H). apply drop_0.
  - destruct H as [-> _]. rewrite length_app. cbn. lia.
Qed.

Lemma midpoint_half (after : list item) goal_idx :
  3 <= length after ->
  let counts := estimate_item_tokens to_json <$> after in
  let midpoint :=
    if 0 <? sum_list counts
    then midpoint_from counts (goal_idx + 1) 0 ((sum_list counts + 1) / 2) (goal_idx + 1)
    else goal_idx + 1 + (length after + 1) / 2 in
  exists n, midpoint + 1 = goal_idx + 1 + n /\ 1 <= n <= length after /\
    estimate_tokens to_json after <= 2 * estimate_tokens to_json (take n after).
Proof.
  intros Hlen counts midpoint. subst midpoint.
  assert (Hc : length counts = length after) by apply length_fmap.
  pose proof (Nat.div_mod_eq (length after + 1) 2) as Hd.
  pose proof (Nat.mod_upper_bound (length after + 1) 2).
  unfold estimate_tokens. fold counts.
  destruct (Nat.ltb_spec 0 (sum_list counts)) as [Hpos|Hzero].
  - pose proof (Nat.div_mod_eq (sum_list counts + 1) 2) as Hs.
    pose proof (Nat.mod_upper_bound (sum_list counts + 1) 2).
    destruct (midpoint_reaches counts (goal_idx + 1) 0 ((sum_list counts + 1) / 2) (goal_idx + 1))
      as (Hle & Hlt & Hsum); [intros E; rewrite E in Hpos; cbn in Hpos; lia|lia|].
    set (mid := midpoint_from _ _ _ _ _) in *.
    exists (mid - (goal_idx + 1) + 1). rewrite fmap_take. fold counts. lia.
  - exists ((length after + 1) / 2 + 1). lia.
Qed.

Lemma slice_bounds_spec conversation start end_ :
  compute_slice_bounds to_json conversation = Some (start, end_) ->
  exists before goal slice rest, sliced conversation before goal slice rest /\
    start = length before + 1 /\ end_ = start + length slice.
Proof.
  unfold compute_slice_bounds.
  destruct (position is_user_message conversation) as [goal_idx|] eqn:Hg; [|done].
  apply goal_position in Hg as (before & goal & after & Hg & <-).
  destruct (around_goal_after _ _ _ _ Hg) as [Hd Hl]. rewrite Hd.
  destruct (Nat.leb_spec (length conversation) (length before + 3)); [done|].
  destruct (midpoint_half after (length before)) as (n & Hmid & Hn & Hhalf); [lia|].
  rewrite Hmid.
  destruct (boundary_found conversation (length before + 1 + n)) as (piece & rest & Hp & Hend & _ & Hr);
    [lia|]. rewrite Hend.
  destruct (Nat.leb_spec (length before + 1 + n + length piece) (length before + 1)); [done|].
  intros [= <- <-].
  rewrite (around_goal_drop _ _ _ _ _ Hg) in Hp.
  assert (Hafter : after = take n after ++ piece ++ rest) by (by rewrite <- Hp, take_drop).
  exists before, goal, (take n after ++ piece), rest.
  assert (Hlen : length (take n after) = n) by (rewrite length_take; lia).
  unfold sliced. rewrite <- app_assoc, <- Hafter. split_and!; [done| |done| |done|].
  - intros Hnil%(f_equal length). rewrite length_app, Hlen in Hnil. cbn in Hnil. lia.
  - rewrite estimate_tokens_app. lia.
  - rewrite length_app, Hlen. lia.
Qed.

(** There is a slice exactly when three items follow the goal. *)
Lemma slice_bounds_exist conversation :
  is_Some (compute_slice_bounds to_json conversation) <->
  exists before goal after, around_goal conversation before goal after /\ 3 <= length after.
Proof.
  unfold compute_slice_bounds. split.
  - destruct (position is_user_message conversation) as [goal_idx|] eqn:Hg; [|by intros []].
    apply goal_position in Hg as (before & goal & after & Hg & <-).
    destruct (around_goal_after _ _ _ _ Hg) as [_ Hl].
    destruct (Nat.leb_spec (length conversation) (length before + 3)); [by intros []|].
    intros _. exists before, goal, after. split; [done|lia].
  - intros (before & goal & after & Hg & Hlen).
    destruct (around_goal_after _ _ _ _ Hg) as [Hd Hl].
    assert (position is_user_message conversation = Some (length before)) as ->
      by (apply goal_position; by exists before, goal, after).
    destruct (Nat.leb_spec (length conversation) (length before + 3)); [lia|]. rewrite Hd.
    destruct (midpoint_half after (length before)) as (n & -> & Hn & _); [done|].
    destruct (boundary_found conversation (length before + 1 + n)) as (piece & rest & _ & -> & _);
      [lia|].
    destruct (Nat.leb_spec (length before + 1 + n + length piece) (length before + 1)); [lia|done].
Qed.

Lemma compaction_applied conversation before goal slice rest prev summary :
  sliced conversation before goal slice rest ->
  let start := length before + 1 in
  take (length slice) (drop start conversation) = slice /\
  apply_compaction render_history_bridge conversation (start, start + length slice) prev summary =
  Some (before ++ goal :: option_list (summary_message [] <$> not_blank prev) ++
        summary :: rest).
Proof.
  intros (Hg & _ & _ & _) start. destruct (around_goal_after _ _ _ _ Hg) as [Hd Hl].
  subst start. rewrite Hd. split; [apply take_app_length|].
  unfold apply_compaction.
  assert (position is_user_message conversation = Some (length before)) as ->
    by (apply goal_position; by exists before, goal, (slice ++ rest)).
  rewrite length_app in Hl.
  destruct (Nat.leb_spec (length before + 1) (length before)); [lia|].
  destruct (Nat.ltb_spec (length conversation) (length before + 1 + length slice)); [lia|].
  cbn [orb]. rewrite (around_goal_take _ _ _ _ Hg), (around_goal_drop _ _ _ _ _ Hg), drop_app_length.
  by rewrite <- app_assoc.
Qed.

(** ** The goal *)

(** *** The specification, independent of the code *)

Definition from_user (i : item) : Prop := exists content fields, i = Message (lit "user") content fields.

(** The goal is the first message of the user. *)
Definition goal_at conversation before goal after : Prop :=
  conversation = before ++ goal :: after /\ from_user goal /\ Forall (fun i => ~ from_user i) before.

(** The texts of a message that are not empty, joined by line feeds and trimmed. *)
Definition reads (i : item) (text : str) : Prop :=
  exists role content fields, i = Message role content fields /\ text <> [] /\
    text = trim (join [LF] (filter (fun t => t <> []) (omap text_of content))).

(** A history with the goal in it: if none of its messages of the user has the goal's text, the
    goal is inserted where it was, or at the end. *)
Definition goal_put_back (place : nat) goal (compacted conversation' : list item) : Prop :=
  (conversation' = compacted /\
   ((forall goal' text, sanitize [goal] = [goal'] -> ~ reads goal' text) \/
    exists goal' text i, sanitize [goal] = [goal'] /\ reads goal' text /\
      i ∈ compacted /\ from_user i /\ reads i text)) \/
  exists goal' text l1 l2, sanitize [goal] = [goal'] /\ reads goal' text /\
    Forall (fun i => ~ (from_user i /\ reads i text)) compacted /\
    compacted = l1 ++ l2 /\ length l1 = Nat.min place (length compacted) /\
    conversation' = l1 ++ goal' :: l2.

(** A slice, and what follows it up to the end: at least half of the tokens, and whole turns. *)
Definition half_slice slice rest : Prop :=
  slice <> [] /\ (forall i rest', rest = i :: rest' -> from_user i) /\
  estimate_tokens to_json (slice ++ rest) <= 2 * estimate_tokens to_json slice.

Lemma from_user_iff (i : item) : is_user_message i = true <-> from_user i.
Proof.
  unfold from_user. split.
  - destruct i as [|role content fields| | | | | | | | | | | | | |]; try done. cbn.
    intros ->%str_eqb_eq. by eexists _, _.
  - by intros (content & fields & ->).
Qed.

Lemma goal_at_around conversation before goal after :
  goal_at conversation before goal after <-> around_goal conversation before goal after.
Proof.
  unfold goal_at, around_goal. rewrite from_user_iff. do 2 apply and_iff_compat_l.
  apply Forall_iff. intros i. by rewrite <- from_user_iff, not_true_iff_false.
Qed.

Lemma around_goal_unique conversation before goal after before' goal' after' :
  around_goal conversation before goal after -> around_goal conversation before' goal' after' ->
  before = before' /\ goal = goal' /\ after = after'.
Proof.
  intros H H'. assert (length before = length before') as Hl.
  { assert (position is_user_message conversation = Some (length before)) as E
      by (apply goal_position; by exists before, goal, after).
    assert (position is_user_message conversation = Some (length before')) as E'
      by (apply goal_position; by exists before', goal', after'). congruence. }
  destruct H as [-> _], H' as [E _]. apply app_inj_1 in E as [-> [= -> ->]]; done.
Qed.

Lemma slice_half conversation before goal slice rest :
  sliced conversation before goal slice rest -> half_slice slice rest.
Proof.
  intros (_ & Hs & Hr & He). split; [done|]. split; [|done]. intros i rest' ->.
  destruct Hr as [[=]|(i' & r & [= <- <-] & H)]. by apply from_user_iff.
Qed.

Lemma content_text content :
  content_items_to_text content =
  let l := filter (fun t => t <> []) (omap text_of content) in
  match l with [] => None | _ => Some (join [LF] l) end.
Proof.
  unfold content_items_to_text. cbn zeta.
  assert (omap (fun c => match c with
    | InputText text | OutputText text => if str_eqb text [] then None else Some text
    | InputImage _ => None end) content = filter (fun t => t <> []) (omap text_of content)) as ->; [|done].
  induction content as [|[t|t|t] content IH]; [done|..]; cbn [omap list_omap text_of]; try exact IH;
    (destruct (decide (t = [])) as [->|Ht];
      [by rewrite filter_cons_False by (by intros [])|
       rewrite filter_cons_True by done; apply str_eqb_neq in Ht; rewrite Ht; by f_equal]).
Qed.

Lemma message_text_reads (i : item) text : message_text i = Some text <-> reads i text.
Proof.
  unfold reads. split.
  - destruct i as [|role content fields| | | | | | | | | | | | | |]; try done. cbn [message_text].
    rewrite content_text. cbn zeta. destruct (filter _ _) as [|t l] eqn:E; [done|].
    destruct (str_eqb (trim (join [LF] (t :: l))) []) eqn:Eb; [done|]. intros [= <-].
    exists role, content, fields. rewrite E. apply str_eqb_neq in Eb. done.
  - intros (role & content & fields & -> & Hne & ->). cbn [message_text]. rewrite content_text. cbn zeta.
    destruct (filter _ _) as [|t l] eqn:E; [done|]. by apply str_eqb_neq in Hne as ->.
Qed.

Lemma has_goal_text_iff text (i : item) : has_goal_text text i = true <-> from_user i /\ reads i text.
Proof.
  unfold has_goal_text. by rewrite andb_true_iff, bool_decide_eq_true, from_user_iff, message_text_reads.
Qed.

Lemma sanitize_one (goal : item) : sanitize [goal] = [] \/ exists goal', sanitize [goal] = [goal'].
Proof.
  unfold sanitize_items_for_compact. cbn [omap list_omap].
  destruct (sanitize_item _ _ _ goal); [right; by eexists|by left].
Qed.

Lemma goal_ensured (compacted : list item) goal idx :
  goal_put_back idx goal compacted
    (ensure_goal_is_present to_json clear_turn clear_encrypted compacted goal idx).
Proof.
  unfold ensure_goal_is_present, goal_put_back.
  destruct (sanitize_one goal) as [E|[goal' E]]; rewrite E.
  { left. split; [done|]. by left. }
  destruct (message_text goal') as [text|] eqn:Et.
  2: { left. split; [done|]. left. intros goal'' text [= <-] H%message_text_reads. congruence. }
  apply message_text_reads in Et. destruct (existsb _ compacted) eqn:Ex.
  - apply existsb_exists in Ex as (i & Hi%list_elem_of_In & [Hu Hr]%has_goal_text_iff).
    left. split; [done|]. right. by exists goal', text, i.
  - right. exists goal', text, (take (Nat.min idx (length compacted)) compacted),
      (drop (Nat.min idx (length compacted)) compacted).
    split_and!; [done|done| |by rewrite take_drop|rewrite length_take; lia|done].
    apply Forall_forall. intros i Hi Hg%has_goal_text_iff. apply not_true_iff_false in Ex.
    apply Ex, existsb_exists. exists i. by rewrite <- list_elem_of_In.
Qed.

(** ** The summary is never blank *)

Lemma drop_while_nil {A} (p : A -> bool) l : drop_while p l = [] -> Forall (fun x => p x = true) l.
Proof.
  induction l as [|x l IH]; cbn [drop_while]; [constructor|].
  destruct (p x) eqn:E; [constructor; auto|done].
Qed.

Lemma blank_whitespace s c : is_blank s = true -> c ∈ s -> is_whitespace c = true.
Proof.
  intros Hb%str_eqb_eq Hc. unfold trim, trim_start in Hb. apply drop_while_nil in Hb.
  unfold trim_end in Hb. destruct (drop_while_end_prefix is_whitespace s) as [k Hk].
  assert (Hd : Forall (fun x => is_whitespace x = true) (drop_while is_whitespace (reverse s))).
  { unfold drop_while_end in Hb. rewrite <- (reverse_involutive (drop_while _ _)).
    by apply Forall_reverse. }
  assert (Hnil : drop_while is_whitespace (reverse s) = []).
  { destruct (drop_while is_whitespace (reverse s)) as [|x l] eqn:E; [done|].
    apply Forall_cons in Hd as [Hx _].
    assert (is_whitespace x = false) by (eapply (drop_while_head _ (reverse s)); by rewrite E).
    congruence. }
  apply drop_while_nil, Forall_reverse in Hnil. rewrite reverse_involutive in Hnil.
  by apply (proj1 (Forall_forall _ _) Hnil).
Qed.

Lemma elem_of_join sep l s c : s ∈ l -> c ∈ s -> c ∈ join sep l.
Proof.
  induction l as [|x l IH]; intros Hs Hc; [by apply not_elem_of_nil in Hs|].
  destruct l as [|y l].
  - apply list_elem_of_singleton in Hs as ->. done.
  - rewrite join_cons by done. apply elem_of_cons in Hs as [->|Hs]; rewrite !elem_of_app; auto.
Qed.

Lemma deterministic_not_blank (items : list item) prev :
  is_blank (deterministic_summary items prev) = false.
Proof.
  destruct (is_blank (deterministic_summary items prev)) eqn:E; [|done]. exfalso.
  assert (H : is_whitespace 67%N = true); [|done].
  eapply blank_whitespace; [exact E|]. unfold deterministic_summary.
  eapply elem_of_join.
  - apply elem_of_app. right. apply elem_of_app. left. by apply list_elem_of_singleton.
  - cbn. left.
Qed.

Lemma not_blank_Some o text : not_blank o = Some text -> is_blank text = false.
Proof. destruct o as [t|]; cbn; [|done]. destruct (is_blank t) eqn:E; [done|]. by intros [= <-]. Qed.

Section model.
Context (client : nat -> list item -> summary_answer (opaque := opaque)) (compact_prompt : str).

(** The summary of a slice is the model's, or the deterministic one when the model gives none. *)
Definition summary_from slice (prev : option str) (text : str) : Prop :=
  match (summarize_with_model to_json client compact_prompt slice prev).1 with
  | Ok answer => text = answer
  | Err _ => text = deterministic_summary slice prev
  end.

(** The requests: the summary so far of each is a parameter of the statement. *)
Lemma summarize_chunks_spec chunks n aggregate :
  (forall text, aggregate = Some text -> is_blank text = false) ->
  exists prevs, let '(r, requests) := summarize_chunks client compact_prompt chunks n aggregate in
    let pending := filter (fun chunk => is_blank chunk = false) chunks in
    length prevs = length requests /\ length requests <= length pending /\
    requests = zip_with (summary_request compact_prompt) prevs (take (length requests) pending) /\
    (forall summary, r = Ok summary -> length requests = length pending /\
       forall text, summary = Some text -> is_blank text = false).
Proof.
  revert n aggregate. induction chunks as [|chunk chunks IH]; intros n aggregate Hagg.
  { exists []. cbn. split_and!; [done..|]. by intros summary [= <-]. }
  cbn [summarize_chunks]. destruct (is_blank chunk) eqn:Eb.
  - rewrite filter_cons_False by congruence. by apply IH.
  - rewrite filter_cons_True by done.
    set (request := summary_request compact_prompt aggregate chunk).
    destruct (summary_of_answer (client n request)) as [summary|e].
    + destruct (IH (n + 1) (if is_blank summary then aggregate else Some summary))
        as (prevs & H).
      { intros text. destruct (is_blank summary) eqn:Es; [by apply Hagg|]. by intros [= <-]. }
      exists (aggregate :: prevs).
      destruct (summarize_chunks client compact_prompt chunks (n + 1) _) as [r requests].
      destruct H as (H1 & H2 & H3 & H4). cbn [length take zip_with]. rewrite <- H3.
      split_and!; [lia|lia|done|]. intros s Hs. destruct (H4 s Hs) as [-> ?]. done.
    + exists [aggregate]. cbn [length take zip_with].
      split_and!; [done|lia|done|done].
Qed.

(** When the model summarises a transcript, each part that is not blank was sent once, in
    order, and the summary is not blank. *)
Theorem transcript_summarised items prev text requests :
  summarize_with_model to_json client compact_prompt items prev = (Ok text, requests) ->
  is_blank text = false /\
  exists chunks prevs, chunks_of (flatten_items to_json items) chunks /\
    let sent := filter (fun chunk => is_blank chunk = false) chunks in
    length prevs = length sent /\ requests = zip_with (summary_request compact_prompt) prevs sent.
Proof.
  unfold summarize_with_model. pose proof (chunk_text_spec (flatten_items to_json items)) as Hc.
  destruct (chunk_text (flatten_items to_json items)) as [|chunk chunks] eqn:Ec; [done|].
  rewrite <- Ec in *.
  destruct (summarize_chunks_spec (chunk_text (flatten_items to_json items)) 0 (not_blank prev))
    as (prevs & H); [intros t; apply not_blank_Some|].
  destruct (summarize_chunks client compact_prompt _ 0 _) as [r reqs].
  destruct H as (H1 & H2 & H3 & H4). intros [= Hr <-].
  destruct r as [[summary|]|]; try done. injection Hr as ->.
  destruct (H4 _ eq_refl) as [Hl Hb]. split; [by apply Hb|].
  eexists _, prevs. split; [exact Hc|]. cbn zeta. rewrite H1, Hl. split; [done|].
  rewrite Hl, firstn_all in H3. exact H3.
Qed.

Lemma checkpoint_not_blank items prev :
  let '(checkpoint, _, _) :=
    build_checkpoint_summary to_json render_history_bridge client compact_prompt items prev in
  is_blank (summary_text checkpoint) = false /\
  message checkpoint =
    summary_message (collect_compaction_snippets items) (summary_text checkpoint).
Proof.
  unfold build_checkpoint_summary.
  destruct (summarize_with_model to_json client compact_prompt items prev) as [[text|e] requests];
    cbn [summary_text message]; (split; [|done]); [|apply deterministic_not_blank].
  destruct (is_blank text) eqn:E; [apply deterministic_not_blank|done].
Qed.

(** ** The whole *)

Context (endpoint : list item -> option (result str (list item))).

Abbreviation from_endpoint conversation :=
  (compact_with_endpoint to_json clear_turn clear_encrypted endpoint conversation).

Lemma from_endpoint_spec conversation before goal after : goal_at conversation before goal after ->
  match from_endpoint conversation with
  | Ok conversation' => exists compacted,
      endpoint (sanitize conversation) = Some (Ok compacted) /\
      goal_put_back (length before) goal compacted conversation'
  | Err _ => forall compacted, endpoint (sanitize conversation) <> Some (Ok compacted)
  end.
Proof.
  intros Hg. pose proof (proj1 (goal_at_around _ _ _ _) Hg) as Ha. unfold compact_with_endpoint.
  assert (position is_user_message conversation = Some (length before)) as ->
    by (apply goal_position; by exists before, goal, after).
  assert (conversation !! length before = Some goal) as ->
    by (destruct Ha as [-> _]; by apply list_lookup_middle).
  destruct (endpoint (sanitize conversation)) as [[compacted|e]|]; [|by intros c [=]..].
  exists compacted. split; [done|]. cbn [fmap option_fmap option_map]. apply goal_ensured.
Qed.

Lemma summary_from_spec slice prev :
  let '(checkpoint, _, _) :=
    build_checkpoint_summary to_json render_history_bridge client compact_prompt slice prev in
  is_blank (summary_text checkpoint) = false /\
  summary_from slice prev (summary_text checkpoint) /\
  message checkpoint =
    summary_message (collect_compaction_snippets slice) (summary_text checkpoint).
Proof.
  pose proof (checkpoint_not_blank slice prev) as Hc. unfold build_checkpoint_summary in *.
  pose proof (transcript_summarised slice prev) as Ht. unfold summary_from.
  destruct (summarize_with_model to_json client compact_prompt slice prev) as [[text|e] requests].
  - destruct (Ht _ _ eq_refl) as [Hb _]. rewrite Hb in *. cbn [summary_text message] in *. by destruct Hc.
  - cbn [summary_text message] in *. by destruct Hc.
Qed.


End model.
End facts.

(** ** Runs *)

Module CompactRuns.
#[local] Instance fields : ItemFields unit :=
  {| call_name _ := lit "shell"; summary_texts _ := []; segment_text _ := [];
     plain_fields := () |}.

Definition says (role text : string) : response_item unit :=
  Message (lit role) [InputText (lit text)] ().

Definition no_json (_ : list function_call_output_content_item) : option str := None.
Definition no_bridge (_ : list compaction_snippet) (_ : str) : option str := None.

Definition conversation : list (response_item unit) := [
  says "developer" "be brief";
  says "user" "fix the build";
  says "assistant" "$ make";
  FunctionCall (lit "make") (lit "c1") ();
  says "user" "it fails";
  says "assistant" "install gcc"].

Definition family : model_family := ModelFamily (Some 10%Z) None.

(** The model answers in a message of the assistant. *)
Definition answers (n : nat) (request : list (response_item unit)) : summary_answer :=
  Response [TextDelta (lit "The "); ItemDone (Message (lit "assistant")
    [OutputText (lit "The build was run.")] ()); ResponseDone].

(** The endpoint fails and so does the model. *)
Definition no_answer (n : nat) (request : list (response_item unit))
    : summary_answer (opaque := unit) := RequestTimedOut.
Definition no_endpoint (l : list (response_item unit))
    : option (result str (list (response_item unit))) := None.

Definition compacted client :=
  maybe_compact no_json id id no_bridge client (lit "Summarise.") no_endpoint family
    conversation default_metrics None.

Example by_the_model :
  (compacted answers).1 =
  (Completed (Some (lit "The build was run.")),
   [says "developer" "be brief"; says "user" "fix the build"; says "user" "The build was run.";
    says "user" "it fails"; says "assistant" "install gcc"]).
Proof. vm_compute. reflexivity. Qed.

Example by_rule :
  (compacted no_answer).1.1 =
  Completed (Some (lit "Checkpoint covers 2 exchanges and 1 tool events." ++ [LF; LF] ++
    lit "Key commands: $ make" ++ [LF; LF] ++ lit "assistant: $ make " ++ [LF] ++
    lit "Tool call: shell")).
Proof. vm_compute. reflexivity. Qed.

Lemma transcript_summarised_witness :
  exists requests,
    summarize_with_model no_json answers (lit "Summarise.") conversation None =
      (Ok (lit "The build was run."), requests) /\
    is_blank (lit "The build was run.") = false /\ length requests = 1.
Proof.
  eexists. split; [vm_compute; reflexivity|]. split; [|reflexivity].
  eapply (proj1 (transcript_summarised no_json answers (lit "Summarise.") conversation None _ _ _)).
Unshelve.
  2: vm_compute; reflexivity.
Defined.

(** The threshold is computed in floating point: four fifths of the limit. *)
Example threshold_272000 : compaction_threshold 272000 = 217600%N.
Proof. reflexivity. Qed.

Example threshold_7 : compaction_threshold 7 = 5%N.
Proof. reflexivity. Qed.
End CompactRuns.
