(* ===== verification/BTree.v ===== *)
(** * Ordered maps

    [std::collections::BTreeMap] as an association list in increasing order of its keys:
    [insert], [get], [keys] and [values], for any key type with a strict total order
    ([KeyOrder]).  Instances for [u64] and for strings. *)

From stdpp Require Import base list sorting.
From S2P Require Import Prelude.

(** A strict total order, decided by a boolean function. *)
Class KeyOrder (K : Type) := key_ltb : K -> K -> bool.

Class KeyOrderLaws (K : Type) `{!KeyOrder K} := {
  key_irreflexive : forall a, key_ltb a a = false;
  key_transitive : forall a b c, key_ltb a b = true -> key_ltb b c = true -> key_ltb a c = true;
  key_total : forall a b, key_ltb a b = false -> key_ltb b a = false -> a = b
}.

#[export] Instance N_key_order : KeyOrder N := N.ltb.

#[export] Instance N_key_order_laws : KeyOrderLaws N.
Proof. unfold N_key_order. split; unfold key_ltb; intros *; rewrite ?N.ltb_lt, ?N.ltb_ge; lia. Qed.

#[export] Instance str_key_order : KeyOrder str := fun a b => str_leb a b && negb (str_eqb a b).

Lemma str_leb_refl a : str_leb a a = true.
Proof. induction a as [|x a IH]; [done|]. simpl. by rewrite N.eqb_refl. Qed.

Lemma str_leb_trans a b c : str_leb a b = true -> str_leb b c = true -> str_leb a c = true.
Proof.
  revert b c. induction a as [|x a IH]; intros [|y b] [|z c]; simpl; try done.
  destruct (N.eqb_spec x y) as [->|], (N.eqb_spec y z) as [->|];
    rewrite ?N.eqb_refl, ?N.ltb_lt; [apply IH|..].
  - by destruct (N.eqb_spec y z).
  - intros ? ?. destruct (N.eqb_spec x z); [congruence|]. by apply N.ltb_lt.
  - intros ? ?. destruct (N.eqb_spec x z); [lia|]. apply N.ltb_lt. lia.
Qed.

Lemma str_leb_total a b : str_leb a b = true \/ str_leb b a = true.
Proof.
  revert b. induction a as [|x a IH]; intros [|y b]; simpl; [by left|by left|by right|].
  rewrite (N.eqb_sym y x). destruct (N.eqb_spec x y); [apply IH|]. rewrite !N.ltb_lt. lia.
Qed.

Lemma str_leb_antisym a b : str_leb a b = true -> str_leb b a = true -> a = b.
Proof.
  revert b. induction a as [|x a IH]; intros [|y b]; simpl; try done.
  rewrite (N.eqb_sym y x). destruct (N.eqb_spec x y) as [->|]; [|rewrite !N.ltb_lt; lia].
  intros. f_equal. auto.
Qed.

#[export] Instance str_key_order_laws : KeyOrderLaws str.
Proof.
  split; unfold key_ltb, str_key_order.
  - intros a. by rewrite str_eqb_refl, andb_false_r.
  - intros a b c. rewrite !andb_true_iff, !negb_true_iff, !str_eqb_neq.
    intros [Hab Nab] [Hbc Nbc]. split; [by eapply str_leb_trans|].
    intros ->. by apply Nab, str_leb_antisym.
  - intros a b Ha Hb. apply andb_false_iff in Ha, Hb. rewrite !negb_false_iff, !str_eqb_eq in *.
    destruct (str_leb_total a b); naive_solver congruence.
Qed.

Section btree.
Context {K V : Type} `{!KeyOrder K}.

Definition btree : Type := list (K * V).

Fixpoint btree_insert (k : K) (v : V) (m : btree) : btree :=
  match m with
  | [] => [(k, v)]
  | (k', v') :: rest =>
      if key_ltb k k' then (k, v) :: m
      else if key_ltb k' k then (k', v') :: btree_insert k v rest
      else (k, v) :: rest
  end.

Fixpoint btree_get (k : K) (m : btree) : option V :=
  match m with
  | [] => None
  | (k', v') :: rest =>
      if key_ltb k k' || key_ltb k' k then btree_get k rest else Some v'
  end.

Definition btree_keys (m : btree) : list K := fst <$> m.
Definition btree_values (m : btree) : list V := snd <$> m.

(** Keys in strictly increasing order. *)
Definition btree_ordered (m : btree) : Prop :=
  StronglySorted (fun a b => key_ltb a b = true) (btree_keys m).

Context `{!KeyOrderLaws K}.

Lemma key_eq_bool a b : key_ltb a b || key_ltb b a = false <-> a = b.
Proof.
  rewrite orb_false_iff. split; [intros []; by apply key_total|].
  intros ->. by rewrite key_irreflexive.
Qed.

Lemma btree_get_insert k v m : btree_get k (btree_insert k v m) = Some v.
Proof.
  assert (Hk : key_ltb k k || key_ltb k k = false) by by apply key_eq_bool.
  induction m as [|[k' v'] m IH]; cbn [btree_insert]; [by simpl; rewrite Hk|].
  destruct (key_ltb k k') eqn:E1; [by simpl; rewrite Hk|].
  destruct (key_ltb k' k) eqn:E2; simpl; [by rewrite E1, E2|by rewrite Hk].
Qed.

Lemma btree_get_insert_ne k k' v m :
  k <> k' -> btree_get k (btree_insert k' v m) = btree_get k m.
Proof.
  intros Hne. assert (Hk : key_ltb k k' || key_ltb k' k = true).
  { apply not_false_is_true. by rewrite key_eq_bool. }
  induction m as [|[k1 v1] m IH]; cbn [btree_insert]; [by simpl; rewrite Hk|].
  destruct (key_ltb k' k1) eqn:E1; [by simpl; rewrite Hk|].
  destruct (key_ltb k1 k') eqn:E2; simpl; [by rewrite IH|]. rewrite Hk.
  assert (k' = k1) as -> by by apply key_total. by rewrite Hk.
Qed.

Lemma btree_insert_keys k v m a :
  a ∈ btree_keys (btree_insert k v m) -> a = k \/ a ∈ btree_keys m.
Proof.
  unfold btree_keys. induction m as [|[k' v'] m IH]; cbn [btree_insert].
  - intros H. apply list_elem_of_singleton in H. by left.
  - destruct (key_ltb k k'); [|destruct (key_ltb k' k) eqn:E]; rewrite !fmap_cons, !elem_of_cons;
      cbn [fst]; naive_solver.
Qed.

Lemma btree_insert_ordered k v m : btree_ordered m -> btree_ordered (btree_insert k v m).
Proof.
  unfold btree_ordered. induction m as [|[k' v'] m IH]; intros H; cbn [btree_insert].
  - by repeat constructor.
  - unfold btree_keys in *. rewrite fmap_cons in H. pose proof H as H0.
    apply StronglySorted_inv in H as [Hs Hf]. cbn [fst] in *.
    destruct (key_ltb k k') eqn:E1; [|destruct (key_ltb k' k) eqn:E2]; rewrite fmap_cons; cbn [fst].
    + constructor; [exact H0|]. rewrite fmap_cons. cbn [fst]. constructor; [done|].
      eapply Forall_impl; [exact Hf|]. intros a Ha. by eapply key_transitive.
    + constructor; [by apply IH|]. apply Forall_forall. intros a Ha.
      apply btree_insert_keys in Ha as [->|Ha]; [done|]. rewrite Forall_forall in Hf. by apply Hf.
    + assert (k = k') as -> by by apply key_total. by constructor.
Qed.

Lemma btree_ordered_NoDup m : btree_ordered m -> NoDup (btree_keys m).
Proof.
  unfold btree_ordered. induction 1 as [|a l Hs IH Hf]; [constructor|]. constructor; [|done].
  rewrite Forall_forall in Hf. intros Ha%Hf. by rewrite key_irreflexive in Ha.
Qed.

(** A key above all others is added at the end. *)
Lemma btree_insert_last k v m :
  Forall (fun a => key_ltb a k = true) (btree_keys m) -> btree_insert k v m = m ++ [(k, v)].
Proof.
  unfold btree_keys. induction m as [|[k' v'] m IH]; [done|]. rewrite fmap_cons. cbn [fst].
  intros [Hk H]%Forall_cons. cbn [btree_insert app]. rewrite Hk, IH by done.
  destruct (key_ltb k k') eqn:E; [|done]. exfalso.
  assert (key_ltb k k = true) by by eapply key_transitive.
  by rewrite key_irreflexive in *.
Qed.
End btree.
Arguments btree : clear implicits.
