(* ===== verification/Accounts.v ===== *)
(** * The stored accounts

    [core/src/auth_accounts.rs]: the accounts that a user has logged in with, in the file
    [auth_accounts.json], and which of them is active; [activate_account] of
    [core/src/auth.rs] makes one of them the account of [auth.json].

    The files are those of [FileSystem]; writing goes through a temporary file that
    replaces the old one ([tempfile], a class [AtomicFiles] with its laws).  The JSON
    texts are serde's: the class [Json] and its laws.  The clock and the new identifiers
    are arguments.  Of the tokens only the fields that the store looks at are named. *)

From S2P Require Import Prelude Paths FileSystem.

Open Scope record_scope.

(** An instant of [DateTime<Utc>]. *)
Abbreviation instant := Z.

Inductive auth_mode := ApiKey | ChatGPT | ChatgptAuthTokens | Headers.

#[export] Instance auth_mode_eq_dec : EqDecision auth_mode.
Proof. solve_decision. Defined.

Definition is_chatgpt (m : auth_mode) : bool :=
  match m with ChatGPT | ChatgptAuthTokens | Headers => true | ApiKey => false end.

(** [TokenData]; [secrets] are the tokens themselves. *)
Record token_data {opaque : Type} := TokenData {
  email : option str;
  token_account_id : option str;
  secrets : opaque
}.
Arguments token_data : clear implicits.
Arguments TokenData {opaque} _ _ _.

Record stored_account {opaque : Type} := StoredAccount {
  id : str;
  mode : auth_mode;
  label : option str;
  openai_api_key : option str;
  tokens : option (token_data opaque);
  last_refresh : option instant;
  created_at : option instant;
  last_used_at : option instant
}.
Arguments stored_account : clear implicits.
Arguments StoredAccount {opaque} _ _ _ _ _ _ _ _.

#[export] Instance stored_account_fields {opaque} : Fields (stored_account opaque) :=
  fun a => StoredAccount (id a) (mode a) (label a) (openai_api_key a) (tokens a)
             (last_refresh a) (created_at a) (last_used_at a).

Record accounts_file {opaque : Type} := AccountsFile {
  version : N;
  active_account_id : option str;
  accounts : list (stored_account opaque)
}.
Arguments accounts_file : clear implicits.
Arguments AccountsFile {opaque} _ _ _.

#[export] Instance accounts_file_fields {opaque} : Fields (accounts_file opaque) :=
  fun d => AccountsFile (version d) (active_account_id d) (accounts d).

(** [AuthDotJson] *)
Record auth_dot_json {opaque : Type} := AuthDotJson {
  auth_mode_of : option auth_mode;
  auth_api_key : option str;
  auth_tokens : option (token_data opaque);
  auth_last_refresh : option instant
}.
Arguments auth_dot_json : clear implicits.
Arguments AuthDotJson {opaque} _ _ _ _.

(** ** What the store uses of [tempfile] and serde *)

Class AtomicFiles (S : Type) := {
  path_exists : str -> S -> bool;
  (** [NamedTempFile::new_in(parent)], its writing and [persist(path)]. *)
  persist : str -> str -> str -> io S io_error unit
}.

Class AtomicFilesLaws (S L : Type) `{FileSystemLaws S L, !AtomicFiles S} := {
  persist_Ok s parent p c s' : persist parent p c s = (Ok tt, s') ->
    file_at s' ≡ upd (loc p) (Some c) (file_at s);
  persist_Err s parent p c e s' : persist parent p c s = (Err e, s') ->
    file_at s' ≡ file_at s;
  (** Only a file that does not exist is not found. *)
  read_not_found s p e s' : read_to_string p s = (Err e, s') -> io_err_kind e = NotFound ->
    file_at s (loc p) = None
}.

(** [serde_json::from_str], [Deserializer::into_iter] and [to_string_pretty]. *)
Class Json (A : Type) := {
  from_str : str -> result io_error A;
  into_iter : str -> list (result io_error A);
  to_string_pretty : A -> result io_error str
}.

Class JsonLaws (A : Type) `{!Json A} := {
  json_round_trip a t : to_string_pretty a = Ok t -> from_str t = Ok a /\ trim t <> []
}.

Section store.
Context {opaque S : Type} `{!FileSystem S, !AtomicFiles S}.
Context `{!Json (accounts_file opaque), !Json (auth_dot_json opaque)}.
Notation account := (stored_account opaque).
Notation data := (accounts_file opaque).

(** ** The file *)

Definition default_file : data := AccountsFile 1 None [].

Definition accounts_file_path (code_home : str) : str :=
  path_join code_home (lit "auth_accounts.json").

(** The loop over the documents of a file that is not one document: their number and the
    last one, or nothing at the first error. *)
Fixpoint recover (stream : list (result io_error data)) (count : nat) (latest : option data)
    : option (nat * option data) :=
  match stream with
  | [] => Some (count, latest)
  | Ok parsed :: stream => recover stream (count + 1) (Some parsed)
  | Err _ :: _ => None
  end.

Definition parse_accounts_file (contents : str) : result io_error (data * bool) :=
  if str_eqb (trim contents) [] then Ok (default_file, false)
  else
    match from_str contents with
    | Ok parsed => Ok (parsed, false)
    | Err original_err =>
        match recover (into_iter contents) 0 None with
        | Some (count, Some parsed) =>
            if (1 <? count)%nat then Ok (parsed, true) else Err original_err
        | _ => Err original_err
        end
    end.

(** The directory of a file, which is created when it does not exist. *)
Definition parent_dir (no_parent path : str) : io S io_error str :=
  match path_parent path with
  | None => io_fail (IoErr Other (no_parent ++ path))
  | Some parent => fun s =>
      let parent := components_text parent in
      (_ ← (if path_exists parent s then mret tt else create_dir_all parent);
       mret parent) s
  end.

Definition write_accounts_file (path : str) (d : data) : io S io_error unit :=
  parent ← parent_dir (lit "accounts path has no parent: ") path;
  json ← io_lift (to_string_pretty d);
  persist parent path json.

Definition read_accounts_file (path : str) : io S io_error data := fun s =>
  match read_to_string path s with
  | (Ok contents, s) =>
      (pr ← io_lift (parse_accounts_file contents);
       let '(parsed, repaired) := (pr : data * bool) in
       _ ← (if repaired : bool then write_accounts_file path parsed else mret tt);
       mret parsed) s
  | (Err e, s) =>
      if decide (io_err_kind e = NotFound) then (Ok default_file, s) else (Err e, s)
  end.

(** ** Accounts *)

Definition normalize_email (e : str) : str := to_ascii_lowercase (trim e).

Definition both_match (eqb : str -> str -> bool) (a b : option str) : bool :=
  match a, b with Some a, Some b => eqb a b | _, _ => false end.

Definition match_chatgpt_account (existing : account) (t : token_data opaque) : bool :=
  if negb (is_chatgpt (mode existing)) then false
  else
    match tokens existing with
    | None => false
    | Some existing_tokens =>
        both_match str_eqb (token_account_id existing_tokens) (token_account_id t) &&
        both_match (fun a b => str_eqb (normalize_email a) (normalize_email b))
          (email existing_tokens) (email t)
    end.

Definition match_api_key_account (existing : account) (api_key : str) : bool :=
  bool_decide (mode existing = ApiKey) &&
  match openai_api_key existing with Some stored => str_eqb stored api_key | None => false end.

(** [created] and [used_now] are the two calls of [now]. *)
Definition touch_account (created used_now : instant) (used : bool) (a : account) : account :=
  let a := match created_at a with None => a <| created_at := Some created |> | Some _ => a end in
  if used then a <| last_used_at := Some used_now |> else a.

(** [new.or(old)] on the fields that an upsert overwrites. *)
Definition or_else {A} (new old : option A) : option A :=
  match new with Some _ => new | None => old end.

Definition existing_index (d : data) (new_account : account) : option nat :=
  match mode new_account with
  | ChatGPT | ChatgptAuthTokens =>
      t ← tokens new_account;
      position (fun acc => match_chatgpt_account acc t) (accounts d)
  | ApiKey =>
      api_key ← openai_api_key new_account;
      position (fun acc => match_api_key_account acc api_key) (accounts d)
  | Headers => None
  end.

Definition merge_account (old new_account : account) : account :=
  old <| label := or_else (label new_account) (label old) |>
      <| last_refresh := or_else (last_refresh new_account) (last_refresh old) |>
      <| tokens := or_else (tokens new_account) (tokens old) |>
      <| openai_api_key := or_else (openai_api_key new_account) (openai_api_key old) |>
      <| last_used_at := or_else (last_used_at new_account) (last_used_at old) |>.

Definition upsert_account (created : instant) (d : data) (new_account : account)
    : data * account :=
  match existing_index d new_account with
  | Some idx =>
      match accounts d !! idx with
      | Some old =>
          let a := merge_account old new_account in
          (d <| accounts := <[idx := a]> (accounts d) |>, a)
      | None => (d, new_account) (* [position] gives an index of the list *)
      end
  | None =>
      let new_account :=
        match created_at new_account with
        | None => new_account <| created_at := Some created |>
        | Some _ => new_account
        end in
      (d <| accounts := accounts d ++ [new_account] |>, new_account)
  end.

Definition has_id (account_id : str) (a : account) : bool := str_eqb (id a) account_id.

(** Touch the first account with an identifier: the new list and that account. *)
Fixpoint touch_first (created used_now : instant) (account_id : str) (l : list account)
    : list account * option account :=
  match l with
  | [] => ([], None)
  | a :: l =>
      if has_id account_id a
      then let a := touch_account created used_now true a in (a :: l, Some a)
      else let '(l, found) := touch_first created used_now account_id l in (a :: l, found)
  end.

(** ** Operations *)

Definition list_accounts (code_home : str) : io S io_error (list account) :=
  d ← read_accounts_file (accounts_file_path code_home); mret (accounts d).

Definition get_active_account_id (code_home : str) : io S io_error (option str) :=
  d ← read_accounts_file (accounts_file_path code_home); mret (active_account_id d).

Definition find_account (code_home account_id : str) : io S io_error (option account) :=
  d ← read_accounts_file (accounts_file_path code_home);
  mret (List.find (has_id account_id) (accounts d)).

Definition with_active (created used_now : instant) (account_id : option str) (d : data)
    : data * option account :=
  let d := d <| active_account_id := account_id |> in
  match account_id with
  | None => (d, None)
  | Some i =>
      let '(l, found) := touch_first created used_now i (accounts d) in
      (d <| accounts := l |>, found)
  end.

Definition set_active_account_id (created used_now : instant) (code_home : str)
    (account_id : option str) : io S io_error (option account) :=
  let path := accounts_file_path code_home in
  d ← read_accounts_file path;
  let '(d, found) := with_active created used_now account_id d in
  _ ← write_accounts_file path d;
  mret found.

Definition without_account (account_id : str) (d : data) : data * option account :=
  let '(d, removed) :=
    match position (has_id account_id) (accounts d) with
    | Some pos => (d <| accounts := delete pos (accounts d) |>, accounts d !! pos)
    | None => (d, None)
    end in
  (if bool_decide (active_account_id d = Some account_id)
   then d <| active_account_id := None |> else d, removed).

Definition remove_account (code_home account_id : str) : io S io_error (option account) :=
  let path := accounts_file_path code_home in
  d ← read_accounts_file path;
  let '(d, removed) := without_account account_id d in
  _ ← write_accounts_file path d;
  mret removed.

(** What [upsert_api_key_account] and [upsert_chatgpt_account] do with the account they
    make. *)
Definition add_account (created used_now : instant) (make_active : bool) (new_account : account)
    (d : data) : data * account :=
  let '(d, stored) := upsert_account created d new_account in
  if make_active then
    let '(l, found) := touch_first created used_now (id stored) (accounts d) in
    (d <| active_account_id := Some (id stored) |> <| accounts := l |>, default stored found)
  else (d, stored).

Definition upsert (created used_now : instant) (code_home : str) (make_active : bool)
    (new_account : account) : io S io_error account :=
  let path := accounts_file_path code_home in
  d ← read_accounts_file path;
  let '(d, stored) := add_account created used_now make_active new_account d in
  _ ← write_accounts_file path d;
  mret stored.

Definition api_key_account (next_id api_key : str) (lab : option str) : account :=
  StoredAccount next_id ApiKey lab (Some api_key) None None None None.

Definition chatgpt_account (next_id : str) (t : token_data opaque) (refreshed : instant)
    (lab : option str) : account :=
  StoredAccount next_id ChatGPT lab None (Some t) (Some refreshed) None None.

Definition upsert_api_key_account (created used_now : instant) (next_id code_home api_key : str)
    (lab : option str) (make_active : bool) : io S io_error account :=
  upsert created used_now code_home make_active (api_key_account next_id api_key lab).

Definition upsert_chatgpt_account (created used_now : instant) (next_id code_home : str)
    (t : token_data opaque) (refreshed : instant) (lab : option str) (make_active : bool)
    : io S io_error account :=
  upsert created used_now code_home make_active (chatgpt_account next_id t refreshed lab).

(** ** [auth.json] *)

Definition get_auth_file (code_home : str) : str := path_join code_home (lit "auth.json").

Definition write_auth_json (auth_file : str) (a : auth_dot_json opaque) : io S io_error unit :=
  json ← io_lift (to_string_pretty a);
  parent ← parent_dir (lit "auth path has no parent: ") auth_file;
  persist parent auth_file json.

(** The contents of [auth.json] for a stored account. *)
Definition auth_of (a : account) : result io_error (auth_dot_json opaque) :=
  match mode a with
  | ApiKey =>
      api_key ← ok_or (openai_api_key a)
                  (IoErr Other (lit "stored API key account is missing the key value"));
      mret (AuthDotJson (Some ApiKey) (Some api_key) None None)
  | ChatGPT | ChatgptAuthTokens =>
      t ← ok_or (tokens a) (IoErr Other (lit "stored ChatGPT account is missing token data"));
      mret (AuthDotJson (Some (mode a)) None (Some t) (last_refresh a))
  | Headers =>
      Err (IoErr Other (lit "externally provided auth cannot be selected as a stored account"))
  end.

Definition activate_account (created used_now : instant) (code_home account_id : str)
    : io S io_error unit :=
  found ← find_account code_home account_id;
  match found with
  | None => io_fail (IoErr Other (lit "account with id " ++ account_id ++ lit " was not found"))
  | Some a =>
      auth ← io_lift (auth_of a);
      _ ← write_auth_json (get_auth_file code_home) auth;
      _ ← set_active_account_id created used_now code_home (Some (id a));
      mret tt
  end.
End store.

(** ** Specification *)

(** What tells the accounts of a store apart: the key, or the user of the tokens. *)
Inductive account_key := KeyApi (api_key : str) | KeyUser (account_id email : str).

Definition user_of {opaque} (t : token_data opaque) : option account_key :=
  i ← token_account_id t; e ← email t; Some (KeyUser i (to_ascii_lowercase (trim e))).

Definition key_of {opaque} (a : stored_account opaque) : option account_key :=
  match mode a with
  | ApiKey => KeyApi <$> openai_api_key a
  | ChatGPT | ChatgptAuthTokens | Headers => t ← tokens a; user_of t
  end.

(** What a field holds after a login: what the login brings, or else what was stored. *)
Definition carries {A} (brought before after : option A) : Prop :=
  match brought with Some _ => after = brought | None => after = before end.

(** [stored] is the account [base] after the login [a]: its identifier, mode and time of creation
    with the credentials, the label and the times that [a] brings; [appended] when [base] is
    [a] itself, [active] when the login became the active account, which counts as a use. *)
Definition logged_in {opaque} (created used_now : instant) (appended active : bool)
    (a base stored : stored_account opaque) : Prop :=
  id stored = id base /\ mode stored = mode base /\
  carries (tokens a) (tokens base) (tokens stored) /\
  carries (openai_api_key a) (openai_api_key base) (openai_api_key stored) /\
  carries (last_refresh a) (last_refresh base) (last_refresh stored) /\
  carries (label a) (label base) (label stored) /\
  (if active then last_used_at stored = Some used_now
   else carries (last_used_at a) (last_used_at base) (last_used_at stored)) /\
  (created_at stored =
     match created_at base with
     | Some t => Some t
     | None => if appended || active then Some created else None
     end).

(** Identifiers and keys are unique. *)
Definition wf_accounts {opaque} (d : accounts_file opaque) : Prop :=
  NoDup (id <$> accounts d) /\ NoDup (omap key_of (accounts d)).

(** ** Lemmas *)

Lemma omap_insert_same {A B} (f : A -> option B) (l : list A) i x y :
  l !! i = Some y -> f x = f y -> omap f (<[i := x]> l) = omap f l.
Proof.
  intros Hi Hf. rewrite <- (take_drop_middle l i y Hi) at 2.
  rewrite insert_take_drop by (by eapply lookup_lt_Some).
  rewrite !omap_app. cbn [omap list_omap]. by rewrite Hf.
Qed.

Lemma fmap_insert_same {A B} (f : A -> B) (l : list A) i x y :
  l !! i = Some y -> f x = f y -> f <$> <[i := x]> l = f <$> l.
Proof.
  intros Hi Hf. rewrite list_fmap_insert. apply list_insert_id. by rewrite list_lookup_fmap, Hi, Hf.
Qed.

Lemma filter_insert_out {A} (P : A -> Prop) `{forall x, Decision (P x)} (l : list A) i x y :
  l !! i = Some y -> ~ P x -> ~ P y -> filter P (<[i := x]> l) = filter P l.
Proof.
  intros Hi Hx Hy. rewrite <- (take_drop_middle l i y Hi) at 2.
  rewrite insert_take_drop by (by eapply lookup_lt_Some).
  by rewrite !filter_app, !filter_cons, !decide_False.
Qed.

Section facts.
Context {opaque : Type}.
Notation account := (stored_account opaque).
Notation data := (accounts_file opaque).
Implicit Types (a : stored_account opaque) (d : accounts_file opaque).

Lemma match_chatgpt_key a (t : token_data opaque) :
  match_chatgpt_account a t = true <->
  is_chatgpt (mode a) = true /\ exists k, key_of a = Some k /\ user_of t = Some k.
Proof.
  unfold match_chatgpt_account, key_of, user_of.
  destruct (mode a); cbn [is_chatgpt negb]; [split; [done|by intros [? _]]|..];
    (destruct (tokens a) as [[em ai se]|];
      [destruct t as [em' ai' se'], ai as [i|], ai' as [i'|], em as [e|], em' as [e'|]; cbn;
         rewrite ?andb_false_r|];
      try (split; [done|by intros (_ & k & ? & ?)]);
      rewrite andb_true_iff, !str_eqb_eq; unfold normalize_email; split;
      [intros [-> He]; split; [done|]; rewrite He; by eexists
      |intros (_ & k & Hk1 & Hk2); injection Hk1 as <-; by injection Hk2 as -> ->]).
Qed.

Lemma match_api_key a k :
  match_api_key_account a k = true <-> mode a = ApiKey /\ key_of a = Some (KeyApi k).
Proof.
  unfold match_api_key_account, key_of. rewrite andb_true_iff, bool_decide_eq_true.
  split.
  - intros [Hm Hk]. rewrite Hm. destruct (openai_api_key a); [|done].
    apply str_eqb_eq in Hk. by subst.
  - intros [Hm Hk]. rewrite Hm in Hk. destruct (openai_api_key a) as [k'|]; [|done].
    cbn in Hk. injection Hk as ->. by rewrite str_eqb_refl.
Qed.

Lemma key_api_mode a k : key_of a = Some (KeyApi k) -> mode a = ApiKey.
Proof.
  unfold key_of, user_of. destruct (mode a); [done|..]; destruct (tokens a) as [[[?|] [?|] ?]|]; by cbn.
Qed.

Lemma key_user_mode a i e : key_of a = Some (KeyUser i e) -> is_chatgpt (mode a) = true.
Proof. unfold key_of. destruct (mode a); [|done..]. by destruct (openai_api_key a). Qed.

(** An account is found exactly when one with the same key is stored. *)
Lemma existing_index_Some d a i :
  existing_index d a = Some i ->
  exists k old, accounts d !! i = Some old /\ key_of old = Some k /\ key_of a = Some k.
Proof.
  unfold existing_index, key_of at 2.
  destruct (mode a); [|..|done].
  1: { destruct (openai_api_key a) as [k|]; [|done]. intros Hp.
       apply position_Some in Hp as (old & Hl & Hm). apply match_api_key in Hm as [_ Hk].
       by exists (KeyApi k), old. }
  all: destruct (tokens a) as [t|]; [|done]; intros Hp;
    apply position_Some in Hp as (old & Hl & Hm); apply match_chatgpt_key in Hm as (_ & k & Hk & Hu);
    by exists k, old.
Qed.

Lemma existing_index_None d a k :
  mode a <> Headers -> existing_index d a = None -> key_of a = Some k ->
  k ∉ omap key_of (accounts d).
Proof.
  intros Hh Hn Hk Hin. apply list_elem_of_omap in Hin as (old & Hold & Hk').
  revert Hn. unfold existing_index, key_of in Hk |- *.
  destruct (mode a); [|..|done].
  1: { destruct (openai_api_key a) as [k0|]; [|done]. cbn in Hk. injection Hk as <-. intros Hp.
       pose proof (proj1 (position_None _ _) Hp old Hold) as Hf. cbn in Hf.
       assert (match_api_key_account old k0 = true) by (apply match_api_key; eauto using key_api_mode).
       congruence. }
  all: destruct (tokens a) as [t|]; [|done]; cbn in Hk; intros Hp;
    pose proof (proj1 (position_None _ _) Hp old Hold) as Hf; cbn in Hf;
    assert (match_chatgpt_account old t = true);
      [apply match_chatgpt_key; split; [|by exists k];
       unfold user_of in Hk; destruct t as [[?|] [?|] ?]; try done; cbn in Hk;
       injection Hk as <-; by eapply key_user_mode
      |congruence].
Qed.

Lemma key_of_merge d a i old k :
  accounts d !! i = Some old -> key_of old = Some k -> key_of a = Some k ->
  key_of (merge_account old a) = Some k.
Proof.
  intros _ Ho Ha.
  assert (is_chatgpt (mode old) = is_chatgpt (mode a)) as Hm.
  { destruct k as [k|i' e]; [by rewrite (key_api_mode _ _ Ho), (key_api_mode _ _ Ha)|].
    by rewrite (key_user_mode _ _ _ Ho), (key_user_mode _ _ _ Ha). }
  revert Ho Ha Hm. unfold key_of, merge_account, or_else. cbn.
  destruct (mode old), (mode a); cbn [is_chatgpt]; try done; intros Ho Ha _.
  1: by destruct (openai_api_key a).
  all: by destruct (tokens a).
Qed.

Lemma touch_id created used_now used a : id (touch_account created used_now used a) = id a.
Proof. unfold touch_account. by destruct (created_at a), used. Qed.

Lemma touch_key created used_now used a : key_of (touch_account created used_now used a) = key_of a.
Proof. unfold touch_account, key_of. by destruct (created_at a), used. Qed.

(** Touching keeps everything but the times of the account it finds, which is the first with
    the identifier. *)
Lemma touch_first_spec created used_now i (l : list account) :
  (exists n a, l !! n = Some a /\ id a = i /\ (forall m b, m < n -> l !! m = Some b -> id b <> i) /\
    touch_first created used_now i l =
      (<[n := touch_account created used_now true a]> l, Some (touch_account created used_now true a))) \/
  (i ∉ (id <$> l) /\ touch_first created used_now i l = (l, None)).
Proof.
  induction l as [|a l IH]; [right; split; [apply not_elem_of_nil|done]|].
  cbn [touch_first]. destruct (has_id i a) eqn:Ei.
  - left. exists 0, a. apply str_eqb_eq in Ei. split; [done|]. split; [done|]. split; [|done]. intros m b Hm. lia.
  - apply str_eqb_neq in Ei. destruct IH as [(n & b & Hn & Hb & Hfirst & ->)|(Hnot & ->)].
    + left. exists (Datatypes.S n), b. split; [done|]. split; [done|]. split; [|done].
      intros [|m] c Hm Hc; [by injection Hc as <-|]. apply (Hfirst m); [lia|done].
    + right. split; [|done]. rewrite fmap_cons, not_elem_of_cons. split; [congruence|done].
Qed.

Lemma merge_logged_in created used_now a old :
  logged_in created used_now false false a old (merge_account old a).
Proof.
  unfold logged_in, merge_account, or_else, carries. cbn. split_and!; by repeat case_match.
Qed.

(** Touching the account that a login left makes it the one of an active login. *)
Lemma touch_logged_in created used_now appended a base x :
  logged_in created used_now appended false a base x ->
  logged_in created used_now appended true a base (touch_account created used_now true x).
Proof.
  unfold logged_in, touch_account. intros (? & ? & ? & ? & ? & ? & _ & Hc).
  destruct (created_at base), appended, (created_at x) eqn:Ex; try discriminate; cbn;
    rewrite ?Ex; by split_and!.
Qed.

(** What adding an account leaves: the account with its key, or with a new identifier. *)
Lemma upsert_account_spec created d a d' stored :
  mode a <> Headers -> upsert_account created d a = (d', stored) ->
  active_account_id d' = active_account_id d /\ version d' = version d /\
  key_of stored = key_of a /\
  ((exists i old, accounts d !! i = Some old /\ is_Some (key_of a) /\ key_of old = key_of a /\
      (forall used_now, logged_in created used_now false false a old stored) /\
      accounts d' = <[i := stored]> (accounts d)) \/
   ((forall k, key_of a = Some k -> k ∉ omap key_of (accounts d)) /\
      (forall used_now, logged_in created used_now true false a a stored) /\
      accounts d' = accounts d ++ [stored])).
Proof.
  intros Hh Hu. unfold upsert_account in Hu. destruct (existing_index d a) as [i|] eqn:Ei.
  - apply existing_index_Some in Ei as (k & old & Hl & Ho & Hk). rewrite Hl in Hu.
    injection Hu as <- <-. cbn. rewrite Hk.
    repeat split; [by eapply key_of_merge|].
    left. exists i, old. split; [done|]. split; [done|]. split; [done|]. split; [|done].
    intros used_now. apply merge_logged_in.
  - assert (forall k, key_of a = Some k -> k ∉ omap key_of (accounts d)) as Hk.
    { intros k Hk. by eapply existing_index_None. }
    destruct (created_at a) eqn:Ec; injection Hu as <- <-; cbn;
      do 3 (split; [done|]); right; (split; [done|]); (split; [|done]); intros used_now;
      unfold logged_in, carries; cbn; rewrite ?Ec; split_and!; by repeat case_match.
Qed.

Lemma accounts_insert_wf d d' i old new :
  wf_accounts d -> accounts d !! i = Some old -> id new = id old -> key_of new = key_of old ->
  accounts d' = <[i := new]> (accounts d) -> wf_accounts d'.
Proof.
  intros [Hi Hk] Hl Hid Hkey Hd. unfold wf_accounts. rewrite Hd.
  rewrite (fmap_insert_same id _ _ _ old), (omap_insert_same key_of _ _ _ old) by done. done.
Qed.

Lemma accounts_app_wf d d' new :
  wf_accounts d -> id new ∉ (id <$> accounts d) ->
  (forall k, key_of new = Some k -> k ∉ omap key_of (accounts d)) ->
  accounts d' = accounts d ++ [new] -> wf_accounts d'.
Proof.
  intros [Hi Hk] Hid Hkey Hd. unfold wf_accounts. rewrite Hd, fmap_app, omap_app. cbn.
  split.
  - apply NoDup_app. repeat split; [done| |apply NoDup_singleton].
    intros x Hx Hx'. apply list_elem_of_singleton in Hx'. by subst.
  - destruct (key_of new) as [k|] eqn:Ek; [|by rewrite app_nil_r].
    apply NoDup_app. repeat split; [done| |apply NoDup_singleton].
    intros x Hx Hx'. apply list_elem_of_singleton in Hx'. subst. by apply (Hkey k).
Qed.

(** Both cases keep a store well formed and have the account at its place. *)
Lemma logged_in_wf d d' a stored :
  wf_accounts d -> id a ∉ (id <$> accounts d) -> key_of stored = key_of a ->
  ((exists i old, accounts d !! i = Some old /\ key_of old = key_of a /\ id stored = id old /\
      accounts d' = <[i := stored]> (accounts d)) \/
   ((forall k, key_of a = Some k -> k ∉ omap key_of (accounts d)) /\ id stored = id a /\
      accounts d' = accounts d ++ [stored])) ->
  wf_accounts d'.
Proof.
  intros Hwf Hfresh Hk [(i & old & Hl & Ho & Hid & Hd)|(Hkey & Hid & Hd)].
  - eapply accounts_insert_wf; eauto; congruence.
  - apply (accounts_app_wf d d' stored); rewrite ?Hid, ?Hk; done.
Qed.
End facts.

(** ** The files *)

Section files.
Context {opaque S L : Type} `{EqDecision L, !FileSystem S, !Console S, !FileSystemLaws S L}.
Context `{!AtomicFiles S, !AtomicFilesLaws S L}.
Context `{!Json (accounts_file opaque), !Json (auth_dot_json opaque)}.
Context `{!JsonLaws (accounts_file opaque), !JsonLaws (auth_dot_json opaque)}.
Notation data := (accounts_file opaque).

(** The accounts that a text holds; no file holds no accounts. *)
Definition accounts_of (text : option str) : option data :=
  match text with
  | None => Some default_file
  | Some t => match parse_accounts_file t with Ok (d, _) => Some d | Err _ => None end
  end.

Definition accounts_at (s : S) (path : str) : option data := accounts_of (file_at s (loc path)).

(** Only the file of a path may have changed. *)
Definition only_changes (path : str) (s s' : S) : Prop :=
  forall l, l <> loc path -> file_at s' l = file_at s l.

Lemma only_changes_refl path s s' : file_at s' ≡ file_at s -> only_changes path s s'.
Proof. intros Hs l _. apply Hs. Qed.

Lemma only_changes_trans path s s' s'' :
  only_changes path s s' -> only_changes path s' s'' -> only_changes path s s''.
Proof. intros H1 H2 l Hl. by rewrite (H2 l Hl), (H1 l Hl). Qed.

Lemma parent_dir_frame msg path s r s' : parent_dir msg path s = (r, s') -> file_at s' ≡ file_at s.
Proof.
  unfold parent_dir. destruct (path_parent path) as [parent|]; [|by intros [= <- <-]].
  cbn beta zeta. destruct (path_exists (components_text parent) s); [by intros [= <- <-]|].
  destruct r as [x|e]; intros H.
  - apply io_bind_Ok in H as (u & s1 & Hm & [= _ <-]). by eapply mkdir_frame.
  - apply io_bind_Err in H as [Hm|(u & s1 & _ & [=])]. by eapply mkdir_frame.
Qed.

Lemma persisted msg path t s parent s1 s2 :
  parent_dir msg path s = (Ok parent, s1) -> persist parent path t s1 = (Ok tt, s2) ->
  file_at s2 ≡ upd (loc path) (Some t) (file_at s).
Proof. intros Hp Ht. rewrite (persist_Ok _ _ _ _ _ Ht). by rewrite (parent_dir_frame _ _ _ _ _ Hp). Qed.

Lemma write_accounts_Ok path (d : data) s s' :
  write_accounts_file path d s = (Ok tt, s') ->
  (exists t, to_string_pretty d = Ok t /\ file_at s' ≡ upd (loc path) (Some t) (file_at s)).
Proof.
  unfold write_accounts_file. intros H.
  apply io_bind_Ok in H as (parent & s1 & Hp & H). apply io_bind_Ok in H as (t & s2 & Ht & H).
  injection Ht as Ht <-. exists t. split; [done|]. by eapply persisted.
Qed.

Lemma write_accounts_Err path (d : data) s e s' :
  write_accounts_file path d s = (Err e, s') -> file_at s' ≡ file_at s.
Proof.
  unfold write_accounts_file. intros H.
  apply io_bind_Err in H as [H|(parent & s1 & Hp & H)]; [by eapply parent_dir_frame|].
  rewrite <- (parent_dir_frame _ _ _ _ _ Hp).
  apply io_bind_Err in H as [H|(t & s2 & Ht & H)]; [by injection H as _ <-|].
  injection Ht as _ <-. by eapply persist_Err.
Qed.

Lemma parse_printed (d : data) t : to_string_pretty d = Ok t -> parse_accounts_file t = Ok (d, false).
Proof.
  intros Ht. apply json_round_trip in Ht as [Hf Hne]. unfold parse_accounts_file.
  apply str_eqb_neq in Hne. by rewrite Hne, Hf.
Qed.

Lemma written_accounts path (d : data) s s' :
  write_accounts_file path d s = (Ok tt, s') ->
  accounts_at s' path = Some d /\ only_changes path s s'.
Proof.
  intros (t & Ht & Hs)%write_accounts_Ok. split.
  - unfold accounts_at. rewrite (Hs (loc path)), upd_same. cbn. by rewrite (parse_printed d).
  - intros l Hl. by rewrite (Hs l), upd_other.
Qed.

Lemma read_accounts path (d : data) s s' :
  read_accounts_file path s = (Ok d, s') ->
  accounts_at s path = Some d /\ accounts_at s' path = Some d /\ only_changes path s s'.
Proof.
  unfold read_accounts_file. destruct (read_to_string path s) as [[t|e] s1] eqn:Hr.
  - apply read_Ok in Hr as [Ht Hs1]. intros H.
    apply io_bind_Ok in H as ([parsed repaired] & s2 & Hp & H). injection Hp as Hp <-.
    apply io_bind_Ok in H as ([] & s3 & Hw & H). injection H as -> <-.
    assert (accounts_at s path = Some d) as Ha by (unfold accounts_at; by rewrite Ht; cbn; rewrite Hp).
    split; [done|]. destruct repaired.
    + apply written_accounts in Hw as [Hw Ho]. split; [done|].
      apply (only_changes_trans _ _ s1); [by apply only_changes_refl|done].
    + injection Hw as <-. split; [|by apply only_changes_refl].
      unfold accounts_at. by rewrite (Hs1 (loc path)).
  - pose proof (read_Err _ _ _ _ Hr) as Hs1. case_decide as Hk; [|done]. intros [= <- <-].
    pose proof (read_not_found _ _ _ _ Hr Hk) as Hn. unfold accounts_at.
    rewrite (Hs1 (loc path)), Hn. split; [done|]. split; [done|]. by apply only_changes_refl.
Qed.

(** A reading that fails changes no file. *)
Lemma read_accounts_Err path e s s' :
  read_accounts_file (opaque := opaque) path s = (Err e, s') -> file_at s' ≡ file_at s.
Proof.
  unfold read_accounts_file. destruct (read_to_string path s) as [[t|e'] s1] eqn:Hr.
  - apply read_Ok in Hr as [_ Hs1]. intros H. rewrite <- Hs1.
    apply io_bind_Err in H as [H|([parsed repaired] & s2 & Hp & H)]; [by injection H as _ <-|].
    injection Hp as _ <-. apply io_bind_Err in H as [H|([] & s3 & Hw & H)]; [|done].
    destruct repaired; [by eapply write_accounts_Err|done].
  - apply read_Err in Hr. by case_decide; intros [= _ <-].
Qed.

Lemma touch_first_wf created used_now i (d d' : data) l found :
  touch_first created used_now i (accounts d) = (l, found) -> accounts d' = l ->
  (wf_accounts d -> wf_accounts d') /\ (id <$> accounts d') = (id <$> accounts d) /\
  filter (fun b => id b <> i) (accounts d') = filter (fun b => id b <> i) (accounts d).
Proof.
  intros Ht Hd. destruct (touch_first_spec created used_now i (accounts d))
    as [(n & a & Hn & Hi & _ & Heq)|(_ & Heq)]; rewrite Heq in Ht;
    apply (f_equal fst) in Ht; cbn [fst] in Ht; subst l.
  - split; [|split].
    + intros Hwf. apply (accounts_insert_wf d d' n a (touch_account created used_now true a));
        [done|done|apply touch_id|apply touch_key|done].
    + rewrite Hd. by apply (fmap_insert_same id _ _ _ a); [|apply touch_id].
    + rewrite Hd. apply filter_insert_out with (y := a); [done|rewrite touch_id|]; tauto.
  - unfold wf_accounts. by rewrite Hd.
Qed.

(** The account at a place is the one that is touched under its identifier. *)
Lemma touch_first_at created used_now (l : list (stored_account opaque)) n x :
  NoDup (id <$> l) -> l !! n = Some x ->
  touch_first created used_now (id x) l =
    (<[n := touch_account created used_now true x]> l, Some (touch_account created used_now true x)).
Proof.
  intros Hnd Hx. destruct (touch_first_spec created used_now (id x) l)
    as [(m & b & Hm & Hb & _ & ->)|(Hnot & _)].
  - assert (m = n) as ->; [|congruence].
    apply (NoDup_lookup (id <$> l) m n (id x)); [done|..]; rewrite list_lookup_fmap, ?Hm, ?Hx; cbn; congruence.
  - destruct Hnot. apply list_elem_of_fmap_2. by eapply list_elem_of_lookup_2.
Qed.

Lemma add_account_spec created used_now make_active (a : stored_account opaque) d d' stored :
  wf_accounts d -> mode a <> Headers -> id a ∉ (id <$> accounts d) ->
  add_account created used_now make_active a d = (d', stored) ->
  wf_accounts d' /\
  ((exists i old, accounts d !! i = Some old /\ is_Some (key_of a) /\ key_of old = key_of a /\
      key_of stored = key_of a /\ logged_in created used_now false make_active a old stored /\
      accounts d' = <[i := stored]> (accounts d)) \/
   ((forall k, key_of a = Some k -> k ∉ omap key_of (accounts d)) /\
      key_of stored = key_of a /\ logged_in created used_now true make_active a a stored /\
      accounts d' = accounts d ++ [stored])) /\
  active_account_id d' = if make_active then Some (id stored) else active_account_id d.
Proof.
  intros Hwf Hh Hfresh. unfold add_account.
  destruct (upsert_account created d a) as [d1 a1] eqn:Hu.
  pose proof (upsert_account_spec _ _ _ _ _ Hh Hu) as (Hact & _ & Hk & Hcases).
  assert (wf_accounts d1) as Hwf1.
  { apply (logged_in_wf d d1 a a1 Hwf Hfresh Hk).
    destruct Hcases as [(i & old & ? & _ & ? & Hl & ?)|(? & Hl & ?)];
      specialize (Hl used_now) as [Hl _]; [left; exists i, old|right]; done. }
  destruct make_active.
  2:{ intros [= <- <-]. split; [done|]. split; [|done].
      destruct Hcases as [(i & old & ? & ? & ? & Hl & ?)|(? & Hl & ?)]; specialize (Hl used_now);
        [left; exists i, old|right]; done. }
  assert (exists n, accounts d1 !! n = Some a1 /\
    forall x, (<[n := x]> (accounts d1) = accounts d ++ [x] \/ n < length (accounts d)) /\
    (n < length (accounts d) -> accounts d1 = <[n := a1]> (accounts d))) as (n & Hn & Hat).
  { destruct Hcases as [(i & old & Hl & _ & _ & _ & ->)|(_ & _ & ->)].
    - exists i. apply lookup_lt_Some in Hl. rewrite list_lookup_insert_eq by done. by auto.
    - exists (length (accounts d)). rewrite lookup_app_r, Nat.sub_diag by lia. split; [done|].
      intros x. split; [left|lia]. by rewrite insert_app_r_alt, Nat.sub_diag by lia. }
  pose proof (touch_first_at created used_now (accounts d1) n a1 (proj1 Hwf1) Hn) as Ht.
  destruct (touch_first created used_now (id a1) (accounts d1)) as [l found].
  apply pair_equal_spec in Ht as [-> ->].
  pose proof (touch_id created used_now true a1) as Hti.
  pose proof (touch_key created used_now true a1) as Htk.
  assert (forall appended base, logged_in created used_now appended false a base a1 ->
    logged_in created used_now appended true a base (touch_account created used_now true a1)) as Htl
    by (intros appended base; apply touch_logged_in).
  generalize dependent (touch_account created used_now true a1). intros x Hti Htk Htl.
  intros [= <- <-]. cbn. split; [|split].
  - apply (accounts_insert_wf d1 _ n a1 x); done.
  - destruct Hcases as [(i & old & Hl & ? & ? & Hlog & He)|(? & Hlog & He)].
    + left. exists i, old. do 3 (split; [done|]). split; [by rewrite Htk|]. split; [by apply Htl|].
      assert (n = i) as ->.
      { apply (NoDup_lookup (id <$> accounts d1) n i (id a1)); [apply Hwf1|..]; rewrite list_lookup_fmap.
        - by rewrite Hn.
        - rewrite He, list_lookup_insert_eq by (by eapply lookup_lt_Some). done. }
      rewrite He. apply list_insert_insert_eq.
    + right. split; [done|]. split; [by rewrite Htk|]. split; [by apply Htl|].
      destruct (Hat x) as [[Hx|Hx] Hin]; [done|].
      apply (f_equal length) in He. rewrite (Hin Hx), length_insert, length_app in He. cbn in He. lia.
  - unfold Datatypes.id. by rewrite Hti.
Qed.
End files.

(** ** Properties *)

Section properties.
Context {opaque S L : Type} `{EqDecision L, !FileSystem S, !Console S, !FileSystemLaws S L}.
Context `{!AtomicFiles S, !AtomicFilesLaws S L}.
Context `{!Json (accounts_file opaque), !Json (auth_dot_json opaque)}.
Context `{!JsonLaws (accounts_file opaque), !JsonLaws (auth_dot_json opaque)}.
Notation data := (accounts_file opaque).

(** What was written is read back, and reading changes no file. *)
Theorem accounts_read_back path (d d' : data) s s' s'' :
  write_accounts_file path d s = (Ok tt, s') -> read_accounts_file path s' = (Ok d', s'') ->
  d' = d /\ accounts_at s'' path = Some d.
Proof.
  intros [Hw _]%written_accounts (Hr & Hr' & _)%read_accounts. rewrite Hw in Hr.
  injection Hr as <-. done.
Qed.

(** C11: A login with an API key or with the tokens of a user (not one with headers), under a
    new identifier, into a well-formed store: when it succeeds and an account has its key, that
    account stays at its place, under its identifier, with the tokens, the key, the refresh time
    and the label that the login brings and what it had of those the login lacks; when none has,
    the login is appended.  All other accounts are as before, identifiers and keys stay unique,
    the login becomes the active account when it should, which counts as a use, and no other
    file changes. *)
Theorem login_kept created used_now home make_active (a stored : stored_account opaque) (d : data) s s' :
  mode a <> Headers -> accounts_at s (accounts_file_path home) = Some d -> wf_accounts d ->
  id a ∉ (id <$> accounts d) ->
  upsert created used_now home make_active a s = (Ok stored, s') ->
  only_changes (accounts_file_path home) s s' /\
  exists d', accounts_at s' (accounts_file_path home) = Some d' /\ wf_accounts d' /\
    ((exists i old, accounts d !! i = Some old /\ is_Some (key_of a) /\ key_of old = key_of a /\
        key_of stored = key_of a /\ logged_in created used_now false make_active a old stored /\
        accounts d' = <[i := stored]> (accounts d)) \/
     ((forall k, key_of a = Some k -> k ∉ omap key_of (accounts d)) /\
        key_of stored = key_of a /\ logged_in created used_now true make_active a a stored /\
        accounts d' = accounts d ++ [stored])) /\
    active_account_id d' = if make_active then Some (id stored) else active_account_id d.
Proof.
  intros Hh Hd Hwf Hfresh Hu. unfold upsert in Hu.
  apply io_bind_Ok in Hu as (d0 & s1 & Hr & Hu). apply read_accounts in Hr as (Hr & _ & Ho).
  rewrite Hr in Hd. injection Hd as ->.
  destruct (add_account created used_now make_active a d) as [d' stored'] eqn:Ha.
  apply io_bind_Ok in Hu as (u & s2 & Hw & [= -> <-]). destruct u.
  apply written_accounts in Hw as [Hw Ho']. split; [by eapply only_changes_trans|].
  exists d'. split; [done|]. by eapply add_account_spec.
Qed.
Lemma active_written created used_now home i (d : data) s1 s' found :
  accounts_at s1 (accounts_file_path home) = Some d ->
  set_active_account_id created used_now home (Some i) s1 = (Ok found, s') ->
  accounts_at s' (accounts_file_path home) = Some (with_active created used_now (Some i) d).1 /\
  only_changes (accounts_file_path home) s1 s'.
Proof.
  intros Hd Hs. unfold set_active_account_id in Hs.
  apply io_bind_Ok in Hs as (d0 & s2 & Hr & Hs). apply read_accounts in Hr as (Hr & _ & Ho).
  rewrite Hr in Hd. injection Hd as ->.
  destruct (with_active created used_now (Some i) d) as [d' f].
  apply io_bind_Ok in Hs as (u & s3 & Hw & [= _ <-]). destruct u.
  apply written_accounts in Hw as [Hw Ho']. split; [done|]. by eapply only_changes_trans.
Qed.

(** What an activation that succeeds did. *)
Lemma activate_inv created used_now home i (d : data) s s' :
  loc (get_auth_file home) <> loc (accounts_file_path home) ->
  accounts_at s (accounts_file_path home) = Some d ->
  activate_account (opaque := opaque) created used_now home i s = (Ok tt, s') ->
  exists a auth t s3, List.find (has_id i) (accounts d) = Some a /\ auth_of a = Ok auth /\
    from_str t = Ok auth /\ file_at s3 (loc (get_auth_file home)) = Some t /\
    (forall l, l <> loc (get_auth_file home) -> l <> loc (accounts_file_path home) ->
       file_at s3 l = file_at s l) /\
    accounts_at s' (accounts_file_path home) = Some (with_active created used_now (Some i) d).1 /\
    only_changes (accounts_file_path home) s3 s'.
Proof.
  intros Hne Hd Ha. unfold activate_account, find_account in Ha.
  apply io_bind_Ok in Ha as (found & s1 & Hf & Ha).
  apply io_bind_Ok in Hf as (d0 & s1' & Hr & [= <- <-]).
  apply read_accounts in Hr as (Hr & Hr' & Ho). rewrite Hr in Hd. injection Hd as ->.
  destruct (List.find (has_id i) (accounts d)) as [a|] eqn:Hfind; [|done].
  apply io_bind_Ok in Ha as (auth & s2 & Hau & Ha). injection Hau as Hau <-.
  apply io_bind_Ok in Ha as (u & s3 & Hw & Ha). destruct u.
  apply io_bind_Ok in Ha as (found & s4 & Hs & [= <-]).
  unfold write_auth_json in Hw. apply io_bind_Ok in Hw as (t & s5 & Ht & Hw). injection Ht as Ht <-.
  apply io_bind_Ok in Hw as (parent & s6 & Hp & Hw). pose proof (persisted _ _ _ _ _ _ _ Hp Hw) as Hup.
  assert (id a = i) as Hid by (apply find_some in Hfind as [_ Hi]; by apply str_eqb_eq in Hi).
  assert (accounts_at s3 (accounts_file_path home) = Some d) as Hd3.
  { unfold accounts_at. rewrite (Hup (loc (accounts_file_path home))), upd_other by done. exact Hr'. }
  rewrite Hid in Hs. pose proof (active_written _ _ _ _ _ _ _ _ Hd3 Hs) as [Hd' Ho'].
  apply json_round_trip in Ht as [Ht _].
  exists a, auth, t, s3. repeat (split; [done|]). split; [by rewrite (Hup _), upd_same|].
  split; [|by split]. intros l Hl1 Hl2. by rewrite (Hup l), upd_other, (Ho l Hl2).
Qed.

Lemma with_active_kept created used_now i (d : data) :
  let d' := (with_active created used_now (Some i) d).1 in
  active_account_id d' = Some i /\ (wf_accounts d -> wf_accounts d') /\
  (id <$> accounts d') = (id <$> accounts d).
Proof.
  cbv zeta. unfold with_active.
  destruct (touch_first created used_now i _) as [l found'] eqn:Htf. cbn in Htf.
  split; [done|].
  match goal with |- (_ -> wf_accounts ?x) /\ _ =>
    pose proof (touch_first_wf _ _ _ d x _ _ Htf eq_refl) as (Hw1 & Hw2 & _) end.
  by split.
Qed.

(** An activation that succeeds writes to [auth.json] the credentials of the stored
    account with the identifier, makes it the active account, keeps every account and
    changes no other file. *)
Theorem account_activated created used_now home i (d : data) s s' :
  loc (get_auth_file home) <> loc (accounts_file_path home) ->
  accounts_at s (accounts_file_path home) = Some d ->
  activate_account (opaque := opaque) created used_now home i s = (Ok tt, s') ->
  exists a auth t d', List.find (has_id i) (accounts d) = Some a /\ auth_of a = Ok auth /\
    file_at s' (loc (get_auth_file home)) = Some t /\ from_str t = Ok auth /\
    accounts_at s' (accounts_file_path home) = Some d' /\ active_account_id d' = Some i /\
    (wf_accounts d -> wf_accounts d') /\ (id <$> accounts d') = (id <$> accounts d) /\
    forall l, l <> loc (get_auth_file home) -> l <> loc (accounts_file_path home) ->
      file_at s' l = file_at s l.
Proof.
  intros Hne Hd Ha.
  destruct (activate_inv _ _ _ _ _ _ _ Hne Hd Ha) as (a & auth & t & s3 & Hf & Hau & Ht & Hs3 & Hl & Hd' & Ho).
  destruct (with_active_kept created used_now i d) as (Hact & Hwf & Hids).
  exists a, auth, t, (with_active created used_now (Some i) d).1.
  repeat (split; [done|]). split; [by rewrite (Ho _ Hne)|]. repeat (split; [done|]).
  intros l Hl1 Hl2. by rewrite (Ho _ Hl2), Hl.
Qed.
End properties.

(** ** Runs *)

(** Files in memory, and texts that encode a value as one number. *)
Module AccountRuns.
Import MemFs.

#[export] Instance mem_atomic : AtomicFiles world := {
  path_exists _ _ := true;
  persist _ p c w := write_file p c w
}.

#[export, refine] Instance mem_atomic_laws : AtomicFilesLaws world (list Paths.component) := {}.
Proof.
  - intros w parent p c w' H. by eapply write_Ok.
  - intros w parent p c e w' H. done.
  - intros w p e w' H _. cbn in H. cbn. destruct (files w !! path_components p); [done|done].
Defined.

#[export] Instance auth_mode_countable : Countable auth_mode.
Proof.
  refine (inj_countable'
    (fun m => match m with ApiKey => 0 | ChatGPT => 1 | ChatgptAuthTokens => 2 | Headers => 3 end)
    (fun n => match n with 0 => ApiKey | 1 => ChatGPT | 2 => ChatgptAuthTokens | _ => Headers end) _).
  by intros [].
Defined.

#[export] Instance token_data_eq_dec : EqDecision (token_data unit).
Proof. solve_decision. Defined.
#[export] Instance token_data_countable : Countable (token_data unit).
Proof.
  refine (inj_countable' (fun t => (email t, token_account_id t, secrets t))
    (fun '(e, a, x) => TokenData e a x) _).
  by intros [].
Defined.

#[export] Instance stored_account_eq_dec : EqDecision (stored_account unit).
Proof. solve_decision. Defined.
#[export] Instance stored_account_countable : Countable (stored_account unit).
Proof.
  refine (inj_countable'
    (fun a => (id a, mode a, label a, openai_api_key a, tokens a, last_refresh a, created_at a, last_used_at a))
    (fun '(i, m, l, k, t, r, c, u) => StoredAccount i m l k t r c u) _).
  by intros [].
Defined.

#[export] Instance accounts_file_eq_dec : EqDecision (accounts_file unit).
Proof. solve_decision. Defined.
#[export] Instance accounts_file_countable : Countable (accounts_file unit).
Proof.
  refine (inj_countable' (fun d => (version d, active_account_id d, accounts d))
    (fun '(v, a, l) => AccountsFile v a l) _).
  by intros [].
Defined.

#[export] Instance auth_dot_json_eq_dec : EqDecision (auth_dot_json unit).
Proof. solve_decision. Defined.
#[export] Instance auth_dot_json_countable : Countable (auth_dot_json unit).
Proof.
  refine (inj_countable'
    (fun a => (auth_mode_of a, auth_api_key a, auth_tokens a, auth_last_refresh a))
    (fun '(m, k, t, r) => AuthDotJson m k t r) _).
  by intros [].
Defined.

Definition OPEN : char := 123%N.

(** A text is the numbers of its documents, each after a brace. *)
Fixpoint documents {A} `{Countable A} (text : str) : list (result io_error A) :=
  match text with
  | c :: Npos p :: text =>
      match decode p with
      | Some a => Ok a :: documents text
      | None => [Err (IoErr Other [])]
      end
  | [] => []
  | _ => [Err (IoErr Other [])]
  end.

#[export] Instance number_json {A} `{Countable A} : Json A := {
  to_string_pretty a := Ok [OPEN; Npos (encode a)];
  from_str t := match documents t with [Ok a] => Ok a | _ => Err (IoErr Other []) end;
  into_iter := documents
}.

#[export] Instance number_json_laws {A} `{Countable A} : JsonLaws A.
Proof.
  split. intros a t Ht. cbn in Ht. injection Ht as <-. cbn. rewrite decode_encode. split; [done|].
  unfold trim, trim_end, trim_start, drop_while_end.
  change (reverse [OPEN; Npos (encode a)]) with [Npos (encode a); OPEN]. cbn [drop_while].
  destruct (is_whitespace (Npos (encode a))); cbn; done.
Qed.

Definition home : str := lit "/home/u/.code".
Definition user (i e : string) : token_data unit := TokenData (Some (lit e)) (Some (lit i)) tt.

Definition login_as (next_id i e : string) (w : world) : result io_error (stored_account unit) * world :=
  upsert_chatgpt_account 10 11 (lit next_id) home (user i e) 9 None true w.

(** The files after two logins. *)
Definition two_logins : world := (login_as "n2" "c2" "b@x" (login_as "n1" "c1" "a@x" empty_world).2).2.

Example logins :
  ((fun d => (id <$> accounts d, active_account_id d)) <$>
     accounts_at (opaque := unit) two_logins (accounts_file_path home),
   (fun d => (id <$> accounts d, active_account_id d)) <$>
     accounts_at (opaque := unit) (login_as "n3" "c1" " A@x" two_logins).2 (accounts_file_path home))
  = (Some ([lit "n1"; lit "n2"], Some (lit "n2")), Some ([lit "n1"; lit "n2"], Some (lit "n1"))).
Proof. vm_compute. reflexivity. Qed.

(** A file of two documents is read as the last one and repaired. *)
Example repaired_file :
  let one := AccountsFile 1 None ([] : list (stored_account unit)) in
  let two := AccountsFile 1 (Some (lit "n1")) ([] : list (stored_account unit)) in
  let w := (write_file (accounts_file_path home)
              [OPEN; Npos (encode one); OPEN; Npos (encode two)] empty_world).2 in
  let '(r, w') := read_accounts_file (accounts_file_path home) w in
  (r, files w' !! path_components (accounts_file_path home))
  = (Ok two, Some [OPEN; Npos (encode two)]).
Proof. vm_compute. reflexivity. Qed.

Example login_kept_witness :
  exists d', accounts_at (login_as "n3" "c1" " A@x" two_logins).2 (accounts_file_path home) = Some d' /\
    wf_accounts d'.
Proof.
  assert (exists d, accounts_at (opaque := unit) two_logins (accounts_file_path home) = Some d /\
    wf_accounts d /\ lit "n3" ∉ (id <$> accounts d)) as (d & Hd & Hwf & Hn).
  { eexists. split; [vm_compute; reflexivity|]. split.
    - split; vm_compute; repeat (apply NoDup_cons; split; [|]); try apply NoDup_nil_2;
        repeat (apply not_elem_of_cons; split; [discriminate|]); apply not_elem_of_nil.
    - vm_compute. repeat (apply not_elem_of_cons; split; [discriminate|]). apply not_elem_of_nil. }
  destruct (login_as "n3" "c1" " A@x" two_logins) as [[stored|e] w'] eqn:Hl; [|vm_compute in Hl; discriminate].
  unfold login_as, upsert_chatgpt_account in Hl.
  destruct (login_kept 10 11 home true
    (chatgpt_account (lit "n3") (user "c1" " A@x") 9 None) stored d two_logins w')
    as (_ & d' & H1 & H2 & _); [discriminate|exact Hd|exact Hwf|exact Hn|exact Hl|].
  exists d'. split; [exact H1|exact H2].
Defined.

Example account_activated_witness :
  exists a, (activate_account (opaque := unit) 10 12 home (lit "n1") two_logins).1 = Ok tt /\
    file_at (activate_account (opaque := unit) 10 12 home (lit "n1") two_logins).2
      (loc (get_auth_file home)) = Some a.
Proof.
  destruct (accounts_at (opaque := unit) two_logins (accounts_file_path home)) as [d|] eqn:Hd;
    [|vm_compute in Hd; discriminate].
  destruct (activate_account (opaque := unit) 10 12 home (lit "n1") two_logins) as [[[]|e] w'] eqn:Hl;
    [|vm_compute in Hl; discriminate].
  destruct (account_activated 10 12 home (lit "n1") d two_logins w')
    as (_ & _ & t & _ & _ & _ & Ht & _); [vm_compute; discriminate|exact Hd|exact Hl|].
  exists t. split; [reflexivity|exact Ht].
Defined.
End AccountRuns.
