(* ===== verification/AccountSwitching.v ===== *)
(** * Switching accounts at a limit

    [core/src/account_switching.rs]: when an account reaches its usage limit, the account
    that takes over, from the stored accounts ([Accounts]) and what is known of their limits
    ([core/src/account_usage.rs]).  The session, the model client and the coordinator of
    Auto Drive call it in the same way ([current_account_id]).

    A percentage is an [f64]: a rational, an infinity or NaN.  The texts of the usage files
    are serde's; what they hold, the directory listing and the clock are arguments. *)

From Stdlib Require Import QArith Qminmax.
From stdpp Require Import gmap.
From S2P Require Import Prelude Paths FileSystem BTree Accounts.

Open Scope record_scope.
Open Scope nat_scope.

(** ** Percentages *)

Inductive f64 := Finite (q : Q) | Infinity | NegInfinity | NaN.

(** [f64::max]: a NaN is ignored. *)
Definition f64_max (a b : f64) : f64 :=
  match a, b with
  | NaN, x | x, NaN => x
  | Infinity, _ | _, Infinity => Infinity
  | NegInfinity, x | x, NegInfinity => x
  | Finite p, Finite q => Finite (if Qle_bool p q then q else p)
  end.

(** [used < best] on finite numbers. *)
Definition Qltb (p q : Q) : bool := negb (Qle_bool q p).

(** ** What is known of the limits *)

Record rate_limit_info := RateLimitInfo {
  used_percents : option (f64 * f64);
  info_primary_next_reset_at : option instant;
  info_secondary_next_reset_at : option instant
}.

Record stored_rate_limit_snapshot := StoredRateLimitSnapshot {
  snapshot_account_id : str;
  snapshot : option (f64 * f64);
  primary_next_reset_at : option instant;
  secondary_next_reset_at : option instant
}.

(** An entry of the directory: whether it is a file, its extension, its text. *)
Record usage_entry := UsageEntry {
  is_file : bool;
  extension : option str;
  text_of : option str
}.

Section usage.
(** [serde_json::from_str::<AccountUsageData>]: the account and its limits. *)
Context (usage_data : str -> option (str * option rate_limit_info)).

Definition snapshot_of_entry (e : option usage_entry) : option stored_rate_limit_snapshot :=
  e ← e;
  if is_file e && match extension e with
                  | Some ext => eq_ignore_ascii_case ext (lit "json")
                  | None => false
                  end
  then
    contents ← text_of e;
    '(account_id, rate) ← usage_data contents;
    let rate := default (RateLimitInfo None None None) rate in
    Some (StoredRateLimitSnapshot account_id (used_percents rate)
            (info_primary_next_reset_at rate)
            (match info_secondary_next_reset_at rate with
             | Some at_ => Some at_
             | None => info_primary_next_reset_at rate
             end))
  else None.

(** [entries] is the outcome of [read_dir]; an entry of it may be unreadable. *)
Definition list_rate_limit_snapshots (entries : result io_error (list (option usage_entry)))
    : result io_error (list stored_rate_limit_snapshot) :=
  match entries with
  | Err err => if decide (io_err_kind err = NotFound) then Ok [] else Err err
  | Ok entries => Ok (omap snapshot_of_entry entries)
  end.
End usage.

(** ** The accounts that reached a limit *)

Record rate_limit_switch_state := RateLimitSwitchState {
  tried_accounts : gset str;
  limited_chatgpt_accounts : gset str;
  blocked_until_of : gmap str instant
}.

Definition default_switch_state : rate_limit_switch_state := RateLimitSwitchState ∅ ∅ ∅.

#[export] Instance rate_limit_switch_state_fields : Fields rate_limit_switch_state :=
  fun s => RateLimitSwitchState (tried_accounts s) (limited_chatgpt_accounts s) (blocked_until_of s).

Definition mark_limited (account_id : str) (m : auth_mode) (blocked_until : option instant)
    (s : rate_limit_switch_state) : rate_limit_switch_state :=
  let s := s <| tried_accounts := {[account_id]} ∪ tried_accounts s |> in
  let s :=
    if is_chatgpt m
    then s <| limited_chatgpt_accounts := {[account_id]} ∪ limited_chatgpt_accounts s |> else s in
  match blocked_until with
  | None => s
  | Some until =>
      s <| blocked_until_of :=
        <[account_id :=
          match blocked_until_of s !! account_id with
          | Some existing => if (existing <? until)%Z then until else existing
          | None => until
          end]> (blocked_until_of s) |>
  end.

Definition blocked_until (s : rate_limit_switch_state) (account_id : str) : option instant :=
  blocked_until_of s !! account_id.

Definition has_tried (s : rate_limit_switch_state) (account_id : str) : bool :=
  bool_decide (account_id ∈ tried_accounts s).

(** [a.into_iter().chain(b).max()] *)
Definition later (a b : option instant) : option instant :=
  match a, b with
  | Some a, Some b => Some (Z.max a b)
  | Some a, None | None, Some a => Some a
  | None, None => None
  end.

Definition usage_reset_blocked_until (s : stored_rate_limit_snapshot) : option instant :=
  later (primary_next_reset_at s) (secondary_next_reset_at s).

Definition usage_used_percent (s : stored_rate_limit_snapshot) : option Q :=
  '(primary, secondary) ← snapshot s;
  match f64_max primary secondary with Finite used => Some used | _ => None end.

Definition is_blocked (now : instant) (until : option instant) : bool :=
  match until with Some until => (now <? until)%Z | None => false end.

(** ** The selection *)

Section selection.
Context {opaque : Type}.
Notation account := (stored_account opaque).

Definition account_has_credentials (a : account) : bool :=
  match mode a with
  | ChatGPT | ChatgptAuthTokens => bool_decide (is_Some (tokens a))
  | ApiKey => bool_decide (is_Some (openai_api_key a))
  | Headers => false
  end.

Definition by_id (a b : account) : bool := str_leb (id a) (id b).

Definition chatgpt_accounts (l : list account) : list account :=
  sort_by by_id (filter (fun a => account_has_credentials a)
    (filter (fun a => is_chatgpt (mode a)) l)).

Definition api_key_accounts (l : list account) : list account :=
  sort_by by_id (filter (fun a => account_has_credentials a) (filter (fun a => mode a = ApiKey) l)).

Section choice.
Context (state : rate_limit_switch_state) (now : instant) (current : option str).
Context (snapshot_map : gmap str stored_rate_limit_snapshot).

Definition blocked_at (account_id : str) : bool :=
  is_blocked now (later (blocked_until state account_id)
                    (s ← snapshot_map !! account_id; usage_reset_blocked_until s)).

Definition used_percent (account_id : str) : Q :=
  default 0%Q (s ← snapshot_map !! account_id; usage_used_percent s).

Definition is_current (a : account) : bool := bool_decide (current = Some (id a)).

(** The accounts that the loop does not skip. *)
Definition available (a : account) : bool :=
  negb (is_current a) && negb (has_tried state (id a)) && negb (blocked_at (id a)).

Definition better (best : option (account * Q)) (a : account) : option (account * Q) :=
  if available a then
    let score := used_percent (id a) in
    match best with
    | None => Some (a, score)
    | Some (_, best_score) => if Qltb score best_score then Some (a, score) else best
    end
  else best.

Definition best_chatgpt (l : list account) : option account :=
  fst <$> fold_left better (chatgpt_accounts l) None.

Definition unavailable (a : account) : bool :=
  blocked_at (id a) ||
  (has_tried state (id a) && bool_decide (id a ∈ limited_chatgpt_accounts state)).

Definition untried_key (a : account) : bool := negb (is_current a) && negb (has_tried state (id a)).

Definition choose (allow_api_key_fallback : bool) (l : list account) : option str :=
  match best_chatgpt l with
  | Some a => Some (id a)
  | None =>
      if negb allow_api_key_fallback then None
      else
        let all_chatgpt_unavailable := forallb unavailable (chatgpt_accounts l) in
        if negb (bool_decide (chatgpt_accounts l = [])) && negb all_chatgpt_unavailable then None
        else id <$> List.find untried_key (api_key_accounts l)
  end.
End choice.
End selection.

Definition collect_snapshots (l : list stored_rate_limit_snapshot)
    : gmap str stored_rate_limit_snapshot :=
  fold_left (fun m s => <[snapshot_account_id s := s]> m) l ∅.

Section switching.
Context {opaque S : Type} `{!FileSystem S, !AtomicFiles S}.
Context `{!Json (accounts_file opaque), !Json (auth_dot_json opaque)}.

Definition select_next_account_id (code_home : str) (state : rate_limit_switch_state)
    (allow_api_key_fallback : bool) (now : instant)
    (snapshots : result io_error (list stored_rate_limit_snapshot))
    (current_account_id : option str) : io S io_error (option str) :=
  current ← (match current_account_id with
             | Some i => mret (Some i)
             | None => get_active_account_id code_home
             end);
  l ← list_accounts code_home;
  let snapshots := match snapshots with Ok l => l | Err _ => [] end in
  mret (choose state now current (collect_snapshots snapshots) allow_api_key_fallback l).

(** The state of the accounts that reached a limit is changed in any case. *)
Definition switch_active_account_on_rate_limit (created used_now : instant) (code_home : str)
    (state : rate_limit_switch_state) (allow_api_key_fallback : bool) (now : instant)
    (snapshots : result io_error (list stored_rate_limit_snapshot))
    (current_account_id : str) (current_mode : auth_mode) (until : option instant)
    : rate_limit_switch_state * io S io_error (option str) :=
  let state := mark_limited current_account_id current_mode until state in
  (state,
   next_account_id ← select_next_account_id code_home state allow_api_key_fallback now snapshots
                       (Some current_account_id);
   match next_account_id with
   | Some i => _ ← activate_account created used_now code_home i; mret (Some i)
   | None => mret None
   end).
End switching.

(** The identifier that the callers pass: the account of the tokens in use, as the service
    knows it ([CodexAuth::get_account_id]), or else the active account. *)
Definition current_account_id {opaque} (auth : option (token_data opaque))
    (active : result io_error (option str)) : option str :=
  match t ← auth; token_account_id t with
  | Some i => Some i
  | None => match active with Ok active => active | Err _ => None end
  end.

(** ** Lemmas *)

Lemma Qltb_false p q : Qltb p q = false -> (q <= p)%Q.
Proof. unfold Qltb. rewrite negb_false_iff. apply Qle_bool_iff. Qed.

Lemma Qltb_true p q : Qltb p q = true -> (p < q)%Q.
Proof.
  unfold Qltb. rewrite negb_true_iff. intros H. apply Qnot_le_lt. intros Hle.
  apply Qle_bool_iff in Hle. congruence.
Qed.

Lemma sorted_snoc {A} (R : A -> A -> Prop) (l : list A) x :
  StronglySorted R (l ++ [x]) -> StronglySorted R l /\ forall y, y ∈ l -> R y x.
Proof.
  induction l as [|y l IH]; cbn; intros Hs.
  - split; [constructor|]. intros y Hy. by apply elem_of_nil in Hy.
  - apply StronglySorted_inv in Hs as [Hs Hy]. destruct (IH Hs) as [Hl Hx].
    rewrite Forall_app, Forall_singleton in Hy. destruct Hy as [Hy Hyx].
    split; [by constructor|]. intros z [->|Hz]%elem_of_cons; [done|by apply Hx].
Qed.

Section best.
Context {opaque : Type}.
Notation account := (stored_account opaque).
Context (state : rate_limit_switch_state) (now : instant) (current : option str).
Context (snapshots : gmap str stored_rate_limit_snapshot).
Implicit Types (a b : stored_account opaque).

Abbreviation avail := (available state now current snapshots).
Abbreviation used a := (used_percent snapshots (id a)).

(** An account is preferred: it is used less, or as much and its identifier comes first. *)
Definition preferred a b : Prop :=
  (used a < used b)%Q \/ (used a == used b)%Q /\ str_leb (id a) (id b) = true.

Definition best_of (l : list account) (a : account) : Prop :=
  a ∈ l /\ avail a = true /\ forall b, b ∈ l -> avail b = true -> preferred a b.

Lemma preferred_refl a : preferred a a.
Proof. right. split; [reflexivity|apply str_leb_refl]. Qed.

Lemma preferred_lt_trans a b c : (used b < used a)%Q -> preferred a c -> preferred b c.
Proof.
  intros Hb [H|[H _]]; left; [by eapply Qlt_trans|]. by rewrite <- H.
Qed.

(** The loop keeps the best account that it has seen. *)
Lemma best_fold (l : list account) :
  StronglySorted (fun a b => by_id a b = true) l ->
  match fold_left (better state now current snapshots) l None with
  | Some (a, score) => score = used a /\ best_of l a
  | None => forall b, b ∈ l -> avail b = false
  end.
Proof.
  induction l as [|x l IH] using rev_ind; intros Hs; [intros b Hb; by apply elem_of_nil in Hb|].
  apply sorted_snoc in Hs as [Hs Hx]. specialize (IH Hs).
  rewrite fold_left_app. cbn [fold_left]. unfold better at 1.
  destruct (avail x) eqn:Ex; destruct (fold_left _ l None) as [[a score]|].
  - destruct IH as (-> & Hin & Ha & Hbest). destruct (Qltb (used x) (used a)) eqn:Eq.
    + split; [done|]. apply Qltb_true in Eq. split; [set_solver|]. split; [done|].
      intros b [Hb| ->%list_elem_of_singleton]%elem_of_app Hav; [|apply preferred_refl].
      eapply preferred_lt_trans; eauto.
    + split; [done|]. apply Qltb_false in Eq. split; [set_solver|]. split; [done|].
      intros b [Hb| ->%list_elem_of_singleton]%elem_of_app Hav; [by apply Hbest|].
      apply Qle_lteq in Eq as [Eq|Eq]; [by left|]. right. split; [done|].
      by apply Hx.
  - split; [done|]. split; [set_solver|]. split; [done|].
    intros b [Hb| ->%list_elem_of_singleton]%elem_of_app Hav; [|apply preferred_refl].
    by rewrite (IH b Hb) in Hav.
  - destruct IH as (-> & Hin & Ha & Hbest). split; [done|]. split; [set_solver|]. split; [done|].
    intros b [Hb| ->%list_elem_of_singleton]%elem_of_app Hav; [by apply Hbest|congruence].
  - intros b [Hb| ->%list_elem_of_singleton]%elem_of_app; [by apply IH|done].
Qed.

Lemma by_id_sorted (l : list account) :
  StronglySorted (fun a b => by_id a b = true) (sort_by by_id l).
Proof.
  apply sort_by_sorted; unfold by_id.
  - intros x y H. destruct (str_leb_total (id x) (id y)) as [H'|H']; [congruence|done].
  - intros x y z. apply str_leb_trans.
Qed.

Lemma in_chatgpt_accounts (l : list account) a :
  a ∈ chatgpt_accounts l <->
  a ∈ l /\ is_chatgpt (mode a) = true /\ account_has_credentials a = true.
Proof.
  unfold chatgpt_accounts. rewrite sort_by_perm, !list_elem_of_filter.
  rewrite !Is_true_true. tauto.
Qed.

Lemma in_api_key_accounts (l : list account) a :
  a ∈ api_key_accounts l <-> a ∈ l /\ mode a = ApiKey /\ account_has_credentials a = true.
Proof.
  unfold api_key_accounts. rewrite sort_by_perm, !list_elem_of_filter, Is_true_true. tauto.
Qed.

(** The first element of a sorted list that passes a test is the least one. *)
Lemma find_sorted (p : account -> bool) (l : list account) a :
  StronglySorted (fun a b => by_id a b = true) l -> List.find p l = Some a ->
  a ∈ l /\ p a = true /\ forall b, b ∈ l -> p b = true -> str_leb (id a) (id b) = true.
Proof.
  induction 1 as [|x l Hs IH Hx]; [done|]. cbn. destruct (p x) eqn:Ep.
  - intros [= <-]. split; [by left|]. split; [done|].
    intros b [->|Hb]%elem_of_cons _; [apply str_leb_refl|]. rewrite Forall_forall in Hx. by apply Hx.
  - intros Hf. destruct (IH Hf) as (Hin & Hp & Hleast). split; [by right|]. split; [done|].
    intros b [->|Hb]%elem_of_cons Hb'; [congruence|]. by apply Hleast.
Qed.

(** What the selection may return. *)
Definition selected (allow : bool) (l : list account) (a : account) : Prop :=
  a ∈ l /\ account_has_credentials a = true /\
  (is_chatgpt (mode a) = true /\ best_of (chatgpt_accounts l) a \/
   mode a = ApiKey /\ allow = true /\
   (forall b, b ∈ chatgpt_accounts l -> avail b = false /\ unavailable state now snapshots b = true) /\
   untried_key state current a = true /\
   forall b, b ∈ api_key_accounts l -> untried_key state current b = true ->
     str_leb (id a) (id b) = true).

Lemma choose_spec (allow : bool) (l : list account) :
  match choose state now current snapshots allow l with
  | Some i => exists a, id a = i /\ selected allow l a
  | None =>
      (forall b, b ∈ chatgpt_accounts l -> avail b = false) /\
      (allow = false \/ (exists b, b ∈ chatgpt_accounts l /\ unavailable state now snapshots b = false) \/
       forall b, b ∈ api_key_accounts l -> untried_key state current b = false)
  end.
Proof.
  unfold choose, best_chatgpt.
  pose proof (best_fold (chatgpt_accounts l) (by_id_sorted _)) as Hb.
  destruct (fold_left _ (chatgpt_accounts l) None) as [[a score]|]; cbn [fmap option_fmap option_map fst].
  - destruct Hb as [_ Hb]. exists a. split; [done|].
    pose proof (proj1 Hb) as Hin. apply in_chatgpt_accounts in Hin as (Hin & Hm & Hc).
    split; [done|]. split; [done|]. left. by split.
  - destruct allow; [cbn [negb]|split; [done|by left]].
    destruct (forallb (unavailable state now snapshots) (chatgpt_accounts l)) eqn:Ef.
    + rewrite andb_false_r. rewrite forallb_forall in Ef.
      destruct (List.find _ (api_key_accounts l)) as [a|] eqn:Ea; cbn [fmap option_fmap option_map].
      * apply find_sorted in Ea as (Hin & Hu & Hleast); [|apply by_id_sorted].
        apply in_api_key_accounts in Hin as (Hin & Hm & Hc). exists a.
        split; [done|]. split; [done|]. split; [done|]. right.
        do 2 (split; [done|]). split; [|done].
        intros b Hb'. split; [by apply Hb|]. apply Ef. by apply list_elem_of_In.
      * split; [done|]. right. right. intros b Hb'.
        apply (find_none _ _ Ea). by apply list_elem_of_In.
    + assert (exists b, b ∈ chatgpt_accounts l /\ unavailable state now snapshots b = false) as Hex.
      { apply not_true_iff_false in Ef. rewrite forallb_forall in Ef.
        destruct (List.Exists_dec (fun b => unavailable state now snapshots b = false) (chatgpt_accounts l))
          as [He|He]; [intros b; apply bool_dec| |].
        - apply List.Exists_exists in He as (b & Hb1 & Hb2). exists b. by rewrite list_elem_of_In.
        - destruct Ef. intros b Hb'. apply not_false_iff_true. intros Hu. apply He.
          apply List.Exists_exists. by exists b. }
      destruct Hex as (b & Hb1 & Hb2). rewrite bool_decide_false by (intros H; rewrite H in Hb1; by apply elem_of_nil in Hb1).
      cbn [negb andb]. split; [done|]. right. left. by exists b.
Qed.

Lemma selected_untried (allow : bool) (l : list account) a :
  selected allow l a -> current <> Some (id a) /\ id a ∉ tried_accounts state.
Proof.
  intros (_ & _ & Hs).
  assert (is_current current a = false /\ has_tried state (id a) = false) as [Hc Ht].
  { destruct Hs as [(_ & _ & Ha & _)|(_ & _ & _ & Hu & _)].
    - unfold available in Ha. rewrite !andb_true_iff, !negb_true_iff in Ha. tauto.
    - unfold untried_key in Hu. rewrite andb_true_iff, !negb_true_iff in Hu. tauto. }
  apply bool_decide_eq_false in Hc. by apply bool_decide_eq_false in Ht.
Qed.
End best.

(** ** Specification of the selection

    In terms of the stored accounts, of the limits that the session has met ([state]) and of the
    usage that is known: of several snapshots of an account the last one counts. *)

Section specification.
Context {opaque : Type} (state : rate_limit_switch_state) (now : instant) (current : str).
Context (snaps : list stored_rate_limit_snapshot).
Implicit Types (a b : stored_account opaque).

Definition known (i : str) : option stored_rate_limit_snapshot :=
  last (filter (fun s => snapshot_account_id s = i) snaps).

(** A limit of the account that is still to be lifted. *)
Definition limit_pending (i : str) : Prop :=
  exists at_, (now < at_)%Z /\
    (blocked_until_of state !! i = Some at_ \/
     exists s, known i = Some s /\
       (primary_next_reset_at s = Some at_ \/ secondary_next_reset_at s = Some at_)).

(** The larger percentage that is used of the two windows; none when it is not a number. *)
Definition usage (i : str) : Q :=
  match s ← known i; snapshot s with
  | Some (Finite p, Finite q) => Qmax p q
  | Some (Finite p, (NaN | NegInfinity)) | Some ((NaN | NegInfinity), Finite p) => p
  | _ => 0
  end.

Definition login_account a : Prop :=
  (mode a = ChatGPT \/ mode a = ChatgptAuthTokens) /\ is_Some (tokens a).
Definition key_account a : Prop := mode a = ApiKey /\ is_Some (openai_api_key a).

Definition untried a : Prop := id a <> current /\ id a ∉ tried_accounts state.

(** A login that may take over. *)
Definition ready a : Prop := login_account a /\ untried a /\ ~ limit_pending (id a).

(** A login that counts as out of service. *)
Definition exhausted a : Prop :=
  limit_pending (id a) \/ (id a ∈ tried_accounts state /\ id a ∈ limited_chatgpt_accounts state).

(** The login with the least usage, and of those the first identifier. *)
Definition best_login (l : list (stored_account opaque)) a : Prop :=
  a ∈ l /\ ready a /\
  forall b, b ∈ l -> ready b ->
    (usage (id a) < usage (id b))%Q \/
    ((usage (id a) == usage (id b))%Q /\ str_leb (id a) (id b) = true).

(** The first key, when all logins are out of service. *)
Definition first_key (l : list (stored_account opaque)) a : Prop :=
  (forall b, b ∈ l -> login_account b -> ~ ready b /\ exhausted b) /\
  a ∈ l /\ key_account a /\ untried a /\
  forall b, b ∈ l -> key_account b -> untried b -> str_leb (id a) (id b) = true.

(** *** The code's predicates against it *)

Notation code_map := (collect_snapshots snaps).

Lemma collect_known i : code_map !! i = known i.
Proof.
  unfold known, collect_snapshots. induction snaps as [|s l IH] using rev_ind; [done|].
  rewrite fold_left_app, filter_app, filter_cons, filter_nil. cbn [fold_left].
  case_decide as Hs.
  - by rewrite last_snoc, Hs, lookup_insert_eq.
  - by rewrite app_nil_r, lookup_insert_ne.
Qed.

Lemma later_pending (u v : option instant) :
  is_blocked now (later u v) = true <-> exists t, (now < t)%Z /\ (u = Some t \/ v = Some t).
Proof.
  destruct u as [x|], v as [y|]; cbn [later is_blocked]; rewrite ?Z.ltb_lt; split.
  - intros H. destruct (Z.max_spec x y) as [[_ Hm]|[_ Hm]]; rewrite Hm in H; [exists y|exists x]; auto.
  - intros (t & Ht & [[= ->]|[= ->]]); lia.
  - intros H. exists x. auto.
  - by intros (t & Ht & [[= ->]|?]).
  - intros H. exists y. auto.
  - by intros (t & Ht & [?|[= ->]]).
  - done.
  - by intros (t & _ & [?|?]).
Qed.

Lemma later_Some (u v : option instant) t : later u v = Some t -> u = Some t \/ v = Some t.
Proof.
  destruct u as [x|], v as [y|]; cbn; intros [= <-]; auto.
  destruct (Z.max_spec x y) as [[_ ->]|[_ ->]]; auto.
Qed.

Lemma blocked_at_pending i : blocked_at state now code_map i = true <-> limit_pending i.
Proof.
  unfold blocked_at, limit_pending. rewrite later_pending, collect_known. unfold blocked_until.
  split; intros (t & Ht & H); destruct H as [H|H]; try (exists t; by auto).
  - apply bind_Some in H as (s & Hs & Hr). exists t. split; [done|]. right. exists s.
    split; [done|]. by apply later_Some.
  - destruct H as (s & Hs & Hr).
    assert (is_blocked now (usage_reset_blocked_until s) = true) as Hb
      by (apply later_pending; by exists t).
    unfold is_blocked in Hb. destruct (usage_reset_blocked_until s) as [u|] eqn:Hu; [|done].
    apply Z.ltb_lt in Hb. exists u. split; [done|]. right. by rewrite Hs.
Qed.

Lemma used_percent_usage i : (used_percent code_map i == usage i)%Q.
Proof.
  unfold used_percent, usage. rewrite collect_known. destruct (known i) as [s|]; [|reflexivity].
  cbn [mbind option_bind]. unfold usage_used_percent.
  destruct (snapshot s) as [[[p| | |] [q| | |]]|]; try reflexivity. cbn.
  destruct (Qle_bool p q) eqn:E.
  - apply Qle_bool_iff in E. symmetry. by apply Q.max_r.
  - assert (q <= p)%Q as Hq.
    { apply Qnot_lt_le. intros Hlt. apply Qlt_le_weak, Qle_bool_iff in Hlt. congruence. }
    symmetry. by apply Q.max_l.
Qed.

Lemma chatgpt_account_login (l : list (stored_account opaque)) a :
  a ∈ chatgpt_accounts l <-> a ∈ l /\ login_account a.
Proof.
  rewrite in_chatgpt_accounts. unfold account_has_credentials, login_account.
  destruct (mode a); cbn; rewrite ?bool_decide_eq_true; naive_solver.
Qed.

Lemma api_key_account_key (l : list (stored_account opaque)) a :
  a ∈ api_key_accounts l <-> a ∈ l /\ key_account a.
Proof.
  rewrite in_api_key_accounts. unfold account_has_credentials, key_account.
  destruct (mode a); cbn; rewrite ?bool_decide_eq_true; naive_solver.
Qed.

Lemma untried_key_untried a : untried_key state (Some current) a = true <-> untried a.
Proof.
  unfold untried_key, is_current, has_tried, untried.
  rewrite andb_true_iff, !negb_true_iff, !bool_decide_eq_false. split; intros [H ?]; split; congruence.
Qed.

Lemma available_ready a :
  login_account a -> available state now (Some current) code_map a = true <-> ready a.
Proof.
  intros Ha. unfold available, ready. rewrite andb_true_iff.
  change (negb (is_current (Some current) a) && negb (has_tried state (id a)))
    with (untried_key state (Some current) a).
  rewrite untried_key_untried, negb_true_iff, <- not_true_iff_false, blocked_at_pending. tauto.
Qed.

Lemma unavailable_exhausted a : unavailable state now code_map a = true <-> exhausted a.
Proof.
  unfold unavailable, exhausted, has_tried.
  by rewrite orb_true_iff, andb_true_iff, !bool_decide_eq_true, blocked_at_pending.
Qed.

Lemma selected_spec (allow : bool) l a :
  selected state now (Some current) code_map allow l a ->
  best_login l a \/ (allow = true /\ first_key l a).
Proof.
  intros (Hin & Hc & [(Hm & Hin' & Hav & Hbest)|(Hm & Hallow & Hall & Hu & Hfirst)]).
  - left. apply chatgpt_account_login in Hin' as [_ Hl]. split; [done|].
    split; [by apply available_ready|]. intros b Hb Hr.
    assert (preferred code_map a b) as Hp.
    { apply Hbest; [|apply available_ready]; [|apply Hr|done].
      apply chatgpt_account_login. split; [done|apply Hr]. }
    unfold preferred in Hp. by rewrite !used_percent_usage in Hp.
  - right. split; [done|]. split.
    + intros b Hb Hlog. destruct (Hall b) as [H1 H2]; [by apply chatgpt_account_login|].
      split; [|by apply unavailable_exhausted]. intros Hr%available_ready; [congruence|done].
    + apply (conj Hin), conj.
      { unfold key_account, account_has_credentials in *. rewrite Hm in Hc.
        by rewrite bool_decide_eq_true in Hc. }
      split; [by apply untried_key_untried|].
      intros b Hb Hk Hb'. apply Hfirst; [by apply api_key_account_key|by apply untried_key_untried].
Qed.
End specification.

(** ** Runs of switches *)

(** The arguments of one call that do not come from the previous one. *)
Record switch_call := SwitchCall {
  call_created : instant;
  call_used : instant;
  call_fallback : bool;
  call_now : instant;
  call_snapshots : result io_error (list stored_rate_limit_snapshot);
  call_mode : auth_mode;
  call_until : option instant
}.

Section runs.
Context {opaque S L : Type} `{EqDecision L, !FileSystem S, !Console S, !FileSystemLaws S L}.
Context `{!AtomicFiles S, !AtomicFilesLaws S L}.
Context `{!Json (accounts_file opaque), !Json (auth_dot_json opaque)}.
Context `{!JsonLaws (accounts_file opaque), !JsonLaws (auth_dot_json opaque)}.
Context (home : str).
Hypothesis other_files : loc (get_auth_file home) <> loc (accounts_file_path home).
Notation path := (accounts_file_path home).
Notation accounts_in s := (accounts_at (opaque := opaque) s path).

Definition switch_once (c : switch_call) (state : rate_limit_switch_state) (current : str)
    : rate_limit_switch_state * io S io_error (option str) :=
  switch_active_account_on_rate_limit (opaque := opaque) (call_created c) (call_used c) home state
    (call_fallback c) (call_now c) (call_snapshots c) current (call_mode c) (call_until c).

(** The accounts that take over one after the other, as long as there is one. *)
Fixpoint switches (calls : list switch_call) (state : rate_limit_switch_state) (current : str)
    (s : S) : list str :=
  match calls with
  | [] => []
  | c :: calls =>
      let '(state, m) := switch_once c state current in
      match m s with
      | (Ok (Some next), s) => next :: switches calls state next s
      | _ => []
      end
  end.

Lemma select_spec state allow now snapshots current s o s' :
  select_next_account_id (opaque := opaque) home state allow now snapshots (Some current) s = (Ok o, s') ->
  exists d, accounts_in s = Some d /\ accounts_in s' = Some d /\ only_changes path s s' /\
    o = choose state now (Some current)
          (collect_snapshots match snapshots with Ok l => l | Err _ => [] end) allow (accounts d).
Proof.
  unfold select_next_account_id, list_accounts. intros H.
  apply io_bind_Ok in H as (cur & s1 & [= <- <-] & H).
  apply io_bind_Ok in H as (l & s2 & Hl & [= <- <-]).
  apply io_bind_Ok in Hl as (d & s3 & Hr & [= <- <-]).
  apply read_accounts in Hr as (Hd & Hd' & Ho). by exists d.
Qed.

(** A switch that succeeds: what was selected, and what became of the files. *)
Lemma switch_inv c state current s next s' :
  (switch_once c state current).2 s = (Ok (Some next), s') ->
  exists d a, accounts_in s = Some d /\ id a = next /\
    selected (switch_once c state current).1 (call_now c) (Some current)
      (collect_snapshots match call_snapshots c with Ok l => l | Err _ => [] end)
      (call_fallback c) (accounts d) a /\
    exists d', accounts_in s' = Some d' /\ active_account_id d' = Some next /\
      (id <$> accounts d') = (id <$> accounts d).
Proof.
  unfold switch_once, switch_active_account_on_rate_limit. cbn [fst snd]. intros H.
  apply io_bind_Ok in H as (o & s1 & Hsel & H). apply select_spec in Hsel as (d & Hd & Hd1 & _ & ->).
  match type of H with context [choose ?st ?n ?cur ?m ?al ?l] =>
    pose proof (choose_spec st n cur m al l) as Hc; destruct (choose st n cur m al l) as [i|] end;
    [|done].
  destruct Hc as (a & Hid & Ha).
  apply io_bind_Ok in H as ([] & s2 & Hact & [= <- <-]).
  exists d, a. split; [done|]. split; [done|]. split; [done|].
  destruct (activate_inv _ _ _ _ _ _ _ other_files Hd1 Hact) as (_ & _ & _ & s3 & _ & _ & _ & _ & _ & Hd' & _).
  destruct (with_active_kept (call_created c) (call_used c) i d) as (Hi & _ & Hids). by eexists.
Qed.

Lemma mark_limited_tried account_id m until state :
  tried_accounts (mark_limited account_id m until state) = {[account_id]} ∪ tried_accounts state.
Proof. unfold mark_limited. by destruct (is_chatgpt m), until. Qed.

Lemma switches_fresh calls state current s :
  Forall (fun i => i <> current /\ i ∉ tried_accounts state) (switches calls state current s) /\
  NoDup (switches calls state current s).
Proof.
  revert state current s. induction calls as [|c calls IH]; intros state current s; [by split; constructor|].
  cbn [switches]. destruct (switch_once c state current) as [state' m] eqn:Hs.
  destruct (m s) as [[[next|]|e] s'] eqn:Hm; try by split; constructor.
  pose proof (switch_inv c state current s next s') as Hinv. rewrite Hs in Hinv.
  destruct (Hinv Hm) as (d & a & _ & Hid & Hsel & _).
  apply selected_untried in Hsel as [Hcur Htried]. rewrite Hid in Hcur, Htried. cbn [fst] in Htried.
  assert (tried_accounts state' = {[current]} ∪ tried_accounts state) as Hst.
  { unfold switch_once, switch_active_account_on_rate_limit in Hs. injection Hs as <- _.
    apply mark_limited_tried. }
  destruct (IH state' next s') as [Hall Hnd]. rewrite Hst in Hall, Htried. split.
  - constructor; [split; [congruence|set_solver]|].
    eapply Forall_impl; [exact Hall|]. intros i [_ Hi]. cbn. set_solver.
  - constructor; [|done]. intros Hin. rewrite Forall_forall in Hall. by destruct (Hall _ Hin).
Qed.

Lemma switches_stored calls state current s d :
  accounts_in s = Some d -> Forall (fun i => i ∈ (id <$> accounts d)) (switches calls state current s).
Proof.
  revert state current s d. induction calls as [|c calls IH]; intros state current s d Hd; [constructor|].
  cbn [switches]. destruct (switch_once c state current) as [state' m] eqn:Hs.
  destruct (m s) as [[[next|]|e] s'] eqn:Hm; try by constructor.
  pose proof (switch_inv c state current s next s') as Hinv. rewrite Hs in Hinv.
  destruct (Hinv Hm) as (d0 & a & Hd0 & Hid & (Hin & _) & d' & Hd' & _ & Hids).
  rewrite Hd in Hd0. injection Hd0 as <-. constructor.
  - rewrite <- Hid. by apply list_elem_of_fmap_2.
  - rewrite <- Hids. by apply (IH state' next s' d').
Qed.
End runs.

(** ** An identifier that is not stored *)

Lemma forallb_ext_elem {A} (f g : A -> bool) (l : list A) :
  (forall a, a ∈ l -> f a = g a) -> forallb f l = forallb g l.
Proof.
  induction l as [|x l IH]; intros Hfg; [done|]. cbn. rewrite (Hfg x) by (by left). f_equal.
  apply IH. intros a Ha. apply Hfg. by right.
Qed.

(** Marking an identifier that no stored account has changes no selection. *)
Lemma foreign_mark_forgotten {opaque} (state : rate_limit_switch_state) now c m until snapshots allow
    (l : list (stored_account opaque)) :
  c ∉ (id <$> l) ->
  choose (mark_limited c m until state) now (Some c) snapshots allow l =
  choose state now None snapshots allow l.
Proof.
  intros Hc.
  assert (forall a, a ∈ l -> id a <> c) as Hne.
  { intros a Ha <-. apply Hc. by apply list_elem_of_fmap_2. }
  assert (forall a, a ∈ l -> has_tried (mark_limited c m until state) (id a) = has_tried state (id a)) as Ht.
  { intros a Ha. apply Hne in Ha. unfold has_tried. rewrite mark_limited_tried.
    apply bool_decide_ext. set_solver. }
  assert (forall a, a ∈ l -> blocked_until (mark_limited c m until state) (id a) = blocked_until state (id a)) as Hb.
  { intros a Ha. apply Hne in Ha. unfold blocked_until, mark_limited.
    destruct (is_chatgpt m), until; cbn; by rewrite ?lookup_insert_ne by done. }
  assert (forall a, a ∈ l ->
    bool_decide (id a ∈ limited_chatgpt_accounts (mark_limited c m until state)) =
    bool_decide (id a ∈ limited_chatgpt_accounts state)) as Hl.
  { intros a Ha. apply Hne in Ha. apply bool_decide_ext. unfold mark_limited.
    destruct (is_chatgpt m), until; cbn; set_solver. }
  assert (forall a : stored_account opaque, a ∈ l -> is_current (Some c) a = is_current None a) as Hcur.
  { intros a Ha. apply Hne in Ha. unfold is_current. apply bool_decide_ext. split; congruence. }
  assert (forall a, a ∈ l -> available (mark_limited c m until state) now (Some c) snapshots a =
                             available state now None snapshots a) as Hav.
  { intros a Ha. unfold available, blocked_at. by rewrite Hcur, Ht, Hb. }
  unfold choose, best_chatgpt.
  assert (forall (k : list (stored_account opaque)) best, (forall a, a ∈ k -> a ∈ l) ->
    fold_left (better (mark_limited c m until state) now (Some c) snapshots) k best =
    fold_left (better state now None snapshots) k best) as Hfold.
  { induction k as [|x k IH]; intros best Hk; [done|]. cbn [fold_left].
    rewrite IH by (intros a Ha; apply Hk; by right). f_equal. unfold better.
    by rewrite (Hav x (Hk x (list_elem_of_here _ _))). }
  rewrite Hfold by (intros a Ha; by apply in_chatgpt_accounts in Ha as [Ha _]).
  destruct (fst <$> _); [done|]. destruct (negb allow); [done|].
  replace (forallb (unavailable (mark_limited c m until state) now snapshots) (chatgpt_accounts l))
    with (forallb (unavailable state now snapshots) (chatgpt_accounts l)).
  2: { apply forallb_ext_elem. intros a Ha. apply in_chatgpt_accounts in Ha as [Ha _].
       unfold unavailable, blocked_at. by rewrite Ht, Hb, Hl. }
  destruct (negb _ && negb _); [done|]. f_equal.
  assert (forall k, (forall a, a ∈ k -> a ∈ l) ->
    List.find (untried_key (mark_limited c m until state) (Some c)) k =
    List.find (untried_key state None) k) as Hfind.
  { induction k as [|x k IH]; intros Hk; [done|]. cbn. unfold untried_key at 1 3.
    rewrite (Hcur x), (Ht x) by (apply Hk; by left).
    destruct (_ && _); [done|]. apply IH. intros a Ha. apply Hk. by right. }
  apply Hfind. intros a Ha. by apply in_api_key_accounts in Ha as [Ha _].
Qed.

(** An account is not available before the time at which its window resets, however little of
    it is used. *)
Lemma pending_reset_blocks {opaque} state now current snapshots (a : stored_account opaque) s at_ :
  snapshots !! id a = Some s -> primary_next_reset_at s = Some at_ -> (now < at_)%Z ->
  available state now current snapshots a = false.
Proof.
  intros Hs Hat Hnow.
  enough (blocked_at state now snapshots (id a) = true) as Hb
    by (unfold available; by rewrite Hb, andb_false_r).
  unfold blocked_at. rewrite Hs. cbn [mbind option_bind]. unfold usage_reset_blocked_until. rewrite Hat.
  destruct (secondary_next_reset_at s), (blocked_until state (id a)); cbn; apply Z.ltb_lt; lia.
Qed.

(** ** Properties *)

Section properties.
Context {opaque S L : Type} `{EqDecision L, !FileSystem S, !Console S, !FileSystemLaws S L}.
Context `{!AtomicFiles S, !AtomicFilesLaws S L}.
Context `{!Json (accounts_file opaque), !Json (auth_dot_json opaque)}.
Context `{!JsonLaws (accounts_file opaque), !JsonLaws (auth_dot_json opaque)}.

(** C13: The account that takes over is a stored one that is neither the current one (as the
    caller names it) nor one that was tried: of the logins with tokens whose limits have all
    been lifted the one with the least usage, and of those the one with the first identifier;
    or, where that is allowed and every login is limited or was tried and found limited, the
    first key.  None is returned only when no login may take over, and keys are not allowed, or
    some login is not out of service, or every key is the current one or was tried.  Only the
    file of the accounts may change. *)
Theorem account_selected home state allow now snapshots current (s s' : S) o :
  select_next_account_id (opaque := opaque) home state allow now snapshots (Some current) s = (Ok o, s') ->
  only_changes (accounts_file_path home) s s' /\
  exists d, accounts_at s (accounts_file_path home) = Some d /\
    let snaps := match snapshots with Ok l => l | Err _ => [] end in
    match o with
    | Some i => exists a, id a = i /\
        (best_login state now current snaps (accounts d) a \/
         (allow = true /\ first_key state now current snaps (accounts d) a))
    | None =>
        (forall b, b ∈ accounts d -> ~ ready state now current snaps b) /\
        (allow = false \/
         (exists b, b ∈ accounts d /\ login_account b /\ ~ exhausted state now snaps b) \/
         forall b, b ∈ accounts d -> key_account b -> ~ untried state current b)
    end.
Proof.
  intros (d & Hd & _ & Ho & ->)%select_spec. split; [done|]. exists d. split; [done|]. cbv zeta.
  match goal with |- context [choose ?st ?n ?cur (collect_snapshots ?m) ?al ?l] =>
    pose proof (choose_spec st n cur (collect_snapshots m) al l) as Hc;
    destruct (choose st n cur (collect_snapshots m) al l) as [i|] end.
  - destruct Hc as (a & Hid & Ha%selected_spec). by exists a.
  - destruct Hc as [Hnone Hwhy]. split.
    + intros b Hb Hr. pose proof (proj1 Hr) as Hl. apply available_ready in Hr; [|done].
      rewrite Hnone in Hr; [done|]. by apply chatgpt_account_login.
    + destruct Hwhy as [Hw|[(b & Hb & Hw)|Hw]]; [by left|right; left|right; right].
      * apply chatgpt_account_login in Hb as [Hb Hl]. exists b. do 2 (split; [done|]).
        intros He%unavailable_exhausted. congruence.
      * intros b Hb Hk Hu%untried_key_untried. rewrite Hw in Hu; [done|]. by apply api_key_account_key.
Qed.
(** Switching ends: as long as each call names the account that the previous one
    activated, no account takes over twice, the first one never again, and there are at most
    as many switches as stored accounts. *)
Theorem switches_end home calls state current (s : S) (d : accounts_file opaque) :
  loc (get_auth_file home) <> loc (accounts_file_path home) ->
  accounts_at s (accounts_file_path home) = Some d ->
  NoDup (switches (opaque := opaque) home calls state current s) /\
  current ∉ switches (opaque := opaque) home calls state current s /\
  length (switches (opaque := opaque) home calls state current s) <= length (accounts d).
Proof.
  intros Hne Hd. destruct (switches_fresh home Hne calls state current s) as [Hall Hnd].
  pose proof (switches_stored home Hne calls state current s d Hd) as Hin.
  split; [done|]. split.
  - intros Hc. rewrite Forall_forall in Hall. by destruct (Hall _ Hc).
  - rewrite <- (length_fmap id (accounts d)). apply submseteq_length, NoDup_submseteq; [done|].
    intros i Hi. rewrite Forall_forall in Hin. by apply Hin.
Qed.
End properties.

(** ** Runs *)

Module SwitchRuns.
Import MemFs AccountRuns.

Definition limit : switch_call := SwitchCall 10 11 false 100 (Ok []) ChatGPT None.

(** With the stored identifiers the two accounts take over once each. *)
Example two_switches :
  (switches (opaque := unit) home [limit; limit; limit] default_switch_state (lit "n0") two_logins,
   switches (opaque := unit) home [limit; limit; limit] default_switch_state (lit "n2") two_logins)
  = ([lit "n1"; lit "n2"], [lit "n1"]).
Proof. vm_compute. reflexivity. Qed.

(** The session passes the account of the tokens, which is not a stored identifier: the account
    that is in use takes over from itself, again and again. *)
Fixpoint reported_switches (n : nat) (state : rate_limit_switch_state)
    (auth : option (token_data unit)) (w : world) : list str :=
  match n with
  | 0 => []
  | S n =>
      let '(active, w) := get_active_account_id (opaque := unit) home w in
      match current_account_id auth active with
      | None => []
      | Some current =>
          let '(state, m) := switch_once (opaque := unit) home limit state current in
          match m w with
          | (Ok (Some next), w) =>
              let '(found, w) := find_account home next w in
              next :: reported_switches n state
                        (match found with Ok (Some a) => tokens a | _ => None end) w
          | _ => []
          end
      end
  end.

Example limit_repeats :
  reported_switches 4 default_switch_state (Some (user "c1" "a@x")) two_logins
  = [lit "n1"; lit "n1"; lit "n1"; lit "n1"].
Proof. vm_compute. reflexivity. Qed.

Example account_selected_witness :
  exists o, (select_next_account_id (opaque := unit) home default_switch_state false 100 (Ok [])
     (Some (lit "n2")) two_logins).1 = Ok o /\ o <> Some (lit "n2").
Proof.
  destruct (select_next_account_id (opaque := unit) home default_switch_state false 100 (Ok [])
     (Some (lit "n2")) two_logins) as [[o|e] w'] eqn:Hs; [|vm_compute in Hs; discriminate].
  exists o. split; [reflexivity|].
  destruct (account_selected home default_switch_state false 100 (Ok []) (lit "n2") two_logins w' o Hs)
    as (_ & d & _ & Hsel).
  destruct o as [i|]; [|discriminate].
  destruct Hsel as (a & <- & [(_ & (_ & [Hne _] & _) & _)|[[=] _]]). congruence.
Defined.

Example switches_end_witness :
  NoDup (switches (opaque := unit) home [limit; limit; limit] default_switch_state (lit "n0") two_logins).
Proof.
  destruct (accounts_at (opaque := unit) two_logins (accounts_file_path home)) as [d|] eqn:Hd;
    [|vm_compute in Hd; discriminate].
  apply (switches_end home [limit; limit; limit] default_switch_state (lit "n0") two_logins d);
    [vm_compute; discriminate|exact Hd].
Defined.
End SwitchRuns.
