(* ===== verification/MemoryCitations.v ===== *)
(** * Memory citations

    [core/src/memories/citations.rs] and [sanitize_response_item] of
    [core/src/memories/mod.rs]: what the model cites from its memories is cut out of a
    finished message before the message is handled, and the identifiers in the citations are
    collected.  The syntax of an identifier is the [uuid] crate's, a parameter. *)

From S2P Require Import Prelude History.

Definition OPEN_TAG : str := lit "<oai-mem-citation>".
Definition CLOSE_TAG : str := lit "</oai-mem-citation>".
Definition ROLLOUT_IDS_OPEN : str := lit "<rollout_ids>".
Definition ROLLOUT_IDS_CLOSE : str := lit "</rollout_ids>".

(** [s.find(tag)]: the text before the first occurrence and the text after it. *)
Fixpoint find_tag (tag s : str) : option (str * str) :=
  match strip_prefix tag s with
  | Some rest => Some ([], rest)
  | None =>
      match s with
      | [] => None
      | c :: s => '(before, rest) ← find_tag tag s; Some (c :: before, rest)
      end
  end.

Section citations.
Context {uuid : Type} `{EqDecision uuid} (parse_uuid : str -> option uuid).

Definition parse_rollout_ids (inner : str) : list uuid :=
  match find_tag ROLLOUT_IDS_OPEN inner with
  | None => []
  | Some (_, ids) =>
      match find_tag ROLLOUT_IDS_CLOSE ids with
      | None => []
      | Some (ids, _) => omap (fun line => parse_uuid (trim line)) (str_lines ids)
      end
  end.

Definition add_id (ids : list uuid) (i : uuid) : list uuid :=
  if decide (i ∈ ids) then ids else ids ++ [i].

(** The loop of [strip_memory_citations] from a cursor; a round leaves a shorter text
    ([find_tag_shorter]), so that fuel for its length is enough. *)
Fixpoint strip_from (fuel : nat) (text cleaned : str) (rollout_ids : list uuid)
    : option (str * list uuid) :=
  match fuel with
  | 0 => None
  | S fuel =>
      match find_tag OPEN_TAG text with
      | None => Some (cleaned ++ text, rollout_ids)
      | Some (before, rest) =>
          match find_tag CLOSE_TAG rest with
          | None => Some (cleaned ++ before, rollout_ids)
          | Some (inner, rest) =>
              strip_from fuel rest (cleaned ++ before)
                (fold_left add_id (parse_rollout_ids inner) rollout_ids)
          end
      end
  end.

Definition strip_memory_citations (text : str) : option (str * list uuid) :=
  strip_from (S (length text)) text [] [].

(** One element of a message; other elements stay. *)
Definition sanitize_content (c : content_item) : option (content_item * list uuid) :=
  match c with
  | OutputText text =>
      '(stripped, ids) ← strip_memory_citations text; Some (OutputText stripped, ids)
  | other => Some (other, [])
  end.

Definition sanitize_response_item {opaque} (i : response_item opaque)
    : option (response_item opaque * list uuid) :=
  match i with
  | Message role content rest =>
      if str_eqb role (lit "assistant") then
        parts ← mapM sanitize_content content;
        Some (Message role (fst <$> parts) rest, concat (snd <$> parts))
      else Some (i, [])
  | other => Some (other, [])
  end.

(** ** Specification *)

(** A text with citations: what comes before each one, the citation, and what is left. *)
Fixpoint with_citations (parts : list (str * str)) (rest : str) : str :=
  match parts with
  | [] => rest
  | (before, inner) :: parts =>
      before ++ OPEN_TAG ++ inner ++ CLOSE_TAG ++ with_citations parts rest
  end.

(** The texts hold no opening tag and the citations no closing tag. *)
Definition plain (tag s : str) : Prop := str_contains tag s = false.

(** ** Lemmas *)

Lemma find_tag_spec tag s before rest :
  find_tag tag s = Some (before, rest) -> s = before ++ tag ++ rest.
Proof.
  revert before. induction s as [|c s IH]; intros before; cbn;
    (destruct (strip_prefix tag _) as [r|] eqn:Ep;
      [intros [= <- <-]; by apply strip_prefix_Some in Ep|]); [done|].
  destruct (find_tag tag s) as [[b r]|]; [|done]. intros [= <- <-]. cbn. by rewrite (IH b).
Qed.

Lemma find_tag_shorter tag s before rest :
  tag <> [] -> find_tag tag s = Some (before, rest) -> length rest < length s.
Proof.
  intros Hne ->%find_tag_spec. rewrite !length_app. destruct tag; [done|]. cbn. lia.
Qed.

Lemma find_tag_plain tag s : plain tag s -> find_tag tag s = None.
Proof.
  unfold plain. induction s as [|c s IH]; cbn; unfold starts_with;
    (destruct (strip_prefix tag _); [done|]); [done|].
  cbn. intros Hs. by rewrite IH.
Qed.

Lemma find_tag_unfold tag s :
  find_tag tag s =
  match strip_prefix tag s with
  | Some rest => Some ([], rest)
  | None =>
      match s with
      | [] => None
      | c :: s => '(before, rest) ← find_tag tag s; Some (c :: before, rest)
      end
  end.
Proof. by destruct s. Qed.

(** The first character of the tag occurs only there, so that tags do not overlap. *)
Definition headed (tag : str) : Prop := exists c t, tag = c :: t /\ c ∉ t.

Lemma prefix_of_plain tag s : plain tag s -> ~ starts_with tag s.
Proof.
  unfold plain. intros Hs Hp. destruct s; cbn in Hs; apply orb_false_iff in Hs as [Hs _];
    by rewrite Hs in Hp.
Qed.

(** Such a tag is found where it stands after a text without it. *)
Lemma find_tag_app tag s rest :
  headed tag -> plain tag s -> find_tag tag (s ++ tag ++ rest) = Some (s, rest).
Proof.
  intros (c & t & -> & Hc). induction s as [|x s IH]; intros Hs.
  - by rewrite app_nil_l, find_tag_unfold, (strip_prefix_app (c :: t)).
  - rewrite find_tag_unfold. destruct (strip_prefix (c :: t) _) as [r|] eqn:Ep.
    + exfalso. destruct (prefix_of_plain _ _ Hs). apply strip_prefix_Some in Ep.
      apply Is_true_true, starts_with_spec.
      apply app_eq_inv in Ep as [(k & Hk & _)|(k & Hk & Hr)]; [by exists k|].
      destruct k as [|y k]; [exists []; by rewrite app_nil_r, Hk, app_nil_r|].
      injection Hr as -> _. injection Hk as _ Hk. destruct Hc. rewrite Hk. set_solver.
    + change ((x :: s) ++ (c :: t) ++ rest) with (x :: (s ++ (c :: t) ++ rest)). cbv iota beta.
      rewrite IH; [done|]. unfold plain in *. cbn in Hs. by apply orb_false_iff in Hs as [_ Hs].
Qed.

Lemma strip_from_fuel fuel text cleaned ids :
  length text < fuel -> is_Some (strip_from fuel text cleaned ids).
Proof.
  revert text cleaned ids. induction fuel as [|fuel IH]; intros text cleaned ids Hf; [lia|]. cbn.
  destruct (find_tag OPEN_TAG text) as [[before rest]|] eqn:Eo; [|done].
  destruct (find_tag CLOSE_TAG rest) as [[inner rest']|] eqn:Ec; [|done].
  apply find_tag_shorter in Eo; [|done]. apply find_tag_shorter in Ec; [|done]. apply IH. lia.
Qed.

Lemma headed_open : headed OPEN_TAG.
Proof. do 2 eexists. split; [reflexivity|]. vm_compute. set_solver. Qed.

Lemma headed_close : headed CLOSE_TAG.
Proof. do 2 eexists. split; [reflexivity|]. vm_compute. set_solver. Qed.

Lemma strip_with_citations fuel parts rest cleaned ids :
  length (with_citations parts rest) < fuel ->
  Forall (fun p => plain OPEN_TAG p.1 /\ plain CLOSE_TAG p.2) parts -> plain OPEN_TAG rest ->
  strip_from fuel (with_citations parts rest) cleaned ids =
    Some (cleaned ++ concat (fst <$> parts) ++ rest,
          fold_left add_id (concat (parse_rollout_ids <$> (snd <$> parts))) ids).
Proof.
  revert fuel cleaned ids. induction parts as [|[before inner] parts IH]; intros fuel cleaned ids Hf Hp Hr.
  - destruct fuel; [cbn in Hf; lia|]. cbn [strip_from with_citations]. by rewrite find_tag_plain.
  - apply Forall_cons in Hp as [[Hb Hi] Hp]. destruct fuel as [|fuel]; [cbn in Hf; lia|].
    cbn [strip_from with_citations].
    rewrite (find_tag_app _ _ _ headed_open Hb), (find_tag_app _ _ _ headed_close Hi).
    assert (length OPEN_TAG = 18) as Hlen by reflexivity.
    rewrite IH; [|cbn [with_citations] in Hf; rewrite !length_app in Hf; lia|done..].
    cbn [fmap list_fmap fst snd concat]. by rewrite fold_left_app, <- !app_assoc.
Qed.
End citations.

(** ** Properties *)

(** The stripping of a text with citations leaves the text around them, in order, and
    collects the identifiers of all citations, each once, in the order of their first
    occurrence. *)
Theorem citations_stripped {uuid} `{EqDecision uuid} (parse_uuid : str -> option uuid) parts rest :
  Forall (fun p => plain OPEN_TAG p.1 /\ plain CLOSE_TAG p.2) parts -> plain OPEN_TAG rest ->
  strip_memory_citations parse_uuid (with_citations parts rest) =
    Some (concat (fst <$> parts) ++ rest,
          fold_left add_id (concat (parse_rollout_ids parse_uuid <$> (snd <$> parts))) []) /\
  NoDup (fold_left add_id (concat (parse_rollout_ids parse_uuid <$> (snd <$> parts))) []).
Proof.
  intros Hp Hr. split.
  - unfold strip_memory_citations. rewrite strip_with_citations by (done || lia). done.
  - generalize (concat (parse_rollout_ids parse_uuid <$> (snd <$> parts))). intros l.
    assert (NoDup (@nil uuid)) as Hn by constructor. revert Hn. generalize (@nil uuid).
    induction l as [|i l IH]; intros acc Ha; [done|]. cbn. apply IH. unfold add_id.
    case_decide; [done|]. apply NoDup_app. split; [done|]. split; [|apply NoDup_singleton].
    intros x Hx ->%list_elem_of_singleton. done.
Qed.

(** Stripping always returns. *)
Theorem stripping_terminates {uuid} `{EqDecision uuid} (parse_uuid : str -> option uuid) {opaque}
    (i : response_item opaque) : is_Some (sanitize_response_item parse_uuid i).
Proof.
  destruct i; try by eexists. cbn. destruct (str_eqb _ _); [|by eexists].
  assert (forall l, is_Some (mapM (sanitize_content parse_uuid) l)) as Hm.
  { intros l. apply mapM_is_Some. apply Forall_forall. intros [text|url|text] _; try by eexists.
    destruct (strip_from_fuel parse_uuid (S (length text)) text [] []) as [[stripped ids] Hs]; [lia|].
    exists (OutputText stripped, ids). cbn beta iota delta [sanitize_content]. unfold strip_memory_citations. by rewrite Hs. }
  destruct (Hm content) as [parts Hp]. rewrite Hp. by eexists.
Qed.

Module CitationRuns.
(** A citation that was split by another one is put together by the stripping, and stays. *)
Example citation_left :
  strip_memory_citations parse_u64
    (lit "a<oai-mem-<oai-mem-citation></oai-mem-citation>citation>b</oai-mem-citation>")
  = Some (lit "a<oai-mem-citation>b</oai-mem-citation>", []).
Proof. vm_compute. reflexivity. Qed.

Example citations_stripped_witness :
  strip_memory_citations parse_u64
    (with_citations [(lit "a", lit "<rollout_ids>" ++ [LF] ++ lit " 7" ++ [LF] ++ lit "7</rollout_ids>");
                     (lit "b", lit "no ids")] (lit "c"))
  = Some (lit "abc", [7%N]).
Proof.
  match goal with |- strip_memory_citations _ (with_citations ?p ?r) = _ =>
    destruct (citations_stripped parse_u64 p r) as [Hs _] end;
    [repeat constructor; vm_compute; reflexivity|vm_compute; reflexivity|].
  rewrite Hs. vm_compute. reflexivity.
Defined.
End CitationRuns.
