(* ===== verification/EnvironmentContext.v ===== *)
(** * The environment context that the model is told about

    [core/src/environment_context.rs]: the context of a turn, its canonical snapshot, the
    difference between two snapshots and how it is applied, the tracker that decides when
    to send a full snapshot or a difference, and the messages that carry them.

    Parameters: [which], the operating system's description and the date; serde's
    encoding of the enumerations and structs ([Serde]); the JSON printer; and the digest
    of the fingerprint's fields. *)

From stdpp Require Import base list.
From S2P Require Import Prelude Paths History Approval BTree.
Open Scope record_scope.

(** ** Data *)

Inductive network_access := Restricted | Enabled.

Inductive sandbox_mode := ModeReadOnly | ModeWorkspaceWrite | ModeDangerFullAccess.

Record operating_system_info := OperatingSystemInfo {
  family : option str;
  os_version : option str;
  architecture : option str
}.

Inductive shell :=
| Zsh (shell_path zshrc_path : str)
| Bash (shell_path bashrc_path : str)
| PowerShell (exe : str) (bash_exe_fallback : option str)
| UnknownShell.

#[export] Instance network_access_eq_dec : EqDecision network_access.
Proof. solve_decision. Defined.
#[export] Instance sandbox_mode_eq_dec : EqDecision sandbox_mode.
Proof. solve_decision. Defined.
#[export] Instance operating_system_info_eq_dec : EqDecision operating_system_info.
Proof. solve_decision. Defined.
#[export] Instance shell_eq_dec : EqDecision shell.
Proof. solve_decision. Defined.

Record environment_context := EnvironmentContext {
  ctx_cwd : option str;
  ctx_approval_policy : option ask_for_approval;
  ctx_sandbox_mode : option sandbox_mode;
  ctx_network_access : option network_access;
  ctx_writable_roots : option (list str);
  ctx_operating_system : option operating_system_info;
  ctx_common_tools : option (list str);
  ctx_shell : option shell;
  ctx_current_date : option str
}.

Record environment_context_snapshot := EnvironmentContextSnapshot {
  version : N;
  cwd : option str;
  approval_policy : option ask_for_approval;
  sandbox_mode_of : option sandbox_mode;
  network_access_of : option network_access;
  writable_roots : list str;
  operating_system : option operating_system_info;
  common_tools : list str;
  shell_of : option shell;
  git_branch : option str;
  reasoning_effort : option str
}.

#[export] Instance snapshot_eq_dec : EqDecision environment_context_snapshot.
Proof. solve_decision. Defined.

#[export] Instance snapshot_fields : Fields environment_context_snapshot := fun s =>
  EnvironmentContextSnapshot (version s) (cwd s) (approval_policy s) (sandbox_mode_of s)
    (network_access_of s) (writable_roots s) (operating_system s) (common_tools s)
    (shell_of s) (git_branch s) (reasoning_effort s).

Definition VERSION : N := 1.

(** [serde_json::Value]; a number is its text. *)
Inductive json :=
| JNull
| JBool (b : bool)
| JNumber (text : str)
| JString (s : str)
| JArray (l : list json)
| JObject (fields : list (str * json)).

Record environment_context_delta := EnvironmentContextDelta {
  delta_version : N;
  base_fingerprint : str;
  changes : btree str json
}.

(** What serde derives for a type: [serde_json::to_value] and [from_value]. *)
Class Serde (A : Type) := {
  to_value : A -> option json;
  from_value : json -> option A
}.

(** What the program relies on: encoding succeeds, decoding inverts it, and [null] is not
    a value of the type. *)
Class SerdeLaws (A : Type) `{!Serde A} := {
  encode_decode : forall x, exists v, to_value x = Some v /\ from_value v = Some x;
  null_rejected : from_value JNull = None
}.

(** ** Building the context *)

Definition TOOL_CANDIDATES : list (str * list str) := [
  (lit "git", [lit "git"]);
  (lit "gh", [lit "gh"]);
  (lit "rg", [lit "rg"]);
  (lit "fd", [lit "fd"; lit "fdfind"]);
  (lit "fzf", [lit "fzf"]);
  (lit "jq", [lit "jq"]);
  (lit "yq", [lit "yq"]);
  (lit "sed", [lit "sed"]);
  (lit "awk", [lit "awk"]);
  (lit "xargs", [lit "xargs"]);
  (lit "parallel", [lit "parallel"]);
  (lit "curl", [lit "curl"]);
  (lit "wget", [lit "wget"]);
  (lit "tar", [lit "tar"]);
  (lit "unzip", [lit "unzip"]);
  (lit "gzip", [lit "gzip"]);
  (lit "zstd", [lit "zstd"]);
  (lit "make", [lit "make"]);
  (lit "just", [lit "just"]);
  (lit "node", [lit "node"]);
  (lit "npm", [lit "npm"]);
  (lit "pnpm", [lit "pnpm"]);
  (lit "python3", [lit "python3"]);
  (lit "pipx", [lit "pipx"]);
  (lit "go", [lit "go"]);
  (lit "rustup", [lit "rustup"]);
  (lit "cargo", [lit "cargo"]);
  (lit "rustc", [lit "rustc"]);
  (lit "shellcheck", [lit "shellcheck"]);
  (lit "shfmt", [lit "shfmt"]);
  (lit "docker", [lit "docker"]);
  (lit "docker compose", [lit "docker"; lit "docker-compose"]);
  (lit "sqlite3", [lit "sqlite3"]);
  (lit "duckdb", [lit "duckdb"]);
  (lit "rsync", [lit "rsync"]);
  (lit "openssl", [lit "openssl"]);
  (lit "ssh", [lit "ssh"]);
  (lit "dig", [lit "dig"]);
  (lit "nc", [lit "nc"; lit "netcat"]);
  (lit "lsof", [lit "lsof"]);
  (lit "ripgrep-all", [lit "ripgrep-all"; lit "rga"]);
  (lit "entr", [lit "entr"]);
  (lit "watchexec", [lit "watchexec"]);
  (lit "hyperfine", [lit "hyperfine"]);
  (lit "pv", [lit "pv"]);
  (lit "bat", [lit "bat"]);
  (lit "delta", [lit "delta"]);
  (lit "tree", [lit "tree"]);
  (lit "python", [lit "python"]);
  (lit "deno", [lit "deno"]);
  (lit "bun", [lit "bun"]);
  (lit "js", [lit "js"])
].

Definition detect_common_tools (which : str -> bool) : option (list str) :=
  let available := fst <$> List.filter (fun candidate =>
    existsb which (match candidate.2 with [] => [candidate.1] | names => names end))
    TOOL_CANDIDATES in
  match available with [] => None | _ => Some available end.

(** [os_type], [os_version]: what [os_info] reports, [None] for its [Unknown]. *)
Definition detect_operating_system_info (os_type os_version : option str) (ARCH : str)
    : option operating_system_info :=
  let version :=
    match os_version with
    | Some text => if str_eqb (trim text) [] then None else Some text
    | None => None
    end in
  let architecture := if str_eqb ARCH [] then None else Some ARCH in
  match os_type, version, architecture with
  | None, None, None => None
  | _, _, _ => Some (OperatingSystemInfo os_type version architecture)
  end.

Definition new_context (os : option operating_system_info) (tools : option (list str))
    (date : str) (cwd : option str) (approval_policy : option ask_for_approval)
    (policy : option sandbox_policy) (sh : option shell) : environment_context :=
  EnvironmentContext cwd approval_policy
    (match policy with
     | Some DangerFullAccess => Some ModeDangerFullAccess
     | Some ReadOnly => Some ModeReadOnly
     | Some (WorkspaceWrite _ _ _ _ _) => Some ModeWorkspaceWrite
     | None => None
     end)
    (match policy with
     | Some DangerFullAccess => Some Enabled
     | Some ReadOnly => Some Restricted
     | Some (WorkspaceWrite _ network_access _ _ _) =>
         if network_access : bool then Some Enabled else Some Restricted
     | None => None
     end)
    (match policy with
     | Some (WorkspaceWrite roots _ _ _ _) => match roots with [] => None | _ => Some roots end
     | _ => None
     end)
    os tools sh (Some date).

(** ** Names and the legacy XML *)

(** [Display] of the enumerations (strum's kebab-case names; the fields of [Reject] are
    not part of its name). *)
Definition show_approval (p : ask_for_approval) : str :=
  match p with
  | UnlessTrusted => lit "untrusted"
  | OnFailure => lit "on-failure"
  | OnRequest => lit "on-request"
  | AskReject _ => lit "reject"
  | Never => lit "never"
  end.

Definition show_sandbox_mode (m : sandbox_mode) : str :=
  match m with
  | ModeReadOnly => lit "read-only"
  | ModeWorkspaceWrite => lit "workspace-write"
  | ModeDangerFullAccess => lit "danger-full-access"
  end.

Definition show_network_access (a : network_access) : str :=
  match a with Restricted => lit "restricted" | Enabled => lit "enabled" end.

Definition shell_name (s : shell) : option str :=
  match s with
  | Zsh shell_path _ => file_name shell_path
  | Bash shell_path _ => file_name shell_path
  | PowerShell exe _ => Some exe
  | UnknownShell => None
  end.

Definition ENVIRONMENT_CONTEXT_CLOSE_TAG : str := lit "</environment_context>".
Definition ENVIRONMENT_CONTEXT_DELTA_CLOSE_TAG : str := lit "</environment_context_delta>".

(** A line with one element: [format!("{indent}<{tag}>{text}</{tag}>")]. *)
Definition element (indent tag text : str) : str :=
  indent ++ lit "<" ++ tag ++ lit ">" ++ text ++ lit "</" ++ tag ++ lit ">".

Definition option_lines {A} (f : A -> list str) (o : option A) : list str :=
  match o with Some x => f x | None => [] end.

Definition serialize_to_xml (c : environment_context) : str :=
  let one tag text := [element (lit "  ") (lit tag) text] in
  let nested tag text := [element (lit "    ") (lit tag) text] in
  join [LF] (
    [ENVIRONMENT_CONTEXT_OPEN_TAG] ++
    option_lines (one "cwd"%string) (ctx_cwd c) ++
    option_lines (fun p => one "approval_policy"%string (show_approval p))
      (ctx_approval_policy c) ++
    option_lines (fun m => one "sandbox_mode"%string (show_sandbox_mode m))
      (ctx_sandbox_mode c) ++
    option_lines (fun a => one "network_access"%string (show_network_access a))
      (ctx_network_access c) ++
    option_lines (fun roots =>
      [lit "  <writable_roots>"] ++ (element (lit "    ") (lit "root") <$> roots) ++
      [lit "  </writable_roots>"]) (ctx_writable_roots c) ++
    option_lines (fun os =>
      [lit "  <operating_system>"] ++
      option_lines (nested "family"%string) (family os) ++
      option_lines (nested "version"%string) (os_version os) ++
      option_lines (nested "architecture"%string) (architecture os) ++
      [lit "  </operating_system>"]) (ctx_operating_system c) ++
    option_lines (fun tools =>
      match tools with
      | [] => []
      | _ => [lit "  <common_tools>"] ++ (element (lit "    ") (lit "tool") <$> tools) ++
             [lit "  </common_tools>"]
      end) (ctx_common_tools c) ++
    option_lines (one "current_date"%string) (ctx_current_date c) ++
    option_lines (fun s => option_lines (one "shell"%string) (shell_name s)) (ctx_shell c) ++
    [ENVIRONMENT_CONTEXT_CLOSE_TAG]).

(** ** Snapshots *)

(** [PathBuf::display] *)
Definition from_context (c : environment_context) : environment_context_snapshot :=
  EnvironmentContextSnapshot VERSION (ctx_cwd c) (ctx_approval_policy c) (ctx_sandbox_mode c)
    (ctx_network_access c) (default [] (ctx_writable_roots c)) (ctx_operating_system c)
    (default [] (ctx_common_tools c)) (ctx_shell c) None None.

Definition with_metadata (branch effort : option str) (s : environment_context_snapshot)
    : environment_context_snapshot :=
  s <| git_branch := branch |> <| reasoning_effort := effort |>.

(** The map that is hashed. *)
Definition fingerprint_fields (s : environment_context_snapshot) : btree str str :=
  let put {A} (key : string) (f : A -> str) (o : option A) (m : btree str str) :=
    match o with Some x => btree_insert (lit key) (f x) m | None => m end in
  let m := put "cwd"%string (fun x => x) (cwd s) [] in
  let m := put "approval_policy"%string show_approval (approval_policy s) m in
  let m := put "sandbox_mode"%string show_sandbox_mode (sandbox_mode_of s) m in
  let m := put "network_access"%string show_network_access (network_access_of s) m in
  let m := match writable_roots s with
           | [] => m
           | roots => btree_insert (lit "writable_roots") (join (lit "|") roots) m
           end in
  let m := put "git_branch"%string (fun x => x) (git_branch s) m in
  put "reasoning_effort"%string (fun x => x) (reasoning_effort s) m.

Section snapshots.
(** The hexadecimal SHA-1 of the JSON encoding of a map of strings. *)
Context (digest : btree str str -> str).
Context `{!Serde ask_for_approval, !Serde sandbox_mode, !Serde network_access,
          !Serde operating_system_info, !Serde shell}.

Definition fingerprint (s : environment_context_snapshot) : str := digest (fingerprint_fields s).

Definition option_string_to_json (value : option str) : json :=
  match value with Some v => JString v | None => JNull end.

(** [serde_json::to_value(&option).unwrap_or(Null)] *)
Definition option_to_json {A} `{!Serde A} (o : option A) : json :=
  match o with Some x => default JNull (to_value x) | None => JNull end.

Definition strings_to_json (l : list str) : json := JArray (JString <$> l).

(** [changes.insert(key, value)] when the field differs. *)
Definition insert_if (b : bool) (key : string) (v : json) (m : btree str json) : btree str json :=
  if b then btree_insert (lit key) v m else m.

Definition diff_from (self previous : environment_context_snapshot)
    : environment_context_delta :=
  let differs {A} `{!EqDecision A} (f : environment_context_snapshot -> A) : bool :=
    negb (bool_decide (f self = f previous)) in
  let m := insert_if (differs cwd) "cwd" (option_string_to_json (cwd self)) [] in
  let m := insert_if (differs approval_policy) "approval_policy"
             (option_to_json (approval_policy self)) m in
  let m := insert_if (differs sandbox_mode_of) "sandbox_mode"
             (option_to_json (sandbox_mode_of self)) m in
  let m := insert_if (differs network_access_of) "network_access"
             (option_to_json (network_access_of self)) m in
  let m := insert_if (differs writable_roots) "writable_roots"
             (strings_to_json (writable_roots self)) m in
  let m := insert_if (differs operating_system) "operating_system"
             (option_to_json (operating_system self)) m in
  let m := insert_if (differs common_tools) "common_tools"
             (strings_to_json (common_tools self)) m in
  let m := insert_if (differs shell_of) "shell" (option_to_json (shell_of self)) m in
  let m := insert_if (differs git_branch) "git_branch"
             (option_string_to_json (git_branch self)) m in
  let m := insert_if (differs reasoning_effort) "reasoning_effort"
             (option_string_to_json (reasoning_effort self)) m in
  EnvironmentContextDelta VERSION (fingerprint previous) m.

(** [Value::as_str] *)
Definition as_str (v : json) : option str :=
  match v with JString s => Some s | _ => None end.

(** [from_value::<Vec<String>>] *)
Definition strings_of_json (v : json) : option (list str) :=
  match v with JArray l => mapM as_str l | _ => None end.

(** [match value { Null => None, String(s) => Some(s), _ => unchanged }] *)
Definition nullable_string (v : json) (old : option str) : option str :=
  match v with JNull => None | JString s => Some s | _ => old end.

(** One iteration of the loop of [apply_delta]. *)
Definition apply_change (s : environment_context_snapshot) (entry : str * json)
    : environment_context_snapshot :=
  let '(key, value) := entry in
  if str_eqb key (lit "cwd") then s <| cwd := as_str value |>
  else if str_eqb key (lit "approval_policy") then
    match from_value value with Some p => s <| approval_policy := Some p |> | None => s end
  else if str_eqb key (lit "sandbox_mode") then
    match from_value value with Some m => s <| sandbox_mode_of := Some m |> | None => s end
  else if str_eqb key (lit "network_access") then
    match from_value value with Some a => s <| network_access_of := Some a |> | None => s end
  else if str_eqb key (lit "writable_roots") then
    match strings_of_json value with Some l => s <| writable_roots := l |> | None => s end
  else if str_eqb key (lit "operating_system") then
    match from_value value with Some o => s <| operating_system := Some o |> | None => s end
  else if str_eqb key (lit "common_tools") then
    match strings_of_json value with Some l => s <| common_tools := l |> | None => s end
  else if str_eqb key (lit "shell") then
    match from_value value with Some sh => s <| shell_of := Some sh |> | None => s end
  else if str_eqb key (lit "git_branch") then
    s <| git_branch := nullable_string value (git_branch s) |>
  else if str_eqb key (lit "reasoning_effort") then
    s <| reasoning_effort := nullable_string value (reasoning_effort s) |>
  else s.

Definition apply_delta (s : environment_context_snapshot) (d : environment_context_delta)
    : environment_context_snapshot := fold_left apply_change (changes d) s.

(** ** The tracker *)

Record environment_context_tracker := EnvironmentContextTracker {
  next_sequence : N;
  last_snapshot : option environment_context_snapshot
}.

Inductive environment_context_emission :=
| Full (sequence : N) (snapshot : environment_context_snapshot)
| Delta (sequence : N) (snapshot : environment_context_snapshot)
    (delta : environment_context_delta).

Definition new_tracker : environment_context_tracker := EnvironmentContextTracker 0 None.

Definition observe (snapshot : environment_context_snapshot) (t : environment_context_tracker)
    : option environment_context_emission * environment_context_tracker :=
  let next := wrapping_add64 (next_sequence t) 1 in
  match last_snapshot t with
  | None => (Some (Full next snapshot), EnvironmentContextTracker next (Some snapshot))
  | Some previous =>
      if str_eqb (fingerprint snapshot) (fingerprint previous) then (None, t)
      else (Some (Delta next snapshot (diff_from snapshot previous)),
            EnvironmentContextTracker next (Some snapshot))
  end.

Definition restore (snapshot : environment_context_snapshot) (next : N)
    (t : environment_context_tracker) : environment_context_tracker :=
  EnvironmentContextTracker (N.max next 1) (Some snapshot).

Definition emission_sequence (e : environment_context_emission) : N :=
  match e with Full n _ | Delta n _ _ => n end.

Definition emission_snapshot (e : environment_context_emission)
    : environment_context_snapshot := match e with Full _ s | Delta _ s _ => s end.

(** ** Messages *)

Context {opaque : Type}.
(** The other fields of a user message: its [id], no [end_turn] and no [phase]. *)
Context (user_fields : option str -> opaque).
(** [serde_json::to_string_pretty] *)
Context (print_snapshot : environment_context_snapshot -> option str).
Context (print_delta : environment_context_delta -> option str).

Definition user_message (text : str) (id : option str) : response_item opaque :=
  Message (lit "user") [InputText text] (user_fields id).

Definition legacy_item (c : environment_context) : response_item opaque :=
  user_message (serialize_to_xml c) None.

Definition snapshot_to_response_item (s : environment_context_snapshot) (stream_id : option str)
    : option (response_item opaque) :=
  json ← print_snapshot s;
  Some (user_message (ENVIRONMENT_CONTEXT_OPEN_TAG ++ [LF] ++ json ++ [LF] ++
    ENVIRONMENT_CONTEXT_CLOSE_TAG) stream_id).

Definition delta_to_response_item (d : environment_context_delta) (stream_id : option str)
    : option (response_item opaque) :=
  json ← print_delta d;
  Some (user_message (ENVIRONMENT_CONTEXT_DELTA_OPEN_TAG ++ [LF] ++ json ++ [LF] ++
    ENVIRONMENT_CONTEXT_DELTA_CLOSE_TAG) stream_id).

Definition into_response_items_with_id (e : environment_context_emission)
    (stream_id : option str) : option (list (response_item opaque)) :=
  match e with
  | Full _ s => i ← snapshot_to_response_item s stream_id; Some [i]
  | Delta _ _ d => i ← delta_to_response_item d stream_id; Some [i]
  end.

(** The outcome is [None] when the JSON printer fails; the tracker has moved on then. *)
Definition emit_response_items (c : environment_context) (branch effort : option str)
    (stream_id : option str) (t : environment_context_tracker)
    : option (option (environment_context_emission * list (response_item opaque))) *
      environment_context_tracker :=
  match observe (with_metadata branch effort (from_context c)) t with
  | (None, t) => (Some None, t)
  | (Some e, t) =>
      (items ← into_response_items_with_id e stream_id; Some (Some (e, items)), t)
  end.

End snapshots.

(** ** Specification *)

(** No setting that was known becomes unknown.  The two strings and the two lists are not
    concerned. *)
Definition still_known {A} (old new : option A) : Prop := new = None -> old = None.

Definition keeps_settings (old new : environment_context_snapshot) : Prop :=
  still_known (approval_policy old) (approval_policy new) /\
  still_known (sandbox_mode_of old) (sandbox_mode_of new) /\
  still_known (network_access_of old) (network_access_of new) /\
  still_known (operating_system old) (operating_system new) /\
  still_known (shell_of old) (shell_of new).

(** ** Lemmas *)

Section lemmas.
Context (digest : btree str str -> str).
Context `{!Serde ask_for_approval, !Serde sandbox_mode, !Serde network_access,
          !Serde operating_system_info, !Serde shell}.
Implicit Types s old new : environment_context_snapshot.

Lemma insert_if_ordered b key v m : btree_ordered m -> btree_ordered (insert_if b key v m).
Proof. destruct b; [apply btree_insert_ordered|done]. Qed.

Lemma diff_ordered new old : btree_ordered (changes (diff_from digest new old)).
Proof. unfold diff_from. cbn [changes]. repeat apply insert_if_ordered. constructor. Qed.

Lemma get_insert_if k b key v m :
  btree_get k (insert_if b key v m) =
  if bool_decide (k = lit key) then (if b then Some v else btree_get k m) else btree_get k m.
Proof.
  destruct b; cbn [insert_if]; [|by destruct (bool_decide _)]. case_bool_decide as Hk.
  - subst k. apply btree_get_insert.
  - by apply btree_get_insert_ne.
Qed.

(** A field that one key updates: its value after all changes. *)
Lemma fold_field {A} (get : environment_context_snapshot -> A) (key : str)
    (set : json -> A -> A) (m : btree str json) s :
  (forall s v, get (apply_change s (key, v)) = set v (get s)) ->
  (forall s k v, k <> key -> get (apply_change s (k, v)) = get s) ->
  NoDup (btree_keys m) ->
  get (fold_left apply_change m s) =
  match btree_get key m with Some v => set v (get s) | None => get s end.
Proof.
  intros Hset Hother. revert s. induction m as [|[k v] m IH]; intros s Hn; [done|].
  unfold btree_keys in *. rewrite fmap_cons in Hn. apply NoDup_cons in Hn as [Hk Hn].
  cbn [fold_left fst btree_get] in *. rewrite IH by done.
  destruct (key_ltb key k || key_ltb k key) eqn:E.
  - rewrite Hother; [done|]. intros ->. by rewrite (key_irreflexive key) in E.
  - apply key_eq_bool in E as ->. rewrite Hset. destruct (btree_get k m) as [w|] eqn:Hg; [|done].
    exfalso. apply Hk. clear -Hg. induction m as [|[k' v'] m IH]; [done|]. rewrite fmap_cons.
    cbn [btree_get fst] in *. apply elem_of_cons.
    destruct (key_ltb k k' || key_ltb k' k) eqn:E; [right; auto|left]. by apply key_eq_bool.
Qed.

(** [apply_change] on a key that is not the field's. *)
Ltac other_key :=
  intros *; intros Hne; unfold apply_change;
  repeat match goal with
  | |- context [str_eqb ?a ?b] =>
      let E := fresh in destruct (str_eqb a b) eqn:E;
      [apply str_eqb_eq in E; subst; try (by case_match); try (by destruct Hne)|]
  end; done.

Lemma apply_diff_version new old :
  version (apply_delta old (diff_from digest new old)) = version old.
Proof.
  unfold apply_delta. generalize (changes (diff_from digest new old)) as m. intros m.
  revert old. induction m as [|[k v] m IH]; intros s; [done|]. cbn [fold_left].
  rewrite IH. unfold apply_change. repeat case_match; done.
Qed.

(** The change recorded for the field of a key. *)
Ltac lookup_diff :=
  unfold diff_from; cbn [changes]; rewrite !get_insert_if;
  repeat first
    [ rewrite (bool_decide_true (lit _ = lit _)) by reflexivity
    | rewrite (bool_decide_false (lit _ = lit _)) by discriminate ].

Ltac field_of f key set :=
  unfold apply_delta;
  rewrite (fold_field f (lit key) set);
  [ lookup_diff | done | other_key | apply btree_ordered_NoDup, diff_ordered ].

Lemma apply_diff_cwd new old : cwd (apply_delta old (diff_from digest new old)) = cwd new.
Proof.
  field_of cwd "cwd"%string (fun v (_ : option str) => as_str v).
  case_bool_decide as E; cbn [negb btree_get]; [done|]. by destruct (cwd new).
Qed.

Context `{!SerdeLaws ask_for_approval, !SerdeLaws sandbox_mode, !SerdeLaws network_access,
          !SerdeLaws operating_system_info, !SerdeLaws shell}.

(** What decoding an optional value leaves in a field. *)
Definition overlay {A} (new old : option A) : option A :=
  match new with Some _ => new | None => old end.

Lemma decode_option {A} `{SA : Serde A} `{!SerdeLaws A} (new old : option A) :
  match from_value (option_to_json new) with Some x => Some x | None => old end =
  overlay new old.
Proof.
  destruct new as [x|]; simpl; [|by rewrite null_rejected].
  destruct (encode_decode x) as (v & -> & E). simpl. by rewrite E.
Qed.

Lemma overlay_same {A} (a b : option A) : a = b -> b = overlay a b.
Proof. intros ->. by destruct b. Qed.

Ltac decoded_field := case_bool_decide as E; cbn [negb btree_get];
  [by apply overlay_same|apply decode_option].

Notation applied new old := (apply_delta old (diff_from digest new old)).

(** How [apply_change] sets an optional value, and a list. *)
Definition set_option {A} `{!Serde A} (v : json) (o : option A) : option A :=
  match from_value v with Some x => Some x | None => o end.

Definition set_strings (v : json) (l : list str) : list str := default l (strings_of_json v).

Ltac set_field := intros s v; cbn; unfold set_option, set_strings;
  match goal with
  | |- context [@from_value ?A ?S v] => by destruct (@from_value A S v)
  | |- _ => by destruct (strings_of_json v)
  end.

Ltac field_with f key set :=
  unfold apply_delta;
  rewrite (fold_field f (lit key) set);
  [ lookup_diff | set_field | other_key | apply btree_ordered_NoDup, diff_ordered ].

Lemma apply_diff_approval new old :
  approval_policy (applied new old) = overlay (approval_policy new) (approval_policy old).
Proof.
  field_with approval_policy "approval_policy"%string (set_option (A := ask_for_approval)).
  decoded_field.
Qed.

Lemma apply_diff_sandbox new old :
  sandbox_mode_of (applied new old) = overlay (sandbox_mode_of new) (sandbox_mode_of old).
Proof.
  field_with sandbox_mode_of "sandbox_mode"%string (set_option (A := sandbox_mode)).
  decoded_field.
Qed.

Lemma apply_diff_network new old :
  network_access_of (applied new old) =
  overlay (network_access_of new) (network_access_of old).
Proof.
  field_with network_access_of "network_access"%string (set_option (A := network_access)).
  decoded_field.
Qed.

Lemma apply_diff_os new old :
  operating_system (applied new old) = overlay (operating_system new) (operating_system old).
Proof.
  field_with operating_system "operating_system"%string
    (set_option (A := operating_system_info)).
  decoded_field.
Qed.

Lemma apply_diff_shell new old :
  shell_of (applied new old) = overlay (shell_of new) (shell_of old).
Proof.
  field_with shell_of "shell"%string (set_option (A := shell)). decoded_field.
Qed.

Lemma decode_strings l : strings_of_json (strings_to_json l) = Some l.
Proof.
  cbn. induction l as [|x l IH]; [done|]. cbn. by rewrite IH.
Qed.

Ltac strings_field := case_bool_decide as E; cbn [negb btree_get];
  [done|unfold set_strings; by rewrite decode_strings].

Lemma apply_diff_roots new old : writable_roots (applied new old) = writable_roots new.
Proof. field_with writable_roots "writable_roots"%string set_strings. strings_field. Qed.

Lemma apply_diff_tools new old : common_tools (applied new old) = common_tools new.
Proof. field_with common_tools "common_tools"%string set_strings. strings_field. Qed.

Ltac nullable_field f := case_bool_decide as E; cbn [negb btree_get]; [done|]; by destruct (f _).

Lemma apply_diff_branch new old : git_branch (applied new old) = git_branch new.
Proof. field_of git_branch "git_branch"%string nullable_string. nullable_field git_branch. Qed.

Lemma apply_diff_effort new old : reasoning_effort (applied new old) = reasoning_effort new.
Proof.
  field_of reasoning_effort "reasoning_effort"%string nullable_string.
  nullable_field reasoning_effort.
Qed.

Lemma overlay_known {A} (new old : option A) : overlay new old = new <-> still_known old new.
Proof. unfold still_known. destruct new; simpl; naive_solver. Qed.

(** The difference restores the new snapshot when nothing becomes unknown. *)
Lemma apply_diff_iff new old :
  version new = version old -> applied new old = new <-> keeps_settings old new.
Proof.
  intros Hv. unfold keeps_settings. rewrite <- !overlay_known.
  rewrite <- (apply_diff_approval new old), <- (apply_diff_sandbox new old),
    <- (apply_diff_network new old), <- (apply_diff_os new old), <- (apply_diff_shell new old).
  split; [intros E; by rewrite !E|]. intros (E1 & E2 & E3 & E4 & E5).
  pose proof (apply_diff_version new old) as E0. pose proof (apply_diff_cwd new old) as E6.
  pose proof (apply_diff_roots new old) as E7. pose proof (apply_diff_tools new old) as E8.
  pose proof (apply_diff_branch new old) as E9. pose proof (apply_diff_effort new old) as E10.
  rewrite <- Hv in E0. destruct (applied new old), new; cbn in *; subst. done.
Qed.
End lemmas.

(** ** A consumer of the tracker's emissions *)

Section stream.
Context (digest : btree str str -> str).
Context `{!Serde ask_for_approval, !Serde sandbox_mode, !Serde network_access,
          !Serde operating_system_info, !Serde shell}.

(** Snapshots observed one after the other; the emissions in order. *)
Fixpoint observe_all (l : list environment_context_snapshot) (t : environment_context_tracker)
    : list environment_context_emission * environment_context_tracker :=
  match l with
  | [] => ([], t)
  | s :: l =>
      let '(e, t) := observe digest s t in
      let '(es, t) := observe_all l t in
      (match e with Some e => e :: es | None => es end, t)
  end.

(** What a reader of the messages knows: a full snapshot replaces it, a difference is
    applied to it. *)
Definition receive (known : option environment_context_snapshot)
    (e : environment_context_emission) : option environment_context_snapshot :=
  match e with
  | Full _ s => Some s
  | Delta _ _ d => (fun s => apply_delta s d) <$> known
  end.

(** A snapshot of a running session: current version, all settings known. *)
Definition settled (s : environment_context_snapshot) : Prop :=
  version s = VERSION /\ approval_policy s <> None /\ sandbox_mode_of s <> None /\
  network_access_of s <> None /\ operating_system s <> None /\ shell_of s <> None.

Lemma settled_keeps old new : settled new -> keeps_settings old new.
Proof. intros (_ & H1 & H2 & H3 & H4 & H5). unfold keeps_settings, still_known. tauto. Qed.

Context `{!SerdeLaws ask_for_approval, !SerdeLaws sandbox_mode, !SerdeLaws network_access,
          !SerdeLaws operating_system_info, !SerdeLaws shell}.

Lemma observe_all_spec l t known :
  Forall settled l -> known = last_snapshot t ->
  (forall s, last_snapshot t = Some s -> version s = VERSION) ->
  (next_sequence t + N.of_nat (length l) < 2 ^ 64)%N ->
  let '(es, t') := observe_all l t in
  fold_left receive es known = last_snapshot t' /\
  emission_sequence <$> es =
    (fun i => (next_sequence t + 1 + N.of_nat i)%N) <$> seq 0 (length es) /\
  (forall s, last l = Some s -> exists s', last_snapshot t' = Some s' /\
     fingerprint digest s' = fingerprint digest s).
Proof.
  revert t known. induction l as [|s l IH]; intros t known Hl Hk Hv Hn; cbn [observe_all].
  { split; [by rewrite Hk|]. by split. }
  apply Forall_cons in Hl as [Hs Hl]. cbn [length] in Hn.
  (* what one observation emits *)
  assert (H1 : exists e t1, observe digest s t = (e, t1) /\
    (match e with Some e => receive known e | None => known end) = last_snapshot t1 /\
    (forall s, last_snapshot t1 = Some s -> version s = VERSION) /\
    (exists s', last_snapshot t1 = Some s' /\ fingerprint digest s' = fingerprint digest s) /\
    match e with
    | Some e => emission_sequence e = (next_sequence t + 1)%N /\
                next_sequence t1 = (next_sequence t + 1)%N
    | None => next_sequence t1 = next_sequence t
    end).
  { unfold observe. destruct (last_snapshot t) as [previous|] eqn:E.
    - destruct (str_eqb _ _) eqn:Ef.
      + apply str_eqb_eq in Ef. eexists None, _. split; [done|]. subst known. rewrite E.
        split; [done|]. split; [done|]. by eauto.
      + eexists (Some _), _. split; [done|]. subst known. cbn [receive last_snapshot fmap option_fmap option_map].
        rewrite (proj2 (apply_diff_iff digest s previous ltac:(rewrite (Hv previous eq_refl); apply Hs))
          (settled_keeps previous s Hs)).
        cbn [emission_sequence next_sequence]. unfold wrapping_add64. rewrite N.mod_small by lia.
        split; [done|]. split; [intros ? [= <-]; apply Hs|]. by eauto.
    - eexists (Some _), _. split; [done|]. cbn [receive last_snapshot emission_sequence next_sequence].
      unfold wrapping_add64. rewrite N.mod_small by lia.
      split; [done|]. split; [intros ? [= <-]; apply Hs|]. by eauto. }
  destruct H1 as (e & t1 & -> & Hr & Hv1 & Hf & Hseq).
  specialize (IH t1 (last_snapshot t1) Hl eq_refl Hv1).
  destruct (observe_all l t1) as [es t'] eqn:Eo.
  assert (Hn1 : (next_sequence t1 + N.of_nat (length l) < 2 ^ 64)%N)
    by (destruct e as [e|]; [destruct Hseq as [_ ->]|rewrite Hseq]; lia).
  destruct (IH Hn1) as (A & B & C). split; [|split].
  - destruct e as [e|]; cbn [fold_left]; rewrite Hr; exact A.
  - destruct e as [e|]; [|by rewrite <- Hseq]. destruct Hseq as [He Ht].
    cbn [length seq]. rewrite !fmap_cons, He, B, Ht, <- seq_shift, <- list_fmap_compose.
    f_equal; [lia|]. apply list_fmap_ext. intros i ? _. unfold compose. lia.
  - intros x Hx. destruct l as [|y l]; [|by apply C].
    injection Hx as <-. injection Eo as <- <-. exact Hf.
Qed.
End stream.

(** ** Properties *)

Section properties.
Context (digest : btree str str -> str).
Context `{SA : Serde ask_for_approval, SM : Serde sandbox_mode, SN : Serde network_access,
          SO : Serde operating_system_info, SS : Serde shell}.
Context `{!SerdeLaws ask_for_approval, !SerdeLaws sandbox_mode, !SerdeLaws network_access,
          !SerdeLaws operating_system_info, !SerdeLaws shell}.

(** What the fingerprint is taken of, key by key in order: not the operating system, the shell
    and the tools. *)
Definition identity (s : environment_context_snapshot) : btree str str :=
  let field (key : string) (o : option str) := match o with Some v => [(lit key, v)] | None => [] end in
  field "approval_policy" ((fun p => lit match p with
    | UnlessTrusted => "untrusted" | OnFailure => "on-failure" | OnRequest => "on-request"
    | AskReject _ => "reject" | Never => "never" end) <$> approval_policy s) ++
  field "cwd" (cwd s) ++
  field "git_branch" (git_branch s) ++
  field "network_access" ((fun a => lit match a with Restricted => "restricted" | Enabled => "enabled" end)
    <$> network_access_of s) ++
  field "reasoning_effort" (reasoning_effort s) ++
  field "sandbox_mode" ((fun m => lit match m with
    | ModeReadOnly => "read-only" | ModeWorkspaceWrite => "workspace-write"
    | ModeDangerFullAccess => "danger-full-access" end) <$> sandbox_mode_of s) ++
  field "writable_roots" (match writable_roots s with [] => None | roots => Some (join (lit "|") roots) end).

Lemma fingerprint_identity s : fingerprint digest s = digest (identity s).
Proof.
  unfold fingerprint. f_equal. destruct s as [? cw ap sm na roots os tools sh br eff].
  unfold fingerprint_fields, identity. cbn [approval_policy cwd git_branch network_access_of
    reasoning_effort sandbox_mode_of writable_roots].
  destruct ap as [[]|], sm as [[]|], na as [[]|], cw, br, eff, roots; reflexivity.
Qed.

(** Applying the difference of two snapshots of the same version to the older one
    gives the newer one exactly when no approval policy, sandbox mode, network access,
    operating system or shell that was known becomes unknown: such a change is recorded as
    null and not applied. *)
Theorem delta_round_trip new old :
  version new = version old ->
  apply_delta old (diff_from digest new old) = new <-> keeps_settings old new.
Proof. intros H. by apply apply_diff_iff. Qed.

(** C15: A new tracker observes fewer than 2^64 snapshots of the current version in which the
    approval policy, sandbox mode, network access, operating system and shell are all known.
    Then a reader that starts with nothing and applies the emissions in order ends up with the
    tracker's last snapshot; that snapshot has the same digest of policy, directory, branch,
    network access, effort, sandbox mode and writable roots as the last one observed; and the
    emissions are numbered 1, 2, 3, ... *)
Theorem tracker_stream (l : list environment_context_snapshot) :
  Forall settled l -> (N.of_nat (length l) < 2 ^ 64)%N ->
  let '(es, t) := observe_all digest l new_tracker in
  fold_left receive es None = last_snapshot t /\
  emission_sequence <$> es = N.of_nat <$> seq 1 (length es) /\
  (forall s, last l = Some s -> exists s', last_snapshot t = Some s' /\
     digest (identity s') = digest (identity s)).
Proof.
  intros Hl Hn. pose proof (observe_all_spec digest l new_tracker None Hl eq_refl) as H.
  destruct (observe_all digest l new_tracker) as [es t]. cbn [next_sequence new_tracker] in H.
  destruct H as (A & B & C); [done|lia|]. split; [done|].
  split; [|intros s Hs; destruct (C s Hs) as (s' & ? & ?); exists s'; by rewrite <- !fingerprint_identity].
  rewrite B, <- seq_shift, <- list_fmap_compose. apply list_fmap_ext. intros i ? _.
  unfold compose. lia.
Qed.
End properties.

(** ** Runs

    serde's derived encoding of the five types. *)

Module ContextRuns.
Definition json_pick {A} (table : list (str * A)) (v : json) : option A :=
  match v with JString s => snd <$> find (fun e => str_eqb s e.1) table | _ => None end.

#[export] Instance sandbox_mode_serde : Serde sandbox_mode := {
  to_value m := Some (JString (show_sandbox_mode m));
  from_value := json_pick ((fun m => (show_sandbox_mode m, m)) <$>
    [ModeReadOnly; ModeWorkspaceWrite; ModeDangerFullAccess])
}.
#[export] Instance sandbox_mode_serde_laws : SerdeLaws sandbox_mode.
Proof. split; [|done]. intros m. eexists. split; [done|]. by destruct m. Qed.

#[export] Instance network_access_serde : Serde network_access := {
  to_value a := Some (JString (show_network_access a));
  from_value := json_pick ((fun a => (show_network_access a, a)) <$> [Restricted; Enabled])
}.
#[export] Instance network_access_serde_laws : SerdeLaws network_access.
Proof. split; [|done]. intros a. eexists. split; [done|]. by destruct a. Qed.

#[export] Instance approval_serde : Serde ask_for_approval := {
  to_value p := Some match p with
    | AskReject (RejectConfig a b c d e) => JObject [(lit "reject", JObject [
        (lit "sandbox_approval", JBool a); (lit "rules", JBool b);
        (lit "skill_approval", JBool c); (lit "request_permissions", JBool d);
        (lit "mcp_elicitations", JBool e)])]
    | _ => JString (show_approval p)
    end;
  from_value v := match v with
    | JObject [(_, JObject [(_, JBool a); (_, JBool b); (_, JBool c); (_, JBool d);
        (_, JBool e)])] => Some (AskReject (RejectConfig a b c d e))
    | _ => json_pick ((fun p => (show_approval p, p)) <$>
             [UnlessTrusted; OnFailure; OnRequest; Never]) v
    end
}.
#[export] Instance approval_serde_laws : SerdeLaws ask_for_approval.
Proof. split; [|done]. intros p. eexists. split; [done|]. by destruct p as [| | |[]|]. Qed.

#[export] Instance os_serde : Serde operating_system_info := {
  to_value o := Some (JObject [(lit "family", option_string_to_json (family o));
    (lit "version", option_string_to_json (os_version o));
    (lit "architecture", option_string_to_json (architecture o))]);
  from_value v := match v with
    | JObject [(_, a); (_, b); (_, c)] =>
        Some (OperatingSystemInfo (as_str a) (as_str b) (as_str c))
    | _ => None
    end
}.
#[export] Instance os_serde_laws : SerdeLaws operating_system_info.
Proof. split; [|done]. intros o. eexists. split; [done|]. by destruct o as [[] [] []]. Qed.

#[export] Instance shell_serde : Serde shell := {
  to_value s := Some match s with
    | Zsh p rc => JObject [(lit "Zsh", JObject [(lit "shell_path", JString p);
        (lit "zshrc_path", JString rc)])]
    | Bash p rc => JObject [(lit "Bash", JObject [(lit "shell_path", JString p);
        (lit "bashrc_path", JString rc)])]
    | PowerShell e b => JObject [(lit "PowerShell", JObject [(lit "exe", JString e);
        (lit "bash_exe_fallback", option_string_to_json b)])]
    | UnknownShell => JString (lit "Unknown")
    end;
  from_value v := match v with
    | JString s => if str_eqb s (lit "Unknown") then Some UnknownShell else None
    | JObject [(tag, JObject [(_, JString a); (_, b)])] =>
        if str_eqb tag (lit "Zsh") then Zsh a <$> as_str b
        else if str_eqb tag (lit "Bash") then Bash a <$> as_str b
        else if str_eqb tag (lit "PowerShell") then Some (PowerShell a (as_str b)) else None
    | _ => None
    end
}.
#[export] Instance shell_serde_laws : SerdeLaws shell.
Proof. split; [|done]. intros s. eexists. split; [done|]. by destruct s as [| |? []|]. Qed.

(** A digest without collisions: the fields themselves. *)
Definition plain_digest (m : btree str str) : str :=
  concat ((fun e => e.1 ++ [LF] ++ e.2 ++ [LF]) <$> m).

Definition in_dir (dir : string) : environment_context_snapshot :=
  from_context (new_context (Some (OperatingSystemInfo (Some (lit "Linux")) None None)) None
    (lit "2025-01-02") (Some (lit dir)) (Some OnRequest) (Some ReadOnly)
    (Some (Bash (lit "/bin/bash") (lit "/root/.bashrc")))).

Lemma delta_round_trip_witness :
  apply_delta (in_dir "/a") (diff_from plain_digest (in_dir "/b") (in_dir "/a")) = in_dir "/b".
Proof.
  apply (delta_round_trip plain_digest (in_dir "/b") (in_dir "/a")); [done|].
  by apply settled_keeps.
Defined.

Lemma tracker_stream_witness :
  let l := [in_dir "/a"; in_dir "/a"; in_dir "/b"] in
  length (observe_all plain_digest l new_tracker).1 = 2 /\
  fold_left receive (observe_all plain_digest l new_tracker).1 None =
    last_snapshot (observe_all plain_digest l new_tracker).2.
Proof.
  intros l. split; [by vm_compute|].
  assert (Hl : Forall settled l) by by repeat constructor.
  pose proof (tracker_stream plain_digest l Hl ltac:(done)) as H.
  destruct (observe_all plain_digest l new_tracker) as [es t]. apply H.
Defined.
End ContextRuns.
