(* ===== verification/RequestInput.v ===== *)
(** * The input of a request

    From the transcript to what the model is sent: [turn_input_with_history] of
    [core/src/codex/session.rs] (historical messages lose their ephemeral images, the
    timeline comes first), [get_formatted_input] of [core/src/client_common.rs]
    (instructions in front, repeated tool outputs and surplus screenshots out), and the two
    rewritings that [core/src/client.rs] applies last.  The instructions of the user are
    those of [core/src/user_instructions.rs].

    Counters that are only logged are left out.  The developer instructions come from a
    file that is compiled in, and the environment is printed by serde: both are
    parameters. *)

From stdpp Require Import base list gmap.
From S2P Require Import Prelude History Retention Truncation Compaction EnvironmentContext.

(** ** The instructions of the user *)

Definition USER_INSTRUCTIONS_OPEN_TAG_LEGACY : str := lit "<user_instructions>".
Definition USER_INSTRUCTIONS_PREFIX : str := lit "# AGENTS.md instructions for ".

Record user_instructions := UserInstructions { directory : str; instructions_text : str }.

Definition is_user_instructions (message : list content_item) : bool :=
  match message with
  | [InputText text] =>
      starts_with USER_INSTRUCTIONS_PREFIX text
      || starts_with USER_INSTRUCTIONS_OPEN_TAG_LEGACY text
  | _ => false
  end.

Definition ENVIRONMENT_CONTEXT_START : str := lit "<environment_context>" ++ [LF; LF].
Definition ENVIRONMENT_CONTEXT_END : str := [LF; LF] ++ lit "</environment_context>".

Definition SPARK_IMAGE_PLACEHOLDER : str :=
  lit "[image omitted: selected -spark model does not support image inputs]".

(** ** Content *)

Definition is_image (c : content_item) : bool :=
  match c with InputImage _ => true | _ => false end.

Definition EPHEMERAL : str := lit "[EPHEMERAL:".

Definition is_ephemeral_marker (c : content_item) : bool :=
  match c with InputText text => starts_with EPHEMERAL text | _ => false end.

(** The loop over the content of a historical user message: a marker and the next image
    are dropped. *)
Fixpoint filter_ephemeral (skip_next_image : bool) (content : list content_item)
    : list content_item :=
  match content with
  | [] => []
  | c :: content =>
      if is_ephemeral_marker c then filter_ephemeral true content
      else if is_image c && skip_next_image then filter_ephemeral false content
      else c :: filter_ephemeral skip_next_image content
  end.

Section request_input.
Context {opaque : Type}.
Notation item := (response_item opaque).
(** The fields of a new message, of a message without [end_turn] and [phase], and of a
    reasoning item without [encrypted_content]; [clear_id] is described below. *)
Context (new_fields : opaque) (clear_turn clear_encrypted clear_id : opaque -> opaque).
Context (developer_prompt : option str -> str).
Context (print_context : environment_context -> str).
Context (is_env_snapshot is_env_delta : item -> bool).

Definition new_message (role text : str) : item := Message role [InputText text] new_fields.

Definition user_instructions_item (ui : user_instructions) : item :=
  new_message (lit "user")
    (USER_INSTRUCTIONS_PREFIX ++ directory ui ++ [LF; LF] ++ lit "<INSTRUCTIONS>" ++ [LF] ++
     instructions_text ui ++ [LF] ++ lit "</INSTRUCTIONS>").

(** ** [turn_input_with_history] *)

Definition is_legacy_env_context (i : item) : bool :=
  match i with
  | Message role content _ =>
      str_eqb role (lit "user")
      && any_input_text (str_contains (lit "<environment_context>")) content
  | _ => false
  end.

Definition filter_history_item (i : item) : item :=
  match i with
  | Message role content rest =>
      if str_eqb role (lit "user")
      then Message role (filter_ephemeral false content) (clear_turn rest)
      else Message role content (clear_turn rest)
  | _ => i
  end.

Definition strip_encrypted (i : item) : item :=
  match i with
  | Reasoning content rest => Reasoning content (clear_encrypted rest)
  | _ => i
  end.

(** [env_ctx_v2] and [ctx_ui] are the flags of the new environment context, [chatgpt]
    whether the user is logged in with ChatGPT. *)
Definition turn_input_with_history (env_ctx_v2 ctx_ui chatgpt : bool)
    (timeline_items : option (list item)) (history : conversation_history opaque)
    (extra : list item) : list item :=
  let filtered_history :=
    filter_history_item <$>
      filter (fun i => negb (env_ctx_v2 && ctx_ui && is_legacy_env_context i) = true)
        (contents history) in
  let filtered_extra :=
    if env_ctx_v2 && ctx_ui
    then filter (fun i => negb (is_env_snapshot i) && negb (is_env_delta i) = true) extra
    else extra in
  let result := default [] timeline_items ++ filtered_history ++ filtered_extra in
  if negb chatgpt then strip_encrypted <$> result else result.

(** ** [Prompt::get_formatted_input] *)

Record prompt := Prompt {
  input : list item;
  status_items : list item;
  user_instructions_of : option str;
  environment_context_of : option environment_context;
  include_additional_instructions : bool;
  prepend_developer_messages : list str;
  model_descriptions : option str
}.

Definition get_formatted_user_instructions (p : prompt) : option item :=
  instructions ← user_instructions_of p;
  let directory := default [] (c ← environment_context_of p; ctx_cwd c) in
  Some (user_instructions_item (UserInstructions directory instructions)).

Definition get_formatted_environment_context (p : prompt) : option str :=
  (fun ec => ENVIRONMENT_CONTEXT_START ++ print_context ec ++ ENVIRONMENT_CONTEXT_END)
    <$> environment_context_of p.

Definition has_environment_context (l : list item) : bool :=
  existsb (fun i =>
    match i with
    | Message role content _ =>
        str_eqb role (lit "user")
        && any_input_text (str_contains (trim ENVIRONMENT_CONTEXT_START)) content
    | _ => false
    end) l.

Definition has_user_instructions (l : list item) : bool :=
  existsb (fun i =>
    match i with
    | Message role content _ => str_eqb role (lit "user") && is_user_instructions content
    | _ => false
    end) l.

(** The messages in front of the conversation. *)
Definition instruction_items (p : prompt) : list item :=
  if include_additional_instructions p then
    [new_message (lit "developer") (developer_prompt (model_descriptions p))] ++
    omap (fun message =>
      let trimmed := trim message in
      if str_eqb trimmed [] then None else Some (new_message (lit "developer") trimmed))
      (prepend_developer_messages p) ++
    match get_formatted_environment_context p with
    | Some ec =>
        if has_environment_context (input p) then [] else [new_message (lit "user") ec]
    | None => []
    end ++
    match get_formatted_user_instructions p with
    | Some ui => if has_user_instructions (input p) then [] else [ui]
    | None => []
    end
  else [].

(** The loop that drops repeated outputs of function calls. *)
Fixpoint dedup_outputs (seen : gset str) (l : list item) : list item :=
  match l with
  | [] => []
  | FunctionCallOutput call_id output :: l =>
      if bool_decide (call_id ∈ seen) then dedup_outputs seen l
      else FunctionCallOutput call_id output :: dedup_outputs ({[ call_id ]} ∪ seen) l
  | i :: l => i :: dedup_outputs seen l
  end.

Definition shows_image (i : item) : bool :=
  match i with Message _ content _ => has_image content | _ => false end.

Definition screenshot_positions (l : list item) : list nat :=
  fst <$> filter (fun e => shows_image e.2 = true) (imap pair l).

Definition positions_to_keep (positions : list nat) : gset nat :=
  list_to_set (option_list (head positions)) ∪
  list_to_set (drop (length positions - 4) positions).

Definition SCREENSHOT_PLACEHOLDER : str := lit "[screenshot no longer available]".

Definition drop_image (c : content_item) : content_item :=
  if is_image c then InputText SCREENSHOT_PLACEHOLDER else c.

Definition remove_screenshot (i : item) : item :=
  match i with
  | Message role content rest => Message role (drop_image <$> content) rest
  | _ => i
  end.

Definition limit_screenshots_in_input (l : list item) : list item :=
  let positions := screenshot_positions l in
  if length positions <=? 5 then l
  else
    let keep := positions_to_keep positions in
    foldl (fun l pos => if bool_decide (pos ∈ keep) then l else alter remove_screenshot pos l)
      l positions.

Definition get_formatted_input (p : prompt) : list item :=
  limit_screenshots_in_input
    (instruction_items p ++ dedup_outputs ∅ (input p) ++ status_items p).

(** ** The last steps *)

Definition strip_detail (c : function_call_output_content_item)
    : function_call_output_content_item :=
  match c with OutInputImage url _ => OutInputImage url None | _ => c end.

Definition map_content_items
    (f : function_call_output_content_item -> function_call_output_content_item)
    (output : function_call_output_payload) : function_call_output_payload :=
  match body output with
  | Text _ => output
  | ContentItems items => FunctionCallOutputPayload (ContentItems (f <$> items)) (success output)
  end.

Definition strip_function_output_image_details (l : list item) : list item :=
  (fun i =>
    match i with
    | FunctionCallOutput call_id output =>
        FunctionCallOutput call_id (map_content_items strip_detail output)
    | CustomToolCallOutput call_id output rest =>
        CustomToolCallOutput call_id (map_content_items strip_detail output) rest
    | _ => i
    end) <$> l.

Definition get_formatted_input_for_request (use_responses_lite : bool) (p : prompt) : list item :=
  let input := get_formatted_input p in
  if use_responses_lite then strip_function_output_image_details input else input.

Definition rewrite_image_generation_calls_for_input (l : list item) : list item :=
  (fun i =>
    match i with
    | ImageGenerationCall image_result _ =>
        let image_url :=
          if starts_with (lit "data:") image_result then image_result
          else lit "data:image/png;base64," ++ image_result in
        Message (lit "user") [InputImage image_url] new_fields
    | _ => i
    end) <$> l.

Definition is_spark (model_slug : str) : bool :=
  str_contains (lit "-spark") (to_ascii_lowercase model_slug).

Definition replace_image_payloads_for_model (model_slug : str) (l : list item) : list item :=
  if negb (is_spark model_slug) then l
  else
    (fun i =>
      match i with
      | Message role content rest =>
          Message role ((fun c => if is_image c then InputText SPARK_IMAGE_PLACEHOLDER else c)
                          <$> content) rest
      | FunctionCallOutput call_id output =>
          FunctionCallOutput call_id
            (map_content_items (fun c => match c with
               | OutInputImage _ _ => OutInputText SPARK_IMAGE_PLACEHOLDER | _ => c end) output)
      | _ => i
      end) <$> l.

Definition is_prefixed_response_item_id (id : str) : bool :=
  match split_once 95%N id with
  | Some (prefix, suffix) => negb (str_eqb prefix []) && negb (str_eqb suffix [])
  | None => false
  end.

(** [clear_id] empties an identifier without a prefix among the fields it is given. *)
Definition prepare_response_items_for_request (l : list item) : list item :=
  (fun i =>
    match i with
    | AdditionalTools rest => AdditionalTools (clear_id rest)
    | Reasoning content rest => Reasoning content (clear_id rest)
    | Message role content rest => Message role content (clear_id rest)
    | WebSearchCall rest => WebSearchCall (clear_id rest)
    | FunctionCall arguments call_id rest => FunctionCall arguments call_id (clear_id rest)
    | LocalShellCall id call_id rest =>
        LocalShellCall (id ← id; if is_prefixed_response_item_id id then Some id else None)
          call_id rest
    | ToolSearchCall call_id rest => ToolSearchCall call_id (clear_id rest)
    | CustomToolCall call_id input rest => CustomToolCall call_id input (clear_id rest)
    | _ => i
    end) <$> l.

(** What [ModelClient] sends for a prompt ([stream_responses] and its websocket variant). *)
Definition request_input (use_responses_lite : bool) (model_slug : str) (p : prompt)
    : list item :=
  prepare_response_items_for_request
    (replace_image_payloads_for_model model_slug
      (rewrite_image_generation_calls_for_input
        (get_formatted_input_for_request use_responses_lite p))).
End request_input.

(** ** Specification *)

(** The elements at the positions that satisfy [p], in order. *)
Definition keep_at {A} (p : nat -> bool) (l : list A) : list A :=
  snd <$> filter (fun e => p e.1 = true) (imap pair l).

Section specification.
Context {opaque : Type}.
Notation item := (response_item opaque).

Definition output_of_call (i : item) : option str :=
  match i with FunctionCallOutput call_id _ => Some call_id | _ => None end.

(** An output is repeated when one of the items in front has the same identifier. *)
Definition repeated_output (l : list item) (k : nat) : bool :=
  match l !! k ≫= output_of_call with
  | Some id => str_mem id (omap output_of_call (take k l))
  | None => false
  end.

(** A message with an image is old when it is neither the first one nor among the last
    four, and there are more than five of them. *)
Definition old_screenshot (l : list item) (k : nat) : bool :=
  let positions := screenshot_positions l in
  (5 <? length positions) && bool_decide (k ∈ drop 1 (take (length positions - 4) positions)).

Definition shown (l : list item) : list item :=
  imap (fun k i => if old_screenshot l k then remove_screenshot i else i) l.
End specification.

(** A marker, or an image before which the last marker or image is a marker. *)
Definition ephemeral_at (content : list content_item) (k : nat) : bool :=
  match content !! k with
  | Some c =>
      is_ephemeral_marker c ||
      is_image c &&
      match last (filter (fun c => is_ephemeral_marker c || is_image c = true) (take k content)) with
      | Some before => is_ephemeral_marker before
      | None => false
      end
  | None => false
  end.

(** ** Lemmas *)

Lemma keep_at_cons {A} (p : nat -> bool) (x : A) (l : list A) :
  keep_at p (x :: l) = (if p 0 then [x] else []) ++ keep_at (fun k => p (S k)) l.
Proof.
  unfold keep_at. cbn [imap].
  assert (snd <$> filter (fun e => p e.1 = true) (imap (pair ∘ S) l) =
    snd <$> filter (fun e => p (S e.1) = true) (imap pair l)) as E.
  { assert (imap (pair ∘ S) l = (fun e => (S e.1, e.2)) <$> imap pair l) as ->.
    { rewrite fmap_imap. by apply imap_ext. }
    generalize (imap pair l). intros l'. induction l' as [|e l' IH]; [done|].
    rewrite fmap_cons, !filter_cons. cbn [fst]. destruct (decide (p (S e.1) = true));
      by rewrite ?fmap_cons, IH. }
  rewrite (filter_cons (fun e => p e.1 = true)). cbn [fst].
  destruct (decide (p 0 = true)) as [Hp|Hp]; cbn [fmap list_fmap snd]; rewrite E.
  - by rewrite Hp.
  - by apply not_true_is_false in Hp as ->.
Qed.

Lemma keep_at_ext {A} (p q : nat -> bool) (l : list A) :
  (forall k, k < length l -> p k = q k) -> keep_at p l = keep_at q l.
Proof.
  revert p q. induction l as [|x l IH]; intros p q H; [done|].
  rewrite !keep_at_cons, (H 0) by (cbn; lia). f_equal. apply IH. intros k Hk. apply H. cbn. lia.
Qed.

Section lemmas.
Context {opaque : Type}.
Notation item := (response_item opaque).

(** *** Ephemeral content *)

(** The loop's state: whether the last marker or image so far is a marker. *)
Definition after_marker (seen : list content_item) : bool :=
  match last (filter (fun c => is_ephemeral_marker c || is_image c = true) seen) with
  | Some before => is_ephemeral_marker before
  | None => false
  end.

Lemma after_marker_snoc seen c :
  after_marker (seen ++ [c]) =
  if is_ephemeral_marker c then true else if is_image c then false else after_marker seen.
Proof.
  unfold after_marker. rewrite filter_app, filter_cons, filter_nil.
  destruct (is_ephemeral_marker c) eqn:E1; cbn [orb].
  { destruct (decide (true = true)); [|done]. by rewrite last_snoc. }
  destruct (is_image c) eqn:E2.
  - destruct (decide (true = true)); [|done]. by rewrite last_snoc.
  - destruct (decide (false = true)); [done|]. by rewrite app_nil_r.
Qed.

Lemma filter_ephemeral_keep seen content :
  filter_ephemeral (after_marker seen) content =
  keep_at (fun k => negb (ephemeral_at (seen ++ content) (length seen + k))) content.
Proof.
  revert seen. induction content as [|c content IH]; intros seen; [done|].
  rewrite keep_at_cons, Nat.add_0_r. cbn [filter_ephemeral].
  unfold ephemeral_at at 1. rewrite list_lookup_middle by done. rewrite take_app_length.
  fold (after_marker seen).
  assert (keep_at (fun k => negb (ephemeral_at (seen ++ c :: content) (length seen + S k))) content
    = filter_ephemeral (after_marker (seen ++ [c])) content) as ->.
  { rewrite IH. apply keep_at_ext. intros k _. rewrite length_app, <- app_assoc. cbn [length app].
    do 2 f_equal. lia. }
  rewrite after_marker_snoc.
  destruct (is_ephemeral_marker c), (is_image c), (after_marker seen); done.
Qed.

(** *** Repeated outputs *)

Lemma dedup_outputs_keep (seen : gset str) (before l : list item) :
  (forall id, id ∈ seen <-> id ∈ omap output_of_call before) ->
  dedup_outputs seen l =
  keep_at (fun k => negb (repeated_output (before ++ l) (length before + k))) l.
Proof.
  revert seen before. induction l as [|i l IH]; intros seen before Hs; [done|].
  rewrite keep_at_cons, Nat.add_0_r. unfold repeated_output at 1.
  rewrite list_lookup_middle, take_app_length by done. cbn [mbind option_bind].
  assert (keep_at (fun k => negb (repeated_output (before ++ i :: l) (length before + S k))) l
    = keep_at (fun k => negb (repeated_output ((before ++ [i]) ++ l) (length (before ++ [i]) + k))) l)
    as ->.
  { apply keep_at_ext. intros k _. rewrite length_app, <- app_assoc. cbn [length app].
    do 2 f_equal. lia. }
  destruct i; cbn [dedup_outputs output_of_call];
    try (cbn [negb app]; f_equal; apply IH; intros id0; rewrite omap_app;
         cbn [omap list_omap output_of_call]; rewrite app_nil_r; apply Hs).
  assert (str_mem call_id (omap output_of_call before) = bool_decide (call_id ∈ seen)) as ->.
  { apply eq_true_iff_eq. rewrite str_mem_elem, bool_decide_eq_true. by rewrite Hs. }
  case_bool_decide as Hin; cbn [negb app].
  - apply IH. intros id. rewrite omap_app. cbn. rewrite elem_of_app, list_elem_of_singleton, <- Hs.
    set_solver.
  - f_equal. apply IH. intros id. rewrite omap_app. cbn.
    rewrite elem_of_app, list_elem_of_singleton, <- Hs. set_solver.
Qed.

(** *** Screenshots *)

Lemma elem_screenshot_positions (l : list item) k :
  k ∈ screenshot_positions l <-> exists i, l !! k = Some i /\ shows_image i = true.
Proof.
  unfold screenshot_positions. rewrite list_elem_of_fmap. split.
  - intros ([k' i] & -> & [Hi H]%list_elem_of_filter). cbn in *.
    apply elem_of_lookup_imap in H as (n & y & [= -> ->] & Hl). eauto.
  - intros (i & Hl & Hi). exists (k, i). split; [done|]. apply list_elem_of_filter.
    split; [done|]. apply elem_of_lookup_imap. eauto.
Qed.

Lemma fst_imap_pair {A} (l : list A) (n : nat) :
  fst <$> imap (fun k x => (n + k, x)) l = seq n (length l).
Proof.
  revert n. induction l as [|x l IH]; intros n; [done|]. cbn. rewrite Nat.add_0_r. f_equal.
  rewrite <- IH. f_equal. apply imap_ext. intros k y _. cbn. f_equal. lia.
Qed.

Lemma NoDup_screenshot_positions (l : list item) : NoDup (screenshot_positions l).
Proof.
  unfold screenshot_positions. eapply sublist_NoDup with (l2 := seq 0 (length l)); [apply NoDup_seq|].
  rewrite <- (fst_imap_pair l 0). apply fmap_sublist, sublist_filter.
Qed.

Lemma foldl_alter (f : item -> item) (keep : gset nat) (positions : list nat) (l : list item) :
  NoDup positions ->
  foldl (fun l pos => if bool_decide (pos ∈ keep) then l else alter f pos l) l positions =
  imap (fun k i => if bool_decide (k ∈ positions) && bool_decide (k ∉ keep) then f i else i) l.
Proof.
  revert l. induction positions as [|pos positions IH]; intros l Hn; cbn [foldl].
  { symmetry. apply list_eq. intros k. rewrite list_lookup_imap. by destruct (l !! k). }
  apply NoDup_cons in Hn as [Hpos Hn]. rewrite IH by done.
  apply list_eq. intros k. rewrite !list_lookup_imap.
  destruct (decide (k = pos)) as [->|Hk].
  - rewrite (bool_decide_eq_true_2 (pos ∈ pos :: positions)) by set_solver.
    rewrite (bool_decide_eq_false_2 (pos ∈ positions)) by done. cbn [andb].
    destruct (decide (pos ∈ keep)).
    + rewrite bool_decide_eq_true_2, (bool_decide_eq_false_2 (pos ∉ keep)) by set_solver.
      by destruct (l !! pos).
    + rewrite bool_decide_eq_false_2, (bool_decide_eq_true_2 (pos ∉ keep)) by done.
      rewrite list_lookup_alter_eq. by destruct (l !! pos).
  - rewrite (bool_decide_ext (k ∈ pos :: positions) (k ∈ positions)) by set_solver.
    destruct (bool_decide (pos ∈ keep)); [done|]. by rewrite list_lookup_alter_ne.
Qed.

Lemma old_screenshot_keep (l : list item) k :
  5 < length (screenshot_positions l) ->
  bool_decide (k ∈ screenshot_positions l)
    && bool_decide (k ∉ positions_to_keep (screenshot_positions l)) = old_screenshot l k.
Proof.
  unfold old_screenshot, positions_to_keep. pose proof (NoDup_screenshot_positions l) as Hn.
  revert Hn. generalize (screenshot_positions l). intros ps Hn Hlen.
  rewrite (proj2 (Nat.ltb_lt 5 _) Hlen). cbn [andb].
  apply eq_true_iff_eq. rewrite andb_true_iff, !bool_decide_eq_true.
  rewrite not_elem_of_union, !elem_of_list_to_set.
  rewrite <- (take_drop (length ps - 4) ps) in Hn. apply NoDup_app in Hn as (Hn1 & Hn2 & _).
  assert (k ∈ ps <-> k ∈ take (length ps - 4) ps \/ k ∈ drop (length ps - 4) ps) as ->.
  { rewrite <- elem_of_app. by rewrite take_drop. }
  destruct ps as [|p ps]; [cbn in Hlen; lia|].
  replace (length (p :: ps) - 4) with (S (length ps - 4)) in * by (cbn in *; lia).
  cbn [take drop head option_list] in *. apply NoDup_cons in Hn1 as [Hp _].
  change (option_list (Some p)) with [p]. rewrite drop_0, list_elem_of_singleton, elem_of_cons.
  specialize (Hn2 k). rewrite elem_of_cons in Hn2. set_solver.
Qed.

Lemma limit_screenshots_shown (l : list item) : limit_screenshots_in_input l = shown l.
Proof.
  unfold limit_screenshots_in_input, shown. destruct (Nat.leb_spec (length (screenshot_positions l)) 5).
  - apply list_eq. intros k. rewrite list_lookup_imap. unfold old_screenshot.
    rewrite (proj2 (Nat.ltb_ge 5 _)) by done. by destruct (l !! k).
  - rewrite foldl_alter by apply NoDup_screenshot_positions. apply imap_ext. intros k i _.
    by rewrite old_screenshot_keep.
Qed.

Lemma shows_image_removed (i : item) : shows_image (remove_screenshot i) = false.
Proof.
  destruct i; cbn; try done. unfold has_image. apply not_true_is_false. rewrite existsb_exists.
  intros (c & Hc & H). apply list_elem_of_In, list_elem_of_fmap in Hc as (c' & -> & _).
  unfold drop_image in H. destruct (is_image c') eqn:E; [done|]. by destruct c'.
Qed.

Lemma shown_at_most_five (l : list item) : length (screenshot_positions (shown l)) <= 5.
Proof.
  set (ps := screenshot_positions l).
  assert (forall k, k ∈ screenshot_positions (shown l) -> k ∈ ps /\ old_screenshot l k = false) as H.
  { intros k (i & Hl & Hi)%elem_screenshot_positions. unfold shown in Hl.
    rewrite list_lookup_imap in Hl. apply fmap_Some in Hl as (x & Hx & ->).
    destruct (old_screenshot l k); [by rewrite shows_image_removed in Hi|].
    split; [|done]. apply elem_screenshot_positions. eauto. }
  destruct (Nat.ltb_spec 5 (length ps)) as [Hlen|Hlen].
  - trans (length (option_list (head ps) ++ drop (length ps - 4) ps)).
    + apply submseteq_length, NoDup_submseteq; [apply NoDup_screenshot_positions|].
      intros k [Hk Ho]%H. rewrite <- old_screenshot_keep in Ho by done.
      apply andb_false_iff in Ho. rewrite !bool_decide_eq_false in Ho.
      assert (k ∈ positions_to_keep ps) as Hin by (destruct Ho as [|Ho]; [done|by apply dec_stable]).
      unfold positions_to_keep in Hin.
      by rewrite elem_of_union, !elem_of_list_to_set, <- elem_of_app in Hin.
    + rewrite length_app, length_drop. destruct ps; cbn in *; lia.
  - etrans; [|exact Hlen]. apply submseteq_length, NoDup_submseteq;
      [apply NoDup_screenshot_positions|]. by intros k [? _]%H.
Qed.

Lemma dedup_outputs_unique (seen : gset str) (l : list item) :
  NoDup (omap output_of_call (dedup_outputs seen l)) /\
  forall id, id ∈ omap output_of_call (dedup_outputs seen l) -> id ∉ seen.
Proof.
  revert seen. induction l as [|i l IH]; intros seen; [split; [constructor|set_solver]|].
  destruct i; cbn [dedup_outputs]; try apply IH.
  case_bool_decide as Hin; [apply IH|]. destruct (IH ({[call_id]} ∪ seen)) as [Hn Hs].
  cbn. split.
  - constructor; [|done]. intros H%Hs. set_solver.
  - intros id [->|H%Hs]%elem_of_cons; [done|set_solver].
Qed.

Lemma strip_encrypted_fmap (clear_encrypted : opaque -> opaque) (chatgpt : bool) (l : list item) :
  (if negb chatgpt then strip_encrypted clear_encrypted <$> l else l) =
  (fun i => match i with
    | Reasoning content rest => Reasoning content (if chatgpt then rest else clear_encrypted rest)
    | _ => i end) <$> l.
Proof.
  destruct chatgpt; [|done]. cbn [negb]. induction l as [|i l IH]; [done|].
  rewrite fmap_cons, <- IH. by destruct i.
Qed.
End lemmas.

(** ** Properties *)

Section properties.
Context {opaque : Type} (new_fields : opaque).
Context (clear_turn clear_encrypted clear_id : opaque -> opaque).
Context (developer_prompt : option str -> str) (print_context : environment_context -> str).
Context (is_env_snapshot is_env_delta : response_item opaque -> bool).
Notation formatted := (get_formatted_input new_fields developer_prompt print_context).
Notation instructions := (instruction_items new_fields developer_prompt print_context).
Notation item := (response_item opaque).

(** *** What the input consists of, independently of the code *)

Definition text_message (role : string) (text : str) : item :=
  Message (lit role) [InputText text] new_fields.

(** A message of the user with a text that shows the tag of the environment context. *)
Definition tells_context (i : item) : Prop :=
  exists content rest text, i = Message (lit "user") content rest /\
    InputText text ∈ content /\ str_contains (lit "<environment_context>") text = true.

(** A message of the user that is a single text, the instructions in the new or the old form. *)
Definition tells_instructions (i : item) : Prop :=
  exists text rest, i = Message (lit "user") [InputText text] rest /\
    (starts_with (lit "# AGENTS.md instructions for ") text = true \/
     starts_with (lit "<user_instructions>") text = true).

(** The messages in front: the developer's, the additional ones that are not blank, the
    environment context and the instructions of the user unless the conversation has them. *)
Definition preamble (p : prompt (opaque:=opaque)) (front : list item) : Prop :=
  if include_additional_instructions p then
    exists context user, front =
      text_message "developer" (developer_prompt (model_descriptions p)) ::
      (text_message "developer" <$> filter (fun t => t <> []) (trim <$> prepend_developer_messages p)) ++
      context ++ user /\
      match environment_context_of p with
      | None => context = []
      | Some c =>
          (Exists tells_context (input p) /\ context = []) \/
          (~ Exists tells_context (input p) /\
           context = [text_message "user" (lit "<environment_context>" ++ [LF; LF] ++ print_context c ++
                                           [LF; LF] ++ lit "</environment_context>")])
      end /\
      match user_instructions_of p with
      | None => user = []
      | Some text =>
          (Exists tells_instructions (input p) /\ user = []) \/
          (~ Exists tells_instructions (input p) /\
           user = [text_message "user" (lit "# AGENTS.md instructions for " ++
                     default [] (c ← environment_context_of p; ctx_cwd c) ++ [LF; LF] ++
                     lit "<INSTRUCTIONS>" ++ [LF] ++ text ++ [LF] ++ lit "</INSTRUCTIONS>")])
      end
  else front = [].

(** The number of messages with an image. *)
Definition image_message (i : item) : bool :=
  match i with
  | Message _ content _ => existsb (fun c => match c with InputImage _ => true | _ => false end) content
  | _ => false
  end.

Definition images (l : list item) : nat := length (filter (fun i => image_message i = true) l).

Definition with_placeholder (i : item) : item :=
  match i with
  | Message role content rest =>
      Message role ((fun c => match c with
                              | InputImage _ => InputText (lit "[screenshot no longer available]")
                              | c => c end) <$> content) rest
  | _ => i
  end.

(** [out] is [l] in which the images of exactly the messages behind the first and before the
    last four ones with an image are replaced. *)
Definition limited_images (l out : list item) : Prop :=
  length out = length l /\
  forall k i, l !! k = Some i ->
    out !! k = Some (if bool_decide (1 <= images (take k l) /\ 4 <= images (drop (S k) l))
                     then with_placeholder i else i).

Lemma shows_image_message (i : item) : shows_image i = image_message i.
Proof. by destruct i. Qed.

Lemma remove_screenshot_images (i : item) : remove_screenshot i = with_placeholder i.
Proof.
  destruct i as [|role content rest| | | | | | | | | | | | | |]; try done. cbn. f_equal.
  apply list_fmap_ext. by intros k [].
Qed.

Lemma with_placeholder_plain (i : item) : image_message i = false -> with_placeholder i = i.
Proof.
  destruct i as [|role content rest| | | | | | | | | | | | | |]; try done. cbn. intros H. f_equal.
  induction content as [|[t|t|u] l IH]; [done|..]; cbn in *; try discriminate; by rewrite IH.
Qed.

Lemma images_app (l k : list item) : images (l ++ k) = images l + images k.
Proof. unfold images. by rewrite filter_app, length_app. Qed.

Lemma screenshot_positions_app (l k : list item) :
  screenshot_positions (l ++ k) = screenshot_positions l ++ (Nat.add (length l) <$> screenshot_positions k).
Proof.
  unfold screenshot_positions. rewrite imap_app, filter_app, fmap_app. f_equal.
  assert (forall n, fst <$> filter (fun e : nat * item => shows_image e.2 = true)
      (imap (fun i x => (n + i, x)) k) =
    Nat.add n <$> (fst <$> filter (fun e : nat * item => shows_image e.2 = true) (imap pair k))) as H.
  { intros n. rewrite <- list_fmap_compose.
    assert (imap (fun i x => (n + i, x)) k = (fun e => (n + e.1, e.2)) <$> imap pair k) as ->
      by (by rewrite fmap_imap).
    generalize (imap pair k). intros es. induction es as [|e es IH]; [done|].
    cbn [fmap list_fmap]. rewrite !filter_cons. cbn [snd].
    destruct (decide (shows_image e.2 = true)); cbn [fmap list_fmap]; by rewrite IH. }
  apply (H (length l)).
Qed.

Lemma images_positions (l : list item) : length (screenshot_positions l) = images l.
Proof.
  induction l as [|i l IH] using rev_ind; [done|].
  rewrite screenshot_positions_app, images_app, !length_app, length_fmap, IH. f_equal.
  unfold screenshot_positions, images. cbn [imap]. rewrite !filter_cons, !filter_nil. cbn [snd].
  rewrite shows_image_message. by destruct (decide (image_message i = true)).
Qed.

(** The position of an image among the images is the number of those before it. *)
Lemma old_screenshot_counts (l : list item) k i :
  l !! k = Some i -> image_message i = true ->
  old_screenshot l k = bool_decide (1 <= images (take k l) /\ 4 <= images (drop (S k) l)).
Proof.
  intros Hk Hi. rewrite <- (take_drop_middle l k i Hk) at 1. unfold old_screenshot.
  rewrite screenshot_positions_app.
  change (i :: drop (S k) l) with ([i] ++ drop (S k) l). rewrite screenshot_positions_app.
  assert (screenshot_positions [i] = [0]) as ->.
  { unfold screenshot_positions. cbn [imap]. rewrite filter_cons, filter_nil, decide_True; [done|].
    cbn [snd]. by rewrite shows_image_message. }
  assert (length (take k l) = k) as Hlen
    by (apply length_take_le; apply lookup_lt_Some in Hk; lia).
  rewrite fmap_app. cbn [fmap list_fmap length app]. rewrite Hlen, Nat.add_0_r.
  pose proof (images_positions (take k l)) as Ha. pose proof (images_positions (drop (S k) l)) as Hb.
  assert (Forall (fun x => x < k) (screenshot_positions (take k l))) as Hbefore.
  { apply Forall_forall. intros x (j & Hj & _)%elem_screenshot_positions.
    apply lookup_lt_Some in Hj. by rewrite Hlen in Hj. }
  revert Ha Hb Hbefore. generalize (screenshot_positions (take k l)), (screenshot_positions (drop (S k) l)).
  generalize (images (take k l)), (images (drop (S k) l)). intros na nb ps qs <- <- Hbefore.
  rewrite length_app. cbn [length]. rewrite !length_fmap.
  set (qs' := Nat.add k <$> (Nat.add 1 <$> qs)).
  assert (k ∉ qs') as Hq.
  { unfold qs'. rewrite <- list_fmap_compose. intros (x & Hx & _)%list_elem_of_fmap. unfold compose in Hx. lia. }
  assert (k ∉ ps) as Hp by (intros H; rewrite Forall_forall in Hbefore; apply Hbefore in H; lia).
  apply eq_true_iff_eq. rewrite andb_true_iff, !bool_decide_eq_true, Nat.ltb_lt.
  split.
  - intros [Hlen5 Hin]. destruct ps as [|p ps]; cbn [length] in *.
    + replace (0 + S (length qs) - 4) with (S (length qs) - 4) in Hin by lia.
      cbn [app] in Hin. destruct (S (length qs) - 4); [by apply elem_of_nil in Hin|].
      cbn [take drop] in Hin. destruct Hq. eapply elem_of_sublist; [exact Hin|apply sublist_take].
    + split; [lia|]. destruct (decide (4 <= length qs)); [done|].
      assert (take (S (length ps) + S (length qs) - 4) ((p :: ps) ++ k :: qs')
        = take (S (length ps) + S (length qs) - 4) (p :: ps)) as Ht.
      { rewrite take_app. replace (S (length ps) + S (length qs) - 4 - length (p :: ps)) with 0 by (cbn; lia).
        by rewrite app_nil_r. }
      rewrite Ht in Hin. destruct Hp. eapply elem_of_sublist; [exact Hin|].
      etrans; [apply sublist_drop|apply sublist_take].
  - intros [H1 H4]. split; [lia|]. destruct ps as [|p ps]; [cbn in H1; lia|]. cbn [length app] in *.
    replace (S (length ps) + S (length qs) - 4) with (S (length ps + (S (length qs - 4)))) by lia.
    cbn [take drop]. rewrite skipn_O, take_app.
    apply elem_of_app. right. replace (length ps + S (length qs - 4) - length ps) with (S (length qs - 4)) by lia.
    by left.
Qed.

Lemma shown_limited (l : list item) : limited_images l (shown l).
Proof.
  split; [apply length_imap|]. intros k i Hk. unfold shown. rewrite list_lookup_imap, Hk. cbn. f_equal.
  destruct (image_message i) eqn:Hi.
  - rewrite (old_screenshot_counts l k i) by done. by rewrite remove_screenshot_images.
  - rewrite remove_screenshot_images, with_placeholder_plain by done. by repeat case_match.
Qed.

Lemma has_context_tells (l : list item) :
  has_environment_context l = true <-> Exists tells_context l.
Proof.
  unfold has_environment_context. rewrite existsb_exists, Exists_exists.
  setoid_rewrite <- list_elem_of_In. apply exist_proper. intros i. apply and_iff_compat_l.
  unfold tells_context. split.
  - destruct i as [|role content rest| | | | | | | | | | | | | |]; try done.
    intros [Hr Hc]%andb_true_iff. apply str_eqb_eq in Hr as ->.
    unfold any_input_text in Hc. apply existsb_exists in Hc as (c & Hc & Ht).
    apply list_elem_of_In in Hc. destruct c as [text|text|url]; try done.
    exists content, rest, text. split; [done|]. split; [done|]. exact Ht.
  - intros (content & rest & text & -> & Hc & Ht). cbn. unfold any_input_text.
    apply existsb_exists. exists (InputText text). split; [by apply list_elem_of_In|]. exact Ht.
Qed.

Lemma has_instructions_tell (l : list item) :
  has_user_instructions l = true <-> Exists tells_instructions l.
Proof.
  unfold has_user_instructions. rewrite existsb_exists, Exists_exists.
  setoid_rewrite <- list_elem_of_In. apply exist_proper. intros i. apply and_iff_compat_l.
  unfold tells_instructions. split.
  - destruct i as [|role content rest| | | | | | | | | | | | | |]; try done.
    intros [Hr Hc]%andb_true_iff. apply str_eqb_eq in Hr as ->.
    unfold is_user_instructions in Hc. destruct content as [|[text|text|url] [|]]; try done.
    exists text, rest. split; [done|]. by apply orb_true_iff in Hc.
  - intros (text & rest & -> & Ht). cbn. by apply orb_true_iff.
Qed.

Lemma instructions_preamble (p : prompt (opaque:=opaque)) : preamble p (instructions p).
Proof.
  unfold preamble, instruction_items. destruct (include_additional_instructions p); [|done].
  eexists _, _. split; [|split]; cycle 1.
  - instantiate (1 := match get_formatted_environment_context print_context p with
      | Some ec => if has_environment_context (input p) then [] else [new_message new_fields (lit "user") ec]
      | None => [] end).
    unfold get_formatted_environment_context.
    destruct (environment_context_of p) as [c|]; cbn [fmap option_fmap option_map]; [|done].
    pose proof (has_context_tells (input p)) as Hh.
    destruct (has_environment_context (input p)); [left; split; [by apply Hh|done]|right].
    split; [intros Hx; apply Hh in Hx; discriminate|]. unfold text_message, new_message,
      ENVIRONMENT_CONTEXT_START, ENVIRONMENT_CONTEXT_END. by rewrite <- !app_assoc.
  - instantiate (1 := match get_formatted_user_instructions new_fields p with
      | Some ui => if has_user_instructions (input p) then [] else [ui] | None => [] end).
    unfold get_formatted_user_instructions.
    destruct (user_instructions_of p) as [text|]; cbn [mbind option_bind]; [|done].
    pose proof (has_instructions_tell (input p)) as Hh.
    destruct (has_user_instructions (input p)); [left; split; [by apply Hh|done]|right].
    split; [intros Hx; apply Hh in Hx; discriminate|done].
  - cbn [app]. f_equal. f_equal. induction (prepend_developer_messages p) as [|t l IH]; [done|].
    cbn [omap list_omap fmap list_fmap]. rewrite filter_cons. destruct (str_eqb (trim t) []) eqn:E.
    + apply str_eqb_eq in E. by rewrite decide_False by (by intros ?).
    + apply str_eqb_neq in E. rewrite decide_True by done. cbn [fmap list_fmap]. by rewrite IH.
Qed.

(** C19: what [get_formatted_input] returns (images that the client makes of generated ones
    come on top of it): the preamble, the conversation in its order with exactly the first
    output of each function call, and the status items; a message with an image behind which
    at least four more come, and which is not the first, shows a placeholder in the place of
    each of its images; all else is unchanged; so that at most five messages have images, and
    no function call's output comes twice in the conversation. *)
Theorem formatted_input_shown (p : prompt (opaque:=opaque)) :
  let conversation := keep_at (fun k => negb (repeated_output (input p) k)) (input p) in
  (exists front, preamble p front /\
     limited_images (front ++ conversation ++ status_items p) (formatted p)) /\
  images (formatted p) <= 5 /\
  NoDup (omap output_of_call conversation).
Proof.
  cbv zeta.
  assert (dedup_outputs ∅ (input p) =
    keep_at (fun k => negb (repeated_output (input p) k)) (input p)) as <-
    by (apply (dedup_outputs_keep ∅ []); set_solver).
  unfold get_formatted_input. rewrite limit_screenshots_shown.
  split; [|split].
  - exists (instructions p). split; [apply instructions_preamble|apply shown_limited].
  - rewrite <- images_positions. apply shown_at_most_five.
  - apply dedup_outputs_unique.
Qed.
(** A turn's input is the timeline, the history in its order and the items of the turn.
    A historical message of the user has lost exactly its markers of ephemeral content and
    the image after each of them; nothing else is left out unless the new environment
    context is on, which hides the old one's messages; reasoning is readable only by the
    account that is logged in with ChatGPT. *)
Theorem turn_input_spec (v2 ctx_ui chatgpt : bool) timeline (h : conversation_history opaque) extra :
  turn_input_with_history clear_turn clear_encrypted is_env_snapshot is_env_delta
    v2 ctx_ui chatgpt timeline h extra =
  (fun i => match i with
    | Reasoning content rest => Reasoning content (if chatgpt then rest else clear_encrypted rest)
    | _ => i end) <$>
  (default [] timeline ++
   ((fun i => match i with
     | Message role content rest =>
         Message role (if str_eqb role (lit "user")
                       then keep_at (fun k => negb (ephemeral_at content k)) content else content)
           (clear_turn rest)
     | _ => i end) <$>
     filter (fun i => v2 = true /\ ctx_ui = true -> is_legacy_env_context i = false) (items h)) ++
   filter (fun i => v2 = true /\ ctx_ui = true -> is_env_snapshot i = false /\
                    is_env_delta i = false) extra).
Proof.
  unfold turn_input_with_history.
  assert (forall content, filter_ephemeral false content =
    keep_at (fun k => negb (ephemeral_at content k)) content) as He
    by (intros content; apply (filter_ephemeral_keep [])).
  assert (filter (fun i => negb (v2 && ctx_ui && is_legacy_env_context i) = true) (contents h) =
    filter (fun i => v2 = true /\ ctx_ui = true -> is_legacy_env_context i = false) (items h)) as ->.
  { apply list_filter_iff. intros i. destruct v2, ctx_ui; cbn; destruct (is_legacy_env_context i);
      naive_solver. }
  assert ((if v2 && ctx_ui then filter (fun i => negb (is_env_snapshot i) && negb (is_env_delta i) = true) extra
    else extra) = filter (fun i => v2 = true /\ ctx_ui = true -> is_env_snapshot i = false /\
                    is_env_delta i = false) extra) as ->.
  { destruct (v2 && ctx_ui) eqn:E.
    - apply list_filter_iff. intros i. apply andb_true_iff in E as [-> ->].
      destruct (is_env_snapshot i), (is_env_delta i); naive_solver.
    - clear -E. induction extra as [|i extra IH]; [done|]. rewrite filter_cons, <- IH.
      destruct (decide _) as [|Hn]; [done|]. destruct Hn. intros [-> ->]. done. }
  assert (forall l, filter_history_item clear_turn <$> l = (fun i => match i with
     | Message role content rest =>
         Message role (if str_eqb role (lit "user")
                       then keep_at (fun k => negb (ephemeral_at content k)) content else content)
           (clear_turn rest)
     | _ => i end) <$> l) as ->.
  { intros l. apply list_fmap_ext. intros _ i _. unfold filter_history_item. destruct i; try done.
    rewrite He. by destruct (str_eqb role (lit "user")). }
  apply strip_encrypted_fmap.
Qed.

(** No image is left in a message or in the output of a function call. *)
Definition without_images (i : response_item opaque) : Prop :=
  match i with
  | Message _ content _ => has_image content = false
  | FunctionCallOutput _ output =>
      match body output with
      | Text _ => True
      | ContentItems items => Forall (fun c => match c with OutInputImage _ _ => False | _ => True end) items
      end
  | ImageGenerationCall _ _ => False
  | _ => True
  end.

(** A request to a model that cannot read images holds none, in no message and in no
    function call's output, generated images included. *)
Theorem spark_request_without_images lite model_slug (p : prompt (opaque:=opaque)) :
  is_spark model_slug = true ->
  Forall without_images
    (request_input new_fields clear_id developer_prompt print_context lite model_slug p).
Proof.
  intros Hs. unfold request_input, replace_image_payloads_for_model. rewrite Hs. cbn [negb].
  unfold prepare_response_items_for_request, rewrite_image_generation_calls_for_input.
  rewrite <- !list_fmap_compose. apply Forall_fmap, Forall_forall. intros i _.
  destruct i; cbn; try done.
  - unfold has_image. apply not_true_is_false. rewrite existsb_exists.
    intros (c & [c' [-> _]]%list_elem_of_In%list_elem_of_fmap & H).
    destruct (is_image c') eqn:E; [done|]. by destruct c'.
  - unfold map_content_items. destruct (body output) as [t|l] eqn:E; cbn; [by rewrite E|].
    apply Forall_fmap, Forall_forall. by intros [] _.
Qed.
End properties.

(** ** Concrete runs *)

Module RequestRuns.
Definition no_prompt (_ : option str) : str := lit "developer".
Definition no_context (_ : environment_context) : str := [].

Definition image_output : response_item unit :=
  CustomToolCallOutput (lit "c1")
    (FunctionCallOutputPayload (ContentItems [OutInputImage (lit "data:x") None]) None) tt.

Definition plain (l : list (response_item unit)) : prompt := Prompt l [] None None false [] None.

Lemma spark_request_without_images_witness :
  is_spark (lit "gpt-5.3-codex-spark") = true /\
  Forall without_images (request_input tt id no_prompt no_context false
    (lit "gpt-5.3-codex-spark") (plain [ImageGenerationCall (lit "Zm9v") tt])).
Proof.
  split; [by vm_compute|].
  apply (spark_request_without_images tt id no_prompt no_context); by vm_compute.
Defined.

(** The image in the output of a custom tool is sent to such a model. *)
Lemma spark_keeps_custom_images :
  request_input tt id no_prompt no_context false (lit "gpt-5.3-codex-spark") (plain [image_output])
  = [image_output].
Proof. by vm_compute. Qed.

(** The limit does not count generated images, which become messages after it. *)
Lemma generated_images_unlimited :
  length (screenshot_positions (request_input tt id no_prompt no_context false (lit "gpt-5.3")
    (plain (replicate 9 (ImageGenerationCall (lit "Zm9v") tt))))) = 9.
Proof. by vm_compute. Qed.

(** Compaction takes the instructions of the user for a part of the conversation: it looks
    for the older tag. *)
Lemma instructions_in_summary :
  collect_compaction_snippets
    [user_instructions_item tt (UserInstructions (lit "/repo") (lit "Use tabs"))]
  = [CompactionSnippet (lit "user") (lit "# AGENTS.md instructions for /repo" ++ [LF; LF] ++
      lit "<INSTRUCTIONS>" ++ [LF] ++ lit "Use tabs" ++ [LF] ++ lit "</INSTRUCTIONS>")].
Proof. by vm_compute. Qed.
End RequestRuns.
