(* ===== verification/TurnQueue.v ===== *)
(** * Tasks and waiting input of a session

    A session runs at most one task at a time; input that comes while it runs waits in one
    of four queues.  This file models the [State] of [core/src/codex/session.rs] as far as
    tasks, queues and questions go, the operations on it, the submissions that drive it and
    the choice of what follows a task ([submission_loop], [spawn_user_turn] and
    [handle_follow_up_action] of [core/src/codex/streaming.rs]).

    Tasks are started on the runtime and stopped by an abort handle: both are entries of a
    log.  An interrupt is carried out by a task of the runtime, which the model runs at once.
    Not modelled: the events to the interface, the automatic compaction before a turn
    of a user, the contexts that the hooks of a project add.  Whether such a hook blocks a
    prompt and how a long message is cut are parameters ([UserMessage] has the latter), and
    so is the cleaning of the history before a turn ([HistoryCleanup]). *)

From stdpp Require Import base list gmap.
From S2P Require Import Prelude History UserMessage PendingAnswers.
Open Scope record_scope.

(** ** Data *)

Inductive agent_task_kind := Regular | Review | Compact.

Inductive task_origin_kind :=
| UserTurn | QueuedUserTurn | PendingInputTurn | PostTurn | OutOfTurnDeveloper | ReviewTurn
| ManualCompactTask.

Record agent_task := AgentTask {
  task_sub_id : str;
  task_kind : agent_task_kind;
  task_origin : task_origin_kind;
  visible_to_user : bool
}.

Inductive turn_abort_reason := Interrupted | Replaced | ReviewEnded.
Inductive wait_interrupt_reason_kind := WaitUserMessage | WaitSessionAborted.

Definition PENDING_ONLY_SENTINEL : str := lit "__code_pending_only__".
Definition POST_TURN_PENDING_ONLY_SENTINEL : str := lit "__code_post_turn_pending_only__".
Definition MAX_PENDING_MANUAL_COMPACTS : nat := 64.

Section queue.
Context {opaque value : Type}.

(** [ResponseInputItem]; the result of an MCP call is an opaque value. *)
Inductive response_input_item :=
| InMessage (role : str) (content : list content_item)
| InFunctionCallOutput (call_id : str) (output : function_call_output_payload)
| InMcpToolCallOutput (call_id : str) (mcp_result : opaque)
| InCustomToolCallOutput (call_id : str) (output : function_call_output_payload) (rest : opaque)
| InToolSearchOutput (call_id : str) (rest : opaque).

Record queued_user_input := QueuedUserInput {
  submission_id : str;
  queued_item : response_input_item;
  core_items : list input_item
}.

Inductive session_event :=
| TaskSpawned (t : agent_task) (items : list input_item)
| TaskAborted (t : agent_task) (reason : turn_abort_reason).

Record state := State {
  current_task : option agent_task;
  approvals : table value;
  user_questions : table value;
  dynamic_tools : table value;
  pending_input : list response_input_item;
  pending_post_turn_input : list response_input_item;
  pending_user_input : list queued_user_input;
  pending_manual_compacts : list str;
  transcript : conversation_history opaque;
  selected_mcp_tools : list str;
  internal_sub_ids : N;
  wait_interrupt_epoch : N;
  wait_interrupt_reason : option wait_interrupt_reason_kind;
  log : list session_event
}.

#[export] Instance state_fields : Fields state := fun s =>
  State (current_task s) (approvals s) (user_questions s) (dynamic_tools s) (pending_input s)
    (pending_post_turn_input s) (pending_user_input s) (pending_manual_compacts s) (transcript s)
    (selected_mcp_tools s) (internal_sub_ids s) (wait_interrupt_epoch s)
    (wait_interrupt_reason s) (log s).

Definition new_state : state :=
  State None empty_table empty_table empty_table [] [] [] [] History.new_history [] 0 0 None [].

(** ** Operations on the state *)

Definition set_task (agent : agent_task) (items : list input_item) (s : state) : state :=
  let aborted :=
    match current_task s with Some task => [TaskAborted task Replaced] | None => [] end in
  s <| log := log s ++ [TaskSpawned agent items] ++ aborted |> <| current_task := Some agent |>.

Definition remove_task (sub_id : str) (s : state) : state :=
  match current_task s with
  | Some agent => if str_eqb (task_sub_id agent) sub_id then s <| current_task := None |> else s
  | None => s
  end.

Definition is_current_task (sub_id : str) (s : state) : bool :=
  match current_task s with Some agent => str_eqb (task_sub_id agent) sub_id | None => false end.

Definition has_running_task (s : state) : bool :=
  match current_task s with Some _ => true | None => false end.

(** Whether a turn should be started is the first component. *)
Definition enqueue_out_of_turn_item (item : response_input_item) (s : state) : bool * state :=
  (negb (has_running_task s), s <| pending_input := pending_input s ++ [item] |>).

Definition enqueue_post_turn_item (item : response_input_item) (s : state) : bool * state :=
  (negb (has_running_task s),
   s <| pending_post_turn_input := pending_post_turn_input s ++ [item] |>).

Definition queue_user_input (queued : queued_user_input) (s : state) : state :=
  s <| pending_user_input := pending_user_input s ++ [queued] |>.

Definition notify_wait_interrupted (reason : wait_interrupt_reason_kind) (s : state) : state :=
  s <| wait_interrupt_epoch := saturating_add64 (wait_interrupt_epoch s) 1 |>
    <| wait_interrupt_reason := Some reason |>.

Definition next_internal_sub_id (s : state) : str * state :=
  let id := internal_sub_ids s in
  (lit "auto-compact-" ++ show_N id, s <| internal_sub_ids := saturating_add64 id 1 |>).

(** The loop that drops the oldest requests of a full queue. *)
Definition enqueue_manual_compact (sub_id : str) (s : state) : bool * state :=
  let queue := pending_manual_compacts s in
  let queue := drop (length queue - (MAX_PENDING_MANUAL_COMPACTS - 1)) queue in
  (match pending_manual_compacts s with [] => true | _ => false end,
   s <| pending_manual_compacts := queue ++ [sub_id] |>).

(** What the model is given: the waiting items, then those of the user, which stay in
    their queue unless they are drained.  With nothing else waiting, those of the user are
    not drained either. *)
Definition get_pending_input_filtered (drain_user_inputs : bool) (s : state)
    : list response_input_item * state :=
  let empty {A} (l : list A) := match l with [] => true | _ => false end in
  if empty (pending_input s) && (drain_user_inputs || empty (pending_user_input s)) then ([], s)
  else
    let ret := pending_input s ++ (queued_item <$> pending_user_input s) in
    let s := s <| pending_input := [] |> in
    (ret, if drain_user_inputs then s <| pending_user_input := [] |> else s).

Definition get_pending_input : state -> list response_input_item * state :=
  get_pending_input_filtered true.

(** [enforce] is [enforce_user_message_limits] on an item. *)
Context (enforce : response_input_item -> response_input_item).

Definition add_pending_input (input : response_input_item) (s : state) : state :=
  let input := if has_running_task s then enforce input else input in
  s <| pending_input := pending_input s ++ [input] |>.

Context (read_image : str -> option str).

Definition user_item (items : list input_item) : response_input_item :=
  InMessage (lit "user") (response_input_from_core_items read_image items).

(** Whether the input was injected into the running task. *)
Definition inject_input (input : list input_item) (s : state) : bool * state :=
  if has_running_task s
  then (true, s <| pending_input := pending_input s ++ [enforce (user_item input)] |>)
  else (false, s).

(** The loop over the names, with [sort] at the end. *)
Definition push_unique (l : list str) (name : str) : list str :=
  if str_mem name l then l else l ++ [name].

Definition merge_mcp_tool_selection (tool_names : list str) (s : state) : list str * state :=
  let l := sort_by str_leb (fold_left push_unique tool_names (selected_mcp_tools s)) in
  (l, s <| selected_mcp_tools := l |>).

Definition set_mcp_tool_selection (tool_names : list str) (s : state) : state :=
  s <| selected_mcp_tools := sort_by str_leb (fold_left push_unique tool_names []) |>.

Definition get_mcp_tool_selection (s : state) : option (list str) :=
  match selected_mcp_tools s with [] => None | l => Some l end.

Definition clear_mcp_tool_selection (s : state) : state := s <| selected_mcp_tools := [] |>.

Definition abort (s : state) : state :=
  let aborted :=
    match current_task s with Some task => [TaskAborted task Interrupted] | None => [] end in
  s <| approvals := clear (approvals s) |>
    <| user_questions := clear (user_questions s) |>
    <| dynamic_tools := clear (dynamic_tools s) |>
    <| current_task := None |>
    <| log := log s ++ aborted |>.

(** What a session keeps when it is configured anew. *)
Definition partial_clone (s : state) : state :=
  new_state <| transcript := transcript s |>
            <| selected_mcp_tools := selected_mcp_tools s |>
            <| internal_sub_ids := internal_sub_ids s |>
            <| log := log s |>.

(** ** Turns *)

Context (cleanup_old_status_items : conversation_history opaque -> conversation_history opaque).
(** Whether a hook of the project blocks a prompt. *)
Context (blocked_by_hook : str -> list input_item -> bool).
Context (compact_prompt_text : str).

Definition cleanup (s : state) : state :=
  s <| transcript := cleanup_old_status_items (transcript s) |>.

Definition start_internal_pending_only_turn (sentinel : str) (origin : task_origin_kind)
    (visible : bool) (s : state) : bool * state :=
  if has_running_task s then (false, s)
  else
    let '(sub_id, s) := next_internal_sub_id (cleanup s) in
    (true, set_task (AgentTask sub_id Regular origin visible) [TextInput sentinel] s).

Definition start_pending_only_turn_if_idle : state -> bool * state :=
  start_internal_pending_only_turn PENDING_ONLY_SENTINEL PendingInputTurn false.

(** The items that wait for the end of the turn are moved to those for the next one. *)
Definition move_post_turn_input (s : state) : state :=
  s <| pending_input := pending_input s ++ pending_post_turn_input s |>
    <| pending_post_turn_input := [] |>.

Definition start_post_turn_pending_only_turn_if_idle (s : state) : bool * state :=
  if has_running_task s || match pending_post_turn_input s with [] => true | _ => false end
  then (false, s)
  else start_internal_pending_only_turn POST_TURN_PENDING_ONLY_SENTINEL PostTurn false
         (move_post_turn_input s).

Definition spawn_compact_task (sub_id : str) (items : list input_item) (s : state) : state :=
  set_task (AgentTask sub_id Compact ManualCompactTask false) items s.

Definition spawn_user_turn (sub_id : str) (items : list input_item) (origin : task_origin_kind)
    (s : state) : bool * state :=
  if blocked_by_hook sub_id items then (false, s)
  else (true, set_task (AgentTask sub_id Regular origin true) items s).

(** ** What follows a task *)

Inductive follow_up_turn_action :=
| FollowPostTurnPendingInput
| FollowManualCompact (sub_id : str)
| FollowPendingInput
| FollowQueuedUserInput (queued : queued_user_input).

Definition take_follow_up_turn_action (s : state) : option follow_up_turn_action * state :=
  match pending_post_turn_input s with
  | _ :: _ => (Some FollowPostTurnPendingInput, move_post_turn_input s)
  | [] =>
      match pending_manual_compacts s with
      | sub_id :: queue =>
          (Some (FollowManualCompact sub_id), s <| pending_manual_compacts := queue |>)
      | [] =>
          match pending_input s with
          | _ :: _ => (Some FollowPendingInput, s)
          | [] =>
              match pending_user_input s with
              | [] => (None, s)
              | queued :: queue =>
                  (Some (FollowQueuedUserInput queued), s <| pending_user_input := queue |>)
              end
          end
      end
  end.

(** [handle_follow_up_action], which goes on to the next action when a hook blocks the
    prompt.  Each such round takes an input from its queue: [fuel] for their number is
    enough ([follow_up_enough]). *)
Fixpoint handle_follow_up_action (fuel : nat) (action : follow_up_turn_action) (s : state)
    : option state :=
  match action with
  | FollowPostTurnPendingInput =>
      Some (start_internal_pending_only_turn POST_TURN_PENDING_ONLY_SENTINEL PostTurn false s).2
  | FollowManualCompact sub_id =>
      Some (spawn_compact_task sub_id [TextInput compact_prompt_text] s)
  | FollowPendingInput =>
      Some (start_internal_pending_only_turn PENDING_ONLY_SENTINEL PendingInputTurn false s).2
  | FollowQueuedUserInput queued =>
      let '(started, s) :=
        spawn_user_turn (submission_id queued) (core_items queued) QueuedUserTurn (cleanup s) in
      if started then Some s
      else
        match take_follow_up_turn_action s with
        | (Some next_action, s) =>
            match fuel with
            | 0 => None
            | S fuel => handle_follow_up_action fuel next_action s
            end
        | (None, s) => Some s
        end
  end.

(** The end of [run_compact_task]: only a compaction that succeeded removes its task. *)
Definition finish_compact_task (sub_id : str) (succeeded : bool) (s : state) : state :=
  if succeeded then remove_task sub_id s else s.

(** The end of [run_agent]. *)
Definition finish_turn (sub_id : str) (s : state) : option state :=
  let s := remove_task sub_id s in
  match take_follow_up_turn_action s with
  | (Some action, s) => handle_follow_up_action (length (pending_user_input s)) action s
  | (None, s) => Some s
  end.

(** ** Submissions *)

Inductive submission :=
| OpInterrupt
| OpAddPendingInputDeveloper (text : str)
| OpAddPostTurnDeveloperInput (text : str)
| OpConfigureSession
| OpUserInput (sub_id : str) (items : list input_item)
| OpQueueUserInput (sub_id : str) (items : list input_item)
| OpApproval (id : str) (decision : value) (is_abort : bool)
| OpUserInputAnswer (id : str) (response : value)
| OpDynamicToolResponse (id : str) (response : value)
| OpCompact (sub_id : str)
| OpReview (sub_id : str) (items : list input_item)
| OpShutdown.

Definition developer_item (text : str) : response_input_item :=
  InMessage (lit "developer") [InputText text].

Definition interrupt (s : state) : state := abort (notify_wait_interrupted WaitSessionAborted s).

Definition submit (op : submission) (s : state) : state :=
  match op with
  | OpInterrupt | OpShutdown => interrupt s
  | OpAddPendingInputDeveloper text =>
      let '(should_start_turn, s) := enqueue_out_of_turn_item (developer_item text) s in
      if should_start_turn then
        let '(sub_id, s) := next_internal_sub_id (cleanup s) in
        set_task (AgentTask sub_id Regular OutOfTurnDeveloper false)
          [TextInput PENDING_ONLY_SENTINEL] s
      else s
  | OpAddPostTurnDeveloperInput text =>
      let '(should_start_turn, s) := enqueue_post_turn_item (developer_item text) s in
      if should_start_turn then (start_post_turn_pending_only_turn_if_idle s).2 else s
  | OpConfigureSession => partial_clone (interrupt s)
  | OpUserInput sub_id items =>
      let s := abort (notify_wait_interrupted WaitUserMessage (cleanup s)) in
      (spawn_user_turn sub_id items UserTurn s).2
  | OpQueueUserInput sub_id items =>
      if has_running_task s then
        queue_user_input (QueuedUserInput sub_id (enforce (user_item items)) items)
          (notify_wait_interrupted WaitUserMessage s)
      else (spawn_user_turn sub_id items QueuedUserTurn (cleanup s)).2
  | OpApproval id decision is_abort =>
      if is_abort then interrupt s else s <| approvals := notify id decision (approvals s) |>
  | OpUserInputAnswer id response =>
      s <| user_questions := notify id response (user_questions s) |>
  | OpDynamicToolResponse id response =>
      s <| dynamic_tools := notify id response (dynamic_tools s) |>
  | OpCompact sub_id =>
      let '(injected, s) := inject_input [TextInput compact_prompt_text] s in
      if injected then (enqueue_manual_compact sub_id s).2
      else spawn_compact_task sub_id [TextInput compact_prompt_text] s
  | OpReview sub_id items =>
      set_task (AgentTask sub_id Review ReviewTurn false) items (interrupt s)
  end.

(** Messages of finished agents, which wake an idle session
    ([enqueue_agent_completion_wake]). *)
Definition enqueue_agent_completion_wake (messages : list response_input_item) (s : state)
    : state :=
  let '(should_start_turn, s) :=
    fold_left (fun acc message =>
      let '(start, s) := enqueue_out_of_turn_item message acc.2 in (acc.1 || start, s))
      messages (false, s) in
  if should_start_turn then
    let '(sub_id, s) := next_internal_sub_id (cleanup s) in
    set_task (AgentTask sub_id Regular OutOfTurnDeveloper false)
      [TextInput PENDING_ONLY_SENTINEL] s
  else s.
End queue.
Arguments response_input_item : clear implicits.
Arguments state : clear implicits.
Arguments queued_user_input : clear implicits.
Arguments submission : clear implicits.

(** ** Specification *)

Section specification.
Context {opaque value : Type}.
Notation state := (state opaque value).
Context (blocked_by_hook : str -> list input_item -> bool) (compact_prompt_text : str).

(** Everything that waits to be shown to the model. *)
Definition waiting (s : state) : list (response_input_item opaque) :=
  pending_input s ++ pending_post_turn_input s ++ (queued_item <$> pending_user_input s).

(** The inputs of the user from the first one that no hook blocks. *)
Fixpoint from_unblocked (queue : list (queued_user_input opaque))
    : list (queued_user_input opaque) :=
  match queue with
  | [] => []
  | queued :: queue' =>
      if blocked_by_hook (submission_id queued) (core_items queued) then from_unblocked queue'
      else queue
  end.

Definition internal_task (origin : task_origin_kind) (s : state) : agent_task :=
  AgentTask (lit "auto-compact-" ++ show_N (internal_sub_ids s)) Regular origin false.

(** The task that follows a turn: what waits for the end of the turn comes first, then
    requests to compact, then other waiting items, then the inputs of the user in their
    order. *)
Definition next_task (s : state) : option (agent_task * list input_item) :=
  match pending_post_turn_input s with
  | _ :: _ => Some (internal_task PostTurn s, [TextInput POST_TURN_PENDING_ONLY_SENTINEL])
  | [] =>
      match pending_manual_compacts s with
      | sub_id :: _ =>
          Some (AgentTask sub_id Compact ManualCompactTask false, [TextInput compact_prompt_text])
      | [] =>
          match pending_input s with
          | _ :: _ => Some (internal_task PendingInputTurn s, [TextInput PENDING_ONLY_SENTINEL])
          | [] =>
              match from_unblocked (pending_user_input s) with
              | [] => None
              | queued :: _ =>
                  Some (AgentTask (submission_id queued) Regular QueuedUserTurn true,
                        core_items queued)
              end
          end
      end
  end.
End specification.


(** ** Lemmas *)

Section lemmas.
Context {opaque value : Type}.
Notation state := (state opaque value).
Context (enforce : response_input_item opaque -> response_input_item opaque).
Context (read_image : str -> option str).
Context (cleanup_old_status_items : conversation_history opaque -> conversation_history opaque).
Context (blocked_by_hook : str -> list input_item -> bool) (compact_prompt_text : str).
Notation handle := (handle_follow_up_action cleanup_old_status_items blocked_by_hook compact_prompt_text).
Notation finish := (finish_turn cleanup_old_status_items blocked_by_hook compact_prompt_text).
Notation submit := (submit enforce read_image cleanup_old_status_items blocked_by_hook compact_prompt_text).

(** The state of an idle session in which only the user's inputs wait. *)
Definition only_user_inputs (s : state) : Prop :=
  current_task s = None /\ pending_post_turn_input s = [] /\ pending_manual_compacts s = [] /\
  pending_input s = [].

Lemma handle_queued fuel queued (s : state) :
  only_user_inputs s -> length (pending_user_input s) <= fuel ->
  exists s', handle fuel (FollowQueuedUserInput queued) s = Some s' /\
    pending_post_turn_input s' = [] /\ pending_manual_compacts s' = [] /\ pending_input s' = [] /\
    match from_unblocked blocked_by_hook (queued :: pending_user_input s) with
    | [] => current_task s' = None /\ pending_user_input s' = [] /\ log s' = log s
    | first :: rest =>
        let t := AgentTask (submission_id first) Regular QueuedUserTurn true in
        current_task s' = Some t /\ pending_user_input s' = rest /\
        log s' = log s ++ [TaskSpawned t (core_items first)]
    end.
Proof.
  revert queued s. induction fuel as [|fuel IH]; intros queued s (Ht & Hp & Hm & Hi) Hf;
    cbn [handle_follow_up_action from_unblocked]; unfold spawn_user_turn;
    (destruct (blocked_by_hook (submission_id queued) (core_items queued)) eqn:Eb;
     [|eexists; split; [done|]; unfold set_task; cbn; rewrite Ht; by split_and!]);
    unfold take_follow_up_turn_action; cbn -[handle_follow_up_action]; rewrite Hp, Hm, Hi.
  - destruct (pending_user_input s) as [|next queue] eqn:E; [|cbn in Hf; lia].
    eexists. split; [done|]. by split_and!.
  - destruct (pending_user_input s) as [|next queue] eqn:E.
    + eexists. split; [done|]. by split_and!.
    + set (s1 := cleanup cleanup_old_status_items s <| pending_user_input := queue |>).
      destruct (IH next s1) as (s' & Hs & H); [by split_and!|cbn in *; lia|].
      exists s'. split; [exact Hs|exact H].
Qed.

(** What a turn leaves of the queues when it ends. *)
Definition queues_after (s s' : state) : Prop :=
  pending_input s' = pending_input s ++ pending_post_turn_input s /\
  pending_post_turn_input s' = [] /\
  pending_manual_compacts s' =
    match pending_post_turn_input s with [] => tail (pending_manual_compacts s) | _ => pending_manual_compacts s end /\
  pending_user_input s' =
    match pending_post_turn_input s, pending_manual_compacts s, pending_input s with
    | [], [], [] => tail (from_unblocked blocked_by_hook (pending_user_input s))
    | _, _, _ => pending_user_input s
    end.

Lemma handle_unfold fuel action (s : state) :
  handle fuel action s =
  match action with
  | FollowPostTurnPendingInput =>
      Some (start_internal_pending_only_turn cleanup_old_status_items
              POST_TURN_PENDING_ONLY_SENTINEL PostTurn false s).2
  | FollowManualCompact sub_id => Some (spawn_compact_task sub_id [TextInput compact_prompt_text] s)
  | FollowPendingInput =>
      Some (start_internal_pending_only_turn cleanup_old_status_items
              PENDING_ONLY_SENTINEL PendingInputTurn false s).2
  | FollowQueuedUserInput _ => handle fuel action s
  end.
Proof. by destruct fuel, action. Qed.

Lemma finish_turn_total sub_id (s : state) :
  is_current_task sub_id s = true ->
  exists s', finish sub_id s = Some s' /\
    current_task s' = fst <$> next_task blocked_by_hook compact_prompt_text s /\
    log s' = log s ++
      match next_task blocked_by_hook compact_prompt_text s with
      | Some (t, items) => [TaskSpawned t items] | None => [] end /\
    queues_after s s'.
Proof.
  unfold is_current_task, finish_turn, remove_task. destruct (current_task s) as [t|] eqn:Et; [|done].
  intros ->. unfold take_follow_up_turn_action, next_task, queues_after. cbn -[handle_follow_up_action].
  destruct (pending_post_turn_input s) as [|p ps] eqn:Ep.
  2: { eexists. rewrite handle_unfold. split; [done|]. cbn. by rewrite Ep. }
  rewrite app_nil_r. destruct (pending_manual_compacts s) as [|c cs] eqn:Ec.
  2: { eexists. rewrite handle_unfold. split; [done|]. cbn. by rewrite Ep. }
  destruct (pending_input s) as [|i rest] eqn:Ei.
  2: { eexists. rewrite handle_unfold. split; [done|]. cbn. by rewrite ?Ep, ?Ec, ?Ei. }
  destruct (pending_user_input s) as [|u us] eqn:Eu.
  { eexists. split; [done|]. cbn. rewrite ?Ep, ?Ec, ?Ei, ?Eu, app_nil_r. done. }
  set (s1 := s <| current_task := None |> <| pending_user_input := us |>).
  destruct (handle_queued (length (pending_user_input s1)) u s1) as (s' & Hs & H1 & H2 & H3 & H4);
    [by split_and!|done|].
  exists s'. split; [exact Hs|]. change (pending_user_input s1) with us in H4.
  rewrite H1, H2, H3. destruct (from_unblocked blocked_by_hook (u :: us)) as [|first rest].
  - destruct H4 as (-> & -> & ->). by rewrite app_nil_r.
  - by destruct H4 as (-> & -> & ->).
Qed.

Lemma waiting_cleanup f (s : state) : waiting (cleanup f s) = waiting s.
Proof. done. Qed.

Lemma waiting_abort (s : state) : waiting (abort s) = waiting s.
Proof. done. Qed.

Lemma spawn_user_turn_waiting sub_id items origin (s : state) :
  waiting (spawn_user_turn blocked_by_hook sub_id items origin s).2 = waiting s.
Proof. unfold spawn_user_turn. by destruct (blocked_by_hook sub_id items). Qed.

Lemma start_internal_waiting sentinel origin visible (s : state) :
  waiting (start_internal_pending_only_turn cleanup_old_status_items sentinel origin visible s).2
  = waiting s.
Proof. unfold start_internal_pending_only_turn. by destruct (has_running_task s). Qed.

Lemma waiting_push (s : state) i p u :
  waiting s ⊆+ waiting (s <| pending_input := pending_input s ++ i |>
    <| pending_post_turn_input := pending_post_turn_input s ++ p |>
    <| pending_user_input := pending_user_input s ++ u |>).
Proof.
  unfold waiting. cbn. rewrite fmap_app. apply submseteq_app; [by apply submseteq_inserts_r|].
  apply submseteq_app; by apply submseteq_inserts_r.
Qed.

Lemma waiting_move (s : state) : waiting (move_post_turn_input s) = waiting s.
Proof. unfold waiting, move_post_turn_input. cbn. by rewrite <- app_assoc. Qed.

Lemma submit_waiting (op : submission value) (s : state) :
  op <> OpConfigureSession -> waiting s ⊆+ waiting (submit op s).
Proof.
  intros H. destruct op; try done; cbn; try solve [by destruct is_abort].
  - (* a message of the developer *)
    unfold enqueue_out_of_turn_item. pose proof (waiting_push s [developer_item text] [] []) as W.
    rewrite !app_nil_r in W. by destruct (has_running_task s).
  - unfold enqueue_post_turn_item. pose proof (waiting_push s [] [developer_item text] []) as W.
    rewrite !app_nil_r in W. destruct (has_running_task s) eqn:E; cbn; [done|].
    unfold start_post_turn_pending_only_turn_if_idle. case_match; [done|].
    by rewrite start_internal_waiting, waiting_move.
  - by rewrite spawn_user_turn_waiting.
  - destruct (has_running_task s); [|by rewrite spawn_user_turn_waiting].
    pose proof (waiting_push s [] [] [QueuedUserInput sub_id (enforce (user_item read_image items)) items])
      as W. by rewrite !app_nil_r in W.
  - unfold inject_input. destruct (has_running_task s); [|done].
    pose proof (waiting_push s
      [enforce (user_item read_image [TextInput compact_prompt_text])] [] []) as W.
    by rewrite !app_nil_r in W.
Qed.

Lemma start_post_turn_compacts (s : state) :
  pending_manual_compacts
    (start_post_turn_pending_only_turn_if_idle cleanup_old_status_items s).2
  = pending_manual_compacts s.
Proof.
  unfold start_post_turn_pending_only_turn_if_idle, start_internal_pending_only_turn.
  change (has_running_task (move_post_turn_input s)) with (has_running_task s).
  destruct (has_running_task s), (pending_post_turn_input s); done.
Qed.

Lemma submit_compacts (op : submission value) (s : state) :
  op <> OpConfigureSession ->
  length (pending_manual_compacts s) < MAX_PENDING_MANUAL_COMPACTS ->
  pending_manual_compacts s `prefix_of` pending_manual_compacts (submit op s).
Proof.
  intros H Hl. destruct op; try done; cbn; try solve [by destruct is_abort].
  - unfold enqueue_out_of_turn_item. by destruct (has_running_task s).
  - unfold enqueue_post_turn_item. destruct (has_running_task s) eqn:E; cbn; [done|].
    by rewrite start_post_turn_compacts.
  - unfold spawn_user_turn. by case_match.
  - destruct (has_running_task s); [done|]. unfold spawn_user_turn. by case_match.
  - unfold inject_input. destruct (has_running_task s); [|done]. cbn.
    unfold MAX_PENDING_MANUAL_COMPACTS in Hl.
    replace (length _ - _) with 0 by lia. by apply prefix_app_r.
Qed.

(** A task that is no longer the current one has been aborted. *)
Definition aborted_if_gone (s s' : state) : Prop :=
  forall t, current_task s = Some t -> current_task s' <> Some t ->
    exists reason, TaskAborted t reason ∈ log s'.

Lemma aborted_same (s s' : state) : current_task s' = current_task s -> aborted_if_gone s s'.
Proof. intros E t Ht Hn. by rewrite E in Hn. Qed.

Lemma aborted_log (s s' : state) :
  (forall t, current_task s = Some t -> TaskAborted t Interrupted ∈ log s') -> aborted_if_gone s s'.
Proof. intros H t Ht _. exists Interrupted. by apply H. Qed.

Lemma abort_log (s : state) t : current_task s = Some t -> TaskAborted t Interrupted ∈ log (abort s).
Proof. intros E. unfold abort. rewrite E. cbn. set_solver. Qed.

Lemma set_task_log e t items (s : state) : e ∈ log s -> e ∈ log (set_task t items s).
Proof. unfold set_task. cbn. set_solver. Qed.

Lemma aborted_idle (s s' : state) : current_task s = None -> aborted_if_gone s s'.
Proof. intros E t Ht. congruence. Qed.

Lemma submit_aborts (op : submission value) (s : state) : aborted_if_gone s (submit op s).
Proof.
  destruct (current_task s) as [t0|] eqn:E0; [|by apply aborted_idle].
  assert (has_running_task s = true) as Hr by (unfold has_running_task; by rewrite E0).
  destruct op; cbn; try by apply aborted_same.
  - apply aborted_log. intros t Ht. by apply abort_log.
  - unfold enqueue_out_of_turn_item. rewrite Hr. by apply aborted_same.
  - unfold enqueue_post_turn_item. rewrite Hr. by apply aborted_same.
  - apply aborted_log. intros t Ht. cbn. by apply abort_log.
  - apply aborted_log. intros t Ht. unfold spawn_user_turn. case_match; cbn [snd];
      [|apply set_task_log]; by apply abort_log.
  - rewrite Hr. by apply aborted_same.
  - destruct is_abort; [|by apply aborted_same]. apply aborted_log. intros t Ht. by apply abort_log.
  - unfold inject_input. rewrite Hr. by apply aborted_same.
  - apply aborted_log. intros t Ht. apply set_task_log. by apply abort_log.
  - apply aborted_log. intros t Ht. by apply abort_log.
Qed.
End lemmas.

(** ** Properties *)

Section properties.
Context {opaque value : Type}.
Notation state := (state opaque value).
Context (enforce : response_input_item opaque -> response_input_item opaque).
Context (read_image : str -> option str).
Context (cleanup_old_status_items : conversation_history opaque -> conversation_history opaque).
Context (blocked_by_hook : str -> list input_item -> bool) (compact_prompt_text : str).
Notation finish := (finish_turn cleanup_old_status_items blocked_by_hook compact_prompt_text).
Notation submit := (submit enforce read_image cleanup_old_status_items blocked_by_hook compact_prompt_text).

(** C5: the end of a turn leaves nothing behind.  When the current task ends, the session
    goes on with exactly the task that the queues call for (items for the end of the turn,
    then requests to compact, then other items, then the first input of the user that no
    hook blocks), and stays idle only when nothing of this waits; what the new task does
    not take goes on waiting in order. *)
Theorem turn_end_starts_next sub_id (s : state) :
  is_current_task sub_id s = true ->
  exists s', finish sub_id s = Some s' /\
    current_task s' = fst <$> next_task blocked_by_hook compact_prompt_text s /\
    log s' = log s ++
      match next_task blocked_by_hook compact_prompt_text s with
      | Some (t, items) => [TaskSpawned t items] | None => [] end /\
    queues_after blocked_by_hook s s' /\
    (has_running_task s' = false -> waiting s' = [] /\ pending_manual_compacts s' = []).
Proof.
  intros H. destruct (finish_turn_total cleanup_old_status_items blocked_by_hook compact_prompt_text
    sub_id s H) as (s' & Hs & Ht & Hl & Hq). exists s'. split_and!; try done.
  unfold has_running_task. rewrite Ht. unfold waiting. destruct Hq as (-> & -> & -> & ->).
  unfold next_task. repeat case_match; try done.
Qed.

(** C20: no submission, an interrupt included, loses an item that waits to be shown to the
    model, as long as the session is not configured anew; requests to compact are only lost when
    64 of them wait; and a task that a submission replaces is aborted. *)
Theorem submissions_keep_waiting (op : submission value) (s : state) :
  op <> OpConfigureSession ->
  waiting s ⊆+ waiting (submit op s) /\
  (length (pending_manual_compacts s) < MAX_PENDING_MANUAL_COMPACTS ->
   pending_manual_compacts s `prefix_of` pending_manual_compacts (submit op s)) /\
  aborted_if_gone s (submit op s).
Proof.
  intros H. split_and!; [by apply submit_waiting|by apply submit_compacts|apply submit_aborts].
Qed.
End properties.

(** ** Concrete runs *)

Module QueueRuns.
Definition no_image (_ : str) : option str := None.
Definition never (_ : str) (_ : list input_item) : bool := false.
Definition blocks_b (_ : str) (items : list input_item) : bool :=
  match items with [TextInput t] => str_eqb t (lit "b") | _ => false end.

Definition queued (id text : string) : queued_user_input unit :=
  QueuedUserInput (lit id) (InMessage (lit "user") [InputText (lit text)]) [TextInput (lit text)].

(** A turn runs while the user has queued two inputs. *)
Definition busy : state unit bool :=
  new_state <| current_task := Some (AgentTask (lit "1") Regular UserTurn true) |>
            <| pending_user_input := [queued "2" "b"; queued "3" "c"] |>.

Lemma turn_end_starts_next_witness :
  is_current_task (lit "1") busy = true /\
  exists s', finish_turn id blocks_b [] (lit "1") busy = Some s' /\
    current_task s' = Some (AgentTask (lit "3") Regular QueuedUserTurn true) /\
    pending_user_input s' = [].
Proof.
  split; [by vm_compute|].
  destruct (turn_end_starts_next (opaque:=unit) (value:=bool) id blocks_b [] (lit "1") busy)
    as (s' & Hs & Ht & _ & (_ & _ & _ & Hu) & _); [by vm_compute|].
  exists s'. split_and!; [exact Hs|rewrite Ht; by vm_compute|rewrite Hu; by vm_compute].
Defined.

Lemma submissions_keep_waiting_witness :
  OpInterrupt (value:=bool) <> OpConfigureSession /\
  waiting busy ⊆+ waiting (submit id no_image id never [] OpInterrupt busy).
Proof.
  split; [done|].
  apply (submissions_keep_waiting (opaque:=unit) (value:=bool) id no_image id never [] OpInterrupt busy).
  done.
Defined.

(** A session that is configured anew keeps its history but none of the inputs that wait:
    they are lost. *)
Lemma configure_drops_waiting :
  waiting busy <> [] /\
  waiting (submit id no_image id never [] OpConfigureSession busy) = [].
Proof. by vm_compute. Qed.

(** A compaction that the user asked for takes no follow-up when it ends: an input queued
    while it ran stays in its queue although the session is idle. *)
Lemma queued_after_compaction_is_stranded :
  let s := submit id no_image id never [] (OpCompact (lit "1")) (new_state (opaque:=unit) (value:=bool)) in
  let s := submit id no_image id never [] (OpQueueUserInput (lit "2") [TextInput (lit "hi")]) s in
  let s := finish_compact_task (lit "1") true s in
  has_running_task s = false /\ length (waiting s) = 1.
Proof. by vm_compute. Qed.

(** One that fails even leaves its task as the current one, so that the next queued input
    waits for a task that no longer runs. *)
Lemma failed_compaction_stays_current :
  let s := submit id no_image id never [] (OpCompact (lit "1")) (new_state (opaque:=unit) (value:=bool)) in
  let s := finish_compact_task (lit "1") false s in
  let s := submit id no_image id never [] (OpQueueUserInput (lit "2") [TextInput (lit "hi")]) s in
  has_running_task s = true /\ length (waiting s) = 1 /\
  is_current_task (lit "1") s = true.
Proof. by vm_compute. Qed.

(** A compaction asked for during a task is announced for the end of the task; its prompt is
    shown to the model in the running task, too. *)
Lemma compact_prompt_injected :
  let s := submit id no_image id never (lit "Summarize") (OpCompact (lit "9")) busy in
  pending_input s = [InMessage (lit "user") [InputText (lit "Summarize")]] /\
  pending_manual_compacts s = [lit "9"].
Proof. by vm_compute. Qed.

(** Between the end of a task and the choice of what follows, the session counts as idle: an
    input that the user queues then starts at once, in front of those that wait, and is
    aborted when the follow-up of the old task starts. *)
Lemma follow_up_replaces_new_task :
  let s := remove_task (lit "1") busy in
  let s := submit id no_image id never [] (OpQueueUserInput (lit "9") [TextInput (lit "hi")]) s in
  is_current_task (lit "9") s = true /\
  match take_follow_up_turn_action s with
  | (Some action, s) =>
      match handle_follow_up_action id never [] 0 action s with
      | Some s =>
          is_current_task (lit "2") s = true /\
          last (log s) = Some (TaskAborted (AgentTask (lit "9") Regular QueuedUserTurn true) Replaced)
      | None => False
      end
  | (None, _) => False
  end.
Proof. by vm_compute. Qed.
End QueueRuns.
