(* ===== verification/TurnRecord.v ===== *)
(** * What a turn leaves

    The parts of [core/src/codex/streaming.rs] that look at the items of one turn: how each
    item of the model is answered ([handle_response_item]), which items [run_agent] records
    in the conversation, how a response for the model becomes an item
    ([protocol/src/models.rs]), the guard against a model that repeats its tool calls
    ([core/src/codex/repeated_tool_cycle.rs]), and how waiting outputs are fitted to a
    history that was compacted ([reconcile_pending_tool_outputs]).

    What a tool does is an outcome of the environment.  The two encodings of the result of
    an MCP call and the JSON text of a fingerprint are parameters (serde_json); the events
    for the interface are left out. *)

From stdpp Require Import base list gmap.
From S2P Require Import Prelude History Compaction TurnQueue.

(** ** Items of a turn *)

(** The objects that [serde_json::json!] builds in a fingerprint, with the JSON of their fields.
    [FunctionCallOutputPayload] serialises as its body: its [success] is not part of it. *)
Inductive fingerprint_json {opaque : Type} :=
| FunctionCallJson (name_namespace : opaque) (arguments : str)
| LocalShellCallJson (action : opaque)
| CustomToolCallJson (name_namespace : opaque) (input : str)
| ToolSearchCallJson (execution_arguments : opaque)
| FunctionCallOutputJson (output : function_call_output_body)
| CustomToolCallOutputJson (name : opaque) (output : function_call_output_body)
| McpToolCallOutputJson (mcp_result : opaque)
| ToolSearchOutputJson (rest : opaque).
Arguments fingerprint_json : clear implicits.

Record tool_cycle_fingerprint := ToolCycleFingerprint {
  tool_calls : list str;
  tool_outputs : list str
}.

#[export] Instance tool_cycle_fingerprint_eq_dec : EqDecision tool_cycle_fingerprint.
Proof. solve_decision. Defined.

Section turn_record.
Context {opaque : Type}.
Notation item := (response_item opaque).
Notation input := (response_input_item opaque).
(** The fields of a new message; the payload of an MCP result as an item for the model
    and as it is recorded; the JSON of the fields of an item that its fingerprint shows. *)
Context (new_fields : opaque).
Context (mcp_payload mcp_recorded : opaque -> function_call_output_payload).
Context (shown_fields : opaque -> opaque).
Context (json_text : fingerprint_json opaque -> str).

(** The name of a custom tool, with its namespace. *)
Context (display_name : opaque -> str).

(** What the environment gives for one item: the payload of a tool, or the result of an MCP
    call, or the tools that a search found. *)
Record tool_outcome := ToolOutcome {
  payload : function_call_output_payload;
  mcp_result_of : option opaque;
  tools_found : opaque
}.

Record processed_response_item := ProcessedResponseItem {
  processed : item;
  response : option input
}.

Definition handle_response_item (i : item) (t : tool_outcome) : option input :=
  match i with
  | FunctionCall _ call_id _ =>
      Some (match mcp_result_of t with
        | Some mcp_result => InMcpToolCallOutput call_id mcp_result
        | None => InFunctionCallOutput call_id (payload t)
        end)
  | ToolSearchCall call_id _ => Some (InToolSearchOutput (default [] call_id) (tools_found t))
  | LocalShellCall id call_id _ =>
      match call_id, id with
      | Some call_id, _ => Some (InFunctionCallOutput call_id (payload t))
      | None, Some id => Some (InFunctionCallOutput id (payload t))
      | None, None =>
          Some (InFunctionCallOutput []
            (FunctionCallOutputPayload (Text (lit "LocalShellCall without call_id or id")) None))
      end
  | CustomToolCall call_id _ rest =>
      Some (InFunctionCallOutput call_id
        (FunctionCallOutputPayload
          (Text (lit "Custom tool '" ++ display_name rest ++
                 lit "' is not supported in this build")) (Some false)))
  | AdditionalTools _ | Message _ _ _ | CompactionSummary _ | ContextCompaction _ | Reasoning _ _
  | FunctionCallOutput _ _ | ToolSearchOutput _ _ | CustomToolCallOutput _ _ _ | WebSearchCall _
  | ImageGenerationCall _ _ | GhostSnapshot _ | OtherItem => None
  end.

(** The pair that [try_run_turn] pushes for an item of the stream. *)
Definition process (it : item * tool_outcome) : processed_response_item :=
  ProcessedResponseItem it.1 (handle_response_item it.1 it.2).

(** [From<ResponseInputItem> for ResponseItem]. *)
Definition from_response_input (i : input) : item :=
  match i with
  | InMessage role content => Message role content new_fields
  | InFunctionCallOutput call_id output => FunctionCallOutput call_id output
  | InMcpToolCallOutput call_id mcp_result => FunctionCallOutput call_id (mcp_payload mcp_result)
  | InCustomToolCallOutput call_id output rest => CustomToolCallOutput call_id output rest
  | InToolSearchOutput call_id rest => ToolSearchOutput (Some call_id) rest
  end.

(** What one pair adds to the conversation; an unexpected pair adds nothing. *)
Definition record_pair (p : processed_response_item) : list item :=
  match processed p, response p with
  | Message role _ _ as i, None => if str_eqb role (lit "assistant") then [i] else []
  | (LocalShellCall _ _ _ | FunctionCall _ _ _) as i, Some (InFunctionCallOutput call_id output) =>
      [i; FunctionCallOutput call_id output]
  | CustomToolCall _ _ _ as i, Some (InCustomToolCallOutput call_id output rest) =>
      [i; CustomToolCallOutput call_id output rest]
  | FunctionCall _ _ _ as i, Some (InMcpToolCallOutput call_id mcp_result) =>
      [i; FunctionCallOutput call_id (mcp_recorded mcp_result)]
  | ToolSearchCall _ _ as i, Some (InToolSearchOutput call_id rest) =>
      [i; ToolSearchOutput (Some call_id) rest]
  | Reasoning _ _ as i, None => [i]
  | ImageGenerationCall _ _ as i, None => [i]
  | _, _ => []
  end.

(** The loop over the output of a turn: the items to record, and the responses. *)
Definition record_turn (turn_output : list processed_response_item) : list item * list input :=
  (concat (record_pair <$> turn_output), omap response turn_output).

(** ** Repeated tool cycles *)

Definition tool_call_fingerprint (i : item) : option str :=
  match i with
  | FunctionCall arguments _ rest =>
      Some (json_text (FunctionCallJson (shown_fields rest) arguments))
  | LocalShellCall _ _ rest => Some (json_text (LocalShellCallJson (shown_fields rest)))
  | CustomToolCall _ input rest =>
      Some (json_text (CustomToolCallJson (shown_fields rest) input))
  | ToolSearchCall _ rest => Some (json_text (ToolSearchCallJson (shown_fields rest)))
  | _ => None
  end.

Definition tool_output_fingerprint (i : input) : option str :=
  match i with
  | InFunctionCallOutput _ output => Some (json_text (FunctionCallOutputJson (body output)))
  | InCustomToolCallOutput _ output rest =>
      Some (json_text (CustomToolCallOutputJson (shown_fields rest) (body output)))
  | InMcpToolCallOutput _ mcp_result => Some (json_text (McpToolCallOutputJson (shown_fields mcp_result)))
  | InToolSearchOutput _ rest => Some (json_text (ToolSearchOutputJson (shown_fields rest)))
  | InMessage _ _ => None
  end.

Definition from_turn (items : list item) (responses : list input)
    : option tool_cycle_fingerprint :=
  let tool_calls := omap tool_call_fingerprint items in
  match tool_calls, responses with
  | [], _ | _, [] => None
  | _, _ =>
      match omap tool_output_fingerprint responses with
      | [] => None
      | tool_outputs => Some (ToolCycleFingerprint tool_calls tool_outputs)
      end
  end.

(** [RepeatedToolCycleGuard::check] on the previous fingerprint. *)
Definition check (previous : option tool_cycle_fingerprint) (items : list item)
    (responses : list input) : result str unit * option tool_cycle_fingerprint :=
  match from_turn items responses with
  | None => (Ok tt, None)
  | Some current =>
      if bool_decide (previous = Some current)
      then (Err (lit "repeated identical tool-use cycle detected; refusing to continue after " ++
                 lit "duplicate tool calls: " ++ join (lit ", ") (tool_calls current)), previous)
      else (Ok tt, Some current)
  end.

(** ** Waiting outputs after a compaction *)

Definition collect_tool_call_ids (items : list item) : gset str :=
  fold_left (fun ids i =>
    match i with
    | FunctionCall _ call_id _ | LocalShellCall _ (Some call_id) _ | CustomToolCall call_id _ _ =>
        {[call_id]} ∪ ids
    | _ => ids
    end) items ∅.

Definition is_call (call_id : str) (i : item) : bool :=
  match i with
  | FunctionCall _ existing _ | LocalShellCall _ (Some existing) _ | CustomToolCall existing _ _ =>
      str_eqb existing call_id
  | _ => false
  end.

Definition find_call_item_by_id (items : list item) (call_id : str) : option item :=
  List.find (is_call call_id) (reverse items).

Record reconciled := Reconciled {
  call_ids_seen : gset str;
  missing_calls : list item;
  filtered_outputs : list item
}.

Definition reconcile_step (previous_input_snapshot : list item) (r : reconciled) (i : item)
    : reconciled :=
  match i with
  | FunctionCallOutput call_id _ | CustomToolCallOutput call_id _ _ =>
      if bool_decide (call_id ∈ call_ids_seen r)
      then Reconciled (call_ids_seen r) (missing_calls r) (filtered_outputs r ++ [i])
      else
        match find_call_item_by_id previous_input_snapshot call_id with
        | Some call_item =>
            Reconciled ({[call_id]} ∪ call_ids_seen r) (missing_calls r ++ [call_item])
              (filtered_outputs r ++ [i])
        | None => r
        end
  | _ => Reconciled (call_ids_seen r) (missing_calls r) (filtered_outputs r ++ [i])
  end.

Definition reconcile_pending_tool_outputs
    (pending_outputs rebuilt_history previous_input_snapshot : list item) : list item * list item :=
  let r := fold_left (reconcile_step previous_input_snapshot) pending_outputs
             (Reconciled (collect_tool_call_ids rebuilt_history) [] []) in
  (missing_calls r, filtered_outputs r).
End turn_record.
Arguments processed_response_item : clear implicits.
Arguments tool_outcome : clear implicits.

(** ** Specification *)

Section specification.
Context {opaque : Type}.
Notation item := (response_item opaque).

(** The identifiers of the calls in a conversation. *)
Definition calls (l : list item) : list str := concat (call_ids <$> l).

(** Every output of a conversation comes after a call with its identifier, or one of [seen]. *)
Fixpoint closed_after (seen : list str) (l : list item) : Prop :=
  match l with
  | [] => True
  | x :: l' =>
      (forall call_id, output_id x = Some call_id -> call_id ∈ seen) /\
      closed_after (seen ++ call_ids x) l'
  end.

(** An item whose answer is recorded with it and can be fitted to a compacted history: not
    a call of a custom tool, a search for tools or a shell call without identifier. *)
Definition answerable (i : item) : bool :=
  match i with
  | CustomToolCall _ _ _ | ToolSearchCall _ _ | LocalShellCall None None _ => false
  | _ => true
  end.

Definition is_output (i : item) : bool :=
  match output_id i with Some _ => true | None => false end.

(** The call that an output waits for, as far as it is looked at after a compaction. *)
Definition wanted (i : item) : option str :=
  match i with
  | FunctionCallOutput call_id _ | CustomToolCallOutput call_id _ _ => Some call_id
  | _ => None
  end.
End specification.

(** ** Lemmas: closed conversations *)

Section closed.
Context {opaque : Type}.
Notation item := (response_item opaque).
Implicit Types (l k : list item) (seen : list str) (x : item).

Lemma calls_app l k : calls (l ++ k) = calls l ++ calls k.
Proof. unfold calls. by rewrite fmap_app, concat_app. Qed.

Lemma elem_calls c l : c ∈ calls l <-> exists x, x ∈ l /\ c ∈ call_ids x.
Proof.
  unfold calls. rewrite list_elem_of_In, in_concat. split.
  - intros (ids & Hi & Hc). apply list_elem_of_In, list_elem_of_fmap in Hi as (x & -> & Hx).
    exists x. split; [done|]. by apply list_elem_of_In.
  - intros (x & Hx & Hc). exists (call_ids x). split; [|by apply list_elem_of_In].
    apply list_elem_of_In, list_elem_of_fmap. eauto.
Qed.

Lemma closed_mono seen seen' l :
  seen ⊆ seen' -> closed_after seen l -> closed_after seen' l.
Proof.
  revert seen seen'. induction l as [|x l IH]; intros seen seen' Hs; [done|].
  intros [H1 H2]. split; [by eauto|]. eapply IH; [|exact H2]. set_solver.
Qed.

Lemma closed_app seen l k :
  closed_after seen (l ++ k) <-> closed_after seen l /\ closed_after (seen ++ calls l) k.
Proof.
  revert seen. induction l as [|x l IH]; intros seen; cbn.
  - by rewrite app_nil_r; tauto.
  - rewrite IH. change (calls (x :: l)) with (call_ids x ++ calls l). rewrite <- app_assoc. tauto.
Qed.

Lemma closed_outputs seen l :
  (forall x call_id, x ∈ l -> output_id x = Some call_id -> call_id ∈ seen) -> closed_after seen l.
Proof.
  revert seen. induction l as [|x l IH]; intros seen H; [done|]. split.
  - intros c. apply H. set_solver.
  - apply IH. intros y c Hy Hc. apply elem_of_app. left. apply (H y c); set_solver.
Qed.

Lemma closed_no_outputs seen l : Forall (fun x => is_output x = false) l -> closed_after seen l.
Proof.
  intros H. apply closed_outputs. intros x c Hx Hc. rewrite Forall_forall in H.
  specialize (H x Hx). unfold is_output in H. by rewrite Hc in H.
Qed.

(** The item at a place of a closed conversation has its call before it. *)
Lemma closed_lookup l i x c :
  closed_after [] l -> l !! i = Some x -> output_id x = Some c ->
  exists j y, j < i /\ l !! j = Some y /\ c ∈ call_ids y.
Proof.
  intros H Hi Hc. rewrite <- (take_drop_middle l i x Hi) in H. apply closed_app in H as [_ [H _]].
  specialize (H c Hc). cbn in H. apply elem_calls in H as (y & Hy & Hc').
  apply list_elem_of_lookup in Hy as [j Hj]. apply lookup_take_Some in Hj as [Hj ?]. by exists j, y.
Qed.

Lemma wanted_output (x : item) c : wanted x = Some c -> output_id x = Some c.
Proof. by destruct x. Qed.

Lemma output_no_call (x : item) : is_output x = true -> call_ids x = [].
Proof. by destruct x. Qed.

Lemma closed_map (f : item -> item) seen l :
  (forall x, output_id (f x) = output_id x) -> (forall x, call_ids (f x) = call_ids x) ->
  closed_after seen (f <$> l) <-> closed_after seen l.
Proof.
  intros Ho Hc. revert seen. induction l as [|x l IH]; intros seen; [done|].
  rewrite fmap_cons. cbn [closed_after]. by rewrite Ho, Hc, IH.
Qed.

Lemma calls_map (f : item -> item) l :
  (forall x, call_ids (f x) = call_ids x) -> calls (f <$> l) = calls l.
Proof.
  intros H. unfold calls. rewrite <- list_fmap_compose. f_equal. apply list_fmap_ext. intros; apply H.
Qed.

(** Items that are neither calls nor outputs can be removed. *)
Definition plain (x : item) : Prop := output_id x = None /\ call_ids x = [].

Lemma closed_filter (P : item -> Prop) `{!forall x, Decision (P x)} seen l :
  (forall x, ~ P x -> plain x) ->
  (closed_after seen (filter P l) <-> closed_after seen l) /\ calls (filter P l) = calls l.
Proof.
  intros HP. split; [revert seen|]; induction l as [|x l IH]; try done.
  - intros seen. rewrite filter_cons. destruct (decide (P x)) as [|Hn]; cbn [closed_after].
    + by rewrite IH.
    + destruct (HP x Hn) as [-> ->]. rewrite app_nil_r, IH. naive_solver.
  - rewrite filter_cons. unfold calls in *. destruct (decide (P x)) as [|Hn]; cbn; [by rewrite IH|].
    by destruct (HP x Hn) as [_ ->].
Qed.
End closed.

(** ** Lemmas: one turn *)

Section turn.
Context {opaque : Type}.
Notation item := (response_item opaque).
Context (new_fields : opaque).
Context (mcp_payload mcp_recorded : opaque -> function_call_output_payload).
Context (display_name : opaque -> str).
Notation process := (process display_name).
Notation record_pair := (record_pair mcp_recorded).
Notation record_turn := (record_turn mcp_recorded).
Notation from_response_input := (from_response_input new_fields mcp_payload).

Lemma process_pair (i : item) (t : tool_outcome opaque) :
  answerable i = true ->
  closed_after [] (record_pair (process (i, t))) /\
  forall r, response (process (i, t)) = Some r ->
    exists c, wanted (from_response_input r) = Some c /\
      c ∈ calls (record_pair (process (i, t))) /\ call_ids (from_response_input r) = [].
Proof.
  intros Ha. unfold process, handle_response_item. cbn [fst snd].
  assert (forall c r x, wanted x = Some c -> call_ids x = [] -> from_response_input r = x ->
    record_pair (ProcessedResponseItem i (Some r)) = [i; x] \/
      (exists res, r = InMcpToolCallOutput c res /\
         record_pair (ProcessedResponseItem i (Some r)) = [i; FunctionCallOutput c (mcp_recorded res)]) ->
    c ∈ call_ids i -> output_id i = None ->
    closed_after [] (record_pair (ProcessedResponseItem i (Some r))) /\
    forall r', Some r = Some r' ->
      exists c, wanted (from_response_input r') = Some c /\
        c ∈ calls (record_pair (ProcessedResponseItem i (Some r))) /\
        call_ids (from_response_input r') = []) as Hpair.
  { intros c r x Hw Hx' Hr [E|(res & -> & E)] Hc Hi; rewrite E; cbn; rewrite Hi, ?(wanted_output _ _ Hw);
      (split; [split_and!; [done|intros ? [= <-]; cbn; set_solver|done]|]);
      intros ? [= <-]; exists c; rewrite ?Hr; cbn; rewrite ?Hx', ?Hw; unfold calls; cbn; set_solver. }
  destruct i as [|role ? ?| |id [c|] ?|? c ?| | | | | | | | | | |]; try done; cbn [response].
  - split; [|done]. cbn. by case_match.
  - apply (Hpair c _ (FunctionCallOutput c (payload t))); [done..|by left|cbn; set_solver|done].
  - destruct id as [c|]; [|done].
    apply (Hpair c _ (FunctionCallOutput c (payload t))); [done..|by left|cbn; set_solver|done].
  - destruct (mcp_result_of t) as [res|].
    + apply (Hpair c _ (FunctionCallOutput c (mcp_payload res)));
        [done..|right; by exists res|cbn; set_solver|done].
    + apply (Hpair c _ (FunctionCallOutput c (payload t))); [done..|by left|cbn; set_solver|done].
Qed.

Lemma record_turn_cons p l :
  record_turn (p :: l) =
  (record_pair p ++ (record_turn l).1, option_list (response p) ++ (record_turn l).2).
Proof. unfold TurnRecord.record_turn. cbn. by destruct (response p). Qed.

(** The response's output has its call among [l], and is no call itself. *)
Definition answered_in (l : list item) (r : response_input_item opaque) : Prop :=
  exists c, wanted (from_response_input r) = Some c /\ c ∈ calls l /\
    call_ids (from_response_input r) = [].

Lemma answered_app_l l k r : answered_in l r -> answered_in (l ++ k) r.
Proof. intros (c & ? & ? & ?). exists c. rewrite calls_app. set_solver. Qed.

Lemma answered_app_r l k r : answered_in k r -> answered_in (l ++ k) r.
Proof. intros (c & ? & ? & ?). exists c. rewrite calls_app. set_solver. Qed.

Lemma turn_recorded (its : list (item * tool_outcome opaque)) seen :
  Forall (fun it => answerable it.1 = true) its ->
  closed_after seen (record_turn (process <$> its)).1 /\
  Forall (answered_in (record_turn (process <$> its)).1) (record_turn (process <$> its)).2.
Proof.
  intros H. revert seen. induction H as [|[i t] its Ha _ IH]; intros seen; [done|].
  destruct (process_pair i t Ha) as [Hc Hr]. rewrite fmap_cons, record_turn_cons. cbn [fst snd].
  destruct (IH (seen ++ calls (record_pair (process (i, t))))) as [IH1 IH2]. split.
  - apply closed_app. split; [|done]. eapply closed_mono; [|exact Hc]. set_solver.
  - apply Forall_app. split.
    + destruct (response (process (i, t))) as [r|]; [|done]. cbn. constructor; [|done].
      apply answered_app_l. by apply Hr.
    + eapply Forall_impl; [exact IH2|]. intros r. apply answered_app_r.
Qed.
End turn.

(** ** Lemmas: waiting outputs after a compaction *)

Section reconcile.
Context {opaque : Type}.
Notation item := (response_item opaque).
Implicit Types (l snapshot rebuilt : list item).

(** The identifier of a call. *)
Definition call_key (i : item) : option str :=
  match i with
  | FunctionCall _ call_id _ | LocalShellCall _ (Some call_id) _ | CustomToolCall call_id _ _ =>
      Some call_id
  | _ => None
  end.

Lemma call_key_ids c (i : item) : call_key i = Some c -> c ∈ call_ids i.
Proof. destruct i as [| | |id [c'|] ?| | | | | | | | | | | |]; cbn; try done; intros [= ->]; set_solver. Qed.

Lemma is_call_key c (i : item) : is_call c i = true <-> call_key i = Some c.
Proof.
  unfold is_call, call_key, str_eqb. repeat case_match; rewrite ?bool_decide_eq_true; naive_solver.
Qed.

Lemma elem_collect c l : c ∈ collect_tool_call_ids l <-> exists x, x ∈ l /\ call_key x = Some c.
Proof.
  unfold collect_tool_call_ids.
  assert (forall acc : gset str, c ∈ fold_left (fun ids i =>
    match i with
    | FunctionCall _ call_id _ | LocalShellCall _ (Some call_id) _ | CustomToolCall call_id _ _ =>
        {[call_id]} ∪ ids
    | _ => ids
    end) l acc <-> c ∈ acc \/ exists x, x ∈ l /\ call_key x = Some c) as H;
    [|rewrite H; set_solver].
  induction l as [|x l IH]; intros acc; cbn; [set_solver|]. rewrite IH.
  assert (forall P : item -> Prop, (exists y, y ∈ x :: l /\ P y) <-> P x \/ exists y, y ∈ l /\ P y)
    as -> by (intros P; setoid_rewrite elem_of_cons; naive_solver).
  assert (call_key x = Some c <-> exists c', call_key x = Some c' /\ c = c') as -> by naive_solver.
  unfold call_key at 2. repeat case_match; set_solver.
Qed.

Lemma find_call_Some snapshot c x :
  find_call_item_by_id snapshot c = Some x -> x ∈ snapshot /\ call_key x = Some c.
Proof.
  intros [Hx Hc]%find_some. apply list_elem_of_In in Hx. by rewrite elem_of_reverse, is_call_key in *.
Qed.

Lemma find_call_None snapshot c :
  find_call_item_by_id snapshot c = None -> c ∉ collect_tool_call_ids snapshot.
Proof.
  intros H (x & Hx & Hk)%elem_collect. apply is_call_key in Hk.
  rewrite (find_none _ _ H x) in Hk; [done|]. by apply list_elem_of_In, elem_of_reverse.
Qed.

Definition reachable rebuilt snapshot (i : item) : bool :=
  match wanted i with
  | Some c => bool_decide (c ∈ collect_tool_call_ids rebuilt \/ c ∈ collect_tool_call_ids snapshot)
  | None => true
  end.

(** What holds of the outputs handled so far. *)
Definition reconciled_so_far rebuilt snapshot done_ (r : reconciled (opaque:=opaque)) : Prop :=
  call_ids_seen r =
    collect_tool_call_ids rebuilt ∪ list_to_set (omap call_key (missing_calls r)) /\
  filtered_outputs r = filter (fun i => reachable rebuilt snapshot i = true) done_ /\
  NoDup (omap call_key (missing_calls r)) /\
  Forall (fun x => x ∈ snapshot /\ exists c, call_key x = Some c /\
    c ∉ collect_tool_call_ids rebuilt /\ c ∈ omap wanted done_) (missing_calls r) /\
  Forall (fun i => forall c, wanted i = Some c -> c ∈ call_ids_seen r) (filtered_outputs r).

Lemma reconcile_step_spec rebuilt snapshot done_ r i :
  reconciled_so_far rebuilt snapshot done_ r ->
  reconciled_so_far rebuilt snapshot (done_ ++ [i]) (reconcile_step snapshot r i).
Proof.
  intros (Hs & Hf & Hn & Hm & Hk). unfold reconciled_so_far.
  rewrite filter_app, filter_cons, filter_nil, omap_app.
  assert (Forall (fun x => x ∈ snapshot /\ exists c, call_key x = Some c /\
    c ∉ collect_tool_call_ids rebuilt /\ c ∈ omap wanted done_ ++ omap wanted [i])
    (missing_calls r)) as Hm'.
  { eapply Forall_impl; [exact Hm|]. set_solver. }
  destruct (wanted i) as [c|] eqn:Ew.
  2: { assert (reachable rebuilt snapshot i = true) as Er by (unfold reachable; by rewrite Ew).
    rewrite Er, decide_True by done.
    assert (reconcile_step snapshot r i =
      Reconciled (call_ids_seen r) (missing_calls r) (filtered_outputs r ++ [i])) as ->
      by (by destruct i). cbn. split_and!; [done|by rewrite Hf|done|done|].
    apply Forall_app. split; [done|]. apply Forall_singleton. by rewrite Ew. }
  assert (reconcile_step snapshot r i =
    if bool_decide (c ∈ call_ids_seen r)
    then Reconciled (call_ids_seen r) (missing_calls r) (filtered_outputs r ++ [i])
    else match find_call_item_by_id snapshot c with
      | Some call_item =>
          Reconciled ({[c]} ∪ call_ids_seen r) (missing_calls r ++ [call_item])
            (filtered_outputs r ++ [i])
      | None => r
      end) as -> by (destruct i; naive_solver).
  assert (reachable rebuilt snapshot i = true <-> c ∈ collect_tool_call_ids rebuilt \/
    c ∈ collect_tool_call_ids snapshot) as Er
    by (unfold reachable; by rewrite Ew, bool_decide_eq_true).
  case_bool_decide as Hc.
  - cbn. rewrite decide_True.
    2: { apply Er. rewrite Hs in Hc.
      apply elem_of_union in Hc as [Hc|Hc]; [by left|right].
      apply elem_of_list_to_set, list_elem_of_omap in Hc as (x & Hx & Hkx).
      rewrite Forall_forall in Hm. apply elem_collect. exists x. split; [by apply Hm|done]. }
    split_and!; [done|by rewrite Hf|done|done|].
    apply Forall_app. split; [done|]. apply Forall_singleton. intros c0 Hc0. congruence.
  - destruct (find_call_item_by_id snapshot c) as [x|] eqn:Ef.
    + apply find_call_Some in Ef as [Hx Hkx]. cbn. rewrite decide_True.
      2: { apply Er. right. apply elem_collect. eauto. }
      rewrite omap_app. cbn. rewrite Hkx, Ew. split_and!.
      * rewrite Hs. set_solver.
      * by rewrite Hf.
      * apply NoDup_app. split_and!; [done| |apply NoDup_singleton]. rewrite Hs in Hc. set_solver.
      * apply Forall_app. split; [by cbn in Hm'; rewrite Ew in Hm'|]. apply Forall_singleton.
        split; [done|]. exists c. rewrite Hs in Hc. set_solver.
      * apply Forall_app. split; [eapply Forall_impl; [exact Hk|]; set_solver|].
        apply Forall_singleton. intros c0 Hc0.
        assert (c0 = c) as -> by congruence. set_solver.
    + rewrite decide_False.
      2: { rewrite Er. apply find_call_None in Ef. rewrite Hs in Hc. set_solver. }
      rewrite app_nil_r. by split_and!.
Qed.

Lemma reconcile_total pending rebuilt snapshot :
  exists seen, reconciled_so_far rebuilt snapshot pending
    (Reconciled seen (reconcile_pending_tool_outputs pending rebuilt snapshot).1
       (reconcile_pending_tool_outputs pending rebuilt snapshot).2).
Proof.
  unfold reconcile_pending_tool_outputs. cbn [fst snd].
  set (r0 := Reconciled (collect_tool_call_ids rebuilt) [] []).
  assert (forall l done_ r, reconciled_so_far rebuilt snapshot done_ r ->
    reconciled_so_far rebuilt snapshot (done_ ++ l) (fold_left (reconcile_step snapshot) l r)) as H.
  { induction l as [|i l IH]; intros done_ r Hr; cbn; [by rewrite app_nil_r|].
    replace (done_ ++ i :: l) with ((done_ ++ [i]) ++ l) by (by rewrite <- app_assoc).
    apply IH. by apply reconcile_step_spec. }
  exists (call_ids_seen (fold_left (reconcile_step snapshot) pending r0)).
  specialize (H pending [] r0).
  destruct (fold_left (reconcile_step snapshot) pending r0). apply H.
  unfold reconciled_so_far. cbn. split_and!; [set_solver|done|constructor..].
Qed.
End reconcile.

(** ** The guard on a sequence of turns *)

Section guard.
Context {opaque : Type}.
Notation item := (response_item opaque).
Context (shown_fields : opaque -> opaque) (json_text : fingerprint_json opaque -> str).
Notation check := (check shown_fields json_text).

(** The first turn that the guard refuses. *)
Fixpoint guard_run (previous : option tool_cycle_fingerprint)
    (turns : list (list item * list (response_input_item opaque))) : option nat :=
  match turns with
  | [] => None
  | (items, responses) :: turns =>
      match check previous items responses with
      | (Err _, _) => Some 0
      | (Ok _, previous) => S <$> guard_run previous turns
      end
  end.

(** What a turn does, without the identifiers of its items: its calls, and its outputs as they
    are serialised, without whether they succeeded. *)
Definition call_shown (i : item) : option (fingerprint_json opaque) :=
  match i with
  | FunctionCall arguments _ rest => Some (FunctionCallJson (shown_fields rest) arguments)
  | LocalShellCall _ _ rest => Some (LocalShellCallJson (shown_fields rest))
  | CustomToolCall _ input rest => Some (CustomToolCallJson (shown_fields rest) input)
  | ToolSearchCall _ rest => Some (ToolSearchCallJson (shown_fields rest))
  | _ => None
  end.

Definition output_shown (i : response_input_item opaque) : option (fingerprint_json opaque) :=
  match i with
  | InFunctionCallOutput _ output => Some (FunctionCallOutputJson (body output))
  | InCustomToolCallOutput _ output rest =>
      Some (CustomToolCallOutputJson (shown_fields rest) (body output))
  | InMcpToolCallOutput _ mcp_result => Some (McpToolCallOutputJson (shown_fields mcp_result))
  | InToolSearchOutput _ rest => Some (ToolSearchOutputJson (shown_fields rest))
  | InMessage _ _ => None
  end.

Definition cycle_of (turn : list item * list (response_input_item opaque))
    : list (fingerprint_json opaque) * list (fingerprint_json opaque) :=
  (omap call_shown turn.1, omap output_shown turn.2).

(** A turn does the same as the one before it, and used tools. *)
Definition repeats (turns : list (list item * list (response_input_item opaque))) (k : nat) : Prop :=
  exists j before now, k = S j /\ turns !! j = Some before /\ turns !! k = Some now /\
    cycle_of before = cycle_of now /\ (cycle_of now).1 <> [] /\ (cycle_of now).2 <> [].

Context (json_injective : forall a b, json_text a = json_text b -> a = b).

Lemma texts_injective (l k : list (fingerprint_json opaque)) :
  json_text <$> l = json_text <$> k -> l = k.
Proof. apply list_fmap_eq_inj. intros a b. apply json_injective. Qed.

Lemma from_turn_shown turn :
  from_turn shown_fields json_text turn.1 turn.2 =
  let '(c, o) := cycle_of turn in
  match c, o with
  | [], _ | _, [] => None
  | _, _ => Some (ToolCycleFingerprint (json_text <$> c) (json_text <$> o))
  end.
Proof.
  unfold from_turn, cycle_of.
  assert (omap (tool_call_fingerprint shown_fields json_text) turn.1
    = json_text <$> omap call_shown turn.1) as ->.
  { induction (turn.1) as [|i l IH]; [done|]. cbn. unfold call_shown at 1. by destruct i; cbn; rewrite IH. }
  assert (omap (tool_output_fingerprint shown_fields json_text) turn.2
    = json_text <$> omap output_shown turn.2) as ->.
  { induction (turn.2) as [|i l IH]; [done|]. cbn. unfold output_shown at 1. by destruct i; cbn; rewrite IH. }
  destruct (omap call_shown turn.1); [done|]. cbn.
  destruct turn.2 as [|r rs]; [done|]. by destruct (omap output_shown (r :: rs)).
Qed.

Lemma check_spec before now previous :
  previous = from_turn shown_fields json_text before.1 before.2 ->
  (is_ok (check previous now.1 now.2).1 = false <->
   cycle_of before = cycle_of now /\ (cycle_of now).1 <> [] /\ (cycle_of now).2 <> []) /\
  (is_ok (check previous now.1 now.2).1 = true ->
   (check previous now.1 now.2).2 = from_turn shown_fields json_text now.1 now.2).
Proof.
  intros ->. unfold TurnRecord.check. rewrite !from_turn_shown.
  destruct (cycle_of before) as [cb ob], (cycle_of now) as [[|c cs] [|o os]]; cbn;
    try (split; [split; [done|naive_solver]|done]).
  case_bool_decide as E; cbn.
  - split; [|done]. split; [|done]. intros _. split_and!; [|done..].
    destruct cb as [|c' cs'], ob as [|o' os']; try done. injection E as E1 E2 E3 E4.
    apply json_injective in E1 as ->. apply json_injective in E3 as ->.
    by rewrite (texts_injective _ _ E2), (texts_injective _ _ E4).
  - split; [|done]. split; [done|]. intros [[= -> ->] _]. by destruct E.
Qed.

Lemma guard_run_from before turns k previous :
  previous = from_turn shown_fields json_text before.1 before.2 ->
  guard_run previous turns = Some k <->
  repeats (before :: turns) (S k) /\ forall j, j < k -> ~ repeats (before :: turns) (S j).
Proof.
  revert before k previous. induction turns as [|now turns IH]; intros before k previous Hp.
  - split; [done|]. intros [(j & ? & ? & [= <-] & _ & H & _) _]. by rewrite lookup_cons in H.
  - cbn [guard_run]. destruct now as [items responses].
    destruct (check_spec before (items, responses) previous Hp) as [H1 H2]. cbn [fst snd] in *.
    assert (repeats (before :: (items, responses) :: turns) 1 <->
      is_ok (check previous items responses).1 = false) as Hr.
    { rewrite H1. split.
      - intros (j & a & b & [= <-] & [= <-] & [= <-] & H). done.
      - intros H. by exists 0, before, (items, responses). }
    assert (forall n, repeats (before :: (items, responses) :: turns) (S (S n)) <->
      repeats ((items, responses) :: turns) (S n)) as Hs.
    { intros n. split; intros (j & a & b & [= <-] & Ha & Hb & H); by eexists _, a, b. }
    destruct (check previous items responses) as [[u|e] p]; cbn in *.
    + specialize (IH (items, responses) (pred k) p (H2 eq_refl)). split.
      * intros [k' [Hk ->]]%fmap_Some. cbn in IH. apply IH in Hk as [Hk Hk']. rewrite Hs.
        split; [done|]. intros [|j] Hj; [by rewrite Hr|]. rewrite Hs. apply Hk'. lia.
      * intros [Hk Hk']. destruct k as [|k]; [by rewrite Hr in Hk|]. rewrite Hs in Hk.
        apply fmap_Some. exists k. split; [|done]. apply IH. split; [done|].
        intros j Hj. cbn in Hj. rewrite <- Hs. apply Hk'. lia.
    + split.
      * intros [= <-]. split; [by apply Hr|]. intros j Hj. lia.
      * intros [_ Hk]. destruct k as [|k]; [done|]. exfalso. apply (Hk 0); [lia|]. by apply Hr.
Qed.
End guard.

(** ** Properties *)

Section properties.
Context {opaque : Type}.
Notation item := (response_item opaque).

(** C33: The guard refuses the first turn that repeats the turn just before it, and no other
    turn: its tool calls are the same in the same order, and so are its outputs as they are
    serialised, whatever identifiers they carry and whatever [success] says, and it has at least
    one of each.  (A turn without tool calls or without outputs is no repetition, and none
    repeats it.)  The texts of different JSON objects differ. *)
Theorem repeated_cycle_stopped (shown_fields : opaque -> opaque)
    (json_text : fingerprint_json opaque -> str)
    (json_injective : forall a b, json_text a = json_text b -> a = b)
    (turns : list (list item * list (response_input_item opaque))) (k : nat) :
  guard_run shown_fields json_text None turns = Some k <->
  repeats shown_fields turns k /\ forall j, j < k -> ~ repeats shown_fields turns j.
Proof.
  pose proof (guard_run_from shown_fields json_text json_injective ([], []) turns k None eq_refl) as H.
  assert (forall n, repeats shown_fields (([], []) :: turns) (S n) <-> repeats shown_fields turns n)
    as Hs; [|setoid_rewrite Hs in H; exact H].
  intros [|n].
  - split; [|by intros (j & ? & ? & ? & _)].
    intros (j & a & b & [= <-] & [= <-] & Hb & Hab & Hn & _). by rewrite <- Hab in Hn.
  - split; intros (j & a & b & [= <-] & Ha & Hb & H'); by eexists _, a, b.
Qed.

(** After a compaction, exactly the waiting items whose call can still be shown are
    sent: an output is kept when its call is in the new history or was in the old input, in
    which case that call is added, once; other items are always kept. *)
Theorem reconcile_outcome (pending rebuilt snapshot : list item) :
  let '(missing, kept) := reconcile_pending_tool_outputs pending rebuilt snapshot in
  kept = filter (fun i => reachable rebuilt snapshot i = true) pending /\
  NoDup (omap call_key missing) /\
  Forall (fun x => x ∈ snapshot /\ exists c, call_key x = Some c /\
    c ∉ collect_tool_call_ids rebuilt /\ c ∈ omap wanted pending) missing /\
  Forall (fun i => forall c, wanted i = Some c ->
    exists x, x ∈ rebuilt ++ missing /\ call_key x = Some c) kept.
Proof.
  destruct (reconcile_total pending rebuilt snapshot) as (seen & Hs & Hf & Hn & Hm & Hk).
  destruct (reconcile_pending_tool_outputs pending rebuilt snapshot) as [missing kept].
  cbn in *. split_and!; [done..|]. eapply Forall_impl; [exact Hk|]. intros i Hi c Hc.
  specialize (Hi c Hc). rewrite Hs in Hi. apply elem_of_union in Hi as [Hi|Hi].
  - apply elem_collect in Hi as (x & ? & ?). exists x. set_solver.
  - apply elem_of_list_to_set, list_elem_of_omap in Hi as (x & ? & ?). exists x. set_solver.
Qed.
End properties.

(** ** Concrete runs *)

Module TurnRuns.
(** A text of fingerprints from which they can be read back. *)
Definition detail_rep (d : image_detail) : nat :=
  match d with Auto => 0 | Low => 1 | High => 2 | Original => 3 end.

Definition item_rep (i : function_call_output_content_item) : str + str * option nat :=
  match i with
  | OutInputText text => inl text
  | OutInputImage url detail => inr (url, detail_rep <$> detail)
  end.

Definition body_rep (b : function_call_output_body) : str + list (str + str * option nat) :=
  match b with Text t => inl t | ContentItems l => inr (item_rep <$> l) end.

Definition json_rep (j : fingerprint_json unit) :=
  match j with
  | FunctionCallJson _ arguments => (0, arguments, None)
  | LocalShellCallJson _ => (1, [], None)
  | CustomToolCallJson _ input => (2, input, None)
  | ToolSearchCallJson _ => (3, [], None)
  | FunctionCallOutputJson output => (4, [], Some (body_rep output))
  | CustomToolCallOutputJson _ output => (5, [], Some (body_rep output))
  | McpToolCallOutputJson _ => (6, [], None)
  | ToolSearchOutputJson _ => (7, [], None)
  end.

Definition json_text (j : fingerprint_json unit) : str := [N.pos (encode (json_rep j))].

#[local] Instance item_rep_inj : Inj (=) (=) item_rep.
Proof.
  intros [t|u [[]|]] [t'|u' [[]|]]; naive_solver.
Qed.

#[local] Instance body_rep_inj : Inj (=) (=) body_rep.
Proof.
  intros [] []; unfold body_rep; try done; intros [= E]; [by rewrite E|].
  f_equal. by apply (inj (fmap item_rep)) in E.
Qed.

Lemma json_text_injective a b : json_text a = json_text b -> a = b.
Proof.
  unfold json_text. intros [= E]. apply encode_inj in E.
  destruct a, b; cbn in E; try done; repeat match goal with u : unit |- _ => destruct u end;
    try done; try (injection E as E; by rewrite E).
  all: assert (body_rep output = body_rep output0) as Ep by congruence.
  all: by apply (inj body_rep) in Ep as ->.
Qed.

Definition call (id : string) : response_item unit := FunctionCall (lit "{}") (lit id) ().
Definition output (id text : string) : response_input_item unit :=
  InFunctionCallOutput (lit id) (FunctionCallOutputPayload (Text (lit text)) None).
Definition turn (id text : string) := ([call id], [output id text]).

Lemma repeated_cycle_stopped_witness :
  guard_run id json_text None [turn "c1" "a"; turn "c2" "b"; turn "c3" "b"] = Some 2 /\
  repeats id [turn "c1" "a"; turn "c2" "b"; turn "c3" "b"] 2.
Proof.
  split; [by vm_compute|].
  apply (repeated_cycle_stopped id json_text json_text_injective
    [turn "c1" "a"; turn "c2" "b"; turn "c3" "b"] 2). by vm_compute.
Defined.

(** Outputs that differ only in whether the tool succeeded are the same to the guard. *)
Example success_not_compared :
  let tried ok := ([call "c1"], [InFunctionCallOutput (lit "c1")
    (FunctionCallOutputPayload (Text (lit "done")) (Some ok))]) in
  guard_run id json_text None [tried true; tried false] = Some 1.
Proof. by vm_compute. Qed.

(** The call of a custom tool is answered by the output of a function, a pair that
    [run_agent] does not expect: the call is not recorded, its output is sent without it,
    and the guard does not see that a tool was used. *)
Definition custom : response_item unit := CustomToolCall (lit "c1") (lit "in") ().
Definition no_tool : tool_outcome unit :=
  ToolOutcome (FunctionCallOutputPayload (Text []) None) None ().

Lemma custom_call_orphaned :
  let p := process (fun _ => lit "t") (custom, no_tool) in
  let (recorded, responses) := record_turn (fun _ => payload no_tool) [p] in
  recorded = [] /\
  (output_id <$> (from_response_input () (fun _ => payload no_tool) <$> responses)) = [Some (lit "c1")] /\
  from_turn id json_text recorded responses = None.
Proof. by vm_compute. Qed.

(** A summary of the service is not recorded either, although the comment says that it is
    kept in the history. *)
Lemma summary_not_recorded :
  (record_turn (fun _ => payload no_tool)
    [process (fun _ => lit "t") (CompactionSummary (), no_tool)]).1 = [].
Proof. done. Qed.

(** The output of a search for tools stays although its call is gone: it is not among the
    outputs that are looked at after a compaction. *)
Lemma tool_search_output_kept :
  reconcile_pending_tool_outputs [ToolSearchOutput (Some (lit "c1")) ()]
    [] [ToolSearchCall (Some (lit "c1")) ()]
  = ([], [ToolSearchOutput (opaque:=unit) (Some (lit "c1")) ()]).
Proof. by vm_compute. Qed.
End TurnRuns.
