(* ===== verification/RunTurn.v ===== *)
(** * The requests of one turn

    [run_turn] and [try_run_turn] of [core/src/codex/streaming.rs] with the scratchpad of
    [core/src/codex/session.rs]: a request is sent, its stream is read, finished items are
    handled, and after an error the turn goes on with another account, another model, a
    compacted history, after a wait, or with the same request and what was seen of the broken
    answer.

    What the outside does in the attempts of a turn is a list of [attempt]s: the stream, what
    the tools answer, the compacted history ([Compaction]), the models that the service
    knows.  Whether the task is still the current one is asked again and again; [checks] is
    the list of answers.  Switching accounts is an operation on the files ([AccountSwitching]
    gives it, [switch_account_on_limit]).  The texts of errors, the tables of the models
    ([core/src/model_family.rs]), the developer messages, the tools of a request, delays and
    notices are left out or parameters. *)

From stdpp Require Import base list gmap.
From S2P Require Import Prelude History Truncation TurnQueue TurnRecord MemoryCitations.
From S2P Require Import Paths FileSystem Accounts AccountSwitching.

Open Scope record_scope.

(** [CodexErr]: the errors that [run_turn] tells apart.  Of a [reqwest] error only whether it
    is one of the connection is kept. *)
Inductive codex_err :=
| Interrupted
| EnvVar (name : str)
| UsageLimitReached (resets_in_seconds : option N)
| UsageNotIncluded
| QuotaExceeded
| StreamError (message : str) (request_id : option str)
| RateLimitExceeded (message : str) (request_id : option str)
| Reqwest (of_connection : bool)
| OtherError (message : str).

#[export] Instance codex_err_eq_dec : EqDecision codex_err.
Proof. solve_decision. Defined.

(** ** Texts of errors *)

Definition mentions (words : list string) (message : str) : bool :=
  existsb (fun w => str_contains (lit w) message) words.

Definition is_context_overflow_stream_error (message : str) : bool :=
  let lower := to_ascii_lowercase message in
  mentions ["exceeds the context window"; "exceed the context window"; "context length exceeded";
            "maximum context length"]%string lower
  || (mentions ["context window"]%string lower
      && mentions ["exceed"; "exceeded"; "full"; "too long"]%string lower).

Definition is_usage_limit_stream_error (message : str) : bool :=
  mentions ["usage limit"; "usage_limit_reached"; "usage_not_included"]%string
    (to_ascii_lowercase message).

Definition is_connectivity_error (e : codex_err) : bool :=
  match e with
  | Reqwest of_connection => of_connection
  | RateLimitExceeded _ _ => false
  | StreamError msg _ =>
      let lower := to_ascii_lowercase msg in
      (starts_with (lit "[transport]") msg
       || mentions ["transport"; "network"; "connection"; "connectivity"; "timeout"]%string lower)
      && negb (mentions ["context window"; "context length"; "usage limit"; "usage_not_included";
                         "quota exceeded"]%string lower)
  | _ => false
  end.

(** ** Models *)

Definition spark_fallback_model (model : str) : option str :=
  if eq_ignore_ascii_case model (lit "gpt-5.3-codex-spark") then Some (lit "gpt-5.3-codex")
  else if eq_ignore_ascii_case model (lit "code-gpt-5.3-codex-spark")
  then Some (lit "code-gpt-5.3-codex")
  else None.

Record context_fallback_candidate := ContextFallbackCandidate {
  candidate_model : str;
  context_window : option N;
  priority : Z
}.

Definition is_deprecated_context_fallback_model (model : str) : bool :=
  let lower := to_ascii_lowercase model in
  str_eqb lower (lit "gpt-4.1") || starts_with (lit "gpt-4.1-") lower.

Section models.
Context (context_window_for_model : str -> option N).

Definition larger_window (current_model : str) (c : context_fallback_candidate) : option N :=
  if eq_ignore_ascii_case (candidate_model c) current_model then None
  else if is_deprecated_context_fallback_model (candidate_model c) then None
  else
    window ← (match context_window c with
              | Some window => Some window
              | None => context_window_for_model (candidate_model c)
              end);
    if (window <=? default 0 (context_window_for_model current_model))%N then None
    else Some window.

Definition consider (current_model : str) (best : option (N * Z * str))
    (c : context_fallback_candidate) : option (N * Z * str) :=
  match larger_window current_model c with
  | None => best
  | Some window =>
      match best with
      | Some (best_window, best_priority, _) =>
          if (window <? best_window)%N then best
          else if (window =? best_window)%N && (priority c <? best_priority)%Z then best
          else Some (window, priority c, candidate_model c)
      | None => Some (window, priority c, candidate_model c)
      end
  end.

Definition choose_larger_context_model_from_candidates (current_model : str)
    (candidates : list context_fallback_candidate) : option str :=
  snd <$> fold_left (consider current_model) candidates None.
End models.

(** The models that the service announced, with an [i64] window that may be unusable. *)
Record remote_model := RemoteModel {
  slug : str;
  announced_window : option Z;
  announced_priority : Z
}.

Definition candidate_of (m : remote_model) : context_fallback_candidate :=
  ContextFallbackCandidate (slug m)
    (w ← announced_window m; if (w <=? 0)%Z then None else Some (Z.to_N w))
    (announced_priority m).

(** ** The scratchpad *)

Section turn.
Context {opaque uuid world args : Type} `{EqDecision uuid} (parse_uuid : str -> option uuid).
Notation item := (response_item opaque).
Notation input_item := (response_input_item opaque).
Notation answered := (processed_response_item opaque).
Notation outcome := (tool_outcome opaque).
(** The fields of a new message, the text of a custom tool's name and the payload of an MCP
    result, as in [TurnRecord]; the fields of an output without a name;
    [enforce_user_message_limits]. *)
Context (new_fields no_name : opaque) (display_name : opaque -> str).
Context (mcp_payload : opaque -> function_call_output_payload).
Context (enforce : input_item -> input_item).
Context (error_text : codex_err -> str).
Context (context_window_for_model : str -> option N).
Context (client_model : str) (max_retries : nat).
(** Whether another account takes over. *)
Context (switch_account : args -> option N -> rate_limit_switch_state -> world ->
                          bool * rate_limit_switch_state * world).

Record turn_scratchpad := TurnScratchpad {
  pad_items : list item;
  responses : list input_item;
  partial_assistant_text : str;
  partial_reasoning_summary : str
}.

#[export] Instance turn_scratchpad_fields : Fields turn_scratchpad :=
  fun p => TurnScratchpad (pad_items p) (responses p) (partial_assistant_text p)
             (partial_reasoning_summary p).

Definition empty_scratchpad : turn_scratchpad := TurnScratchpad [] [] [] [].

(** A request: its items and the model that overrides the client's. *)
Record request := Request { request_input : list item; request_model : option str }.

(** The session as the turn sees it.  [handled] are the items given to
    [handle_response_item] so far, [recorded] the items that the turn itself recorded. *)
Record session := Session {
  scratchpad : option turn_scratchpad;
  checks : list bool;
  handled : list item;
  requests : list request;
  recorded : list item;
  outside : world
}.

#[export] Instance session_fields : Fields session :=
  fun s => Session (scratchpad s) (checks s) (handled s) (requests s) (recorded s) (outside s).

Definition on_scratchpad (f : turn_scratchpad -> turn_scratchpad) (s : session) : session :=
  s <| scratchpad := f <$> scratchpad s |>.

Definition begin_attempt_scratchpad (s : session) : session :=
  s <| scratchpad := Some empty_scratchpad |>.

Definition scratchpad_push (i : item) (response : option input_item) (s : session) : session :=
  on_scratchpad (fun sp =>
    sp <| pad_items := pad_items sp ++ [i] |>
       <| responses := responses sp ++ option_list (enforce <$> response) |>) s.

(** The text that is kept of a growing fragment: at most its last 4000 bytes, and the
    character that would be cut. *)
Definition bounded (text : str) : str :=
  if 4000 <? str_len text
  then default [] (byte_suffix (boundary_before text (str_len text - 4000)) text)
  else text.

Definition scratchpad_add_text_delta (delta : str) : session -> session :=
  on_scratchpad (fun sp =>
    sp <| partial_assistant_text := bounded (partial_assistant_text sp ++ delta) |>).

Definition scratchpad_add_reasoning_delta (delta : str) : session -> session :=
  on_scratchpad (fun sp =>
    sp <| partial_reasoning_summary := bounded (partial_reasoning_summary sp ++ delta) |>).

Definition scratchpad_clear_partial_message : session -> session :=
  on_scratchpad (fun sp => sp <| partial_assistant_text := [] |>).

Definition take_scratchpad (s : session) : option turn_scratchpad * session :=
  (scratchpad s, s <| scratchpad := None |>).

Definition clear_scratchpad (s : session) : session := s <| scratchpad := None |>.

Definition scratchpad_has_tool_responses (s : session) : bool :=
  match scratchpad s with Some sp => negb (bool_decide (responses sp = [])) | None => false end.

(** ** One request *)

(** The events of a stream; an item comes with what its tool answers, if it is handled. *)
Inductive stream_event :=
| OutputItemDone (i : item) (t : outcome)
| Completed
| OutputTextDelta (delta : str)
| ReasoningSummaryDelta (delta : str)
| OtherEvent
| Failed (e : codex_err).

(** [ensure_turn_still_current] *)
Definition still_current (s : session) : bool * session :=
  match checks s with
  | [] => (true, s)
  | c :: rest => (c, s <| checks := rest |>)
  end.

Definition should_handle_response_item_after_turn_validation (i : item) : bool :=
  match i with
  | FunctionCall _ _ _ | ToolSearchCall _ _ | LocalShellCall _ _ _ | CustomToolCall _ _ _ => true
  | _ => false
  end.

(** [sanitize_response_item] always returns ([stripping_terminates]). *)
Definition sanitize (i : item) : item :=
  match sanitize_response_item parse_uuid i with Some (i, _) => i | None => i end.

(** Handling an item between two checks, and what is kept of it. *)
Definition handle_item (i : item) (t : outcome) (output : list answered) (s : session)
    : result codex_err (list answered) * session :=
  let response := handle_response_item display_name i t in
  let s := s <| handled := handled s ++ [i] |> in
  let '(current, s) := still_current s in
  if current
  then (Ok (output ++ [ProcessedResponseItem i response]), scratchpad_push i response s)
  else (Err Interrupted, s).

Fixpoint handle_pending (pending : list (item * outcome)) (output : list answered) (s : session)
    : result codex_err (list answered) * session :=
  match pending with
  | [] => (Ok output, s)
  | (i, t) :: pending =>
      let '(current, s) := still_current s in
      if current then
        match handle_item i t output s with
        | (Ok output, s) => handle_pending pending output s
        | (Err e, s) => (Err e, s)
        end
      else (Err Interrupted, s)
  end.

Definition is_message (i : item) : bool := match i with Message _ _ _ => true | _ => false end.

Fixpoint read_stream (events : list stream_event) (pending : list (item * outcome))
    (output : list answered) (s : session) : result codex_err (list answered) * session :=
  let '(current, s) := still_current s in
  if negb current then (Err Interrupted, s)
  else
    match events with
    | [] => (Err (StreamError (lit "stream closed before response.completed") None), s)
    | Failed e :: _ => (Err e, s)
    | event :: events =>
        let '(current, s) := still_current s in
        if negb current then (Err Interrupted, s)
        else
          match event with
          | OutputItemDone i t =>
              let i := sanitize i in
              if should_handle_response_item_after_turn_validation i
              then read_stream events (pending ++ [(i, t)]) output s
              else
                match handle_item i t output s with
                | (Ok output, s) =>
                    let s := if is_message i then scratchpad_clear_partial_message s else s in
                    read_stream events pending output s
                | (Err e, s) => (Err e, s)
                end
          | Completed => handle_pending pending output s
          | OutputTextDelta delta =>
              read_stream events pending output (scratchpad_add_text_delta delta s)
          | ReasoningSummaryDelta delta =>
              read_stream events pending output (scratchpad_add_reasoning_delta delta s)
          | OtherEvent => read_stream events pending output s
          | Failed e => (Err e, s) (* above *)
          end
    end.

Definition completed_call_id (i : item) : option str :=
  match i with
  | FunctionCallOutput call_id _ | LocalShellCall _ (Some call_id) _
  | CustomToolCallOutput call_id _ _ => Some call_id
  | _ => None
  end.

Definition pending_call_id (i : item) : option str :=
  match i with
  | FunctionCall _ call_id _ | LocalShellCall _ (Some call_id) _ | CustomToolCall call_id _ _ =>
      Some call_id
  | _ => None
  end.

Definition aborted (call_id : str) : item :=
  CustomToolCallOutput call_id (FunctionCallOutputPayload (Text (lit "aborted")) None) no_name.

Definition missing_calls (input : list item) : list item :=
  let completed_call_ids := omap completed_call_id input in
  aborted <$> filter (fun call_id => call_id ∉ completed_call_ids) (omap pending_call_id input).

(** [opened] is the outcome of [client.stream]: the events, or an error. *)
Definition try_run_turn (input : list item) (model : option str)
    (opened : result codex_err (list stream_event)) (s : session)
    : result codex_err (list answered) * session :=
  let s := s <| requests := requests s ++ [Request (missing_calls input ++ input) model] |> in
  match opened with
  | Err e => (Err e, s)
  | Ok events => read_stream events [] [] s
  end.

(** ** The attempts of a turn *)

(** What the outside does in one attempt: the stream; the model that the service prescribes;
    the status items of the request; what a switch of accounts needs; the history that a
    compaction gives, empty if it fails; the models that the service announces. *)
Record attempt := Attempt {
  opened : result codex_err (list stream_event);
  remote_override : option str;
  status_items : list item;
  switch_args : args;
  compacted_history : list item;
  remote_models : list remote_model
}.

(** The variables of [run_turn]. *)
Record variables := Variables {
  retries : nat;
  rate_limit_switch : rate_limit_switch_state;
  did_auto_compact : bool;
  did_context_model_fallback : bool;
  did_usage_limit_model_fallback : bool;
  forced_model_override : option str;
  turn_input : list item;
  attempt_input : list item
}.

#[export] Instance variables_fields : Fields variables :=
  fun v => Variables (retries v) (rate_limit_switch v) (did_auto_compact v)
             (did_context_model_fallback v) (did_usage_limit_model_fallback v)
             (forced_model_override v) (turn_input v) (attempt_input v).

Definition initial_variables (input : list item) : variables :=
  Variables 0 default_switch_state false false false None input input.

(** Why an attempt is followed by another one. *)
Inductive reason :=
| SwitchedAccount
| OtherModel
| WaitedForLimit
| CompactedHistory
| LargerModel
| Reconnected
| Retried.

Inductive verdict :=
| Return (r : result codex_err (list answered))
| Again (why : reason) (v : variables).

Definition prompt_model (a : attempt) (v : variables) : option str :=
  match forced_model_override v with Some m => Some m | None => remote_override a end.

Definition active_model (a : attempt) (v : variables) : str :=
  default client_model (prompt_model a v).

(** Falling back from a Spark model, once in a turn. *)
Definition spark_fallback (a : attempt) (v : variables) (s : session) : option (verdict * session) :=
  if did_usage_limit_model_fallback v then None
  else
    fallback_model ← spark_fallback_model (active_model a v);
    Some (Again OtherModel
            (v <| did_usage_limit_model_fallback := true |>
               <| forced_model_override := Some fallback_model |>
               <| retries := 0 |>
               <| attempt_input := turn_input v |>),
          clear_scratchpad s).

Definition on_usage_limit (a : attempt) (resets_in_seconds : option N) (v : variables) (s : session)
    : verdict * session :=
  let '(switched, state, w) :=
    switch_account (switch_args a) resets_in_seconds (rate_limit_switch v) (outside s) in
  let v := v <| rate_limit_switch := state |> in
  let s := s <| outside := w |> in
  if switched : bool then (Again SwitchedAccount (v <| retries := 0 |>), s)
  else
    match spark_fallback a v s with
    | Some r => r
    | None => (Again WaitedForLimit (v <| retries := 0 |>), s)
    end.

(** The items of a request after a compaction: the new history, the message of the user, and
    the waiting outputs that fit it. *)
Definition rebuilt_input (initial_user_item : option item) (pending_input_tail : list item)
    (compacted previous_input_snapshot : list item) : list item :=
  let rebuilt := compacted ++ option_list initial_user_item in
  if bool_decide (pending_input_tail = []) then rebuilt
  else
    let '(missing_calls, filtered_outputs) :=
      reconcile_pending_tool_outputs pending_input_tail rebuilt previous_input_snapshot in
    rebuilt ++ missing_calls ++ filtered_outputs.

(** The last 800 characters. *)
Definition tail_of (s : str) : str := drop (length s - 800) s.

Definition retry_hint (sp : turn_scratchpad) : item :=
  let reasoning :=
    if bool_decide (partial_reasoning_summary sp = []) then []
    else lit "Last reasoning summary fragment:" ++ [LF] ++ tail_of (partial_reasoning_summary sp)
           ++ [LF; LF] in
  let text :=
    if bool_decide (partial_assistant_text sp = []) then []
    else lit "Last assistant text fragment:" ++ [LF] ++ tail_of (partial_assistant_text sp)
           ++ [LF] in
  Message (lit "user")
    [InputText (lit "[EPHEMERAL:RETRY_HINT]" ++ [LF]
                ++ lit "Previous attempt aborted mid-stream. Continue without repeating."
                ++ [LF] ++ reasoning ++ text)]
    new_fields.

Definition call_to_keep (i : item) : option str :=
  match i with
  | FunctionCall _ call_id _ | LocalShellCall _ (Some call_id) _ => Some call_id
  | _ => None
  end.

(** [seen_calls.insert(call_id)] for each call of the broken answer. *)
Definition push_call (p : gset str * list item) (i : item) : gset str * list item :=
  let '(seen_calls, attempt_input) := p in
  match call_to_keep i with
  | Some call_id =>
      if bool_decide (call_id ∈ seen_calls) then (seen_calls, attempt_input)
      else ({[call_id]} ∪ seen_calls, attempt_input ++ [i])
  | None => (seen_calls, attempt_input)
  end.

Definition drain_scratchpad_into_attempt (attempt_input : list item) (s : session)
    : list item * session :=
  let '(taken, s) := take_scratchpad s in
  match taken with
  | None => (attempt_input, s)
  | Some sp =>
      let seen_calls := list_to_set (omap call_to_keep attempt_input) in
      let '(_, attempt_input) := fold_left push_call (pad_items sp) (seen_calls, attempt_input) in
      let attempt_input :=
        attempt_input ++ (from_response_input new_fields mcp_payload <$> responses sp) in
      (if bool_decide (partial_assistant_text sp = []) &&
          bool_decide (partial_reasoning_summary sp = [])
       then attempt_input else attempt_input ++ [retry_hint sp], s)
  end.

Definition should_retry_stream_after_error (has_tool_responses : bool) (retries max_retries : nat)
    : bool := negb has_tool_responses && (retries <? max_retries).

Definition request_id_of (e : codex_err) : option str :=
  match e with
  | StreamError _ request_id | RateLimitExceeded _ request_id => request_id
  | _ => None
  end.

(** The answer that broke off: wait for the network, try again, or give up. *)
Definition on_stream_error (e : codex_err) (v : variables) (s : session) : verdict * session :=
  let has_tool_responses := scratchpad_has_tool_responses s in
  if has_tool_responses then
    (Return (Err (StreamError
       (lit "stream disconnected after tool output; not retrying to avoid duplicate tool state: "
        ++ error_text e) (request_id_of e))), clear_scratchpad s)
  else if is_connectivity_error e && (max_retries <=? retries v) then
    let '(i, s) := drain_scratchpad_into_attempt (attempt_input v) s in
    (Again Reconnected (v <| attempt_input := i |> <| retries := 0 |>), s)
  else if should_retry_stream_after_error has_tool_responses (retries v) max_retries then
    let '(i, s) := drain_scratchpad_into_attempt (attempt_input v) s in
    (Again Retried (v <| attempt_input := i |> <| retries := retries v + 1 |>), s)
  else (Return (Err e), s).

Definition on_context_overflow (initial_user_item : option item) (pending_input_tail : list item)
    (a : attempt) (e : codex_err) (v : variables) (s : session) : verdict * session :=
  if negb (did_auto_compact v) then
    let v := v <| did_auto_compact := true |> in
    let s := clear_scratchpad s in
    match compacted_history a with
    | [] => (Again CompactedHistory (v <| attempt_input := turn_input v |>), s)
    | compacted =>
        let rebuilt := rebuilt_input initial_user_item pending_input_tail compacted (turn_input v) in
        (Again CompactedHistory (v <| turn_input := rebuilt |> <| attempt_input := rebuilt |>), s)
    end
  else
    match
      (if did_context_model_fallback v then None
       else choose_larger_context_model_from_candidates context_window_for_model (active_model a v)
              (candidate_of <$> remote_models a))
    with
    | Some fallback_model =>
        (Again LargerModel
           (v <| did_context_model_fallback := true |>
              <| did_auto_compact := false |>
              <| forced_model_override := Some fallback_model |>
              <| retries := 0 |>
              <| attempt_input := turn_input v |>),
         clear_scratchpad s)
    | None => (Return (Err e), s)
    end.

Definition stream_message (e : codex_err) : option str :=
  match e with StreamError msg _ => Some msg | _ => None end.

Definition on_error (initial_user_item : option item) (pending_input_tail : list item)
    (a : attempt) (e : codex_err) (v : variables) (s : session) : verdict * session :=
  match e with
  | Interrupted | EnvVar _ | QuotaExceeded => (Return (Err e), s)
  | UsageLimitReached resets_in_seconds => on_usage_limit a resets_in_seconds v s
  | UsageNotIncluded =>
      match spark_fallback a v s with
      | Some r => r
      | None => (Return (Err UsageNotIncluded), s)
      end
  | _ =>
      let fallback :=
        if default false (is_usage_limit_stream_error <$> stream_message e)
        then spark_fallback a v s else None in
      match fallback with
      | Some r => r
      | None =>
          if default false (is_context_overflow_stream_error <$> stream_message e)
          then on_context_overflow initial_user_item pending_input_tail a e v s
          else on_stream_error e v s
      end
  end.

(** One round of the loop. *)
Definition attempt_turn (initial_user_item : option item) (pending_input_tail : list item)
    (a : attempt) (v : variables) (s : session) : verdict * session :=
  let s := begin_attempt_scratchpad s in
  match try_run_turn (attempt_input v) (prompt_model a v) (opened a) s with
  | (Ok output, s) =>
      (Return (Ok output), clear_scratchpad (s <| recorded := recorded s ++ status_items a |>))
  | (Err e, s) => on_error initial_user_item pending_input_tail a e v s
  end.

(** The loop, with the reasons for its rounds.  [None]: the list of attempts was too short. *)
Fixpoint turn_loop (initial_user_item : option item) (pending_input_tail : list item)
    (attempts : list attempt) (v : variables) (s : session)
    : option (result codex_err (list answered)) * list reason * variables * session :=
  match attempts with
  | [] => (None, [], v, s)
  | a :: attempts =>
      match attempt_turn initial_user_item pending_input_tail a v s with
      | (Return r, s) => (Some r, [], v, s)
      | (Again why v, s) =>
          let '(r, whys, v, s) := turn_loop initial_user_item pending_input_tail attempts v s in
          (r, why :: whys, v, s)
      end
  end.

Definition run_turn (initial_user_item : option item) (pending_input_tail : list item)
    (input : list item) (attempts : list attempt) (s : session)
    : option (result codex_err (list answered)) * list reason * session :=
  let '(r, whys, _, s) :=
    turn_loop initial_user_item pending_input_tail attempts (initial_variables input) s in
  (r, whys, s).

(** ** Specification *)

(** The items that a tool answers. *)
Abbreviation is_call i := (should_handle_response_item_after_turn_validation i).
Definition calls (l : list item) : list item := filter (fun i => is_call i) l.

(** The calls of an attempt's stream. *)
Definition item_of_event (e : stream_event) : option item :=
  match e with OutputItemDone i _ => Some (sanitize i) | _ => None end.
Definition calls_of (a : attempt) : list item :=
  match opened a with Ok events => calls (omap item_of_event events) | Err _ => [] end.

Definition is_hint (i : item) : Prop := exists sp, i = retry_hint sp.

(** The items that a request of a turn starts from: those given to the turn, or those rebuilt
    after a compaction of one of its attempts. *)
Inductive base_input (initial_user_item : option item) (pending_input_tail input : list item)
    (attempts : list attempt) : list item -> Prop :=
| base_given : base_input initial_user_item pending_input_tail input attempts input
| base_rebuilt a previous :
    a ∈ attempts -> compacted_history a <> [] ->
    base_input initial_user_item pending_input_tail input attempts previous ->
    base_input initial_user_item pending_input_tail input attempts
      (rebuilt_input initial_user_item pending_input_tail (compacted_history a) previous).

(** The reasons that come with a wait or another account; they start the retries afresh. *)
Definition is_wait (why : reason) : bool :=
  match why with SwitchedAccount | WaitedForLimit | Reconnected => true | _ => false end.

Definition waits (whys : list reason) : nat := length (filter (fun w => is_wait w) whys).

(** ** Lemmas *)

(** What the reading of a stream leaves alone. *)
Definition same_frame (s s' : session) : Prop :=
  requests s' = requests s /\ recorded s' = recorded s /\ outside s' = outside s.

Lemma same_frame_refl s : same_frame s s.
Proof. done. Qed.

Lemma same_frame_trans s s' s'' : same_frame s s' -> same_frame s' s'' -> same_frame s s''.
Proof. unfold same_frame. intuition congruence. Qed.

(** No tool has answered and no call is kept in the scratchpad. *)
Definition pad_clean (s : session) : Prop :=
  match scratchpad s with
  | Some sp => responses sp = [] /\ Forall (fun i => call_to_keep i = None) (pad_items sp)
  | None => True
  end.

Lemma still_current_spec s c s' :
  still_current s = (c, s') ->
  handled s' = handled s /\ scratchpad s' = scratchpad s /\ same_frame s s'.
Proof. unfold still_current. destruct (checks s); intros [= <- <-]; done. Qed.

Lemma calls_of_app l k : calls (l ++ k) = calls l ++ calls k.
Proof. apply filter_app. Qed.

Lemma calls_call i : is_call i = true -> calls [i] = [i].
Proof. intros Hi. unfold calls. by rewrite filter_cons, decide_True by by rewrite Hi. Qed.

Lemma calls_not i : is_call i = false -> calls [i] = [].
Proof. intros Hi. unfold calls. rewrite filter_cons, decide_False; [done|]. rewrite Hi. cbn. tauto. Qed.

Lemma calls_cons i l : is_call i = true -> calls (i :: l) = i :: calls l.
Proof. intros Hi. change (i :: l) with ([i] ++ l). by rewrite calls_of_app, calls_call. Qed.

Lemma calls_skip i l : is_call i = false -> calls (i :: l) = calls l.
Proof. intros Hi. change (i :: l) with ([i] ++ l). by rewrite calls_of_app, calls_not. Qed.

(** An item that is not a call is not answered. *)
Lemma not_call_unanswered i t : is_call i = false -> handle_response_item display_name i t = None.
Proof. by destruct i. Qed.

Lemma not_call_not_kept i : is_call i = false -> call_to_keep i = None.
Proof. by destruct i. Qed.

Lemma handle_item_spec i t output s r s' :
  handle_item i t output s = (r, s') ->
  handled s' = handled s ++ [i] /\ same_frame s s' /\
  (is_call i = false -> pad_clean s -> pad_clean s') /\
  match r with
  | Ok out => out = output ++ [ProcessedResponseItem i (handle_response_item display_name i t)]
  | Err e => e = Interrupted
  end.
Proof.
  unfold handle_item. destruct (still_current _) as [c s1] eqn:Hc.
  apply still_current_spec in Hc as (Hh & Hp & Hf). cbn in Hh, Hp.
  destruct c; intros [= <- <-]; (split; [done|]; split; [done|]; split; [|done]);
    intros Hi; unfold pad_clean; cbn; rewrite Hp; clear Hp Hh Hf.
  2: { by destruct (scratchpad s). }
  destruct (scratchpad s) as [sp|]; [|done]. cbn. intros [Hr Hk].
  rewrite (not_call_unanswered i t Hi), Hr. cbn. split; [done|].
  apply Forall_app. split; [done|]. apply Forall_singleton. by apply not_call_not_kept.
Qed.

Lemma handle_pending_spec pending output s r s' :
  Forall (fun p => is_call p.1 = true) pending ->
  handle_pending pending output s = (r, s') ->
  same_frame s s' /\
  exists ran, calls (handled s') = calls (handled s) ++ ran /\ ran `prefix_of` (fst <$> pending) /\
  match r with
  | Ok out => exists new, out = output ++ new /\ calls (processed <$> new) = ran
  | Err e => e = Interrupted
  end.
Proof.
  revert output s. induction pending as [|[i t] pending IH]; intros output s Hp Hr; cbn in Hr.
  - injection Hr as <- <-. split; [apply same_frame_refl|]. exists []. rewrite app_nil_r.
    split; [done|]. split; [done|]. exists []. by rewrite app_nil_r.
  - apply Forall_cons in Hp as [Hi Hp]. cbn in Hi.
    destruct (still_current s) as [c s1] eqn:Hc. apply still_current_spec in Hc as (Hh & _ & Hf).
    destruct c.
    2: { injection Hr as <- <-. split; [done|]. exists []. rewrite app_nil_r, Hh.
         split; [done|]. split; [apply prefix_nil|done]. }
    destruct (handle_item i t output s1) as [[out|e] s2] eqn:Hit;
      apply handle_item_spec in Hit as (Hh2 & Hf2 & _ & Ho).
    + destruct (IH out s2 Hp Hr) as (Hf3 & ran & Hran & Hpre & Hres).
      split; [by eauto using same_frame_trans|]. exists (i :: ran).
      rewrite Hran, Hh2, Hh, calls_of_app, (calls_call i Hi), <- app_assoc.
      split; [done|]. split; [by apply prefix_cons|].
      destruct r as [out'|e]; [|done]. destruct Hres as (new & -> & Hnew). subst out.
      eexists. rewrite <- app_assoc. split; [done|]. rewrite fmap_app, calls_of_app, Hnew.
      cbn [fmap list_fmap processed]. by rewrite (calls_call i Hi).
    + injection Hr as <- <-. split; [by eauto using same_frame_trans|]. exists [i].
      rewrite Hh2, Hh, calls_of_app, (calls_call i Hi). split; [done|]. split; [|done].
      cbn. apply prefix_cons, prefix_nil.
Qed.

Lemma pad_clean_eq s s' : scratchpad s' = scratchpad s -> pad_clean s -> pad_clean s'.
Proof. unfold pad_clean. by intros ->. Qed.

Lemma pad_clean_on f s :
  (forall sp, responses (f sp) = responses sp /\ pad_items (f sp) = pad_items sp) ->
  pad_clean s -> pad_clean (on_scratchpad f s).
Proof.
  intros Hf. unfold pad_clean, on_scratchpad. cbn. destruct (scratchpad s) as [sp|]; [|done]. cbn.
  by destruct (Hf sp) as [-> ->].
Qed.

(** What the reading of a stream has done when it ends: the tools that ran, and whether the
    scratchpad holds anything that a tool left. *)
Definition stream_outcome (pending : list (item * outcome)) (events : list stream_event)
    (output : list answered) (s : session) (r : result codex_err (list answered)) (s' : session)
    : Prop :=
  same_frame s s' /\
  exists ran, calls (handled s') = calls (handled s) ++ ran /\
    ran `prefix_of` (fst <$> pending) ++ calls (omap item_of_event events) /\
    match r with
    | Ok out => exists new, out = output ++ new /\ calls (processed <$> new) = ran
    | Err e => e <> Interrupted -> ran = [] /\ pad_clean s'
    end.

Lemma stream_outcome_stop pending events output s e s' :
  handled s' = handled s -> scratchpad s' = scratchpad s -> same_frame s s' -> pad_clean s ->
  stream_outcome pending events output s (Err e) s'.
Proof.
  intros Hh Hp Hf Hc. split; [done|]. exists []. rewrite Hh, app_nil_r.
  split; [done|]. split; [apply prefix_nil|]. intros _. split; [done|]. by eapply pad_clean_eq.
Qed.

(** Events before the stream goes on that run no tool. *)
Lemma stream_outcome_skip pending pending' events events' output output' s s1 r s' :
  calls (handled s1) = calls (handled s) -> same_frame s s1 ->
  (fst <$> pending') ++ calls (omap item_of_event events') =
    (fst <$> pending) ++ calls (omap item_of_event events) ->
  (exists extra, output' = output ++ extra /\ calls (processed <$> extra) = []) ->
  stream_outcome pending' events' output' s1 r s' -> stream_outcome pending events output s r s'.
Proof.
  intros Hh Hf Hc (extra & -> & Hextra) (Hf' & ran & Hran & Hpre & Hr).
  split; [by eauto using same_frame_trans|]. exists ran. rewrite Hran, Hh, <- Hc.
  split; [done|]. split; [done|]. destruct r as [out|e]; [|done].
  destruct Hr as (new & -> & Hnew). exists (extra ++ new). rewrite <- app_assoc.
  split; [done|]. by rewrite fmap_app, calls_of_app, Hextra.
Qed.

Lemma no_extra output : exists extra, output = output ++ extra /\ calls (processed <$> extra) = [].
Proof. exists []. by rewrite app_nil_r. Qed.

Lemma read_stream_spec events pending output s r s' :
  Forall (fun p => is_call p.1 = true) pending -> pad_clean s ->
  read_stream events pending output s = (r, s') ->
  stream_outcome pending events output s r s'.
Proof.
  revert pending output s. induction events as [|event events IH]; intros pending output s Hp Hc Hr;
    cbn [read_stream] in Hr; destruct (still_current s) as [c1 s1] eqn:H1;
    apply still_current_spec in H1 as (Hh1 & Hs1 & Hf1);
    (destruct c1; cbn [negb] in Hr; [|by injection Hr as <- <-; apply stream_outcome_stop]).
  { injection Hr as <- <-. by apply stream_outcome_stop. }
  assert (pad_clean s1) as Hc1 by by eapply pad_clean_eq.
  destruct (still_current s1) as [c2 s2] eqn:H2. apply still_current_spec in H2 as (Hh2 & Hs2 & Hf2).
  assert (pad_clean s2) as Hc2 by by eapply pad_clean_eq.
  assert (same_frame s s2) as Hf by by eauto using same_frame_trans.
  assert (handled s2 = handled s) as Hh by congruence.
  assert (scratchpad s2 = scratchpad s) as Hs by congruence.
  destruct event as [i t| |delta|delta| |e].
  6: { injection Hr as <- <-. by apply stream_outcome_stop. }
  all: destruct c2; cbn [negb] in Hr; [|injection Hr as <- <-; by apply stream_outcome_stop].
  - destruct (is_call (sanitize i)) eqn:Hi.
    + assert (Forall (fun p => is_call p.1 = true) (pending ++ [(sanitize i, t)])) as Hp'
        by (apply Forall_app; split; [done|by apply Forall_singleton]).
      eapply stream_outcome_skip; [| |..|eapply (IH _ _ _ Hp' Hc2 Hr)]; [by rewrite Hh|done| |apply no_extra].
      cbn [omap list_omap item_of_event].
      rewrite fmap_app, (calls_cons _ _ Hi), <- app_assoc. done.
    + destruct (handle_item (sanitize i) t output s2) as [[out|e] s3] eqn:Hit;
        apply handle_item_spec in Hit as (Hh3 & Hf3 & Hc3 & Ho).
      * assert (pad_clean (if is_message (sanitize i) then scratchpad_clear_partial_message s3 else s3)) as Hc4.
        { destruct (is_message (sanitize i)); [|by apply Hc3]. by apply pad_clean_on, Hc3. }
        eapply stream_outcome_skip; [| |..|eapply (IH _ _ _ Hp Hc4 Hr)].
        -- transitivity (calls (handled s3)); [by destruct (is_message _)|].
           rewrite Hh3, Hh, calls_of_app, (calls_not _ Hi). apply app_nil_r.
        -- apply (same_frame_trans _ s3); [by eauto using same_frame_trans|by destruct (is_message _)].
        -- cbn [omap list_omap item_of_event].
           by rewrite (calls_skip _ _ Hi).
        -- exists [ProcessedResponseItem (sanitize i) (handle_response_item display_name (sanitize i) t)].
           split; [done|]. by apply calls_not.
      * injection Hr as <- <-. subst e. split; [by eauto using same_frame_trans|]. exists [].
        rewrite Hh3, Hh, calls_of_app, (calls_not _ Hi), !app_nil_r.
        split; [done|]. split; [apply prefix_nil|done].
  - destruct (handle_pending_spec _ _ _ _ _ Hp Hr) as (Hf3 & ran & Hran & Hpre & Hres).
    split; [by eauto using same_frame_trans|]. exists ran. rewrite Hran, Hh. split; [done|].
    split; [by apply prefix_app_r|]. by destruct r.
  - assert (pad_clean (scratchpad_add_text_delta delta s2)) as Hc3 by by apply pad_clean_on.
    eapply stream_outcome_skip; [| |..|eapply (IH _ _ _ Hp Hc3 Hr)]; [by rewrite <- Hh|done|done|apply no_extra].
  - assert (pad_clean (scratchpad_add_reasoning_delta delta s2)) as Hc3 by by apply pad_clean_on.
    eapply stream_outcome_skip; [| |..|eapply (IH _ _ _ Hp Hc3 Hr)]; [by rewrite <- Hh|done|done|apply no_extra].
  - eapply stream_outcome_skip; [| |..|eapply (IH _ _ _ Hp Hc2 Hr)]; [by rewrite <- Hh|done|done|apply no_extra].
Qed.

Lemma try_run_turn_spec input model opened s r s' :
  pad_clean s -> try_run_turn input model opened s = (r, s') ->
  requests s' = requests s ++ [Request (missing_calls input ++ input) model] /\
  recorded s' = recorded s /\ outside s' = outside s /\
  exists ran, calls (handled s') = calls (handled s) ++ ran /\
    ran `prefix_of` match opened with Ok events => calls (omap item_of_event events) | Err _ => [] end /\
    match r with
    | Ok out => calls (processed <$> out) = ran
    | Err e => e <> Interrupted -> ran = [] /\ pad_clean s'
    end.
Proof.
  intros Hc Hr. unfold try_run_turn in Hr. destruct opened as [events|e].
  - apply read_stream_spec in Hr as ((Hq & Hrec & Hf) & ran & Hran & Hpre & Hres); [|constructor|done].
    do 3 (split; [done|]). exists ran. split; [done|]. split; [done|].
    destruct r as [out|e]; [|done]. destruct Hres as (new & -> & Hnew). exact Hnew.
  - injection Hr as <- <-. do 3 (split; [done|]). exists []. cbn. rewrite app_nil_r.
    split; [done|]. split; [done|]. by intros _.
Qed.

Lemma kept_none (l : list item) seen i :
  Forall (fun j => call_to_keep j = None) l -> (fold_left push_call l (seen, i)).2 = i.
Proof.
  revert seen i. induction l as [|j l IH]; intros seen i; [done|]. intros [Hj Hl]%Forall_cons.
  cbn. rewrite Hj. by apply IH.
Qed.

(** Nothing but a hint comes out of a scratchpad in which no tool answered. *)
Lemma drain_only_hint i s i' s' :
  pad_clean s -> drain_scratchpad_into_attempt i s = (i', s') ->
  handled s' = handled s /\ requests s' = requests s /\
  exists hints, i' = i ++ hints /\ Forall is_hint hints.
Proof.
  unfold drain_scratchpad_into_attempt, pad_clean, take_scratchpad.
  destruct (scratchpad s) as [sp|]; cbn.
  - intros [Hr Hk]. pose proof (kept_none _ (list_to_set (omap call_to_keep i)) i Hk) as Hfold.
    destruct (fold_left push_call (pad_items sp) _) as [seen j]. cbn in Hfold. subst j.
    rewrite Hr. cbn [fmap list_fmap]. rewrite app_nil_r. intros [= <- <-].
    split; [done|]. split; [done|].
    destruct (_ && _); [exists []; by rewrite app_nil_r|]. exists [retry_hint sp].
    split; [done|]. apply Forall_singleton. by exists sp.
  - intros _ [= <- <-]. split; [done|]. split; [done|]. exists []. by rewrite app_nil_r.
Qed.

Lemma clean_no_responses s : pad_clean s -> scratchpad_has_tool_responses s = false.
Proof.
  unfold pad_clean, scratchpad_has_tool_responses. destruct (scratchpad s); [|done].
  intros [-> _]. done.
Qed.

Lemma spark_fallback_inv a v s x :
  spark_fallback a v s = Some x ->
  exists m, did_usage_limit_model_fallback v = false /\
    x = (Again OtherModel
           (v <| did_usage_limit_model_fallback := true |> <| forced_model_override := Some m |>
              <| retries := 0 |> <| attempt_input := turn_input v |>), clear_scratchpad s).
Proof.
  unfold spark_fallback. destruct (did_usage_limit_model_fallback v); [done|].
  destruct (spark_fallback_model _) as [m|]; [|done]. intros [= <-]. by exists m.
Qed.

(** *** What the next attempt starts from *)

Section from.
Context (initial_user_item : option item) (pending_input_tail input : list item).
Context (attempts : list attempt).
Abbreviation base := (base_input initial_user_item pending_input_tail input attempts).

(** The items of the next request are those of the turn and hints. *)
Definition variables_ok (v : variables) : Prop :=
  base (turn_input v) /\ exists hints, attempt_input v = turn_input v ++ hints /\ Forall is_hint hints.

(** How the variables change with the reason. *)
Definition flags v := (did_auto_compact v, did_context_model_fallback v, did_usage_limit_model_fallback v).

Definition changes (why : reason) (v v' : variables) : Prop :=
  match why with
  | SwitchedAccount | WaitedForLimit | Reconnected => retries v' = 0 /\ flags v' = flags v
  | OtherModel =>
      retries v' = 0 /\ did_usage_limit_model_fallback v = false /\
      flags v' = (did_auto_compact v, did_context_model_fallback v, true)
  | CompactedHistory =>
      retries v' = retries v /\ did_auto_compact v = false /\
      flags v' = (true, did_context_model_fallback v, did_usage_limit_model_fallback v)
  | LargerModel =>
      retries v' = 0 /\ did_context_model_fallback v = false /\
      flags v' = (false, true, did_usage_limit_model_fallback v)
  | Retried => retries v < max_retries /\ retries v' = retries v + 1 /\ flags v' = flags v
  end.

(** An error that is not an interruption: no request is sent and no item handled before the
    next attempt, and its variables are in order. *)
Definition good_step (v : variables) (s : session) (x : verdict * session) : Prop :=
  handled x.2 = handled s /\ requests x.2 = requests s /\
  match x.1 with
  | Return (Ok _) => False
  | Return (Err _) => True
  | Again why v' => variables_ok v' /\ changes why v v'
  end.

Lemma restart_ok v v' :
  variables_ok v -> turn_input v' = turn_input v -> attempt_input v' = turn_input v -> variables_ok v'.
Proof.
  intros [Hb _] Ht Ha. unfold variables_ok. rewrite Ht, Ha. split; [done|]. exists [].
  by rewrite app_nil_r.
Qed.

Lemma keep_ok v v' :
  variables_ok v -> turn_input v' = turn_input v -> attempt_input v' = attempt_input v -> variables_ok v'.
Proof. unfold variables_ok. by intros Hv -> ->. Qed.

Lemma hint_ok v v' hints :
  variables_ok v -> turn_input v' = turn_input v -> attempt_input v' = attempt_input v ++ hints ->
  Forall is_hint hints -> variables_ok v'.
Proof.
  intros (Hb & hs & Ha & Hh) Ht Ha' Hh'. unfold variables_ok. rewrite Ht, Ha', Ha. split; [done|].
  exists (hs ++ hints). rewrite app_assoc. split; [done|]. by apply Forall_app.
Qed.

Lemma spark_good a v s x : variables_ok v -> spark_fallback a v s = Some x -> good_step v s x.
Proof.
  intros Hv (m & Hd & ->)%spark_fallback_inv. split; [done|]. split; [done|]. cbn. split; [|done].
  by eapply restart_ok.
Qed.

Lemma usage_limit_good a resets v s : variables_ok v -> good_step v s (on_usage_limit a resets v s).
Proof.
  intros Hv. unfold on_usage_limit.
  destruct (switch_account _ _ _ _) as [[switched state] w]. destruct switched.
  - split; [done|]. split; [done|]. cbn. split; [|done]. by eapply keep_ok.
  - destruct (spark_fallback a _ _) as [x|] eqn:Hx.
    + apply spark_fallback_inv in Hx as (m & Hd & ->). split; [done|]. split; [done|]. cbn.
      split; [|done]. by eapply restart_ok.
    + split; [done|]. split; [done|]. cbn. split; [|done]. by eapply keep_ok.
Qed.

Lemma context_overflow_good a e v s :
  a ∈ attempts -> variables_ok v ->
  good_step v s (on_context_overflow initial_user_item pending_input_tail a e v s).
Proof.
  intros Ha Hv. unfold on_context_overflow. destruct (did_auto_compact v) eqn:Hd; cbn [negb].
  - destruct (if did_context_model_fallback v then None else _) as [m|] eqn:Hm; [|by split].
    destruct (did_context_model_fallback v) eqn:Hf; [done|].
    split; [done|]. split; [done|]. cbn. split; [by eapply restart_ok|]. by rewrite Hf.
  - destruct (compacted_history a) as [|i compacted] eqn:Hc; (split; [done|]; split; [done|]); cbn.
    + split; [by eapply restart_ok|]. by rewrite Hd.
    + split; [|by rewrite Hd]. rewrite <- Hc. split.
      * cbn. apply base_rebuilt; [done|by rewrite Hc|apply Hv].
      * exists []. by rewrite app_nil_r.
Qed.

Lemma stream_error_good e v s : pad_clean s -> variables_ok v -> good_step v s (on_stream_error e v s).
Proof.
  intros Hc Hv. unfold on_stream_error. rewrite (clean_no_responses _ Hc).
  destruct (_ && _).
  - destruct (drain_scratchpad_into_attempt _ s) as [i s1] eqn:Hd.
    apply drain_only_hint in Hd as (Hh & Hq & hints & -> & Hhint); [|done].
    split; [done|]. split; [done|]. cbn. split; [|done]. by eapply hint_ok.
  - destruct (should_retry_stream_after_error false _ _) eqn:Hr; [|by split].
    destruct (drain_scratchpad_into_attempt _ s) as [i s1] eqn:Hd.
    apply drain_only_hint in Hd as (Hh & Hq & hints & -> & Hhint); [|done].
    split; [done|]. split; [done|]. cbn. split; [by eapply hint_ok|]. by apply Nat.ltb_lt in Hr.
Qed.

Lemma on_error_good a e v s :
  a ∈ attempts -> e <> Interrupted -> pad_clean s -> variables_ok v ->
  good_step v s (on_error initial_user_item pending_input_tail a e v s).
Proof.
  intros Ha He Hc Hv.
  assert (forall (b : bool) x, (if b then spark_fallback a v s else None) = Some x -> good_step v s x) as Hspark.
  { intros [] x Hx; [by eapply spark_good|done]. }
  assert (forall e', good_step v s (Return (Err e'), s)) as Hret by done.
  destruct e; cbn [on_error]; try done; try apply Hret.
  1: by apply usage_limit_good.
  1: { destruct (spark_fallback a v s) as [x|] eqn:Hx; [by eapply spark_good|apply Hret]. }
  all: match goal with |- context [if ?b then spark_fallback ?a' ?v' ?s' else None] =>
         destruct (if b then spark_fallback a' v' s' else None) as [x|] eqn:Hx end;
    [by eapply Hspark|];
    match goal with |- context [if ?b then on_context_overflow _ _ _ _ _ _ else _] => destruct b end;
    [by apply context_overflow_good|by apply stream_error_good].
Qed.

(** One attempt: its request, the tools that ran, and what follows. *)
Lemma attempt_turn_spec a v s x s' :
  a ∈ attempts -> variables_ok v ->
  attempt_turn initial_user_item pending_input_tail a v s = (x, s') ->
  requests s' = requests s ++
    [Request (missing_calls (attempt_input v) ++ attempt_input v) (prompt_model a v)] /\
  exists ran, calls (handled s') = calls (handled s) ++ ran /\ ran `prefix_of` calls_of a /\
    match x with
    | Return (Ok out) => calls (processed <$> out) = ran
    | Return (Err e) => e <> Interrupted -> ran = []
    | Again why v' => ran = [] /\ variables_ok v' /\ changes why v v'
    end.
Proof.
  intros Ha Hv Hx. unfold attempt_turn in Hx.
  destruct (try_run_turn _ _ _ _) as [[out|e] s1] eqn:Ht;
    apply try_run_turn_spec in Ht as (Hq & _ & _ & ran & Hran & Hpre & Hres); try done.
  - injection Hx as <- <-. cbn. rewrite Hq. split; [done|]. exists ran. by split.
  - destruct (decide (e = Interrupted)) as [->|Hne].
    + cbn in Hx. injection Hx as <- <-. split; [done|]. exists ran. by split.
    + destruct (Hres Hne) as [-> Hc].
      pose proof (on_error_good a e v s1 Ha Hne Hc Hv) as (Hh & Hq' & Hgood).
      rewrite Hx in Hh, Hq', Hgood. cbn [fst snd] in *.
      split; [by rewrite Hq', Hq|]. exists []. rewrite Hh. split; [done|]. split; [apply prefix_nil|].
      destruct x as [[out|e']|why v']; done.
Qed.

(** *** The loop *)

Definition request_ok (q : request) : Prop :=
  exists i hints, base i /\ Forall is_hint hints /\ request_input q = missing_calls i ++ i ++ hints.

Lemma hints_no_calls (l : list item) :
  Forall is_hint l -> omap completed_call_id l = [] /\ omap pending_call_id l = [].
Proof.
  induction 1 as [|i l [sp ->] _ [IH1 IH2]]; [done|]. cbn. by rewrite IH1, IH2.
Qed.

Lemma missing_calls_hints i hints : Forall is_hint hints -> missing_calls (i ++ hints) = missing_calls i.
Proof.
  intros [Hc Hp]%hints_no_calls. unfold missing_calls. by rewrite !omap_app, Hc, Hp, !app_nil_r.
Qed.

(** What bounds the rounds that are no waits: the retries that are left, and what the changes
    of model and the compactions that are left allow. *)
Definition rounds_left (v : variables) : nat :=
  (max_retries - retries v) +
  (if did_usage_limit_model_fallback v then 0 else 1 + max_retries) +
  (if did_auto_compact v then 0 else 1) +
  (if did_context_model_fallback v then 0 else 2 + max_retries).

Lemma waits_cons why whys : waits (why :: whys) = (if is_wait why then 1 else 0) + waits whys.
Proof. unfold waits. rewrite filter_cons. by destruct (is_wait why). Qed.

Lemma changes_rounds why v v' :
  changes why v v' ->
  if is_wait why then rounds_left v' <= rounds_left v + max_retries
  else rounds_left v' < rounds_left v.
Proof.
  unfold rounds_left, changes, flags. destruct why; cbn [is_wait]; intros Hch;
    repeat match goal with H : _ /\ _ |- _ => destruct H end;
    match goal with H : (_, _, _) = _ |- _ => injection H as -> -> -> end;
    repeat match goal with H : retries v' = _ |- _ => rewrite H end;
    repeat match goal with H : did_auto_compact v = _ |- _ => rewrite H
                      | H : did_context_model_fallback v = _ |- _ => rewrite H
                      | H : did_usage_limit_model_fallback v = _ |- _ => rewrite H end;
    destruct (did_auto_compact v), (did_context_model_fallback v), (did_usage_limit_model_fallback v);
    lia.
Qed.

(** The tools that ran until the loop ended. *)
Definition ran_tools (l : list attempt) (r : option (result codex_err (list answered)))
    (ran : list item) : Prop :=
  match r with
  | Some (Ok out) => calls (processed <$> out) = ran
  | Some (Err Interrupted) => exists a, a ∈ l /\ ran `prefix_of` calls_of a
  | Some (Err _) | None => ran = []
  end.

Lemma turn_loop_spec l v s r whys v' s' :
  (forall a, a ∈ l -> a ∈ attempts) -> variables_ok v ->
  turn_loop initial_user_item pending_input_tail l v s = (r, whys, v', s') ->
  exists reqs ran,
    requests s' = requests s ++ reqs /\ Forall request_ok reqs /\
    calls (handled s') = calls (handled s) ++ ran /\ ran_tools l r ran /\
    length whys + rounds_left v' <= rounds_left v + (max_retries + 1) * waits whys /\
    (r = None -> length whys = length l).
Proof.
  revert v s r whys v' s'. induction l as [|a l IH]; intros v s r whys v' s' Hl Hv Hr; cbn in Hr.
  - injection Hr as <- <- <- <-. exists [], []. rewrite !app_nil_r. repeat split; [constructor|cbn; lia].
  - destruct (attempt_turn initial_user_item pending_input_tail a v s) as [x s1] eqn:Ha.
    apply attempt_turn_spec in Ha as (Hq & ran & Hran & Hpre & Hx); [|by apply Hl; left|done].
    destruct Hv as (Hb & hints & Hin & Hh).
    assert (request_ok (Request (missing_calls (attempt_input v) ++ attempt_input v) (prompt_model a v))) as Hok.
    { exists (turn_input v), hints. split; [done|]. split; [done|].
      cbn. by rewrite Hin, missing_calls_hints. }
    destruct x as [res|why v1].
    + injection Hr as <- <- <- <-. eexists [_], ran. split; [done|]. split; [by apply Forall_singleton|].
      split; [done|]. split; [|split; [cbn; lia|done]].
      destruct res as [out|e]; [done|]. destruct e; try by apply Hx. exists a. split; [by left|done].
    + destruct Hx as (-> & Hv1 & Hch). rewrite app_nil_r in Hran.
      destruct (turn_loop initial_user_item pending_input_tail l v1 s1) as [[[r1 whys1] v2] s2] eqn:Hloop.
      injection Hr as <- <- <- <-.
      assert (forall b, b ∈ l -> b ∈ attempts) as Hl' by (intros b Hb'; apply Hl; by right).
      destruct (IH _ _ _ _ _ _ Hl' Hv1 Hloop)
        as (reqs & ran2 & Hq2 & Hok2 & Hran2 & Hres & Hlen & Hnone).
      eexists (_ :: reqs), ran2. rewrite Hq2, Hq, <- app_assoc. split; [done|].
      split; [by constructor|]. split; [by rewrite Hran2, Hran|]. split.
      { destruct r1 as [[out|[]]|]; try done. destruct Hres as (b & Hb' & Hp). exists b.
        split; [by right|done]. }
      split; [|intros Hr; cbn; by rewrite (Hnone Hr)].
      apply changes_rounds in Hch. rewrite waits_cons. cbn [length].
      destruct (is_wait why); nia.
Qed.
End from.

(** *** Fragments *)

Lemma boundary_before_max (text : str) e n : boundary text n -> n <= e -> n <= boundary_before text e.
Proof.
  induction e as [|e IH]; intros Hb Hn; [lia|]. cbn [boundary_before].
  destruct (is_char_boundary text (S e)) eqn:E; [lia|].
  destruct (decide (n = S e)) as [->|]; [|apply IH; [done|lia]].
  apply is_char_boundary_spec in Hb. congruence.
Qed.

(** What is kept of a fragment is its end, of a bounded size. *)
Lemma bounded_spec (text : str) :
  (exists front, text = front ++ bounded text) /\ str_len (bounded text) <= 4003.
Proof.
  unfold bounded. destruct (Nat.ltb_spec 4000 (str_len text)) as [Hlen|Hlen].
  2: { split; [by exists []|lia]. }
  destruct (boundary_before_spec text (str_len text - 4000)) as [Hb _].
  destruct (boundary_near text (str_len text - 4000)) as (n & Hn & Hle); [lia|].
  pose proof (boundary_before_max text _ n Hn (proj1 Hle)) as Hmax.
  destruct Hb as (p & q & Ht & Hp).
  assert (byte_suffix (boundary_before text (str_len text - 4000)) text = Some q) as ->
    by (apply byte_suffix_spec; by exists p).
  change (default [] (Some q)) with q. split; [by exists p|]. pose proof (f_equal str_len Ht) as Hl. rewrite str_len_app in Hl. lia.
Qed.

(** ** Properties *)

(** C2: In one turn the tools of one answer run, once and in order: those of the answer that
    the turn returns; when the turn is interrupted, the first ones of one answer; and none
    when it fails.  So no answer that broke off has run a tool, and none runs twice. *)
Theorem tools_run_once initial_user_item pending_input_tail input l s r whys s' :
  run_turn initial_user_item pending_input_tail input l s = (r, whys, s') ->
  exists ran, calls (handled s') = calls (handled s) ++ ran /\
    match r with
    | Some (Ok out) => ran = calls (processed <$> out)
    | Some (Err Interrupted) => exists a, a ∈ l /\ ran `prefix_of` calls_of a
    | Some (Err _) | None => ran = []
    end.
Proof.
  unfold run_turn. destruct (turn_loop _ _ _ _ _) as [[[r1 whys1] v1] s1] eqn:Hr. intros [= <- <- <-].
  apply (turn_loop_spec initial_user_item pending_input_tail input l) in Hr
    as (_ & ran & _ & _ & Hran & Hres & _); [|done|].
  - exists ran. split; [done|]. by destruct r1 as [[out|[]]|].
  - split; [constructor|]. exists []. by rewrite app_nil_r.
Qed.

(** *** The items of a request, independently of the code *)

(** A call of a function or of a custom tool; an output. *)
Definition made_call (c : str) (x : item) : Prop :=
  (exists arguments rest, x = FunctionCall arguments c rest) \/
  (exists text rest, x = CustomToolCall c text rest).
Definition output_for (c : str) (x : item) : Prop :=
  (exists output, x = FunctionCallOutput c output) \/
  (exists output rest, x = CustomToolCallOutput c output rest).

(** Any call that an output is fitted to after a compaction. *)
Definition any_call (c : str) (x : item) : Prop :=
  made_call c x \/ exists id rest, x = LocalShellCall id (Some c) rest.

(** Neither a call of the local shell nor a search for tools. *)
Definition ordinary (x : item) : Prop :=
  match x with LocalShellCall _ _ _ | ToolSearchCall _ _ => False | _ => True end.

Definition aborted_output (c : str) : item :=
  CustomToolCallOutput c (FunctionCallOutputPayload (Text (lit "aborted")) None) no_name.

(** An aborted output for each call of [l] that has no output in [all], in order. *)
Inductive aborted_for (all : list item) : list item -> list item -> Prop :=
| aborted_none : aborted_for all [] []
| aborted_open c x l front :
    made_call c x -> (forall y, y ∈ all -> ~ output_for c y) -> aborted_for all l front ->
    aborted_for all (x :: l) (aborted_output c :: front)
| aborted_other x l front :
    (forall c, made_call c x -> exists y, y ∈ all /\ output_for c y) -> aborted_for all l front ->
    aborted_for all (x :: l) front.

(** The items of a list that satisfy a condition, in order. *)
Inductive picked (P : item -> Prop) : list item -> list item -> Prop :=
| picked_none : picked P [] []
| picked_one x l k : P x -> picked P l k -> picked P (x :: l) (x :: k)
| picked_skip x l k : ~ P x -> picked P l k -> picked P (x :: l) k.

(** What a turn goes on with after a compaction: the new history, the message of the user,
    calls taken back from what it had before, and the waiting items but for the outputs whose
    call is nowhere.  A call is taken back only for an output whose call is not in the new
    history, once, and every output has its call. *)
Definition rebuilt_from (initial_user_item : option item) (tail compacted previous result : list item)
    : Prop :=
  let start := compacted ++ option_list initial_user_item in
  exists taken kept, result = start ++ taken ++ kept /\
    picked (fun x => forall c, output_for c x -> exists y, y ∈ start ++ previous /\ any_call c y) tail kept /\
    Forall (fun x => x ∈ previous /\ exists c o, any_call c x /\ o ∈ kept /\ output_for c o /\
      forall y, y ∈ start -> ~ any_call c y) taken /\
    (forall i j x y c, taken !! i = Some x -> taken !! j = Some y ->
      any_call c x -> any_call c y -> i = j) /\
    Forall (fun o => forall c, output_for c o -> exists y, y ∈ start ++ taken /\ any_call c y) kept.

(** The items that a request of a turn starts from. *)
Inductive goes_on_from (initial_user_item : option item) (tail input : list item)
    (attempts : list attempt) : list item -> Prop :=
| from_input : goes_on_from initial_user_item tail input attempts input
| from_compaction a previous result :
    goes_on_from initial_user_item tail input attempts previous ->
    a ∈ attempts -> compacted_history a <> [] ->
    rebuilt_from initial_user_item tail (compacted_history a) previous result ->
    goes_on_from initial_user_item tail input attempts result.

(** A hint about an answer that broke off. *)
Definition hint (x : item) : Prop :=
  exists fragments, x = Message (lit "user") [InputText (lit "[EPHEMERAL:RETRY_HINT]" ++ [LF] ++
    lit "Previous attempt aborted mid-stream. Continue without repeating." ++ [LF] ++ fragments)] new_fields.

Lemma is_hint_hint (l : list item) : Forall is_hint l -> Forall hint l.
Proof.
  intros H. eapply Forall_impl; [exact H|]. intros x [sp ->]. by eexists.
Qed.

Lemma picked_filter (P : item -> Prop) `{!forall x, Decision (P x)} (Q : item -> Prop) l :
  (forall x, P x <-> Q x) -> picked Q l (filter P l).
Proof.
  intros HPQ. induction l as [|x l IH]; [constructor|]. rewrite filter_cons.
  case_decide as Hd; constructor; naive_solver.
Qed.

Lemma NoDup_omap_lookup {A} (key : item -> option A) l i j x y c :
  NoDup (omap key l) -> l !! i = Some x -> l !! j = Some y -> key x = Some c -> key y = Some c -> i = j.
Proof.
  revert i j. induction l as [|z l IH]; [done|]. intros i j Hn Hi Hj Hx Hy. cbn [omap list_omap] in Hn.
  assert (forall n w, l !! n = Some w -> key w = Some c -> c ∈ omap key l) as Hin
    by (intros n w Hw Hk; apply list_elem_of_omap; exists w; split; [by eapply list_elem_of_lookup_2|done]).
  destruct i as [|i], j as [|j]; [done| | |].
  - injection Hi as ->. rewrite Hx in Hn. apply NoDup_cons in Hn as [Hn _]. by destruct Hn; eapply Hin.
  - injection Hj as ->. rewrite Hy in Hn. apply NoDup_cons in Hn as [Hn _]. by destruct Hn; eapply Hin.
  - f_equal. apply IH; [|done..]. destruct (key z); [|done]. by apply NoDup_cons in Hn as [_ Hn].
Qed.

Lemma call_key_any c (x : item) : call_key x = Some c <-> any_call c x.
Proof.
  unfold any_call, made_call. destruct x as [| | |id [c'|] ?| | | | | | | | | | | |]; cbn; naive_solver.
Qed.

Lemma wanted_for c (x : item) : wanted x = Some c <-> output_for c x.
Proof. unfold output_for. destruct x; cbn; naive_solver. Qed.

Lemma rebuilt_rebuilt initial_user_item tail compacted previous :
  rebuilt_from initial_user_item tail compacted previous
    (rebuilt_input initial_user_item tail compacted previous).
Proof.
  unfold rebuilt_from, rebuilt_input. set (start := compacted ++ option_list initial_user_item). cbn zeta.
  case_bool_decide as Ht; [subst tail|].
  { exists [], []. rewrite !app_nil_r. split; [done|]. split; [constructor|]. split; [constructor|].
    split; [done|constructor]. }
  pose proof (reconcile_outcome tail start previous) as H.
  destruct (reconcile_pending_tool_outputs tail start previous) as [taken kept].
  destruct H as (-> & Hn & Hm & Hk). eexists taken, _. split; [reflexivity|].
  assert (forall x, reachable start previous x = true <->
    forall c, output_for c x -> exists y, y ∈ start ++ previous /\ any_call c y) as Hr.
  { intros x. unfold reachable. setoid_rewrite <- wanted_for. setoid_rewrite <- call_key_any.
    destruct (wanted x) as [c|]; [|naive_solver].
    rewrite bool_decide_eq_true, !elem_collect. setoid_rewrite elem_of_app. naive_solver. }
  split_and!.
  - by apply picked_filter.
  - eapply Forall_impl; [exact Hm|]. intros x (Hx & c & Hc & Hno & Hw). split; [done|].
    apply list_elem_of_omap in Hw as (o & Ho & Hw). exists c, o.
    split; [by apply call_key_any|]. split; [|split; [by apply wanted_for|]].
    + apply list_elem_of_filter. split; [|done]. apply Hr. intros c' Hc'%wanted_for.
      assert (c' = c) as -> by congruence. exists x. rewrite elem_of_app, <- call_key_any. auto.
    + intros y Hy Hc'%call_key_any. apply Hno, elem_collect. eauto.
  - intros i j x y c Hi Hj Hx%call_key_any Hy%call_key_any.
    by eapply (NoDup_omap_lookup call_key).
  - eapply Forall_impl; [exact Hk|]. intros o Ho c Hc%wanted_for.
    destruct (Ho c Hc) as (y & Hy & Hc'). exists y. by rewrite <- call_key_any.
Qed.

Lemma base_goes_on initial_user_item tail input l i :
  base_input initial_user_item tail input l i -> goes_on_from initial_user_item tail input l i.
Proof.
  induction 1; [constructor|]. eapply from_compaction; [done..|]. apply rebuilt_rebuilt.
Qed.

Lemma pending_made c (x : item) : ordinary x -> pending_call_id x = Some c <-> made_call c x.
Proof. unfold made_call. destruct x; cbn; naive_solver. Qed.

Lemma completed_output c (x : item) : ordinary x -> completed_call_id x = Some c <-> output_for c x.
Proof. unfold output_for. destruct x; cbn; naive_solver. Qed.

Lemma missing_aborted (all : list item) :
  Forall ordinary all -> aborted_for all all (missing_calls all).
Proof.
  intros Hall. unfold missing_calls. cbn zeta.
  assert (forall c, c ∈ omap completed_call_id all <-> exists y, y ∈ all /\ output_for c y) as Hc.
  { intros c. rewrite list_elem_of_omap. rewrite Forall_forall in Hall.
    split; intros (y & Hy & H); (exists y; split; [done|]); by apply (completed_output c y (Hall y Hy)). }
  assert (forall l, Forall ordinary l -> aborted_for all l
    (aborted <$> filter (fun c => c ∉ omap completed_call_id all) (omap pending_call_id l))) as H; [|by apply H].
  induction 1 as [|x l Hx _ IH]; [constructor|]. cbn [omap list_omap].
  destruct (pending_call_id x) as [c|] eqn:Ep.
  - apply pending_made in Ep; [|done]. rewrite filter_cons. case_decide as Hd.
    + apply aborted_open; [done| |done]. intros y Hy Ho. apply Hd, Hc. eauto.
    + apply aborted_other; [|done]. intros c' Hc'. apply Hc. apply pending_made in Ep, Hc'; [|done..]. congruence.
  - apply aborted_other; [|done]. intros c Hc'%pending_made; [congruence|done].
Qed.


(** C35: A turn ends: apart from the rounds that wait or change the account, each of which
    allows the retries once more, there are at most as many rounds as the retries, the two
    fallback models and the two compactions allow. *)
Theorem turn_returns initial_user_item pending_input_tail input l s r whys s' :
  run_turn initial_user_item pending_input_tail input l s = (r, whys, s') ->
  4 + 3 * max_retries + (max_retries + 1) * waits whys < length l -> is_Some r.
Proof.
  unfold run_turn. destruct (turn_loop _ _ _ _ _) as [[[r1 whys1] v1] s1] eqn:Hr. intros [= <- <- <-] Hlen.
  apply (turn_loop_spec initial_user_item pending_input_tail input l) in Hr
    as (_ & _ & _ & _ & _ & _ & Hrounds & Hnone); [|done|].
  - destruct r1 as [res|]; [by eexists|]. specialize (Hnone eq_refl).
    unfold rounds_left at 2 in Hrounds. cbn in Hrounds. lia.
  - split; [constructor|]. exists []. by rewrite app_nil_r.
Qed.

(** In a request every call has an output, or is a call of the local shell. *)
Theorem calls_answered input call_id :
  call_id ∈ omap pending_call_id input -> call_id ∈ omap completed_call_id (missing_calls input ++ input).
Proof.
  intros Hc. rewrite omap_app, elem_of_app.
  destruct (decide (call_id ∈ omap completed_call_id input)) as [Hin|Hnot]; [by right|]. left.
  apply list_elem_of_omap. exists (aborted call_id). split; [|done]. unfold missing_calls.
  apply list_elem_of_fmap_2, list_elem_of_filter. by split.
Qed.
End turn.

(** ** The model with the larger context *)

Section larger.
Context (windows : str -> option N) (current_model : str).

Definition at_least (best : option (N * Z * str)) (c : context_fallback_candidate) : Prop :=
  match larger_window windows current_model c, best with
  | None, _ => True
  | Some _, None => False
  | Some w, Some (window, p, _) => (w < window)%N \/ w = window /\ (priority c <= p)%Z
  end.

Lemma consider_spec (l : list context_fallback_candidate) :
  let best := fold_left (consider windows current_model) l None in
  Forall (at_least best) l /\
  match best with
  | None => True
  | Some (w, p, m) => exists c, c ∈ l /\ candidate_model c = m /\ priority c = p /\
      larger_window windows current_model c = Some w
  end.
Proof.
  cbv zeta. induction l as [|c l [IH1 IH2]] using rev_ind; [split; [constructor|done]|].
  rewrite fold_left_app. cbn [fold_left].
  destruct (fold_left (consider windows current_model) l None) as [[[w p] m]|];
    unfold consider; destruct (larger_window windows current_model c) as [w'|] eqn:Hw.
  - destruct IH2 as (b & Hb & <- & <- & Hbw).
    assert (forall k, Forall (at_least (Some k)) l -> at_least (Some k) c ->
              Forall (at_least (Some k)) (l ++ [c])) as Happ.
    { intros k Hk Hc. apply Forall_app. split; [done|by apply Forall_singleton]. }
    destruct (w' <? w)%N eqn:H1.
    { split; [|exists b; set_solver]. apply Happ; [done|]. unfold at_least. rewrite Hw. left.
      by apply N.ltb_lt. }
    destruct ((w' =? w)%N && (priority c <? priority b)%Z) eqn:H2.
    { apply andb_true_iff in H2 as [H2 H3]. split; [|exists b; set_solver]. apply Happ; [done|].
      unfold at_least. rewrite Hw. right. apply N.eqb_eq in H2. apply Z.ltb_lt in H3. split; [done|lia]. }
    split; [|exists c; set_solver]. apply N.ltb_ge in H1. apply Happ.
    + eapply Forall_impl; [exact IH1|]. intros x. unfold at_least.
      destruct (larger_window windows current_model x) as [wx|]; [|done].
      apply andb_false_iff in H2 as [H2|H2]; [apply N.eqb_neq in H2; lia|apply Z.ltb_ge in H2; lia].
    + unfold at_least. rewrite Hw. right. split; [done|lia].
  - destruct IH2 as (b & Hb & <- & <- & Hbw). split; [|exists b; set_solver].
    apply Forall_app. split; [done|]. apply Forall_singleton. unfold at_least. by rewrite Hw.
  - split; [|exists c; set_solver]. apply Forall_app. split.
    + eapply Forall_impl; [exact IH1|]. intros x. unfold at_least. by destruct (larger_window _ _ x).
    + apply Forall_singleton. unfold at_least. rewrite Hw. right. split; [done|lia].
  - split; [|done]. apply Forall_app. split; [done|]. apply Forall_singleton. unfold at_least.
    by rewrite Hw.
Qed.
End larger.

(** The model chosen when the history does not fit is announced, is not deprecated, has a
    larger window than the current one, and of those the largest and then the highest
    priority; when none is chosen there is no such model. *)
Theorem larger_model_best windows current_model (l : list context_fallback_candidate) :
  match choose_larger_context_model_from_candidates windows current_model l with
  | Some m => exists c w, c ∈ l /\ candidate_model c = m /\
      larger_window windows current_model c = Some w /\
      forall b w', b ∈ l -> larger_window windows current_model b = Some w' ->
        (w' < w)%N \/ w' = w /\ (priority b <= priority c)%Z
  | None => forall c, c ∈ l -> larger_window windows current_model c = None
  end.
Proof.
  unfold choose_larger_context_model_from_candidates.
  destruct (consider_spec windows current_model l) as [Hall Hbest].
  destruct (fold_left _ l None) as [[[w p] m]|]; cbn; rewrite Forall_forall in Hall.
  - destruct Hbest as (c & Hc & Hm & <- & Hw). exists c, w. do 3 (split; [done|]).
    intros b w' Hb Hw'. specialize (Hall b Hb). unfold at_least in Hall. by rewrite Hw' in Hall.
  - intros c Hc. specialize (Hall c Hc). unfold at_least in Hall.
    by destruct (larger_window windows current_model c).
Qed.

(** ** Switching accounts *)

(** What the session knows when a limit is reached: whether switching is on (it is configured,
    no key is in the environment and there is an account manager), the tokens in use with
    their mode, and the arguments of the switch. *)
Record limit_args {opaque : Type} := LimitArgs {
  switching_on : bool;
  auth_in_use : option (option (token_data opaque) * auth_mode);
  limit_call : switch_call
}.
Arguments limit_args : clear implicits.
Arguments LimitArgs {opaque} _ _ _.

(** [seconds as i64] *)
Definition as_i64 (n : N) : Z :=
  let z := (Z.of_N n mod 2 ^ 64)%Z in if (z <? 2 ^ 63)%Z then z else (z - 2 ^ 64)%Z.

Section switch.
Context {opaque S : Type} `{!FileSystem S, !AtomicFiles S}.
Context `{!Json (accounts_file opaque), !Json (auth_dot_json opaque)}.

(** The part of [run_turn] between a limit and the change of the model; instants count
    seconds. *)
Definition switch_account_on_limit (home : str) (a : limit_args opaque) (resets_in_seconds : option N)
    (state : rate_limit_switch_state) (w : S) : bool * rate_limit_switch_state * S :=
  if negb (switching_on a) then (false, state, w)
  else
    let reported := auth ← auth_in_use a; t ← auth.1; token_account_id t in
    let '(current, w) :=
      match reported with
      | Some i => (Some i, w)
      | None =>
          let '(active, w) := get_active_account_id (opaque := opaque) home w in
          (match active with Ok active => active | Err _ => None end, w)
      end in
    match current with
    | None => (false, state, w)
    | Some current =>
        let c := limit_call a in
        let until := (fun seconds => call_now c + as_i64 seconds)%Z <$> resets_in_seconds in
        let m := match auth_in_use a with Some auth => auth.2 | None => ApiKey end in
        let '(state, switch) :=
          switch_active_account_on_rate_limit (opaque := opaque) (call_created c) (call_used c) home
            state (call_fallback c) (call_now c) (call_snapshots c) current m until in
        match switch w with
        | (Ok (Some _), w) => (true, state, w)
        | (_, w) => (false, state, w)
        end
    end.
End switch.

(** ** Runs *)

Module TurnRuns.
Import MemFs AccountRuns.

Definition no_windows (_ : str) : option N := None.
Definition tool (text : string) : tool_outcome unit :=
  ToolOutcome (FunctionCallOutputPayload (Text (lit text)) (Some true)) None tt.
Definition payload_of (_ : unit) : function_call_output_payload :=
  FunctionCallOutputPayload (Text []) None.

Definition run (retries : nat) (switching : bool) (tokens_in_use : option (token_data unit))
    (streams : list (result codex_err (list (stream_event (opaque := unit))))) :=
  run_turn (uuid := N) (world := world) parse_u64 tt tt (fun _ => lit "tool") payload_of
    (fun i => i) (fun _ => lit "error") no_windows (lit "gpt-5.3-codex-spark") retries
    (switch_account_on_limit home) None []
    [Message (lit "user") [InputText (lit "hi")] tt]
    ((fun o => Attempt o None []
        (LimitArgs switching ((fun t => (Some t, ChatGPT)) <$> tokens_in_use)
           (SwitchCall 10 11 false 100 (Ok []) ChatGPT None)) [] []) <$> streams)
    (Session None [] [] [] [] two_logins).

Definition call (i : string) : stream_event := OutputItemDone (FunctionCall [] (lit i) tt) (tool "done").
Definition broken : codex_err := StreamError (lit "broken") None.

(** A stream that breaks after a call: the call is not run, and asked for again. *)
Definition retried :=
  run 3 false None [Ok [OutputTextDelta (lit "par"); call "c1"; Failed broken]; Ok [call "c1"; Completed]].

Definition reason_codes (l : list reason) : list nat :=
  (fun w => match w with
    | SwitchedAccount => 0 | OtherModel => 1 | WaitedForLimit => 2 | CompactedHistory => 3
    | LargerModel => 4 | Reconnected => 5 | Retried => 6 end) <$> l.

Example retried_once :
  (reason_codes retried.1.2, length (handled retried.2), length <$> (request_input <$> requests retried.2))
  = ([6], 1, [1; 2]).
Proof. vm_compute. reflexivity. Qed.

(** The limit of a Spark model: first the other model, then waits. *)
Example limit_falls_back :
  reason_codes (run 3 false None (repeat (Err (UsageLimitReached None)) 3)).1.2 = [1; 2; 2].
Proof. vm_compute. reflexivity. Qed.

(** With switching on, the account that reached its limit is activated again and again,
    without a wait and without the other model. *)
Example limit_spins :
  (reason_codes (run 3 true (Some (user "c1" "a@x")) (repeat (Err (UsageLimitReached None)) 4)).1.2,
   active_account_id <$> accounts_at (opaque := unit)
     (outside (run 3 true (Some (user "c1" "a@x")) (repeat (Err (UsageLimitReached None)) 4)).2)
     (accounts_file_path home))
  = ([0; 0; 0; 0], Some (Some (lit "n1"))).
Proof. vm_compute. reflexivity. Qed.

(** An image of an answer that breaks off has been handled, and so is the one of the next. *)
Example image_handled_twice :
  length (handled (run 3 false None
    [Ok [OutputItemDone (ImageGenerationCall (lit "png") tt) (tool ""); Failed broken];
     Ok [OutputItemDone (ImageGenerationCall (lit "png") tt) (tool ""); Completed]]).2) = 2.
Proof. vm_compute. reflexivity. Qed.

(** A message that was finished before the break is neither sent again nor hinted at. *)
Example finished_message_forgotten :
  (fun q => length (request_input q)) <$> requests (run 3 false None
    [Ok [OutputTextDelta (lit "All is done.");
         OutputItemDone (Message (lit "assistant") [OutputText (lit "All is done.")] tt) (tool "");
         Failed broken];
     Ok [Completed]]).2 = [1; 1].
Proof. vm_compute. reflexivity. Qed.

(** A call of the local shell without an output stays without one. *)
Example shell_call_unanswered :
  missing_calls tt [LocalShellCall None (Some (lit "c1")) tt] = [].
Proof. reflexivity. Qed.

Example tools_run_once_witness :
  exists ran, calls (handled retried.2) = calls [] ++ ran /\ length ran = 1.
Proof.
  destruct retried as [[r whys] s'] eqn:Hr.
  destruct (tools_run_once (uuid := N) (world := world) parse_u64 tt tt (fun _ => lit "tool") payload_of
    (fun i => i) (fun _ => lit "error") no_windows (lit "gpt-5.3-codex-spark") 3
    (switch_account_on_limit home) _ _ _ _ _ r whys s' Hr) as (ran & Hran & Hres).
  exists ran. split; [exact Hran|].
  assert (r = retried.1.1) as -> by by rewrite Hr.
  vm_compute in Hres. by rewrite Hres.
Defined.


(** Five attempts are enough without retries and waits. *)
Example turn_returns_witness :
  is_Some (run 0 false None (repeat (Ok [Failed broken]) 5)).1.1.
Proof.
  destruct (run 0 false None (repeat (Ok [Failed broken]) 5)) as [[r whys] s'] eqn:Hr.
  apply (turn_returns (uuid := N) (world := world) parse_u64 tt tt (fun _ => lit "tool") payload_of
    (fun i => i) (fun _ => lit "error") no_windows (lit "gpt-5.3-codex-spark") 0
    (switch_account_on_limit home) _ _ _ _ _ r whys s' Hr).
  assert (whys = (run 0 false None (repeat (Ok [Failed broken]) 5)).1.2) as -> by by rewrite Hr.
  vm_compute. lia.
Defined.

Example calls_answered_witness :
  lit "c1" ∈ omap completed_call_id (missing_calls tt [FunctionCall [] (lit "c1") tt]
                                       ++ [FunctionCall [] (lit "c1") tt]).
Proof. apply calls_answered. vm_compute. by left. Defined.
End TurnRuns.
