(* ===== verification/ReviewOutput.v ===== *)
(** * The result of a review

    What a review leaves in the conversation: the text of the reviewer is read as JSON, or
    JSON in a fenced block, or else as plain text ([parse_review_output_event] of
    [core/src/codex/streaming.rs]), its findings are listed ([core/src/review_format.rs]),
    and [exit_review_mode] records a message with the result.

    The JSON decoder is serde_json, a parameter.  A score is a float that is only compared
    with zero and displayed: it is given by its display, or nothing when it is not
    positive.  Paths are displayed as they are. *)

From stdpp Require Import base list.
From S2P Require Import Prelude History.

(** ** Data *)

Record review_line_range := ReviewLineRange { range_start : N; range_end : N }.

Record review_code_location := ReviewCodeLocation {
  absolute_file_path : str;
  line_range : review_line_range
}.

Record review_finding := ReviewFinding {
  title : str;
  finding_body : str;
  code_location : review_code_location
}.

Record review_output_event := ReviewOutputEvent {
  findings : list review_finding;
  overall_correctness : str;
  overall_explanation : str;
  positive_confidence : option str
}.

(** ** [review_format.rs] *)

Definition DASH : char := 8212%N.

Definition format_location (item : review_finding) : str :=
  let l := code_location item in
  absolute_file_path l ++ lit ":" ++ show_N (range_start (line_range l)) ++ lit "-" ++
  show_N (range_end (line_range l)).

Definition finding_lines (selection : option (list bool)) (idx : nat) (item : review_finding)
    : list str :=
  let location := format_location item in
  let line :=
    match selection with
    | Some flags =>
        let marker := if default true (flags !! idx) then lit "[x]" else lit "[ ]" in
        lit "- " ++ marker ++ lit " " ++ title item ++ lit " " ++ [DASH] ++ lit " " ++ location
    | None => lit "- " ++ title item ++ lit " " ++ [DASH] ++ lit " " ++ location
    end in
  [] :: line :: ((fun body_line => lit "  " ++ body_line) <$> str_lines (finding_body item)).

Definition format_review_findings_block (findings : list review_finding)
    (selection : option (list bool)) : str :=
  let header := if 1 <? length findings then lit "Full review comments:" else lit "Review comment:" in
  join [LF] ([] :: header :: concat (imap (finding_lines selection) findings)).

(** ** Reading the reviewer's text *)

(** The text before the first occurrence of [p], and the text after it. *)
Fixpoint split_at_str (p s : str) : option (str * str) :=
  match strip_prefix p s with
  | Some after => Some ([], after)
  | None =>
      match s with
      | [] => None
      | c :: s' => '(before, after) ← split_at_str p s'; Some (c :: before, after)
      end
  end.

Section review.
Context (from_json : str -> option review_output_event).

Definition FENCE : str := lit "```".

Definition parse_review_output_event (text : str) : review_output_event :=
  let plain := ReviewOutputEvent [] [] (trim text) None in
  match from_json text with
  | Some parsed => parsed
  | None =>
      match split_at_str (FENCE ++ lit "json") text with
      | Some (_, after) =>
          match split_at_str FENCE after with
          | Some (json_slice, _) => default plain (from_json json_slice)
          | None => plain
          end
      | None => plain
      end
  end.

(** ** [exit_review_mode] *)

Definition review_sections (output : review_output_event) : list str :=
  (if str_eqb (trim (overall_explanation output)) [] then []
   else [trim (overall_explanation output)]) ++
  (match findings output with
   | [] => [] | fs => [format_review_findings_block fs None] end) ++
  (if str_eqb (trim (overall_correctness output)) [] then []
   else [lit "Overall correctness: " ++ trim (overall_correctness output)]) ++
  (match positive_confidence output with
   | Some score => [lit "Confidence score: " ++ score] | None => [] end).

Definition user_action (context results : str) : str :=
  lit "<user_action>" ++ [LF] ++ lit "  <context>" ++ context ++ lit "</context>" ++ [LF] ++
  lit "  <action>review</action>" ++ [LF] ++ lit "  <results>" ++ [LF] ++ lit "  " ++ results ++
  [LF] ++ lit "  </results>" ++ [LF] ++ lit "</user_action>" ++ [LF].

Definition review_developer_text (review_output : option review_output_event) : str :=
  match review_output with
  | Some output =>
      let results :=
        match review_sections output with
        | [] => lit "Reviewer did not provide any findings."
        | sections => join [LF; LF] sections
        end in
      user_action
        (lit "User initiated a review task. Here's the full review output from reviewer model. " ++
         lit "User may select one or more comments to resolve.") results
  | None =>
      user_action
        (lit "User initiated a review task, but it ended without a final response. If the user " ++
         lit "asks about this, tell them to re-initiate a review with `/review` and wait for it " ++
         lit "to complete.") (lit "None.")
  end.

(** The end of [run_agent] in a review: the messages of the reviewer, or the last message
    of the turn, are the result; blank text is none. *)
Definition review_result (review_messages : list str) (last_task_message : option str)
    : option review_output_event :=
  let combined :=
    match review_messages with
    | [] => default [] last_task_message
    | _ => join [LF; LF] review_messages
    end in
  if str_eqb (trim combined) [] then None else Some (parse_review_output_event combined).
End review.

(** ** Lemmas *)

Definition infix (p s : str) : Prop := exists before after, s = before ++ p ++ after.

Lemma infix_trans p q s : infix p q -> infix q s -> infix p s.
Proof. intros (a & b & ->) (c & d & ->). exists (c ++ a), (b ++ d). by rewrite <- !app_assoc. Qed.

Lemma infix_refl p : infix p p.
Proof. exists [], []. by rewrite app_nil_r. Qed.

Lemma infix_app_l p q s : infix p s -> infix p (q ++ s).
Proof. intros (a & b & ->). exists (q ++ a), b. by rewrite <- app_assoc. Qed.

Lemma infix_app_r p q s : infix p s -> infix p (s ++ q).
Proof. intros (a & b & ->). exists a, (b ++ q). by rewrite <- !app_assoc. Qed.

Lemma infix_join sep x l : x ∈ l -> infix x (join sep l).
Proof.
  induction l as [|y l IH]; [set_solver|]. intros [->|Hx]%elem_of_cons.
  - destruct (decide (l = [])) as [->|Hl]; [apply infix_refl|].
    rewrite join_cons by done. apply infix_app_r, infix_refl.
  - rewrite join_cons by (intros ->; by apply elem_of_nil in Hx). by apply infix_app_l, infix_app_l, IH.
Qed.

#[local] Hint Resolve infix_refl infix_app_l infix_app_r infix_join : review.

Lemma finding_in_block f fs line :
  f ∈ fs -> (forall idx, line ∈ finding_lines None idx f) ->
  infix line (format_review_findings_block fs None).
Proof.
  intros [i Hi]%list_elem_of_lookup Hl. apply infix_join. do 2 right.
  apply list_elem_of_In, in_concat. exists (finding_lines None i f).
  split; apply list_elem_of_In; [|done]. apply elem_of_lookup_imap. eauto.
Qed.

Lemma section_shown output section :
  section ∈ review_sections output ->
  infix section (review_developer_text (Some output)).
Proof.
  intros H. unfold review_developer_text.
  destruct (review_sections output) as [|first rest]; [by apply elem_of_nil in H|].
  unfold user_action. auto 20 with review.
Qed.

(** ** Property *)

(** What a reviewer finds reaches the model that asked for the review: the message
    that a review leaves shows the explanation, and for every finding its title with its
    place and all the lines of its body. *)
Theorem review_content_shown (output : review_output_event) :
  infix (trim (overall_explanation output)) (review_developer_text (Some output)) /\
  forall f, f ∈ findings output ->
    infix (title f ++ lit " " ++ [DASH] ++ lit " " ++ format_location f)
      (review_developer_text (Some output)) /\
    forall line, line ∈ str_lines (finding_body f) ->
      infix line (review_developer_text (Some output)).
Proof.
  split.
  - destruct (str_eqb (trim (overall_explanation output)) []) eqn:E.
    + apply bool_decide_eq_true in E as ->. by exists [], (review_developer_text (Some output)).
    + apply section_shown. unfold review_sections. rewrite E. set_solver.
  - intros f Hf.
    assert (infix (format_review_findings_block (findings output) None)
      (review_developer_text (Some output))) as Hb.
    { apply section_shown. unfold review_sections. destruct (findings output); set_solver. }
    split.
    + eapply infix_trans; [|exact Hb]. eapply infix_trans;
        [|apply (finding_in_block f _ (lit "- " ++ title f ++ lit " " ++ [DASH] ++ lit " " ++ format_location f));
          [done|intros; cbn; set_solver]]. auto with review.
    + intros line Hl. eapply infix_trans; [|exact Hb]. eapply infix_trans;
        [|apply (finding_in_block f _ (lit "  " ++ line)); [done|intros idx; do 2 right;
          apply list_elem_of_fmap; eauto]]. auto with review.
Qed.

(** ** Concrete runs *)

Module ReviewRuns.
Definition no_json (_ : str) : option review_output_event := None.

(** A review in plain words is its own explanation. *)
Lemma plain_review :
  review_result no_json [lit "Looks"; lit "good "] None
  = Some (ReviewOutputEvent [] [] (lit "Looks" ++ [LF; LF] ++ lit "good") None).
Proof. by vm_compute. Qed.

(** The flags of a selection that is too short count as set. *)
Lemma short_selection :
  format_review_findings_block
    [ReviewFinding (lit "A") [] (ReviewCodeLocation (lit "f") (ReviewLineRange 1 2));
     ReviewFinding (lit "B") (lit "b") (ReviewCodeLocation (lit "g") (ReviewLineRange 3 3))]
    (Some [false])
  = join [LF] [[]; lit "Full review comments:"; [];
      lit "- [ ] A " ++ [DASH] ++ lit " f:1-2"; []; lit "- [x] B " ++ [DASH] ++ lit " g:3-3"; lit "  b"].
Proof. by vm_compute. Qed.
End ReviewRuns.
