(* ===== verification/AgentLoop.v ===== *)
(** * The loop of an agent

    [run_agent] of [core/src/codex/streaming.rs]: a task sends a request to the model, takes
    over what the model answers, adds the outputs of its tools to the waiting input and
    starts again, until the model uses no tool; it compacts the conversation on the way when
    it grows too long, asks a hook at the end, and hands over to the task that follows.

    The loop is a function of events: a submission or the message of a finished agent that
    arrives while a request is under way, or the end of a turn with the items of the model, the outcomes of the tools and the
    answers to a compaction.  [None] means that the answers to a compaction were too few
    ([Compaction]).  A submission that replaces or aborts the task stops the loop.

    Left out: the events for the interface, the notification at the end, and what
    [run_turn] does to get an answer (retries, other models and accounts). *)

From stdpp Require Import base list gmap.
From S2P Require Import Prelude History Truncation Compaction RequestInput UserMessage PendingAnswers TurnQueue TurnRecord ReviewOutput.
Open Scope record_scope.

(** ** The surroundings of a session *)

(** Flags and services that do not change while a task runs: encoders, the answers of the
    environment, the items of the context timeline at each request, and the configuration. *)
Record environment {opaque : Type} := Environment {
  new_fields : opaque;
  clear_turn : opaque -> opaque;
  clear_encrypted : opaque -> opaque;
  mcp_payload : opaque -> function_call_output_payload;
  mcp_recorded : opaque -> function_call_output_payload;
  display_name : opaque -> str;
  shown_fields : opaque -> opaque;
  json_text : fingerprint_json opaque -> str;
  to_json : list function_call_output_content_item -> option str;
  from_json : str -> option review_output_event;
  render_history_bridge : list compaction_snippet -> str -> option str;
  is_env_snapshot : response_item opaque -> bool;
  is_env_delta : response_item opaque -> bool;
  env_ctx_v2 : bool;
  ctx_ui : bool;
  chatgpt : bool;
  timeline_items : nat -> option (list (response_item opaque));
  initial_context : list (response_item opaque);
  read_image : str -> option str;
  save_full_text : str -> result str str;
  tool_output_max_bytes : nat;
  max_retries : nat;
  compact_prompt_text : str;
  cleanup_old_status_items : conversation_history opaque -> conversation_history opaque;
  blocked_by_hook : str -> list input_item -> bool
}.
Arguments environment : clear implicits.

Section agent.
Context {opaque value : Type}.
Notation item := (response_item opaque).
Notation state := (state opaque value).
Notation response_input := (response_input_item opaque).
Context (E : environment opaque).

(** [Session::enforce_user_message_limits], which looks at messages of the user only. *)
Definition enforce (i : response_input) : response_input :=
  match i with
  | InMessage role content =>
      if str_eqb role (lit "user")
      then InMessage role (default content
             (enforce_user_message_limits (save_full_text E) (tool_output_max_bytes E) content))
      else i
  | _ => i
  end.

Definition to_item : response_input -> item := from_response_input (new_fields E) (mcp_payload E).

(** [Session::turn_input_with_history] in a session that has sent [n] requests. *)
Definition with_history (n : nat) (q : state) (extra : list item) : list item :=
  turn_input_with_history (clear_turn E) (clear_encrypted E) (is_env_snapshot E) (is_env_delta E)
    (env_ctx_v2 E) (ctx_ui E) (chatgpt E) (timeline_items E n) (transcript q) extra.

(** [Session::record_conversation_items] and [Session::replace_history]. *)
Definition record (new : list item) (q : state) : state :=
  q <| transcript := record_items new (transcript q) |>.

Definition replace_history (new : list item) (q : state) : state :=
  q <| transcript := replace new (transcript q) |>.

(** ** The variables of the loop *)

Record agent := Agent {
  agent_sub_id : str;
  is_review_mode : bool;
  post_turn_only_turn : bool;
  agent_visible : bool;
  initial_response_item : option item;
  review_history : list item;
  review_messages : list str;
  first_iteration : bool;
  did_proactive_compact : bool;
  auto_compact_pending : bool;
  stop_hook_active : bool;
  repeated_tool_cycle_guard : option tool_cycle_fingerprint;
  last_task_message : option str;
  turn_inputs : list (list item);
  session : state
}.

#[export] Instance agent_fields : Fields agent := fun a =>
  Agent (agent_sub_id a) (is_review_mode a) (post_turn_only_turn a) (agent_visible a)
    (initial_response_item a) (review_history a) (review_messages a) (first_iteration a)
    (did_proactive_compact a) (auto_compact_pending a) (stop_hook_active a)
    (repeated_tool_cycle_guard a) (last_task_message a) (turn_inputs a) (session a).

Definition only_text (sentinel : str) (input : list input_item) : bool :=
  match input with [TextInput text] => str_eqb text sentinel | _ => false end.

(** The code in front of the loop; a task without input ends here. *)
Definition begin_agent (sub_id : str) (is_review_mode visible : bool) (input : list input_item)
    (q : state) : option agent :=
  match input with
  | [] => None
  | _ =>
      let post_turn_only := only_text POST_TURN_PENDING_ONLY_SENTINEL input in
      let pending_only := only_text PENDING_ONLY_SENTINEL input || post_turn_only in
      let a := Agent sub_id is_review_mode post_turn_only visible None [] [] true false false false
                 None None [] q in
      Some (if pending_only then a
        else
          let i := to_item (enforce (user_item (read_image E) input)) in
          let a :=
            if is_review_mode then a <| review_history := [i] |>
            else a <| session := record [i] q |> in
          a <| initial_response_item := Some i |>)
  end.

(** ** Compaction in the middle of a turn *)

Inductive compact_answers :=
| LocalAnswers (attempts : list (attempt (opaque:=opaque)))
| RemoteAnswers (attempts : list (result codex_err (list item))).

(** [run_inline_auto_compact_task] and [run_inline_remote_auto_compact_task]. *)
Definition auto_compact (c : compact_answers) (n : nat) (q : state) : option (list item * state) :=
  let '(_, q) := next_internal_sub_id q in
  let s := Compaction.Session (transcript q) None None [] [] in
  match c with
  | LocalAnswers attempts =>
      let prompt := to_item (user_item (read_image E) [TextInput (compact_prompt_text E)]) in
      r ← run_compact_task_inner_inline (new_fields E) (clear_turn E) (clear_encrypted E)
            (to_json E) (render_history_bridge E) (max_retries E) (with_history n q [prompt])
            (initial_context E) attempts s;
      Some (r.1, q <| transcript := Compaction.history r.2 |>)
  | RemoteAnswers attempts =>
      r ← run_remote_compact_task_inner (new_fields E) (clear_turn E) (clear_encrypted E)
            (to_json E) (max_retries E) (with_history n q []) (initial_context E) attempts s;
      Some (match r.1 with Ok history => history | Err _ => [] end,
            q <| transcript := Compaction.history r.2 |>)
  end.

(** The compaction at the head of the loop: the rebuilt history takes in the waiting
    items, which are sent with it. *)
Definition compact_before_turn (c : compact_answers) (tail snapshot : list item) (a : agent)
    : option (agent * list item) :=
  r ← auto_compact c (length (turn_inputs a)) (session a);
  let '(compacted, q) := r in
  let a := a <| session := q |> <| auto_compact_pending := false |> in
  Some (match compacted with
    | [] => (a, tail)
    | _ =>
        let rebuilt :=
          match tail with
          | [] => compacted
          | _ =>
              let '(missing, kept) := reconcile_pending_tool_outputs tail compacted snapshot in
              compacted ++ missing ++ kept
          end in
        (a <| session := replace_history rebuilt q |> <| did_proactive_compact := true |>, [])
    end).

(** ** The head of the loop: the input of the next request *)

(** A turn for waiting input only takes the first of it as its own. *)
Definition take_initial (pending_input : list item) (a : agent) : option (agent * list item) :=
  match initial_response_item a with
  | Some _ => Some (a, pending_input)
  | None =>
      match pending_input with
      | [] => None
      | first :: tail =>
          let a :=
            if is_review_mode a then a <| review_history := review_history a ++ [first] |>
            else a <| session := record [first] (session a) |> in
          Some (a <| initial_response_item := Some first |>, tail)
      end
  end.

Definition compacts_now (a : agent) : bool := auto_compact_pending a && negb (is_review_mode a).

(** [false] when the loop is left. *)
Definition loop_head (c : compact_answers) (a : agent) : option (bool * agent) :=
  let '(pending, q) :=
    if is_review_mode a || post_turn_only_turn a
    then get_pending_input_filtered false (session a) else get_pending_input (session a) in
  let pending_input := to_item <$> pending in
  match take_initial pending_input (a <| session := q |>) with
  | None => Some (false, a <| session := q |>)
  | Some (a, tail) =>
      let snapshot := with_history (length (turn_inputs a)) (session a) tail in
      let a :=
        if first_iteration a then a <| first_iteration := false |>
        else a <| session := record pending_input (session a) |> in
      r ← if compacts_now a then compact_before_turn c tail snapshot a else Some (a, tail);
      let '(a, tail) := r in
      let a := if is_review_mode a then a <| review_history := review_history a ++ tail |> else a in
      let turn_input :=
        if is_review_mode a then review_history a
        else with_history (length (turn_inputs a)) (session a) tail in
      Some (true, a <| turn_inputs := turn_inputs a ++ [turn_input] |>)
  end.

(** ** The end of a turn *)

(** What [run_turn] returns, with what the loop asks afterwards: the status items of the
    request, the items of the model with the outcomes of their tools, whether the last
    usage reached the limit, and what the hook for the end of a turn says. *)
Record outcome := Outcome {
  status_items : list item;
  turn_items : list (item * tool_outcome opaque);
  token_limit_reached : bool;
  stop_blocked : bool;
  continuation_prompt : option str
}.

Definition output_texts (content : list content_item) : list str :=
  omap (fun c => match c with OutputText text => Some text | _ => None end) content.

(** The messages of the reviewer. *)
Definition messages_of (p : processed_response_item opaque) : list str :=
  match processed p, response p with
  | Message role content _, None =>
      if str_eqb role (lit "assistant") then output_texts content else []
  | _, _ => []
  end.

Inductive next := Again | Ended (failed : bool).

Definition add_responses (responses : list response_input) (a : agent) : agent :=
  match responses with
  | [] => a
  | _ =>
      let a :=
        if is_review_mode a then a
        else a <| session :=
          fold_left (fun q r => add_pending_input enforce r q) responses (session a) |> in
      a <| did_proactive_compact := false |>
  end.

(** The end of a turn without tools: the message for the user, and the hook. *)
Definition complete_turn (o : outcome) (recorded : list item) (a : agent) : next * agent :=
  let a := a <| last_task_message := get_last_assistant_message_from_turn recorded |> in
  if agent_visible a && negb (is_review_mode a) && stop_blocked o && negb (stop_hook_active a)
  then
    match continuation_prompt o with
    | Some prompt =>
        let i := new_message (new_fields E) (lit "user") prompt in
        (Again, a <| session := record [i] (session a) |> <| initial_response_item := Some i |>
                  <| stop_hook_active := true |>)
    | None => (Ended false, a)
    end
  else (Ended false, a).

Definition turn_done (c : compact_answers) (o : option outcome) (a : agent)
    : option (next * agent) :=
  match o with
  | None => Some (Ended true, a)
  | Some o =>
      let a := a <| session := record (status_items o) (session a) |> in
      let turn_output := process (display_name E) <$> turn_items o in
      let '(recorded, responses) := record_turn (mcp_recorded E) turn_output in
      let a :=
        if is_review_mode a
        then a <| review_messages := review_messages a ++ concat (messages_of <$> turn_output) |>
        else a in
      let '(r, guard) :=
        check (shown_fields E) (json_text E) (repeated_tool_cycle_guard a) recorded responses in
      let a := a <| repeated_tool_cycle_guard := guard |> in
      match r with
      | Err _ => Some (Ended true, a)
      | Ok _ =>
          let a :=
            if is_review_mode a then a <| review_history := review_history a ++ recorded |>
            else a <| session := record recorded (session a) |> in
          let a := add_responses responses a in
          let compacts := token_limit_reached o && negb (did_proactive_compact a)
                          && negb (is_review_mode a) in
          match responses with
          | _ :: _ =>
              Some (Again, if compacts then a <| auto_compact_pending := true |> else a)
          | [] =>
              if compacts then
                r ← auto_compact c (length (turn_inputs a)) (session a);
                Some (Again, a <| did_proactive_compact := true |> <| session := r.2 |>)
              else Some (complete_turn o recorded a)
          end
      end
  end.

(** ** The end of the agent *)

Definition exit_review_mode (output : option review_output_event) (q : state) : state :=
  record [new_message (new_fields E) (lit "user") (review_developer_text output)] q.

(** The code behind the loop, with [exit_review_mode] of a turn that failed; the task
    that follows is started. *)
Definition end_agent (failed : bool) (a : agent) : option state :=
  let q :=
    if is_review_mode a
    then exit_review_mode
           (if failed then None
            else review_result (from_json E) (review_messages a) (last_task_message a)) (session a)
    else session a in
  finish_turn (cleanup_old_status_items E) (blocked_by_hook E) (compact_prompt_text E)
    (agent_sub_id a) q.

(** ** Runs *)

Inductive event :=
| Submitted (op : submission value)
| AgentsCompleted (messages : list response_input)
| TurnEnded (o : option outcome) (after_turn before_turn : compact_answers).

Inductive phase :=
| Running (a : agent)
| Stopped (inputs : list (list item)) (q : state).

(** From one turn to the next. *)
Definition continue_loop (c : compact_answers) (a : agent) : option phase :=
  r ← loop_head c a;
  match r with
  | (true, a) => Some (Running a)
  | (false, a) => Stopped (turn_inputs a) <$> end_agent false a
  end.

Definition while_running (q : state) (a : agent) : phase :=
  if is_current_task (agent_sub_id a) q then Running (a <| session := q |>)
  else Stopped (turn_inputs a) q.

Definition agent_step (e : event) (a : agent) : option phase :=
  match e with
  | Submitted op =>
      Some (while_running (submit enforce (read_image E) (cleanup_old_status_items E)
              (blocked_by_hook E) (compact_prompt_text E) op (session a)) a)
  | AgentsCompleted messages =>
      Some (while_running
              (enqueue_agent_completion_wake (cleanup_old_status_items E) messages (session a)) a)
  | TurnEnded o after_turn before_turn =>
      r ← turn_done after_turn o a;
      match r with
      | (Again, a) => continue_loop before_turn a
      | (Ended failed, a) => Stopped (turn_inputs a) <$> end_agent failed a
      end
  end.

(** Events after the end of the task are for others. *)
Fixpoint run_events (events : list event) (p : phase) : option phase :=
  match p, events with
  | Running a, e :: events => p ← agent_step e a; run_events events p
  | _, _ => Some p
  end.

Definition run_agent (sub_id : str) (is_review_mode visible : bool) (input : list input_item)
    (c : compact_answers) (events : list event) (q : state) : option phase :=
  match begin_agent sub_id is_review_mode visible input q with
  | None => Some (Stopped [] q)
  | Some a => p ← continue_loop c a; run_events events p
  end.
End agent.
Arguments agent : clear implicits.
Arguments event : clear implicits.
Arguments outcome : clear implicits.
Arguments phase : clear implicits.
Arguments compact_answers : clear implicits.

(** ** Lemmas: closed conversations *)

Section lemmas.
Context {opaque value : Type}.
Notation item := (response_item opaque).
Notation state := (state opaque value).
Notation agent := (agent opaque value).
Context (E : environment opaque).
Implicit Types (q : state) (a : agent) (l new : list item).

Definition history_of q : list item := items (transcript q).

Lemma history_record new q :
  history_of (record new q) = history_of q ++ filter (fun i => is_api_message i = true) new.
Proof. unfold history_of, record. cbn [transcript update]. apply record_items_app. Qed.

Lemma not_api_plain (x : item) : ~ is_api_message x = true -> plain x.
Proof. by destruct x. Qed.

Lemma closed_record new q :
  closed_after [] (history_of q) -> closed_after (calls (history_of q)) new ->
  closed_after [] (history_of (record new q)).
Proof.
  intros H Hn. rewrite history_record. apply closed_app. split; [done|].
  by apply (proj1 (closed_filter _ _ new not_api_plain)).
Qed.

Lemma calls_record new q : calls (history_of (record new q)) = calls (history_of q) ++ calls new.
Proof.
  rewrite history_record, calls_app. f_equal.
  apply (closed_filter (fun i => is_api_message i = true) [] new not_api_plain).
Qed.

Lemma record_no_outputs new q :
  Forall (fun x => is_output x = false) new ->
  closed_after [] (history_of q) -> closed_after [] (history_of (record new q)).
Proof. intros Hn H. apply closed_record; [done|]. by apply closed_no_outputs. Qed.

Lemma filter_item_output (x : item) f : output_id (filter_history_item f x) = output_id x.
Proof. destruct x; cbn; by repeat case_match. Qed.

Lemma filter_item_calls (x : item) f : call_ids (filter_history_item f x) = call_ids x.
Proof. destruct x; cbn; by repeat case_match. Qed.

Lemma strip_output (x : item) f : output_id (strip_encrypted f x) = output_id x.
Proof. by destruct x. Qed.

Lemma strip_calls (x : item) f : call_ids (strip_encrypted f x) = call_ids x.
Proof. by destruct x. Qed.

(** The timeline and the initial context hold messages, not tool outputs. *)
Definition quiet_environment : Prop :=
  (forall n, Forall (fun x => is_output x = false) (default [] (timeline_items E n))) /\
  Forall (fun x => is_output x = false) (initial_context E).

(** The outputs of a list have their calls in a conversation. *)
Definition answered_by l (tail : list item) : Prop :=
  forall x c, x ∈ tail -> output_id x = Some c -> c ∈ calls l.

Lemma closed_with_history n q tail :
  quiet_environment -> closed_after [] (history_of q) -> answered_by (history_of q) tail ->
  closed_after [] (with_history E n q tail).
Proof.
  intros [Ht _] Hh Ha. unfold with_history, turn_input_with_history.
  assert (forall l, closed_after [] l ->
    closed_after [] (if negb (chatgpt E) then strip_encrypted (clear_encrypted E) <$> l else l)) as Hs.
  { intros l Hl. destruct (negb _); [|done].
    apply closed_map; [intros; apply strip_output|intros; apply strip_calls|done]. }
  apply Hs. rewrite !closed_app. split; [by apply closed_no_outputs|].
  set (p := fun i => negb (env_ctx_v2 E && ctx_ui E && is_legacy_env_context i) = true).
  destruct (closed_filter p (calls (default [] (timeline_items E n))) (history_of q)) as [Hf Hc].
  { intros x Hx. unfold p in Hx. destruct x; try done;
      by destruct (env_ctx_v2 E && ctx_ui E); destruct Hx. }
  split.
  - apply closed_map; [intros; apply filter_item_output|intros; apply filter_item_calls|].
    rewrite app_nil_l. apply Hf. eapply closed_mono; [|exact Hh]. set_solver.
  - rewrite (calls_map (filter_history_item (clear_turn E))) by (intros; apply filter_item_calls).
    change (contents (transcript q)) with (history_of q). rewrite Hc.
    apply closed_outputs. intros x c Hx Ho. rewrite app_nil_l. apply elem_of_app. right.
    apply (Ha x c); [|done]. destruct (env_ctx_v2 E && ctx_ui E); [|done].
    by apply list_elem_of_filter in Hx as [_ Hx].
Qed.

(** ** Lemmas: compaction *)

(** What the service answers to a compaction is a conversation that is not empty, and the
    model streams no tool outputs. *)
Definition attempt_quiet (a : attempt (opaque:=opaque)) : Prop :=
  match a with
  | OpenFailed _ => True
  | Streamed events _ =>
      Forall (fun e => match e with OutputItemDone i => is_output i = false | _ => True end) events
  end.

Definition answers_quiet (c : compact_answers opaque) : Prop :=
  match c with
  | LocalAnswers attempts => Forall attempt_quiet attempts
  | RemoteAnswers attempts =>
      Forall (fun r => match r with Ok l => closed_after [] l /\ l <> [] | Err _ => True end)
        attempts
  end.

Definition session_closed (s : Compaction.session (opaque:=opaque)) : Prop :=
  closed_after [] (items (Compaction.history s)).

Lemma record_items_closed new (h : conversation_history opaque) :
  Forall (fun x => is_output x = false) new -> closed_after [] (items h) ->
  closed_after [] (items (record_items new h)).
Proof.
  intros Hn Hh. rewrite record_items_app. apply closed_app. split; [done|].
  apply closed_no_outputs. rewrite Forall_forall in *. intros x [_ Hx]%list_elem_of_filter. by apply Hn.
Qed.

Lemma drain_closed input (a : attempt (opaque:=opaque)) s r s' :
  attempt_quiet a -> session_closed s -> drain_to_completed input a s = (r, s') -> session_closed s'.
Proof.
  unfold drain_to_completed. destruct a as [e|events timed_out]; intros Ha Hs.
  { by intros [= _ <-]. }
  set (s0 := update _ _ s). assert (session_closed s0) as H0 by done. clearbody s0. revert s0 H0.
  cbn in Ha. induction Ha as [|e events He _ IH]; intros s0 H0; cbn [drain_events]; [by intros [= _ <-]|].
  destruct e as [i| | |e]; [|by intros [= _ <-]|by apply IH|by intros [= _ <-]].
  apply IH. change (closed_after [] (items (record_items [i] (Compaction.history s0)))).
  apply record_items_closed; [|done]. by constructor.
Qed.

Lemma compact_loop_closed prunes R attempts p s e s' :
  Forall attempt_quiet attempts -> session_closed s ->
  compact_loop prunes R attempts p s = Some (e, s') -> session_closed s'.
Proof.
  intros Ha. revert p s. induction Ha as [|a attempts Ha _ IH]; intros p s Hs; cbn [compact_loop]; [done|].
  destruct (drain_to_completed _ a s) as [r s1] eqn:Ed. apply drain_closed in Ed; [|done..].
  destruct r as [u|err]; [by intros [= _ <-]|].
  case_match; [|by intros [= _ <-]..]. by apply IH.
Qed.

Lemma remote_loop_spec R attempts p (s : Compaction.session (opaque:=opaque)) h e s' :
  Forall (fun r => match r with Ok l => closed_after [] l /\ l <> [] | Err _ => True end)
    attempts ->
  remote_loop R attempts p s = Some (h, e, s') ->
  closed_after [] h /\ (e = Finished -> h <> []) /\
  Compaction.history s' = Compaction.history s.
Proof.
  intros Ha. revert p s. induction Ha as [|a attempts Ha _ IH]; intros p s; cbn [remote_loop]; [done|].
  destruct a as [l|err]; [by destruct Ha; intros [= <- <- <-]|].
  case_match; [|by intros [= <- <- <-]..]. intros H'. by apply IH in H' as (? & ? & ->).
Qed.

Lemma context_and_message text :
  quiet_environment ->
  closed_after [] (initial_context E ++ [user_text (new_fields E) text]).
Proof.
  intros [_ H]. apply closed_no_outputs, Forall_app. split; [done|]. by constructor.
Qed.

Lemma auto_compact_closed c n q l q' :
  quiet_environment -> answers_quiet c -> closed_after [] (history_of q) ->
  auto_compact E c n q = Some (l, q') ->
  closed_after [] l /\ closed_after [] (history_of q') /\
  (l = [] -> calls (history_of q) ⊆ calls (history_of q')) /\
  pending_input q' = pending_input q /\ pending_user_input q' = pending_user_input q.
Proof.
  intros HE Hc Hq. unfold auto_compact, next_internal_sub_id.
  cbn -[run_compact_task_inner_inline run_remote_compact_task_inner with_history].
  set (s := Compaction.Session (opaque:=opaque) _ _ _ _ _).
  destruct c as [attempts|attempts]; intros ([r s'] & Hr & Heq)%bind_Some; injection Heq as <- <-;
    unfold history_of; cbn [transcript update pending_input pending_user_input fst snd].
  - unfold run_compact_task_inner_inline in Hr. apply bind_Some in Hr as ([e s1] & Hl & Hr).
    pose proof Hl as (made & last_ & rest & _ & _ & (Hnew & _) & _)%compact_loop_streamed.
    apply compact_loop_closed in Hl; [|done..]. destruct e; injection Hr as <- <-; cbn.
    + unfold build_compacted_history, make_compaction_summary_message. split_and!; [..|done|done].
      * by apply context_and_message.
      * apply (record_items_closed _ (ConversationHistory [])); [|done].
        apply Forall_app. split; [apply HE|by constructor].
      * by intros [_ ?]%app_eq_nil.
    + split_and!; [done|done| |done|done]. intros _. rewrite Hnew, calls_app. set_solver.
    + split_and!; [by apply context_and_message..| |done|done]. by intros [_ ?]%app_eq_nil.
  - unfold run_remote_compact_task_inner in Hr. apply bind_Some in Hr as ([[h e] s1] & Hl & Hr).
    apply remote_loop_spec in Hl as (Hh & Hne & Hs1); [|done].
    destruct e; injection Hr as <- <-; cbn.
    + split_and!; [done..| |done|done]. intros ->. by destruct Hne.
    + rewrite Hs1. by split_and!.
    + split_and!; [by apply context_and_message..| |done|done]. by intros [_ ?]%app_eq_nil.
Qed.

(** ** Lemmas: the state of the loop *)

Notation to_item := (to_item E).

Definition messages_only (l : list (response_input_item opaque)) : Prop :=
  Forall (fun r => is_output (to_item r) = false) l.

(** What holds all the time. *)
Record loop_ok (a : agent) : Prop := LoopOk {
  ok_history : closed_after [] (history_of (session a));
  ok_review : is_review_mode a = true -> closed_after [] (review_history a);
  ok_users : messages_only (queued_item <$> pending_user_input (session a));
  ok_inputs : Forall (closed_after []) (turn_inputs a)
}.

(** Waiting items fit the conversation: their calls are in it, and there are no outputs in
    a review. *)
Definition fitting (a : agent) (l : list item) : Prop :=
  forall x c, x ∈ l -> output_id x = Some c ->
    is_review_mode a = false /\ wanted x = Some c /\ c ∈ calls (history_of (session a)).

Lemma fitting_answered a l : fitting a l -> answered_by (history_of (session a)) l.
Proof. intros H x c Hx Hc. by apply (H x c). Qed.

Lemma fitting_closed a l : fitting a l -> closed_after (calls (history_of (session a))) l.
Proof. intros H. apply closed_outputs. intros x c Hx Hc. by apply (H x c). Qed.

Lemma fitting_review a l :
  fitting a l -> is_review_mode a = true -> Forall (fun x => is_output x = false) l.
Proof.
  intros H Hr. apply Forall_forall. intros x Hx. unfold is_output.
  destruct (output_id x) as [c|] eqn:Ec; [|done]. destruct (H x c Hx Ec). congruence.
Qed.

Lemma fitting_mono a a' l l' :
  fitting a l -> l' ⊆ l -> is_review_mode a' = is_review_mode a ->
  calls (history_of (session a)) ⊆ calls (history_of (session a')) -> fitting a' l'.
Proof. intros H Hl Hr Hc x c Hx Ho. destruct (H x c) as (? & ? & ?); set_solver. Qed.

Lemma loop_ok_record a new :
  loop_ok a -> closed_after (calls (history_of (session a))) new ->
  loop_ok (a <| session := record new (session a) |>).
Proof. intros [H1 H2 H3 H4] Hn. split; try done. cbn [session update]. by apply closed_record. Qed.

Lemma loop_ok_review a l :
  loop_ok a -> fitting a l -> is_review_mode a = true ->
  loop_ok (a <| review_history := review_history a ++ l |>).
Proof.
  intros [H1 H2 H3 H4] Hl Hr. split; try done. intros _. cbn. apply closed_app. split; [by apply H2|].
  by apply closed_no_outputs, (fitting_review a).
Qed.

Lemma take_initial_ok a pending a' tail :
  loop_ok a -> fitting a pending -> take_initial pending a = Some (a', tail) ->
  loop_ok a' /\ fitting a' pending /\ tail ⊆ pending /\ is_review_mode a' = is_review_mode a /\
  pending_input (session a') = pending_input (session a).
Proof.
  intros Ha Hp. unfold take_initial. destruct (initial_response_item a) as [i|].
  { intros [= <- <-]. done. }
  destruct pending as [|first rest]; [done|]. intros [= <- <-].
  assert (fitting a [first]) as Hf by (apply (fitting_mono a a _ _ Hp); set_solver).
  destruct (is_review_mode a) eqn:Er; cbn.
  - pose proof (loop_ok_review a [first] Ha Hf Er) as [H1 H2 H3 H4].
    split_and!; [by split|by apply (fitting_mono a _ _ _ Hp)|set_solver|done|done].
  - pose proof (loop_ok_record a [first] Ha (fitting_closed _ _ Hf)) as [H1 H2 H3 H4].
    split_and!; [by split| |set_solver|done|done].
    apply (fitting_mono a _ _ _ Hp); [done|done|]. cbn [session update]. rewrite calls_record. set_solver.
Qed.

Lemma compact_before_turn_ok c snapshot a tail a' tail' :
  quiet_environment -> answers_quiet c -> loop_ok a -> fitting a tail ->
  compact_before_turn E c tail snapshot a = Some (a', tail') ->
  loop_ok a' /\ fitting a' tail' /\ is_review_mode a' = is_review_mode a /\
  pending_input (session a') = pending_input (session a).
Proof.
  intros HE Hc [H1 H2 H3 H4] Hf. unfold compact_before_turn.
  intros ([l q] & Hq & Heq)%bind_Some. apply (inj Some) in Heq.
  apply auto_compact_closed in Hq as (Hl & Hh & Hn & Hp & Hu); [|done..].
  assert (loop_ok (a <| session := q |> <| auto_compact_pending := false |>)) as Hok.
  { split; cbn; try done. by rewrite Hu. }
  destruct (reconcile_total tail l snapshot) as (seen & Hs & Hk & _ & Hm & Hs').
  destruct (reconcile_pending_tool_outputs tail l snapshot) as [missing kept].
  cbn in Hs, Hk, Hm, Hs'.
  destruct l as [|x l]; injection Heq as <- <-; [split_and!; [done| |done|done]|].
  - apply (fitting_mono a _ _ _ Hf); [done|done|]. by apply Hn.
  - split_and!; [|by intros x0 c0 H0%elem_of_nil|done|done].
    split; [|done|cbn; by rewrite Hu|done].
    change (closed_after [] (match tail with [] => x :: l | _ => (x :: l) ++ missing ++ kept end)).
    destruct tail as [|t tail]; [done|]. rewrite !closed_app. split_and!; [done| |].
    + apply closed_no_outputs. eapply Forall_impl; [exact Hm|]. intros y (_ & c' & Hy & _). by destruct y.
    + apply closed_outputs. intros y c' Hy Ho. rewrite Forall_forall in Hs'.
      assert (wanted y = Some c') as Hw.
      { destruct (Hf y c') as (_ & ? & _); [|done|done]. rewrite Hk in Hy.
        by apply list_elem_of_filter in Hy as [_ ?]. }
      specialize (Hs' y Hy c' Hw). rewrite Hs in Hs'.
      rewrite app_nil_l, <- calls_app. apply elem_calls.
      apply elem_of_union in Hs' as [Hi|Hi].
      * apply elem_collect in Hi as (z & Hz & Hkz). exists z. split; [set_solver|].
        apply call_key_ids. done.
      * apply elem_of_list_to_set, list_elem_of_omap in Hi as (z & Hz & Hkz).
        exists z. split; [set_solver|]. by apply call_key_ids.
Qed.

Lemma fmap_subset {A B} (f : A -> B) (l k : list A) : l ⊆ k -> f <$> l ⊆ f <$> k.
Proof. intros H x (y & -> & Hy)%list_elem_of_fmap. apply list_elem_of_fmap. eauto. Qed.

(** Between two turns, and during a turn: only messages come in during a turn. *)
Definition at_head (a : agent) : Prop :=
  loop_ok a /\ fitting a (to_item <$> pending_input (session a)).

Definition in_turn (a : agent) : Prop := loop_ok a /\ messages_only (pending_input (session a)).

Lemma get_pending_spec b q (l : list (response_input_item opaque)) q' :
  get_pending_input_filtered b q = (l, q') ->
  transcript q' = transcript q /\ pending_input q' = [] /\
  pending_user_input q' ⊆ pending_user_input q /\
  l ⊆ pending_input q ++ (queued_item <$> pending_user_input q).
Proof.
  unfold get_pending_input_filtered.
  destruct (pending_input q) eqn:Ep, b, (pending_user_input q) eqn:Eu; cbn;
    intros [= <- <-]; cbn; rewrite ?Ep, ?Eu; split_and!; try done; set_solver.
Qed.

Lemma messages_fitting a (l : list (response_input_item opaque)) : messages_only l -> fitting a (to_item <$> l).
Proof.
  intros H x c (r & -> & Hr)%list_elem_of_fmap Ho. unfold messages_only in H.
  rewrite Forall_forall in H. specialize (H r Hr). unfold is_output in H. by rewrite Ho in H.
Qed.

Lemma fitting_app a l k : fitting a l -> fitting a k -> fitting a (l ++ k).
Proof. intros Hl Hk x c [Hx|Hx]%elem_of_app Ho; eauto. Qed.

Lemma messages_mono (l k : list (response_input_item opaque)) :
  messages_only k -> l ⊆ k -> messages_only l.
Proof. unfold messages_only. rewrite !Forall_forall. set_solver. Qed.

Lemma loop_head_ok c a b a' :
  quiet_environment -> answers_quiet c -> at_head a -> loop_head E c a = Some (b, a') ->
  in_turn a'.
Proof.
  intros HE Hc [Ha Hf]. unfold loop_head.
  destruct (if is_review_mode a || post_turn_only_turn a then _ else _) as [pending q] eqn:Eq.
  assert (exists b, get_pending_input_filtered b (session a) = (pending, q)) as [b' Hq].
  { destruct (is_review_mode a || post_turn_only_turn a); [by exists false|by exists true]. }
  clear Eq. apply get_pending_spec in Hq as (Ht & Hp & Hu & Hl).
  set (a1 := a <| session := q |>).
  assert (loop_ok a1) as Ha1.
  { destruct Ha as [H1 H2 H3 H4]. split; try done; cbn.
    - unfold history_of. by rewrite Ht.
    - eapply messages_mono; [exact H3|]. by apply fmap_subset. }
  assert (fitting a1 (TurnRecord.from_response_input (new_fields E) (mcp_payload E) <$> pending)) as Hf1.
  { apply (fitting_mono a a1 (to_item <$> pending_input (session a) ++ (queued_item <$> pending_user_input (session a)))).
    - rewrite fmap_app. apply fitting_app; [done|]. apply messages_fitting. apply Ha.
    - by apply fmap_subset.
    - done.
    - unfold a1. cbn. unfold history_of. by rewrite Ht. }
  destruct (take_initial _ a1) as [[a2 tail]|] eqn:Et.
  2: { intros [= _ <-]. split; [exact Ha1|]. cbn. rewrite Hp. constructor. }
  apply take_initial_ok in Et as (Ha2 & Hf2 & Htl & Hr2 & Hp2); [|done..].
  change (pending_input (session a1)) with (pending_input q) in Hp2. rewrite Hp in Hp2.
  set (a3 := if first_iteration a2 then _ else _).
  assert (loop_ok a3 /\ fitting a3 tail /\ pending_input (session a3) = []) as (Ha3 & Hf3 & Hp3).
  { unfold a3. destruct (first_iteration a2).
    - split_and!; [by destruct Ha2|apply (fitting_mono a2 _ _ _ Hf2); [done|done|set_solver]|done].
    - split_and!; [apply loop_ok_record; [done|by apply fitting_closed]| |done].
      apply (fitting_mono a2 _ _ _ Hf2); [done|done|]. cbn [session update]. rewrite calls_record.
      set_solver. }
  set (snapshot := with_history E _ _ tail). clearbody a3 snapshot.
  intros ([a4 tail4] & H4 & Heq)%bind_Some. apply (inj Some) in Heq. injection Heq as <- <-.
  assert (loop_ok a4 /\ fitting a4 tail4 /\ pending_input (session a4) = []) as (Ha4 & Hf4 & Hp4).
  { destruct (compacts_now a3); [|by injection H4 as <- <-].
    apply compact_before_turn_ok in H4 as (? & ? & ? & ->); done. }
  set (a5 := if is_review_mode a4 then _ else _).
  assert (loop_ok a5 /\ session a5 = session a4 /\ is_review_mode a5 = is_review_mode a4) as (Ha5 & Hs5 & Hr5).
  { unfold a5. destruct (is_review_mode a4) eqn:Er; [|done].
    split_and!; [by apply loop_ok_review|done|done]. }
  clearbody a5. split; [|cbn; rewrite Hs5, Hp4; constructor].
  destruct Ha5 as [H1 H2 H3 H5]. split; try done. cbn. apply Forall_app. split; [done|].
  apply Forall_singleton. destruct (is_review_mode a5) eqn:Er; [by apply H2|].
  apply closed_with_history; [done..|]. rewrite Hs5. by apply fitting_answered.
Qed.

(** ** Lemmas: the end of a turn *)

(** The model makes no calls whose answers go astray ([answerable]), and the status items
    are messages. *)
Definition outcome_ok (o : outcome opaque) : Prop :=
  Forall (fun x => is_output x = false) (status_items o) /\
  Forall (fun it => answerable it.1 = true) (turn_items o).

Lemma enforce_output r : output_id (to_item (enforce E r)) = output_id (to_item r).
Proof. destruct r as [role ?| | | |]; cbn; [by case_match|done..]. Qed.

Lemma enforce_answered r c : wanted (to_item r) = Some c -> enforce E r = r.
Proof. by destruct r. Qed.

Lemma add_pending_spec responses q :
  let q' := fold_left (fun q r => add_pending_input (enforce E) r q) responses q in
  transcript q' = transcript q /\ pending_user_input q' = pending_user_input q /\
  pending_input q' =
    pending_input q ++ ((fun r => if has_running_task q then enforce E r else r) <$> responses).
Proof.
  revert q. induction responses as [|r responses IH]; intros q; cbn [fold_left].
  { by rewrite app_nil_r. }
  destruct (IH (add_pending_input (enforce E) r q)) as (-> & -> & ->). split_and!; [done..|].
  unfold add_pending_input at 1. cbn. by rewrite <- app_assoc.
Qed.

Lemma add_responses_ok recorded responses a :
  loop_ok a -> messages_only (pending_input (session a)) ->
  Forall (answered_in (new_fields E) (mcp_payload E) recorded) responses ->
  (is_review_mode a = false -> calls recorded ⊆ calls (history_of (session a))) ->
  at_head (add_responses E responses a).
Proof.
  intros Ha Hp Hr Hc. pose proof Ha as [H1 H2 H3 H4]. unfold add_responses. destruct responses as [|r rs].
  { split; [done|]. by apply messages_fitting. }
  destruct (is_review_mode a) eqn:Er.
  { split; [by destruct Ha|]. by apply messages_fitting. }
  destruct (add_pending_spec (r :: rs) (session a)) as (Et & Eu & Ep).
  set (q := fold_left _ _ _) in *. clearbody q. split.
  - split; cbn; [unfold history_of; by rewrite Et|congruence|by rewrite Eu|done].
  - cbn [session update]. rewrite Ep, fmap_app. apply fitting_app.
    + by apply messages_fitting.
    + intros x c (r' & -> & (r0 & -> & Hr0)%list_elem_of_fmap)%list_elem_of_fmap Ho.
      rewrite Forall_forall in Hr. destruct (Hr r0 Hr0) as (c' & Hw & Hc' & _).
      change (wanted (to_item r0) = Some c') in Hw.
      assert ((if has_running_task (session a) then enforce E r0 else r0) = r0) as Hr'.
      { destruct (has_running_task _); [|done]. by apply enforce_answered in Hw. }
      rewrite Hr' in *. pose proof (wanted_output _ _ Hw) as Ho'. rewrite Ho in Ho'.
      injection Ho' as ->. split_and!; [done|done|]. cbn. unfold history_of. rewrite Et. by apply Hc.
Qed.

Lemma complete_turn_ok o recorded a r a' :
  loop_ok a -> messages_only (pending_input (session a)) ->
  complete_turn E o recorded a = (r, a') -> loop_ok a' /\ (r = Again -> at_head a').
Proof.
  intros Ha Hp. unfold complete_turn. set (a1 := a <| last_task_message := _ |>).
  assert (loop_ok a1) as Ha1 by (by destruct Ha).
  destruct (_ && _); [|by intros [= <- <-]].
  destruct (continuation_prompt o) as [prompt|]; [|by intros [= <- <-]].
  intros [= <- <-]. set (i := new_message _ _ prompt).
  assert (loop_ok (a1 <| session := record [i] (session a1) |>)) as Hok.
  { apply loop_ok_record; [done|]. apply closed_no_outputs. by constructor. }
  split; [by destruct Hok|]. intros _. split; [by destruct Hok|]. by apply messages_fitting.
Qed.

Lemma turn_done_ok c o a r a' :
  quiet_environment -> answers_quiet c -> (forall o', o = Some o' -> outcome_ok o') ->
  in_turn a -> turn_done E c o a = Some (r, a') -> loop_ok a' /\ (r = Again -> at_head a').
Proof.
  intros HE Hc Ho [Ha Hp]. unfold turn_done. destruct o as [o|]; [|by intros [= <- <-]].
  destruct (Ho o eq_refl) as [Hs Hi].
  set (a1 := a <| session := record (status_items o) (session a) |>).
  assert (loop_ok a1) as Ha1 by (apply loop_ok_record; [done|]; by apply closed_no_outputs).
  destruct (turn_recorded (new_fields E) (mcp_payload E) (mcp_recorded E) (display_name E)
    (turn_items o) [] Hi) as [Hrec Hresp].
  destruct (record_turn (mcp_recorded E) _) as [recorded responses]. cbn [fst snd] in *.
  set (a2 := if is_review_mode a1 then _ else a1).
  assert (loop_ok a2 /\ session a2 = session a1) as [Ha2 Hs2].
  { unfold a2. destruct (is_review_mode a1); [|done]. split; [by destruct Ha1|done]. }
  clearbody a2. destruct (check _ _ _ _ _) as [res guard].
  set (a3 := a2 <| repeated_tool_cycle_guard := guard |>).
  assert (loop_ok a3) as Ha3 by (by destruct Ha2).
  assert (messages_only (pending_input (session a3))) as Hp3 by (cbn; rewrite Hs2; exact Hp).
  clearbody a3. destruct res as [u|e]; [|by intros [= <- <-]].
  set (a4 := if is_review_mode a3 then _ else _).
  assert (loop_ok a4 /\ messages_only (pending_input (session a4)) /\
    (is_review_mode a4 = false -> calls recorded ⊆ calls (history_of (session a4)))) as (Ha4 & Hp4 & Hc4).
  { unfold a4. destruct (is_review_mode a3) eqn:Er.
    - split_and!; [|done|cbn; congruence]. destruct Ha3 as [H1 H2 H3 H4]. split; try done.
      intros _. cbn. apply closed_app. split; [by apply H2|]. eapply closed_mono; [|exact Hrec]. set_solver.
    - split_and!; [|done|intros _; cbn [session update]; rewrite calls_record; set_solver].
      apply loop_ok_record; [done|]. eapply closed_mono; [|exact Hrec]. set_solver. }
  clearbody a4.
  pose proof (add_responses_ok recorded responses a4 Ha4 Hp4 Hresp Hc4) as [Ha5 Hf5].
  destruct responses as [|resp responses].
  - change (add_responses E [] a4) with a4 in *.
    destruct (_ && _ && _); [|intros H%(inj Some); by apply (complete_turn_ok o recorded a4)].
    intros ([l q] & Hq & Heq)%bind_Some. injection Heq as <- <-.
    apply auto_compact_closed in Hq as (_ & Hh & _ & Hpi & Hu); [|done..|by destruct Ha4].
    assert (loop_ok (a4 <| did_proactive_compact := true |> <| session := q |>)) as Hok.
    { destruct Ha4 as [H1 H2 H3 H4]. split; cbn; try done. by rewrite Hu. }
    split; [done|]. intros _. split; [done|]. apply messages_fitting. cbn. by rewrite Hpi.
  - intros [= <- <-]. destruct (_ && _ && _); [|done].
    split; [by destruct Ha5|]. intros _. split; [by destruct Ha5|]. exact Hf5.
Qed.

(** ** Lemmas: what arrives during a turn *)

Definition fresh (sub_id : str) (op : submission value) : Prop :=
  match op with
  | OpUserInput id _ | OpReview id _ => id <> sub_id
  | _ => True
  end.

Definition event_ok (sub_id : str) (e : event opaque value) : Prop :=
  match e with
  | Submitted op => fresh sub_id op
  | AgentsCompleted messages => messages_only messages
  | TurnEnded o after_turn before_turn =>
      (forall o', o = Some o' -> outcome_ok o') /\ answers_quiet after_turn /\ answers_quiet before_turn
  end.

(** More messages wait, and the conversation is the same. *)
Definition more_messages q q' : Prop :=
  transcript q' = transcript q /\
  (messages_only (pending_input q) -> messages_only (pending_input q')) /\
  (messages_only (queued_item <$> pending_user_input q) ->
   messages_only (queued_item <$> pending_user_input q')).

Notation submit := (submit (enforce E) (read_image E) (cleanup_old_status_items E)
  (blocked_by_hook E) (compact_prompt_text E)).

Lemma push_message q (r : response_input_item opaque) :
  is_output (to_item r) = false -> messages_only (pending_input q) ->
  messages_only (pending_input q ++ [r]).
Proof. intros Hr Hq. apply Forall_app. split; [done|]. by constructor. Qed.

Lemma enforce_message r : is_output (to_item r) = false -> is_output (to_item (enforce E r)) = false.
Proof. unfold is_output. by rewrite enforce_output. Qed.

Lemma not_current_after_spawn sub_id id items origin q :
  id <> sub_id -> current_task q = None ->
  is_current_task sub_id (spawn_user_turn (blocked_by_hook E) id items origin q).2 = false.
Proof.
  intros Hn Hc. unfold spawn_user_turn. destruct (blocked_by_hook E id items); cbn [snd].
  - unfold is_current_task. by rewrite Hc.
  - by apply bool_decide_eq_false.
Qed.

Lemma submit_running sub_id op q :
  fresh sub_id op -> is_current_task sub_id q = true -> is_current_task sub_id (submit op q) = true ->
  more_messages q (submit op q).
Proof.
  intros Hf Hc. assert (has_running_task q = true) as Hr.
  { unfold is_current_task in Hc. unfold has_running_task. by destruct (current_task q). }
  unfold TurnQueue.submit. destruct op; try done.
  - intros _. unfold enqueue_out_of_turn_item. rewrite Hr. cbn.
    split_and!; [done|by apply push_message|done].
  - intros _. unfold enqueue_post_turn_item. by rewrite Hr.
  - intros H. by rewrite (not_current_after_spawn sub_id) in H.
  - intros _. rewrite Hr. split_and!; [done..|].
    unfold queue_user_input. cbn [pending_user_input update]. rewrite fmap_app. intros Hu.
    apply Forall_app. split; [done|]. constructor; [|done]. by apply enforce_message.
  - by destruct is_abort.
  - intros _. unfold inject_input. rewrite Hr. cbn -[enforce].
    split_and!; [done| |done]. apply push_message. by apply enforce_message.
Qed.

Lemma wake_running sub_id messages q :
  messages_only messages -> is_current_task sub_id q = true ->
  more_messages q (enqueue_agent_completion_wake (cleanup_old_status_items E) messages q).
Proof.
  intros Hm Hc. assert (has_running_task q = true) as Hr.
  { unfold is_current_task in Hc. unfold has_running_task. by destruct (current_task q). }
  unfold enqueue_agent_completion_wake.
  set (push := fun (acc : bool * state) message => _).
  assert (forall q, has_running_task q = true ->
    let r := fold_left push messages (false, q) in r.1 = false /\ more_messages q r.2) as H.
  { clear Hc Hr q. induction Hm as [|m messages Hm _ IH]; intros q Hr; [done|]. cbn [fold_left].
    set (q1 := q <| pending_input := pending_input q ++ [m] |>).
    assert (push (false, q) m = (false, q1)) as ->.
    { unfold push, enqueue_out_of_turn_item. cbn [fst snd]. by rewrite Hr. }
    destruct (IH q1 Hr) as (H1 & H2 & H3 & H4).
    split; [done|]. split_and!; [done| |done]. intros Hq. apply H3. by apply push_message. }
  specialize (H q Hr). destruct (fold_left _ _ _) as [start q']. cbn in H. by destruct H as [-> H].
Qed.

(** ** Lemmas: runs *)

Definition running_ok (a : agent) : Prop :=
  in_turn a /\ is_current_task (agent_sub_id a) (session a) = true.

Definition inputs_of (p : phase opaque value) : list (list item) :=
  match p with Running a => turn_inputs a | Stopped inputs _ => inputs end.

Definition phase_ok (sub_id : str) (p : phase opaque value) : Prop :=
  Forall (closed_after []) (inputs_of p) /\
  match p with Running a => running_ok a /\ agent_sub_id a = sub_id | Stopped _ _ => True end.

(** The loop does not touch the task. *)
Definition same_task a a' : Prop :=
  agent_sub_id a' = agent_sub_id a /\ current_task (session a') = current_task (session a).

Lemma same_task_refl a : same_task a a.
Proof. done. Qed.

Lemma same_task_trans a b c : same_task a b -> same_task b c -> same_task a c.
Proof. intros [H1 H2] [H3 H4]. split; congruence. Qed.

Lemma auto_compact_task c n q l q' :
  auto_compact E c n q = Some (l, q') -> current_task q' = current_task q.
Proof.
  unfold auto_compact, next_internal_sub_id.
  destruct c; cbn -[run_compact_task_inner_inline run_remote_compact_task_inner with_history];
    by intros ([r s'] & _ & [= <- <-])%bind_Some.
Qed.

Lemma loop_head_task c a b a' : loop_head E c a = Some (b, a') -> same_task a a'.
Proof.
  unfold loop_head.
  destruct (if is_review_mode a || post_turn_only_turn a then _ else _) as [pending q] eqn:Eq.
  assert (current_task q = current_task (session a)) as Hq.
  { destruct (is_review_mode a || post_turn_only_turn a);
      unfold get_pending_input, get_pending_input_filtered in Eq;
      by repeat (case_match; simplify_eq/=). }
  clear Eq. destruct (take_initial _ _) as [[a2 tail]|] eqn:Et; [|by intros [= _ <-]].
  assert (same_task a a2) as H2.
  { unfold take_initial in Et. repeat (case_match; simplify_eq/=); done. }
  set (a3 := if first_iteration a2 then _ else _).
  assert (same_task a2 a3) as H3 by (unfold a3; by destruct (first_iteration a2)).
  clearbody a3. intros ([a4 tail4] & H4 & Heq)%bind_Some. apply (inj Some) in Heq. injection Heq as <- <-.
  assert (same_task a3 a4) as H5.
  { destruct (compacts_now a3); [|by injection H4 as <- <-].
    unfold compact_before_turn in H4. apply bind_Some in H4 as ([l q4] & Hc & Heq).
    apply auto_compact_task in Hc. apply (inj Some) in Heq. by destruct l; injection Heq as <- <-. }
  destruct H2, H3, H5. split; destruct (is_review_mode a4); cbn; congruence.
Qed.

Lemma add_responses_task responses a : same_task a (add_responses E responses a).
Proof.
  unfold add_responses. destruct responses as [|r rs]; [done|]. destruct (is_review_mode a); [done|].
  split; [done|]. cbn [session update]. generalize (r :: rs) (session a). intros l.
  induction l as [|x l IH]; intros q; [done|]. cbn [fold_left]. by rewrite IH.
Qed.

Lemma complete_turn_task o recorded a r a' : complete_turn E o recorded a = (r, a') -> same_task a a'.
Proof. unfold complete_turn. repeat case_match; by intros [= <- <-]. Qed.

Lemma turn_done_task c o a r a' : turn_done E c o a = Some (r, a') -> same_task a a'.
Proof.
  unfold turn_done. destruct o as [o|]; [|by intros [= _ <-]].
  destruct (record_turn _ _) as [recorded responses].
  set (a2 := if is_review_mode _ then _ else _).
  assert (same_task a a2) as H2 by (unfold a2; by destruct (is_review_mode _)). clearbody a2.
  destruct (check _ _ _ _ _) as [[u|e] guard]; [|by intros [= <- <-]].
  set (a4 := if is_review_mode _ then _ else _).
  assert (same_task a2 a4) as H4 by (unfold a4; by destruct (is_review_mode _)). clearbody a4.
  pose proof (same_task_trans _ _ _ H2 H4) as H. clear H2 H4.
  pose proof (same_task_trans _ _ _ H (add_responses_task responses a4)) as H'.
  destruct responses as [|resp responses].
  - change (add_responses E [] a4) with a4 in *. destruct (_ && _ && _).
    + intros ([l q] & Hq & Heq)%bind_Some. injection Heq as <- <-.
      apply auto_compact_task in Hq. destruct H. split; cbn; congruence.
    + intros Hc%(inj Some). apply complete_turn_task in Hc. by eapply same_task_trans.
  - intros [= <- <-]. by destruct (_ && _ && _).
Qed.

Lemma same_task_current a a' :
  same_task a a' -> is_current_task (agent_sub_id a) (session a) = true ->
  is_current_task (agent_sub_id a') (session a') = true.
Proof. intros [-> Hc]. unfold is_current_task. by rewrite Hc. Qed.

Lemma continue_ok c a p :
  quiet_environment -> answers_quiet c -> at_head a ->
  is_current_task (agent_sub_id a) (session a) = true ->
  continue_loop E c a = Some p -> phase_ok (agent_sub_id a) p.
Proof.
  intros HE Hc Ha Ht. unfold continue_loop. intros ([b a'] & Hl & Hp)%bind_Some.
  pose proof (loop_head_task _ _ _ _ Hl) as Hs. apply loop_head_ok in Hl; [|done..]. destruct b.
  - injection Hp as <-. split; [apply Hl|]. split; [|apply Hs]. split; [done|].
    by eapply same_task_current.
  - apply fmap_Some in Hp as (q & _ & ->). split; [|done]. apply Hl.
Qed.

Lemma step_ok e a p :
  quiet_environment -> event_ok (agent_sub_id a) e -> running_ok a ->
  agent_step E e a = Some p -> phase_ok (agent_sub_id a) p.
Proof.
  intros HE He [[Ha Hp] Ht].
  assert (forall q, (is_current_task (agent_sub_id a) q = true -> more_messages (session a) q) ->
    Some (while_running q a) = Some p -> phase_ok (agent_sub_id a) p) as Hw.
  { intros q Hq [= <-]. unfold while_running.
    destruct (is_current_task (agent_sub_id a) q) eqn:Ec; [|split; [apply Ha|done]].
    destruct (Hq eq_refl) as (Ht' & Hp' & Hu'). split; [apply Ha|]. split; [|done].
    split; [|done]. split; [|by apply Hp']. destruct Ha as [H1 H2 H3 H4].
    split; cbn; [unfold history_of; by rewrite Ht'|done|by apply Hu'|done]. }
  destruct e as [op|messages|o c1 c2]; unfold agent_step.
  - apply Hw. intros Hc. by apply (submit_running (agent_sub_id a)).
  - apply Hw. intros _. by apply (wake_running (agent_sub_id a)).
  - destruct He as (Ho & Hc1 & Hc2). intros ([r a'] & Hd & Hr)%bind_Some.
    pose proof (turn_done_task _ _ _ _ _ Hd) as Hs.
    apply turn_done_ok in Hd as [Ha' Hh]; [|done..]. destruct r as [|failed].
    + destruct Hs as [Hid Hs]. rewrite <- Hid. apply (continue_ok c2 a'); [done..|by apply Hh| |done].
      by apply (same_task_current a a').
    + apply fmap_Some in Hr as (q & _ & ->). split; [apply Ha'|done].
Qed.

Lemma run_events_ok sub_id events p p' :
  quiet_environment -> Forall (event_ok sub_id) events -> phase_ok sub_id p ->
  run_events E events p = Some p' -> phase_ok sub_id p'.
Proof.
  intros HE He. revert p. induction He as [|e events He _ IH]; intros p Hp; [by destruct p; intros [= <-]|].
  destruct p as [a|inputs q]; [|by intros [= <-]]. cbn [run_events].
  intros (p1 & H1 & H2)%bind_Some. destruct Hp as [_ [Ha Hid]]. apply (IH p1); [|done].
  rewrite <- Hid in *. by apply (step_ok e a).
Qed.
End lemmas.

(** ** Lemmas: waiting messages *)

Section messages.
Context {opaque value : Type}.
Notation item := (response_item opaque).
Notation state := (state opaque value).
Notation agent := (agent opaque value).
Context (E : environment opaque).
Notation to_item := (to_item E).

(** An item that is shown to the model: not a message of the system, and not the
    environment context that a session with the new context leaves out. *)
Definition sendable (i : item) : bool :=
  is_api_message i &&
  negb (env_ctx_v2 E && ctx_ui E &&
        (is_legacy_env_context i || is_env_snapshot E i || is_env_delta E i)).

(** A message that announces a passing image. *)
Definition marked (i : item) : Prop :=
  match i with
  | Message _ content _ => exists text, InputText text ∈ content /\ starts_with (lit "[EPHEMERAL:") text = true
  | _ => False
  end.

(** How a message is shown: as it is, or with its role and content, as the history does. *)
Definition shown_in (input : list item) (i : item) : Prop :=
  i ∈ input \/
  match i with
  | Message role content rest => Message role content (clear_turn E rest) ∈ input
  | _ => False
  end.

Lemma filter_unmarked (i : item) : ~ marked i -> filter_history_item (clear_turn E) i =
  match i with Message role content rest => Message role content (clear_turn E rest) | _ => i end.
Proof.
  destruct i as [|role content rest| | | | | | | | | | | | | |]; try done. cbn. intros Hm.
  destruct (str_eqb role (lit "user")); [|done]. f_equal.
  induction content as [|c content IH]; [done|]. cbn [filter_ephemeral].
  destruct (is_ephemeral_marker c) eqn:Ec.
  - exfalso. apply Hm. destruct c as [text| |]; try discriminate Ec. exists text. split; [left|exact Ec].
  - rewrite andb_false_r. f_equal. apply IH. intros (text & Ht & Hs). apply Hm. exists text.
    split; [by right|done].
Qed.

Lemma strip_item (i : item) : (match i with Reasoning _ _ => False | _ => True end) ->
  strip_encrypted (clear_encrypted E) i = i.
Proof. by destruct i. Qed.

Lemma in_with_history n (q : state) tail (i : item) :
  sendable i = true -> (match i with Reasoning _ _ => False | _ => True end) ->
  ~ marked i ->
  i ∈ history_of q \/ i ∈ tail -> shown_in (with_history E n q tail) i.
Proof.
  unfold sendable. intros [_ Hs]%andb_true_iff Hr Hm Hi.
  assert (i ∈ with_history E n q tail \/ filter_history_item (clear_turn E) i ∈ with_history E n q tail ->
    shown_in (with_history E n q tail) i) as Hshown.
  { rewrite (filter_unmarked i Hm). intros [H|H]; [by left|]. destruct i; try (by left). by right. }
  apply Hshown. clear Hshown. unfold with_history, turn_input_with_history. set (l := _ ++ _ ++ _).
  assert (i ∈ l \/ filter_history_item (clear_turn E) i ∈ l) as Hl.
  { unfold l. destruct Hi as [Hi|Hi]; [right|left]; rewrite !elem_of_app; right.
    - left. apply list_elem_of_fmap. exists i. split; [done|]. apply list_elem_of_filter.
      split; [|exact Hi]. by destruct (env_ctx_v2 E && ctx_ui E), (is_legacy_env_context i).
    - right. destruct (env_ctx_v2 E && ctx_ui E); [|done]. apply list_elem_of_filter.
      split; [|done]. by destruct (is_legacy_env_context i), (is_env_snapshot E i), (is_env_delta E i). }
  destruct (negb (chatgpt E)); [|done].
  assert (forall x, x ∈ l -> (match x with Reasoning _ _ => False | _ => True end) ->
    x ∈ (strip_encrypted (clear_encrypted E) <$> l)) as Hf.
  { intros x Hx Hn. apply list_elem_of_fmap. exists x. by rewrite strip_item. }
  destruct Hl as [Hl|Hl]; [left|right]; apply Hf; try done.
  destruct i as [|role content rest| | | | | | | | | | | | | |]; try done. cbn.
  by destruct (str_eqb role (lit "user")).
Qed.

Lemma record_keeps (new : list item) (q : state) (i : item) :
  i ∈ history_of q \/ (i ∈ new /\ is_api_message i = true) -> i ∈ history_of (record new q).
Proof. rewrite history_record, elem_of_app, list_elem_of_filter. tauto. Qed.

(** The compaction in front of a turn drops no message that waits. *)
Lemma compact_before_turn_keeps c tail snapshot (a a' : agent) tail' (i : item) :
  compact_before_turn E c tail snapshot a = Some (a', tail') ->
  i ∈ tail -> wanted i = None -> i ∈ history_of (session a') \/ i ∈ tail'.
Proof.
  unfold compact_before_turn. intros ([l q] & _ & Heq)%bind_Some Hi Hw. apply (inj Some) in Heq.
  destruct (reconcile_total tail l snapshot) as (seen & _ & Hk & _).
  destruct (reconcile_pending_tool_outputs tail l snapshot) as [missing kept]. cbn in Hk.
  assert (i ∈ kept) as Hik.
  { rewrite Hk. apply list_elem_of_filter. split; [|done]. unfold reachable. by rewrite Hw. }
  destruct l as [|x l]; injection Heq as <- <-; [by right|left].
  change (i ∈ match tail with [] => x :: l | _ => (x :: l) ++ missing ++ kept end).
  destruct tail; [by apply elem_of_nil in Hi|]. set_solver.
Qed.

(** Where the item is that the next request has to show. *)
Definition taken_over (a : agent) (i : item) : Prop :=
  if is_review_mode a then i ∈ review_history a else i ∈ history_of (session a).

Lemma compact_before_turn_review c tail snapshot (a a' : agent) tail' :
  compact_before_turn E c tail snapshot a = Some (a', tail') ->
  is_review_mode a' = is_review_mode a /\
  pending_input (session a') = pending_input (session a) /\
  pending_user_input (session a') = pending_user_input (session a) /\ turn_inputs a' = turn_inputs a.
Proof.
  unfold compact_before_turn, auto_compact, next_internal_sub_id.
  intros ([l q] & Hq & Heq)%bind_Some. apply (inj Some) in Heq.
  assert (pending_input q = pending_input (session a) /\
          pending_user_input q = pending_user_input (session a)) as [Hp Hu].
  { destruct c; cbn -[run_compact_task_inner_inline run_remote_compact_task_inner with_history] in Hq;
      by apply bind_Some in Hq as ([r s'] & _ & [= <- <-]). }
  by destruct l; injection Heq as <- <-.
Qed.

Lemma take_initial_keeps pending (a a' : agent) tail (i : item) :
  take_initial pending a = Some (a', tail) -> i ∈ pending -> is_api_message i = true ->
  is_review_mode a' = is_review_mode a /\ compacts_now a' = compacts_now a /\
  pending_input (session a') = pending_input (session a) /\
  pending_user_input (session a') = pending_user_input (session a) /\
  (i ∈ tail \/ (initial_response_item a = None /\ taken_over a' i)).
Proof.
  unfold take_initial, taken_over. intros Ht Hi Hapi. destruct (initial_response_item a) as [ini|].
  { injection Ht as <- <-. by split_and!; [..|left]. }
  destruct pending as [|first rest]; [done|]. injection Ht as <- <-.
  apply elem_of_cons in Hi as [<-|Hi].
  - destruct (is_review_mode a) eqn:Er; split_and!; try done; right; (split; [done|]).
    + cbn. rewrite Er. set_solver.
    + change (if is_review_mode a then i ∈ review_history a
              else i ∈ history_of (record [i] (session a))). rewrite Er.
      apply record_keeps. right. set_solver.
  - destruct (is_review_mode a) eqn:Er; by split_and!; [..|left].
Qed.

Lemma get_pending_filtered b (q : state) :
  pending_input q <> [] ->
  get_pending_input_filtered b q =
    (pending_input q ++ (queued_item <$> pending_user_input q),
     if b then q <| pending_input := [] |> <| pending_user_input := [] |>
     else q <| pending_input := [] |>).
Proof. intros Hn. unfold get_pending_input_filtered. by destruct (pending_input q). Qed.
End messages.

(** ** Lemmas: the end of a task *)

Section ending.
Context {opaque value : Type}.
Notation agent := (agent opaque value).
Context (E : environment opaque).
Notation next_task := (next_task (blocked_by_hook E) (compact_prompt_text E)).

(** The model is done: it uses no tool, its context is not full (or was just compacted), and
    no hook asks it to go on (or one did already). *)
Definition model_done (o : outcome opaque) (a : agent) : Prop :=
  Forall (fun it => handle_response_item (display_name E) it.1 it.2 = None) (turn_items o) /\
  (token_limit_reached o = false \/ did_proactive_compact a = true) /\
  (stop_blocked o = false \/ stop_hook_active a = true \/ continuation_prompt o = None).

(** Two sessions in which the same waits for the same task. *)
Definition same_waiting (q q' : state opaque value) : Prop :=
  current_task q' = current_task q /\ next_task q' = next_task q.

Lemma end_agent_total failed (a : agent) :
  is_current_task (agent_sub_id a) (session a) = true ->
  exists q', end_agent E failed a = Some q' /\
    current_task q' = fst <$> next_task (session a).
Proof.
  intros H. unfold end_agent. set (q := if is_review_mode a then _ else _).
  assert (same_waiting (session a) q) as [Hc Hn] by (unfold q; by destruct (is_review_mode a)).
  destruct (finish_turn_total (cleanup_old_status_items E) (blocked_by_hook E)
    (compact_prompt_text E) (agent_sub_id a) q) as (q' & Hq & Ht & _).
  { unfold is_current_task in *. by rewrite Hc. }
  exists q'. split; [done|]. by rewrite Ht, Hn.
Qed.

Lemma no_responses (its : list (response_item opaque * tool_outcome opaque)) :
  Forall (fun it => handle_response_item (display_name E) it.1 it.2 = None) its ->
  omap response (process (display_name E) <$> its) = [].
Proof. induction 1 as [|it its H _ IH]; [done|]. cbn. by rewrite H. Qed.

Lemma check_no_responses previous (recorded : list (response_item opaque)) :
  check (shown_fields E) (json_text E) previous recorded [] = (Ok tt, None).
Proof. unfold check, from_turn. by destruct (omap _ recorded). Qed.

Lemma turn_done_ends c o (a : agent) :
  model_done o a ->
  exists a', turn_done E c (Some o) a = Some (Ended false, a') /\
    turn_inputs a' = turn_inputs a /\ agent_sub_id a' = agent_sub_id a /\
    same_waiting (session a) (session a').
Proof.
  intros (Hi & Hl & Hs). unfold turn_done, record_turn. rewrite (no_responses _ Hi).
  set (a2 := if is_review_mode _ then _ else _).
  assert (turn_inputs a2 = turn_inputs a /\ agent_sub_id a2 = agent_sub_id a /\
    same_waiting (session a) (session a2) /\ did_proactive_compact a2 = did_proactive_compact a /\
    stop_hook_active a2 = stop_hook_active a) as (H1 & H2 & H3 & H4 & H5)
    by (unfold a2; by destruct (is_review_mode _)).
  clearbody a2. rewrite check_no_responses.
  set (a4 := add_responses E [] _).
  assert (turn_inputs a4 = turn_inputs a /\ agent_sub_id a4 = agent_sub_id a /\
    same_waiting (session a) (session a4) /\ did_proactive_compact a4 = did_proactive_compact a /\
    stop_hook_active a4 = stop_hook_active a) as (H6 & H7 & H8 & H9 & H10).
  { unfold a4. cbn [add_responses].
    change (is_review_mode (a2 <| repeated_tool_cycle_guard := None |>)) with (is_review_mode a2).
    by destruct (is_review_mode a2). }
  clearbody a4.
  assert (token_limit_reached o && negb (did_proactive_compact a4) && negb (is_review_mode a4) = false)
    as ->. { rewrite H9. destruct Hl as [->| ->]; [done|]. by destruct (token_limit_reached o). }
  unfold complete_turn.
  set (a5 := a4 <| last_task_message := _ |>). exists a5.
  change (stop_hook_active a5) with (stop_hook_active a4). rewrite H10.
  destruct Hs as [Hs|[Hs|Hs]]; rewrite Hs.
  - by rewrite andb_false_r.
  - cbn [negb]. by rewrite andb_false_r.
  - by destruct (_ && _).
Qed.
End ending.

(** ** Properties *)

Section properties.
Context {opaque value : Type}.
Notation item := (response_item opaque).
Notation state := (state opaque value).
Notation agent := (agent opaque value).
Context (E : environment opaque).

(** C3: no input that the loop gives to [run_turn] holds the output of a tool without the call
    that it answers in front of it ([run_turn] itself may add aborted outputs for calls
    that have none).  This holds through any number of turns, compactions in between and whatever
    is submitted meanwhile, from a conversation of which it holds, as long as the model
    uses tools whose answers are recorded ([answerable]) and the service answers a
    compaction with a conversation. *)
Theorem requests_have_calls (sub_id : str) (review visible : bool) (input : list input_item)
    (c : compact_answers opaque) (events : list (event opaque value)) (q : state)
    (p : phase opaque value) :
  quiet_environment E -> answers_quiet c -> Forall (event_ok E sub_id) events ->
  is_current_task sub_id q = true ->
  closed_after [] (history_of q) ->
  messages_only E (pending_input q) -> messages_only E (queued_item <$> pending_user_input q) ->
  run_agent E sub_id review visible input c events q = Some p ->
  Forall (closed_after []) (inputs_of p).
Proof.
  intros HE Hc He Ht Hh Hp Hu. unfold run_agent.
  destruct (begin_agent E sub_id review visible input q) as [a|] eqn:Eb; [|by intros [= <-]].
  intros (p1 & H1 & H2)%bind_Some.
  assert (at_head E a /\ same_task (Agent sub_id review false visible None [] [] true false false false
    None None [] q) a) as [Ha [Hid Hs]].
  { unfold begin_agent in Eb. destruct input as [|i input]; [done|]. apply (inj Some) in Eb.
    set (a0 := Agent _ _ _ _ _ _ _ _ _ _ _ _ _ _ _) in Eb.
    assert (loop_ok E a0) as Ha0 by (split; [done..|constructor]).
    set (x := to_item E _) in Eb.
    assert (is_output x = false) as Hx by (unfold x; by apply enforce_message).
    destruct (_ || _).
    - rewrite <- Eb. split; [|done]. split; [done|]. by apply messages_fitting.
    - assert (fitting a0 [x]) as Hf.
      { intros y c' ->%list_elem_of_singleton Hy. unfold is_output in Hx. by rewrite Hy in Hx. }
      destruct review; rewrite <- Eb.
      + pose proof (loop_ok_review E a0 [x] Ha0 Hf eq_refl) as [? ? ? ?].
        split; [|done]. split; [by split|]. by apply messages_fitting.
      + pose proof (loop_ok_record E a0 [x] Ha0 (fitting_closed _ _ Hf)) as [? ? ? ?].
        split; [|done]. split; [by split|]. by apply messages_fitting. }
  cbn in Hid, Hs. apply (continue_ok E c a) in H1; [|done..|].
  - rewrite Hid in H1. by eapply run_events_ok in H2 as [? _].
  - unfold is_current_task in *. by rewrite Hid, Hs.
Qed.


(** A task ends as soon as the model is done or the turn fails: the agent stops without
    another request, whatever it was doing, and the session goes on with what waits. *)
Theorem done_model_ends_task c1 c2 (o : option (outcome opaque)) (a : agent) :
  is_current_task (agent_sub_id a) (session a) = true ->
  (forall o', o = Some o' -> model_done E o' a) ->
  exists q', agent_step E (TurnEnded o c1 c2) a = Some (Stopped (turn_inputs a) q') /\
    current_task q' =
      fst <$> next_task (blocked_by_hook E) (compact_prompt_text E) (session a).
Proof.
  intros Ht Ho. unfold agent_step. destruct o as [o|].
  - destruct (turn_done_ends E c1 o a (Ho o eq_refl)) as (a' & -> & Hi & Hid & Hc & Hn).
    destruct (end_agent_total E false a') as (q' & Hq & Hcur).
    { rewrite Hid. unfold is_current_task in *. by rewrite Hc. }
    exists q'. cbn. rewrite Hq, <- Hi. split; [done|]. by rewrite Hcur, Hn.
  - destruct (end_agent_total E true a Ht) as (q' & Hq & Hcur).
    exists q'. cbn. by rewrite Hq.
Qed.
End properties.

(** ** Concrete runs *)

Module LoopRuns.
Definition surroundings : environment unit := {|
  new_fields := ();
  clear_turn := id;
  clear_encrypted := id;
  mcp_payload := fun _ => FunctionCallOutputPayload (Text []) None;
  mcp_recorded := fun _ => FunctionCallOutputPayload (Text []) None;
  display_name := fun _ => lit "t";
  shown_fields := id;
  json_text := TurnRuns.json_text;
  to_json := fun _ => None;
  from_json := fun _ => None;
  render_history_bridge := fun _ summary => Some summary;
  is_env_snapshot := fun _ => false;
  is_env_delta := fun _ => false;
  env_ctx_v2 := false;
  ctx_ui := false;
  chatgpt := true;
  timeline_items := fun _ => None;
  initial_context := [];
  read_image := fun _ => Some (lit "data:image/png;base64,AA");
  save_full_text := fun _ => Err [];
  tool_output_max_bytes := 1000;
  max_retries := 0;
  compact_prompt_text := lit "Summarize";
  cleanup_old_status_items := id;
  blocked_by_hook := fun _ _ => false
|}.

Definition output_ok : tool_outcome unit :=
  ToolOutcome (FunctionCallOutputPayload (Text (lit "ok")) None) None ().
Definition call (id : string) : response_item unit := FunctionCall (lit id) (lit id) ().
Definition say (role text : string) : response_item unit :=
  Message (lit role) [InputText (lit text)] ().
Definition answer : response_item unit := Message (lit "assistant") [OutputText (lit "Done")] ().
Definition turn (items : list (response_item unit)) (limit : bool) : outcome unit :=
  Outcome [] ((fun i => (i, output_ok)) <$> items) limit false None.

(** A compaction that succeeds at once. *)
Definition summary : compact_answers unit :=
  LocalAnswers [Streamed [OutputItemDone answer; ResponseCompleted] false].
Definition turn_ended (items : list (response_item unit)) (limit : bool) : event unit bool :=
  TurnEnded (Some (turn items limit)) summary summary.

Definition busy : state unit bool :=
  new_state <| current_task := Some (AgentTask (lit "1") Regular UserTurn true) |>.

Definition run (review : bool) (input : list input_item) (events : list (event unit bool))
    (q : state unit bool) : option (phase unit bool) :=
  run_agent surroundings (lit "1") review true input summary events q.

Definition inputs (p : option (phase unit bool)) : list (list (response_item unit)) :=
  match p with Some p => inputs_of p | None => [] end.

(** A turn that uses a tool and fills the context, a message of the user meanwhile, and the
    turn after the compaction. *)
Definition long_run : list (event unit bool) :=
  [Submitted (OpQueueUserInput (lit "2") [TextInput (lit "wait")]);
   turn_ended [call "c1"] true; turn_ended [call "c2"] false].

Lemma requests_have_calls_witness :
  length (inputs (run false [TextInput (lit "hi")] long_run busy)) = 3 /\
  Forall (closed_after []) (inputs (run false [TextInput (lit "hi")] long_run busy)).
Proof.
  split; [by vm_compute|].
  pose proof (requests_have_calls surroundings (lit "1") false true [TextInput (lit "hi")] summary
    long_run busy) as H.
  unfold run. destruct (run_agent _ _ _ _ _ _ _ _) as [p|]; [|constructor].
  apply (H p); clear H; [..|done].
  - split; [by intros n|constructor].
  - by repeat constructor.
  - assert (answers_quiet summary) as Hq by (by repeat constructor).
    assert (forall id limit, event_ok surroundings (lit "1") (turn_ended [call id] limit)) as Ht.
    { intros id limit. split_and!; [|done..]. intros o [= <-]. split; [constructor|].
      by constructor. }
    by constructor; [|constructor; [|constructor]].
  - by vm_compute.
  - done.
  - constructor.
  - constructor.
Defined.

(** The outcome of the first turn waits, and a message of a developer. *)
Definition between : agent unit bool :=
  Agent (lit "1") false false true (Some (say "user" "hi")) [] [] false false true false None None []
    (busy <| transcript := ConversationHistory [say "user" "hi"; call "c1";
               FunctionCallOutput (lit "c1") (payload output_ok)] |>
          <| pending_input := [InFunctionCallOutput (lit "c1") (payload output_ok);
               developer_item (lit "note")] |>).


Lemma done_model_ends_task_witness :
  is_current_task (lit "1") (session between) = true /\
  exists q', agent_step surroundings (turn_ended [answer] false) between = Some (Stopped [] q') /\
    has_running_task q' = true.
Proof.
  split; [by vm_compute|].
  destruct (done_model_ends_task surroundings summary summary (Some (turn [answer] false)) between)
    as (q' & Hs & Hc); [by vm_compute|..].
  - intros o [= <-]. split_and!; [by repeat constructor|by left|by left].
  - exists q'. split; [exact Hs|]. unfold has_running_task. by rewrite Hc.
Defined.

(** How often the message is in each request. *)
Definition times (i : response_item unit -> bool) (p : option (phase unit bool)) : list nat :=
  (fun input => length (filter (fun x => i x = true) input)) <$> inputs p.

Definition says (text : string) (i : response_item unit) : bool :=
  match i with Message _ [InputText t] _ => str_eqb t (lit text) | _ => false end.

Definition history_at_end (p : option (phase unit bool)) : list (response_item unit) :=
  match p with
  | Some (Running a) => history_of (session a)
  | Some (Stopped _ q) => history_of q
  | None => []
  end.

(** What the user queues during a review reaches the reviewer, and again in every turn of
    the review, although the comment above says that it must not. *)
Lemma review_sees_user_input :
  times (says "fix it") (run true [TextInput (lit "review")] [turn_ended [call "c1"] false]
    (busy <| pending_user_input := [QueuedUserInput (lit "2")
       (InMessage (lit "user") [InputText (lit "fix it")]) [TextInput (lit "fix it")]] |>))
  = [1; 2].
Proof. by vm_compute. Qed.

(** A message that comes during a turn is recorded and also added behind the history: the
    next request shows it twice. *)
Lemma message_sent_twice :
  times (says "note") (run false [TextInput (lit "hi")]
    [Submitted (OpAddPendingInputDeveloper (lit "note")); turn_ended [call "c1"] false;
     turn_ended [call "c2"] false] busy) = [0; 2; 1].
Proof. by vm_compute. Qed.

(** The items that wait for the first turn are sent in it but, the first of a turn without
    input of its own apart, are never recorded: the model forgets them. *)
Lemma first_tail_forgotten :
  let p := run false [TextInput PENDING_ONLY_SENTINEL]
    [turn_ended [call "c1"] false; turn_ended [answer] false]
    (busy <| pending_input := [developer_item (lit "one"); developer_item (lit "two")] |>) in
  times (says "one") p = [1; 1] /\ times (says "two") p = [1; 0] /\
  filter (fun i => says "two" i = true) (history_at_end p) = [].
Proof. by vm_compute. Qed.

(** An ephemeral image is recorded with the message and left out of what the model sees
    when the history is sent; nothing appends it, so that it never reaches the model. *)
Lemma ephemeral_image_never_sent :
  inputs (run false [TextInput (lit "look"); EphemeralImage (lit "a.png") (Some (lit "shot"))]
    [] busy) = [[say "user" "look"]].
Proof. by vm_compute. Qed.

(** A task without input returns at once and stays the current task of the session. *)
Lemma empty_input_stays_current :
  match run false [] [] busy with
  | Some (Stopped _ q) => is_current_task (lit "1") q = true
  | _ => False
  end.
Proof. by vm_compute. Qed.

(** After the call of a custom tool the next request has its output but not the call. *)
Lemma custom_output_without_call :
  match last (inputs (run false [TextInput (lit "hi")]
    [turn_ended [CustomToolCall (lit "c1") (lit "in") ()] false] busy)) with
  | Some input => calls input = [] /\ omap output_id input = [lit "c1"; lit "c1"]
  | None => False
  end.
Proof. by vm_compute. Qed.
End LoopRuns.
