(* ===== verification/ContextTimeline.v ===== *)
(** * The timeline of environment contexts

    [core/src/context_timeline/timeline.rs], the store of the baseline, the differences
    and the snapshots of a session; the part of [maybe_emit_env_ctx_messages]
    ([core/src/codex/session.rs]) that feeds it from the tracker; and the replay of a
    recorded session ([process_rollout_env_item] and the parsers next to it in
    [core/src/codex/streaming.rs], [reconstruct_history_from_rollout]).

    Time stamps, telemetry, log messages and UI events are left out; a time stamp is an
    argument.  [serde_json::from_str] is a parameter. *)

From stdpp Require Import base list gmap.
From S2P Require Import Prelude Paths History Approval Retention BTree EnvironmentContext.
Open Scope record_scope.

(** ** The timeline *)

Inductive timeline_error :=
| BaselineAlreadySet
| BaselineNotSet
| DeltaSequenceOutOfOrder (expected actual : N)
| SnapshotAlreadyExists (fp : str)
| DeltaNotFound (sequence : N)
| SnapshotNotFound (fp : str).

Record delta_entry := DeltaEntry {
  entry_sequence : N;
  entry_delta : environment_context_delta;
  delta_recorded_at : str
}.

Record snapshot_entry := SnapshotEntry {
  entry_fingerprint : str;
  entry_snapshot : environment_context_snapshot;
  snapshot_recorded_at : str
}.

Record context_timeline := ContextTimeline {
  baseline : option environment_context_snapshot;
  deltas : btree N delta_entry;
  snapshots : gmap str snapshot_entry;
  timeline_next : N
}.

#[export] Instance timeline_fields : Fields context_timeline := fun t =>
  ContextTimeline (baseline t) (deltas t) (snapshots t) (timeline_next t).

Definition new_timeline : context_timeline := ContextTimeline None [] ∅ 1.

Definition is_some {A} (o : option A) : bool := match o with Some _ => true | None => false end.

Definition add_baseline_once (snapshot : environment_context_snapshot) (t : context_timeline)
    : result timeline_error unit * context_timeline :=
  if is_some (baseline t) then (Err BaselineAlreadySet, t)
  else (Ok tt, t <| baseline := Some snapshot |>).

Definition timeline_apply_delta (now : str) (sequence : N) (delta : environment_context_delta)
    (t : context_timeline) : result timeline_error unit * context_timeline :=
  if negb (is_some (baseline t)) then (Err BaselineNotSet, t)
  else if negb (sequence =? timeline_next t)%N
  then (Err (DeltaSequenceOutOfOrder (timeline_next t) sequence), t)
  else
    let entry := DeltaEntry sequence delta now in
    (Ok tt, t <| deltas := btree_insert sequence entry (deltas t) |>
              <| timeline_next := wrapping_add64 (timeline_next t) 1 |>).

Definition get_delta (sequence : N) (t : context_timeline) : option delta_entry :=
  btree_get sequence (deltas t).

Definition get_snapshot (fp : str) (t : context_timeline) : option snapshot_entry :=
  snapshots t !! fp.

Definition delta_sequences (t : context_timeline) : list N := btree_keys (deltas t).

Definition delta_count (t : context_timeline) : nat := length (deltas t).

Definition snapshot_count (t : context_timeline) : nat := size (snapshots t).

Definition timeline_is_empty (t : context_timeline) : bool :=
  negb (is_some (baseline t)) && match deltas t with [] => true | _ => false end.

Section timeline.
Context (digest : btree str str -> str).
Context `{!Serde ask_for_approval, !Serde sandbox_mode, !Serde network_access,
          !Serde operating_system_info, !Serde shell}.
Context {opaque : Type} (user_fields : option str -> opaque).
Context (print_snapshot : environment_context_snapshot -> option str).
Context (print_delta : environment_context_delta -> option str).
Context (parse_snapshot : str -> option environment_context_snapshot).
Context (parse_delta : str -> option environment_context_delta).
Notation item := (response_item opaque).

(** The outcome: whether the snapshot is new. *)
Definition record_snapshot (now : str) (snapshot : environment_context_snapshot)
    (t : context_timeline) : bool * context_timeline :=
  let fp := fingerprint digest snapshot in
  if is_some (snapshots t !! fp) then (false, t)
  else (true, t <| snapshots := <[ fp := SnapshotEntry fp snapshot now ]> (snapshots t) |>).

(** [Result]s of the JSON printer, all or nothing. *)
Definition assemble_prompt_items (max_deltas : nat) (stream_id : option str)
    (t : context_timeline) : option (list item) :=
  items ←
    match baseline t with
    | Some s => i ← snapshot_to_response_item user_fields print_snapshot s stream_id; Some [i]
    | None => Some []
    end;
  if (0 <? max_deltas)%nat then
    let recent := reverse (take max_deltas (reverse (btree_values (deltas t)))) in
    more ← mapM (fun e => delta_to_response_item user_fields print_delta (entry_delta e)
                   stream_id) recent;
    Some (items ++ more)
  else Some items.

Definition estimate_snapshot_bytes (s : environment_context_snapshot) : N :=
  match print_snapshot s with Some text => N.of_nat (str_len text) | None => 0 end.

Definition estimate_delta_bytes (e : delta_entry) : N :=
  match print_delta (entry_delta e) with Some text => N.of_nat (str_len text) | None => 0 end +
  N.of_nat (str_len (delta_recorded_at e)) + 8.

(** ** A running session *)

Record env_state := EnvState {
  tracker : environment_context_tracker;
  timeline : context_timeline;
  environment_context_seq : N;
  last_environment_snapshot : option environment_context_snapshot
}.

#[local] Instance env_state_fields : Fields env_state := fun s =>
  EnvState (tracker s) (timeline s) (environment_context_seq s) (last_environment_snapshot s).

Definition new_env_state : env_state := EnvState new_tracker new_timeline 0 None.

(** What [maybe_emit_env_ctx_messages] does to the timeline with an emission; the errors
    of the timeline are only logged. *)
Definition store_emission (now : str) (e : environment_context_emission) (t : context_timeline)
    : context_timeline :=
  match e with
  | Full _ snapshot =>
      let t := (add_baseline_once snapshot t).2 in (record_snapshot now snapshot t).2
  | Delta sequence snapshot delta =>
      let t := if negb (is_some (baseline t)) then (add_baseline_once snapshot t).2 else t in
      let t := (timeline_apply_delta now sequence delta t).2 in
      (record_snapshot now snapshot t).2
  end.

(** One turn with the new environment context: the messages to send, if any.  [ctx_ui] is
    the flag that moves them to the user interface. *)
Definition maybe_emit (ctx_ui : bool) (now : str) (c : environment_context)
    (branch effort stream_id : option str) (s : env_state) : option (list item) * env_state :=
  match emit_response_items digest user_fields print_snapshot print_delta c branch effort
          stream_id (tracker s) with
  | (Some (Some (e, items)), tr) =>
      (Some (if ctx_ui then [] else items),
       EnvState tr (store_emission now e (timeline s)) (emission_sequence e)
         (Some (emission_snapshot e)))
  | (Some None, tr) => (None, s <| tracker := tr |>)
  | (None, tr) =>
      (if ctx_ui then Some [legacy_item user_fields c] else None, s <| tracker := tr |>)
  end.

(** ** Replay of a recorded session *)

Record replay_context := ReplayContext {
  replayed : context_timeline;
  replay_next : N;
  replay_last : option environment_context_snapshot;
  legacy_baseline : option environment_context_snapshot
}.

Definition new_replay : replay_context := ReplayContext new_timeline 1 None None.

(** [text.find(p)], as the text from the match on. *)
Fixpoint find_from (p s : str) : option str :=
  if starts_with p s then Some s
  else match s with [] => None | _ :: s' => find_from p s' end.

(** [text[..text.rfind(p)]] *)
Fixpoint before_last (p s : str) : option str :=
  match s with
  | [] => if starts_with p s then Some [] else None
  | c :: s' =>
      match before_last p s' with
      | Some r => Some (c :: r)
      | None => if starts_with p s then Some [] else None
      end
  end.

(** The text between the first opening tag and the last closing tag. *)
Definition extract_tagged_json (text open close : str) : option str :=
  from ← find_from open text;
  upto ← before_last close text;
  let start := length text - length from + length open in
  if (length upto <=? start)%nat then None
  else Some (trim (drop start upto)).

(** The first input text of a user message that parses. *)
Definition parse_user_text {A} (parse : str -> option A) (open close : str) (i : item)
    : option A :=
  match i with
  | Message role content _ =>
      if negb (str_eqb role (lit "user")) then None
      else
        fold_right (fun piece rest =>
          match piece with
          | InputText text =>
              match extract_tagged_json text open close with
              | Some json => match parse json with Some x => Some x | None => rest end
              | None => rest
              end
          | _ => rest
          end) None content
  | _ => None
  end.

Definition parse_env_snapshot_from_response : item -> option environment_context_snapshot :=
  parse_user_text parse_snapshot ENVIRONMENT_CONTEXT_OPEN_TAG ENVIRONMENT_CONTEXT_CLOSE_TAG.

Definition parse_env_delta_from_response : item -> option environment_context_delta :=
  parse_user_text parse_delta ENVIRONMENT_CONTEXT_DELTA_OPEN_TAG
    ENVIRONMENT_CONTEXT_DELTA_CLOSE_TAG.

Definition SYSTEM_STATUS : str := lit "== System Status ==".

Definition is_legacy_system_status (i : item) : bool :=
  match i with
  | Message role content _ =>
      if negb (str_eqb role (lit "user")) then false
      else any_input_text (str_contains SYSTEM_STATUS) content
  | _ => false
  end.

(** The loop over the lines of a status text: directory and branch. *)
Definition legacy_line (v : option str * option str) (line : str) : option str * option str :=
  let trimmed := trim line in
  match strip_prefix (lit "cwd:") trimmed with
  | Some rest => let value := trim rest in
      if negb (str_eqb value []) then (Some value, v.2) else v
  | None =>
      match strip_prefix (lit "branch:") trimmed with
      | Some rest => let value := trim rest in
          if negb (str_eqb value []) && negb (str_eqb value (lit "unknown"))
          then (v.1, Some value) else v
      | None => v
      end
  end.

Definition parse_legacy_status_snapshot (i : item) : option environment_context_snapshot :=
  match i with
  | Message role content _ =>
      if negb (str_eqb role (lit "user")) then None
      else
        fold_right (fun piece rest =>
          match piece with
          | InputText text =>
              if negb (str_contains SYSTEM_STATUS text) then rest
              else
                let '(dir, branch) := fold_left legacy_line (str_lines text) (None, None) in
                Some (EnvironmentContextSnapshot VERSION dir None None None [] None [] None
                        branch None)
          | _ => rest
          end) None content
  | _ => None
  end.

Definition process_rollout_env_item (now : str) (i : item) (c : replay_context)
    : replay_context :=
  match parse_env_snapshot_from_response i with
  | Some snapshot =>
      let t := if negb (is_some (baseline (replayed c)))
               then (add_baseline_once snapshot (replayed c)).2 else replayed c in
      ReplayContext (record_snapshot now snapshot t).2 (replay_next c) (Some snapshot)
        (legacy_baseline c)
  | None =>
      match parse_env_delta_from_response i with
      | Some delta =>
          match replay_last c with
          | Some base =>
              if negb (str_eqb (base_fingerprint delta) (fingerprint digest base))
              then ReplayContext new_timeline 1 None None
              else
                match timeline_apply_delta now (replay_next c) delta (replayed c) with
                | (Err _, _) => c
                | (Ok _, t) =>
                    let next := apply_delta base delta in
                    ReplayContext (record_snapshot now next t).2
                      (saturating_add64 (replay_next c) 1) (Some next) (legacy_baseline c)
                end
          | None => c
          end
      | None =>
          if negb (is_some (legacy_baseline c)) && is_legacy_system_status i then
            match parse_legacy_status_snapshot i with
            | Some snapshot =>
                ReplayContext (replayed c) (replay_next c) (replay_last c) (Some snapshot)
            | None => c
            end
          else c
      end
  end.

(** The environment part of [reconstruct_history_from_rollout], from the items that are
    replayed in order. *)
Definition reconstruct_env_state (now : str) (items : list item) (s : env_state) : env_state :=
  let c := fold_left (fun c i => process_rollout_env_item now i c) items new_replay in
  let c :=
    if negb (is_some (baseline (replayed c))) then
      match legacy_baseline c with
      | Some snapshot =>
          let t := (add_baseline_once snapshot (replayed c)).2 in
          ReplayContext (record_snapshot now snapshot t).2 (replay_next c) (Some snapshot)
            (legacy_baseline c)
      | None => c
      end
    else c in
  let seq := (replay_next c - 1)%N in
  match replay_last c with
  | Some snapshot =>
      EnvState (restore snapshot (replay_next c) (tracker s)) (replayed c) seq (Some snapshot)
  | None => EnvState new_tracker (replayed c) seq None
  end.

End timeline.

(** ** Lemmas about the timeline *)

Section timeline_lemmas.
Context (digest : btree str str -> str).

(** The differences are numbered 1, 2, 3, ... without gaps, after a baseline; every
    snapshot is stored under its own fingerprint. *)
Definition wf_timeline (t : context_timeline) : Prop :=
  btree_keys (deltas t) = N.of_nat <$> seq 1 (length (deltas t)) /\
  timeline_next t = (N.of_nat (length (deltas t)) + 1)%N /\
  Forall (fun e => entry_sequence e.2 = e.1) (deltas t) /\
  (deltas t <> [] -> baseline t <> None) /\
  forall fp e, snapshots t !! fp = Some e ->
    entry_fingerprint e = fp /\ fingerprint digest (entry_snapshot e) = fp.

Inductive timeline_op :=
| AddBaseline (s : environment_context_snapshot)
| ApplyDelta (now : str) (sequence : N) (d : environment_context_delta)
| RecordSnapshot (now : str) (s : environment_context_snapshot).

Definition run_timeline_op (t : context_timeline) (op : timeline_op) : context_timeline :=
  match op with
  | AddBaseline s => (add_baseline_once s t).2
  | ApplyDelta now sequence d => (timeline_apply_delta now sequence d t).2
  | RecordSnapshot now s => (record_snapshot digest now s t).2
  end.

(** What an operation may do to the baseline and the differences. *)
Definition extends (t t' : context_timeline) : Prop :=
  (forall s, baseline t = Some s -> baseline t' = Some s) /\
  (exists l, deltas t' = deltas t ++ l) /\ length (deltas t') <= length (deltas t) + 1.

Lemma extends_refl t : extends t t.
Proof. split; [done|]. split; [exists []; by rewrite app_nil_r|lia]. Qed.

Lemma wf_new : wf_timeline new_timeline.
Proof. split; [done|]. split; [done|]. split; [constructor|]. split; [done|]. by intros fp e H. Qed.

Lemma wf_add_baseline s t : wf_timeline t ->
  wf_timeline (add_baseline_once s t).2 /\ extends t (add_baseline_once s t).2.
Proof.
  intros (H1 & H2 & H3 & H4 & H5). unfold add_baseline_once.
  destruct (baseline t) as [b|] eqn:E; cbn [is_some snd]; [split; [|apply extends_refl]|].
  - split; [done|]. split; [done|]. split; [done|]. split; [by rewrite E|done].
  - destruct t; cbn in *. split; [done|]. subst. split; [done|].
    split; [exists []; by rewrite app_nil_r|cbn; lia].
Qed.

(** In sequence, a difference is appended. *)
Lemma append_delta now sequence d t : wf_timeline t -> baseline t <> None ->
  sequence = timeline_next t ->
  deltas (timeline_apply_delta now sequence d t).2 =
    deltas t ++ [(sequence, DeltaEntry sequence d now)] /\
  (timeline_apply_delta now sequence d t).1 = Ok tt.
Proof.
  intros (H1 & H2 & _) Hb ->. unfold timeline_apply_delta.
  destruct (baseline t) eqn:E; [|done]. cbn [is_some negb]. rewrite N.eqb_refl. cbn [negb].
  split; [|done]. destruct t; cbn [deltas timeline_next snd] in *. cbn.
  apply btree_insert_last. rewrite H1, H2.
  apply Forall_forall. intros a Ha. apply list_elem_of_fmap in Ha as (i & -> & Hi).
  apply elem_of_seq in Hi. apply N.ltb_lt. lia.
Qed.

Lemma wf_apply_delta now sequence d t : wf_timeline t ->
  (timeline_next t + 1 < 2 ^ 64)%N ->
  wf_timeline (timeline_apply_delta now sequence d t).2 /\
  extends t (timeline_apply_delta now sequence d t).2.
Proof.
  intros Hwf Hn. destruct (decide (baseline t <> None /\ sequence = timeline_next t)) as [[Hb Hs]|Hno].
  - destruct (append_delta now sequence d t Hwf Hb Hs) as [Hd _]. revert Hd.
    destruct Hwf as (H1 & H2 & H3 & H4 & H5). unfold timeline_apply_delta.
    destruct (baseline t) as [b|] eqn:E; [|done]. subst sequence.
    rewrite N.eqb_refl. destruct t; cbn in *. subst. intros Hd. split.
    + unfold wf_timeline. cbn. rewrite Hd. unfold btree_keys in *.
      rewrite fmap_app, length_app. cbn [length].
      split; [|split; [|split; [|split; [done|done]]]].
      * rewrite seq_app, fmap_app. apply f_equal2; [exact H1|]. cbn. do 2 f_equal. lia.
      * unfold wrapping_add64. rewrite N.mod_small by lia. lia.
      * apply Forall_app. split; [done|]. by constructor.
    + split; [done|]. cbn. rewrite Hd, length_app. cbn. split; [by eexists|lia].
  - assert ((timeline_apply_delta now sequence d t).2 = t) as ->.
    { unfold timeline_apply_delta. destruct (baseline t); [|done]. cbn [is_some negb].
      destruct (N.eqb_spec sequence (timeline_next t)); [|done]. by destruct Hno. }
    split; [done|apply extends_refl].
Qed.

Lemma wf_record_snapshot now s t : wf_timeline t ->
  wf_timeline (record_snapshot digest now s t).2 /\ extends t (record_snapshot digest now s t).2.
Proof.
  intros (H1 & H2 & H3 & H4 & H5). unfold record_snapshot.
  destruct (is_some _); cbn [snd]; [split; [done|apply extends_refl]|].
  destruct t; cbn in *. split; [|split; [done|split; [exists []; by rewrite app_nil_r|cbn; lia]]].
  split; [done|]. split; [done|]. split; [done|]. split; [done|]. cbn.
  intros fp e. rewrite lookup_insert_Some. intros [[<- <-]|[_ He]]; [done|by apply H5].
Qed.

Lemma run_timeline_op_spec t op : wf_timeline t -> (timeline_next t + 1 < 2 ^ 64)%N ->
  wf_timeline (run_timeline_op t op) /\ extends t (run_timeline_op t op).
Proof.
  intros Hw Hn. destruct op; [by apply wf_add_baseline|by apply wf_apply_delta|
    by apply wf_record_snapshot].
Qed.

Lemma wf_next t : wf_timeline t -> timeline_next t = (N.of_nat (length (deltas t)) + 1)%N.
Proof. by intros (_ & ? & _). Qed.

Lemma run_timeline_ops ops t : wf_timeline t ->
  (timeline_next t + N.of_nat (length ops) < 2 ^ 64)%N ->
  let t' := fold_left run_timeline_op ops t in
  wf_timeline t' /\ (forall s, baseline t = Some s -> baseline t' = Some s) /\
  exists l, deltas t' = deltas t ++ l.
Proof.
  revert t. induction ops as [|op ops IH]; intros t Hw Hn; cbn [fold_left length] in *.
  - split; [done|]. split; [done|]. exists []. by rewrite app_nil_r.
  - destruct (run_timeline_op_spec t op Hw) as (Hw1 & Hb1 & (l1 & Hd1) & Hl1); [lia|].
    pose proof (wf_next _ Hw). pose proof (wf_next _ Hw1).
    destruct (IH _ Hw1) as (Hw2 & Hb2 & (l2 & Hd2)); [lia|].
    split; [done|]. split; [auto|]. exists (l1 ++ l2). by rewrite Hd2, Hd1, app_assoc.
Qed.

Lemma reverse_take_reverse {A} n (l : list A) :
  reverse (take n (reverse l)) = drop (length l - n) l.
Proof.
  rewrite <- (reverse_involutive l) at 3. set (r := reverse l).
  assert (length l = length r) as -> by (symmetry; apply length_reverse).
  destruct (decide (n <= length r)).
  - rewrite <- (take_drop n r) at 3. rewrite reverse_app, drop_app_length'; [done|].
    rewrite length_reverse, length_drop. done.
  - rewrite take_ge by lia. replace (length r - n) with 0 by lia. done.
Qed.
End timeline_lemmas.

(** ** Lemmas about sessions *)

Section session_lemmas.
Context (digest : btree str str -> str).
Context `{!Serde ask_for_approval, !Serde sandbox_mode, !Serde network_access,
          !Serde operating_system_info, !Serde shell}.
Context {opaque : Type} (user_fields : option str -> opaque).
Context (print_snapshot : environment_context_snapshot -> option str).
Context (print_delta : environment_context_delta -> option str).
Context (parse_snapshot : str -> option environment_context_snapshot).
Context (parse_delta : str -> option environment_context_delta).
Notation item := (response_item opaque).

(** One turn: the time, the context, its branch, effort and stream. *)
Record turn := Turn {
  turn_time : str;
  turn_context : environment_context;
  turn_branch : option str;
  turn_effort : option str;
  turn_stream : option str
}.

Definition run_turn (ctx_ui : bool) (s : env_state) (x : turn) : env_state :=
  (maybe_emit digest user_fields print_snapshot print_delta ctx_ui (turn_time x)
     (turn_context x) (turn_branch x) (turn_effort x) (turn_stream x) s).2.

(** The tracker is never behind the timeline once it has a snapshot. *)
Definition lagging (s : env_state) : Prop :=
  match last_snapshot (tracker s) with
  | None => next_sequence (tracker s) = 0%N /\ timeline s = new_timeline
  | Some _ => (timeline_next (timeline s) <= next_sequence (tracker s))%N
  end.

Lemma add_baseline_keeps s t :
  deltas (add_baseline_once s t).2 = deltas t /\
  timeline_next (add_baseline_once s t).2 = timeline_next t.
Proof. unfold add_baseline_once. by destruct (is_some _), t. Qed.

Lemma record_snapshot_keeps now s t :
  deltas (record_snapshot digest now s t).2 = deltas t /\
  timeline_next (record_snapshot digest now s t).2 = timeline_next t /\
  baseline (record_snapshot digest now s t).2 = baseline t.
Proof. unfold record_snapshot. by destruct (is_some _), t. Qed.

Lemma apply_delta_ahead now sequence d t : (timeline_next t < sequence)%N ->
  (timeline_apply_delta now sequence d t).2 = t.
Proof.
  intros H. unfold timeline_apply_delta. destruct (is_some _); [|done]. cbn [negb].
  by destruct (N.eqb_spec sequence (timeline_next t)); [lia|].
Qed.

Lemma store_ahead now e t :
  match e with Full _ _ => True | Delta sequence _ _ => (timeline_next t < sequence)%N end ->
  deltas (store_emission digest now e t) = deltas t /\
  timeline_next (store_emission digest now e t) = timeline_next t.
Proof.
  intros H. destruct e as [n s|n s d]; cbn [store_emission].
  - destruct (record_snapshot_keeps now s (add_baseline_once s t).2) as (-> & -> & _).
    apply add_baseline_keeps.
  - set (t1 := if negb (is_some (baseline t)) then _ else _).
    assert (H1 : deltas t1 = deltas t /\ timeline_next t1 = timeline_next t).
    { subst t1. destruct (negb _); [apply add_baseline_keeps|done]. }
    rewrite apply_delta_ahead by (destruct H1 as [_ ->]; done).
    destruct (record_snapshot_keeps now s t1) as (-> & -> & _). exact H1.
Qed.

Lemma run_turn_lagging ctx_ui x s : lagging s -> (next_sequence (tracker s) + 1 < 2 ^ 64)%N ->
  lagging (run_turn ctx_ui s x) /\
  deltas (timeline (run_turn ctx_ui s x)) = deltas (timeline s) /\
  (next_sequence (tracker (run_turn ctx_ui s x)) <= next_sequence (tracker s) + 1)%N.
Proof.
  intros Hl Hn. unfold run_turn, maybe_emit, emit_response_items.
  set (snap := with_metadata _ _ _).
  assert (Hw : wrapping_add64 (next_sequence (tracker s)) 1 = (next_sequence (tracker s) + 1)%N)
    by (apply N.mod_small; lia).
  assert (Ho : match observe digest snap (tracker s) with
    | (None, t) => t = tracker s
    | (Some e, t) => last_snapshot t <> None /\
        next_sequence t = (next_sequence (tracker s) + 1)%N /\
        emission_sequence e = next_sequence t /\
        (timeline_next (timeline s) <= next_sequence t)%N /\
        match e with Full _ _ => True
        | Delta sequence _ _ => (timeline_next (timeline s) < sequence)%N end
    end).
  { unfold observe, lagging in *. rewrite Hw.
    destruct (last_snapshot (tracker s)) as [previous|] eqn:E.
    - destruct (str_eqb _ _); [done|]. cbn. split; [done|]. split; [done|]. split; [done|]. lia.
    - destruct Hl as [Hz Ht]. rewrite Ht. cbn. split; [done|]. split; [done|]. split; [done|].
      lia. }
  destruct (observe digest snap (tracker s)) as [[e|] t].
  - destruct Ho as (Hs & Hnext & Hseq & Hle & He).
    destruct (store_ahead (turn_time x) e (timeline s) He) as [Hd Ht].
    destruct (into_response_items_with_id _ _ _ _ _); cbn [mbind option_bind snd].
    + unfold lagging. cbn [tracker timeline]. destruct (last_snapshot t); [|done].
      rewrite Ht. split; [done|]. split; [exact Hd|lia].
    + unfold lagging. destruct s as [tr tl n ls]; cbn [tracker timeline] in *.
      cbn. destruct (last_snapshot t); [|done]. split; [done|]. split; [done|lia].
  - subst t. cbn [snd]. destruct s as [tr tl n ls]; cbn in *. split; [exact Hl|]. split; [done|lia].
Qed.

Lemma run_turns_lagging ctx_ui xs s : lagging s ->
  (next_sequence (tracker s) + N.of_nat (length xs) < 2 ^ 64)%N ->
  deltas (timeline (fold_left (run_turn ctx_ui) xs s)) = deltas (timeline s).
Proof.
  revert s. induction xs as [|x xs IH]; intros s Hl Hn; [done|]. cbn [fold_left length] in *.
  destruct (run_turn_lagging ctx_ui x s Hl) as (Hl1 & Hd1 & Hn1); [lia|].
  rewrite IH; [done|done|lia].
Qed.

(** ** Lemmas about replay *)

Definition wf_replay (c : replay_context) : Prop :=
  wf_timeline digest (replayed c) /\ replay_next c = timeline_next (replayed c) /\
  match replay_last c with
  | None => replayed c = new_timeline
  | Some _ => baseline (replayed c) <> None
  end.

Notation process := (process_rollout_env_item digest parse_snapshot parse_delta).

Lemma add_baseline_some s t : baseline (add_baseline_once s t).2 <> None.
Proof. unfold add_baseline_once. by destruct (baseline t) eqn:E; cbn; [rewrite E|]. Qed.

Lemma process_wf now (i : item) c : wf_replay c -> (replay_next c + 1 < 2 ^ 64)%N ->
  wf_replay (process now i c) /\ (replay_next (process now i c) <= replay_next c + 1)%N.
Proof.
  intros (Hw & Hn & Hb) Hlt. unfold process_rollout_env_item.
  assert (Hreset : wf_replay (ReplayContext new_timeline 1 None None)).
  { split; [apply wf_new|]. by split. }
  destruct (parse_env_snapshot_from_response parse_snapshot i) as [s|].
  - set (t := if negb (is_some _) then _ else _).
    assert (Ht : wf_timeline digest t /\ timeline_next t = timeline_next (replayed c) /\
      baseline t <> None).
    { subst t. destruct (baseline (replayed c)) eqn:E; cbn [is_some negb]; [by rewrite E|].
      split; [by apply wf_add_baseline|]. split; [apply add_baseline_keeps|].
      apply add_baseline_some. }
    destruct Ht as (Ht1 & Ht2 & Ht3). destruct (record_snapshot_keeps now s t) as (_ & Hk & Hbl).
    split; [|cbn; lia]. split; [by apply wf_record_snapshot|]. cbn [replay_next replayed replay_last].
    split; [by rewrite Hk, Ht2|by rewrite Hbl].
  - destruct (parse_env_delta_from_response parse_delta i) as [d|].
    + destruct (replay_last c) as [base|] eqn:El; [|split; [split; [done|by rewrite El]|lia]].
      destruct (negb _); [split; [done|cbn; lia]|].
      destruct (append_delta digest now (replay_next c) d (replayed c) Hw Hb Hn) as [_ Hok].
      destruct (wf_apply_delta digest now (replay_next c) d (replayed c) Hw) as [Hw1 (Hb1 & _)];
        [lia|].
      assert (Hnext : timeline_next (timeline_apply_delta now (replay_next c) d (replayed c)).2 =
        (replay_next c + 1)%N).
      { rewrite Hn. unfold timeline_apply_delta. destruct (baseline (replayed c)) eqn:E; [|done].
        rewrite N.eqb_refl. destruct (replayed c). cbn in *. apply N.mod_small. lia. }
      destruct (timeline_apply_delta now (replay_next c) d (replayed c)) as [[] t]; [|done].
      cbn [snd] in *. destruct (record_snapshot_keeps now (apply_delta base d) t) as (_ & Hk & Hbl).
      unfold saturating_add64, u64_max. rewrite N.min_l by lia.
      split; [|cbn; lia]. split; [by apply wf_record_snapshot|].
      cbn [replay_next replayed replay_last]. split; [by rewrite Hk|]. rewrite Hbl.
      destruct (baseline (replayed c)) as [b|]; [by rewrite (Hb1 b)|done].
    + destruct (negb _ && _); [|by split; [|lia]].
      destruct (parse_legacy_status_snapshot i); (split; [|cbn; lia]); split; done.
Qed.

Lemma replay_wf now (items : list item) c : wf_replay c ->
  (replay_next c + N.of_nat (length items) < 2 ^ 64)%N ->
  let c' := fold_left (fun c i => process now i c) items c in
  wf_replay c' /\ (replay_next c' <= replay_next c + N.of_nat (length items))%N.
Proof.
  revert c. induction items as [|i items IH]; intros c Hc Hn; cbn [fold_left length] in *;
    [split; [done|lia]|].
  destruct (process_wf now i c Hc) as [Hc1 Hn1]; [lia|].
  destruct (IH _ Hc1) as [Hc2 Hn2]; [lia|]. split; [done|lia].
Qed.

Lemma new_replay_wf : wf_replay new_replay.
Proof. split; [apply wf_new|]. by split. Qed.

Lemma reconstruct_lagging now (items : list item) s :
  (N.of_nat (length items) + 1 < 2 ^ 64)%N ->
  let s' := reconstruct_env_state digest parse_snapshot parse_delta now items s in
  lagging s' /\ (next_sequence (tracker s') <= N.of_nat (length items) + 1)%N.
Proof.
  intros Hn. destruct (replay_wf now items new_replay new_replay_wf) as [(Hw & Hnext & Hb) Hle];
    [cbn; lia|]. cbn zeta. unfold reconstruct_env_state.
  set (c := fold_left _ items new_replay) in *. cbn [replay_next new_replay] in Hle.
  set (c' := if negb _ then _ else c).
  assert (Hc' : replay_next c' = replay_next c /\ match replay_last c' with
    | None => replayed c' = new_timeline
    | Some _ => timeline_next (replayed c') = replay_next c end).
  { subst c'. assert (match replay_last c with
      | None => replayed c = new_timeline
      | Some _ => timeline_next (replayed c) = replay_next c end)
      by (rewrite Hnext; by destruct (replay_last c)).
    destruct (negb _); [|done]. destruct (legacy_baseline c) as [b|]; [|done].
    cbn [replay_next replay_last replayed]. split; [done|].
    destruct (record_snapshot_keeps now b (add_baseline_once b (replayed c)).2) as (_ & -> & _).
    destruct (add_baseline_keeps b (replayed c)) as [_ ->]. by rewrite Hnext. }
  destruct Hc' as [Hn' Hl']. unfold lagging. destruct (replay_last c') as [b|] eqn:E.
  - cbn [tracker timeline restore last_snapshot next_sequence]. rewrite Hn', Hl'. lia.
  - cbn [tracker timeline new_tracker last_snapshot next_sequence]. split; [done|lia].
Qed.
End session_lemmas.

(** ** Lemmas about tagged text *)

Lemma contains_app_l p s : str_contains p (p ++ s) = true.
Proof.
  pose proof (starts_with_app p s) as H. by destruct (p ++ s); cbn [str_contains]; rewrite H.
Qed.

(** A pattern without line feed occurs before or after a given line feed. *)
Lemma contains_line p a b : p <> [] -> LF ∉ p ->
  str_contains p (a ++ LF :: b) = str_contains p a || str_contains p b.
Proof.
  intros Hp Hlf.
  assert (Hs : forall p a, LF ∉ p -> starts_with p (a ++ LF :: b) = starts_with p a).
  { clear. intros p a Hlf. destruct (starts_with p a) eqn:E.
    - apply starts_with_spec in E as [r ->]. rewrite <- app_assoc. apply starts_with_app.
    - destruct (starts_with p (a ++ LF :: b)) eqn:E2; [|done]. rewrite <- E. symmetry.
      apply starts_with_spec in E2 as [r H]. apply starts_with_spec. clear E. revert a H.
      induction p as [|c p IH]; intros a H; [by exists a|].
      apply not_elem_of_cons in Hlf as [Hc Hlf]. 
      destruct a as [|x a]; injection H as Hx H; [by destruct Hc|]. subst x.
      destruct (IH Hlf a H) as [r' ->]. by exists r'. }
  induction a as [|x a IH]; cbn [app str_contains].
  - change (starts_with p (LF :: b)) with (starts_with p ([] ++ LF :: b)). rewrite Hs by done.
    destruct p; [done|]. done.
  - change (x :: a ++ LF :: b) with ((x :: a) ++ LF :: b). rewrite Hs by done.
    by rewrite IH, orb_assoc.
Qed.

Lemma find_from_none p s : str_contains p s = false -> find_from p s = None.
Proof.
  induction s as [|c s IH]; cbn [str_contains find_from]; intros H;
    apply orb_false_iff in H as [-> H]; [done|]. by apply IH.
Qed.

Lemma find_from_start p s : find_from p (p ++ s) = Some (p ++ s).
Proof.
  pose proof (starts_with_app p s) as H. by destruct (p ++ s) eqn:E; cbn [find_from]; rewrite H.
Qed.

Lemma before_last_short p s : length s < length p -> before_last p s = None.
Proof.
  assert (Hs : forall s, length s < length p -> starts_with p s = false).
  { intros s0 H. destruct (starts_with p s0) eqn:E; [|done].
    apply starts_with_spec in E as [r ->]. rewrite length_app in H. lia. }
  induction s as [|c s IH]; intros H; cbn [before_last]; [by rewrite Hs|].
  rewrite IH by (cbn in H; lia). by rewrite Hs.
Qed.

Lemma before_last_end p s : p <> [] -> before_last p (s ++ p) = Some s.
Proof.
  intros Hp. induction s as [|c s IH]; cbn [app].
  - destruct p as [|c p]; [done|]. cbn [before_last].
    rewrite before_last_short by (cbn; lia).
    pose proof (starts_with_app (c :: p) []) as H. rewrite app_nil_r in H. by rewrite H.
  - cbn [before_last]. by rewrite IH.
Qed.

(** Text that needs no trimming, between two line feeds. *)
Definition trimmed (s : str) : Prop := trim_start s = s /\ trim_end s = s.

Lemma trim_lines s : trimmed s -> trim (LF :: s ++ [LF]) = s.
Proof.
  intros [Hs He]. unfold trim.
  assert (E : trim_end (LF :: s ++ [LF]) = trim_end (LF :: s)).
  { unfold trim_end, drop_while_end. by rewrite !app_comm_cons, !reverse_snoc. }
  rewrite E. destruct (decide (s = [])) as [->|Hne]; [done|].
  change (LF :: s) with ([LF] ++ s). rewrite trim_end_app by done. exact Hs.
Qed.

Lemma extract_tagged open close json :
  close <> [] -> trimmed json ->
  extract_tagged_json (open ++ [LF] ++ json ++ [LF] ++ close) open close = Some json.
Proof.
  intros Hc Hj. unfold extract_tagged_json. rewrite find_from_start. cbn [mbind option_bind].
  replace (open ++ [LF] ++ json ++ [LF] ++ close)
    with ((open ++ [LF] ++ json ++ [LF]) ++ close) by by rewrite <- !app_assoc.
  rewrite before_last_end by done. cbn [mbind option_bind].
  rewrite Nat.sub_diag, Nat.add_0_l, drop_app_length. rewrite !length_app. cbn [length].
  destruct (Nat.leb_spec (length open + (1 + (length json + 1))) (length open)); [lia|].
  f_equal. by apply trim_lines.
Qed.

(** ** Messages and their replay *)

Section resume.
Context (digest : btree str str -> str).
Context `{!Serde ask_for_approval, !Serde sandbox_mode, !Serde network_access,
          !Serde operating_system_info, !Serde shell}.
Context {opaque : Type} (user_fields : option str -> opaque).
Context (print_snapshot : environment_context_snapshot -> option str).
Context (print_delta : environment_context_delta -> option str).
Context (parse_snapshot : str -> option environment_context_snapshot).
Context (parse_delta : str -> option environment_context_delta).
Notation item := (response_item opaque).

(** [serde_json]: what is printed is an object, and parsing inverts printing. *)
Definition json_round_trip {A} (print : A -> option str) (parse : str -> option A) : Prop :=
  forall x text, print x = Some text -> trimmed text /\ parse text = Some x.

(** The printed difference does not quote the opening tag of a snapshot. *)
Definition plain_emission (e : environment_context_emission) : Prop :=
  match e with
  | Full _ _ => True
  | Delta _ _ d => forall text, print_delta d = Some text ->
      str_contains ENVIRONMENT_CONTEXT_OPEN_TAG text = false
  end.

Fixpoint messages (stream_id : option str) (es : list environment_context_emission)
    : option (list item) :=
  match es with
  | [] => Some []
  | e :: es =>
      its ← into_response_items_with_id user_fields print_snapshot print_delta e stream_id;
      rest ← messages stream_id es;
      Some (its ++ rest)
  end.

Definition emitted_deltas (es : list environment_context_emission)
    : list environment_context_delta :=
  concat ((fun e => match e with Full _ _ => [] | Delta _ _ d => [d] end) <$> es).

Lemma delta_text_no_snapshot text :
  str_contains ENVIRONMENT_CONTEXT_OPEN_TAG text = false ->
  str_contains ENVIRONMENT_CONTEXT_OPEN_TAG
    (ENVIRONMENT_CONTEXT_DELTA_OPEN_TAG ++ [LF] ++ text ++ [LF] ++
     ENVIRONMENT_CONTEXT_DELTA_CLOSE_TAG) = false.
Proof.
  intros H. assert (Hlf : LF ∉ ENVIRONMENT_CONTEXT_OPEN_TAG) by by apply (bool_decide_unpack _); vm_compute.
  cbn [app]. rewrite !contains_line, H by done. by vm_compute.
Qed.

Context (Hsnapshot : json_round_trip print_snapshot parse_snapshot).
Context (Hdelta : json_round_trip print_delta parse_delta).
Notation to_items := (into_response_items_with_id user_fields print_snapshot print_delta).

(** Every message is read back as the emission it came from. *)
Lemma read_back e stream_id its : plain_emission e -> to_items e stream_id = Some its ->
  exists i, its = [i] /\
    match e with
    | Full _ s => parse_env_snapshot_from_response parse_snapshot i = Some s
    | Delta _ _ d => parse_env_snapshot_from_response parse_snapshot i = None /\
        parse_env_delta_from_response parse_delta i = Some d
    end.
Proof.
  intros Hp H. destruct e as [n s|n s d]; cbn [into_response_items_with_id] in H.
  - unfold snapshot_to_response_item in H. destruct (print_snapshot s) as [text|] eqn:E; [|done].
    apply (inj Some) in H as <-. eexists. split; [reflexivity|]. destruct (Hsnapshot s text E) as [Ht Hs].
    unfold parse_env_snapshot_from_response, parse_user_text, user_message.
    change (str_eqb (lit "user") (lit "user")) with true. cbn [negb fold_right].
    by rewrite extract_tagged, Hs.
  - unfold delta_to_response_item in H. destruct (print_delta d) as [text|] eqn:E; [|done].
    apply (inj Some) in H as <-. eexists. split; [reflexivity|]. destruct (Hdelta d text E) as [Ht Hd].
    unfold parse_env_snapshot_from_response, parse_env_delta_from_response, parse_user_text,
      user_message.
    change (str_eqb (lit "user") (lit "user")) with true. cbn [negb fold_right].
    rewrite extract_tagged, Hd by done. split; [|done].
    unfold extract_tagged_json. rewrite find_from_none; [done|].
    apply delta_text_no_snapshot. by apply Hp.
Qed.

Context `{!SerdeLaws ask_for_approval, !SerdeLaws sandbox_mode, !SerdeLaws network_access,
          !SerdeLaws operating_system_info, !SerdeLaws shell}.
Notation process := (process_rollout_env_item digest parse_snapshot parse_delta).
Notation stored c := (entry_delta <$> btree_values (deltas (replayed c))).

Lemma stored_snapshot now snap t :
  deltas (record_snapshot digest now snap t).2 = deltas t.
Proof. apply record_snapshot_keeps. Qed.

(** Replaying the messages of the emissions follows the tracker. *)
Lemma replay_follows now stream_id l t c its :
  Forall settled l -> wf_replay digest c -> replay_last c = last_snapshot t ->
  (forall s, last_snapshot t = Some s -> version s = VERSION) ->
  (replay_next c + N.of_nat (length l) < 2 ^ 64)%N ->
  let '(es, t') := observe_all digest l t in
  Forall plain_emission es -> messages stream_id es = Some its ->
  let c' := fold_left (fun c i => process now i c) its c in
  replay_last c' = last_snapshot t' /\ stored c' = stored c ++ emitted_deltas es /\
  wf_replay digest c'.
Proof.
  revert t c its. induction l as [|s l IH]; intros t c its Hl Hw Hlast Hv Hn;
    cbn [observe_all].
  { intros _ [= <-]. cbn [fold_left]. unfold emitted_deltas. cbn. by rewrite app_nil_r. }
  apply Forall_cons in Hl as [Hs Hl]. cbn [length] in Hn.
  unfold observe at 1. destruct (last_snapshot t) as [previous|] eqn:Et.
  - destruct (str_eqb _ _) eqn:Ef.
    + specialize (IH t c its Hl Hw). rewrite Et in IH. specialize (IH Hlast Hv ltac:(lia)).
      by destruct (observe_all digest l t) as [es t'].
    + set (e := Delta _ _ _). set (t1 := EnvironmentContextTracker _ (Some s)).
      specialize (fun c its Hw H => IH t1 c its Hl Hw H ltac:(intros ? [= <-]; apply Hs)).
      destruct (observe_all digest l t1) as [es t'].
      intros [Hp Hps]%Forall_cons Hm. cbn [messages] in Hm.
      destruct (to_items e stream_id) as [its1|] eqn:Ei; [|done].
      destruct (messages stream_id es) as [rest|] eqn:Er; [|done]. apply (inj Some) in Hm as <-.
      destruct (read_back e stream_id its1 Hp Ei) as (i & -> & Hi1 & Hi2).
      cbn [app fold_left].
      destruct (process_wf digest parse_snapshot parse_delta now i c Hw) as [Hw1 Hn1]; [lia|].
      assert (Hstep : replay_last (process now i c) = Some s /\
        stored (process now i c) = stored c ++ [diff_from digest s previous]).
      { revert Hw. unfold wf_replay, process_rollout_env_item. rewrite Hi1, Hi2, Hlast.
        intros (Hwt & Hnx & Hb). cbn [base_fingerprint diff_from]. rewrite str_eqb_refl. cbn [negb].
        destruct (append_delta digest now (replay_next c) (diff_from digest s previous)
          (replayed c) Hwt Hb Hnx) as [Hd Hok].
        destruct (timeline_apply_delta now (replay_next c) (diff_from digest s previous)
          (replayed c)) as [[] t2]; [|done]. cbn [snd] in Hd.
        cbn [replay_last replayed]. rewrite stored_snapshot, Hd. unfold btree_values.
        rewrite !fmap_app. split; [|done]. f_equal. apply apply_diff_iff; [done..| |by apply settled_keeps].
        rewrite (Hv previous eq_refl). apply Hs. }
      destruct Hstep as [Hl1 Hd1].
      destruct (IH (process now i c) rest Hw1 Hl1 ltac:(lia) Hps eq_refl) as (A & B & C).
      split; [exact A|]. split; [|exact C]. rewrite B, Hd1, <- app_assoc. done.
  - set (e := Full _ _). set (t1 := EnvironmentContextTracker _ (Some s)).
    specialize (fun c its Hw H => IH t1 c its Hl Hw H ltac:(intros ? [= <-]; apply Hs)).
    destruct (observe_all digest l t1) as [es t'].
    intros [Hp Hps]%Forall_cons Hm. cbn [messages] in Hm.
    destruct (to_items e stream_id) as [its1|] eqn:Ei; [|done].
    destruct (messages stream_id es) as [rest|] eqn:Er; [|done]. apply (inj Some) in Hm as <-.
    destruct (read_back e stream_id its1 Hp Ei) as (i & -> & Hi). cbn [app fold_left].
    destruct (process_wf digest parse_snapshot parse_delta now i c Hw) as [Hw1 Hn1]; [lia|].
    assert (Hstep : replay_last (process now i c) = Some s /\ stored (process now i c) = stored c).
    { unfold process_rollout_env_item. rewrite Hi. cbn [replay_last replayed].
      rewrite stored_snapshot. split; [done|]. destruct (negb _); [|done].
      by destruct (add_baseline_keeps s (replayed c)) as [-> _]. }
    destruct Hstep as [Hl1 Hd1].
    destruct (IH (process now i c) rest Hw1 Hl1 ltac:(lia) Hps eq_refl) as (A & B & C).
    split; [exact A|]. split; [|exact C]. by rewrite B, Hd1.
Qed.
End resume.

(** ** Properties *)

Section properties.
Context (digest : btree str str -> str).
Context `{SA : Serde ask_for_approval, SM : Serde sandbox_mode, SN : Serde network_access,
          SO : Serde operating_system_info, SS : Serde shell}.
Context {opaque : Type} (user_fields : option str -> opaque).
Context (print_snapshot : environment_context_snapshot -> option str).
Context (print_delta : environment_context_delta -> option str).
Context (parse_snapshot : str -> option environment_context_snapshot).
Context (parse_delta : str -> option environment_context_delta).
Notation item := (response_item opaque).
Notation to_items := (into_response_items_with_id user_fields print_snapshot print_delta).
Notation reconstruct := (reconstruct_env_state digest parse_snapshot parse_delta).

(** The category that the message of an emission is meant to have. *)
Definition category_of (e : environment_context_emission) : ItemCategory.item_category :=
  match e with Full _ _ => ItemCategory.EnvBaseline | Delta _ _ _ => ItemCategory.EnvDelta end.

(** The printed snapshot does not quote the opening tag of a difference. *)
Definition plain_snapshot (e : environment_context_emission) : Prop :=
  match e with
  | Full _ s => forall text, print_snapshot s = Some text ->
      str_contains ENVIRONMENT_CONTEXT_DELTA_OPEN_TAG text = false
  | Delta _ _ _ => True
  end.

Lemma emitted_item_category e stream_id its :
  plain_snapshot e -> to_items e stream_id = Some its ->
  categorize_item <$> its = [category_of e].
Proof.
  intros Hp H. destruct e as [n s|n s d]; cbn [into_response_items_with_id] in H.
  - unfold snapshot_to_response_item in H. destruct (print_snapshot s) as [text|] eqn:E; [|done].
    apply (inj Some) in H as <-. cbn [fmap list_fmap list_fmap]. f_equal.
    unfold user_message, categorize_item, any_input_text.
    change (str_eqb (lit "user") (lit "user")) with true. cbn [negb existsb].
    unfold mentions_env_baseline. rewrite contains_app_l.
    assert (Hlf : LF ∉ ENVIRONMENT_CONTEXT_DELTA_OPEN_TAG)
      by by apply (bool_decide_unpack _); vm_compute.
    cbn [app]. rewrite !contains_line, (Hp text) by done. by vm_compute.
  - unfold delta_to_response_item in H. destruct (print_delta d) as [text|] eqn:E; [|done].
    apply (inj Some) in H as <-. cbn [fmap list_fmap]. f_equal.
    unfold user_message, categorize_item, any_input_text.
    change (str_eqb (lit "user") (lit "user")) with true. cbn [negb existsb].
    unfold mentions_env_baseline, mentions_env_delta. rewrite contains_app_l.
    by rewrite andb_false_r.
Qed.

(** Prompts get the baseline and the latest differences, oldest first. *)
Lemma assemble_last_deltas max stream_id t :
  assemble_prompt_items user_fields print_snapshot print_delta max stream_id t =
  (base ←
     match baseline t with
     | Some s => i ← snapshot_to_response_item user_fields print_snapshot s stream_id; Some [i]
     | None => Some []
     end;
   more ← mapM (fun e => delta_to_response_item user_fields print_delta (entry_delta e) stream_id)
     (drop (delta_count t - max) (btree_values (deltas t)));
   Some (base ++ more)).
Proof.
  unfold assemble_prompt_items, delta_count.
  assert (Hlen : length (deltas t) = length (btree_values (deltas t)))
    by (unfold btree_values; by rewrite length_fmap).
  destruct (match baseline t with Some _ => _ | None => _ end) as [base|]; [|done].
  cbn [mbind option_bind]. destruct max as [|max]; cbn [Nat.ltb Nat.leb].
  - rewrite Hlen, drop_ge by lia. cbn. by rewrite app_nil_r.
  - by rewrite reverse_take_reverse, Hlen.
Qed.

(** Whatever operations run on a well-formed timeline (a new one is), it stays well
    formed: differences numbered 1, 2, 3, ... without gaps, never before a baseline, and
    snapshots stored under their own fingerprints.  The baseline never changes once set,
    and stored differences are only appended to. *)
Theorem timeline_invariant ops t :
  wf_timeline digest t -> (timeline_next t + N.of_nat (length ops) < 2 ^ 64)%N ->
  let t' := fold_left (run_timeline_op digest) ops t in
  wf_timeline digest t' /\
  (forall s, baseline t = Some s -> baseline t' = Some s) /\
  exists l, deltas t' = deltas t ++ l.
Proof. apply run_timeline_ops. Qed.

(** The retention policy recognises every message of a sequence of emissions: the
    message of a difference as a difference, always, and that of a full snapshot as a
    baseline, unless its JSON quotes the tag of a difference. *)
Theorem emitted_items_categorized es stream_id its :
  Forall plain_snapshot es ->
  messages user_fields print_snapshot print_delta stream_id es = Some its ->
  categorize_item <$> its = category_of <$> es.
Proof.
  intros Hes. revert its. induction Hes as [|e es He Hes IH]; intros its H.
  - by apply (inj Some) in H as <-.
  - cbn [messages] in H. destruct (to_items e stream_id) as [its1|] eqn:E1; [|done].
    cbn [mbind option_bind] in H.
    destruct (messages _ _ _ stream_id es) as [its2|]; [|done]. cbn [mbind option_bind] in H.
    apply (inj Some) in H as <-.
    by rewrite fmap_app, (emitted_item_category e stream_id its1 He E1), (IH _ eq_refl).
Qed.

(** While a session runs, no difference is ever stored in its timeline: the tracker
    gives number 1 to the first full snapshot, so the first difference has number 2 where
    the timeline expects 1, and every later one is ahead as well.  The same holds after a
    resume: the timeline keeps just the differences that were replayed. *)
Theorem live_deltas_never_stored ctx_ui now (xs : list turn) (items : list item) s :
  (N.of_nat (length items) + N.of_nat (length xs) + 1 < 2 ^ 64)%N ->
  let run := fold_left (run_turn digest user_fields print_snapshot print_delta ctx_ui) xs in
  deltas (timeline (run new_env_state)) = [] /\
  deltas (timeline (run (reconstruct now items s))) =
    deltas (timeline (reconstruct now items s)).
Proof.
  intros Hn. cbn zeta. split.
  - rewrite run_turns_lagging; [done|by split|cbn; lia].
  - destruct (reconstruct_lagging digest parse_snapshot parse_delta now items s) as [Hl Hle]; [lia|].
    apply run_turns_lagging; [done|lia].
Qed.

Context `{!SerdeLaws ask_for_approval, !SerdeLaws sandbox_mode, !SerdeLaws network_access,
          !SerdeLaws operating_system_info, !SerdeLaws shell}.

(** C7: A new tracker observes fewer than 2^64 - 1 snapshots of the current version in which
    the approval policy, sandbox mode, network access, operating system and shell are all known,
    and its emissions are printed as messages; parsing inverts printing, and no printed
    difference quotes the opening tag of a snapshot.  Then replaying these messages restores
    what the tracker knew: its last snapshot, and in the timeline every difference, in order. *)
Theorem resume_restores now stream_id (l : list environment_context_snapshot) its s0 :
  json_round_trip print_snapshot parse_snapshot ->
  json_round_trip print_delta parse_delta ->
  Forall settled l -> (N.of_nat (length l) + 1 < 2 ^ 64)%N ->
  Forall (plain_emission print_delta) (observe_all digest l new_tracker).1 ->
  messages user_fields print_snapshot print_delta stream_id
    (observe_all digest l new_tracker).1 = Some its ->
  let s := reconstruct now its s0 in
  last_snapshot (tracker s) = last_snapshot (observe_all digest l new_tracker).2 /\
  last_environment_snapshot s = last_snapshot (tracker s) /\
  entry_delta <$> btree_values (deltas (timeline s)) =
    emitted_deltas (observe_all digest l new_tracker).1.
Proof.
  intros Hps Hpd Hl Hn.
  pose proof (replay_follows digest user_fields print_snapshot print_delta parse_snapshot
    parse_delta Hps Hpd now stream_id l new_tracker new_replay its Hl (new_replay_wf digest)
    eq_refl ltac:(done) ltac:(cbn; lia)) as H.
  pose proof (observe_all_spec digest l new_tracker None Hl eq_refl ltac:(done)
    ltac:(cbn; lia)) as Hspec.
  destruct l as [|s1 l].
  - intros _ Hm. apply (inj Some) in Hm as <-. done.
  - destruct (observe_all digest (s1 :: l) new_tracker) as [es t] eqn:E. cbn [fst snd].
    intros Hp Hm. destruct (H Hp Hm) as (A & B & _ & _ & Hb). cbn zeta in *.
    destruct Hspec as (_ & _ & Hlast).
    destruct (last (s1 :: l)) as [z|] eqn:Ez; [|by apply last_None in Ez].
    destruct (Hlast z eq_refl) as (z' & Hz & _). rewrite Hz in A.
    unfold reconstruct_env_state.
    set (c := fold_left _ its new_replay) in *. rewrite A in Hb.
    destruct (baseline (replayed c)) as [b|] eqn:Eb; [|done]. cbn [is_some negb].
    rewrite A. cbn [tracker restore last_snapshot last_environment_snapshot timeline].
    rewrite Hz. split; [done|]. split; [done|]. exact B.
Qed.
End properties.

(** ** Runs *)

Module TimelineRuns.
Import ContextRuns.

Definition here : environment_context_snapshot := in_dir "/a".
Definition there : environment_context_snapshot := in_dir "/b".

(** A printer and a parser for the snapshot of one directory and for changes of directory
    from there. *)
Definition print_here (s : environment_context_snapshot) : option str :=
  if bool_decide (s = here) then Some (lit "{a}") else None.
Definition parse_here (text : str) : option environment_context_snapshot :=
  if str_eqb text (lit "{a}") then Some here else None.

Definition print_move (d : environment_context_delta) : option str :=
  match d with
  | EnvironmentContextDelta v base [(k, JString dir)] =>
      if (v =? 1)%N && str_eqb base (fingerprint plain_digest here) && str_eqb k (lit "cwd")
      then Some (lit "{" ++ dir ++ lit "}") else None
  | _ => None
  end.
Definition parse_move (text : str) : option environment_context_delta :=
  rest ← strip_prefix (lit "{") text;
  dir ← strip_suffix (lit "}") rest;
  Some (EnvironmentContextDelta 1 (fingerprint plain_digest here) [(lit "cwd", JString dir)]).

Lemma here_round_trip : json_round_trip print_here parse_here.
Proof.
  intros s text. unfold print_here. case_bool_decide as E; [|done].
  intros H. apply (inj Some) in H as <-. rewrite E. by split.
Qed.

Lemma move_round_trip : json_round_trip print_move parse_move.
Proof.
  intros [v base [|[k [|?|?|dir|?|?]] [|? ?]]] out; cbn [print_move]; try done.
  destruct (_ && _) eqn:E; [|done]. bool_solve.
  repeat match goal with H : str_eqb _ _ = true |- _ => apply str_eqb_eq in H end. subst.
  intros H. apply (inj Some) in H as <-. split; [split|].
  - done.
  - change (lit "}") with [125%N]. rewrite app_assoc. by apply trim_end_app.
  - unfold parse_move. rewrite strip_prefix_app. cbn [mbind option_bind].
    by rewrite (proj2 (strip_suffix_Some (lit "}") (dir ++ lit "}") dir) eq_refl).
Qed.

Definition emissions := (observe_all plain_digest [here; there] new_tracker).1.
Definition sent : list (response_item (option str)) :=
  default [] (messages (fun id => id) print_here print_move None emissions).
Notation resumed := (reconstruct_env_state plain_digest parse_here parse_move [] sent new_env_state).

Lemma resume_restores_witness :
  length sent = 2 /\ last_snapshot (tracker resumed) = Some there /\
  delta_count (timeline resumed) = 1.
Proof.
  assert (H : last_snapshot (tracker resumed) =
    last_snapshot (observe_all plain_digest [here; there] new_tracker).2).
  { apply (resume_restores plain_digest (fun id : option str => id) print_here print_move
      parse_here parse_move [] None [here; there] sent new_env_state).
    - apply here_round_trip.
    - apply move_round_trip.
    - by repeat constructor.
    - done.
    - constructor; [exact I|]. constructor; [|constructor].
      intros text Ht. vm_compute in Ht. apply (f_equal (default [])) in Ht. cbn in Ht. subst text.
      by vm_compute.
    - by vm_compute. }
  split; [by vm_compute|]. split; [rewrite H; by vm_compute|by vm_compute].
Defined.

Lemma timeline_invariant_witness :
  let ops := [AddBaseline here; ApplyDelta [] 1 (diff_from plain_digest there here);
              ApplyDelta [] 7 (diff_from plain_digest there here); RecordSnapshot [] there] in
  let t := fold_left (run_timeline_op plain_digest) ops new_timeline in
  delta_sequences t = [1%N] /\ baseline t = Some here /\ wf_timeline plain_digest t.
Proof.
  intros ops t. split; [by vm_compute|]. split; [by vm_compute|].
  apply (timeline_invariant plain_digest ops new_timeline); [apply wf_new|by vm_compute].
Defined.

Lemma emitted_items_categorized_witness :
  length sent = 2 /\
  categorize_item <$> sent = [ItemCategory.EnvBaseline; ItemCategory.EnvDelta].
Proof.
  split; [by vm_compute|].
  apply (emitted_items_categorized (fun id : option str => id) print_here print_move
    emissions None sent); [|by vm_compute].
  constructor; [|by repeat constructor].
  intros text Ht. vm_compute in Ht. apply (f_equal (default [])) in Ht. cbn in Ht. subst text.
  by vm_compute.
Defined.

Definition turn_in (dir : string) : turn :=
  Turn [] (new_context (Some (OperatingSystemInfo (Some (lit "Linux")) None None)) None
    (lit "2025-01-02") (Some (lit dir)) (Some OnRequest) (Some ReadOnly)
    (Some (Bash (lit "/bin/bash") (lit "/root/.bashrc")))) None None None.

(** Two turns in different directories: the second one's difference is sent, not stored. *)
Lemma live_deltas_never_stored_witness :
  let s := fold_left (run_turn plain_digest (fun id : option str => id) print_here print_move
    false) [turn_in "/a"; turn_in "/b"] new_env_state in
  environment_context_seq s = 2%N /\ deltas (timeline s) = [].
Proof.
  intros s. split; [by vm_compute|].
  apply (live_deltas_never_stored plain_digest (fun id : option str => id) print_here print_move
    parse_here parse_move false [] [turn_in "/a"; turn_in "/b"] [] new_env_state). by vm_compute.
Defined.
End TimelineRuns.
