(* ===== verification/ExecArgs.v ===== *)
(** * Execution policy: argument types, matchers and their resolution

    [code-rs/execpolicy/src]: [error.rs], [arg_type.rs], [arg_matcher.rs],
    [sed_command.rs], [MatchedArg] of [valid_exec.rs] and [arg_resolver.rs].  The
    resolver is shown equivalent to the relation [matches], which says how a list
    of patterns reads a list of arguments.  Slicing out of range panics in Rust:
    it is the fault [Panics] here, and [resolve_never_panics] excludes it. *)

From S2P Require Import Prelude Paths FileSystem.

(** ** Data *)

Inductive arg_type :=
| TLiteral (literal_value : str)
| TOpaqueNonFile
| TReadableFile
| TWriteableFile
| TPositiveInteger
| TSedCommand
| TUnknown.

Inductive arg_matcher :=
| Literal (value : str)
| OpaqueNonFile
| ReadableFile
| WriteableFile
| ReadableFiles
| ReadableFilesOrCwd
| PositiveInteger
| SedCommand
| UnverifiedVarargs.

Inductive cardinality_kind := One | AtLeastOne | ZeroOrMore.

Record positional_arg := PositionalArg { pos_index : nat; pos_value : str }.

Inductive error :=
| NoSpecForProgram (program : str)
| OptionMissingValue (program option : str)
| OptionFollowedByOptionInsteadOfValue (program option value : str)
| UnknownOption (program option : str)
| UnexpectedArguments (program : str) (args : list positional_arg)
| DoubleDashNotSupportedYet (program : str)
| MultipleVarargPatterns (program : str) (first_pattern second_pattern : arg_matcher)
| RangeStartExceedsEnd (range_start range_end : nat)
| RangeEndOutOfBounds (range_end len : nat)
| PrefixOverlapsSuffix
| NotEnoughArgs (program : str) (args : list positional_arg) (arg_patterns : list arg_matcher)
| InternalInvariantViolation (message : str)
| VarargMatcherDidNotMatchAnything (program : str) (matcher : arg_matcher)
| EmptyFileName
| LiteralValueDidNotMatch (expected actual : str)
| InvalidPositiveInteger (value : str)
| MissingRequiredOptions (program : str) (options : list str)
| SedCommandNotProvablySafe (command : str)
| ReadablePathNotInReadableFolders (file : str) (folders : list str)
| WriteablePathNotInWriteableFolders (file : str) (folders : list str)
| CannotCheckRelativePath (file : str)
| CannotCanonicalizePath (file : str) (kind : io_kind).

#[export] Instance arg_type_eq_dec : EqDecision arg_type.
Proof. solve_decision. Defined.
#[export] Instance arg_matcher_eq_dec : EqDecision arg_matcher.
Proof. solve_decision. Defined.
#[export] Instance cardinality_kind_eq_dec : EqDecision cardinality_kind.
Proof. solve_decision. Defined.
#[export] Instance positional_arg_eq_dec : EqDecision positional_arg.
Proof. solve_decision. Defined.
#[export] Instance error_eq_dec : EqDecision error.
Proof. solve_decision. Defined.

(** What a function that slices returns: an error of the program, or a panic. *)
Inductive fault := Fails (e : error) | Panics.

(** ** Argument types *)

Definition parse_sed_command (sed_command : str) : result error unit :=
  let unsafe := Err (SedCommandNotProvablySafe sed_command) in
  match strip_suffix (lit "p") sed_command with
  | Some stripped =>
      match split_once 44%N stripped with
      | Some (a, b) =>
          match parse_u64 a, parse_u64 b with
          | Some _, Some _ => Ok tt
          | _, _ => unsafe
          end
      | None => unsafe
      end
  | None => unsafe
  end.

Definition validate (t : arg_type) (value : str) : result error unit :=
  match t with
  | TLiteral literal_value =>
      if str_eqb value literal_value then Ok tt
      else Err (LiteralValueDidNotMatch literal_value value)
  | TReadableFile | TWriteableFile =>
      if str_eqb value [] then Err EmptyFileName else Ok tt
  | TOpaqueNonFile | TUnknown => Ok tt
  | TPositiveInteger =>
      match parse_u64 value with
      | Some 0%N | None => Err (InvalidPositiveInteger value)
      | Some _ => Ok tt
      end
  | TSedCommand => parse_sed_command value
  end.

Definition might_write_file (t : arg_type) : bool :=
  match t with TWriteableFile | TUnknown => true | _ => false end.

(** ** Matchers *)

Definition cardinality (m : arg_matcher) : cardinality_kind :=
  match m with
  | Literal _ | OpaqueNonFile | ReadableFile | WriteableFile
  | PositiveInteger | SedCommand => One
  | ReadableFiles => AtLeastOne
  | ReadableFilesOrCwd | UnverifiedVarargs => ZeroOrMore
  end.

Definition matcher_type (m : arg_matcher) : arg_type :=
  match m with
  | Literal value => TLiteral value
  | OpaqueNonFile => TOpaqueNonFile
  | ReadableFile => TReadableFile
  | WriteableFile => TWriteableFile
  | ReadableFiles => TReadableFile
  | ReadableFilesOrCwd => TReadableFile
  | PositiveInteger => TPositiveInteger
  | SedCommand => TSedCommand
  | UnverifiedVarargs => TUnknown
  end.

Definition is_exact (c : cardinality_kind) : option nat :=
  match c with One => Some 1 | AtLeastOne => None | ZeroOrMore => None end.

Record matched_arg := MatchedArg {
  marg_index : nat; marg_type : arg_type; marg_value : str;
}.

#[export] Instance matched_arg_eq_dec : EqDecision matched_arg.
Proof. solve_decision. Defined.

(** [MatchedArg::new] *)
Definition new_matched_arg (index : nat) (t : arg_type) (value : str)
  : result error matched_arg :=
  _ ← validate t value; Ok (MatchedArg index t value).

(** ** Partitioning the patterns *)

Record partitioned_args := PartitionedArgs {
  num_prefix_args : nat;
  num_suffix_args : nat;
  prefix_patterns : list arg_matcher;
  suffix_patterns : list arg_matcher;
  vararg_pattern : option arg_matcher;
}.

Definition default_partition : partitioned_args := PartitionedArgs 0 0 [] [] None.

Fixpoint partition_loop (program : str) (patterns : list arg_matcher)
  (in_prefix : bool) (p : partitioned_args) : result error partitioned_args :=
  match patterns with
  | [] => Ok p
  | pattern :: patterns' =>
      match is_exact (cardinality pattern) with
      | Some n =>
          partition_loop program patterns' in_prefix
            (if in_prefix then
               PartitionedArgs (num_prefix_args p + n) (num_suffix_args p)
                 (prefix_patterns p ++ [pattern]) (suffix_patterns p) (vararg_pattern p)
             else
               PartitionedArgs (num_prefix_args p) (num_suffix_args p + n)
                 (prefix_patterns p) (suffix_patterns p ++ [pattern]) (vararg_pattern p))
      | None =>
          match vararg_pattern p with
          | None =>
              partition_loop program patterns' false
                (PartitionedArgs (num_prefix_args p) (num_suffix_args p)
                   (prefix_patterns p) (suffix_patterns p) (Some pattern))
          | Some existing_pattern =>
              Err (MultipleVarargPatterns program existing_pattern pattern)
          end
      end
  end.

Definition partition_args (program : str) (arg_patterns : list arg_matcher)
  : result error partitioned_args :=
  partition_loop program arg_patterns true default_partition.

(** ** Matching the arguments *)

(** [&l[i..j]]: panics out of range. *)
Definition slice {A} (l : list A) (i j : nat) : result fault (list A) :=
  if (i <=? j) && (j <=? length l) then Ok (take (j - i) (drop i l)) else Err Panics.

Definition get_range_checked {A} (vec : list A) (range_start range_end : nat)
  : result fault (list A) :=
  if range_end <? range_start then Err (Fails (RangeStartExceedsEnd range_start range_end))
  else if length vec <? range_end then Err (Fails (RangeEndOutOfBounds range_end (length vec)))
  else slice vec range_start range_end.

(** The inner loop: every argument of a slice against one pattern. *)
Fixpoint match_slice (t : arg_type) (args : list positional_arg)
  : result fault (list matched_arg) :=
  match args with
  | [] => Ok []
  | a :: args' =>
      m ← map_err Fails (new_matched_arg (pos_index a) t (pos_value a));
      ms ← match_slice t args';
      Ok (m :: ms)
  end.

(** The loop over prefix (or suffix) patterns: the matches and the final index. *)
Fixpoint match_patterns (patterns : list arg_matcher) (args : list positional_arg)
  (arg_index : nat) : result fault (list matched_arg * nat) :=
  match patterns with
  | [] => Ok ([], arg_index)
  | pattern :: patterns' =>
      n ← ok_or (is_exact (cardinality pattern))
                (Fails (InternalInvariantViolation (lit "expected exact cardinality")));
      window ← slice args arg_index (arg_index + n);
      ms ← match_slice (matcher_type pattern) window;
      '(ms', arg_index) ← match_patterns patterns' args (arg_index + n);
      Ok (ms ++ ms', arg_index)
  end.

(** [if let Some(pattern) = vararg_pattern { .. }] *)
Definition match_vararg (program : str) (vararg_pattern : option arg_matcher)
  (args : list positional_arg) (range_start range_end : nat)
  : result fault (list matched_arg) :=
  match vararg_pattern with
  | None => Ok []
  | Some pattern =>
      vararg ← get_range_checked args range_start range_end;
      match cardinality pattern with
      | One => Err (Fails (InternalInvariantViolation
                             (lit "vararg pattern should not have cardinality of one")))
      | AtLeastOne =>
          match vararg with
          | [] => Err (Fails (VarargMatcherDidNotMatchAnything program pattern))
          | _ => match_slice (matcher_type pattern) vararg
          end
      | ZeroOrMore => match_slice (matcher_type pattern) vararg
      end
  end.

Definition resolve_observed_args_with_patterns (program : str)
  (args : list positional_arg) (arg_patterns : list arg_matcher)
  : result fault (list matched_arg) :=
  p ← map_err Fails (partition_args program arg_patterns);
  prefix ← get_range_checked args 0 (num_prefix_args p);
  '(prefix_ms, prefix_arg_index) ← match_patterns (prefix_patterns p) prefix 0;
  if length args <? num_suffix_args p
  then Err (Fails (NotEnoughArgs program args arg_patterns))
  else
    let initial_suffix_args_index := length args - num_suffix_args p in
    if initial_suffix_args_index <? prefix_arg_index then Err (Fails PrefixOverlapsSuffix)
    else
      vararg_ms ← match_vararg program (vararg_pattern p) args prefix_arg_index
                               initial_suffix_args_index;
      suffix ← get_range_checked args initial_suffix_args_index (length args);
      '(suffix_ms, _) ← match_patterns (suffix_patterns p) suffix 0;
      let matched_args := prefix_ms ++ vararg_ms ++ suffix_ms in
      if length matched_args <? length args then
        extra_args ← get_range_checked args (length matched_args) (length args);
        Err (Fails (UnexpectedArguments program extra_args))
      else Ok matched_args.

(** ** Specification: how patterns read arguments *)

Definition valid_for (t : arg_type) (a : positional_arg) : Prop :=
  validate t (pos_value a) = Ok tt.

Definition to_matched (t : arg_type) (a : positional_arg) : matched_arg :=
  MatchedArg (pos_index a) t (pos_value a).

(** [admits c n]: a pattern of cardinality [c] may take [n] arguments. *)
Definition admits (c : cardinality_kind) (n : nat) : Prop :=
  match c with One => n = 1 | AtLeastOne => 1 <= n | ZeroOrMore => True end.

Inductive matches : list arg_matcher -> list positional_arg -> list matched_arg -> Prop :=
| matches_nil : matches [] [] []
| matches_cons m ms taken rest out :
    admits (cardinality m) (length taken) ->
    Forall (valid_for (matcher_type m)) taken ->
    matches ms rest out ->
    matches (m :: ms) (taken ++ rest) ((to_matched (matcher_type m) <$> taken) ++ out).

Definition is_vararg (m : arg_matcher) : bool :=
  match cardinality m with One => false | _ => true end.

(** The patterns have at most one that takes a variable number of arguments. *)
Definition at_most_one_vararg (patterns : list arg_matcher) : Prop :=
  length (filter (fun m => is_vararg m = true) patterns) <= 1.

(** ** Lemmas: partitioning *)

Definition exact (m : arg_matcher) : Prop := is_vararg m = false.

Lemma exact_cardinality m : exact m <-> cardinality m = One.
Proof. unfold exact, is_vararg. by destruct (cardinality m). Qed.

Lemma filter_exact ms : Forall exact ms -> filter (fun m => is_vararg m = true) ms = [].
Proof.
  induction 1 as [|m ms Hm _ IH]; [done|].
  rewrite filter_cons_False; [done|]. unfold exact in Hm. congruence.
Qed.

(** The partition of a list of patterns: all exact, or split at the vararg. *)
Inductive partition_of : list arg_matcher -> partitioned_args -> Prop :=
| part_exact pre :
    Forall exact pre ->
    partition_of pre (PartitionedArgs (length pre) 0 pre [] None)
| part_vararg pre v suf :
    Forall exact pre -> is_vararg v = true -> Forall exact suf ->
    partition_of (pre ++ v :: suf)
      (PartitionedArgs (length pre) (length suf) pre suf (Some v)).

Lemma partition_suffix program ms pre v suf :
  is_vararg v = true -> Forall exact pre -> Forall exact suf ->
  match partition_loop program ms false
          (PartitionedArgs (length pre) (length suf) pre suf (Some v)) with
  | Ok p => partition_of (pre ++ v :: suf ++ ms) p
  | Err _ => ~ at_most_one_vararg (pre ++ v :: suf ++ ms)
  end.
Proof.
  intros Hv Hpre. revert suf. induction ms as [|m ms IH]; intros suf Hsuf; simpl.
  { rewrite app_nil_r. by constructor. }
  destruct (is_vararg m) eqn:Hm.
  - assert (Hc : is_exact (cardinality m) = None)
      by (unfold is_vararg in Hm; by destruct (cardinality m)).
    rewrite Hc. unfold at_most_one_vararg.
    rewrite filter_app, filter_cons_True, filter_app, filter_cons_True by done.
    rewrite length_app; simpl; rewrite length_app; simpl. lia.
  - rewrite (proj1 (exact_cardinality m) Hm). simpl.
    replace (length suf + 1) with (length (suf ++ [m])) by (rewrite length_app; done).
    specialize (IH (suf ++ [m])). rewrite <- app_assoc in IH. apply IH.
    apply Forall_app. split; [done|]. by constructor.
Qed.

Lemma partition_prefix program ms pre :
  Forall exact pre ->
  match partition_loop program ms true (PartitionedArgs (length pre) 0 pre [] None) with
  | Ok p => partition_of (pre ++ ms) p
  | Err _ => ~ at_most_one_vararg (pre ++ ms)
  end.
Proof.
  revert pre. induction ms as [|m ms IH]; intros pre Hpre; simpl.
  { rewrite app_nil_r. by constructor. }
  destruct (is_vararg m) eqn:Hm.
  - assert (Hc : is_exact (cardinality m) = None)
      by (unfold is_vararg in Hm; by destruct (cardinality m)).
    rewrite Hc. simpl. by apply (partition_suffix program ms pre m []).
  - rewrite (proj1 (exact_cardinality m) Hm). simpl.
    replace (length pre + 1) with (length (pre ++ [m])) by (rewrite length_app; done).
    specialize (IH (pre ++ [m])). rewrite <- app_assoc in IH. apply IH.
    apply Forall_app. split; [done|]. by constructor.
Qed.

Lemma partition_args_spec program ms :
  match partition_args program ms with
  | Ok p => partition_of ms p
  | Err _ => ~ at_most_one_vararg ms
  end.
Proof. by apply (partition_prefix program ms []). Qed.

(** ** Lemmas: what the patterns match *)

Definition exact_out (ms : list arg_matcher) (args : list positional_arg)
  : list matched_arg := zip_with (fun m a => to_matched (matcher_type m) a) ms args.

Definition exact_ok (ms : list arg_matcher) (args : list positional_arg) : Prop :=
  Forall2 (fun m a => valid_for (matcher_type m) a) ms args.

Lemma matches_app ms1 ms2 args out :
  matches (ms1 ++ ms2) args out <->
  exists args1 args2 out1 out2, args = args1 ++ args2 /\ out = out1 ++ out2 /\
    matches ms1 args1 out1 /\ matches ms2 args2 out2.
Proof.
  split.
  - revert args out. induction ms1 as [|m ms1 IH]; intros args out H.
    { exists [], args, [], out. split_and!; [done..|constructor|done]. }
    inversion H as [|? ? taken rest out' Ha Hv Hrest]; subst.
    apply IH in Hrest as (a1 & a2 & o1 & o2 & -> & -> & H1 & H2).
    exists (taken ++ a1), a2, ((to_matched (matcher_type m) <$> taken) ++ o1), o2.
    rewrite <- !app_assoc. split_and!; [done..| |done]. by constructor.
  - intros (a1 & a2 & o1 & o2 & -> & -> & H1 & H2).
    induction H1; [done|]. rewrite <- !app_assoc. by constructor.
Qed.

Lemma matches_exact ms args out :
  Forall exact ms -> matches ms args out <-> exact_ok ms args /\ out = exact_out ms args.
Proof.
  intros Hms. split.
  - intros H. induction H as [|m ms taken rest out Ha Hv _ IH]; [by split; [constructor|]|].
    apply Forall_cons in Hms as [Hm Hms]. apply exact_cardinality in Hm. rewrite Hm in Ha.
    destruct (IH Hms) as [IH1 ->].
    destruct taken as [|a [|b taken]]; try done. apply Forall_cons in Hv as [Hv _].
    split; [by constructor|done].
  - intros [H ->]. induction H as [|m a ms args Hv H IH]; [constructor|].
    apply Forall_cons in Hms as [Hm Hms].
    apply (matches_cons m ms [a]); [by rewrite (proj1 (exact_cardinality m) Hm)| |by apply IH].
    by constructor.
Qed.

(** The parts of the arguments that a partition assigns. *)
Lemma matches_vararg pre v suf args out :
  Forall exact pre -> Forall exact suf ->
  matches (pre ++ v :: suf) args out <->
  exists a1 a2 a3, args = a1 ++ a2 ++ a3 /\ exact_ok pre a1 /\ exact_ok suf a3 /\
    admits (cardinality v) (length a2) /\ Forall (valid_for (matcher_type v)) a2 /\
    out = exact_out pre a1 ++ (to_matched (matcher_type v) <$> a2) ++ exact_out suf a3.
Proof.
  intros Hpre Hsuf. rewrite matches_app. split.
  - intros (a1 & a2 & o1 & o2 & -> & -> & H1 & H2).
    apply matches_exact in H1 as [H1 ->]; [|done].
    inversion H2 as [|? ? taken rest out' Ha Hv Hrest]; subst.
    apply matches_exact in Hrest as [H3 ->]; [|done]. by exists a1, taken, rest.
  - intros (a1 & a2 & a3 & -> & H1 & H3 & Ha & Hv & ->).
    exists a1, (a2 ++ a3), (exact_out pre a1),
      ((to_matched (matcher_type v) <$> a2) ++ exact_out suf a3). split_and!; [done..| |].
    + by apply matches_exact.
    + constructor; [done..|]. by apply matches_exact.
Qed.

Lemma exact_ok_length ms args : exact_ok ms args -> length args = length ms.
Proof. intros H. symmetry. by eapply Forall2_length. Qed.

Lemma exact_out_length ms args :
  length args = length ms -> length (exact_out ms args) = length ms.
Proof. intros H. unfold exact_out. rewrite length_zip_with. lia. Qed.

Lemma validate_result t a :
  match new_matched_arg (pos_index a) t (pos_value a) with
  | Ok m => valid_for t a /\ m = to_matched t a
  | Err _ => ~ valid_for t a
  end.
Proof.
  unfold new_matched_arg, valid_for. destruct (validate t (pos_value a)) as [[]|e]; done.
Qed.

Lemma match_slice_spec t args :
  match match_slice t args with
  | Ok ms => Forall (valid_for t) args /\ ms = to_matched t <$> args
  | Err f => f <> Panics /\ ~ Forall (valid_for t) args
  end.
Proof.
  induction args as [|a args IH]; simpl; [done|].
  pose proof (validate_result t a) as Ha. destruct (new_matched_arg _ _ _) as [m|e]; simpl.
  - destruct Ha as [Ha ->]. destruct (match_slice t args) as [ms|f]; simpl.
    + destruct IH as [IH ->]. split; [by constructor|done].
    + destruct IH as [Hf IH]. split; [done|]. by intros [_ ?]%Forall_cons.
  - split; [done|]. by intros [? _]%Forall_cons.
Qed.

Lemma slice_ok {A} (l : list A) i j :
  i <= j -> j <= length l -> slice l i j = Ok (take (j - i) (drop i l)).
Proof.
  intros. unfold slice. rewrite (proj2 (Nat.leb_le i j)), (proj2 (Nat.leb_le j _)) by done.
  done.
Qed.

Lemma get_range_checked_ok {A} (l : list A) i j :
  i <= j -> j <= length l -> get_range_checked l i j = Ok (take (j - i) (drop i l)).
Proof.
  intros. unfold get_range_checked.
  rewrite (proj2 (Nat.ltb_ge j i)), (proj2 (Nat.ltb_ge (length l) j)) by done.
  by apply slice_ok.
Qed.

Lemma get_range_checked_0 {A} (l : list A) j :
  get_range_checked l 0 j =
  if length l <? j then Err (Fails (RangeEndOutOfBounds j (length l))) else Ok (take j l).
Proof.
  unfold get_range_checked. rewrite (proj2 (Nat.ltb_ge j 0)) by lia.
  destruct (Nat.ltb_spec (length l) j); [done|]. rewrite slice_ok by lia.
  by rewrite Nat.sub_0_r, drop_0.
Qed.

(** Exact patterns against a slice that is long enough. *)
Lemma match_patterns_spec ms args i :
  Forall exact ms -> i + length ms = length args ->
  match match_patterns ms args i with
  | Ok (out, j) => j = length args /\ exact_ok ms (drop i args) /\
                   out = exact_out ms (drop i args)
  | Err f => f <> Panics /\ ~ exact_ok ms (drop i args)
  end.
Proof.
  intros Hms. revert i. induction Hms as [|m ms Hm Hms IH]; intros i Hlen; simpl in *.
  { rewrite drop_ge by lia. split_and!; [lia|constructor|done]. }
  rewrite (proj1 (exact_cardinality m) Hm). simpl.
  rewrite slice_ok by lia. replace (i + 1 - i) with 1 by lia.
  destruct (drop i args) as [|a rest] eqn:Hd.
  { apply (f_equal length) in Hd. rewrite length_drop in Hd. simpl in Hd. lia. }
  assert (Hrest : drop (i + 1) args = rest)
    by (rewrite <- drop_drop, Hd; done).
  pose proof (match_slice_spec (matcher_type m) [a]) as Ha. simpl take. rewrite take_0.
  specialize (IH (i + 1) ltac:(lia)). rewrite Hrest in IH.
  cbn [mbind result_bind]. destruct (match_slice _ [a]) as [o|f].
  - destruct Ha as [[Ha _]%Forall_cons ->].
    destruct (match_patterns ms args (i + 1)) as [[out j]|f]; simpl.
    + destruct IH as (-> & H1 & ->). split_and!; [done|by constructor|done].
    + destruct IH as [Hf IH]. split; [done|]. intros H.
      apply Forall2_cons in H as [_ H]. done.
  - destruct Ha as [Hf Ha]. split; [done|]. intros H.
    apply Forall2_cons in H as [H _]. apply Ha. by constructor.
Qed.

Lemma match_vararg_spec program v (a1 a2 a3 : list positional_arg) :
  is_vararg v = true ->
  match match_vararg program (Some v) (a1 ++ a2 ++ a3) (length a1) (length a1 + length a2) with
  | Ok out => admits (cardinality v) (length a2) /\
      Forall (valid_for (matcher_type v)) a2 /\ out = to_matched (matcher_type v) <$> a2
  | Err f => f <> Panics /\
      ~ (admits (cardinality v) (length a2) /\ Forall (valid_for (matcher_type v)) a2)
  end.
Proof.
  intros Hv. unfold match_vararg.
  rewrite get_range_checked_ok by (rewrite ?length_app; lia). cbn [mbind result_bind].
  rewrite drop_app_length, Nat.add_sub', take_app_length.
  pose proof (match_slice_spec (matcher_type v) a2) as Hs. unfold is_vararg in Hv.
  destruct (cardinality v); [done|destruct a2 as [|a a2]|]; cbn -[match_slice].
  - split; [done|]. intros [? _]. lia.
  - destruct (match_slice _ (a :: a2)) as [ms|f].
    + destruct Hs as [Hs ->]. split; [simpl; lia|done].
    + destruct Hs as [Hf Hs]. split; [done|]. intros [_ Hx]. exact (Hs Hx).
  - destruct (match_slice _ a2) as [ms|f]; destruct Hs as [Hf Hs]; [done|].
    split; [done|]. intros [_ Hx]. exact (Hs Hx).
Qed.

Ltac resolve_simpl :=
  cbn -[get_range_checked match_vararg match_patterns Nat.ltb Nat.leb Nat.sub].

(** The outcome of the resolver: a match when there is one, never a panic. *)
Definition resolves (patterns : list arg_matcher) (args : list positional_arg)
  (r : result fault (list matched_arg)) : Prop :=
  match r with
  | Ok out => matches patterns args out
  | Err f => f <> Panics /\ forall out, ~ matches patterns args out
  end.

Lemma match_exact_spec ms args :
  Forall exact ms -> length args = length ms ->
  match match_patterns ms args 0 with
  | Ok (out, j) => j = length ms /\ exact_ok ms args /\ out = exact_out ms args
  | Err f => f <> Panics /\ ~ exact_ok ms args
  end.
Proof.
  intros Hms Hlen. pose proof (match_patterns_spec ms args 0 Hms (eq_sym Hlen)) as H.
  rewrite drop_0 in H. destruct (match_patterns ms args 0) as [[out j]|]; [|done].
  by rewrite <- Hlen.
Qed.

Lemma resolve_exact program pats args :
  Forall exact pats ->
  partition_args program pats = Ok (PartitionedArgs (length pats) 0 pats [] None) ->
  resolves pats args (resolve_observed_args_with_patterns program args pats).
Proof.
  intros Hex Hp. unfold resolve_observed_args_with_patterns. rewrite Hp.
  resolve_simpl.
  assert (Hlen : forall out, matches pats args out -> length args = length pats).
  { intros out H. apply matches_exact in H as [H%exact_ok_length _]; done. }
  rewrite get_range_checked_0. destruct (Nat.ltb_spec (length args) (length pats)).
  { split; [done|]. intros out Hm%Hlen. lia. }
  cbn [mbind result_bind].
  pose proof (match_exact_spec pats (take (length pats) args) Hex) as Hm.
  rewrite length_take_le in Hm by lia. specialize (Hm eq_refl).
  destruct (match_patterns pats _ 0) as [[out j]|f]; resolve_simpl.
  2: { destruct Hm as [Hf Hm]. split; [done|]. intros out Hout. apply Hm.
       rewrite take_ge by (apply Hlen in Hout; lia). by apply matches_exact in Hout as [? _]. }
  destruct Hm as (-> & Hok & ->).
  change (length args <? 0) with false. cbv iota.
  rewrite Nat.sub_0_r, (proj2 (Nat.ltb_ge (length args) (length pats))) by done.
  rewrite (get_range_checked_ok args (length args)) by lia.
  rewrite drop_ge by lia. cbn [match_patterns match_vararg mbind result_bind]. rewrite app_nil_r.
  rewrite exact_out_length by (rewrite length_take; lia).
  destruct (Nat.ltb_spec (length pats) (length args)).
  - rewrite get_range_checked_ok by lia. simpl. split; [done|]. intros out Hm%Hlen. lia.
  - rewrite take_ge in * by lia. simpl. by apply matches_exact.
Qed.

Lemma split_at {A} (l : list A) n k :
  n + k <= length l ->
  exists a1 a2 a3, l = a1 ++ a2 ++ a3 /\ length a1 = n /\ length a3 = k.
Proof.
  intros H. exists (take n l), (take (length l - k - n) (drop n l)), (drop (length l - k) l).
  split_and!; [|rewrite length_take; lia|rewrite length_drop; lia].
  rewrite <- (take_drop n l) at 1. f_equal.
  rewrite <- (take_drop (length l - k - n) (drop n l)) at 1. f_equal.
  rewrite drop_drop. f_equal. lia.
Qed.

Lemma matches_vararg_min pre v suf args out :
  Forall exact pre -> Forall exact suf -> matches (pre ++ v :: suf) args out ->
  length pre + length suf <= length args.
Proof.
  intros Hpre Hsuf (a1 & a2 & a3 & -> & H1 & H3 & _)%matches_vararg; [|done..].
  rewrite !length_app, (exact_ok_length _ _ H1), (exact_ok_length _ _ H3). lia.
Qed.

(** The same split, for arguments that are long enough. *)
Lemma matches_vararg_split pre v suf a1 a2 a3 out :
  Forall exact pre -> Forall exact suf ->
  length a1 = length pre -> length a3 = length suf ->
  matches (pre ++ v :: suf) (a1 ++ a2 ++ a3) out <->
  exact_ok pre a1 /\ (admits (cardinality v) (length a2) /\
  Forall (valid_for (matcher_type v)) a2) /\ exact_ok suf a3 /\
  out = exact_out pre a1 ++ (to_matched (matcher_type v) <$> a2) ++ exact_out suf a3.
Proof.
  intros Hpre Hsuf Hl1 Hl3. rewrite matches_vararg by done. split.
  - intros (b1 & b2 & b3 & Heq & H1 & H3 & Ha & Hv & ->).
    pose proof (exact_ok_length _ _ H1). pose proof (exact_ok_length _ _ H3).
    rewrite !app_assoc in Heq. apply app_inj_2 in Heq as [Heq ->]; [|lia].
    apply app_inj_1 in Heq as [-> ->]; [done|lia].
  - intros (H1 & [Ha Hv] & H3 & ->). by exists a1, a2, a3.
Qed.

Lemma drop_drop_app {A} (a1 a2 a3 : list A) :
  drop (length a1 + length a2) (a1 ++ a2 ++ a3) = a3.
Proof. by rewrite app_assoc, <- length_app, drop_app_length. Qed.

(** A part that is not matched excludes a match of the whole. *)
Ltac no_match H Hm :=
  destruct H as [? H]; split; [assumption|];
  intros ? (? & ? & ? & _)%Hm; apply H; assumption.

(** The part of the resolver that runs when there are enough arguments. *)
Lemma resolve_vararg_split program pre v suf a1 a2 a3 :
  Forall exact pre -> is_vararg v = true -> Forall exact suf ->
  length a1 = length pre -> length a3 = length suf ->
  partition_args program (pre ++ v :: suf)
    = Ok (PartitionedArgs (length pre) (length suf) pre suf (Some v)) ->
  resolves (pre ++ v :: suf) (a1 ++ a2 ++ a3)
    (resolve_observed_args_with_patterns program (a1 ++ a2 ++ a3) (pre ++ v :: suf)).
Proof.
  intros Hpre Hv Hsuf Hl1 Hl3 Hp. unfold resolve_observed_args_with_patterns.
  rewrite Hp. resolve_simpl.
  assert (Hall : length pre + length suf <= length (a1 ++ a2 ++ a3))
    by (rewrite !length_app; lia).
  rewrite get_range_checked_0.
  rewrite (proj2 (Nat.ltb_ge (length (a1 ++ a2 ++ a3)) (length pre))) by lia.
  rewrite <- Hl1, take_app_length. resolve_simpl.
  pose proof (match_exact_spec pre a1 Hpre Hl1) as H1.
  pose proof (match_exact_spec suf a3 Hsuf Hl3) as H3.
  pose proof (match_vararg_spec program v a1 a2 a3 Hv) as H2.
  pose proof (fun out => proj1 (matches_vararg_split pre v suf a1 a2 a3 out Hpre Hsuf Hl1 Hl3))
    as Hm.
  destruct (match_patterns pre a1 0) as [[o1 j]|]; [destruct H1 as (-> & H1 & ->)|no_match H1 Hm].
  resolve_simpl.
  rewrite (proj2 (Nat.ltb_ge (length (a1 ++ a2 ++ a3)) (length suf))) by lia.
  assert (Hi : length (a1 ++ a2 ++ a3) - length suf = length a1 + length a2)
    by (rewrite !length_app; lia).
  rewrite Hi, (proj2 (Nat.ltb_ge _ _)), <- Hl1 by lia.
  destruct (match_vararg _ _ _ _ _) as [o2|]; [destruct H2 as (Ha & H2 & ->)|no_match H2 Hm].
  resolve_simpl.
  rewrite get_range_checked_ok by (rewrite ?length_app; lia).
  rewrite drop_drop_app, take_ge by (rewrite !length_app; lia).
  cbn [mbind result_bind].
  destruct (match_patterns suf a3 0) as [[o3 j]|]; [destruct H3 as (-> & H3 & ->)|no_match H3 Hm].
  cbn [mbind result_bind]. rewrite (proj2 (Nat.ltb_ge _ _)); [by apply matches_vararg_split|].
  rewrite !length_app, length_fmap, !exact_out_length by done. lia.
Qed.

Lemma resolve_vararg program pre v suf args :
  Forall exact pre -> is_vararg v = true -> Forall exact suf ->
  partition_args program (pre ++ v :: suf)
    = Ok (PartitionedArgs (length pre) (length suf) pre suf (Some v)) ->
  resolves (pre ++ v :: suf) args
    (resolve_observed_args_with_patterns program args (pre ++ v :: suf)).
Proof.
  intros Hpre Hv Hsuf Hp.
  destruct (le_lt_dec (length pre + length suf) (length args)) as [Hlen|Hlen].
  { destruct (split_at args _ _ Hlen) as (a1 & a2 & a3 & -> & Hl1 & Hl3).
    by apply resolve_vararg_split. }
  assert (Hno : forall out, ~ matches (pre ++ v :: suf) args out).
  { intros out Hm%matches_vararg_min; [lia|done..]. }
  unfold resolve_observed_args_with_patterns. rewrite Hp. resolve_simpl.
  rewrite get_range_checked_0. destruct (Nat.ltb_spec (length args) (length pre)); [done|].
  cbn [mbind result_bind].
  pose proof (match_exact_spec pre (take (length pre) args) Hpre) as H1.
  rewrite length_take_le in H1 by lia. specialize (H1 eq_refl).
  destruct (match_patterns pre _ 0) as [[o j]|]; [destruct H1 as (-> & _)|split; [by apply H1|done]].
  resolve_simpl. destruct (Nat.ltb_spec (length args) (length suf)); [done|].
  rewrite (proj2 (Nat.ltb_lt _ _)); [done|lia].
Qed.

Lemma partition_at_most_one pats p : partition_of pats p -> at_most_one_vararg pats.
Proof.
  unfold at_most_one_vararg. destruct 1 as [pre Hpre|pre v suf Hpre Hv Hsuf].
  - rewrite filter_exact by done. simpl. lia.
  - rewrite filter_app, filter_cons_True, !filter_exact by done. simpl. lia.
Qed.

Lemma matches_functional pats p args out out' :
  partition_of pats p -> matches pats args out -> matches pats args out' -> out = out'.
Proof.
  destruct 1 as [pre Hpre|pre v suf Hpre Hv Hsuf]; intros H1 H2.
  - by apply matches_exact in H1 as [_ ->], H2 as [_ ->].
  - apply matches_vararg in H1 as (a1 & a2 & a3 & -> & H1 & H3 & _ & _ & ->); [|done..].
    apply matches_vararg_split in H2 as (_ & _ & _ & ->); try done; by apply exact_ok_length.
Qed.

Lemma resolve_cases program args pats :
  match resolve_observed_args_with_patterns program args pats with
  | Ok out => at_most_one_vararg pats /\ matches pats args out /\
      (forall out', matches pats args out' -> out' = out)
  | Err f => f <> Panics /\ ~ (at_most_one_vararg pats /\ exists out, matches pats args out)
  end.
Proof.
  pose proof (partition_args_spec program pats) as Hp.
  destruct (partition_args program pats) as [p|e] eqn:E.
  - assert (Hr : resolves pats args (resolve_observed_args_with_patterns program args pats)).
    { destruct Hp; [by apply resolve_exact|by apply resolve_vararg]. }
    destruct (resolve_observed_args_with_patterns program args pats) as [out|f]; simpl in Hr.
    + split_and!; [by eapply partition_at_most_one|done|]. intros out' H.
      by eapply matches_functional.
    + destruct Hr as [Hf Hr]. split; [done|]. intros [_ [out H]]. by eapply Hr.
  - unfold resolve_observed_args_with_patterns. rewrite E. simpl. split; [done|].
    by intros [? _].
Qed.

(** ** Properties *)

(** The resolver implements its specification exactly: it returns the matched
    arguments [out] if and only if at most one pattern takes a variable number of
    arguments and [out] is the reading of the arguments by the patterns, in
    order, every argument being valid for the type of its pattern. *)
Theorem resolve_iff program args pats out :
  resolve_observed_args_with_patterns program args pats = Ok out <->
  at_most_one_vararg pats /\ matches pats args out.
Proof.
  pose proof (resolve_cases program args pats) as H. split.
  - intros E. rewrite E in H. naive_solver.
  - intros [Hone Hm]. destruct (resolve_observed_args_with_patterns _ _ _) as [o|f].
    + destruct H as (_ & _ & H). by rewrite (H out).
    + destruct H as [_ H]. exfalso. eauto.
Qed.

(** The resolver never panics: none of its slices is out of range, whatever
    the patterns and the arguments. *)
Theorem resolve_never_panics program args pats :
  resolve_observed_args_with_patterns program args pats <> Err Panics.
Proof.
  intros E. pose proof (resolve_cases program args pats) as H. rewrite E in H. naive_solver.
Qed.

(** A sed command is accepted exactly when it is two numbers below [2^64]
    separated by a comma and followed by [p]: no other sed command is. *)
Theorem sed_command_accepted s :
  parse_sed_command s = Ok tt <->
  exists a b, s = a ++ [44%N] ++ b ++ lit "p" /\ (44%N ∉ a) /\
    is_Some (parse_u64 a) /\ is_Some (parse_u64 b).
Proof.
  unfold parse_sed_command. split.
  - destruct (strip_suffix _ s) as [stripped|] eqn:Hs; [|done].
    apply strip_suffix_Some in Hs as ->.
    destruct (split_once 44%N stripped) as [[a b]|] eqn:Ho; [|done].
    apply split_once_Some in Ho as [-> Ha].
    destruct (parse_u64 a) eqn:Ea, (parse_u64 b) eqn:Eb; try done. intros _.
    exists a, b. rewrite Ea, Eb, <- app_assoc. split_and!; [done|done|by eexists..].
  - intros (a & b & -> & Ha & [na Hna] & [nb Hnb]).
    rewrite (proj2 (strip_suffix_Some (lit "p") _ (a ++ 44%N :: b))).
    2: { rewrite <- app_assoc. done. }
    rewrite (proj2 (split_once_Some _ _ a b)) by done. by rewrite Hna, Hnb.
Qed.
