(* ===== verification/ExecProgram.v ===== *)
(** * Execution policy: program specifications and policies

    [code-rs/execpolicy/src]: [opt.rs], [valid_exec.rs], [exec_call.rs],
    [program.rs], [policy.rs], [execv_checker.rs] and the [PolicyBuilder] with the
    built-in functions of [policy_parser.rs].  A [HashMap] or [MultiMap] is a
    [gmap] (of lists), a [HashSet] a [gset].  Parameters: the regular expressions
    of [regex_lite], [absolutize] of [path_absolutize], and the test of the file
    system that a path is an executable file.  The Starlark interpreter is not
    modelled: a policy file is the sequence of built-in calls it makes. *)

From S2P Require Import Prelude Paths FileSystem ExecArgs.

(** ** Data *)

Inductive opt_meta := Flag | Value (t : arg_type).

Record opt := Opt { opt_name : str; meta : opt_meta; required : bool }.

Record matched_opt := MatchedOpt { mopt_name : str; mopt_value : str; mopt_type : arg_type }.
Record matched_flag := MatchedFlag { mflag_name : str }.

Record valid_exec := ValidExec {
  vexec_program : str;
  flags : list matched_flag;
  opts : list matched_opt;
  args : list matched_arg;
  vexec_system_path : list str;
}.

Record exec_call := ExecCall { call_program : str; call_args : list str }.

Inductive forbidden_cause :=
| ForbiddenProgram (program : str) (call : exec_call)
| ForbiddenArg (arg : str) (call : exec_call)
| ForbiddenExec (exec : valid_exec).

Inductive matched_exec :=
| Match (exec : valid_exec)
| Forbidden (cause : forbidden_cause) (reason : str).

Record program_spec := ProgramSpec {
  program : str;
  system_path : list str;
  option_bundling : bool;
  combined_format : bool;
  allowed_options : gmap str opt;
  arg_patterns : list arg_matcher;
  forbidden : option str;
  required_options : gset str;
  should_match : list (list str);
  should_not_match : list (list str);
}.

#[export] Instance opt_meta_eq_dec : EqDecision opt_meta.
Proof. solve_decision. Defined.
#[export] Instance opt_eq_dec : EqDecision opt.
Proof. solve_decision. Defined.
#[export] Instance matched_opt_eq_dec : EqDecision matched_opt.
Proof. solve_decision. Defined.
#[export] Instance matched_flag_eq_dec : EqDecision matched_flag.
Proof. solve_decision. Defined.
#[export] Instance valid_exec_eq_dec : EqDecision valid_exec.
Proof. solve_decision. Defined.
#[export] Instance exec_call_eq_dec : EqDecision exec_call.
Proof. solve_decision. Defined.
#[export] Instance forbidden_cause_eq_dec : EqDecision forbidden_cause.
Proof. solve_decision. Defined.
#[export] Instance matched_exec_eq_dec : EqDecision matched_exec.
Proof. solve_decision. Defined.

(** [ValidExec::might_write_files] *)
Definition might_write_files (e : valid_exec) : bool :=
  existsb (fun o => might_write_file (mopt_type o)) (opts e)
  || existsb (fun a => might_write_file (marg_type a)) (args e).

(** [MatchedOpt::new] *)
Definition new_matched_opt (name value : str) (t : arg_type) : result error matched_opt :=
  _ ← validate t value; Ok (MatchedOpt name value t).

(** [impl Display for ExecCall] *)
Definition show_exec_call (c : exec_call) : str :=
  call_program c ++ concat ((fun arg => [32%N] ++ arg) <$> call_args c).

(** [ProgramSpec::new] *)
Definition new_program_spec (program : str) (system_path : list str)
  (option_bundling combined_format : bool) (allowed_options : gmap str opt)
  (arg_patterns : list arg_matcher) (forbidden : option str)
  (should_match should_not_match : list (list str)) : program_spec :=
  ProgramSpec program system_path option_bundling combined_format allowed_options
    arg_patterns forbidden
    (dom (filter (fun kv : str * opt => required kv.2 = true) allowed_options))
    should_match should_not_match.

(** ** Checking a call against a program *)

(** The variables of the loop over the arguments. *)
Record check_state := CheckState {
  expecting_option_value : option (str * arg_type);
  state_args : list positional_arg;
  matched_flags : list matched_flag;
  matched_opts : list matched_opt;
}.

Definition initial_state : check_state := CheckState None [] [] [].

Definition DASH : str := lit "-".

(** The body of the loop. *)
Definition check_arg (spec : program_spec) (st : check_state) (index : nat) (arg : str)
  : result error check_state :=
  match expecting_option_value st with
  | Some (name, t) =>
      if starts_with DASH arg then
        Err (OptionFollowedByOptionInsteadOfValue (program spec) name arg)
      else
        o ← new_matched_opt name arg t;
        Ok (CheckState None (state_args st) (matched_flags st) (matched_opts st ++ [o]))
  | None =>
      if str_eqb arg (lit "--") then Err (DoubleDashNotSupportedYet (program spec))
      else if starts_with DASH arg then
        match allowed_options spec !! arg with
        | Some o =>
            match meta o with
            | Flag =>
                Ok (CheckState None (state_args st) (matched_flags st ++ [MatchedFlag arg])
                               (matched_opts st))
            | Value t =>
                Ok (CheckState (Some (arg, t)) (state_args st) (matched_flags st)
                               (matched_opts st))
            end
        | None => Err (UnknownOption (program spec) arg)
        end
      else
        Ok (CheckState None (state_args st ++ [PositionalArg index arg]) (matched_flags st)
                       (matched_opts st))
  end.

Fixpoint check_args (spec : program_spec) (st : check_state) (index : nat)
  (args : list str) : result error check_state :=
  match args with
  | [] => Ok st
  | arg :: args' => st' ← check_arg spec st index arg; check_args spec st' (S index) args'
  end.

Definition matched_opt_names (os : list matched_opt) : gset str :=
  list_to_set (mopt_name <$> os).

Definition missing_options (spec : program_spec) (os : list matched_opt) : gset str :=
  required_options spec ∖ matched_opt_names os.

(** [ProgramSpec::check] *)
Definition check (spec : program_spec) (call : exec_call) : result fault matched_exec :=
  st ← map_err Fails (check_args spec initial_state 0 (call_args call));
  match expecting_option_value st with
  | Some (name, _) => Err (Fails (OptionMissingValue (program spec) name))
  | None =>
      matched_args ← resolve_observed_args_with_patterns (program spec) (state_args st)
                       (arg_patterns spec);
      if bool_decide (required_options spec ⊆ matched_opt_names (matched_opts st)) then
        let exec := ValidExec (program spec) (matched_flags st) (matched_opts st)
                              matched_args (system_path spec) in
        match forbidden spec with
        | Some reason => Ok (Forbidden (ForbiddenExec exec) reason)
        | None => Ok (Match exec)
        end
      else
        Err (Fails (MissingRequiredOptions (program spec)
               (sort_by str_leb (elements (missing_options spec (matched_opts st))))))
  end.

(** [verify_should_match_list] and [verify_should_not_match_list]: the examples of
    a program that are rejected, or accepted, against its author's expectation. *)
Record positive_example_failed_check := PositiveExampleFailedCheck {
  failed_program : str; failed_args : list str; failed_error : fault;
}.
Record negative_example_passed_check := NegativeExamplePassedCheck {
  passed_program : str; passed_args : list str;
}.

Definition verify_should_match_list (spec : program_spec)
  : list positive_example_failed_check :=
  omap (fun good => match check spec (ExecCall (program spec) good) with
                    | Ok _ => None
                    | Err e => Some (PositiveExampleFailedCheck (program spec) good e)
                    end) (should_match spec).

Definition verify_should_not_match_list (spec : program_spec)
  : list negative_example_passed_check :=
  omap (fun bad => if is_ok (check spec (ExecCall (program spec) bad))
                   then Some (NegativeExamplePassedCheck (program spec) bad) else None)
       (should_not_match spec).

(** ** Specification: how a program reads its arguments *)

(** [reads spec i args fs os ps]: from index [i] on, [args] are flags [fs], options
    [os] with their values, and positional arguments [ps]. *)
Inductive reads (spec : program_spec) :
  nat -> list str -> list matched_flag -> list matched_opt -> list positional_arg -> Prop :=
| reads_nil i : reads spec i [] [] [] []
| reads_flag i arg o rest fs os ps :
    arg <> lit "--" -> starts_with DASH arg = true ->
    allowed_options spec !! arg = Some o -> meta o = Flag ->
    reads spec (S i) rest fs os ps ->
    reads spec i (arg :: rest) (MatchedFlag arg :: fs) os ps
| reads_opt i arg o t value rest fs os ps :
    arg <> lit "--" -> starts_with DASH arg = true ->
    allowed_options spec !! arg = Some o -> meta o = Value t ->
    starts_with DASH value = false -> validate t value = Ok tt ->
    reads spec (S (S i)) rest fs os ps ->
    reads spec i (arg :: value :: rest) fs (MatchedOpt arg value t :: os) ps
| reads_positional i arg rest fs os ps :
    starts_with DASH arg = false ->
    reads spec (S i) rest fs os ps ->
    reads spec i (arg :: rest) fs os (PositionalArg i arg :: ps).

Lemma dash_dash : starts_with DASH (lit "--") = true.
Proof. reflexivity. Qed.

(** The same, in the middle of an option when its value is expected. *)
Definition reads_from (spec : program_spec) (expected : option (str * arg_type))
  (i : nat) (args : list str) fs os ps : Prop :=
  match expected with
  | None => reads spec i args fs os ps
  | Some (name, t) =>
      exists value rest os', args = value :: rest /\ os = MatchedOpt name value t :: os' /\
        starts_with DASH value = false /\ validate t value = Ok tt /\
        reads spec (S i) rest fs os' ps
  end.

(** ** Lemmas: the loop *)

Lemma new_matched_opt_Ok name value t o :
  new_matched_opt name value t = Ok o <->
  validate t value = Ok tt /\ o = MatchedOpt name value t.
Proof. unfold new_matched_opt. destruct (validate t value) as [[]|]; naive_solver. Qed.

Lemma check_args_reads spec args : forall st i st',
  check_args spec st i args = Ok st' -> expecting_option_value st' = None ->
  exists fs os ps, reads_from spec (expecting_option_value st) i args fs os ps /\
    st' = CheckState None (state_args st ++ ps) (matched_flags st ++ fs)
                     (matched_opts st ++ os).
Proof.
  induction args as [|arg args IH]; intros st i st' H Hnone.
  { injection H as <-. rewrite Hnone. exists [], [], [].
    split; [constructor|]. rewrite !app_nil_r. destruct st. simpl in *. by subst. }
  simpl in H. apply result_bind_Ok in H as (st1 & H1 & H).
  apply IH in H as (fs & os & ps & Hr & ->); [|done]. clear IH Hnone.
  unfold check_arg in H1. destruct (expecting_option_value st) as [[name t]|].
  - destruct (starts_with DASH arg) eqn:Hd; [done|].
    apply result_bind_Ok in H1 as (o & [Hv ->]%new_matched_opt_Ok & [= <-]).
    exists fs, (MatchedOpt name arg t :: os), ps. simpl in *.
    rewrite <- app_assoc. split; [|done]. by exists arg, args, os.
  - destruct (str_eqb arg (lit "--")) eqn:Hdd; [done|]. apply str_eqb_neq in Hdd.
    destruct (starts_with DASH arg) eqn:Hd.
    + destruct (allowed_options spec !! arg) as [o|] eqn:Ho; [|done].
      destruct (meta o) as [|t] eqn:Hm; injection H1 as <-; simpl in *.
      * exists (MatchedFlag arg :: fs), os, ps. rewrite <- app_assoc.
        split; [by eapply reads_flag|done].
      * destruct Hr as (value & rest & os' & -> & -> & Hnd & Hv & Hr).
        exists fs, (MatchedOpt arg value t :: os'), ps. split; [by eapply reads_opt|done].
    + injection H1 as <-. simpl in *. exists fs, os, (PositionalArg i arg :: ps).
      rewrite <- app_assoc. split; [by constructor|done].
Qed.

(** The step of the loop on each kind of argument. *)
Section check_arg.
Context (spec : program_spec) (st : check_state) (i : nat).

Lemma check_arg_dash arg o :
  expecting_option_value st = None -> arg <> lit "--" -> starts_with DASH arg = true ->
  allowed_options spec !! arg = Some o ->
  check_arg spec st i arg =
  match meta o with
  | Flag => Ok (CheckState None (state_args st) (matched_flags st ++ [MatchedFlag arg])
                           (matched_opts st))
  | Value t => Ok (CheckState (Some (arg, t)) (state_args st) (matched_flags st)
                              (matched_opts st))
  end.
Proof.
  intros Hst Hdd Hd Ho. unfold check_arg.
  by rewrite Hst, (proj2 (str_eqb_neq _ _) Hdd), Hd, Ho.
Qed.

Lemma check_arg_value name t value :
  expecting_option_value st = Some (name, t) ->
  starts_with DASH value = false -> validate t value = Ok tt ->
  check_arg spec st i value
  = Ok (CheckState None (state_args st) (matched_flags st)
                   (matched_opts st ++ [MatchedOpt name value t])).
Proof.
  intros Hst Hd Hv. unfold check_arg. rewrite Hst, Hd.
  by rewrite (proj2 (new_matched_opt_Ok _ _ _ _) (conj Hv eq_refl)).
Qed.

Lemma check_arg_positional arg :
  expecting_option_value st = None -> starts_with DASH arg = false ->
  check_arg spec st i arg
  = Ok (CheckState None (state_args st ++ [PositionalArg i arg]) (matched_flags st)
                   (matched_opts st)).
Proof.
  intros Hst Hd. unfold check_arg. rewrite Hst, Hd.
  destruct (str_eqb arg (lit "--")) eqn:E; [|done].
  apply str_eqb_eq in E as ->. by rewrite dash_dash in Hd.
Qed.
End check_arg.

Lemma reads_check_args spec i args fs os ps :
  reads spec i args fs os ps -> forall st, expecting_option_value st = None ->
  check_args spec st i args
  = Ok (CheckState None (state_args st ++ ps) (matched_flags st ++ fs) (matched_opts st ++ os)).
Proof.
  induction 1 as [i|i arg o rest fs os ps Hdd Hd Ho Hm _ IH
                 |i arg o t value rest fs os ps Hdd Hd Ho Hm Hnd Hv _ IH
                 |i arg rest fs os ps Hd _ IH]; intros st Hst; cbn [check_args].
  - rewrite !app_nil_r. destruct st. simpl in *. by subst.
  - rewrite (check_arg_dash _ _ _ _ o), Hm by done. cbn [mbind result_bind].
    rewrite IH by done. simpl. by rewrite <- app_assoc.
  - rewrite (check_arg_dash _ _ _ _ o), Hm by done. cbn [mbind result_bind].
    rewrite (check_arg_value _ _ _ arg t) by done. cbn [mbind result_bind].
    rewrite IH by done. simpl. by rewrite <- app_assoc.
  - rewrite check_arg_positional by done. cbn [mbind result_bind].
    rewrite IH by done. simpl. by rewrite <- app_assoc.
Qed.

(** ** What a program specification accepts *)

Inductive accepts (spec : program_spec) (call : exec_call) : valid_exec -> Prop :=
| accepts_intro fs os ps ms :
    reads spec 0 (call_args call) fs os ps ->
    at_most_one_vararg (arg_patterns spec) ->
    matches (arg_patterns spec) ps ms ->
    required_options spec ⊆ matched_opt_names os ->
    accepts spec call (ValidExec (program spec) fs os ms (system_path spec)).

Definition verdict (spec : program_spec) (e : valid_exec) : matched_exec :=
  match forbidden spec with
  | Some reason => Forbidden (ForbiddenExec e) reason
  | None => Match e
  end.

Lemma reads_functional spec i args fs os ps fs' os' ps' :
  reads spec i args fs os ps -> reads spec i args fs' os' ps' ->
  fs = fs' /\ os = os' /\ ps = ps'.
Proof.
  intros H H'. pose proof (reads_check_args _ _ _ _ _ _ H initial_state eq_refl) as E.
  rewrite (reads_check_args _ _ _ _ _ _ H' initial_state eq_refl) in E. simpl in E.
  by injection E as -> -> ->.
Qed.

Lemma check_args_initial spec args st :
  check_args spec initial_state 0 args = Ok st -> expecting_option_value st = None ->
  reads spec 0 args (matched_flags st) (matched_opts st) (state_args st).
Proof.
  intros H Hnone. apply check_args_reads in H as (fs & os & ps & Hr & ->); done.
Qed.

Lemma check_cases spec call :
  match check spec call with
  | Ok m => exists e, accepts spec call e /\ m = verdict spec e /\
      forall e', accepts spec call e' -> e' = e
  | Err f => f <> Panics /\ forall e, ~ accepts spec call e
  end.
Proof.
  unfold check. destruct (check_args spec initial_state 0 (call_args call)) as [st|e] eqn:Hst.
  2: { split; [done|]. intros e' [fs os ps ms Hr _ _ _].
       by rewrite (reads_check_args _ _ _ _ _ _ Hr initial_state eq_refl) in Hst. }
  cbn [map_err mbind result_bind].
  assert (Hreads : forall fs os ps, reads spec 0 (call_args call) fs os ps ->
    st = CheckState None ps fs os).
  { intros fs os ps Hr. rewrite (reads_check_args _ _ _ _ _ _ Hr initial_state eq_refl) in Hst.
    by injection Hst as <-. }
  destruct (expecting_option_value st) as [[name t]|] eqn:Hexp.
  { split; [done|]. intros e' [fs os ps ms Hr _ _ _]. apply Hreads in Hr. by subst. }
  pose proof (check_args_initial _ _ _ Hst Hexp) as Hr0.
  pose proof (resolve_cases (program spec) (state_args st) (arg_patterns spec)) as Hres.
  destruct (resolve_observed_args_with_patterns _ _ _) as [ms|f]; cbn [mbind result_bind].
  2: { destruct Hres as [Hf Hres]. split; [done|]. intros e' [fs os ps ms Hr Hone Hm _].
       apply Hreads in Hr as ->. eauto. }
  destruct Hres as (Hone & Hm & Huniq). case_bool_decide as Hreq.
  - assert (Hacc : accepts spec call (ValidExec (program spec) (matched_flags st)
      (matched_opts st) ms (system_path spec))) by (by econstructor).
    assert (Hall : forall e', accepts spec call e' -> e' = ValidExec (program spec)
      (matched_flags st) (matched_opts st) ms (system_path spec)).
    { intros e' [fs os ps ms' Hr _ Hm' _]. apply Hreads in Hr as ->. simpl in *.
      by rewrite (Huniq _ Hm'). }
    unfold verdict. destruct (forbidden spec); eauto.
  - split; [done|]. intros e' [fs os ps ms' Hr _ _ Hreq']. by apply Hreads in Hr as ->.
Qed.

(** ** Every argument is accounted for *)

(** What an execution says about a list of arguments. *)
Definition accounted (e : valid_exec) : list str :=
  (mflag_name <$> flags e) ++ (opts e ≫= fun o => [mopt_name o; mopt_value o])
  ++ (marg_value <$> args e).

Lemma reads_permutation spec i args fs os ps :
  reads spec i args fs os ps ->
  Permutation args ((mflag_name <$> fs) ++ (os ≫= fun o => [mopt_name o; mopt_value o])
                    ++ (pos_value <$> ps)).
Proof.
  induction 1 as [i|i arg o rest fs os ps _ _ _ _ _ IH
                 |i arg o t value rest fs os ps _ _ _ _ _ _ _ IH
                 |i arg rest fs os ps _ _ IH]; cbn; [done|by constructor| |].
  - rewrite IH at 1. solve_Permutation.
  - rewrite IH at 1. solve_Permutation.
Qed.

Lemma reads_indices spec i args fs os ps :
  reads spec i args fs os ps ->
  Forall (fun p => i <= pos_index p /\ args !! (pos_index p - i) = Some (pos_value p)) ps.
Proof.
  induction 1 as [i|i arg o rest fs os ps _ _ _ _ _ IH
                 |i arg o t value rest fs os ps _ _ _ _ _ _ _ IH
                 |i arg rest fs os ps _ _ IH]; [done|..].
  - eapply Forall_impl; [done|]. intros p [Hi Hp]. split; [lia|].
    by replace (pos_index p - i) with (S (pos_index p - S i)) by lia.
  - eapply Forall_impl; [done|]. intros p [Hi Hp]. split; [lia|].
    by replace (pos_index p - i) with (S (S (pos_index p - S (S i)))) by lia.
  - constructor; [split; [done|]; by rewrite Nat.sub_diag|].
    eapply Forall_impl; [done|]. intros p [Hi Hp]. split; [lia|].
    by replace (pos_index p - i) with (S (pos_index p - S i)) by lia.
Qed.

Lemma matches_values ms ps out :
  matches ms ps out ->
  marg_value <$> out = pos_value <$> ps /\ marg_index <$> out = pos_index <$> ps /\
  Forall (fun a => validate (marg_type a) (marg_value a) = Ok tt) out.
Proof.
  induction 1 as [|m ms taken rest out _ Hv _ (IH1 & IH2 & IH3)]; [done|].
  rewrite !fmap_app, IH1, IH2, <- !list_fmap_compose. split_and!; [done..|].
  apply Forall_app. split; [|done]. by apply Forall_fmap.
Qed.

Lemma reads_allowed spec i args fs os ps :
  reads spec i args fs os ps ->
  Forall (fun f => exists o, allowed_options spec !! mflag_name f = Some o /\ meta o = Flag) fs /\
  Forall (fun mo => exists o, allowed_options spec !! mopt_name mo = Some o /\
    meta o = Value (mopt_type mo) /\ validate (mopt_type mo) (mopt_value mo) = Ok tt) os.
Proof. induction 1; naive_solver. Qed.

(** ** Policies *)

Section policy.
(** [regex_lite]: compiled expressions, [Regex::new] ([None] on an error),
    [is_match] and [escape]. *)
Context {regex : Type} (regex_new : str -> option regex) (is_match : regex -> str -> bool)
  (escape : str -> str).

Record forbidden_program_regex := ForbiddenProgramRegex {
  prog_regex : regex; reason : str;
}.

(** [MultiMap]: the values of a key in insertion order. *)
Record policy := Policy {
  programs : gmap str (list program_spec);
  forbidden_program_regexes : list forbidden_program_regex;
  forbidden_substrings_pattern : option regex;
}.

(** [Policy::new] *)
Definition new_policy (programs : gmap str (list program_spec))
  (forbidden_program_regexes : list forbidden_program_regex)
  (forbidden_substrings : list str) : option policy :=
  match forbidden_substrings with
  | [] => Some (Policy programs forbidden_program_regexes None)
  | _ =>
      let escaped_substrings := join (lit "|") (escape <$> forbidden_substrings) in
      r ← regex_new (lit "(" ++ escaped_substrings ++ lit ")");
      Some (Policy programs forbidden_program_regexes (Some r))
  end.

(** The two loops that forbid a call before any program is looked up. *)
Fixpoint forbidden_by_program (rs : list forbidden_program_regex) (call : exec_call)
  : option matched_exec :=
  match rs with
  | [] => None
  | r :: rs' =>
      if is_match (prog_regex r) (call_program call)
      then Some (Forbidden (ForbiddenProgram (call_program call) call) (reason r))
      else forbidden_by_program rs' call
  end.

Fixpoint forbidden_by_arg (pattern : option regex) (args : list str) (call : exec_call)
  : option matched_exec :=
  match args with
  | [] => None
  | arg :: args' =>
      match pattern with
      | Some r =>
          if is_match r arg
          then Some (Forbidden (ForbiddenArg arg call)
                       (lit "arg `" ++ arg ++ lit "` contains forbidden substring"))
          else forbidden_by_arg pattern args' call
      | None => forbidden_by_arg pattern args' call
      end
  end.

(** The first specification that accepts; else the last error. *)
Fixpoint check_specs (specs : list program_spec) (call : exec_call)
  (last_err : result fault matched_exec) : result fault matched_exec :=
  match specs with
  | [] => last_err
  | spec :: specs' =>
      match check spec call with
      | Ok matched => Ok matched
      | Err e => check_specs specs' call (Err e)
      end
  end.

(** [Policy::check] *)
Definition policy_check (p : policy) (call : exec_call) : result fault matched_exec :=
  match forbidden_by_program (forbidden_program_regexes p) call with
  | Some m => Ok m
  | None =>
      match forbidden_by_arg (forbidden_substrings_pattern p) (call_args call) call with
      | Some m => Ok m
      | None =>
          let last_err := Err (Fails (NoSpecForProgram (call_program call))) in
          match programs p !! call_program call with
          | Some spec_list => check_specs spec_list call last_err
          | None => last_err
          end
      end
  end.

(** [check_command] of the command-line tool: its output and exit code;
    [require_safe] is its flag [--require-safe]. *)
Inductive output :=
| OutSafe (exec : valid_exec)
| OutMatch (exec : valid_exec)
| OutForbidden (cause : forbidden_cause) (reason : str)
| OutUnverified (f : fault).

Definition MATCHED_BUT_WRITES_FILES_EXIT_CODE : N := 12.
Definition MIGHT_BE_SAFE_EXIT_CODE : N := 13.
Definition FORBIDDEN_EXIT_CODE : N := 14.

Definition check_command (p : policy) (call : exec_call) (require_safe : bool)
  : output * N :=
  match policy_check p call with
  | Ok (Match exec) =>
      if might_write_files exec then
        (OutMatch exec, if require_safe then MATCHED_BUT_WRITES_FILES_EXIT_CODE else 0%N)
      else (OutSafe exec, 0%N)
  | Ok (Forbidden cause reason) =>
      (OutForbidden cause reason, if require_safe then FORBIDDEN_EXIT_CODE else 0%N)
  | Err f => (OutUnverified f, if require_safe then MIGHT_BE_SAFE_EXIT_CODE else 0%N)
  end.

Definition all_specs (p : policy) : list program_spec :=
  map_to_list (programs p) ≫= snd.

(** [check_each_good_list_individually], [check_each_bad_list_individually] *)
Definition check_each_good_list_individually (p : policy)
  : list positive_example_failed_check :=
  all_specs p ≫= verify_should_match_list.
Definition check_each_bad_list_individually (p : policy)
  : list negative_example_passed_check :=
  all_specs p ≫= verify_should_not_match_list.

(** [Vec::dedup] *)
Fixpoint dedup (l : list (list str)) : list (list str) :=
  match l with
  | x :: ((y :: _) as l') => if bool_decide (x = y) then dedup l' else x :: dedup l'
  | _ => l
  end.

Fixpoint strs_leb (a b : list str) : bool :=
  match a, b with
  | [], _ => true
  | _ :: _, [] => false
  | x :: a', y :: b' => if str_eqb x y then strs_leb a' b' else str_leb x y
  end.

Definition get_allowed_prefixes (p : policy) : list (list str) :=
  dedup (sort_by strs_leb
    (map_to_list (programs p) ≫= fun kv => (fun _ => [kv.1]) <$> kv.2)).

(** ** Building a policy: the built-in functions of a policy file *)

Record policy_builder := PolicyBuilder {
  b_programs : gmap str (list program_spec);
  b_regexes : list forbidden_program_regex;
  b_substrings : list str;
}.

Definition new_builder : policy_builder := PolicyBuilder ∅ [] [].

Definition build (b : policy_builder) : option policy :=
  new_policy (b_programs b) (b_regexes b) (b_substrings b).

Definition add_program_spec (b : policy_builder) (spec : program_spec) : policy_builder :=
  PolicyBuilder
    (<[program spec := default [] (b_programs b !! program spec) ++ [spec]]> (b_programs b))
    (b_regexes b) (b_substrings b).

Definition add_forbidden_substrings (b : policy_builder) (ss : list str) : policy_builder :=
  PolicyBuilder (b_programs b) (b_regexes b) (b_substrings b ++ ss).

Definition add_forbidden_program_regex (b : policy_builder) (r : regex) (reason : str)
  : policy_builder :=
  PolicyBuilder (b_programs b) (b_regexes b ++ [ForbiddenProgramRegex r reason])
                (b_substrings b).

(** The loop of [define_program] over its options. *)
Fixpoint collect_options (os : list opt) (allowed : gmap str opt)
  : result str (gmap str opt) :=
  match os with
  | [] => Ok allowed
  | o :: os' =>
      match allowed !! opt_name o with
      | Some _ => Err (lit "duplicate flag: " ++ opt_name o)
      | None => collect_options os' (<[opt_name o := o]> allowed)
      end
  end.

Definition define_program (b : policy_builder) (program : str)
  (system_path : option (list str)) (option_bundling combined_format : option bool)
  (options : option (list opt)) (args : option (list arg_matcher))
  (forbidden : option str) (should_match should_not_match : option (list (list str)))
  : result str policy_builder :=
  allowed ← collect_options (default [] options) ∅;
  Ok (add_program_spec b
        (new_program_spec program (default [] system_path)
           (default false option_bundling) (default false combined_format) allowed
           (default [] args) forbidden (default [] should_match)
           (default [] should_not_match))).

Definition forbid_substrings (b : policy_builder) (strings : list str) : policy_builder :=
  add_forbidden_substrings b strings.

Definition forbid_program_regex (b : policy_builder) (regex reason : str)
  : option policy_builder :=
  r ← regex_new regex; Some (add_forbidden_program_regex b r reason).
End policy.

(** [opt] and [flag] of a policy file. *)
Definition make_opt (name : str) (t : arg_matcher) (required : option bool) : opt :=
  Opt name (Value (matcher_type t)) (default false required).
Definition make_flag (name : str) : opt := Opt name Flag false.

Arguments policy : clear implicits.
Arguments forbidden_program_regex : clear implicits.
Arguments policy_builder : clear implicits.

(** ** Checking the files of an execution *)

Section choose.
(** [is_executable_file]: the file system's answer. *)
Context (is_executable_file : str -> bool).

(** [for system_path in ..]: the first one that is an executable file. *)
Definition choose_program (e : valid_exec) : str :=
  default (vexec_program e) (list_find (fun p => is_executable_file p = true)
                               (vexec_system_path e) ≫= fun x => Some x.2).

Lemma choose_program_spec e prog :
  @Ok error _ (choose_program e) = Ok prog <->
  prog = vexec_program e /\
    Forall (fun p => is_executable_file p = false) (vexec_system_path e) \/
  exists pre post, vexec_system_path e = pre ++ prog :: post /\
    Forall (fun p => is_executable_file p = false) pre /\ is_executable_file prog = true.
Proof.
  unfold choose_program.
  destruct (list_find _ (vexec_system_path e)) as [[i x]|] eqn:E; simpl.
  - apply list_find_Some in E as (Hi & Hx & Hbefore). split.
    + intros [= ->]. right. exists (take i (vexec_system_path e)),
        (drop (S i) (vexec_system_path e)). split_and!; [by rewrite take_drop_middle| |done].
      apply Forall_lookup. intros j y Hj. apply lookup_take_Some in Hj as [Hj Hlt].
      specialize (Hbefore _ _ Hj Hlt). by destruct (is_executable_file y).
    + intros [[_ Hall]|(pre & post & Hp & Hpre & Hprog)].
      * rewrite Forall_lookup in Hall. rewrite (Hall _ _ Hi) in Hx. done.
      * f_equal. assert (i = length pre) as ->.
        { destruct (Nat.lt_trichotomy i (length pre)) as [Hlt|[?|Hlt]]; [|done|].
          - rewrite Hp, lookup_app_l in Hi by done. rewrite Forall_lookup in Hpre.
            by rewrite (Hpre _ _ Hi) in Hx.
          - destruct (Hbefore (length pre) prog); [|done..].
            by rewrite Hp, list_lookup_middle. }
        rewrite Hp, list_lookup_middle in Hi by done. by simplify_eq.
  - apply list_find_None in E. split.
    + intros [= <-]. left. split; [done|]. eapply Forall_impl; [done|].
      intros x Hx. simpl in Hx. by destruct (is_executable_file x).
    + intros [[-> _]|(pre & post & Hp & _ & Hprog)]; [done|].
      rewrite Hp, Forall_app, Forall_cons in E. naive_solver.
Qed.

End choose.

Section checker.
(** [absolutize_from] and [absolutize]. *)
Context (absolutize_from : str -> str -> result io_kind str)
  (absolutize : str -> result io_kind str).

Definition ensure_absolute_path (path : str) (cwd : option str) : result error str :=
  match is_absolute path, cwd with
  | false, None => Err (CannotCheckRelativePath path)
  | false, Some cwd => map_err (CannotCanonicalizePath path) (absolutize_from path cwd)
  | true, _ => map_err (CannotCanonicalizePath path) (absolutize path)
  end.

(** [folders.iter().any(|folder| file.starts_with(folder))] *)
Definition in_folders (file : str) (folders : list str) : bool :=
  existsb (path_starts_with file) folders.

Definition check_file (cwd : option str) (readable_folders writeable_folders : list str)
  (t : arg_type) (value : str) : result error unit :=
  match t with
  | TReadableFile =>
      file ← ensure_absolute_path value cwd;
      if in_folders file readable_folders then Ok tt
      else Err (ReadablePathNotInReadableFolders file readable_folders)
  | TWriteableFile =>
      file ← ensure_absolute_path value cwd;
      if in_folders file writeable_folders then Ok tt
      else Err (WriteablePathNotInWriteableFolders file writeable_folders)
  | TOpaqueNonFile | TUnknown | TPositiveInteger | TSedCommand | TLiteral _ => Ok tt
  end.

Fixpoint check_files (cwd : option str) (readable_folders writeable_folders : list str)
  (items : list (arg_type * str)) : result error unit :=
  match items with
  | [] => Ok tt
  | (t, value) :: items' =>
      _ ← check_file cwd readable_folders writeable_folders t value;
      check_files cwd readable_folders writeable_folders items'
  end.

(** The typed values of an execution, arguments first. *)
Definition typed_values (e : valid_exec) : list (arg_type * str) :=
  ((fun a => (marg_type a, marg_value a)) <$> args e)
  ++ ((fun o => (mopt_type o, mopt_value o)) <$> opts e).

(** A value that the checker has verified. *)
Definition file_allowed (cwd : option str) (readable_folders writeable_folders : list str)
  (item : arg_type * str) : Prop :=
  match item.1 with
  | TReadableFile => exists file folder, ensure_absolute_path item.2 cwd = Ok file /\
      folder ∈ readable_folders /\ path_starts_with file folder = true
  | TWriteableFile => exists file folder, ensure_absolute_path item.2 cwd = Ok file /\
      folder ∈ writeable_folders /\ path_starts_with file folder = true
  | _ => True
  end.

Lemma in_folders_spec file folders :
  in_folders file folders = true <->
  exists folder, folder ∈ folders /\ path_starts_with file folder = true.
Proof.
  unfold in_folders. rewrite existsb_exists. by setoid_rewrite list_elem_of_In.
Qed.

Lemma check_file_spec cwd rs ws t value :
  match check_file cwd rs ws t value with
  | Ok _ => file_allowed cwd rs ws (t, value)
  | Err _ => ~ file_allowed cwd rs ws (t, value)
  end.
Proof.
  unfold check_file, file_allowed.
  assert (Hin : forall file folders, if in_folders file folders
    then exists folder, folder ∈ folders /\ path_starts_with file folder = true
    else ~ exists folder, folder ∈ folders /\ path_starts_with file folder = true).
  { intros file folders. pose proof (in_folders_spec file folders) as H.
    destruct (in_folders file folders); naive_solver. }
  destruct t; simpl; try done;
    (destruct (ensure_absolute_path value cwd) as [file|e]; simpl; [|naive_solver]).
  - specialize (Hin file rs). destruct (in_folders file rs); naive_solver.
  - specialize (Hin file ws). destruct (in_folders file ws); naive_solver.
Qed.

Lemma check_files_spec cwd rs ws items :
  match check_files cwd rs ws items with
  | Ok _ => Forall (file_allowed cwd rs ws) items
  | Err _ => ~ Forall (file_allowed cwd rs ws) items
  end.
Proof.
  induction items as [|[t value] items IH]; simpl; [done|].
  pose proof (check_file_spec cwd rs ws t value) as H.
  destruct (check_file cwd rs ws t value); simpl.
  - destruct (check_files cwd rs ws items); [by constructor|].
    by intros [_ ?]%Forall_cons.
  - by intros [? _]%Forall_cons.
Qed.
(** [ExecvChecker::check] *)
Definition execv_check (is_executable_file : str -> bool) (e : valid_exec) (cwd : option str)
  (readable_folders writeable_folders : list str) : result error str :=
  _ ← check_files cwd readable_folders writeable_folders (typed_values e);
  Ok (choose_program is_executable_file e).

End checker.

(** ** Lemmas: policies *)

Section policy_lemmas.
Context {regex : Type} (regex_new : str -> option regex) (is_match : regex -> str -> bool)
  (escape : str -> str).
Implicit Types (p : policy regex) (call : exec_call).

Lemma forbidden_by_program_None rs call :
  forbidden_by_program is_match rs call = None <->
  Forall (fun r => is_match (prog_regex r) (call_program call) = false) rs.
Proof.
  induction rs as [|r rs IH]; simpl; [done|]. rewrite Forall_cons, <- IH.
  destruct (is_match (prog_regex r) (call_program call)); naive_solver.
Qed.

Lemma forbidden_by_program_not_Match rs call e :
  forbidden_by_program is_match rs call <> Some (Match e).
Proof. induction rs as [|r rs IH]; simpl; [done|]. by case_match. Qed.

Lemma forbidden_by_arg_None pattern args call :
  forbidden_by_arg is_match pattern args call = None <->
  (forall r, pattern = Some r -> Forall (fun arg => is_match r arg = false) args).
Proof.
  destruct pattern as [r|].
  - induction args as [|arg args IH]; simpl; [naive_solver|].
    destruct (is_match r arg) eqn:E.
    + split; [done|]. intros H. specialize (H r eq_refl).
      apply Forall_cons in H as [H _]. congruence.
    + rewrite IH. split; intros H r' [= <-]; specialize (H r eq_refl).
      * by constructor.
      * by apply Forall_cons in H as [_ H].
  - split; [done|]. intros _. by induction args.
Qed.

Lemma forbidden_by_arg_not_Match pattern args call e :
  forbidden_by_arg is_match pattern args call <> Some (Match e).
Proof. induction args as [|arg args IH]; simpl; [done|]. by repeat case_match. Qed.

(** The specifications are tried in order. *)
Definition rejects (call : exec_call) (spec : program_spec) : Prop :=
  forall e, ~ accepts spec call e.

Lemma check_specs_Ok specs call last m :
  check_specs specs call last = Ok m ->
  last = Ok m \/
  exists pre spec post e, specs = pre ++ spec :: post /\ Forall (rejects call) pre /\
    accepts spec call e /\ m = verdict spec e.
Proof.
  revert last. induction specs as [|spec specs IH]; intros last; simpl; [by left|].
  pose proof (check_cases spec call) as Hc. destruct (check spec call) as [m'|f].
  - intros [= <-]. destruct Hc as (e & He & -> & _). right. by exists [], spec, specs, e.
  - intros [?|(pre & s & post & e & -> & Hpre & He & ->)]%IH; [done|]. right.
    exists (spec :: pre), s, post, e. split_and!; [done| |done..].
    constructor; [|done]. intros e'. by apply Hc.
Qed.

Lemma check_specs_Err specs call last f :
  check_specs specs call last = Err f ->
  Forall (rejects call) specs /\
  (specs = [] /\ last = Err f \/
   exists spec, list.last specs = Some spec /\ check spec call = Err f).
Proof.
  revert last. induction specs as [|spec specs IH]; intros last; simpl; [by auto|].
  pose proof (check_cases spec call) as Hc. destruct (check spec call) as [m'|f'] eqn:E.
  { done. }
  intros [Hall Hlast]%IH. destruct Hc as [_ Hc]. split; [by constructor|]. right.
  destruct Hlast as [[-> [= ->]]|(s & Hs & Hf)]; [by exists spec|].
  exists s. split; [|done]. destruct specs; [done|]. exact Hs.
Qed.

Lemma check_not_Panics spec call : check spec call <> Err Panics.
Proof. intros E. pose proof (check_cases spec call) as H. rewrite E in H. naive_solver. Qed.

End policy_lemmas.

(** ** Lemmas: building *)

Lemma collect_options_spec os allowed :
  match collect_options os allowed with
  | Ok m => NoDup (opt_name <$> os) /\
      (forall o, o ∈ os -> allowed !! opt_name o = None /\ m !! opt_name o = Some o) /\
      (forall k, k ∉ opt_name <$> os -> m !! k = allowed !! k)
  | Err msg => ~ (NoDup (opt_name <$> os) /\
      forall o, o ∈ os -> allowed !! opt_name o = None)
  end.
Proof.
  revert allowed. induction os as [|o os IH]; intros allowed; simpl.
  { split_and!; [constructor| |done]. by intros ? ?%not_elem_of_nil. }
  destruct (allowed !! opt_name o) as [o'|] eqn:E.
  { intros [_ H]. specialize (H o ltac:(set_solver)). congruence. }
  specialize (IH (<[opt_name o := o]> allowed)).
  destruct (collect_options os _) as [m|msg].
  - destruct IH as (Hnd & Hin & Hout).
    assert (Hno : opt_name o ∉ opt_name <$> os).
    { intros (o' & Ho & Hin')%list_elem_of_fmap. apply Hin in Hin' as [Hn _].
      rewrite <- Ho, lookup_insert_eq in Hn. done. }
    split_and!; [by constructor| |].
    + intros o' [->|Ho']%elem_of_cons.
      * split; [done|]. by rewrite Hout, lookup_insert_eq.
      * destruct (Hin _ Ho') as [Hn Hs]. by apply lookup_insert_None in Hn as [Hn _].
    + intros k [Hk1 Hk2]%not_elem_of_cons. by rewrite Hout, lookup_insert_ne.
  - intros [[Hno Hnd]%NoDup_cons Hall]. apply IH. split; [done|].
    intros o' Ho'. rewrite lookup_insert_ne; [apply Hall; set_solver|].
    intros Heq. apply Hno. rewrite Heq. by apply list_elem_of_fmap_2.
Qed.

(** ** Lemmas: files that may be written *)

Lemma might_write_file_false t :
  might_write_file t = false <-> t <> TWriteableFile /\ t <> TUnknown.
Proof. destruct t; naive_solver. Qed.

Lemma might_write_files_typed e :
  might_write_files e = false <->
  Forall (fun tv => tv.1 <> TWriteableFile /\ tv.1 <> TUnknown) (typed_values e).
Proof.
  unfold might_write_files, typed_values.
  rewrite orb_false_iff, !existsb_false, Forall_app, !Forall_fmap. unfold compose. simpl.
  setoid_rewrite might_write_file_false. tauto.
Qed.

(** ** Properties *)

(** C25: [ProgramSpec::check] implements its specification exactly, and never
    panics: it accepts a call if and only if the arguments read as allowed flags,
    allowed options with valid values and positional arguments that the patterns
    match, with every required option present; the verdict is then a match, or
    forbidden when the specification says so. *)
Theorem check_iff spec call :
  (forall m, check spec call = Ok m <-> exists e, accepts spec call e /\ m = verdict spec e) /\
  check spec call <> Err Panics.
Proof.
  split; [|apply check_not_Panics]. intros m. pose proof (check_cases spec call) as H. split.
  - intros E. rewrite E in H. naive_solver.
  - intros (e & He & ->). destruct (check spec call) as [m'|f].
    + destruct H as (e' & _ & -> & H). by rewrite (H e He).
    + destruct H as [_ H]. by apply H in He.
Qed.

(** An accepted execution accounts for the whole command line: the arguments
    are, up to order, its flags, its options with their values and its positional
    arguments; every flag and option is one the specification allows, every value
    is valid for its type, every positional argument is at its index, and no
    argument is [--]. *)
Theorem accepted_accounts spec call e :
  accepts spec call e ->
  Permutation (call_args call) (accounted e) /\ lit "--" ∉ call_args call /\
  Forall (fun f => exists o, allowed_options spec !! mflag_name f = Some o /\ meta o = Flag)
         (flags e) /\
  Forall (fun mo => exists o, allowed_options spec !! mopt_name mo = Some o /\
    meta o = Value (mopt_type mo) /\ validate (mopt_type mo) (mopt_value mo) = Ok tt) (opts e) /\
  Forall (fun a => call_args call !! marg_index a = Some (marg_value a) /\
    validate (marg_type a) (marg_value a) = Ok tt) (args e).
Proof.
  intros [fs os ps ms Hr _ Hm _]. unfold accounted. simpl.
  apply matches_values in Hm as (Hv & Hi & Hval). rewrite Hv.
  pose proof (reads_allowed _ _ _ _ _ _ Hr) as [Hf Ho].
  split_and!; [by eapply reads_permutation| |done|done|].
  - clear -Hr. induction Hr; [apply not_elem_of_nil|..];
      repeat (apply not_elem_of_cons; split); try done; intros <-; by rewrite dash_dash in *.
  - apply reads_indices in Hr. apply Forall_forall. intros a Ha. split.
    + apply list_elem_of_lookup in Ha as [k Hk].
      assert (Hk1 : (marg_value <$> ms) !! k = Some (marg_value a)) by (by rewrite list_lookup_fmap, Hk).
      assert (Hk2 : (marg_index <$> ms) !! k = Some (marg_index a)) by (by rewrite list_lookup_fmap, Hk).
      rewrite Hv in Hk1. rewrite Hi in Hk2. rewrite list_lookup_fmap in Hk1.
      rewrite list_lookup_fmap in Hk2.
      destruct (ps !! k) as [p|] eqn:Hp; simplify_eq/=.
      rewrite Forall_lookup in Hr. destruct (Hr _ _ Hp) as [_ Hx].
      rewrite Nat.sub_0_r in Hx. congruence.
    + by apply (proj1 (Forall_forall _ _) Hval).
Qed.

Section policy_properties.
Context {regex : Type} (regex_new : str -> option regex) (is_match : regex -> str -> bool)
  (escape : str -> str).

(** A call that a policy matches is safe by the policy: no forbidden program
    expression matches the program, no argument contains a forbidden substring,
    and the execution comes from the first specification of the program, in
    definition order, that accepts the call, which is not a forbidden one.  It is
    assumed of [regex_lite] that the alternation of the escaped substrings
    matches exactly the strings that contain one of them. *)
Theorem policy_match_sound progs rs subs p call e :
  (forall r, regex_new (lit "(" ++ join (lit "|") (escape <$> subs) ++ lit ")") = Some r ->
     forall arg, is_match r arg = existsb (fun s => str_contains s arg) subs) ->
  new_policy regex_new escape progs rs subs = Some p ->
  policy_check is_match p call = Ok (Match e) ->
  Forall (fun r => is_match (prog_regex r) (call_program call) = false) rs /\
  Forall (fun arg => Forall (fun s => str_contains s arg = false) subs) (call_args call) /\
  exists pre spec post, progs !! call_program call = Some (pre ++ spec :: post) /\
    Forall (rejects call) pre /\ accepts spec call e /\ forbidden spec = None.
Proof.
  intros Hregex Hp Hc. unfold policy_check in Hc.
  assert (Hfields : programs p = progs /\ forbidden_program_regexes p = rs /\
    forall r, subs <> [] -> forbidden_substrings_pattern p = Some r ->
      regex_new (lit "(" ++ join (lit "|") (escape <$> subs) ++ lit ")") = Some r).
  { unfold new_policy in Hp. destruct subs; [by simplify_eq|].
    apply bind_Some in Hp as (r & Hr & [= <-]). split_and!; [done..|].
    intros r' _ Hr'. simpl in Hr'. congruence. }
  assert (Hsome : subs <> [] -> is_Some (forbidden_substrings_pattern p)).
  { unfold new_policy in Hp. destruct subs; [done|].
    apply bind_Some in Hp as (r & Hr & [= <-]). intros _. by exists r. }
  destruct Hfields as (<- & <- & Hpat).
  destruct (forbidden_by_program _ _ _) as [m|] eqn:E1.
  { injection Hc as ->. by apply forbidden_by_program_not_Match in E1. }
  destruct (forbidden_by_arg _ _ _ _) as [m|] eqn:E2.
  { injection Hc as ->. by apply forbidden_by_arg_not_Match in E2. }
  apply forbidden_by_program_None in E1. split; [done|].
  rewrite forbidden_by_arg_None in E2. split.
  - destruct (decide (subs = [])) as [->|Hne]; [by apply Forall_true; constructor|].
    destruct (Hsome Hne) as [r Hr]. specialize (E2 r Hr).
    eapply Forall_impl; [exact E2|]. intros arg Harg. simpl in Harg.
    rewrite (Hregex r (Hpat r Hne Hr)) in Harg. apply Forall_forall. intros s Hs.
    destruct (str_contains s arg) eqn:E; [|done]. rewrite <- Harg. symmetry.
    apply existsb_exists. exists s. split; [by apply list_elem_of_In|done].
  - destruct (programs p !! call_program call) as [specs|]; [|done].
    apply check_specs_Ok in Hc as [?|(pre & spec & post & e' & -> & Hpre & He & Hm)]; [done|].
    exists pre, spec, post. unfold verdict in Hm.
    destruct (forbidden spec) eqn:Hf; simplify_eq. done.
Qed.

(** The tool run with [--require-safe] exits with 0 exactly for the calls that
    the policy matches with an execution that can write no file: none of its
    arguments and none of its option values has the type of a written file or an
    unknown type. *)
Theorem exit_code_safe (p : policy regex) call :
  (check_command is_match p call true).2 = 0%N <->
  exists e, policy_check is_match p call = Ok (Match e) /\
    Forall (fun tv => tv.1 <> TWriteableFile /\ tv.1 <> TUnknown) (typed_values e).
Proof.
  unfold check_command. destruct (policy_check is_match p call) as [[e|cause reason]|f].
  - pose proof (might_write_files_typed e) as Hw. destruct (might_write_files e); simpl.
    + split; [done|]. intros (e' & [= <-] & H). by apply Hw in H.
    + split; [|done]. intros _. exists e. split; [done|]. by apply Hw.
  - simpl. split; [done|]. by intros (? & ? & _).
  - simpl. split; [done|]. by intros (? & ? & _).
Qed.

(** A policy rejects a call only when it must: nothing forbade it, no
    specification of the program accepts it, and the error reported is that of
    the last specification, or [NoSpecForProgram] when there is none; it is
    never a panic. *)
Theorem policy_error (p : policy regex) call f :
  policy_check is_match p call = Err f ->
  let specs := default [] (programs p !! call_program call) in
  f <> Panics /\ Forall (rejects call) specs /\
  match list.last specs with
  | Some spec => check spec call = Err f
  | None => f = Fails (NoSpecForProgram (call_program call))
  end.
Proof.
  unfold policy_check. destruct (forbidden_by_program _ _ _); [done|].
  destruct (forbidden_by_arg _ _ _ _); [done|].
  destruct (programs p !! call_program call) as [specs|]; simpl.
  - intros [Hall Hl]%check_specs_Err. split_and!; [|done|].
    + destruct Hl as [[_ [= <-]]|(spec & _ & Hc)]; [done|].
      intros ->. by apply check_not_Panics in Hc.
    + destruct Hl as [[-> [= <-]]|(spec & -> & Hc)]; done.
  - intros [= <-]. done.
Qed.

(** [define_program] fails exactly when two options have the same name;
    otherwise it appends to the program's specifications one whose options are
    the given ones, whose required options are those marked required, and it
    leaves every other program alone. *)
Theorem define_program_spec (b : policy_builder regex) name sp ob cf os pats fb sm snm :
  let options := default [] os in
  match define_program b name sp ob cf os pats fb sm snm with
  | Ok b' => NoDup (opt_name <$> options) /\
      exists spec, b_programs b' !! name = Some (default [] (b_programs b !! name) ++ [spec]) /\
        arg_patterns spec = default [] pats /\ forbidden spec = fb /\
        (forall o, o ∈ options -> allowed_options spec !! opt_name o = Some o) /\
        (forall k, k ∉ opt_name <$> options -> allowed_options spec !! k = None) /\
        (forall k, k ∈ required_options spec <->
           exists o, allowed_options spec !! k = Some o /\ required o = true) /\
        (forall n, n <> name -> b_programs b' !! n = b_programs b !! n)
  | Err _ => ~ NoDup (opt_name <$> options)
  end.
Proof.
  intros options. unfold define_program. fold options.
  pose proof (collect_options_spec options ∅) as H.
  destruct (collect_options options ∅) as [allowed|msg]; simpl.
  - destruct H as (Hnd & Hin & Hout). split; [done|]. eexists. split_and!.
    + by rewrite lookup_insert_eq.
    + done.
    + done.
    + intros o Ho. by apply Hin.
    + intros k Hk. simpl. by rewrite Hout.
    + intros k. simpl. rewrite elem_of_dom. unfold is_Some.
      by setoid_rewrite map_lookup_filter_Some.
    + intros n Hn. simpl. by rewrite lookup_insert_ne.
  - intros Hnd. apply H. split; [done|]. intros o _. apply lookup_empty.
Qed.
End policy_properties.

(** The execution checker returns a program exactly when every file the
    execution may read lies in a readable folder and every file it may write lies
    in a writeable folder, components compared one by one after resolution against
    the working directory; the program it returns is the first executable system
    path, or the name that was typed. *)
Theorem execv_check_iff absolutize_from absolutize is_executable_file e cwd rs ws prog :
  execv_check absolutize_from absolutize is_executable_file e cwd rs ws = Ok prog <->
  Forall (file_allowed absolutize_from absolutize cwd rs ws) (typed_values e) /\
  (prog = vexec_program e /\ Forall (fun p => is_executable_file p = false) (vexec_system_path e) \/
   exists pre post, vexec_system_path e = pre ++ prog :: post /\
     Forall (fun p => is_executable_file p = false) pre /\ is_executable_file prog = true).
Proof.
  unfold execv_check.
  pose proof (check_files_spec absolutize_from absolutize cwd rs ws (typed_values e)) as H.
  destruct (check_files _ _ cwd rs ws (typed_values e)) as [[]|err]; simpl; [|naive_solver].
  rewrite (choose_program_spec is_executable_file e prog). naive_solver.
Qed.

(** A concrete policy, with a substring search for the regular expressions. *)
Module PolicyRuns.
Definition cp_spec : program_spec :=
  new_program_spec (lit "cp") [lit "/bin/cp"] false false
    {[ lit "-r" := make_flag (lit "-r"); lit "-S" := make_opt (lit "-S") OpaqueNonFile None ]}
    [ReadableFiles; WriteableFile] None [] [].
Definition cp_call : exec_call :=
  ExecCall (lit "cp") [lit "-r"; lit "a"; lit "-S"; lit "x"; lit "b"].
Definition cp_exec : valid_exec :=
  ValidExec (lit "cp") [MatchedFlag (lit "-r")] [MatchedOpt (lit "-S") (lit "x") TOpaqueNonFile]
    [MatchedArg 1 TReadableFile (lit "a"); MatchedArg 4 TWriteableFile (lit "b")] [lit "/bin/cp"].

Definition regex_new (s : str) : option str := t ← strip_prefix (lit "(") s; strip_suffix (lit ")") t.
Definition is_match (r arg : str) : bool := str_contains r arg.
Definition progs : gmap str (list program_spec) := {[ lit "cp" := [cp_spec] ]}.

Lemma accepted_accounts_witness :
  accepts cp_spec cp_call cp_exec /\ Permutation (call_args cp_call) (accounted cp_exec).
Proof.
  assert (H : accepts cp_spec cp_call cp_exec).
  { apply (accepts_intro cp_spec cp_call _ _ [PositionalArg 1 (lit "a"); PositionalArg 4 (lit "b")]).
    - eapply reads_flag; [done|reflexivity|vm_compute; reflexivity|reflexivity|].
      apply reads_positional; [reflexivity|].
      eapply reads_opt; [done|reflexivity|vm_compute; reflexivity|reflexivity..|].
      apply reads_positional; [reflexivity|]. constructor.
    - vm_compute. lia.
    - apply (matches_cons ReadableFiles _ [PositionalArg 1 (lit "a")]); [simpl; lia| |].
      { apply Forall_singleton. reflexivity. }
      apply (matches_cons WriteableFile _ [PositionalArg 4 (lit "b")] [] []); [done| |].
      { apply Forall_singleton. reflexivity. }
      constructor.
    - apply (bool_decide_unpack _). vm_compute. exact I. }
  split; [exact H|]. exact (proj1 (accepted_accounts cp_spec cp_call cp_exec H)).
Defined.

Lemma policy_match_sound_witness :
  exists p, new_policy regex_new (fun s => s) progs [] [lit "rm"] = Some p /\
    policy_check is_match p cp_call = Ok (Match cp_exec) /\
    Forall (fun arg => Forall (fun s => str_contains s arg = false) [lit "rm"]) (call_args cp_call).
Proof.
  eexists. assert (Hp : new_policy regex_new (fun s => s) progs [] [lit "rm"] = Some _)
    by reflexivity.
  assert (Hc : policy_check is_match (Policy progs [] (Some (lit "rm"))) cp_call
    = Ok (Match cp_exec)) by (vm_compute; reflexivity).
  split; [exact Hp|]. split; [exact Hc|].
  refine (proj1 (proj2 (policy_match_sound regex_new is_match (fun s => s) progs []
    [lit "rm"] _ cp_call cp_exec _ Hp Hc))).
  intros r [= <-] arg. simpl. by rewrite orb_false_r.
Defined.

Lemma policy_error_witness :
  let p := Policy progs [] None in
  let call := ExecCall (lit "cp") [lit "a"] in
  exists f, policy_check is_match p call = Err f /\ f <> Panics.
Proof.
  intros p call. eexists.
  assert (H : policy_check is_match p call = Err _) by (vm_compute; reflexivity).
  split; [exact H|]. exact (proj1 (policy_error is_match p call _ H)).
Defined.
End PolicyRuns.
