(* ===== verification/ReviewLock.v ===== *)
(** * The review lock and the snapshot epoch

    [code-rs/core/src/review_coord.rs]: a lock file, created exclusively, keeps
    reviews from overlapping, and a counter file numbers the snapshots.  The
    functions are modelled over the directory of one scope; [create_new] is the
    operating system's exclusive creation.  The guard of a lock is dropped by
    removing the file, whoever made it. *)

From Stdlib Require Import Ascii.
From S2P Require Import Prelude.

Open Scope N_scope.

(** The directory of a scope.  [lock_file] holds the pid of the [ReviewLockInfo]
    written in it, or nothing readable; [dir_ok] is false when the directory cannot
    be found or created, [write_ok] when writes fail. *)
Record review_dir := ReviewDir {
  lock_file : option (option N);
  epoch_file : option str;
  dir_ok : bool;
  write_ok : bool;
}.

#[export] Instance review_dir_fields : Fields review_dir :=
  fun d => ReviewDir (lock_file d) (epoch_file d) (dir_ok d) (write_ok d).

Open Scope record_scope.

Definition read_epoch (d : review_dir) : N :=
  if dir_ok d then
    match epoch_file d with
    | Some text => default 0 (parse_u64 (trim text))
    | None => 0
    end
  else 0.

Definition write_epoch (v : N) (d : review_dir) : review_dir :=
  if dir_ok d && write_ok d then d <| epoch_file := Some (show_N v) |> else d.

Definition bump_snapshot_epoch (d : review_dir) : review_dir :=
  write_epoch (saturating_add64 (read_epoch d) 1) d.

Definition current_snapshot_epoch (d : review_dir) : N := read_epoch d.

(** The outcome of [try_acquire_lock]: [Ok(Some(guard))], [Ok(None)], [Err(_)]. *)
Inductive acquired := Guard | Busy | LockError.

Definition try_acquire_lock (pid : N) (d : review_dir) : acquired * review_dir :=
  if dir_ok d then
    match lock_file d with
    | Some _ => (Busy, d)
    | None =>
        (* [let _ = f.write_all(..)]: the file exists even if the write fails *)
        (Guard, d <| lock_file := Some (if write_ok d then Some pid else None) |>)
    end
  else (LockError, d).

(** [impl Drop for ReviewGuard] *)
Definition drop_guard (d : review_dir) : review_dir := d <| lock_file := None |>.

(** [read_lock_info], as far as it is used: the pid. *)
Definition read_lock_info (d : review_dir) : option N :=
  if dir_ok d then match lock_file d with Some info => info | None => None end else None.

(** [clear_stale_lock_if_dead], run without interruption. *)
Definition clear_stale_lock_if_dead (pid_alive : N -> bool) (d : review_dir)
  : bool * review_dir :=
  match read_lock_info d with
  | None => (false, d)
  | Some pid => if pid_alive pid then (false, d) else (true, d <| lock_file := None |>)
  end.

(** ** Lemmas: printing and reading a counter *)

Lemma digits_value_snoc s c :
  digits_value (s ++ [c]) = 10 * digits_value s + (c - 48).
Proof. unfold digits_value. by rewrite fold_left_app. Qed.

Lemma pretty_char_digit x :
  x < 10 -> N_of_ascii (pretty_N_char x) = 48 + x.
Proof.
  intros Hx. assert (x = 0 \/ x = 1 \/ x = 2 \/ x = 3 \/ x = 4 \/ x = 5 \/ x = 6 \/ x = 7
    \/ x = 8 \/ x = 9) as H by lia.
  by repeat destruct H as [->|H]; [reflexivity..|subst; reflexivity].
Qed.

Lemma pretty_go_digits x : forall s, exists ds,
  lit (pretty_N_go x s) = ds ++ lit s /\ forallb is_ascii_digit ds = true /\
  digits_value ds = x /\ (0 < x -> ds <> []).
Proof.
  induction (N.lt_wf_0 x) as [x _ IH]; intros s.
  destruct (N.eq_dec x 0) as [->|Hx].
  { exists []. rewrite pretty_N_go_0. done. }
  rewrite pretty_N_go_step by lia.
  destruct (IH (x `div` 10)) with (s := String (pretty_N_char (x `mod` 10)) s)
    as (ds & Hds & Hdig & Hval & _); [apply N.div_lt; lia|].
  exists (ds ++ [48 + x `mod` 10]). split_and!.
  - rewrite Hds, <- app_assoc. f_equal.
    change (N_of_ascii (pretty_N_char (x `mod` 10)) :: lit s = (48 + x `mod` 10) :: lit s).
    f_equal. apply pretty_char_digit. apply N.mod_lt. lia.
  - rewrite forallb_app, Hdig. cbn [forallb andb]. unfold is_ascii_digit.
    pose proof (N.mod_lt x 10 ltac:(done)). rewrite andb_true_r. apply andb_true_iff.
    rewrite !N.leb_le. revert H. generalize (x `mod` 10). lia.
  - rewrite digits_value_snoc, Hval, (N.add_comm 48), N.add_sub.
    symmetry. by apply N.div_mod.
  - intros _ H. by apply app_eq_nil in H as [_ ?].
Qed.

(** [to_string] and [parse::<u64>] are inverse. *)
Lemma parse_show n : n <= u64_max -> parse_u64 (show_N n) = Some n.
Proof.
  intros Hn. unfold show_N, pretty, pretty_N.
  case_decide as H0; [by subst|].
  destruct (pretty_go_digits n EmptyString) as (ds & Hds & Hdig & Hval & Hne).
  rewrite Hds. change (lit EmptyString) with (@nil N). rewrite app_nil_r.
  specialize (Hne ltac:(lia)). destruct ds as [|c ds]; [done|].
  assert (Hlt : (n <? 2 ^ 64) = true) by (apply N.ltb_lt; unfold u64_max in Hn; lia).
  assert (Hc : c <> 43).
  { simpl in Hdig. apply andb_true_iff in Hdig as [Hdig _]. unfold is_ascii_digit in Hdig.
    apply andb_true_iff in Hdig as [Hdig _]. apply N.leb_le in Hdig. lia. }
  assert (Hds' : (match c :: ds with 43 :: s' => s' | _ => c :: ds end) = c :: ds).
  { destruct (N.eq_dec c 43) as [|Hne43]; [done|]. clear -Hc. by repeat case_match. }
  unfold parse_u64. rewrite Hds', Hdig, Hval, Hlt. done.
Qed.

Lemma show_digits n : forallb is_ascii_digit (show_N n) = true.
Proof.
  unfold show_N, pretty, pretty_N. case_decide; [done|].
  destruct (pretty_go_digits n EmptyString) as (ds & -> & Hdig & _).
  change (lit EmptyString) with (@nil N). by rewrite app_nil_r.
Qed.

Lemma digit_not_space c : is_ascii_digit c = true -> is_whitespace c = false.
Proof.
  unfold is_ascii_digit, is_whitespace. intros H.
  apply andb_true_iff in H as [H1%N.leb_le H2%N.leb_le].
  repeat (apply orb_false_iff; split); try (apply N.eqb_neq; lia);
    apply andb_false_iff; rewrite !N.leb_gt; lia.
Qed.

Lemma trim_digits s : forallb is_ascii_digit s = true -> trim s = s.
Proof.
  rewrite forallb_forall. intros H. unfold trim.
  assert (Hend : trim_end s = s).
  { apply drop_while_end_id. intros x Hx. apply digit_not_space, H, list_elem_of_In.
    destruct s as [|y s _] using rev_ind; [done|]. rewrite last_snoc in Hx.
    injection Hx as <-. set_solver. }
  rewrite Hend. apply drop_while_id. intros x Hx. apply digit_not_space, H.
  destruct s; [done|]. injection Hx as <-. by left.
Qed.

Lemma read_write_epoch v d :
  dir_ok d = true -> write_ok d = true -> v <= u64_max ->
  read_epoch (write_epoch v d) = v.
Proof.
  intros Hd Hw Hv. unfold write_epoch, read_epoch. rewrite Hd, Hw. simpl.
  by rewrite Hd, trim_digits, parse_show by (try apply show_digits; done).
Qed.

(** ** Properties *)

(** The snapshot epoch survives being written and read back: after a bump it is
    one more than before, saturating at [2^64 - 1], when the directory can be
    written, and unchanged otherwise; whatever the file held before, unreadable
    text included, and the lock file is not touched. *)
Theorem epoch_bump d :
  current_snapshot_epoch (bump_snapshot_epoch d)
    = (if dir_ok d && write_ok d
       then N.min (current_snapshot_epoch d + 1) u64_max else current_snapshot_epoch d) /\
  lock_file (bump_snapshot_epoch d) = lock_file d.
Proof.
  unfold current_snapshot_epoch, bump_snapshot_epoch.
  destruct (dir_ok d) eqn:Hd, (write_ok d) eqn:Hw; simpl.
  - rewrite read_write_epoch; [|done|done|unfold saturating_add64; lia].
    unfold write_epoch. by rewrite Hd, Hw.
  - unfold write_epoch. by rewrite Hd, Hw.
  - unfold write_epoch. by rewrite Hd.
  - unfold write_epoch. by rewrite Hd.
Qed.
