(* ===== verification/AutoDrive.v ===== *)
(** * The Auto Drive controller

    [code-rs/code-auto-drive-core/src/controller.rs]: the state machine of an
    unattended run, with its countdowns, its restarts after transient failures and
    the review lock of [ReviewLock].  Every operation is a function on the
    controller's record, and on the lock directory where it touches the lock; the
    clock is an argument.  A [Duration] or an [Instant] is a number of
    nanoseconds.  The controller is taken as the only owner of its [Arc] guard:
    dropping the guard removes the lock file.

    The branches of [format_duration] for an hour and more, which compute in
    floating point, are a parameter; [auto_restart_delay_bounds] shows that the
    controller never reaches them. *)

From S2P Require Import Prelude ReviewLock.

Open Scope N_scope.

(** ** Data *)

Inductive auto_continue_mode := Immediate | TenSeconds | SixtySeconds | Manual.

Inductive auto_run_phase :=
| Idle
| AwaitingGoalEntry
| Launching
| Active
| PausedManual (resume_after_submit bypass_next_submit : bool)
| AwaitingCoordinator (prompt_ready : bool)
| AwaitingDiagnostics (coordinator_waiting : bool)
| AwaitingReview (diagnostics_pending : bool)
| TransientRecovery (backoff_ms : N).

Inductive phase_transition :=
| BeginLaunch
| LaunchSuccess
| TLaunchFailed
| PauseForManualEdit (resume_after_submit : bool)
| ResumeFromManual
| PromptReady
| TSubmitPrompt
| AwaitDiagnostics
| BeginReview (diagnostics_pending : bool)
| CompleteReview
| TransientFailure (backoff_ms : N)
| RecoveryAttempt
| Stop.

Record auto_run_summary := AutoRunSummary {
  summary_duration : N;
  summary_turns_completed : N;
  summary_message : option str;
  summary_goal : option str;
}.

Record auto_restart_state := AutoRestartState {
  restart_state_token : N;
  restart_state_attempt : N;
  restart_state_reason : str;
}.

(** [code_core::config_types::ReasoningEffort]; [AutoTurnAgentsTiming] and
    [AutoTurnAgentsAction] of [auto_coordinator.rs]. *)
Inductive reasoning_effort := Minimal | Low | Medium | High | XHigh | NoEffort.
Inductive auto_turn_agents_timing := Parallel | Blocking.
Record auto_turn_agents_action := AutoTurnAgentsAction {
  agents_prompt : str;
  agents_context : option str;
  agents_write : bool;
  agents_write_requested : option bool;
  agents_models : option (list str);
}.

(** [ReviewGuard], which names the lock file of the directory. *)
Inductive review_guard := ReviewGuard.

Inductive auto_controller_effect :=
| RefreshUi
| StartCountdown (countdown_id decision_seq seconds : N)
| SubmitPrompt
| LaunchStarted (goal : str)
| LaunchFailed (goal error : str)
| StopCompleted (summary : auto_run_summary) (message : option str)
| TransientPause (attempt delay : N) (reason : str)
| ScheduleRestart (token attempt delay : N)
| CancelCoordinator
| ResetHistory
| UpdateTerminalHint (hint : option str)
| SetTaskRunning (running : bool)
| EnsureInputFocus
| ClearCoordinatorView
| ShowGoalEntry.

Record auto_drive_controller := AutoDriveController {
  goal : option str;
  current_summary : option str;
  current_status_sent_to_user : option str;
  current_status_title : option str;
  current_cli_prompt : option str;
  current_cli_context : option str;
  current_cli_model_override : option str;
  current_cli_reasoning_effort_override : option reasoning_effort;
  hide_cli_context_in_ui : bool;
  suppress_next_cli_display : bool;
  current_display_line : option str;
  current_display_is_summary : bool;
  current_reasoning_title : option str;
  placeholder_phrase : option str;
  thinking_prefix_stripped : bool;
  current_summary_index : option N;
  countdown_id : N;
  countdown_decision_seq : N;
  seconds_remaining : N;
  countdown_override : option N;
  last_broadcast_summary : option str;
  last_decision_summary : option str;
  last_decision_status_sent_to_user : option str;
  last_decision_status_title : option str;
  last_decision_display : option str;
  last_decision_display_is_summary : bool;
  review_enabled : bool;
  subagents_enabled : bool;
  cross_check_enabled : bool;
  qa_automation_enabled : bool;
  pending_agent_actions : list auto_turn_agents_action;
  pending_agent_timing : option auto_turn_agents_timing;
  continue_mode : auto_continue_mode;
  started_at : option N;
  turns_completed : N;
  last_run_summary : option auto_run_summary;
  pending_restart : option auto_restart_state;
  restart_token : N;
  transient_restart_attempts : N;
  intro_started_at : option N;
  intro_reduced_motion : bool;
  intro_pending : bool;
  elapsed_override : option N;
  pending_stop_message : option str;
  last_completion_explanation : option str;
  phase : auto_run_phase;
  review_lock : option review_guard;
}.

#[export] Instance controller_fields : Fields auto_drive_controller := fun c =>
  AutoDriveController
    (goal c) (current_summary c) (current_status_sent_to_user c)
    (current_status_title c) (current_cli_prompt c) (current_cli_context c)
    (current_cli_model_override c) (current_cli_reasoning_effort_override c)
    (hide_cli_context_in_ui c) (suppress_next_cli_display c) (current_display_line c)
    (current_display_is_summary c) (current_reasoning_title c) (placeholder_phrase c)
    (thinking_prefix_stripped c) (current_summary_index c) (countdown_id c)
    (countdown_decision_seq c) (seconds_remaining c) (countdown_override c)
    (last_broadcast_summary c) (last_decision_summary c)
    (last_decision_status_sent_to_user c) (last_decision_status_title c)
    (last_decision_display c) (last_decision_display_is_summary c) (review_enabled c)
    (subagents_enabled c) (cross_check_enabled c) (qa_automation_enabled c)
    (pending_agent_actions c) (pending_agent_timing c) (continue_mode c) (started_at c)
    (turns_completed c) (last_run_summary c) (pending_restart c) (restart_token c)
    (transient_restart_attempts c) (intro_started_at c) (intro_reduced_motion c)
    (intro_pending c) (elapsed_override c) (pending_stop_message c)
    (last_completion_explanation c) (phase c) (review_lock c).

Open Scope record_scope.

(** [AutoDriveController::default()] *)
Definition default_controller : auto_drive_controller :=
  AutoDriveController
    None None None None None None None None false false None false None None false None
    0 0 0 None None None None None None false false false false false [] None
    TenSeconds None 0 None None 0 0 None false false None None None Idle None.

#[export] Instance auto_continue_mode_eq_dec : EqDecision auto_continue_mode.
Proof. solve_decision. Defined.
#[export] Instance auto_run_phase_eq_dec : EqDecision auto_run_phase.
Proof. solve_decision. Defined.

(** ** Continue modes and phases *)

Definition mode_seconds (m : auto_continue_mode) : option N :=
  match m with
  | Immediate => Some 0 | TenSeconds => Some 10 | SixtySeconds => Some 60 | Manual => None
  end.

Definition mode_label (m : auto_continue_mode) : str :=
  match m with
  | Immediate => lit "Immediate" | TenSeconds => lit "10 seconds"
  | SixtySeconds => lit "60 seconds" | Manual => lit "Manual approval"
  end.

Definition cycle_forward (m : auto_continue_mode) : auto_continue_mode :=
  match m with
  | Immediate => TenSeconds | TenSeconds => SixtySeconds
  | SixtySeconds => Manual | Manual => Immediate
  end.

Definition cycle_backward (m : auto_continue_mode) : auto_continue_mode :=
  match m with
  | Immediate => Manual | TenSeconds => Immediate
  | SixtySeconds => TenSeconds | Manual => SixtySeconds
  end.

(** [AutoRunPhase::is_active] and [is_running], which are the same test. *)
Definition is_active (p : auto_run_phase) : bool :=
  match p with Idle | AwaitingGoalEntry => false | _ => true end.
Definition is_running (p : auto_run_phase) : bool := is_active p.
Definition awaiting_coordinator_submit (p : auto_run_phase) : bool :=
  match p with AwaitingCoordinator true => true | _ => false end.
Definition awaiting_review (p : auto_run_phase) : bool :=
  match p with AwaitingReview _ => true | _ => false end.
Definition in_transient_recovery (p : auto_run_phase) : bool :=
  match p with TransientRecovery _ => true | _ => false end.
Definition is_paused_manual (p : auto_run_phase) : bool :=
  match p with PausedManual _ _ => true | _ => false end.
Definition should_show_goal_entry (p : auto_run_phase) : bool :=
  match p with AwaitingGoalEntry => true | _ => false end.
Definition prompt_ready (p : auto_run_phase) : bool :=
  match p with AwaitingCoordinator true => true | _ => false end.
Definition diagnostics_pending (p : auto_run_phase) : bool :=
  match p with AwaitingReview true => true | _ => false end.
Definition is_waiting_for_response (p : auto_run_phase) : bool :=
  match p with AwaitingDiagnostics _ => true | _ => false end.
Definition resume_after_submit (p : auto_run_phase) : option bool :=
  match p with PausedManual r _ => Some r | _ => None end.

(** ** Phase operations *)

Abbreviation controller := auto_drive_controller.

Definition apply_phase (p : auto_run_phase) (c : controller) : controller := c <| phase := p |>.
Definition set_phase (p : auto_run_phase) (c : controller) : controller := c <| phase := p |>.

Definition set_waiting_for_response (waiting : bool) (c : controller) : controller :=
  if waiting then apply_phase (AwaitingDiagnostics true) c
  else if is_waiting_for_response (phase c) then apply_phase Active c
  else c.

Definition set_coordinator_waiting (waiting : bool) (c : controller) : controller :=
  match phase c with
  | AwaitingDiagnostics _ => apply_phase (AwaitingDiagnostics waiting) c
  | _ => if waiting then apply_phase (AwaitingDiagnostics true) c else c
  end.

Definition on_prompt_ready (prompt_ready : bool) (c : controller) : controller :=
  apply_phase (AwaitingCoordinator prompt_ready) c.

Definition on_prompt_submitted (c : controller) : controller :=
  apply_phase (AwaitingDiagnostics true) (c <| countdown_override := None |>).

Definition on_pause_for_manual (resume_after_submit : bool) (c : controller) : controller :=
  apply_phase (PausedManual resume_after_submit false) c.

Definition on_transient_failure (backoff_ms : N) (c : controller) : controller :=
  apply_phase (TransientRecovery backoff_ms) c.

Definition on_recovery_attempt (c : controller) : controller :=
  if in_transient_recovery (phase c) then apply_phase Active c else c.

Definition set_bypass_coordinator_next_submit (c : controller) : controller :=
  match phase c with
  | PausedManual r _ => c <| phase := PausedManual r true |>
  | _ => c
  end.

Definition should_bypass_coordinator_next_submit (c : controller) : bool :=
  match phase c with PausedManual _ true => true | _ => false end.

Definition clear_bypass_coordinator_flag (c : controller) : controller :=
  match phase c with
  | PausedManual r _ => c <| phase := PausedManual r false |>
  | _ => c
  end.

Definition is_coordinator_waiting (c : controller) : bool :=
  match phase c with AwaitingDiagnostics true => true | _ => false end.

(** ** Operations on the review lock *)

Abbreviation locked := (controller * review_dir)%type.

(** [self.review_lock = None]: dropping the guard removes the lock file. *)
Definition release (s : locked) : locked :=
  let '(c, d) := s in
  (c <| review_lock := None |>,
   match review_lock c with Some ReviewGuard => drop_guard d | None => d end).

(** [self.review_lock = try_acquire_lock(..).ok().flatten().map(Arc::new)]: the
    lock is tried first; then the guard held until now is dropped. *)
Definition acquire (pid : N) (s : locked) : locked :=
  let '(c, d) := s in
  let '(r, d1) := try_acquire_lock pid d in
  let d2 := match review_lock c with Some ReviewGuard => drop_guard d1 | None => d1 end in
  (c <| review_lock := match r with Guard => Some ReviewGuard | _ => None end |>, d2).

Definition on_resume_from_manual (s : locked) : locked :=
  let '(c, d) := s in (apply_phase Active c, bump_snapshot_epoch d).

Definition on_begin_review (pid : N) (diagnostics_pending : bool) (s : locked) : locked :=
  let '(c, d) := s in
  let '(c, d) := acquire pid (apply_phase (AwaitingReview diagnostics_pending) c, d) in
  match review_lock c with
  | None => (apply_phase Active c, d)
  | Some _ => (c, d)
  end.

Definition on_complete_review (s : locked) : locked :=
  let '(c, d) := s in release (apply_phase Active c, d).

(** [transition], without [phase_changed] (see [phase_changed]); it has no effects. *)
Definition transition (pid : N) (t : phase_transition) (s : locked) : locked :=
  let '(c, d) := s in
  match phase c, t with
  | (Idle | AwaitingGoalEntry), BeginLaunch => (apply_phase Launching c, d)
  | Launching, LaunchSuccess => (apply_phase Active c, d)
  | Launching, TLaunchFailed => (apply_phase AwaitingGoalEntry c, d)
  | Active, PauseForManualEdit r => (apply_phase (PausedManual r false) c, d)
  | PausedManual _ _, ResumeFromManual => (apply_phase Active c, d)
  | Active, PromptReady => (apply_phase (AwaitingCoordinator true) c, d)
  | AwaitingCoordinator _, TSubmitPrompt => (apply_phase Active c, d)
  | Active, AwaitDiagnostics => (apply_phase (AwaitingDiagnostics true) c, d)
  | (AwaitingDiagnostics _ | Active), BeginReview diagnostics_pending =>
      match review_lock c with
      | Some _ => (apply_phase (AwaitingReview diagnostics_pending) c, d)
      | None =>
          let '(c1, d1) := acquire pid (c, d) in
          match review_lock c1 with
          | None => (apply_phase Active c1, d1)
          | Some _ => (apply_phase (AwaitingReview diagnostics_pending) c1, d1)
          end
      end
  | AwaitingReview _, CompleteReview => release (apply_phase Active c, d)
  | _, TransientFailure backoff_ms =>
      if is_active (phase c) then (apply_phase (TransientRecovery backoff_ms) c, d) else (c, d)
  | TransientRecovery _, RecoveryAttempt => (apply_phase Active c, d)
  | _, Stop => release (apply_phase Idle c, d)
  | _, _ => (c, d)
  end.

(** [TransitionEffects::phase_changed] *)
Definition phase_changed (pid : N) (t : phase_transition) (s : locked) : bool :=
  negb (bool_decide (phase s.1 = phase (transition pid t s).1)).

(** ** Countdowns and introduction *)

Definition countdown_seconds (c : controller) : option N :=
  match countdown_override c with
  | Some s => Some s
  | None => mode_seconds (continue_mode c)
  end.

Definition countdown_active (c : controller) : bool :=
  awaiting_coordinator_submit (phase c) && negb (is_paused_manual (phase c))
  && match countdown_seconds c with Some s => 0 <? s | None => false end.

Definition reset_countdown (c : controller) : controller :=
  let c := c <| seconds_remaining := default 0 (countdown_seconds c) |> in
  if seconds_remaining c =? 0 then c <| countdown_decision_seq := 0 |> else c.

Definition reset_intro_timing (c : controller) : controller :=
  c <| intro_started_at := None |> <| intro_reduced_motion := false |>.

Definition ensure_intro_timing (now : N) (reduced_motion : bool) (c : controller)
  : controller :=
  let c := match intro_started_at c with
           | None => c <| intro_started_at := Some now |>
           | Some _ => c
           end in
  c <| intro_reduced_motion := reduced_motion |>.

Definition mark_intro_pending (c : controller) : controller := c <| intro_pending := true |>.

Definition take_intro_pending (c : controller) : bool * controller :=
  if intro_pending c then (true, c <| intro_pending := false |>) else (false, c).

(** [reset]: the guard is dropped with the old value; the phase is read after the
    fields have been reset to their defaults, as the source does. *)
Definition reset (s : locked) : locked :=
  let '(c, d) := release s in
  let n := default_controller in
  let n := n <| review_enabled := review_enabled c |>
             <| subagents_enabled := subagents_enabled c |>
             <| cross_check_enabled := cross_check_enabled c |>
             <| qa_automation_enabled := qa_automation_enabled c |>
             <| continue_mode := continue_mode c |>
             <| seconds_remaining := default 0 (mode_seconds (continue_mode c)) |>
             <| intro_pending := intro_pending c |>
             <| intro_started_at := intro_started_at c |>
             <| intro_reduced_motion := intro_reduced_motion c |>
             <| elapsed_override := elapsed_override c |>
             <| pending_stop_message := pending_stop_message c |>
             <| last_completion_explanation := last_completion_explanation c |>
             <| review_lock := None |> in
  (n <| phase := if is_active (phase n) then Active else Idle |>, d).

(** ** Running, pausing, stopping *)

Definition prepare_launch (pid now : N) (g : str)
  (review subagents cross_check qa_automation : bool) (mode : auto_continue_mode)
  (reduced_motion : bool) (s : locked) : locked :=
  let '(c, d) := s in
  let '(seed_intro, c) := take_intro_pending c in
  let '(c, d) := reset (c, d) in
  let c := if seed_intro then mark_intro_pending c else c in
  let c := c <| review_enabled := review |>
             <| subagents_enabled := subagents |>
             <| cross_check_enabled := cross_check |>
             <| qa_automation_enabled := qa_automation |>
             <| continue_mode := mode |> in
  let c := reset_countdown c in
  let c := ensure_intro_timing now reduced_motion c in
  let c := c <| goal := Some g |> in
  transition pid BeginLaunch (c, d).

Definition launch_succeeded (g : str) (phrase : option str) (now : N) (c : controller)
  : list auto_controller_effect * controller :=
  let c := c <| started_at := Some now |>
             <| turns_completed := 0 |>
             <| last_run_summary := None |>
             <| last_completion_explanation := None |>
             <| goal := Some g |>
             <| current_summary := None |>
             <| current_status_sent_to_user := None |>
             <| current_status_title := None |>
             <| current_cli_prompt := None |>
             <| current_cli_context := None |>
             <| current_cli_model_override := None |>
             <| current_cli_reasoning_effort_override := None |>
             <| hide_cli_context_in_ui := false |>
             <| suppress_next_cli_display := false |>
             <| current_display_line := None |>
             <| current_display_is_summary := false |>
             <| current_reasoning_title := None |>
             <| current_summary_index := None |>
             <| placeholder_phrase := phrase |>
             <| thinking_prefix_stripped := false |>
             <| last_broadcast_summary := None |>
             <| countdown_override := None |>
             <| last_decision_status_sent_to_user := None |>
             <| last_decision_status_title := None |> in
  let c := reset_countdown c in
  ([LaunchStarted g; RefreshUi], apply_phase (AwaitingDiagnostics true) c).

Definition launch_failed (g error : str) (c : controller)
  : list auto_controller_effect * controller :=
  let c := mark_intro_pending (c <| goal := None |>) in
  let c := reset_countdown (c <| countdown_override := None |>) in
  ([LaunchFailed g error; ShowGoalEntry; RefreshUi], apply_phase AwaitingGoalEntry c).

(** [now.saturating_duration_since(start)] is the truncated subtraction of [N]. *)
Definition stop_run (pid now : N) (message : option str) (s : locked)
  : list auto_controller_effect * locked :=
  let '(c, d) := s in
  let duration := match started_at c with Some start => now - start | None => 0 end in
  let summary := AutoRunSummary duration (turns_completed c) message (goal c) in
  let '(c, d) := reset (c, d) in
  let c := c <| last_run_summary := Some summary |> in
  let '(c, d) := transition pid Stop (c, d) in
  let c := apply_phase AwaitingGoalEntry c in
  let c := c <| pending_stop_message := None |> in
  ([CancelCoordinator; ResetHistory; ClearCoordinatorView; UpdateTerminalHint None;
    SetTaskRunning false; EnsureInputFocus; StopCompleted summary message; RefreshUi],
   (c, d)).

(** Durations, in nanoseconds. *)
Definition NANOS_PER_MILLI : N := 1000000.
Definition NANOS_PER_SEC : N := 1000000000.
Definition AUTO_RESTART_BASE_DELAY : N := 5 * NANOS_PER_SEC.
Definition AUTO_RESTART_MAX_DELAY : N := 120 * NANOS_PER_SEC.
Definition AUTO_RESOLVE_MAX_REVIEW_ATTEMPTS : N := 3.

Definition as_millis (duration : N) : N := duration / NANOS_PER_MILLI.
Definition as_secs (duration : N) : N := duration / NANOS_PER_SEC.

(** [Duration::saturating_mul] does not saturate here: the multiplier is at most 32. *)
Definition auto_restart_delay (attempt : N) : N :=
  if attempt =? 0 then N.min AUTO_RESTART_BASE_DELAY AUTO_RESTART_MAX_DELAY
  else
    let exponent := N.min (attempt - 1) 5 in
    let multiplier := N.shiftl 1 exponent in
    let delay := AUTO_RESTART_BASE_DELAY * multiplier in
    if AUTO_RESTART_MAX_DELAY <? delay then AUTO_RESTART_MAX_DELAY else delay.

Definition ELLIPSIS : char := 8230.

Definition truncate_error (reason : str) : str :=
  let text := trim reason in
  if (str_len text <=? 160)%nat then text else take 160 text ++ [ELLIPSIS].

(** [format_duration] of [code-rs/common/src/elapsed.rs]. *)
Definition pad2 (n : N) : str := if n <? 10 then lit "0" ++ show_N n else show_N n.

Definition format_minutes_seconds (duration : N) : str :=
  show_N (as_secs duration / 60) ++ lit "m " ++ pad2 (as_secs duration mod 60) ++ lit "s".

Section format.
(** [format_hours_minutes], [format_days_hours] *)
Context (format_hours_minutes format_days_hours : N -> str).

Definition format_duration (duration : N) : str :=
  if as_millis duration <? 1000 then show_N (as_millis duration) ++ lit "ms"
  else if as_secs duration <? 60 then show_N (as_secs duration) ++ lit "s"
  else if as_secs duration <? 3600 then format_minutes_seconds duration
  else if as_secs duration <? 86400 then format_hours_minutes duration
  else format_days_hours duration.

Definition pause_for_transient_failure (reason : str) (c : controller)
  : list auto_controller_effect * controller :=
  let pending_attempt := saturating_add32 (transient_restart_attempts c) 1 in
  let truncated_reason := truncate_error reason in
  let c := c <| current_cli_prompt := None |>
             <| current_cli_context := None |>
             <| current_cli_model_override := None |>
             <| current_cli_reasoning_effort_override := None |>
             <| hide_cli_context_in_ui := false |>
             <| suppress_next_cli_display := false |>
             <| pending_agent_actions := [] |>
             <| pending_agent_timing := None |> in
  let delay := auto_restart_delay pending_attempt in
  let c := apply_phase (TransientRecovery (as_millis delay mod 2 ^ 64)) c in
  let c := c <| transient_restart_attempts := pending_attempt |> in
  let token := wrapping_add64 (restart_token c) 1 in
  let human_delay := format_duration delay in
  let waiting := lit "Waiting for connection" ++ [ELLIPSIS] in
  let c := c <| restart_token := token |>
             <| pending_restart :=
                  Some (AutoRestartState token pending_attempt truncated_reason) |>
             <| current_display_line :=
                  Some (waiting ++ lit " retrying in " ++ human_delay ++ lit " (attempt "
                        ++ show_N pending_attempt ++ lit ")") |>
             <| current_display_is_summary := true |>
             <| current_status_title := Some (lit "Retrying after error") |>
             <| current_status_sent_to_user :=
                  Some (lit "Encountered an error: " ++ truncated_reason
                        ++ lit ". Waiting before retrying.") |>
             <| placeholder_phrase := Some waiting |>
             <| thinking_prefix_stripped := false |> in
  ([CancelCoordinator; SetTaskRunning false;
    UpdateTerminalHint (Some (lit "Press Esc to exit Auto Drive"));
    TransientPause pending_attempt delay truncated_reason;
    ScheduleRestart token pending_attempt delay; RefreshUi], c).
End format.

Definition start_countdown (c : controller) : list auto_controller_effect :=
  match countdown_seconds c with
  | Some seconds => [StartCountdown (countdown_id c) (countdown_decision_seq c) seconds]
  | None => []
  end.

Definition schedule_cli_prompt (decision_seq : N) (prompt_text : str)
  (model : option str) (effort : option reasoning_effort) (override : option N)
  (c : controller) : list auto_controller_effect * controller :=
  let c := c <| current_cli_prompt := Some prompt_text |>
             <| current_cli_model_override := model |>
             <| current_cli_reasoning_effort_override := effort |> in
  let c := apply_phase (AwaitingCoordinator true) c in
  let c := reset_countdown (c <| countdown_override := override |>) in
  let c := c <| countdown_id := wrapping_add64 (countdown_id c) 1 |> in
  let c := c <| countdown_decision_seq := decision_seq |> in
  let c := c <| seconds_remaining := default 0 (countdown_seconds c) |> in
  (RefreshUi :: start_countdown c, c).

Definition update_continue_mode (mode : auto_continue_mode) (c : controller)
  : list auto_controller_effect * controller :=
  let c := c <| continue_mode := mode |> <| countdown_override := None |> in
  let c := reset_countdown c in
  let c := c <| seconds_remaining := default 0 (countdown_seconds c) |> in
  if awaiting_coordinator_submit (phase c) && negb (is_paused_manual (phase c)) then
    let c := c <| countdown_id := wrapping_add64 (countdown_id c) 1 |> in
    (RefreshUi :: start_countdown c, c)
  else ([RefreshUi], c).

Definition handle_countdown_tick (id decision_seq seconds_left : N) (c : controller)
  : list auto_controller_effect * controller :=
  if negb (is_active (phase c))
     || negb (id =? countdown_id c)
     || negb (decision_seq =? countdown_decision_seq c)
     || negb (awaiting_coordinator_submit (phase c))
     || is_paused_manual (phase c)
  then ([], c)
  else
    let c := c <| seconds_remaining := seconds_left |> in
    if seconds_left =? 0 then ([SubmitPrompt], c) else ([RefreshUi], c).

(** The timer of a countdown ([tui/src/chatwidget.rs], [auto_apply_controller_effects]
    and [auto_spawn_countdown]): the ticks it sends, one a second; with no seconds, or
    when its thread cannot be started, one tick at once. *)
Fixpoint timer_loop (id : N) (remaining : nat) : list (N * N) :=
  match remaining with
  | O => []
  | S remaining => (id, N.of_nat remaining) :: timer_loop id remaining
  end.

Definition auto_spawn_countdown (spawned : bool) (id seconds : N) : list (N * N) :=
  if seconds =? 0 then [(id, 0)]
  else if spawned then timer_loop id (N.to_nat seconds)
  else [(id, 0)].

(** [auto_handle_countdown]: a tick takes the decision from the controller. *)
Definition auto_handle_countdown (tick : N * N) (c : controller)
  : list auto_controller_effect * controller :=
  handle_countdown_tick tick.1 (countdown_decision_seq c) tick.2 c.

Fixpoint handle_ticks (ticks : list (N * N)) (c : controller)
  : list auto_controller_effect * controller :=
  match ticks with
  | [] => ([], c)
  | tick :: ticks =>
      let '(effects, c) := auto_handle_countdown tick c in
      let '(more, c) := handle_ticks ticks c in
      (effects ++ more, c)
  end.

(** ** All operations *)

(** The public operations that change a controller, [set_phase] (a raw setter that
    the interface restores saved phases with) excepted. *)
Inductive op :=
| OSetWaiting (waiting : bool)
| OSetCoordinatorWaiting (waiting : bool)
| OPromptReady (ready : bool)
| OPromptSubmitted
| OPauseForManual (resume : bool)
| OResumeFromManual
| OBeginReview (diagnostics : bool)
| OCompleteReview
| OTransientFailure (backoff_ms : N)
| ORecoveryAttempt
| OTransition (t : phase_transition)
| OPrepareLaunch (now : N) (g : str) (review subagents cross_check qa : bool)
    (mode : auto_continue_mode) (reduced_motion : bool)
| OLaunchSucceeded (g : str) (phrase : option str) (now : N)
| OLaunchFailed (g error : str)
| OStopRun (now : N) (message : option str)
| OPauseForTransientFailure (reason : str)
| OScheduleCliPrompt (decision_seq : N) (prompt : str) (model : option str)
    (effort : option reasoning_effort) (override : option N)
| OUpdateContinueMode (mode : auto_continue_mode)
| OCountdownTick (id decision_seq seconds_left : N)
| OReset
| OResetIntroTiming
| OEnsureIntroTiming (now : N) (reduced_motion : bool)
| OMarkIntroPending
| OTakeIntroPending
| OResetCountdown
| OSetBypass
| OClearBypass.

Section run.
Context (format_hours_minutes format_days_hours : N -> str).

Definition run_op (pid : N) (o : op) (s : locked) : locked :=
  let '(c, d) := s in
  match o with
  | OSetWaiting w => (set_waiting_for_response w c, d)
  | OSetCoordinatorWaiting w => (set_coordinator_waiting w c, d)
  | OPromptReady r => (on_prompt_ready r c, d)
  | OPromptSubmitted => (on_prompt_submitted c, d)
  | OPauseForManual r => (on_pause_for_manual r c, d)
  | OResumeFromManual => on_resume_from_manual (c, d)
  | OBeginReview b => on_begin_review pid b (c, d)
  | OCompleteReview => on_complete_review (c, d)
  | OTransientFailure ms => (on_transient_failure ms c, d)
  | ORecoveryAttempt => (on_recovery_attempt c, d)
  | OTransition t => transition pid t (c, d)
  | OPrepareLaunch now g r s x q m rm => prepare_launch pid now g r s x q m rm (c, d)
  | OLaunchSucceeded g p now => ((launch_succeeded g p now c).2, d)
  | OLaunchFailed g e => ((launch_failed g e c).2, d)
  | OStopRun now m => (stop_run pid now m (c, d)).2
  | OPauseForTransientFailure r =>
      ((pause_for_transient_failure format_hours_minutes format_days_hours r c).2, d)
  | OScheduleCliPrompt n p m e ov => ((schedule_cli_prompt n p m e ov c).2, d)
  | OUpdateContinueMode m => ((update_continue_mode m c).2, d)
  | OCountdownTick id n s => ((handle_countdown_tick id n s c).2, d)
  | OReset => reset (c, d)
  | OResetIntroTiming => (reset_intro_timing c, d)
  | OEnsureIntroTiming now rm => (ensure_intro_timing now rm c, d)
  | OMarkIntroPending => (mark_intro_pending c, d)
  | OTakeIntroPending => ((take_intro_pending c).2, d)
  | OResetCountdown => (reset_countdown c, d)
  | OSetBypass => (set_bypass_coordinator_next_submit c, d)
  | OClearBypass => (clear_bypass_coordinator_flag c, d)
  end.
End run.

(** ** Lemmas: the lock *)

Definition holds (c : controller) : Prop := review_lock c <> None.

#[export] Instance holds_dec c : Decision (holds c).
Proof. unfold holds. destruct (review_lock c); [left|right]; naive_solver. Defined.

(** A review is awaited only by a holder of the lock. *)
Definition phase_ok (c : controller) : Prop := awaiting_review (phase c) = true -> holds c.

(** What an operation may do to the lock: nothing, release it, or take it free. *)
Inductive lock_change (pid : N) : locked -> locked -> Prop :=
| lock_same c d c' d' :
    lock_file d' = lock_file d -> (holds c' <-> holds c) -> lock_change pid (c, d) (c', d')
| lock_released c d c' d' :
    holds c -> ~ holds c' -> lock_file d' = None -> lock_change pid (c, d) (c', d')
| lock_taken c d c' d' info :
    ~ holds c -> holds c' -> lock_file d = None -> lock_file d' = Some info ->
    (forall p, info = Some p -> p = pid) -> lock_change pid (c, d) (c', d').

(** Operations that leave the guard and the directory alone. *)
Lemma lock_change_keep pid c d c' :
  review_lock c' = review_lock c -> lock_change pid (c, d) (c', d).
Proof. intros H. apply lock_same; [done|]. unfold holds. by rewrite H. Qed.

Lemma release_change pid c d c' d' :
  release (c, d) = (c', d') -> lock_change pid (c, d) (c', d') /\ ~ holds c' /\ phase c' = phase c.
Proof.
  unfold release, holds. intros [= <- <-]. split_and!; [|intros H; by apply H|done].
  destruct (review_lock c) as [[]|] eqn:E.
  - apply lock_released; unfold holds; simpl; [by rewrite E|naive_solver|done].
  - apply lock_same; [done|]. unfold holds. simpl. rewrite E. done.
Qed.

(** Acquiring, from a state where a holder implies a lock file. *)
Lemma acquire_change pid c d c' d' :
  (holds c -> lock_file d <> None) ->
  acquire pid (c, d) = (c', d') -> lock_change pid (c, d) (c', d') /\ phase c' = phase c.
Proof.
  unfold acquire, try_acquire_lock. intros Hinv.
  destruct (dir_ok d), (lock_file d) as [info|] eqn:Hl, (review_lock c) as [[]|] eqn:Hg;
    intros [= <- <-]; (split; [|done]).
  all: try (exfalso; apply Hinv; [unfold holds; by rewrite Hg|done]).
  all: try (apply lock_released; unfold holds; simpl; [by rewrite Hg|naive_solver|done]).
  all: try (apply lock_same; [done|]; unfold holds; simpl; by rewrite Hg).
  apply (lock_taken _ _ _ _ _ (if write_ok d then Some pid else None));
    unfold holds; simpl; [naive_solver|done..|].
  intros p. destruct (write_ok d); naive_solver.
Qed.

Lemma lock_change_guard pid s c1 c2 d :
  lock_change pid s (c1, d) -> review_lock c2 = review_lock c1 -> lock_change pid s (c2, d).
Proof.
  intros H Hg. assert (Hh : holds c2 <-> holds c1) by (unfold holds; by rewrite Hg).
  inversion H; subst.
  - apply lock_same; [done|]. by rewrite Hh.
  - apply lock_released; [done| |done]. by rewrite Hh.
  - eapply lock_taken; [done| |done..]. by rewrite Hh.
Qed.

Lemma reset_spec pid c d c' d' :
  reset (c, d) = (c', d') ->
  lock_change pid (c, d) (c', d') /\ review_lock c' = None /\ phase c' = Idle /\
  countdown_id c' = 0.
Proof.
  unfold reset. destruct (release (c, d)) as [c1 d1] eqn:E.
  pose proof (release_change pid _ _ _ _ E) as (H & _ & _).
  assert (Hc1 : review_lock c1 = None) by (unfold release in E; by simplify_eq).
  intros [= <- <-]. split_and!; [|done|done|done].
  eapply lock_change_guard; [done|]. by rewrite Hc1.
Qed.

(** [transition] on a controller that may hold the lock. *)
Lemma transition_spec pid t c d c' d' :
  (holds c -> lock_file d <> None) -> phase_ok c ->
  transition pid t (c, d) = (c', d') ->
  lock_change pid (c, d) (c', d') /\ phase_ok c'.
Proof.
  intros Hinv Hok Ht.
  assert (Hset : forall p, awaiting_review p = false ->
    lock_change pid (c, d) (apply_phase p c, d) /\ phase_ok (apply_phase p c)).
  { intros p Hp. split; [by apply lock_change_keep|]. unfold phase_ok. simpl. congruence. }
  assert (Hrel : forall p, awaiting_review p = false ->
    release (apply_phase p c, d) = (c', d') ->
    lock_change pid (c, d) (c', d') /\ phase_ok c').
  { intros p Hp Hr. apply (release_change pid) in Hr as (Hr & _ & Hph). split.
    - inversion Hr; subst; [by apply lock_same|by apply lock_released|by eapply lock_taken].
    - unfold phase_ok. rewrite Hph. simpl. congruence. }
  assert (Hrev : forall b, (match review_lock c with
      | Some _ => (apply_phase (AwaitingReview b) c, d)
      | None =>
          let '(c1, d1) := acquire pid (c, d) in
          match review_lock c1 with
          | None => (apply_phase Active c1, d1)
          | Some _ => (apply_phase (AwaitingReview b) c1, d1)
          end
      end) = (c', d') -> lock_change pid (c, d) (c', d') /\ phase_ok c').
  { intros b. destruct (review_lock c) as [g|] eqn:Hg.
    - intros [= <- <-]. split; [by apply lock_change_keep|]. intros _. unfold holds. simpl.
      by rewrite Hg.
    - destruct (acquire pid (c, d)) as [c1 d1] eqn:Ha.
      pose proof (acquire_change _ _ _ _ _ Hinv Ha) as [Hch _].
      destruct (review_lock c1) as [g|] eqn:Hg1; intros [= <- <-].
      + split; [by eapply lock_change_guard|]. intros _. unfold holds. simpl. by rewrite Hg1.
      + split; [by eapply lock_change_guard|]. done. }
  unfold transition in Ht. destruct (phase c) eqn:Hp, t;
    first [by eapply Hrev, Ht | eapply Hrel; [|exact Ht]; done | injection Ht as <- <-;
      first [by apply Hset | split; [by apply lock_change_keep|done]]].
Qed.

Lemma on_begin_review_spec pid b c d c' d' :
  (holds c -> lock_file d <> None) ->
  on_begin_review pid b (c, d) = (c', d') ->
  lock_change pid (c, d) (c', d') /\ phase_ok c'.
Proof.
  intros Hinv. unfold on_begin_review.
  destruct (acquire pid (apply_phase (AwaitingReview b) c, d)) as [c1 d1] eqn:Ha.
  apply acquire_change in Ha as [Hch Hp]; [|done].
  assert (Hch' : lock_change pid (c, d) (c1, d1)).
  { inversion Hch; subst; [by apply lock_same|by apply lock_released|by eapply lock_taken]. }
  destruct (review_lock c1) as [g|] eqn:Hg; intros [= <- <-].
  - split; [done|]. intros _. unfold holds. by rewrite Hg.
  - split; [by eapply lock_change_guard|done].
Qed.

(** Operations that change neither the lock nor the phase. *)
Definition keeps (f : controller -> controller) : Prop :=
  forall c, review_lock (f c) = review_lock c /\ phase (f c) = phase c /\
    countdown_id (f c) = countdown_id c.

Lemma keeps_reset_countdown : keeps reset_countdown.
Proof. intros c. unfold reset_countdown. by case_match. Qed.

Lemma keeps_ensure_intro_timing now rm : keeps (ensure_intro_timing now rm).
Proof. intros c. unfold ensure_intro_timing. by case_match. Qed.

Lemma keeps_mark_intro_pending : keeps mark_intro_pending.
Proof. by intros c. Qed.

Lemma keeps_take_intro_pending : keeps (fun c => (take_intro_pending c).2).
Proof. intros c. unfold take_intro_pending. by case_match. Qed.

Lemma prepare_launch_spec pid now g r s x q m rm c d c' d' :
  prepare_launch pid now g r s x q m rm (c, d) = (c', d') ->
  lock_change pid (c, d) (c', d') /\ review_lock c' = None /\
  phase c' = Launching /\ goal c' = Some g /\ countdown_id c' = 0.
Proof.
  unfold prepare_launch.
  destruct (take_intro_pending c) as [seed c1] eqn:Hi.
  assert (Hc1 : review_lock c1 = review_lock c).
  { destruct (keeps_take_intro_pending c) as (H & _). by rewrite Hi in H. }
  destruct (reset (c1, d)) as [c2 d2] eqn:Hr.
  apply (reset_spec pid) in Hr as (Hch & Hg & Hp & Hid).
  assert (Hch' : lock_change pid (c, d) (c2, d2)).
  { assert (Hh : holds c1 <-> holds c) by (unfold holds; by rewrite Hc1).
    inversion Hch; subst; [apply lock_same|apply lock_released|eapply lock_taken];
      rewrite <- ?Hh; done. }
  match goal with |- context [ensure_intro_timing now rm (reset_countdown ?c0)] =>
    set (c3 := c0); set (c4 := ensure_intro_timing now rm (reset_countdown c3)) end.
  assert (Hc3 : review_lock c3 = None /\ phase c3 = Idle /\ countdown_id c3 = 0)
    by (subst c3; split_and!; destruct seed; first [exact Hg|exact Hp|exact Hid]).
  destruct (keeps_ensure_intro_timing now rm (reset_countdown c3)) as (Hg4 & Hp4 & Hi4).
  destruct (keeps_reset_countdown c3) as (Hg5 & Hp5 & Hi5).
  fold c4 in Hg4, Hp4, Hi4.
  destruct Hc3 as (Hg3 & Hp3 & Hi3). clearbody c4. unfold transition. simpl.
  rewrite Hp4, Hp5, Hp3. intros [= <- <-]. split_and!; [|simpl; by rewrite Hg4, Hg5|done|done|simpl; by rewrite Hi4, Hi5].
  eapply lock_change_guard; [done|]. simpl. by rewrite Hg4, Hg5, Hg3, Hg.
Qed.

Lemma stop_run_spec pid now m c d e c' d' :
  stop_run pid now m (c, d) = (e, (c', d')) ->
  lock_change pid (c, d) (c', d') /\ review_lock c' = None /\ phase c' = AwaitingGoalEntry /\
  last_run_summary c' = Some (AutoRunSummary
    match started_at c with Some start => now - start | None => 0 end
    (turns_completed c) m (goal c)).
Proof.
  unfold stop_run. destruct (reset (c, d)) as [c1 d1] eqn:Hr.
  apply (reset_spec pid) in Hr as (Hch & Hg & Hp & _).
  unfold transition. simpl. rewrite Hp, Hg. simpl. intros [= _ <- <-].
  split_and!; [|done..]. eapply lock_change_guard; [done|]. by rewrite Hg.
Qed.

Section run_op.
Context (fhm fdh : N -> str).

(** Every operation respects the lock. *)
Lemma run_op_lock pid o c d c' d' :
  (holds c -> lock_file d <> None) -> phase_ok c ->
  run_op fhm fdh pid o (c, d) = (c', d') ->
  lock_change pid (c, d) (c', d') /\ phase_ok c'.
Proof.
  intros Hinv Hok. unfold run_op.
  assert (Hset : forall c1 p, review_lock c1 = review_lock c -> phase c1 = p ->
    awaiting_review p = false -> (c1, d) = (c', d') ->
    lock_change pid (c, d) (c', d') /\ phase_ok c').
  { intros c1 p Hg <- Hp [= <- <-]. split; [by apply lock_change_keep|].
    unfold phase_ok. congruence. }
  assert (Hkeep : forall c1, review_lock c1 = review_lock c -> phase c1 = phase c ->
    (c1, d) = (c', d') -> lock_change pid (c, d) (c', d') /\ phase_ok c').
  { intros c1 Hg Hp [= <- <-]. split; [by apply lock_change_keep|].
    unfold phase_ok, holds in *. by rewrite Hg, Hp. }
  destruct o; try (by apply Hkeep).
  all: try (by eapply Hset).
  - unfold set_waiting_for_response. repeat case_match; first [by eapply Hset|by apply Hkeep].
  - unfold set_coordinator_waiting. repeat case_match; first [by eapply Hset|by apply Hkeep].
  - intros [= <- <-]. split; [|done]. apply lock_same; [|done].
    unfold bump_snapshot_epoch, write_epoch. by case_match.
  - by apply on_begin_review_spec.
  - unfold on_complete_review. intros H. apply (release_change pid) in H as (Hch & _ & Hp).
    split; [|unfold phase_ok; by rewrite Hp].
    inversion Hch; subst; [by apply lock_same|by apply lock_released|by eapply lock_taken].
  - unfold on_recovery_attempt. case_match; [by eapply Hset|by apply Hkeep].
  - by apply transition_spec.
  - intros H. apply prepare_launch_spec in H as (Hch & _ & Hp & _). split; [done|].
    unfold phase_ok. by rewrite Hp.
  - simpl. eapply Hset; try done; unfold reset_countdown; by case_match.
  - simpl. eapply Hset; try done; unfold reset_countdown; by case_match.
  - destruct (stop_run pid now message (c, d)) as [e [c1 d1]] eqn:H.
    apply stop_run_spec in H as (Hch & _ & Hp & _). intros [= <- <-]. split; [done|].
    unfold phase_ok. by rewrite Hp.
  - simpl. eapply Hset; try done; unfold reset_countdown; by case_match.
  - simpl. apply Hkeep; unfold update_continue_mode, reset_countdown;
      repeat (simpl; case_match); done.
  - simpl. apply Hkeep; unfold handle_countdown_tick; repeat (simpl; case_match); done.
  - intros H. apply (reset_spec pid) in H as (Hch & _ & Hp & _). split; [done|].
    unfold phase_ok. by rewrite Hp.
  - apply Hkeep; unfold ensure_intro_timing; by case_match.
  - simpl. apply Hkeep; unfold take_intro_pending; by case_match.
  - apply Hkeep; unfold reset_countdown; by case_match.
  - unfold set_bypass_coordinator_next_submit. case_match; first [by eapply Hset|by apply Hkeep].
  - unfold clear_bypass_coordinator_flag. case_match; first [by eapply Hset|by apply Hkeep].
Qed.
End run_op.

(** ** Properties *)

Lemma restart_delay_exact attempt :
  0 < attempt ->
  auto_restart_delay attempt = N.min (AUTO_RESTART_BASE_DELAY * 2 ^ (attempt - 1))
                                     AUTO_RESTART_MAX_DELAY.
Proof.
  intros Ha. unfold auto_restart_delay.
  rewrite (proj2 (N.eqb_neq attempt 0)) by lia. rewrite N.shiftl_1_l.
  destruct (N.le_gt_cases (attempt - 1) 5) as [Hle|Hgt].
  - rewrite N.min_l by done. destruct (N.ltb_spec AUTO_RESTART_MAX_DELAY
      (AUTO_RESTART_BASE_DELAY * 2 ^ (attempt - 1))); [rewrite N.min_r|rewrite N.min_l]; lia.
  - rewrite N.min_r by lia.
    assert (Hpow : 2 ^ 5 <= 2 ^ (attempt - 1)) by (apply N.pow_le_mono_r; lia).
    change (2 ^ 5) with 32 in *. unfold AUTO_RESTART_BASE_DELAY, AUTO_RESTART_MAX_DELAY, NANOS_PER_SEC.
    rewrite N.min_r; [reflexivity|]. lia.
Qed.

(** The delay before a restart is 5 seconds for the first attempt, doubles with
    each attempt and is capped at 120 seconds: it is always between the two, and
    never decreases. *)
Theorem restart_delay_bounds attempt :
  AUTO_RESTART_BASE_DELAY <= auto_restart_delay attempt <= AUTO_RESTART_MAX_DELAY /\
  auto_restart_delay attempt <= auto_restart_delay (attempt + 1) /\
  auto_restart_delay (attempt + 1)
    = N.min (AUTO_RESTART_BASE_DELAY * 2 ^ attempt) AUTO_RESTART_MAX_DELAY.
Proof.
  assert (H0 : auto_restart_delay 0 = auto_restart_delay 1) by reflexivity.
  assert (Hx : forall a, 1 <= 2 ^ a).
  { intros a. change 1 with (2 ^ 0). apply N.pow_le_mono_r; lia. }
  assert (Hb : AUTO_RESTART_BASE_DELAY <= AUTO_RESTART_MAX_DELAY)
    by (by apply (bool_decide_unpack _)).
  assert (Hs : auto_restart_delay (attempt + 1)
    = N.min (AUTO_RESTART_BASE_DELAY * 2 ^ attempt) AUTO_RESTART_MAX_DELAY).
  { rewrite restart_delay_exact by lia. by rewrite N.add_sub. }
  rewrite Hs. destruct (N.eq_dec attempt 0) as [->|Ha].
  - rewrite H0. by apply (bool_decide_unpack _).
  - rewrite (restart_delay_exact attempt) by lia. pose proof (Hx (attempt - 1)).
    assert (2 ^ attempt = 2 * 2 ^ (attempt - 1)).
    { rewrite <- N.pow_succ_r'. f_equal. lia. }
    split_and!; [|lia|nia|done]. apply N.min_glb; [nia|done].
Qed.

(** A countdown tick submits the prompt exactly when it reports zero seconds, its
    countdown and its decision are the current ones and a prompt awaits approval;
    any other tick with a stale countdown, a stale decision or in another phase
    changes nothing. *)
Theorem tick_submits_iff id seq left c :
  ((handle_countdown_tick id seq left c).1 = [SubmitPrompt] <->
   left = 0 /\ id = countdown_id c /\ seq = countdown_decision_seq c /\
   phase c = AwaitingCoordinator true) /\
  (id <> countdown_id c \/ seq <> countdown_decision_seq c \/
   phase c <> AwaitingCoordinator true -> handle_countdown_tick id seq left c = ([], c)).
Proof.
  unfold handle_countdown_tick.
  destruct (N.eqb_spec id (countdown_id c)), (N.eqb_spec seq (countdown_decision_seq c));
    destruct (phase c) as [| | | | |[]| | |] eqn:Hp; simpl; try (split; naive_solver).
  destruct (N.eqb_spec left 0); split; naive_solver.
Qed.

Lemma schedule_spec seq prompt model effort override c effects c' :
  schedule_cli_prompt seq prompt model effort override c = (effects, c') ->
  phase c' = AwaitingCoordinator true /\ current_cli_prompt c' = Some prompt /\
  countdown_id c' = wrapping_add64 (countdown_id c) 1 /\ countdown_decision_seq c' = seq /\
  seconds_remaining c' = default 0 (countdown_seconds c') /\
  effects = RefreshUi :: start_countdown c'.
Proof.
  unfold schedule_cli_prompt.
  match goal with |- context [reset_countdown ?c0] => set (c1 := c0) end.
  assert (Hr : phase (reset_countdown c1) = AwaitingCoordinator true /\
    current_cli_prompt (reset_countdown c1) = Some prompt /\
    countdown_id (reset_countdown c1) = countdown_id c)
    by (unfold reset_countdown; by case_match).
  destruct Hr as (Hp & Hc & Hi). set (c2 := reset_countdown c1) in *. clearbody c2.
  intros [= <- <-]. rewrite <- Hi. split_and!; done.
Qed.

(** Scheduling a prompt starts a new countdown: the tick of any countdown
    started before is ignored from then on, and the started countdown, when there
    is one, carries the new identifier, the given decision and the override or the
    seconds of the mode. *)
Theorem schedule_starts_countdown seq prompt model effort override c effects c' :
  countdown_id c < 2 ^ 64 ->
  schedule_cli_prompt seq prompt model effort override c = (effects, c') ->
  phase c' = AwaitingCoordinator true /\ current_cli_prompt c' = Some prompt /\
  (forall seq' left, handle_countdown_tick (countdown_id c) seq' left c' = ([], c')) /\
  (forall seconds, countdown_seconds c' = Some seconds ->
     effects = [RefreshUi; StartCountdown (countdown_id c') seq seconds] /\
     seconds_remaining c' = seconds /\
     (handle_countdown_tick (countdown_id c') seq 0 c').1 = [SubmitPrompt]).
Proof.
  intros Hid (Hp & Hc & Hi & Hs & Hr & ->)%schedule_spec.
  assert (Hne : wrapping_add64 (countdown_id c) 1 <> countdown_id c).
  { unfold wrapping_add64. destruct (N.eq_dec (countdown_id c + 1) (2 ^ 64)) as [E|E].
    - rewrite E, N.Div0.mod_same. lia.
    - rewrite N.mod_small by lia. lia. }
  split_and!; [done|done| |].
  - intros seq' left. unfold handle_countdown_tick.
    rewrite Hp, (proj2 (N.eqb_neq (countdown_id c) _)) by congruence. done.
  - intros seconds Hsec. unfold start_countdown. rewrite Hsec in *. rewrite Hs.
    split_and!; [done|done|]. unfold handle_countdown_tick. by rewrite Hp, Hs, !N.eqb_refl.
Qed.

Lemma schedule_starts_countdown_witness :
  countdown_id default_controller < 2 ^ 64 /\
  exists effects c',
    schedule_cli_prompt 7 (lit "go") None None None default_controller = (effects, c') /\
    phase c' = AwaitingCoordinator true.
Proof.
  assert (H : countdown_id default_controller < 2 ^ 64) by reflexivity.
  split; [exact H|]. do 2 eexists.
  assert (E : schedule_cli_prompt 7 (lit "go") None None None default_controller = (_, _))
    by reflexivity.
  split; [exact E|].
  exact (proj1 (schedule_starts_countdown 7 (lit "go") None None None default_controller _ _ H E)).
Defined.

(** What a controller that awaits a prompt does with one tick. *)
Lemma awaiting_tick tick c :
  phase c = AwaitingCoordinator true ->
  auto_handle_countdown tick c =
  if decide (tick.1 = countdown_id c)
  then ([if tick.2 =? 0 then SubmitPrompt else RefreshUi], c <| seconds_remaining := tick.2 |>)
  else ([], c).
Proof.
  intros Hp. unfold auto_handle_countdown, handle_countdown_tick. rewrite Hp, N.eqb_refl.
  destruct (decide _) as [E|E].
  - rewrite (proj2 (N.eqb_eq _ _) E). simpl. by case_match.
  - by rewrite (proj2 (N.eqb_neq _ _) E).
Qed.

(** Ticks of other countdowns are as good as absent. *)
Lemma handle_ticks_own ticks c :
  phase c = AwaitingCoordinator true ->
  handle_ticks ticks c = handle_ticks (filter (fun t => t.1 = countdown_id c) ticks) c.
Proof.
  revert c. induction ticks as [|t ticks IH]; [done|]. intros c Hp. cbn [handle_ticks].
  rewrite awaiting_tick by done. rewrite filter_cons. destruct (decide _) as [E|E].
  - cbn [handle_ticks]. rewrite awaiting_tick by done. rewrite decide_True by done.
    rewrite IH by done. done.
  - rewrite IH by done. by destruct (handle_ticks _ c).
Qed.

Lemma timer_loop_submits n c :
  phase c = AwaitingCoordinator true ->
  exists c', phase c' = AwaitingCoordinator true /\ current_cli_prompt c' = current_cli_prompt c /\
    handle_ticks (timer_loop (countdown_id c) (S n)) c
    = (replicate n RefreshUi ++ [SubmitPrompt], c').
Proof.
  revert c. induction n as [|n IH]; intros c Hp.
  - cbn [timer_loop handle_ticks]. rewrite awaiting_tick, decide_True by done.
    eexists. split_and!; [| |reflexivity]; done.
  - set (c1 := c <| seconds_remaining := N.of_nat (S n) |>).
    destruct (IH c1 Hp) as (c' & Hp' & Hc' & E).
    exists c'. split_and!; [done|done|].
    change (timer_loop _ (S (S n)))
      with ((countdown_id c, N.of_nat (S n)) :: timer_loop (countdown_id c) (S n)).
    change (countdown_id c1) with (countdown_id c) in E.
    set (l := timer_loop (countdown_id c) (S n)) in *.
    cbn [handle_ticks]. rewrite awaiting_tick, decide_True by done. cbn [snd].
    fold c1. rewrite E.
    by rewrite (proj2 (N.eqb_neq _ _)) by lia.
Qed.

Lemma idle_ticks ticks c : phase c <> AwaitingCoordinator true -> handle_ticks ticks c = ([], c).
Proof.
  intros Hp. induction ticks as [|t ticks IH]; [done|]. cbn [handle_ticks].
  assert (auto_handle_countdown t c = ([], c)) as ->; [|by rewrite IH].
  unfold auto_handle_countdown, handle_countdown_tick.
  assert (awaiting_coordinator_submit (phase c) = false) as ->
    by (by destruct (phase c) as [| | | | |[]| | |]).
  by rewrite orb_true_r.
Qed.

(** A scheduled prompt with a countdown is submitted: once the timer's ticks have
    arrived, in between any ticks of other countdowns, the controller has refreshed
    the interface once for each second before the last and then asked for the
    submission exactly once; until then no tick asks for it, and after the submission
    no tick of any countdown asks for another. *)
Theorem countdown_submits seq prompt model effort override c effects c' id n seconds
    spawned ticks :
  schedule_cli_prompt seq prompt model effort override c = (effects, c') ->
  In (StartCountdown id n seconds) effects ->
  filter (fun t => t.1 = id) ticks = auto_spawn_countdown spawned id seconds ->
  exists c'',
    handle_ticks ticks c'
    = (replicate (if spawned then N.to_nat seconds - 1 else 0) RefreshUi ++ [SubmitPrompt], c'') /\
    current_cli_prompt c'' = Some prompt /\
    forall later, handle_ticks later (on_prompt_submitted c'') = ([], on_prompt_submitted c'').
Proof.
  intros (Hp & Hc & _ & _ & _ & ->)%schedule_spec Hin Hticks.
  assert (id = countdown_id c') as ->.
  { destruct Hin as [[=]|Hin]. unfold start_countdown in Hin. case_match; [|done].
    by destruct Hin as [[=]|[]]. }
  rewrite handle_ticks_own, Hticks by done.
  assert (Hgo : exists k, auto_spawn_countdown spawned (countdown_id c') seconds
      = timer_loop (countdown_id c') (S k) /\
      (if spawned then N.to_nat seconds - 1 else 0)%nat = k).
  { unfold auto_spawn_countdown. destruct (N.eqb_spec seconds 0) as [->|Hz];
      [by exists 0%nat; destruct spawned|]. destruct spawned; [|by exists 0%nat].
    exists (N.to_nat seconds - 1)%nat. split; [f_equal; lia|done]. }
  destruct Hgo as (k & -> & ->).
  destruct (timer_loop_submits k c' Hp) as (c'' & Hp'' & Hc'' & E). exists c''.
  split_and!; [done|by rewrite Hc''|]. intros later. by apply idle_ticks.
Qed.

Lemma countdown_submits_witness :
  exists c'', handle_ticks [(1, 2); (9, 0); (1, 1); (1, 0)]
    (schedule_cli_prompt 7 (lit "go") None None (Some 3) default_controller).2
    = ([RefreshUi; RefreshUi; SubmitPrompt], c'').
Proof.
  destruct (countdown_submits 7 (lit "go") None None (Some 3) default_controller
    [RefreshUi; StartCountdown 1 7 3] _ 1 7 3 true
    [(1, 2); (9, 0); (1, 1); (1, 0)] eq_refl (or_intror (or_introl eq_refl)) eq_refl)
    as (c'' & E & _).
  exists c''. exact E.
Defined.

(** Whatever the state before, lock included: [prepare_launch] ends in
    [Launching] with its goal and without the lock, [stop_run] ends in
    [AwaitingGoalEntry] without the lock and keeps a summary of the run, and
    [reset] ends in [Idle] (its test for an active phase reads a phase that it has
    already reset). *)
Theorem lifecycle pid now g r s x q m rm message c d :
  (let '(c', d') := prepare_launch pid now g r s x q m rm (c, d) in
   phase c' = Launching /\ goal c' = Some g /\ ~ holds c' /\ (holds c -> lock_file d' = None)) /\
  (let '(_, (c', d')) := stop_run pid now message (c, d) in
   phase c' = AwaitingGoalEntry /\ ~ holds c' /\ (holds c -> lock_file d' = None) /\
   last_run_summary c' = Some (AutoRunSummary
     match started_at c with Some start => now - start | None => 0 end
     (turns_completed c) message (goal c))) /\
  (let '(c', d') := reset (c, d) in
   phase c' = Idle /\ ~ holds c' /\ (holds c -> lock_file d' = None)).
Proof.
  assert (Hlock : forall c' d', lock_change pid (c, d) (c', d') -> review_lock c' = None ->
    ~ holds c' /\ (holds c -> lock_file d' = None)).
  { intros c' d' Hch Hg. assert (Hn : ~ holds c') by (unfold holds; naive_solver).
    split; [done|]. intros Hh. inversion Hch; naive_solver. }
  destruct (prepare_launch pid now g r s x q m rm (c, d)) as [c1 d1] eqn:E1.
  destruct (stop_run pid now message (c, d)) as [effects [c2 d2]] eqn:E2.
  destruct (reset (c, d)) as [c3 d3] eqn:E3.
  apply prepare_launch_spec in E1 as (H1 & G1 & P1 & Q1 & _).
  apply stop_run_spec in E2 as (H2 & G2 & P2 & Q2).
  apply (reset_spec pid) in E3 as (H3 & G3 & P3 & _).
  destruct (Hlock _ _ H1 G1), (Hlock _ _ H2 G2), (Hlock _ _ H3 G3). done.
Qed.

(** A controller that is not running starts only through [BeginLaunch]: every
    other transition leaves it not running, and no transition takes it to a review,
    to the coordinator or to the lock. *)
Theorem inactive_transitions pid t c d :
  is_active (phase c) = false ->
  let '(c', d') := transition pid t (c, d) in
  (is_active (phase c') = true <-> t = BeginLaunch) /\
  (t = BeginLaunch -> phase c' = Launching) /\
  (t = Stop -> phase c' = Idle /\ ~ holds c') /\
  (t <> Stop -> review_lock c' = review_lock c /\ d' = d).
Proof.
  intros Hc. unfold transition, release.
  destruct (phase c) eqn:Hp; try done; destruct t; simpl; rewrite ?Hp; simpl;
    split_and!; try done; naive_solver.
Qed.

Lemma inactive_transitions_witness :
  let '(c', d') := transition 1 BeginLaunch (default_controller, ReviewDir None None true true) in
  phase c' = Launching.
Proof.
  apply (inactive_transitions 1 BeginLaunch default_controller (ReviewDir None None true true)
    eq_refl).
  reflexivity.
Defined.

(** A transient failure during a review keeps the review lock: through the
    recovery and back to normal running the process still holds it, so every other
    process is refused, until a later review completes or the run stops. *)
Theorem failure_keeps_review_lock pid other ms b c d :
  phase c = AwaitingReview b -> holds c -> dir_ok d = true -> lock_file d <> None ->
  let s1 := transition pid (TransientFailure ms) (c, d) in
  let '(c', d') := transition pid RecoveryAttempt s1 in
  phase c' = Active /\ holds c' /\ fst (try_acquire_lock other d') = Busy.
Proof.
  intros Hp Hh Hd Hl. unfold transition. rewrite Hp. simpl. split_and!; [done|done|].
  unfold try_acquire_lock. rewrite Hd. by destruct (lock_file d).
Qed.

Lemma failure_keeps_review_lock_witness :
  let c := default_controller <| phase := AwaitingReview false |>
             <| review_lock := Some ReviewGuard |> in
  let d := ReviewDir (Some (Some 1)) None true true in
  let s1 := transition 1 (TransientFailure 5000) (c, d) in
  let '(c', d') := transition 1 RecoveryAttempt s1 in
  phase c' = Active /\ holds c' /\ fst (try_acquire_lock 2 d') = Busy.
Proof.
  intros c d. apply (failure_keeps_review_lock 1 2 5000 false c d); [reflexivity| |reflexivity|];
    discriminate.
Defined.

(** [stop_run] and [prepare_launch] restart the countdown numbers: the first
    prompt of the next run gets the countdown number of the first prompt of a
    fresh controller, so a tick left over from the earlier run that carries the
    same decision number submits the new prompt. *)
Theorem countdown_ids_repeat pid now g r s x q m rm seq prompt override c d :
  let '(c1, _) := prepare_launch pid now g r s x q m rm (c, d) in
  let '(_, c2) := schedule_cli_prompt seq prompt None None override c1 in
  countdown_id c2 = 1 /\
  (handle_countdown_tick 1 seq 0 c2).1 = [SubmitPrompt].
Proof.
  destruct (prepare_launch pid now g r s x q m rm (c, d)) as [c1 d1] eqn:E1.
  apply prepare_launch_spec in E1 as (_ & _ & _ & _ & Hid).
  destruct (schedule_cli_prompt seq prompt None None override c1) as [effects c2] eqn:E2.
  apply schedule_spec in E2 as (Hp & _ & Hi & Hs & _).
  rewrite Hid in Hi. change (wrapping_add64 0 1) with 1 in Hi. split; [done|].
  unfold handle_countdown_tick. by rewrite Hp, Hs, Hi, !N.eqb_refl.
Qed.
