(* ===== verification/AutoDecision.v ===== *)
(** * Decisions of the Auto Drive coordinator

    [code-auto-drive-core/src/auto_coordinator.rs]: the models a turn may be routed to
    ([normalize_auto_drive_cli_routing_entries], [resolve_auto_drive_cli_routing_entries]),
    the reading of the model's answer ([parse_decision]: the JSON object in it, the current
    or the legacy schema, the checks of every field) and which errors are worth another
    attempt ([classify_recoverable_decision_error]).

    JSON is [serde_json]'s: its parser, the decoders that serde derives and its printer are
    parameters.  An [anyhow] error is its text; [parse_decision] panics ([None]) where it
    slices a text inside a character. *)

From stdpp Require Import base list.
From S2P Require Import Prelude BTree Truncation AutoDrive.

Local Open Scope nat_scope.

(** ** Routing *)

#[export] Instance reasoning_effort_eq_dec : EqDecision reasoning_effort.
Proof. solve_decision. Defined.

Record auto_drive_cli_routing_entry := CliRoutingEntry {
  routing_model : str;
  routing_levels : list reasoning_effort;
  routing_description : str
}.

(** [AutoDriveModelRoutingEntry] of the settings *)
Record model_routing_setting := ModelRoutingSetting {
  setting_model : str;
  setting_enabled : bool;
  setting_levels : list reasoning_effort;
  setting_description : str
}.

Definition AUTO_DRIVE_CLI_MODEL_PRIMARY : str := lit "gpt-5.5".
Definition AUTO_DRIVE_CLI_MODEL_FAST : str := lit "gpt-5.6-luna".
Definition AUTO_DRIVE_PRIMARY_ROUTING_DESCRIPTION : str :=
  lit "Hard planning and complex problem solving".
Definition AUTO_DRIVE_SPARK_ROUTING_DESCRIPTION : str :=
  lit "Fast implementation loops and failing-test iteration".

Definition cli_routing_reasoning_priority (level : reasoning_effort) : nat :=
  match level with
  | Minimal => 0 | Low => 1 | Medium => 2 | High => 3 | XHigh => 4 | NoEffort => 5
  end.

Definition has_level (levels : list reasoning_effort) (level : reasoning_effort) : bool :=
  bool_decide (level ∈ levels).

Definition normalize_cli_routing_reasoning_levels (levels : list reasoning_effort)
    : list reasoning_effort :=
  filter (fun level => has_level levels level = true) [Minimal; Low; Medium; High; XHigh].

Definition cli_reasoning_effort_to_str (level : reasoning_effort) : str :=
  match level with
  | Minimal => lit "minimal" | Low => lit "low" | Medium => lit "medium"
  | High => lit "high" | XHigh => lit "xhigh" | NoEffort => lit "minimal"
  end.

Definition default_auto_drive_cli_routing_entries : list auto_drive_cli_routing_entry := [
  CliRoutingEntry AUTO_DRIVE_CLI_MODEL_PRIMARY [High; XHigh]
    AUTO_DRIVE_PRIMARY_ROUTING_DESCRIPTION;
  CliRoutingEntry AUTO_DRIVE_CLI_MODEL_FAST [High] AUTO_DRIVE_SPARK_ROUTING_DESCRIPTION].

Definition normalize_routing_entry_model (model : str) : option str :=
  let trimmed := trim model in
  if str_eqb trimmed [] then None
  else
    let normalized := to_ascii_lowercase trimmed in
    if starts_with (lit "gpt-") normalized then Some normalized else None.

(** [for level in reasoning_levels { if !combined.contains(&level) { combined.push(level) } }] *)
Definition push_level (combined : list reasoning_effort) (level : reasoning_effort)
    : list reasoning_effort :=
  if has_level combined level then combined else combined ++ [level].

Definition level_leb (a b : reasoning_effort) : bool :=
  cli_routing_reasoning_priority a <=? cli_routing_reasoning_priority b.

Definition merge_entry (existing : auto_drive_cli_routing_entry)
    (levels : list reasoning_effort) (description : str) : auto_drive_cli_routing_entry :=
  CliRoutingEntry (routing_model existing)
    (sort_by level_leb (fold_left push_level levels (routing_levels existing)))
    (if str_eqb (routing_description existing) [] && negb (str_eqb description [])
     then description else routing_description existing).

(** The first entry of the model is merged with, or a new one is pushed. *)
Fixpoint upsert_entry (model : str) (levels : list reasoning_effort) (description : str)
    (entries : list auto_drive_cli_routing_entry) : list auto_drive_cli_routing_entry :=
  match entries with
  | [] => [CliRoutingEntry model levels description]
  | existing :: entries =>
      if eq_ignore_ascii_case (routing_model existing) model
      then merge_entry existing levels description :: entries
      else existing :: upsert_entry model levels description entries
  end.

Definition add_setting (normalized : list auto_drive_cli_routing_entry)
    (entry : model_routing_setting) : list auto_drive_cli_routing_entry :=
  if negb (setting_enabled entry) then normalized
  else
    match normalize_routing_entry_model (setting_model entry) with
    | None => normalized
    | Some model =>
        match normalize_cli_routing_reasoning_levels (setting_levels entry) with
        | [] => normalized
        | levels => upsert_entry model levels (trim (setting_description entry)) normalized
        end
    end.

Definition normalize_auto_drive_cli_routing_entries (settings : list model_routing_setting)
    : list auto_drive_cli_routing_entry := fold_left add_setting settings [].

Definition is_available (available_models : list str) (entry : auto_drive_cli_routing_entry)
    : bool := existsb (fun model => eq_ignore_ascii_case model (routing_model entry)) available_models.

Definition resolve_auto_drive_cli_routing_entries (settings : list model_routing_setting)
    (available_models : list str) : list auto_drive_cli_routing_entry :=
  match filter (fun e => is_available available_models e = true)
          (normalize_auto_drive_cli_routing_entries settings) with
  | [] =>
      filter (fun e => is_available available_models e = true)
        default_auto_drive_cli_routing_entries
  | entries => entries
  end.

(** ** The answer of the model *)

Inductive auto_coordinator_status := Continue | Success | Failed.

Record finish_evidence_payload := FinishEvidencePayload {
  primary_outcome_achieved : option str;
  validation_checks_passed : option (list str);
  edge_cases_handled : option (list str)
}.

Record progress_payload := ProgressPayload { past : option str; current : option str }.

Record agent_payload := AgentPayload {
  payload_prompt : str;
  payload_context : option str;
  payload_write : option bool;
  payload_models : option (list str)
}.

Inductive agents_field :=
| AgentsList (agents : list agent_payload)
| AgentsObject (timing : option auto_turn_agents_timing) (models : option (list str))
    (requests : list agent_payload).

Record coordinator_decision_new := CoordinatorDecisionNew {
  new_finish_status : str;
  new_phase : option str;
  new_status_title : option str;
  new_status_sent_to_user : option str;
  new_progress : option progress_payload;
  new_cli_milestone_instruction : option str;
  new_cli_model : option str;
  new_cli_reasoning_effort : option str;
  new_agents : option agents_field;
  new_finish_evidence : option finish_evidence_payload;
  new_goal : option str
}.

Record coordinator_decision_legacy := CoordinatorDecisionLegacy {
  legacy_finish_status : str;
  legacy_progress_past : option str;
  legacy_progress_current : option str;
  legacy_cli_context : option str;
  legacy_cli_prompt : option str;
  legacy_goal : option str
}.

Record decision_parse_options := DecisionParseOptions {
  require_cli_model_routing : bool;
  allowed_cli_routing_entries : list auto_drive_cli_routing_entry
}.

Record cli_action := CliAction {
  cli_prompt : str;
  cli_context : option str;
  cli_suppress_ui_context : bool;
  cli_model_override : option str;
  cli_reasoning_effort_override : option reasoning_effort
}.

Record agent_action := AgentAction {
  agent_prompt : str;
  agent_context : option str;
  agent_write : option bool;
  agent_models : option (list str)
}.

(** [ParsedCoordinatorDecision] without the three fields that are set afterwards. *)
Record parsed_coordinator_decision := ParsedCoordinatorDecision {
  decision_status : auto_coordinator_status;
  decision_status_title : option str;
  decision_status_sent_to_user : option str;
  decision_cli : option cli_action;
  decision_agents_timing : option auto_turn_agents_timing;
  decision_agents : list agent_action;
  decision_goal : option str
}.

Definition parse_finish_status (finish_status : str) : result str auto_coordinator_status :=
  let normalized := to_ascii_lowercase (trim finish_status) in
  if str_eqb normalized (lit "continue") then Ok Continue
  else if str_eqb normalized (lit "finish_success") then Ok Success
  else if str_eqb normalized (lit "finish_failed") then Ok Failed
  else Err (lit "unexpected finish_status '" ++ normalized ++ lit "'").

(** ** Cleaning *)

Fixpoint strip_prefixes (prefixes : list str) (input : str) : str :=
  match prefixes with
  | [] => input
  | prefix :: prefixes =>
      match byte_prefix (str_len prefix) input with
      | Some head =>
          if eq_ignore_ascii_case head prefix then
            let rest := default [] (byte_suffix (str_len prefix) input) in
            default rest (strip_prefix (lit " ") rest)
          else strip_prefixes prefixes input
      | None => strip_prefixes prefixes input
      end
  end.

Definition strip_role_prefix (input : str) : str :=
  strip_prefixes [lit "Coordinator:"; lit "CLI:"] input.

Definition clean_optional (input : option str) : option str :=
  match input with
  | None => None
  | Some value =>
      let trimmed := trim value in
      if str_eqb trimmed [] then None
      else
        let final_trimmed := trim (strip_role_prefix trimmed) in
        if str_eqb final_trimmed [] then None else Some final_trimmed
  end.

(** [cleaned.sort(); cleaned.dedup()] *)
Fixpoint dedup (l : list str) : list str :=
  match l with
  | x :: l' =>
      match l' with
      | y :: _ => if str_eqb x y then dedup l' else x :: dedup l'
      | [] => [x]
      end
  | [] => []
  end.

Definition clean_models (models : option (list str)) : option (list str) :=
  match models with
  | None => None
  | Some models =>
      match filter (fun m => m <> []) (trim <$> models) with
      | [] => None
      | cleaned => Some (dedup (sort_by str_leb cleaned))
      end
  end.

Definition is_empty_error (field : str) : str := field ++ lit " is empty".
Definition is_missing_error (field : str) : str := field ++ lit " is missing".

Definition clean_required (value field : str) : result str str :=
  let trimmed := trim value in
  if str_eqb trimmed [] then Err (is_empty_error field)
  else
    let final_trimmed := trim (strip_role_prefix trimmed) in
    if str_eqb final_trimmed [] then Err (is_empty_error field) else Ok final_trimmed.

(** The loop of [clean_required_list] from index [idx] on: the first error. *)
Fixpoint clean_each (values : list str) (field : str) (idx : nat) : result str (list str) :=
  match values with
  | [] => Ok []
  | value :: values =>
      x ← clean_required value (field ++ lit "[" ++ show_nat idx ++ lit "]");
      xs ← clean_each values field (idx + 1);
      Ok (x :: xs)
  end.

Definition clean_required_list (values : option (list str)) (field : str)
    : result str (list str) :=
  values ← ok_or values (is_missing_error field);
  clean_each values field 0.

(** ** Checks *)

Definition validate_phase (phase : option str) : result str unit :=
  match clean_optional phase with
  | None => Ok tt
  | Some phase =>
      if str_mem phase [lit "explore"; lit "implement"; lit "validate"; lit "lockdown"]
      then Ok tt
      else Err (lit "unexpected phase '" ++ phase ++
                lit "'; use one of: explore, implement, validate, lockdown")
  end.

Definition parse_cli_reasoning_effort (value : str) : result str reasoning_effort :=
  let normalized := to_ascii_lowercase (trim value) in
  if str_eqb normalized (lit "minimal") then Ok Minimal
  else if str_eqb normalized (lit "none") then Ok Minimal
  else if str_eqb normalized (lit "low") then Ok Low
  else if str_eqb normalized (lit "medium") then Ok Medium
  else if str_eqb normalized (lit "high") then Ok High
  else if str_eqb normalized (lit "xhigh") then Ok XHigh
  else Err (lit "unsupported cli_reasoning_effort '" ++ normalized ++
            lit "'; expected one of: minimal, low, medium, high, xhigh").

Definition normalize_cli_model (value : str) (allowed : list auto_drive_cli_routing_entry)
    : result str auto_drive_cli_routing_entry :=
  let trimmed := trim value in
  match filter (fun e => eq_ignore_ascii_case trimmed (routing_model e) = true) allowed with
  | entry :: _ => Ok entry
  | [] =>
      let expected_models :=
        match allowed with
        | [] => lit "<none>"
        | _ => join (lit ", ") (routing_model <$> allowed)
        end in
      Err (lit "unsupported cli_model '" ++ trimmed ++ lit "'; expected one of: " ++
           expected_models)
  end.

Definition validate_cli_model_selection (status : auto_coordinator_status)
    (cli_model cli_reasoning_effort : option str) (options : decision_parse_options)
    : result str (option str * option reasoning_effort) :=
  if negb (require_cli_model_routing options) then Ok (None, None)
  else
    match status with
    | Continue =>
        model ← ok_or cli_model (lit "model response missing cli_model for continue");
        reasoning_raw ← ok_or cli_reasoning_effort
          (lit "model response missing cli_reasoning_effort for continue");
        entry ← normalize_cli_model model (allowed_cli_routing_entries options);
        reasoning ← parse_cli_reasoning_effort reasoning_raw;
        if negb (has_level (routing_levels entry) reasoning) then
          Err (lit "unsupported cli_reasoning_effort '" ++ reasoning_raw ++
               lit "' for cli_model '" ++ routing_model entry ++ lit "'; expected one of: " ++
               join (lit ", ") (cli_reasoning_effort_to_str <$> routing_levels entry))
        else Ok (Some (routing_model entry), Some reasoning)
    | Success | Failed =>
        match cli_model, cli_reasoning_effort with
        | Some _, _ => Err (lit "model response must set cli_model to null when finish_status is finish_success or finish_failed")
        | None, Some _ => Err (lit "model response must set cli_reasoning_effort to null when finish_status is finish_success or finish_failed")
        | None, None => Ok (None, None)
        end
    end.

Definition validate_finish_evidence_for_status (status : auto_coordinator_status)
    (finish_evidence : option finish_evidence_payload) : result str unit :=
  match status with
  | Continue =>
      match finish_evidence with
      | Some _ => Err (lit "finish_evidence must be null when finish_status is continue")
      | None => Ok tt
      end
  | Success | Failed =>
      evidence ← ok_or finish_evidence
        (lit "model response missing finish_evidence for finish_status finish_success or finish_failed");
      primary ← ok_or (primary_outcome_achieved evidence)
        (is_missing_error (lit "finish_evidence.primary_outcome_achieved"));
      _ ← clean_required primary (lit "finish_evidence.primary_outcome_achieved");
      checks ← clean_required_list (validation_checks_passed evidence)
        (lit "finish_evidence.validation_checks_passed");
      _ ← match checks with
          | [] => Err (lit "finish_evidence.validation_checks_passed must include at least one passing validation check")
          | _ => Ok tt
          end;
      _ ← clean_required_list (edge_cases_handled evidence)
        (lit "finish_evidence.edge_cases_handled");
      Ok tt
  end.

Definition CLI_PROMPT_MIN_CHARS : nat := 4.
Definition CLI_PROMPT_MAX_CHARS : nat := 600.

Definition ensure_cli_prompt_length (prompt : str) : result str unit :=
  let len := length prompt in
  if len <? CLI_PROMPT_MIN_CHARS then
    Err (lit "cli_milestone_instruction must be at least 4 characters; keep it concise but not empty")
  else if CLI_PROMPT_MAX_CHARS <? len then
    Err (lit "cli_milestone_instruction exceeds 600 characters; keep prompts succinct (<=600 chars) and let the CLI decide how to execute the task")
  else Ok tt.

(** ** Converting a decoded answer *)

Definition must_be_null : str :=
  lit "model response must set cli_milestone_instruction to null when finish_status is finish_success or finish_failed".

(** [field] names the prompt in an error; an agent without models has those of the batch. *)
Fixpoint convert_agents (field : str) (batch_models : option (list str))
    (payloads : list agent_payload) : result str (list agent_action) :=
  match payloads with
  | [] => Ok []
  | payload :: payloads =>
      prompt ← clean_required (payload_prompt payload) field;
      let models :=
        match clean_models (payload_models payload) with
        | Some models => Some models
        | None => batch_models
        end in
      actions ← convert_agents field batch_models payloads;
      Ok (AgentAction prompt (clean_optional (payload_context payload)) (payload_write payload)
            models :: actions)
  end.

Definition convert_agents_field (agents : option agents_field)
    : result str (option auto_turn_agents_timing * list agent_action) :=
  match agents with
  | None => Ok (None, [])
  | Some (AgentsList payloads) =>
      actions ← convert_agents (lit "agents[*].prompt") None payloads; Ok (None, actions)
  | Some (AgentsObject timing models requests) =>
      actions ← convert_agents (lit "agents.requests[*].prompt") (clean_models models) requests;
      Ok (timing, actions)
  end.

Definition or_progress (title : option str) (progress : option progress_payload)
    (f : progress_payload -> option str) : option str :=
  match title, progress with
  | None, Some progress => clean_optional (f progress)
  | _, _ => title
  end.

Definition convert_decision_new (decision : coordinator_decision_new)
    (status : auto_coordinator_status) (options : decision_parse_options)
    : result str parsed_coordinator_decision :=
  _ ← validate_phase (new_phase decision);
  let status_title :=
    or_progress (clean_optional (new_status_title decision)) (new_progress decision) current in
  let status_sent_to_user :=
    or_progress (clean_optional (new_status_sent_to_user decision)) (new_progress decision) past in
  let goal := clean_optional (new_goal decision) in
  let prompt := clean_optional (new_cli_milestone_instruction decision) in
  let cli_model := clean_optional (new_cli_model decision) in
  let cli_reasoning_effort := clean_optional (new_cli_reasoning_effort decision) in
  _ ← validate_finish_evidence_for_status status (new_finish_evidence decision);
  selection ← validate_cli_model_selection status cli_model cli_reasoning_effort options;
  cli ← match status, prompt with
        | Continue, Some prompt =>
            prompt ← clean_required prompt (lit "cli_milestone_instruction");
            _ ← ensure_cli_prompt_length prompt;
            Ok (Some (CliAction prompt None false selection.1 selection.2))
        | Continue, None =>
            Err (lit "model response missing cli_milestone_instruction for continue")
        | _, Some _ => Err must_be_null
        | _, None => Ok None
        end;
  agents ← convert_agents_field (new_agents decision);
  Ok (ParsedCoordinatorDecision status status_title status_sent_to_user cli agents.1 agents.2 goal).

Definition convert_decision_legacy (decision : coordinator_decision_legacy)
    (status : auto_coordinator_status) (options : decision_parse_options)
    : result str parsed_coordinator_decision :=
  let status_title := clean_optional (legacy_progress_current decision) in
  let status_sent_to_user := clean_optional (legacy_progress_past decision) in
  let context := clean_optional (legacy_cli_context decision) in
  let goal := clean_optional (legacy_goal decision) in
  match status with
  | Success | Failed => Err (lit "legacy model response missing finish_evidence for finish_status finish_success or finish_failed")
  | Continue =>
      if require_cli_model_routing options then
        Err (lit "legacy model response missing cli_model and cli_reasoning_effort for continue")
      else
        cli ← match legacy_cli_prompt decision with
              | Some prompt =>
                  prompt ← clean_required prompt (lit "cli_prompt");
                  Ok (Some (CliAction prompt context false None None))
              | None => Err (lit "legacy model response missing cli_prompt for continue")
              end;
        Ok (ParsedCoordinatorDecision status status_title status_sent_to_user cli None [] goal)
  end.

(** ** The JSON object in the answer *)

Definition QUOTE : char := 34%N.
Definition BACKSLASH : char := 92%N.
Definition OPEN_BRACE : char := 123%N.
Definition CLOSE_BRACE : char := 125%N.

(** The loop of [extract_first_json_object] at the character [idx] of [input]; the braces
    are one byte long. *)
Fixpoint scan_object (input chars : str) (idx depth : nat) (in_str escape : bool)
    (start : option nat) : option str :=
  match chars with
  | [] => None
  | ch :: chars =>
      let next := scan_object input chars (idx + 1) in
      if in_str then
        if escape then next depth true false start
        else if (ch =? QUOTE)%N then next depth false false start
        else if (ch =? BACKSLASH)%N then next depth true true start
        else next depth true false start
      else if (ch =? QUOTE)%N then next depth true escape start
      else if (ch =? OPEN_BRACE)%N then
        next (depth + 1) false escape (if depth =? 0 then Some idx else start)
      else if (ch =? CLOSE_BRACE)%N then
        if depth =? 0 then next depth false escape start
        else if depth - 1 =? 0 then
          match start with
          | None => None
          | Some s => Some (take (idx + 1 - s) (drop s input))
          end
        else next (depth - 1) false escape start
      else next depth false escape start
  end.

Definition extract_first_json_object (input : str) : option str :=
  scan_object input input 0 0 false false None.

(** ** The whole *)

Section parse.
Context {value : Type}.
Context (from_str : str -> option value).
Context (as_new : value -> result str coordinator_decision_new).
Context (as_legacy : value -> result str coordinator_decision_legacy).
Context (to_string : value -> option str).

Definition read_value (raw : str) : result str value :=
  match from_str raw with
  | Some v => Ok v
  | None =>
      match extract_first_json_object raw with
      | None => Err (lit "model response was not valid JSON")
      | Some json_blob => ok_or (from_str json_blob) (lit "parsing JSON from model output")
      end
  end.

(** [&payload[..2000]] panics inside a character. *)
Definition payload_snippet (v : value) : option str :=
  let payload := default (lit "<unprintable json>") (to_string v) in
  if N.to_nat 2000 <? str_len payload then
    (fun head => head ++ [8230%N]) <$> byte_prefix (N.to_nat 2000) payload
  else Some payload.

Definition parse_decision (raw : str) (options : decision_parse_options)
    : option (result str (parsed_coordinator_decision * value)) :=
  match read_value raw with
  | Err e => Some (Err e)
  | Ok v =>
      match as_new v with
      | Ok decision =>
          Some (status ← parse_finish_status (new_finish_status decision);
                parsed ← convert_decision_new decision status options;
                Ok (parsed, v))
      | Err new_err =>
          match as_legacy v with
          | Ok decision =>
              Some (status ← parse_finish_status (legacy_finish_status decision);
                    parsed ← convert_decision_legacy decision status options;
                    Ok (parsed, v))
          | Err legacy_err =>
              (fun snippet =>
                 Err (lit "decoding coordinator decision failed: new_schema_err=" ++ new_err ++
                      lit "; legacy_err=" ++ legacy_err ++ lit "; payload_snippet=" ++ snippet))
              <$> payload_snippet v
          end
      end
  end.

End parse.

(** ** Events *)

(** [AutoTurnCliAction] has the fields of [CliAction]; the actions of agents gain defaults. *)
Definition agent_action_to_event (action : agent_action) : auto_turn_agents_action :=
  AutoTurnAgentsAction (agent_prompt action) (agent_context action)
    (default false (agent_write action)) (agent_write action) (agent_models action).

Definition agent_action_to_event_with_write_guard (action : agent_action) (allow_write : bool)
    : auto_turn_agents_action :=
  let event := agent_action_to_event action in
  if negb allow_write && agents_write event then
    AutoTurnAgentsAction (agents_prompt event) (agents_context event) false
      (agents_write_requested event) (agents_models event)
  else event.

(** ** Which errors are worth another attempt *)

Record recoverable_decision_error := RecoverableDecisionError {
  recoverable_summary : str;
  recoverable_guidance : option str
}.

Definition q (s : string) : string := String (Ascii.ascii_of_nat 34) (s ++ String (Ascii.ascii_of_nat 34) EmptyString).

Definition recoverable (summary guidance : string) : option recoverable_decision_error :=
  Some (RecoverableDecisionError (lit summary) (Some (lit guidance))).

(** [text.split_once(sep)] *)
Fixpoint split_once_str (sep s : str) : option (str * str) :=
  match strip_prefix sep s with
  | Some rest => Some ([], rest)
  | None =>
      match s with
      | [] => None
      | c :: s => (fun p => (c :: p.1, p.2)) <$> split_once_str sep s
      end
  end.

(** The field that an error is about, before [marker]. *)
Definition field_before (marker text : str) : option str :=
  match split_once_str marker text with
  | Some (field, _) =>
      let field_trimmed := trim_matches 96%N (trim field) in
      if str_eqb field_trimmed [] then None else Some field_trimmed
  | None => None
  end.

Definition BACKTICK : str := lit "`".

Definition classify_recoverable_decision_error (text : str)
    : option recoverable_decision_error :=
  let lower := to_ascii_lowercase text in
  let has p := str_contains (lit p) lower in
  let field marker := if str_contains (lit marker) lower then field_before (lit marker) text else None in
  if has "missing cli_milestone_instruction"%string
     || has "missing cli prompt for continue"%string
     || has "missing cli prompt for `finish_status"%string
     || has "missing cli prompt"%string then
    recoverable ("missing `cli_milestone_instruction` for `finish_status: " ++ q "continue" ++ "`")
      ("Include a non-empty `cli_milestone_instruction` string whenever `finish_status` is `" ++ q "continue" ++ "`.")
  else if has "missing finish_evidence"%string then
    recoverable "missing `finish_evidence` for finish status"
      "Include a `finish_evidence` object whenever `finish_status` is `finish_success` or `finish_failed`."
  else if has "missing cli_model"%string then
    recoverable "missing `cli_model` for continue turn"
      "When Auto Drive model routing is enabled, include `cli_model` on every continue turn."
  else if has "missing cli_reasoning_effort"%string then
    recoverable "missing `cli_reasoning_effort` for continue turn"
      "When Auto Drive model routing is enabled, include `cli_reasoning_effort` on every continue turn."
  else if has "validation_checks_passed must include at least one"%string then
    recoverable "finish evidence is missing passing validation checks"
      "Provide at least one concrete passing validation check in `finish_evidence.validation_checks_passed` before finishing."
  else if has "finish_evidence must be null"%string then
    recoverable "`finish_evidence` must be null for continue turns"
      "Set `finish_evidence` to null (or omit it) when `finish_status` is `continue`."
  else if has "must set cli_milestone_instruction to null"%string then
    recoverable "`cli_milestone_instruction` must be null for finish statuses"
      "When finishing (`finish_success`/`finish_failed`), set `cli_milestone_instruction` to null and include `finish_evidence`."
  else if has "must set cli_model to null"%string
          || has "must set cli_reasoning_effort to null"%string then
    recoverable "CLI model routing fields must be null for finish statuses"
      "When finishing (`finish_success`/`finish_failed`), set `cli_model` and `cli_reasoning_effort` to null."
  else if has "unsupported cli_model"%string || has "unsupported cli_reasoning_effort"%string then
    recoverable "unsupported CLI model routing selection"
      "Use a `cli_model` listed in the schema and a `cli_reasoning_effort` allowed for that model."
  else if has "length limit"%string || has "cut off"%string
          || has "exceeds"%string && has "cli_milestone_instruction"%string then
    recoverable "model output was cut off by a length cap"
      "Regenerate with a shorter `cli_milestone_instruction` (<=600 chars) and more concise status text so the response fits within provider limits."
  else if has "legacy model response missing cli_prompt for continue"%string then
    recoverable "legacy response omitted `cli_prompt` for continue turn"
      "Legacy coordinator responses must populate `cli_prompt` when the turn continues."
  else
    match field " is empty"%string with
    | Some f =>
        Some (RecoverableDecisionError (BACKTICK ++ f ++ BACKTICK ++ lit " was empty")
                (Some (lit "Provide a meaningful value for `" ++ f ++
                       lit "` instead of leaving it blank.")))
    | None =>
    match field " is missing"%string with
    | Some f =>
        Some (RecoverableDecisionError (BACKTICK ++ f ++ BACKTICK ++ lit " was missing")
                (Some (lit "Include `" ++ f ++ lit "` with a meaningful value before retrying.")))
    | None =>
        if has "unexpected finish_status"%string then
          let extracted :=
            match split_on 39%N text !! 1 with
            | Some value =>
                if str_eqb value [] then lit "unexpected finish_status"
                else lit "unexpected finish_status '" ++ value ++ lit "'"
            | None => lit "unexpected finish_status"
            end in
          Some (RecoverableDecisionError extracted
                  (Some (lit "Use `finish_status` values: `continue`, `finish_success`, or `finish_failed`.")))
        else if has "model response was not valid json"%string
                || has "parsing json from model output"%string then
          recoverable "response was not valid JSON"
            "Return strictly valid JSON that matches the `auto_coordinator_flow` schema without extra prose."
        else if has "decoding coordinator decision failed"%string then
          recoverable "response did not match the coordinator schema"
            "Ensure every required field is present and spelled correctly per the coordinator schema."
        else None
    end
    end.

(** ** Routing entries *)

(** An entry has a model in lower case and levels in order, without the level "none". *)
Definition routing_entry_wf (e : auto_drive_cli_routing_entry) : Prop :=
  to_ascii_lowercase (routing_model e) = routing_model e /\
  starts_with (lit "gpt-") (routing_model e) = true /\
  routing_levels e <> [] /\ NoEffort ∉ routing_levels e /\ NoDup (routing_levels e) /\
  StronglySorted (fun a b => level_leb a b = true) (routing_levels e).

Definition routes (entries : list auto_drive_cli_routing_entry) (model : str)
    (level : reasoning_effort) : Prop :=
  exists e, e ∈ entries /\ routing_model e = model /\ level ∈ routing_levels e.

(** The settings that are enabled offer a model at a level. *)
Definition offers (settings : list model_routing_setting) (model : str)
    (level : reasoning_effort) : Prop :=
  exists s, s ∈ settings /\ setting_enabled s = true /\
    normalize_routing_entry_model (setting_model s) = Some model /\
    level ∈ setting_levels s /\ level <> NoEffort.

Lemma ascii_lower_idemp c : ascii_lower (ascii_lower c) = ascii_lower c.
Proof.
  unfold ascii_lower. destruct ((65 <=? c) && (c <=? 90))%N eqn:E; [|by rewrite E].
  apply andb_true_iff in E as [H1%N.leb_le H2%N.leb_le].
  destruct ((65 <=? c + 32) && (c + 32 <=? 90))%N eqn:E'; [|done].
  apply andb_true_iff in E' as [_ H3%N.leb_le]. lia.
Qed.

Lemma lowercase_idemp s : to_ascii_lowercase (to_ascii_lowercase s) = to_ascii_lowercase s.
Proof.
  unfold to_ascii_lowercase. rewrite <- list_fmap_compose. apply list_fmap_ext.
  intros i c _. apply ascii_lower_idemp.
Qed.

Lemma normalized_model m model : normalize_routing_entry_model m = Some model ->
  to_ascii_lowercase model = model /\ starts_with (lit "gpt-") model = true.
Proof.
  unfold normalize_routing_entry_model. destruct (str_eqb (trim m) []); [done|].
  destruct (starts_with (lit "gpt-") (to_ascii_lowercase (trim m))) eqn:E; [|done].
  intros [= <-]. split; [apply lowercase_idemp|done].
Qed.

Lemma has_level_spec levels level : has_level levels level = true <-> level ∈ levels.
Proof. apply bool_decide_eq_true. Qed.

Lemma normalized_levels_spec levels level :
  level ∈ normalize_cli_routing_reasoning_levels levels <-> level ∈ levels /\ level <> NoEffort.
Proof.
  unfold normalize_cli_routing_reasoning_levels. rewrite list_elem_of_filter, has_level_spec.
  split; intros [H1 H2]; (split; [done|]).
  - intros ->. by repeat (apply elem_of_cons in H2 as [H2|H2]; [done|]); apply not_elem_of_nil in H2.
  - destruct level; try done; repeat (first [left|right]; fail) || set_solver.
Qed.

Lemma normalized_levels_wf levels : let l := normalize_cli_routing_reasoning_levels levels in
  NoDup l /\ StronglySorted (fun a b => level_leb a b = true) l.
Proof.
  cbn zeta. unfold normalize_cli_routing_reasoning_levels. cbn [filter list_filter].
  split; repeat case_decide; repeat constructor; try done;
    repeat (apply not_elem_of_cons; split; [done|]); apply not_elem_of_nil.
Qed.

Lemma level_leb_total a b : level_leb a b = false -> level_leb b a = true.
Proof. by destruct a, b. Qed.

Lemma level_leb_trans a b c : level_leb a b = true -> level_leb b c = true -> level_leb a c = true.
Proof. unfold level_leb. rewrite !Nat.leb_le. lia. Qed.

Lemma push_levels_spec levels combined : NoDup combined ->
  NoDup (fold_left push_level levels combined) /\
  forall l, l ∈ fold_left push_level levels combined <-> l ∈ combined \/ l ∈ levels.
Proof.
  revert combined. induction levels as [|x levels IH]; intros combined Hn; cbn [fold_left].
  { split; [done|]. intros l. split; [by left|]. by intros [|H%not_elem_of_nil]. }
  assert (Hn' : NoDup (push_level combined x)).
  { unfold push_level. destruct (has_level combined x) eqn:E; [done|].
    apply NoDup_app. split_and!; [done| |apply NoDup_singleton].
    intros y Hy ->%list_elem_of_singleton. apply has_level_spec in Hy. congruence. }
  destruct (IH _ Hn') as [H1 H2]. split; [done|]. intros l. rewrite H2, elem_of_cons.
  unfold push_level. destruct (has_level combined x) eqn:E.
  - apply has_level_spec in E. naive_solver.
  - rewrite elem_of_app, list_elem_of_singleton. naive_solver.
Qed.

Lemma merged_levels e levels description level : NoDup (routing_levels e) ->
  let m := merge_entry e levels description in
  routing_model m = routing_model e /\ NoDup (routing_levels m) /\
  StronglySorted (fun a b => level_leb a b = true) (routing_levels m) /\
  (level ∈ routing_levels m <-> level ∈ routing_levels e \/ level ∈ levels).
Proof.
  intros Hn. cbn. destruct (push_levels_spec levels _ Hn) as [Hd He].
  pose proof (sort_by_perm level_leb (fold_left push_level levels (routing_levels e))) as Hp.
  split_and!; [done|by rewrite Hp|apply sort_by_sorted;
    [apply level_leb_total|apply level_leb_trans]|by rewrite Hp].
Qed.

Definition entries_wf (entries : list auto_drive_cli_routing_entry) : Prop :=
  Forall routing_entry_wf entries /\ NoDup (routing_model <$> entries).

Lemma routes_nil model level : ~ routes [] model level.
Proof. by intros (e & He%not_elem_of_nil & _). Qed.

Lemma routes_cons e entries model level : routes (e :: entries) model level <->
  routing_model e = model /\ level ∈ routing_levels e \/ routes entries model level.
Proof. unfold routes. setoid_rewrite elem_of_cons. naive_solver. Qed.

Lemma merged_wf e levels description : routing_entry_wf e -> NoEffort ∉ levels ->
  routing_entry_wf (merge_entry e levels description).
Proof.
  intros (Hlow & Hgpt & Hne & Hno & Hnd & Hs) Hlev.
  pose proof (fun l => merged_levels e levels description l Hnd) as Hm. cbn zeta in Hm.
  unfold routing_entry_wf. destruct (Hm NoEffort) as (-> & Hd & Hsort & HN).
  split_and!; [done|done| |by rewrite HN; intros []|done|done].
  intros E. destruct (routing_levels e) as [|l ls]; [done|].
  destruct (Hm l) as (_ & _ & _ & Hl). rewrite E in Hl.
  by eapply not_elem_of_nil, Hl; left; left.
Qed.

(** A new entry is well formed and comes with the levels offered. *)
Lemma upsert_spec model levels description entries :
  routing_entry_wf (CliRoutingEntry model levels description) -> entries_wf entries ->
  entries_wf (upsert_entry model levels description entries) /\
  (forall m l, routes (upsert_entry model levels description entries) m l <->
     routes entries m l \/ (m = model /\ l ∈ levels)) /\
  (forall m, m ∈ routing_model <$> upsert_entry model levels description entries ->
     m ∈ routing_model <$> entries \/ m = model).
Proof.
  intros Hnew. unfold entries_wf.
  induction entries as [|e entries IH]; intros [Hwf Hd]; cbn [upsert_entry].
  { split_and!; [by apply Forall_singleton|apply NoDup_singleton| |].
    - intros m l. rewrite routes_cons. cbn. naive_solver.
    - intros m ->%list_elem_of_singleton. by right. }
  apply Forall_cons in Hwf as [He Hwf]. cbn [fmap list_fmap] in Hd.
  apply NoDup_cons in Hd as [Hnotin Hd].
  destruct Hnew as (Hlow & _ & _ & Hno & _). cbn [routing_model routing_levels] in Hlow, Hno.
  assert (Ee : eq_ignore_ascii_case (routing_model e) model = str_eqb (routing_model e) model)
    by (unfold eq_ignore_ascii_case; by rewrite Hlow, (proj1 He)).
  rewrite Ee. destruct (str_eqb (routing_model e) model) eqn:Em.
  - apply str_eqb_eq in Em as <-. split_and!.
    + constructor; [by apply merged_wf|done].
    + by constructor.
    + intros m l. rewrite !routes_cons.
      destruct (merged_levels e levels description l) as (-> & _ & _ & ->);
        [apply He|naive_solver].
    + intros m Hm. by left.
  - apply str_eqb_neq in Em. destruct (IH (conj Hwf Hd)) as ([H1 H2] & H3 & H4).
    split_and!; [by constructor| | |].
    + constructor; [|done]. by intros [H|H]%H4.
    + intros m l. rewrite !routes_cons, H3. naive_solver.
    + intros m [->|Hm]%elem_of_cons; [left; by left|].
      destruct (H4 m Hm) as [H|H]; [left; by right|by right].
Qed.

Lemma add_setting_spec entries s : entries_wf entries ->
  entries_wf (add_setting entries s) /\
  forall m l, routes (add_setting entries s) m l <-> routes entries m l \/ offers [s] m l.
Proof.
  intros Hwf. assert (Hoff : forall m l, offers [s] m l <->
    setting_enabled s = true /\ normalize_routing_entry_model (setting_model s) = Some m /\
    l ∈ normalize_cli_routing_reasoning_levels (setting_levels s)).
  { intros m l. rewrite normalized_levels_spec. split.
    - intros (x & ->%list_elem_of_singleton & ?). naive_solver.
    - intros (? & ? & ? & ?). exists s. by split; [apply list_elem_of_singleton|]. }
  setoid_rewrite Hoff. unfold add_setting.
  destruct (setting_enabled s); cbn [negb]; [|split; [done|naive_solver]].
  destruct (normalize_routing_entry_model (setting_model s)) as [model|] eqn:Em;
    [|split; [done|naive_solver]].
  pose proof (normalized_levels_wf (setting_levels s)) as [Hnd Hs].
  assert (Hno : NoEffort ∉ normalize_cli_routing_reasoning_levels (setting_levels s))
    by (by intros [_ ?]%normalized_levels_spec).
  destruct (normalize_cli_routing_reasoning_levels (setting_levels s)) as [|l0 ls] eqn:El.
  { split; [done|]. intros m l. split; [by left|].
    by intros [H|(_ & _ & H%not_elem_of_nil)]. }
  rewrite <- El in *. apply normalized_model in Em as Hm. destruct Hm as [Hlow Hgpt].
  destruct (upsert_spec model (normalize_cli_routing_reasoning_levels (setting_levels s))
              (trim (setting_description s)) entries) as (H1 & H2 & _); [|done|].
  { unfold routing_entry_wf. cbn [routing_model routing_levels].
    rewrite El in *. split_and!; done. }
  rewrite El in *. split; [done|]. intros m l. rewrite H2. naive_solver.
Qed.

(** The entries offer exactly the models and levels that the enabled settings do, each
    model once and its levels in order. *)
Theorem routing_normalized settings :
  let entries := normalize_auto_drive_cli_routing_entries settings in
  entries_wf entries /\ forall model level, routes entries model level <-> offers settings model level.
Proof.
  cbn zeta. unfold normalize_auto_drive_cli_routing_entries.
  assert (H : forall prefix entries, entries_wf entries ->
    (forall m l, routes entries m l <-> offers prefix m l) ->
    entries_wf (fold_left add_setting settings entries) /\
    forall m l, routes (fold_left add_setting settings entries) m l <->
                offers (prefix ++ settings) m l).
  { induction settings as [|s settings IH]; intros prefix entries Hwf Hr; cbn [fold_left].
    { by rewrite app_nil_r. }
    destruct (add_setting_spec entries s Hwf) as [Hwf' Hr'].
    rewrite (assoc_L (++) prefix [s] settings : prefix ++ s :: settings = _).
    apply IH; [done|]. intros m l. rewrite Hr', Hr. unfold offers.
    setoid_rewrite elem_of_app. naive_solver. }
  apply (H [] []); [repeat constructor|].
  intros m l. split; [intros (e & Hn%not_elem_of_nil & _)|intros (e & Hn%not_elem_of_nil & _)]; done.
Qed.

(** ** Cleaned texts *)

Definition clean_text (t : str) : Prop := t <> [] /\ trim t = t.
Definition clean_option (o : option str) : Prop := forall t, o = Some t -> clean_text t.

Lemma trim_idemp s : trim (trim s) = trim s.
Proof.
  assert (He : trim_end (trim s) = trim s).
  { apply drop_while_end_id. apply trim_last. }
  unfold trim at 1. rewrite He. apply drop_while_idemp.
Qed.

Lemma clean_optional_clean o : clean_option (clean_optional o).
Proof.
  intros t. unfold clean_optional. destruct o as [v|]; [|done].
  destruct (str_eqb (trim v) []); [done|].
  destruct (str_eqb (trim (strip_role_prefix (trim v))) []) eqn:E; [done|].
  intros [= <-]. apply str_eqb_neq in E. split; [done|apply trim_idemp].
Qed.

(** [clean_required] is [clean_optional] with an error. *)
Lemma clean_required_optional value field :
  clean_required value field = ok_or (clean_optional (Some value)) (is_empty_error field).
Proof. unfold clean_required, clean_optional. by repeat case_match. Qed.

Lemma clean_required_Ok value field t :
  clean_required value field = Ok t -> clean_text t.
Proof.
  rewrite clean_required_optional. destruct (clean_optional (Some value)) as [x|] eqn:E; [|done].
  intros [= <-]. by apply (clean_optional_clean (Some value)).
Qed.

Lemma clean_required_Err value field e :
  clean_required value field = Err e -> e = is_empty_error field.
Proof.
  rewrite clean_required_optional. destruct (clean_optional (Some value)); [done|]. by intros [= <-].
Qed.

(** ** Models of agents *)

Lemma dedup_spec l : StronglySorted (fun a b => str_leb a b = true) l ->
  StronglySorted (fun a b => str_leb a b = true) (dedup l) /\ NoDup (dedup l) /\
  forall x, x ∈ dedup l <-> x ∈ l.
Proof.
  induction l as [|x l IH]; intros Hs; [split_and!; [done|constructor|done]|].
  apply StronglySorted_inv in Hs as [Hs Hx]. destruct (IH Hs) as (H1 & H2 & H3).
  cbn [dedup]. destruct l as [|y l].
  { split_and!; [by repeat constructor|apply NoDup_singleton|done]. }
  destruct (str_eqb x y) eqn:E.
  - apply str_eqb_eq in E as ->. split_and!; [done|done|].
    intros z. rewrite H3, !elem_of_cons. naive_solver.
  - apply str_eqb_neq in E. rewrite Forall_forall in Hx.
    split_and!; [| |intros z; rewrite (elem_of_cons _ z x), (elem_of_cons (y :: l) z x), H3; done].
    + constructor; [done|]. apply Forall_forall. intros z Hz%H3. by apply Hx.
    + constructor; [|done]. intros Hin%H3.
      apply E, str_leb_antisym; [apply Hx; by left|].
      apply elem_of_cons in Hin as [->|Hin]; [apply str_leb_refl|].
      apply StronglySorted_inv in Hs as [_ Hy]. rewrite Forall_forall in Hy. by apply Hy.
Qed.

(** The models of an agent are in order, each once, and not blank. *)
Definition models_wf (models : list str) : Prop :=
  models <> [] /\ Forall clean_text models /\ NoDup models /\
  StronglySorted (fun a b => str_leb a b = true) models.

Lemma clean_models_wf models cleaned : clean_models models = Some cleaned -> models_wf cleaned.
Proof.
  destruct models as [models|]; [|done]. unfold clean_models.
  set (l := filter _ _). intros H.
  assert (Hl : l <> [] /\ cleaned = dedup (sort_by str_leb l))
    by (destruct l; [done|injection H as <-; done]).
  destruct Hl as [Hne ->]. clear H.
  assert (Hs : StronglySorted (fun a b => str_leb a b = true) (sort_by str_leb l)).
  { apply sort_by_sorted; [|apply str_leb_trans].
    intros a b Hab. destruct (str_leb_total a b); congruence. }
  destruct (dedup_spec _ Hs) as (H1 & H2 & H3').
  assert (H3 : forall x, x ∈ dedup (sort_by str_leb l) <-> x ∈ l)
    by (intros x; by rewrite H3', (sort_by_perm str_leb l)).
  split_and!; [| |done|done].
  - destruct l as [|m ms]; [done|]. intros E.
    apply (not_elem_of_nil m). rewrite <- E. apply H3. by left.
  - apply Forall_forall. intros x [Hx Hm]%H3%list_elem_of_filter. split; [done|].
    apply list_elem_of_fmap in Hm as (y & -> & _). apply trim_idemp.
Qed.

(** ** What a decision holds *)

Definition agent_wf (a : agent_action) : Prop :=
  clean_text (agent_prompt a) /\ clean_option (agent_context a) /\
  forall models, agent_models a = Some models -> models_wf models.

(** The model and the level of a turn are those of an entry if routing is required. *)
Definition selected (options : decision_parse_options)
    (selection : option str * option reasoning_effort) : Prop :=
  if require_cli_model_routing options then
    exists entry level, entry ∈ allowed_cli_routing_entries options /\
      level ∈ routing_levels entry /\ selection = (Some (routing_model entry), Some level)
  else selection = (None, None).

Definition cli_wf (options : decision_parse_options) (a : cli_action) : Prop :=
  clean_text (cli_prompt a) /\ clean_option (cli_context a) /\
  cli_suppress_ui_context a = false /\
  selected options (cli_model_override a, cli_reasoning_effort_override a).

(** Every text of a decision is clean, and it has an action for the command line exactly
    when it continues. *)
Definition decision_wf (options : decision_parse_options) (d : parsed_coordinator_decision)
    : Prop :=
  clean_option (decision_status_title d) /\ clean_option (decision_status_sent_to_user d) /\
  clean_option (decision_goal d) /\ Forall agent_wf (decision_agents d) /\
  match decision_cli d with
  | Some a => decision_status d = Continue /\ cli_wf options a
  | None => decision_status d <> Continue
  end.

(** The evidence for a finished goal: an outcome and a check that passed. *)
Definition proven (evidence : option finish_evidence_payload) : Prop :=
  exists e outcome check checks edges, evidence = Some e /\
    primary_outcome_achieved e = Some outcome /\ validation_checks_passed e = Some (check :: checks) /\
    edge_cases_handled e = Some edges /\
    Forall (fun value => trim value <> []) (outcome :: check :: checks ++ edges).

Lemma or_progress_clean title progress f :
  clean_option title -> clean_option (or_progress title progress f).
Proof.
  intros H. unfold or_progress. destruct title; [done|].
  destruct progress; [apply clean_optional_clean|done].
Qed.

Lemma clean_each_Ok values field idx xs : clean_each values field idx = Ok xs ->
  length xs = length values /\
  Forall (fun value => is_Some (clean_optional (Some value))) values.
Proof.
  revert idx xs. induction values as [|value values IH]; intros idx xs H; cbn [clean_each] in H.
  { by injection H as <-. }
  apply result_bind_Ok in H as (x & Hx & H). apply result_bind_Ok in H as (ys & Hys & H).
  injection H as <-. destruct (IH _ _ Hys) as [Hl Hf]. split; [cbn; by rewrite Hl|].
  constructor; [|done]. rewrite clean_required_optional in Hx.
  destruct (clean_optional (Some value)); [done|discriminate].
Qed.

Lemma convert_agents_wf field batch payloads actions :
  (forall models, batch = Some models -> models_wf models) ->
  convert_agents field batch payloads = Ok actions -> Forall agent_wf actions.
Proof.
  intros Hb. revert actions. induction payloads as [|p payloads IH]; intros actions H;
    cbn [convert_agents] in H; [by injection H as <-; constructor|].
  apply result_bind_Ok in H as (prompt & Hp & H). apply result_bind_Ok in H as (rest & Hr & H).
  injection H as <-. constructor; [|by apply IH].
  split_and!; [by eapply clean_required_Ok|apply clean_optional_clean|].
  intros models. cbn [agent_models]. destruct (clean_models (payload_models p)) eqn:E; [|apply Hb].
  intros [= ->]. by eapply clean_models_wf.
Qed.

Lemma convert_agents_field_wf agents timing actions :
  convert_agents_field agents = Ok (timing, actions) -> Forall agent_wf actions.
Proof.
  unfold convert_agents_field. destruct agents as [[payloads|t models payloads]|]; intros H.
  - apply result_bind_Ok in H as (x & Hx & [= <- <-]). by eapply convert_agents_wf; [|exact Hx].
  - apply result_bind_Ok in H as (x & Hx & [= <- <-]). eapply convert_agents_wf; [|exact Hx].
    intros ms. apply clean_models_wf.
  - injection H as <- <-. constructor.
Qed.

Lemma selection_selected status model effort options selection :
  status = Continue -> validate_cli_model_selection status model effort options = Ok selection ->
  selected options selection.
Proof.
  intros ->. unfold validate_cli_model_selection, selected.
  destruct (require_cli_model_routing options); cbn [negb]; [|by intros [= <-]].
  intros H. apply result_bind_Ok in H as (m & _ & H). apply result_bind_Ok in H as (r & _ & H).
  apply result_bind_Ok in H as (entry & He & H). apply result_bind_Ok in H as (level & _ & H).
  destruct (has_level (routing_levels entry) level) eqn:El; [|done]. injection H as <-.
  exists entry, level. split_and!; [|by apply has_level_spec|done].
  unfold normalize_cli_model in He.
  destruct (filter _ (allowed_cli_routing_entries options)) as [|x l] eqn:Ef; [done|].
  injection He as ->. assert (Hin : entry ∈ entry :: l) by (by left).
  rewrite <- Ef in Hin. by apply list_elem_of_filter in Hin as [_ ?].
Qed.

Lemma clean_not_blank value : is_Some (clean_optional (Some value)) -> trim value <> [].
Proof. intros [t Ht] E. unfold clean_optional in Ht. by rewrite E in Ht. Qed.

Lemma evidence_proven status evidence : status <> Continue ->
  validate_finish_evidence_for_status status evidence = Ok tt -> proven evidence.
Proof.
  intros Hs H. unfold validate_finish_evidence_for_status in H.
  destruct status; [done|..].
  all: apply result_bind_Ok in H as (e & He & H); apply result_bind_Ok in H as (o & Ho & H);
    apply result_bind_Ok in H as (t & Ht & H); apply result_bind_Ok in H as (cs & Hcs & H);
    apply result_bind_Ok in H as (u & Hu & H); apply result_bind_Ok in H as (es & Hes & _);
    unfold clean_required_list in Hcs, Hes;
    apply result_bind_Ok in Hcs as (checks & Hc & Hcs);
    apply result_bind_Ok in Hes as (edges & Hed & Hes);
    apply clean_each_Ok in Hcs as [Hl Hcs]; apply clean_each_Ok in Hes as [_ Hes];
    destruct checks as [|check checks]; [destruct cs; [done|discriminate Hl]|];
    destruct evidence as [e'|]; [|done]; injection He as ->;
    destruct (primary_outcome_achieved e) as [o'|] eqn:Eo; [|done]; injection Ho as ->;
    destruct (validation_checks_passed e) as [cs'|] eqn:Ec; [|done]; injection Hc as ->;
    destruct (edge_cases_handled e) as [es'|] eqn:Ee; [|done]; injection Hed as ->;
    exists e, o, check, checks, edges; split_and!; try done;
    rewrite clean_required_optional in Ht;
    apply (Forall_impl (fun value => is_Some (clean_optional (Some value)))); [|apply clean_not_blank];
    apply Forall_cons; split; [destruct (clean_optional (Some o)); [done|discriminate]|];
    apply Forall_cons in Hcs as [? ?]; constructor; [done|]; by apply Forall_app.
Qed.

Section checked.
Context {json : Type}.
Context (from_str : str -> option json).
Context (as_new : json -> result str coordinator_decision_new).
Context (as_legacy : json -> result str coordinator_decision_legacy).
Context (to_string : json -> option str).

Lemma convert_new_wf decision status options d :
  convert_decision_new decision status options = Ok d ->
  decision_wf options d /\ decision_status d = status /\
  (status = Continue -> new_finish_evidence decision = None) /\
  (status <> Continue -> proven (new_finish_evidence decision)) /\
  forall a, decision_cli d = Some a ->
    4 <= length (cli_prompt a) <= 600.
Proof.
  unfold convert_decision_new. intros H.
  apply result_bind_Ok in H as (_ & _ & H). apply result_bind_Ok in H as ([] & Hev & H).
  apply result_bind_Ok in H as (selection & Hsel & H).
  apply result_bind_Ok in H as (cli & Hcli & H).
  apply result_bind_Ok in H as ([timing actions] & Hag & H). injection H as <-.
  pose proof (convert_agents_field_wf _ _ _ Hag) as Hagents.
  unfold decision_wf. cbn [decision_status decision_status_title decision_status_sent_to_user
    decision_cli decision_agents decision_goal fst snd].
  assert (Hc : match cli with
               | Some a => status = Continue /\ cli_wf options a /\
                   4 <= length (cli_prompt a) <= 600
               | None => status <> Continue
               end).
  { destruct status, (clean_optional (new_cli_milestone_instruction decision)) as [p|];
      try discriminate; try (by injection Hcli as <-).
    apply result_bind_Ok in Hcli as (prompt & Hp & Hcli).
    apply result_bind_Ok in Hcli as (u & Hlen & Hcli). injection Hcli as <-.
    unfold cli_wf. cbn. split_and!; [done|by eapply clean_required_Ok|done|done| | |].
    - destruct selection as [m l]. by eapply selection_selected.
    - unfold ensure_cli_prompt_length in Hlen. by destruct (Nat.ltb_spec (length prompt) CLI_PROMPT_MIN_CHARS).
    - unfold ensure_cli_prompt_length in Hlen.
      destruct (length prompt <? CLI_PROMPT_MIN_CHARS); [done|].
      by destruct (Nat.ltb_spec CLI_PROMPT_MAX_CHARS (length prompt)). }
  split_and!; try apply or_progress_clean; try apply clean_optional_clean; try done.
  - destruct cli; [by destruct Hc as (? & ? & _)|done].
  - intros ->. cbn in Hev. by destruct (new_finish_evidence decision).
  - intros Hs. by eapply evidence_proven.
  - intros a ->. by destruct Hc as (_ & _ & ?).
Qed.

Lemma convert_legacy_wf decision status options d :
  convert_decision_legacy decision status options = Ok d ->
  decision_wf options d /\ decision_status d = Continue /\
  require_cli_model_routing options = false.
Proof.
  unfold convert_decision_legacy. destruct status; [|done..].
  destruct (require_cli_model_routing options) eqn:Er; [done|]. intros H.
  apply result_bind_Ok in H as (cli & Hcli & H). injection H as <-.
  destruct (legacy_cli_prompt decision) as [p|]; [|done].
  apply result_bind_Ok in Hcli as (prompt & Hp & Hcli). injection Hcli as <-.
  unfold decision_wf, cli_wf, selected. cbn. rewrite Er.
  split_and!; try apply clean_optional_clean; try done; by eapply clean_required_Ok.
Qed.

Lemma parse_decision_wf raw options d v :
  parse_decision from_str as_new as_legacy to_string raw options = Some (Ok (d, v)) ->
  decision_wf options d /\
  match as_new v with
  | Ok new =>
      (decision_status d = Continue -> new_finish_evidence new = None) /\
      (decision_status d <> Continue -> proven (new_finish_evidence new)) /\
      forall a, decision_cli d = Some a -> 4 <= length (cli_prompt a) <= 600
  | Err _ => decision_status d = Continue /\ require_cli_model_routing options = false
  end.
Proof.
  unfold parse_decision. destruct (read_value from_str raw) as [v'|e]; [|done].
  destruct (as_new v') as [new|new_err] eqn:En.
  - intros [= H]. apply result_bind_Ok in H as (status & _ & H).
    apply result_bind_Ok in H as (d' & Hd & H). injection H as <- <-. rewrite En.
    by destruct (convert_new_wf _ _ _ _ Hd) as (? & <- & ? & ? & ?).
  - destruct (as_legacy v') as [legacy|legacy_err].
    + intros [= H]. apply result_bind_Ok in H as (status & _ & H).
      apply result_bind_Ok in H as (d' & Hd & H). injection H as <- <-. rewrite En.
      by apply convert_legacy_wf in Hd.
    + by destruct (payload_snippet to_string v').
Qed.


(** C12: A decision that is accepted has clean texts (trimmed, not empty) for its titles, goal,
    prompt, context, agents and their models; it has an action for the command line exactly when
    the turn continues, and that action's model and level are those of an allowed entry when
    routing is required and none otherwise.  When the answer is one of the current schema, the
    prompt has 4 to 600 characters, a turn that continues comes without evidence, and a finished
    goal with evidence: an outcome and a check that passed, none of its texts blank.  When it is
    one of the legacy schema (which sets no length), the turn continues and no routing is
    required. *)
Theorem decision_checked raw options d v :
  parse_decision from_str as_new as_legacy to_string raw options = Some (Ok (d, v)) ->
  decision_wf options d /\
  match as_new v with
  | Ok new =>
      (decision_status d = Continue -> new_finish_evidence new = None) /\
      (decision_status d <> Continue -> proven (new_finish_evidence new)) /\
      forall a, decision_cli d = Some a -> 4 <= length (cli_prompt a) <= 600
  | Err _ => decision_status d = Continue /\ require_cli_model_routing options = false
  end.
Proof. apply parse_decision_wf. Qed.

(** ** Which errors are retried *)

(** Texts in lower case that make an error recoverable. *)
Definition markers : list string := [
  "missing cli_milestone_instruction"; "missing finish_evidence"; "missing cli_model";
  "missing cli_reasoning_effort"; "validation_checks_passed must include at least one";
  "finish_evidence must be null"; "must set cli_milestone_instruction to null";
  "must set cli_model to null"; "must set cli_reasoning_effort to null";
  "unsupported cli_model"; "unsupported cli_reasoning_effort";
  "legacy model response missing cli_prompt for continue"; "unexpected finish_status";
  "model response was not valid json"; "parsing json from model output";
  "decoding coordinator decision failed"]%string.

Definition retried (text : str) : Prop := classify_recoverable_decision_error text <> None.

Lemma str_contains_app p a b : str_contains p (a ++ p ++ b) = true.
Proof.
  induction a as [|c a IH]; cbn [app].
  - destruct (p ++ b) eqn:E; cbn [str_contains]; rewrite <- E, starts_with_app; done.
  - cbn [str_contains]. by rewrite IH, orb_true_r.
Qed.

Lemma lowercase_app a b : to_ascii_lowercase (a ++ b) = to_ascii_lowercase a ++ to_ascii_lowercase b.
Proof. apply fmap_app. Qed.

Lemma retried_marker m a b text : m ∈ markers ->
  to_ascii_lowercase text = a ++ lit m ++ b -> retried text.
Proof.
  intros Hm Ht. pose proof (str_contains_app (lit m) a b) as H. rewrite <- Ht in H. clear Ht.
  unfold retried, classify_recoverable_decision_error, recoverable. cbn zeta.
  repeat (apply elem_of_cons in Hm as [->|Hm]; [rewrite H, ?orb_true_r; repeat case_match; done|]).
  by apply not_elem_of_nil in Hm.
Qed.

Lemma lit_app a b : lit (a ++ b)%string = lit a ++ lit b.
Proof.
  unfold lit. rewrite <- fmap_app. f_equal.
  induction a as [|c a IH]; [done|]. exact (f_equal (cons c) IH).
Qed.

(** The marker at the start of an error. *)
Lemma retried_start m more text : m ∈ markers -> to_ascii_lowercase (lit m) = lit m ->
  retried (lit (m ++ more)%string ++ text).
Proof.
  intros Hm Hl. apply (retried_marker m [] (to_ascii_lowercase (lit more ++ text))); [done|].
  by rewrite lit_app, <- app_assoc, lowercase_app, Hl.
Qed.

Lemma split_once_str_found sep a b : exists p, split_once_str sep (a ++ sep ++ b) = Some p.
Proof.
  induction a as [|c a [p IH]]; cbn [app].
  - exists ([], b). destruct (sep ++ b) as [|c s] eqn:E; cbn [split_once_str]; rewrite <- E;
      by rewrite strip_prefix_app.
  - cbn [split_once_str]. destruct (strip_prefix sep (c :: a ++ sep ++ b)) as [rest|];
      [by eexists|]. rewrite IH. by eexists.
Qed.

(** An error about a field is recoverable if its name starts with a letter. *)
Lemma field_found m c field : is_whitespace c = false -> c <> 96%N ->
  (forall s, strip_prefix (lit m) (c :: s) = None) ->
  is_Some (field_before (lit m) (c :: field ++ lit m)).
Proof.
  intros Hw Hq Hc. unfold field_before.
  destruct (split_once_str_found (lit m) field []) as [[f r] Hf]. rewrite app_nil_r in Hf.
  cbn [split_once_str]. rewrite Hc, Hf. cbn [fmap option_fmap option_map fst snd].
  assert (E : trim_matches 96%N (trim (c :: f)) =
              c :: drop_while_end (N.eqb 96) (trim_end f)).
  { rewrite trim_cons by done. unfold trim_matches.
    assert (Hb : (96 =? c)%N = false) by (by apply N.eqb_neq; congruence).
    rewrite drop_while_end_cons by done. cbn [drop_while]. by rewrite Hb. }
  rewrite E. done.
Qed.

Lemma retried_field m c field : m ∈ [" is empty"; " is missing"]%string ->
  is_whitespace c = false -> c <> 96%N -> retried (c :: field ++ lit m).
Proof.
  intros Hm Hw Hq. unfold retried, classify_recoverable_decision_error, recoverable. cbn zeta.
  assert (Hhas : str_contains (lit m) (to_ascii_lowercase (c :: field ++ lit m)) = true).
  { change (c :: field ++ lit m) with ((c :: field) ++ lit m). rewrite lowercase_app.
    assert (El : to_ascii_lowercase (lit m) = lit m)
      by (by repeat (apply elem_of_cons in Hm as [->|Hm]; [done|]); apply not_elem_of_nil in Hm).
    rewrite El. pose proof (str_contains_app (lit m) (to_ascii_lowercase (c :: field)) []) as H.
    by rewrite app_nil_r in H. }
  assert (Hf : is_Some (field_before (lit m) (c :: field ++ lit m))).
  { apply field_found; [done|done|]. intros s.
    assert (H32 : (32 =? c)%N = false) by (apply N.eqb_neq; by intros <-).
    apply elem_of_cons in Hm as [->|Hm]; [|apply list_elem_of_singleton in Hm as ->].
    - change (strip_prefix (lit " is empty") (c :: s))
        with (if (32 =? c)%N then strip_prefix (lit "is empty") s else None). by rewrite H32.
    - change (strip_prefix (lit " is missing") (c :: s))
        with (if (32 =? c)%N then strip_prefix (lit "is missing") s else None). by rewrite H32. }
  destruct Hf as [f Hf].
  repeat (apply elem_of_cons in Hm as [->|Hm]; [rewrite Hhas, Hf; repeat case_match; done|]).
  by apply not_elem_of_nil in Hm.
Qed.

(** A fixed error is classified by computation. *)
Ltac retried_fixed := let H := fresh in intros H; vm_compute in H; discriminate H.

Ltac marked := unfold markers; repeat first [by left | right].

Definition field_name (field : str) : Prop :=
  exists c rest, field = c :: rest /\ is_whitespace c = false /\ c <> 96%N.

Ltac field_named :=
  match goal with |- field_name ?f =>
    match eval vm_compute in f with ?c :: ?rest =>
      exists c, rest; split; [reflexivity|split; [reflexivity|discriminate]]
    end
  end.

Lemma clean_required_retried value field e : field_name field ->
  clean_required value field = Err e -> retried e.
Proof.
  intros (c & rest & -> & Hw & Hq) ->%clean_required_Err.
  apply (retried_field " is empty"%string); [by left|done|done].
Qed.

Lemma clean_each_retried values field idx e : field_name field ->
  clean_each values field idx = Err e -> retried e.
Proof.
  intros (c & rest & -> & Hw & Hq). revert idx.
  induction values as [|value values IH]; intros idx; cbn [clean_each]; [done|].
  intros [H|(x & _ & H)]%result_bind_Err.
  - eapply clean_required_retried; [|exact H]. by exists c, (rest ++ lit "[" ++ show_nat idx ++ lit "]").
  - apply result_bind_Err in H as [H|(xs & _ & H)]; [by eapply IH|done].
Qed.

Lemma clean_required_list_retried values field e : field_name field ->
  clean_required_list values field = Err e -> retried e.
Proof.
  intros Hf [H|(x & _ & H)]%result_bind_Err; [|by eapply clean_each_retried].
  destruct values; [done|]. injection H as <-. destruct Hf as (c & rest & -> & Hw & Hq).
  apply (retried_field " is missing"%string); [by right; left|done|done].
Qed.

Lemma finish_status_retried s e : parse_finish_status s = Err e -> retried e.
Proof.
  unfold parse_finish_status. repeat case_match; try done. intros [= <-].
  apply (retried_start "unexpected finish_status" " '"); [marked|done].
Qed.

Lemma evidence_retried status evidence e :
  validate_finish_evidence_for_status status evidence = Err e -> retried e.
Proof.
  unfold validate_finish_evidence_for_status.
  destruct status; [destruct evidence; [intros [= <-]; retried_fixed|done]|..];
    (intros [H|(ev & _ & H)]%result_bind_Err;
       [destruct evidence; [done|]; injection H as <-; retried_fixed|]);
    (apply result_bind_Err in H as [H|(o & _ & H)];
       [destruct (primary_outcome_achieved ev); [done|]; injection H as <-; retried_fixed|]);
    (apply result_bind_Err in H as [H|(t & _ & H)];
       [eapply clean_required_retried; [|exact H]; field_named|]);
    (apply result_bind_Err in H as [H|(cs & _ & H)];
       [eapply clean_required_list_retried; [|exact H]; field_named|]);
    (apply result_bind_Err in H as [H|(u & _ & H)];
       [destruct cs; [injection H as <-; retried_fixed|done]|]);
    (apply result_bind_Err in H as [H|(es & _ & H)];
       [eapply clean_required_list_retried; [|exact H]; field_named|done]).
Qed.

Lemma selection_retried status model effort options e :
  validate_cli_model_selection status model effort options = Err e -> retried e.
Proof.
  unfold validate_cli_model_selection. destruct (negb _); [done|].
  destruct status;
    [|by destruct model; [intros [= <-]; retried_fixed|];
      destruct effort; [intros [= <-]; retried_fixed|]..].
  intros [H|(m & _ & H)]%result_bind_Err.
  { destruct model; [done|]. injection H as <-. retried_fixed. }
  apply result_bind_Err in H as [H|(r & _ & H)].
  { destruct effort; [done|]. injection H as <-. retried_fixed. }
  apply result_bind_Err in H as [H|(entry & _ & H)].
  { unfold normalize_cli_model in H. destruct (filter _ _); [|done]. injection H as <-.
    apply (retried_start "unsupported cli_model" " '"); [marked|done]. }
  assert (Hu : forall x, retried (lit "unsupported cli_reasoning_effort '" ++ x)).
  { intros x. apply (retried_start "unsupported cli_reasoning_effort" " '"); [marked|done]. }
  apply result_bind_Err in H as [H|(level & _ & H)].
  - unfold parse_cli_reasoning_effort in H. repeat case_match; try done. injection H as <-; apply Hu.
  - destruct (negb _); [|done]. injection H as <-; apply Hu.
Qed.

Lemma agents_retried agents e : convert_agents_field agents = Err e -> retried e.
Proof.
  assert (H : forall field batch payloads, field_name field ->
    convert_agents field batch payloads = Err e -> retried e).
  { intros field batch payloads Hf. induction payloads as [|p payloads IH]; cbn [convert_agents]; [done|].
    intros [H|(x & _ & H)]%result_bind_Err; [by eapply clean_required_retried|].
    by apply result_bind_Err in H as [H|(y & _ & H)]; [apply IH|]. }
  unfold convert_agents_field. destruct agents as [[payloads|t models payloads]|]; [..|done];
    (intros [Hc|(x & _ & Hc)]%result_bind_Err; [|done]);
    (eapply H; [|exact Hc]; field_named).
Qed.

(** The two errors of the current schema that end the run. *)
Definition prompt_too_short : str :=
  lit "cli_milestone_instruction must be at least 4 characters; keep it concise but not empty".
Definition unexpected_phase (phase : str) : str :=
  lit "unexpected phase '" ++ phase ++ lit "'; use one of: explore, implement, validate, lockdown".

Lemma rejected_kinds raw options e :
  parse_decision from_str as_new as_legacy to_string raw options = Some (Err e) ->
  retried e \/ e = prompt_too_short \/ exists phase, e = unexpected_phase phase.
Proof.
  unfold parse_decision. destruct (read_value from_str raw) as [v|err] eqn:Er.
  2: { intros [= ->]. left. unfold read_value in Er. destruct (from_str raw); [done|].
       destruct (extract_first_json_object raw) as [blob|]; [|injection Er as <-; retried_fixed].
       destruct (from_str blob); [done|]. injection Er as <-. retried_fixed. }
  destruct (as_new v) as [new|new_err].
  - intros [= H]. apply result_bind_Err in H as [H|(status & _ & H)];
      [left; by eapply finish_status_retried|].
    apply result_bind_Err in H as [H|(d & _ & H)]; [|done]. unfold convert_decision_new in H.
    apply result_bind_Err in H as [H|(u & _ & H)].
    { unfold validate_phase in H. destruct (clean_optional (new_phase new)) as [phase|]; [|done].
      destruct (str_mem phase _); [done|]. injection H as <-. right; right. by exists phase. }
    apply result_bind_Err in H as [H|(u2 & _ & H)]; [left; by eapply evidence_retried|].
    apply result_bind_Err in H as [H|(sel & _ & H)]; [left; by eapply selection_retried|].
    apply result_bind_Err in H as [H|(cli & _ & H)].
    2: { apply result_bind_Err in H as [H|(a & _ & H)]; [left; by eapply agents_retried|done]. }
    destruct status, (clean_optional (new_cli_milestone_instruction new)) as [p|];
      try discriminate; try (injection H as <-; left; retried_fixed).
    apply result_bind_Err in H as [H|(q & _ & H)];
      [left; eapply clean_required_retried; [|exact H]; field_named|].
    apply result_bind_Err in H as [H|(q2 & _ & H)]; [|done].
    unfold ensure_cli_prompt_length in H. destruct (length q <? _); [injection H as <-; by right; left|].
    destruct (_ <? _); [|done]. injection H as <-. left. retried_fixed.
  - destruct (as_legacy v) as [legacy|legacy_err].
    + intros [= H]. left. apply result_bind_Err in H as [H|(status & _ & H)];
        [by eapply finish_status_retried|].
      apply result_bind_Err in H as [H|(d & _ & H)]; [|done]. unfold convert_decision_legacy in H.
      destruct status; [|injection H as <-; retried_fixed..].
      destruct (require_cli_model_routing options); [injection H as <-; retried_fixed|].
      apply result_bind_Err in H as [H|(cli & _ & H)]; [|done].
      destruct (legacy_cli_prompt legacy); [|injection H as <-; retried_fixed].
      apply result_bind_Err in H as [H|(q & _ & H)]; [|done].
      eapply clean_required_retried; [|exact H]; field_named.
    + destruct (payload_snippet to_string v) as [snippet|]; [|done]. intros [= <-]. left.
      apply (retried_start "decoding coordinator decision failed" ": new_schema_err=");
        [marked|done].
Qed.

Lemma prompt_too_short_ends : ~ retried prompt_too_short.
Proof. intros H. apply H. by vm_compute. Qed.

(** C27: The error of every answer that [parse_decision] rejects is one that
    [classify_recoverable_decision_error] recognises, whatever the answer, except for a prompt of
    fewer than four characters, whose error it never recognises, and an unknown phase.  (How
    often a recognised error is asked for again is the coordinator's to limit.) *)
Theorem rejected_retried raw options e :
  parse_decision from_str as_new as_legacy to_string raw options = Some (Err e) ->
  ((retried e /\ e <> prompt_too_short) \/
   (e = prompt_too_short /\ ~ retried e) \/ exists phase, e = unexpected_phase phase).
Proof.
  intros [H|[->|H]]%rejected_kinds; [|right; left; split; [done|apply prompt_too_short_ends]|by right; right].
  left. split; [done|]. intros ->. by apply prompt_too_short_ends.
Qed.
End checked.

(** ** The object in an answer *)

(** The rest of a JSON string after its first quote, and a text in which strings are closed
    and braces outside of strings balanced. *)
Inductive string_rest : str -> Prop :=
| string_end : string_rest [QUOTE]
| string_escape c s : string_rest s -> string_rest (BACKSLASH :: c :: s)
| string_char c s : c <> QUOTE -> c <> BACKSLASH -> string_rest s -> string_rest (c :: s).

Inductive balanced : str -> Prop :=
| balanced_nil : balanced []
| balanced_char c s : c <> QUOTE -> c <> OPEN_BRACE -> c <> CLOSE_BRACE ->
    balanced s -> balanced (c :: s)
| balanced_string t s : string_rest t -> balanced s -> balanced (QUOTE :: t ++ s)
| balanced_braces b s : balanced b -> balanced s ->
    balanced (OPEN_BRACE :: b ++ CLOSE_BRACE :: s).

Lemma eqb_neq (a b : char) : a <> b -> (a =? b)%N = false.
Proof. apply N.eqb_neq. Qed.

Lemma scan_string input t rest idx depth start : string_rest t ->
  scan_object input (t ++ rest) idx depth true false start =
  scan_object input rest (idx + length t) depth false false start.
Proof.
  intros Ht. revert idx. induction Ht as [|c s Hs IH|c s Hq Hb Hs IH]; intros idx.
  - done.
  - change (scan_object input (c :: s ++ rest) (idx + 1) depth true true start =
      scan_object input rest (idx + S (S (length s))) depth false false start).
    cbn [scan_object]. rewrite IH. f_equal. lia.
  - cbn [app scan_object]. rewrite (eqb_neq c QUOTE), (eqb_neq c BACKSLASH) by done.
    rewrite IH. cbn [length]. f_equal. lia.
Qed.

Lemma scan_balanced input b rest idx depth start : balanced b -> depth <> 0 ->
  scan_object input (b ++ rest) idx depth false false start =
  scan_object input rest (idx + length b) depth false false start.
Proof.
  intros Hb. revert rest idx depth.
  induction Hb as [|c s H1 H2 H3 Hs IH|t s Ht Hs IH|b s Hb IHb Hs IHs]; intros rest idx depth Hd.
  - cbn [app length]. by rewrite Nat.add_0_r.
  - cbn [app scan_object].
    rewrite (eqb_neq c QUOTE), (eqb_neq c OPEN_BRACE), (eqb_neq c CLOSE_BRACE) by done.
    rewrite IH by done. cbn [length]. f_equal. lia.
  - change (scan_object input ((t ++ s) ++ rest) (idx + 1) depth true false start =
      scan_object input rest (idx + S (length (t ++ s))) depth false false start).
    rewrite <- app_assoc, scan_string, IH by done. f_equal. rewrite length_app. lia.
  - change (scan_object input ((b ++ CLOSE_BRACE :: s) ++ rest) (idx + 1) (depth + 1) false false
              (if depth =? 0 then Some idx else start) =
      scan_object input rest (idx + S (length (b ++ CLOSE_BRACE :: s))) depth false false start).
    apply Nat.eqb_neq in Hd as Hd'. rewrite Hd', <- app_assoc, IHb by lia. cbn [app scan_object].
    change (CLOSE_BRACE =? QUOTE)%N with false. change (CLOSE_BRACE =? OPEN_BRACE)%N with false.
    change (CLOSE_BRACE =? CLOSE_BRACE)%N with true. cbn iota.
    destruct (Nat.eqb_spec (depth + 1) 0); [lia|]. rewrite Nat.add_sub, Hd'.
    rewrite IHs by done. f_equal. rewrite length_app. cbn [length]. lia.
Qed.

(** An object is found behind text without quotes and braces, whatever follows it: the text
    between a brace and the one that closes it. *)
Theorem object_extracted before b after :
  QUOTE ∉ before -> OPEN_BRACE ∉ before -> balanced b ->
  extract_first_json_object (before ++ OPEN_BRACE :: b ++ CLOSE_BRACE :: after) =
  Some (OPEN_BRACE :: b ++ [CLOSE_BRACE]).
Proof.
  intros Hq Ho Hb. unfold extract_first_json_object. set (input := before ++ _).
  assert (Hpre : forall p idx, QUOTE ∉ p -> OPEN_BRACE ∉ p -> forall rest,
    scan_object input (p ++ rest) idx 0 false false None =
    scan_object input rest (idx + length p) 0 false false None).
  { induction p as [|c p IH]; intros idx Hq' Ho' rest; cbn [app length].
    { by rewrite Nat.add_0_r. }
    apply not_elem_of_cons in Hq' as [Hq1 Hq2]. apply not_elem_of_cons in Ho' as [Ho1 Ho2].
    cbn [scan_object]. rewrite (eqb_neq c QUOTE), (eqb_neq c OPEN_BRACE) by congruence.
    cbn [Nat.eqb]. destruct (c =? CLOSE_BRACE)%N; rewrite IH by done; f_equal; lia. }
  unfold input at 2. rewrite Hpre by done. cbn [scan_object app].
  change (OPEN_BRACE =? QUOTE)%N with false. change (OPEN_BRACE =? OPEN_BRACE)%N with true.
  cbn iota. rewrite Nat.add_0_l. change (0 + 1) with 1. change (0 =? 0) with true. cbn iota.
  rewrite scan_balanced by done. cbn [scan_object].
  change (CLOSE_BRACE =? QUOTE)%N with false. change (CLOSE_BRACE =? OPEN_BRACE)%N with false.
  change (CLOSE_BRACE =? CLOSE_BRACE)%N with true. change (1 =? 0) with false.
  change (1 - 1 =? 0) with true. cbn iota. f_equal. unfold input.
  rewrite drop_app_length.
  replace (length before + 1 + length b + 1 - length before) with (S (length (b ++ [CLOSE_BRACE])))
    by (rewrite length_app; cbn [length]; lia).
  cbn [take]. f_equal. rewrite (assoc_L (++) b [CLOSE_BRACE] after : b ++ CLOSE_BRACE :: after = _).
  apply take_app_length.
Qed.

(** ** Runs *)

Module DecisionRuns.
(** A decoder for three answers: the JSON value is its text. *)
Definition good : coordinator_decision_new :=
  CoordinatorDecisionNew (lit "continue") (Some (lit "implement")) (Some (lit "CLI: Build "))
    None (Some (ProgressPayload (Some (lit "read the code")) None))
    (Some (lit "Fix the failing test")) (Some (lit "GPT-5.5")) (Some (lit "high"))
    (Some (AgentsList [AgentPayload (lit "look around") None (Some true)
       (Some [lit "b"; lit " a"; lit "b"])])) None None.

Definition with_prompt (prompt : string) : coordinator_decision_new :=
  CoordinatorDecisionNew (lit "continue") None None None None (Some (lit prompt))
    (Some (lit "gpt-5.5")) (Some (lit "high")) None None None.

Definition with_phase (phase : string) : coordinator_decision_new :=
  CoordinatorDecisionNew (lit "continue") (Some (lit phase)) None None None
    (Some (lit "Fix the failing test")) (Some (lit "gpt-5.5")) (Some (lit "high")) None None None.

Definition decode (new : coordinator_decision_new) (_ : str) : result str coordinator_decision_new :=
  Ok new.
Definition no_new (_ : str) : result str coordinator_decision_new := Err (lit "missing field").
Definition no_legacy (_ : str) : result str coordinator_decision_legacy := Err (lit "missing field").

Definition routed : decision_parse_options :=
  DecisionParseOptions true default_auto_drive_cli_routing_entries.

Definition parse (new : coordinator_decision_new) :=
  parse_decision Some (decode new) no_legacy Some (lit "{}") routed.

Definition accepted : parsed_coordinator_decision :=
  ParsedCoordinatorDecision Continue (Some (lit "Build")) (Some (lit "read the code"))
    (Some (CliAction (lit "Fix the failing test") None false (Some (lit "gpt-5.5")) (Some High)))
    None [AgentAction (lit "look around") None (Some true) (Some [lit "a"; lit "b"])] None.

Lemma decision_checked_witness :
  parse good = Some (Ok (accepted, lit "{}")) /\ decision_wf routed accepted.
Proof.
  assert (H : parse good = Some (Ok (accepted, lit "{}"))) by (vm_compute; reflexivity).
  split; [exact H|].
  exact (proj1 (decision_checked Some (decode good) no_legacy Some (lit "{}") routed accepted
                  (lit "{}") H)).
Defined.

(** A prompt of three characters ends the run, one of 601 is asked for again. *)
Example short_prompt_fatal :
  parse (with_prompt "go!") = Some (Err prompt_too_short) /\
  classify_recoverable_decision_error prompt_too_short = None.
Proof. split; vm_compute; reflexivity. Qed.

Example unknown_phase_fatal :
  parse (with_phase "test") = Some (Err (unexpected_phase (lit "test"))) /\
  classify_recoverable_decision_error (unexpected_phase (lit "test")) = None.
Proof. split; vm_compute; reflexivity. Qed.

Lemma rejected_retried_witness :
  parse (with_prompt " ") <> None /\
  retried (lit "model response missing cli_milestone_instruction for continue").
Proof.
  split; [vm_compute; discriminate|].
  destruct (rejected_retried Some (decode (with_prompt " ")) no_legacy Some (lit "{}") routed
    (lit "model response missing cli_milestone_instruction for continue")) as [[H _]|[[H _]|[p H]]].
  - vm_compute; reflexivity.
  - exact H.
  - vm_compute in H; discriminate H.
  - exfalso. assert (Hh : Some 109%N = Some 117%N) by exact (f_equal head H). discriminate Hh.
Defined.

(** An answer that fits neither schema, with a character of two bytes at byte 2000 of its
    printed form: the coordinator panics. *)
Example snippet_panics :
  let answer := replicate (N.to_nat 1999) 97%N ++ [233%N; 97%N] in
  parse_decision Some no_new no_legacy Some answer routed = None.
Proof. vm_compute. reflexivity. Qed.

(** Only one role prefix is removed. *)
Example second_prefix_stays :
  clean_optional (Some (lit "CLI: CLI: run the tests")) = Some (lit "CLI: run the tests").
Proof. reflexivity. Qed.

(** A quote in front of the object hides it. *)
Example quote_hides_object :
  extract_first_json_object (lit "5" ++ [QUOTE] ++ lit " {}") = None.
Proof. reflexivity. Qed.

Lemma object_extracted_witness :
  extract_first_json_object (lit "Here it is: " ++ OPEN_BRACE ::
    [QUOTE; CLOSE_BRACE; BACKSLASH; QUOTE; QUOTE] ++ CLOSE_BRACE :: lit " }") =
  Some (OPEN_BRACE :: [QUOTE; CLOSE_BRACE; BACKSLASH; QUOTE; QUOTE] ++ [CLOSE_BRACE]).
Proof.
  apply object_extracted.
  - apply (bool_decide_unpack _). vm_compute. exact I.
  - apply (bool_decide_unpack _). vm_compute. exact I.
  - apply (balanced_string [CLOSE_BRACE; BACKSLASH; QUOTE; QUOTE] []); [|constructor].
    apply string_char; [discriminate|discriminate|]. apply string_escape, string_end.
Defined.
End DecisionRuns.
