(* ===== verification/AutoCoordinator.v ===== *)
(** * The Auto Drive coordinator

    The thread of [code-auto-drive-core/src/auto_coordinator.rs]: [run_auto_loop] takes a
    conversation, compacts it, asks the model for a decision, sends the decision to the
    interface and waits for its acknowledgement; conversations that arrive meanwhile wait in
    a queue.  An answer that cannot be read is asked for again.

    [step] is one iteration of the loop.  A [round] holds what the iteration may meet: the
    answers of the services, the next command, and whether the run was cancelled.  The
    outputs are the events sent, and the requests made of the model, for a decision or for
    the reply to a user, which are recorded to state what the loop does.  [None] is a panic of the thread in [parse_decision]; the
    panics of a request are in [AutoRequest].

    An answer of the model is an argument, which [AutoRequest] computes; so are the texts of
    a request other than its conversation and the warning.  Not modelled: the counters of the
    log, the events of the stream, and the schema. *)

From stdpp Require Import base list.
From S2P Require Import Prelude History Retention Truncation Compaction SessionMetrics.
From S2P Require Import AutoHistory AutoCompact AutoDrive AutoDecision.

Local Open Scope nat_scope.

(** ** Conversations *)

Definition HARD_MESSAGE_LIMIT : nat := N.to_nat 320.
Definition MAX_QUEUED_CONVERSATION_UPDATES : nat := 24.
Definition MAX_DECISION_RECOVERY_ATTEMPTS : N := 3.
Definition DEBUG_JSON_MAX_CHARS : nat := N.to_nat 1200.

Definition MODEL_SLUG : str := lit "gpt-5.1".

(** [if queue.len() >= MAX { queue.pop_front(); } queue.push_back(update)] *)
Definition queue_update_capped {A} (queue : list A) (update : A) : list A :=
  (if MAX_QUEUED_CONVERSATION_UPDATES <=? length queue then drop 1 queue else queue) ++ [update].

Definition summarize_json_for_debug (raw : str) : str :=
  let trimmed := trim raw in
  if length trimmed <=? DEBUG_JSON_MAX_CHARS then trimmed
  else take DEBUG_JSON_MAX_CHARS trimmed ++ [8230%N].

Definition indent_lines (text prefix : str) : str :=
  join [LF] ((fun line => prefix ++ line) <$> str_lines text).

Section coordinator.
Context {opaque json : Type} `{!ItemFields opaque}.
Notation item := (response_item opaque).
Notation conversation := (list item).
Context (to_json : list function_call_output_content_item -> option str).
Context (clear_turn clear_encrypted : opaque -> opaque).
Context (render_history_bridge : list compaction_snippet -> str -> option str).
Context (family_of : str -> model_family).
Context (from_str : str -> option json).
Context (as_new : json -> result str coordinator_decision_new).
Context (as_legacy : json -> result str coordinator_decision_legacy).
Context (json_to_string : json -> option str).

Definition is_popular_commands_message (i : item) : bool :=
  match i with
  | Message role content _ =>
      eq_ignore_ascii_case role (lit "user") &&
      existsb (fun c => match c with
                        | InputText text => str_contains (lit "Popular commands:") text
                        | _ => false
                        end) content
  | _ => false
  end.

Definition filter_popular_commands (items : conversation) : conversation :=
  filter (fun i => is_popular_commands_message i = false) items.

Definition enforce_hard_message_limit (items : conversation) : conversation :=
  if length items <=? HARD_MESSAGE_LIMIT then items
  else
    let goal_index := position is_user_message items in
    let goal := match goal_index with Some idx => option_list (items !! idx) | None => [] end in
    let remaining := HARD_MESSAGE_LIMIT - length goal in
    let tail_start := length items - remaining in
    let tail := drop tail_start items in
    let kept :=
      match goal_index with
      | Some idx => if idx <? tail_start then tail else delete (idx - tail_start) tail
      | None => tail
      end in
    let trimmed := goal ++ kept in
    drop (length trimmed - HARD_MESSAGE_LIMIT) trimmed.

Definition limited (items : conversation) : conversation :=
  enforce_hard_message_limit (filter_popular_commands items).

Definition make_message (role text : str) : item :=
  Message role
    [if eq_ignore_ascii_case role (lit "assistant") then OutputText text else InputText text]
    plain_fields.

(** ** Events, commands and answers *)

Inductive auto_coordinator_event :=
| Decision (seq : N) (status : auto_coordinator_status)
    (status_title status_sent_to_user goal : option str) (cli : option cli_action)
    (agents_timing : option auto_turn_agents_timing) (agents : list auto_turn_agents_action)
    (transcript : conversation)
| Thinking (delta : str)
| Action (message : str)
| UserReply (user_response cli_command : option str)
| TokenMetrics (total_usage last_turn_usage : token_usage)
    (turn_count duplicate_items replay_updates : N)
| CompactedHistory (c : conversation) (show_notice : bool)
| StopAck.

Inductive output :=
| Sent (e : auto_coordinator_event)
| Requested (c : conversation) (loop_warning : option str)
| RequestedReply (c : conversation).

Inductive auto_coordinator_command :=
| UpdateConversation (c : conversation)
| HandleUserPrompt (c : conversation)
| AckDecision (seq : N)
| StopCommand.

Inductive decision_error :=
| CoordinatorCancelled
| ErrorText (e : str).

Record decision_failure := DecisionFailure {
  failure_error : decision_error;
  schema_label : str;
  output_text : option str
}.

(** [RequestStreamResult], or the error of [request_decision]. *)
Inductive stream_answer :=
| StreamFailed (e : decision_error)
| StreamResult (output_text : str) (response_items : conversation) (token_usage : option token_usage)
    (model_slug : str).

(** [ParsedCoordinatorDecision] with the fields set by [request_coordinator_decision]. *)
Record coordinator_decision := CoordinatorDecision {
  parsed : parsed_coordinator_decision;
  response_items : conversation;
  decision_token_usage : option token_usage;
  model_slug : str
}.

Definition request_coordinator_decision (options : decision_parse_options)
    (answer : stream_answer) : option (result decision_failure coordinator_decision) :=
  match answer with
  | StreamFailed e => Some (Err (DecisionFailure e (lit "coordinator_decision") None))
  | StreamResult text items usage slug =>
      if is_blank text && match items with [] => true | _ => false end then
        Some (Err (DecisionFailure
          (ErrorText (lit "coordinator stream ended without producing output (possible transient error)"))
          (lit "coordinator_decision") (Some text)))
      else
        (fun r => match r with
         | Ok (parsed, _) => Ok (CoordinatorDecision parsed items usage slug)
         | Err e => Err (DecisionFailure (ErrorText e) (lit "coordinator_decision") (Some text))
         end) <$> parse_decision from_str as_new as_legacy json_to_string text options
  end.

(** What one iteration may meet. *)
Record round := Round {
  cancelled : bool;
  summary_client : nat -> list item -> summary_answer (opaque := opaque);
  compact_endpoint : list item -> option (result str (list item));
  stream : stream_answer;
  command : option auto_coordinator_command;
  user_turn : result str (option str * option str)
}.

Record settings := Settings {
  include_agents : bool;
  parse_options : decision_parse_options;
  git_repo_present : bool;
  coordinator_turn_cap : N;
  compact_prompt_text : str
}.

(** The variables of [run_auto_loop]. *)
Record coordinator := Coordinator {
  pending_conversation : option conversation;
  queued_updates : list conversation;
  pending_ack_seq : option N;
  decision_seq : N;
  consecutive_decision_failures : N;
  session : session_metrics;
  coordinator_turns_seen : N;
  active_model_slug : str;
  compact_summary : option str;
  primary_goal_message : str;
  include_goal_field : bool;
  stopped : bool
}.

#[local] Instance coordinator_fields : Fields coordinator := fun s =>
  Coordinator (pending_conversation s) (queued_updates s) (pending_ack_seq s) (decision_seq s)
    (consecutive_decision_failures s) (session s) (coordinator_turns_seen s)
    (active_model_slug s) (compact_summary s) (primary_goal_message s) (include_goal_field s)
    (stopped s).

Local Open Scope record_scope.

(** ** The start *)

Definition PLAN_WITH_AGENTS : str := lit "Please provide a clear plan to best achieve the Primary Goal. If this is not a trivial task, launch agents and use your tools to research the best approach. If this is a trivial task, or the plan is already in the conversation history, immediately provide the plan. Judge the length of research and planning you perform based on the complexity of the task. For more complex tasks, you can break the plan into workstreams that can be performed at the same time.".

Definition PLAN_ALONE : str := lit "Please provide a clear plan to best achieve the Primary Goal. If this is not a trivial task, use your tools to research the best approach. If this is a trivial task, or the plan is already in the conversation history, immediately provide the plan. Judge the length of research and planning you perform based on the complexity of the task.".

Definition quoted (s : string) : str := [QUOTE] ++ lit s ++ [QUOTE].

(** The prompt for the first plan and the answer made up for it. *)
Definition seed_prompt (agents : bool) : str := if agents then PLAN_WITH_AGENTS else PLAN_ALONE.

Definition seed_response (agents : bool) : str :=
  [OPEN_BRACE] ++ quoted "finish_status" ++ lit ":" ++ quoted "continue" ++ lit "," ++
  quoted "status_title" ++ lit ":" ++ quoted "Planning" ++ lit "," ++
  quoted "status_sent_to_user" ++ lit ":" ++ quoted "Started initial planning phase" ++ lit "," ++
  quoted "cli_milestone_instruction" ++ lit ":" ++ [QUOTE] ++ seed_prompt agents ++ [QUOTE] ++
  [CLOSE_BRACE].

Definition seed_event (goal_text : str) (agents : bool) : auto_coordinator_event :=
  Decision 0 Continue (Some (lit "Planning route"))
    (Some (lit "Planning best route to reach the goal.")) (Some goal_text)
    (Some (CliAction (seed_prompt agents) (Some (lit "Primary Goal: " ++ trim goal_text)) true
             None None))
    (if agents then Some Parallel else None) []
    [make_message (lit "assistant") (seed_response agents)].

Definition primary_goal (goal_text : str) (derive_goal_from_history : bool) : str :=
  lit "**Primary Goal**" ++ [LF] ++
  (if derive_goal_from_history
   then lit "You are preparing to start Auto Drive. Review the recent conversation history and identify the single primary coding goal the assistant should pursue next."
   else goal_text).

Definition start (cfg : settings) (model goal_text : str) (initial : conversation)
    (derive_goal_from_history : bool) : coordinator * list output :=
  let s :=
    Coordinator (Some (limited initial)) [] None 0 0 default_metrics 0
      (if is_blank model then MODEL_SLUG else model) None
      (primary_goal goal_text derive_goal_from_history) derive_goal_from_history false in
  if negb derive_goal_from_history && negb (is_blank goal_text)
  then (s <| pending_ack_seq := Some 0%N |> <| pending_conversation := None |>,
        [Sent (seed_event goal_text (include_agents cfg))])
  else (s, []).

(** ** One decision *)

Definition wrapping_succ (seq : N) : N := wrapping_add64 seq 1.

(** [emit_auto_drive_metrics] *)
Definition metrics_events (m : session_metrics) : list output :=
  if (turn_count m =? 0)%N && is_zero (running_total m) then []
  else [Sent (TokenMetrics (running_total m) (last_turn m) (turn_count m) (duplicate_items m)
                (replay_updates m))].

(** The event of a decision is sent and awaits its acknowledgement. *)
Definition send_decision (make : N -> auto_coordinator_event) (s : coordinator)
    : coordinator * list output :=
  let seq := wrapping_succ (decision_seq s) in
  (s <| decision_seq := seq |> <| pending_ack_seq := Some seq |>, [Sent (make seq)]).

Definition cap_event (turns cap : N) (d : coordinator_decision) (seq : N)
    : auto_coordinator_event :=
  Decision seq Failed (Some (lit "Turn limit reached"))
    (Some (lit "Stopped after " ++ show_N turns ++ lit " coordinator turns (cap=" ++ show_N cap ++
           lit ") to prevent a runaway session."))
    (decision_goal (parsed d)) None None [] (response_items d).

Definition decision_event (cfg : settings) (d : coordinator_decision) (seq : N)
    : auto_coordinator_event :=
  let p := parsed d in
  Decision seq (decision_status p) (decision_status_title p) (decision_status_sent_to_user p)
    (decision_goal p) (decision_cli p)
    (if include_agents cfg then decision_agents_timing p else None)
    ((fun a => agent_action_to_event_with_write_guard a (git_repo_present cfg)) <$>
     (if include_agents cfg then decision_agents p else []))
    (response_items d).

(** A goal that is not blank becomes the primary one. *)
Definition adopt_goal (goal : option str) (s : coordinator) : coordinator :=
  match goal with
  | Some g =>
      if is_blank g then s
      else s <| primary_goal_message := lit "**Primary Goal**" ++ [LF] ++ trim g |>
             <| include_goal_field := false |>
  | None => s
  end.

Definition on_decision (cfg : settings) (conv : conversation) (d : coordinator_decision)
    (s : coordinator) : coordinator * list output :=
  let s := s <| coordinator_turns_seen := saturating_add32 (coordinator_turns_seen s) 1 |> in
  let m :=
    match decision_token_usage d with
    | Some usage => record_turn usage (session s)
    | None =>
        record_turn_without_usage
          (sum_u64 ((fun i => N.of_nat (estimate_item_tokens to_json i)) <$> conv)) (session s)
    end in
  let s := s <| session := m |> <| active_model_slug := model_slug d |>
             <| consecutive_decision_failures := 0%N |> in
  let status := decision_status (parsed d) in
  let cap := coordinator_turn_cap cfg in
  if (0 <? cap)%N && (cap <=? coordinator_turns_seen s)%N
     && match status with Continue => true | _ => false end
  then
    let '(s', out) := send_decision (cap_event (coordinator_turns_seen s) cap d) s in
    (s' <| stopped := true |>, metrics_events m ++ out)
  else
    let '(s', out) := send_decision (decision_event cfg d) (adopt_goal (decision_goal (parsed d)) s) in
    (s' <| stopped := match status with Failed => true | _ => false end |>, metrics_events m ++ out).

(** ** A decision that could not be read *)

Definition OVERLONG_MSG : str := lit "ERROR: Your last cli_milestone_instruction was greater than 600 characters and was not sent to the CLI. Please try again with a shorter prompt. You must keep prompts succinct (<=600 chars) to give the CLI autonomy to decide how to best execute the task.".

Definition attempt_of (attempt : N) : str := lit "(attempt " ++ show_N attempt ++ lit "/3)".

Definition retry_thinking (attempt : N) (recoverable : recoverable_decision_error)
    (label : str) (shared : bool) (excerpt : option str) : str :=
  lit "Coordinator response invalid " ++ attempt_of attempt ++ lit ": " ++
  recoverable_summary recoverable ++ lit ". Retrying" ++ [8230%N; LF] ++ lit "Schema: " ++ label ++
  match excerpt with
  | Some e => [LF] ++ lit "Last JSON:" ++ [LF] ++ indent_lines e (lit "    ")
  | None =>
      if shared then
        [LF] ++ lit "See assistant message above for the full model output that failed validation."
      else []
  end.

Definition retry_note (attempt : N) (recoverable : recoverable_decision_error)
    (error label : str) (shared : bool) (excerpt : option str) : str :=
  lit "Previous coordinator response failed validation " ++ attempt_of attempt ++ lit "." ++ [LF] ++
  lit "Error: " ++ error ++ [LF] ++ lit "Schema: " ++ label ++
  match recoverable_guidance recoverable with
  | Some guidance => [LF] ++ lit "Guidance: " ++ guidance
  | None => []
  end ++
  (if shared then [LF] ++ OVERLONG_MSG
   else match excerpt with
        | Some e => [LF] ++ lit "Last JSON:" ++ [LF] ++ indent_lines e (lit "    ") ++ [LF] ++ OVERLONG_MSG
        | None => []
        end).

(** The conversation of the next attempt: the answer, and a note about what is wrong. *)
Definition retry_conversation (conv : conversation) (attempt : N)
    (recoverable : recoverable_decision_error) (error label : str) (raw : option str)
    : conversation :=
  let shared := match raw with Some _ => true | None => false end in
  let excerpt := if shared then None else summarize_json_for_debug <$> raw in
  limited (conv ++ option_list (make_message (lit "assistant") <$> raw) ++
           [make_message (lit "developer") (retry_note attempt recoverable error label shared excerpt)]).

Definition error_event (e : str) (seq : N) : auto_coordinator_event :=
  Decision seq Failed (Some (lit "Coordinator error"))
    (Some (lit "Encountered an error: " ++ e)) None None None [] [].

Definition end_run (e : str) (s : coordinator) : coordinator * list output :=
  let '(s, out) := send_decision (error_event e) (s <| consecutive_decision_failures := 0%N |>) in
  (s <| stopped := true |>, out).

Definition on_failure (conv : conversation) (f : decision_failure) (s : coordinator)
    : coordinator * list output :=
  match failure_error f with
  | CoordinatorCancelled => (s <| stopped := true |>, [])
  | ErrorText e =>
      match classify_recoverable_decision_error e with
      | None => end_run e s
      | Some recoverable =>
          let attempt := saturating_add32 (consecutive_decision_failures s) 1 in
          if (attempt <=? MAX_DECISION_RECOVERY_ATTEMPTS)%N then
            let raw := output_text f in
            let shared := match raw with Some _ => true | None => false end in
            let excerpt := if shared then None else summarize_json_for_debug <$> raw in
            let retry := retry_conversation conv attempt recoverable e (schema_label f) raw in
            (s <| consecutive_decision_failures := attempt |> <| pending_conversation := Some retry |>,
             [Sent (Thinking (retry_thinking attempt recoverable (schema_label f) shared excerpt));
              Sent (CompactedHistory retry false);
              Sent (Action (lit "Retrying prompt generation after the previous response was too long to send to the CLI."))])
          else end_run e s
      end
  end.

(** The request for a conversation: compaction, the model, and its answer. *)
Definition decide_on (cfg : settings) (r : round) (conv : conversation) (s : coordinator)
    : option (coordinator * list output) :=
  let '(compaction, conv, texts) :=
    maybe_compact to_json clear_turn clear_encrypted render_history_bridge (summary_client r)
      (compact_prompt_text cfg) (compact_endpoint r) (family_of (active_model_slug s))
      (filter_popular_commands conv) (session s) (compact_summary s) in
  let conv := enforce_hard_message_limit conv in
  let '(s, notice) :=
    match compaction with
    | Skipped => (s, [])
    | Completed summary => (s <| compact_summary := summary |>, [Sent (CompactedHistory conv true)])
    end in
  let request := Requested conv (loop_detection_warning (session s)) in
  (fun answer =>
     let '(s, out) :=
       match answer with
       | Ok d => on_decision cfg conv d s
       | Err f => on_failure conv f s
       end in
     (s, (Sent <$> (Thinking <$> texts)) ++ notice ++ request :: out))
  <$> request_coordinator_decision (parse_options cfg) (stream r).

(** ** Commands *)

Definition on_command (r : round) (s : coordinator) : coordinator * list output :=
  match command r with
  | Some (AckDecision seq) =>
      if bool_decide (pending_ack_seq s = Some seq) then
        let s := s <| pending_ack_seq := None |> in
        match queued_updates s with
        | queued :: rest => (s <| queued_updates := rest |> <| pending_conversation := Some queued |>, [])
        | [] => (s, [])
        end
      else (s, [])
  | Some (HandleUserPrompt conv) =>
      match user_turn r with
      | Ok (user_response, cli_command) =>
          let updated := conv ++ option_list (make_message (lit "assistant") <$> user_response) in
          (s <| pending_conversation := Some (limited updated) |>,
           [RequestedReply conv; Sent (UserReply user_response cli_command)])
      | Err e =>
          (s, [RequestedReply conv; Sent (UserReply (Some (lit "Coordinator error: " ++ e)) None)])
      end
  | Some (UpdateConversation conv) =>
      let s := s <| consecutive_decision_failures := 0%N |> in
      let filtered := limited conv in
      match pending_ack_seq s, pending_conversation s with
      | None, None => (s <| pending_conversation := Some filtered |>, [])
      | _, _ =>
          (s <| session := record_replay (session s) |>
             <| queued_updates := queue_update_capped (queued_updates s) filtered |>, [])
      end
  | Some StopCommand | None =>
      (s <| stopped := true |> <| pending_ack_seq := None |> <| queued_updates := [] |>,
       [Sent StopAck])
  end.

(** ** The loop *)

(** The conversation taken up in this iteration. *)
Definition next_conversation (s : coordinator) : option conversation * coordinator :=
  match pending_conversation s with
  | Some conv =>
      let s := s <| pending_conversation := None |> in
      match pending_ack_seq s with
      | Some _ => (None, s <| queued_updates := queue_update_capped (queued_updates s) conv |>)
      | None => (Some conv, s)
      end
  | None =>
      match pending_ack_seq s, queued_updates s with
      | None, conv :: rest => (Some conv, s <| queued_updates := rest |>)
      | _, _ => (None, s)
      end
  end.

Definition step (cfg : settings) (r : round) (s : coordinator)
    : option (coordinator * list output) :=
  let '(next, s) := next_conversation s in
  match next with
  | Some conv => if cancelled r then Some (s <| stopped := true |>, []) else decide_on cfg r conv s
  | None => Some (on_command r s)
  end.

Fixpoint run (cfg : settings) (rounds : list round) (s : coordinator)
    : option (coordinator * list output) :=
  match rounds with
  | [] => Some (s, [])
  | r :: rounds =>
      if stopped s then Some (s, [])
      else
        match step cfg r s with
        | None => None
        | Some (s, out) =>
            (fun p => (p.1, out ++ p.2)) <$> run cfg rounds s
        end
  end.

(** ** The limit on a conversation *)

(** What the limit keeps of a long conversation: its last items, or the goal and its last
    items without the goal. *)
Definition limit_of (items before : conversation) (goal : item) (after : conversation)
    : conversation :=
  let dropped := length items - (HARD_MESSAGE_LIMIT - 1) in
  goal :: drop dropped before ++ drop (dropped - (length before + 1)) after.

Lemma limit_goal items before goal after : around_goal items before goal after ->
  HARD_MESSAGE_LIMIT < length items ->
  enforce_hard_message_limit items = limit_of items before goal after.
Proof.
  intros Hg Hlong. unfold enforce_hard_message_limit.
  destruct (Nat.leb_spec (length items) HARD_MESSAGE_LIMIT); [lia|].
  assert (position is_user_message items = Some (length before)) as ->
    by (apply goal_position; by exists before, goal, after).
  destruct (around_goal_after _ _ _ _ Hg) as [_ Hlen].
  assert (items !! length before = Some goal) as ->
    by (destruct Hg as [-> _]; by apply list_lookup_middle).
  assert (HL : 2 <= HARD_MESSAGE_LIMIT) by (unfold HARD_MESSAGE_LIMIT; lia).
  cbn zeta. change (option_list (Some goal)) with [goal]. cbn [length]. unfold limit_of.
  set (n := length items - (HARD_MESSAGE_LIMIT - 1)).
  set (kept := if length before <? n then drop n items
               else delete (length before - n) (drop n items)).
  assert (Hkept : kept = drop n before ++ drop (n - (length before + 1)) after).
  { subst kept. destruct Hg as [-> _]. destruct (Nat.ltb_spec (length before) n).
    - rewrite drop_app_ge by lia. rewrite (drop_ge before) by lia.
      replace (n - length before) with (S (n - (length before + 1))) by lia. done.
    - rewrite drop_app_le by lia.
      replace (n - (length before + 1)) with 0 by lia. rewrite drop_0.
      replace (length before - n) with (length (drop n before)) by (rewrite length_drop; lia).
      by rewrite delete_middle. }
  rewrite Hkept. clearbody kept.
  assert (Hl : length ([goal] ++ drop n before ++ drop (n - (length before + 1)) after)
               <= HARD_MESSAGE_LIMIT)
    by (rewrite !length_app, !length_drop; cbn [length]; lia).
  replace (_ - HARD_MESSAGE_LIMIT) with 0 by lia. apply drop_0.
Qed.

Lemma limit_no_user items : position is_user_message items = None ->
  enforce_hard_message_limit items = lastn HARD_MESSAGE_LIMIT items.
Proof.
  intros Hn. unfold enforce_hard_message_limit, lastn. rewrite Hn. cbn [length app].
  rewrite Nat.sub_0_r. destruct (Nat.leb_spec (length items) HARD_MESSAGE_LIMIT).
  - replace (length items - HARD_MESSAGE_LIMIT) with 0 by lia. done.
  - rewrite length_drop.
    replace (length items - (length items - HARD_MESSAGE_LIMIT) - HARD_MESSAGE_LIMIT) with 0 by lia.
    apply drop_0.
Qed.

Lemma limit_bound items : length (enforce_hard_message_limit items) <= HARD_MESSAGE_LIMIT.
Proof.
  destruct (position is_user_message items) as [idx|] eqn:E.
  - apply goal_position in E as (before & goal & after & Hg & _).
    destruct (Nat.ltb_spec HARD_MESSAGE_LIMIT (length items)).
    + rewrite (limit_goal _ _ _ _ Hg) by done. destruct (around_goal_after _ _ _ _ Hg) as [_ Hl].
      assert (2 <= HARD_MESSAGE_LIMIT) by (unfold HARD_MESSAGE_LIMIT; lia).
      unfold limit_of. cbn [length]. rewrite length_app, !length_drop. lia.
    + unfold enforce_hard_message_limit.
      by destruct (Nat.leb_spec (length items) HARD_MESSAGE_LIMIT); [|lia].
  - rewrite limit_no_user by done. rewrite lastn_length. lia.
Qed.

(** A conversation has at most 320 items after the limit; a shorter one is not changed; of
    a longer one the goal is kept and moved to the front, and the items dropped are the
    oldest. *)
Theorem hard_limit items :
  length (enforce_hard_message_limit items) <= HARD_MESSAGE_LIMIT /\
  (length items <= HARD_MESSAGE_LIMIT -> enforce_hard_message_limit items = items) /\
  (HARD_MESSAGE_LIMIT < length items ->
   match position is_user_message items with
   | None => enforce_hard_message_limit items = lastn HARD_MESSAGE_LIMIT items
   | Some _ => exists before goal after, around_goal items before goal after /\
       enforce_hard_message_limit items = limit_of items before goal after
   end).
Proof.
  split_and!; [apply limit_bound| |].
  - intros Hs. unfold enforce_hard_message_limit.
    by destruct (Nat.leb_spec (length items) HARD_MESSAGE_LIMIT); [|lia].
  - intros Hl. destruct (position is_user_message items) as [idx|] eqn:E.
    + apply goal_position in E as (before & goal & after & Hg & _).
      exists before, goal, after. split; [done|by apply limit_goal].
    + by apply limit_no_user.
Qed.

(** ** One decision at a time *)

(** What is seen of an iteration: the command it took, and what it put out. *)
Inductive observation :=
| Got (c : option auto_coordinator_command)
| Out (o : output).

(** The decision that awaits its acknowledgement, and the last number given. *)
Record ledger := Ledger { awaited : option N; last_seq : N }.

Definition watch_output (l : ledger) (o : output) : option ledger :=
  match o with
  | Requested _ _ => if awaited l then None else Some l
  | Sent (Decision seq _ _ _ _ _ _ _ _) =>
      if awaited l then None
      else if (seq =? ((last_seq l + 1) mod 2 ^ 64))%N then Some (Ledger (Some seq) seq) else None
  | Sent _ | RequestedReply _ => Some l
  end.

(** A decision is asked for and sent only when no decision awaits its acknowledgement, and
    decisions are numbered in order; the reply to a user may be asked for at any time. *)
Definition watch (l : ledger) (o : observation) : option ledger :=
  match o with
  | Got (Some (AckDecision seq)) =>
      Some (if bool_decide (awaited l = Some seq) then Ledger None (last_seq l) else l)
  | Got (Some StopCommand) | Got None => Some (Ledger None (last_seq l))
  | Got _ => Some l
  | Out o => watch_output l o
  end.

Fixpoint watch_all (l : ledger) (os : list observation) : option ledger :=
  match os with [] => Some l | o :: os => watch l o ≫= fun l => watch_all l os end.

Definition observe_step (r : round) (s : coordinator) (out : list output) : list observation :=
  match (next_conversation s).1 with
  | Some _ => Out <$> out
  | None => Got (command r) :: (Out <$> out)
  end.

(** The observations of a run. *)
Fixpoint observe (cfg : settings) (rounds : list round) (s : coordinator) : list observation :=
  match rounds with
  | [] => []
  | r :: rounds =>
      if stopped s then []
      else
        match step cfg r s with
        | None => []
        | Some (s', out) => observe_step r s out ++ observe cfg rounds s'
        end
  end.

Definition ledger_of (s : coordinator) : ledger := Ledger (pending_ack_seq s) (decision_seq s).

Lemma watch_all_app l os1 os2 :
  watch_all l (os1 ++ os2) = watch_all l os1 ≫= fun l => watch_all l os2.
Proof.
  revert l. induction os1 as [|o os1 IH]; intros l; cbn [app watch_all]; [done|].
  destruct (watch l o) as [l'|]; [apply IH|done].
Qed.

Lemma watch_quiet l (outs : list output) :
  Forall (fun o => match o with Sent (Decision _ _ _ _ _ _ _ _ _) | Requested _ _ => False | _ => True end) outs ->
  watch_all l (Out <$> outs) = Some l.
Proof.
  induction 1 as [|o outs Ho Hs IH]; [done|]. cbn [fmap list_fmap watch_all].
  destruct o as [[]| |]; done.
Qed.

Lemma metrics_quiet l m : watch_all l (Out <$> metrics_events m) = Some l.
Proof. unfold metrics_events. by case_match. Qed.

Lemma send_watched make s s' out :
  (forall seq, exists st t u g c tm a tr, make seq = Decision seq st t u g c tm a tr) ->
  pending_ack_seq s = None -> send_decision make s = (s', out) ->
  watch_all (ledger_of s) (Out <$> out) = Some (ledger_of s').
Proof.
  intros Hm Ha [= <- <-]. unfold ledger_of. rewrite Ha. cbn.
  destruct (Hm (wrapping_succ (decision_seq s))) as (st & t & u & g & c & tm & a & tr & ->).
  cbn. by rewrite N.eqb_refl.
Qed.

Ltac is_decision := intros seq; do 8 eexists; reflexivity.

Lemma decision_watched cfg conv d s s' out : pending_ack_seq s = None ->
  on_decision cfg conv d s = (s', out) ->
  watch_all (ledger_of s) (Out <$> out) = Some (ledger_of s').
Proof.
  intros Ha. unfold on_decision.
  set (m := match decision_token_usage d with Some _ => _ | None => _ end).
  set (s1 := s <| coordinator_turns_seen := _ |>).
  set (s2 := update consecutive_decision_failures _ _).
  assert (Hl : ledger_of s2 = ledger_of s) by done.
  case_match.
  - destruct (send_decision _ s2) as [s3 out3] eqn:E. intros [= <- <-].
    rewrite fmap_app, watch_all_app, metrics_quiet. cbn [mbind option_bind]. rewrite <- Hl.
    refine (send_watched _ _ s3 out3 _ _ E); [is_decision|done].
  - assert (Hg : ledger_of (adopt_goal (decision_goal (parsed d)) s2) = ledger_of s)
      by (unfold adopt_goal; by repeat case_match).
    destruct (send_decision _ (adopt_goal _ s2)) as [s3 out3] eqn:E. intros [= <- <-].
    rewrite fmap_app, watch_all_app, metrics_quiet. cbn [mbind option_bind]. rewrite <- Hg.
    refine (send_watched _ _ s3 out3 _ _ E); [is_decision|].
    exact (eq_trans (f_equal awaited Hg) Ha).
Qed.

Lemma end_run_watched e s s' out : pending_ack_seq s = None -> end_run e s = (s', out) ->
  watch_all (ledger_of s) (Out <$> out) = Some (ledger_of s').
Proof.
  intros Ha. unfold end_run.
  destruct (send_decision _ _) as [s3 out3] eqn:E. intros [= <- <-].
  change (ledger_of s) with (ledger_of (s <| consecutive_decision_failures := 0%N |>)).
  refine (send_watched _ _ s3 out3 _ _ E); [is_decision|done].
Qed.

Lemma failure_watched conv f s s' out : pending_ack_seq s = None ->
  on_failure conv f s = (s', out) ->
  watch_all (ledger_of s) (Out <$> out) = Some (ledger_of s').
Proof.
  intros Ha. unfold on_failure. destruct (failure_error f) as [|e]; [by intros [= <- <-]|].
  destruct (classify_recoverable_decision_error e); [|by apply end_run_watched].
  case_match; [by intros [= <- <-]|by apply end_run_watched].
Qed.

Lemma decide_on_watched cfg r conv s s' out : pending_ack_seq s = None ->
  decide_on cfg r conv s = Some (s', out) ->
  watch_all (ledger_of s) (Out <$> out) = Some (ledger_of s').
Proof.
  intros Ha. unfold decide_on.
  destruct (maybe_compact _ _ _ _ _ _ _ _ _ _ _) as [[compaction conv1] texts].
  set (conv2 := enforce_hard_message_limit conv1).
  destruct (match compaction with Skipped => _ | Completed _ => _ end) as [s1 notice] eqn:En.
  assert (Hs : ledger_of s1 = ledger_of s /\ watch_all (ledger_of s) (Out <$> notice) = Some (ledger_of s))
    by (destruct compaction; injection En as <- <-; done).
  destruct Hs as [Hs Hnotice].
  intros (answer & _ & Hr)%fmap_Some.
  assert (Htexts : watch_all (ledger_of s) (Out <$> (Sent <$> (Thinking <$> texts))) =
                   Some (ledger_of s)).
  { apply watch_quiet, Forall_fmap, Forall_fmap, Forall_true. done. }
  destruct (match answer with Ok d => _ | Err f => _ end) as [s2 out2] eqn:E2.
  injection Hr as -> ->.
  assert (Ha1 : pending_ack_seq s1 = None) by exact (eq_trans (f_equal awaited Hs) Ha).
  assert (H2 : watch_all (ledger_of s1) (Out <$> out2) = Some (ledger_of s2))
    by (destruct answer; [by eapply decision_watched|by eapply failure_watched]).
  rewrite !fmap_app, watch_all_app, Htexts. cbn [mbind option_bind].
  rewrite watch_all_app, Hnotice. cbn [mbind option_bind fmap list_fmap watch_all watch watch_output].
  rewrite <- Hs. unfold ledger_of at 1. cbn [awaited]. rewrite Ha1. exact H2.
Qed.

Lemma next_ledger s : ledger_of (next_conversation s).2 = ledger_of s.
Proof. unfold next_conversation. by repeat case_match. Qed.

Lemma next_unacknowledged s conv : (next_conversation s).1 = Some conv -> pending_ack_seq s = None.
Proof. unfold next_conversation. by repeat case_match. Qed.

Lemma step_watched cfg r s s' out : step cfg r s = Some (s', out) ->
  watch_all (ledger_of s) (observe_step r s out) = Some (ledger_of s').
Proof.
  unfold step, observe_step. pose proof (next_ledger s) as Hl.
  pose proof (next_unacknowledged s) as Hn.
  destruct (next_conversation s) as [[conv|] s1]; cbn [fst snd] in *; rewrite <- Hl.
  - assert (Ha : pending_ack_seq s1 = None)
      by exact (eq_trans (f_equal awaited Hl) (Hn conv eq_refl)).
    destruct (cancelled r); [by intros [= <- <-]|]. by apply decide_on_watched.
  - intros [= H]. unfold on_command in H. destruct (command r) as [[c|c|seq|]|].
    + cbn in H. destruct (pending_ack_seq s1) eqn:Ep, (pending_conversation s1);
        injection H as <- <-; unfold ledger_of; cbn; by rewrite ?Ep.
    + destruct (user_turn r) as [[reply cli]|e]; injection H as <- <-; done.
    + cbn [watch_all watch mbind option_bind ledger_of awaited last_seq].
      destruct (bool_decide (pending_ack_seq s1 = Some seq)) eqn:Eb.
      * cbn in H. destruct (queued_updates s1); injection H as <- <-; done.
      * injection H as <- <-; done.
    + by injection H as <- <-.
    + by injection H as <- <-.
Qed.

(** C6: No decision is asked for or sent while another awaits its acknowledgement, decisions
    carry consecutive numbers, and what the coordinator takes to be outstanding is what its
    observer does.  The reply to a user is no decision; it may be asked for at any time. *)
Theorem one_decision_at_a_time cfg rounds s s' out :
  run cfg rounds s = Some (s', out) ->
  watch_all (ledger_of s) (observe cfg rounds s) = Some (ledger_of s').
Proof.
  revert s out. induction rounds as [|r rounds IH]; intros s out; cbn [run observe].
  { by intros [= <- <-]. }
  destruct (stopped s); [by intros [= <- <-]|].
  destruct (step cfg r s) as [[s1 out1]|] eqn:Es; [|done].
  intros ([s2 out2] & Hr & [= -> _])%fmap_Some.
  rewrite watch_all_app, (step_watched _ _ _ _ _ Es). by eapply IH.
Qed.

(** A run starts with nothing outstanding but the plan that is its first decision. *)
Lemma start_watched cfg model goal_text initial derive :
  let '(s, out) := start cfg model goal_text initial derive in
  watch_all (Ledger None (2 ^ 64 - 1)) (Out <$> out) = Some (ledger_of s) \/
  (out = [] /\ ledger_of s = Ledger None 0).
Proof.
  unfold start. destruct (negb derive && negb (is_blank goal_text)); [left|by right].
  reflexivity.
Qed.

(** ** What is put out *)

(** A request for a decision and a new history are within the limit; a decision has an action
    for the command line, with an allowed model and level, exactly when it continues, and
    agents only if they are enabled, none of which writes outside a repository. *)
Definition output_ok (cfg : settings) (o : output) : Prop :=
  match o with
  | Requested c _ => length c <= 320
  | Sent (CompactedHistory c _) => length c <= 320
  | Sent (Decision _ status _ _ _ cli timing agents _) =>
      match cli with
      | Some a => status = Continue /\ cli_wf (parse_options cfg) a
      | None => status <> Continue
      end /\
      (git_repo_present cfg = false -> Forall (fun a => agents_write a = false) agents) /\
      (include_agents cfg = false -> agents = [] /\ timing = None)
  | Sent _ | RequestedReply _ => True
  end.

Lemma requested_wf cfg answer d :
  request_coordinator_decision (parse_options cfg) answer = Some (Ok d) ->
  decision_wf (parse_options cfg) (parsed d).
Proof.
  unfold request_coordinator_decision. destruct answer as [e|text items usage slug]; [done|].
  case_match; [done|]. intros ([[p v]|e] & Hr & Hp)%fmap_Some; [|done].
  injection Hp as ->. by eapply parse_decision_wf.
Qed.

Lemma guarded action : agents_write (agent_action_to_event_with_write_guard action false) = false.
Proof.
  unfold agent_action_to_event_with_write_guard. cbn [negb andb].
  by destruct (agents_write (agent_action_to_event action)) eqn:E.
Qed.

Lemma decision_ok cfg d seq : decision_wf (parse_options cfg) (parsed d) ->
  output_ok cfg (Sent (decision_event cfg d seq)).
Proof.
  intros (_ & _ & _ & _ & Hc). unfold decision_event. cbn. split_and!; [done| |].
  - intros ->. apply Forall_fmap, Forall_true. intros a. apply guarded.
  - by intros ->.
Qed.

Lemma limited_bound (items : conversation) : length (limited items) <= HARD_MESSAGE_LIMIT.
Proof. apply limit_bound. Qed.

Lemma metrics_ok cfg m : Forall (output_ok cfg) (metrics_events m).
Proof. unfold metrics_events. case_match; by repeat constructor. Qed.

Lemma on_decision_ok cfg conv d s s' out : decision_wf (parse_options cfg) (parsed d) ->
  on_decision cfg conv d s = (s', out) -> Forall (output_ok cfg) out.
Proof.
  intros Hd. unfold on_decision, send_decision. case_match; intros [= _ <-];
    (apply Forall_app; split; [apply metrics_ok|]); apply Forall_singleton.
  - done.
  - by apply decision_ok.
Qed.

Lemma on_failure_ok cfg conv f s s' out :
  on_failure conv f s = (s', out) -> Forall (output_ok cfg) out.
Proof.
  unfold on_failure, end_run, send_decision. intros H.
  repeat case_match; injection H as _ <-; repeat (constructor; [try done|]); try done;
    apply limited_bound.
Qed.

Lemma step_output_ok cfg r s s' out : step cfg r s = Some (s', out) -> Forall (output_ok cfg) out.
Proof.
  unfold step. destruct (next_conversation s) as [[conv|] s1].
  - destruct (cancelled r); [by intros [= _ <-]|]. unfold decide_on.
    destruct (maybe_compact _ _ _ _ _ _ _ _ _ _ _) as [[compaction conv1] texts].
    set (conv2 := enforce_hard_message_limit conv1).
    destruct (match compaction with Skipped => _ | Completed _ => _ end) as [s2 notice] eqn:En.
    assert (Hb : length conv2 <= HARD_MESSAGE_LIMIT) by apply limit_bound.
    assert (Hn : Forall (output_ok cfg) notice)
      by (destruct compaction; injection En as _ <-; [done|by apply Forall_singleton]).
    intros (answer & Ha & Hr)%fmap_Some.
    destruct (match answer with Ok d => _ | Err f => _ end) as [s3 out3] eqn:E.
    injection Hr as -> ->. apply Forall_app. split.
    + apply Forall_fmap, Forall_fmap, Forall_true. done.
    + apply Forall_app. split; [done|]. constructor; [done|].
      destruct answer as [d|f]; [|by eapply on_failure_ok].
      eapply on_decision_ok; [|exact E]. by eapply requested_wf.
  - intros [= H]. unfold on_command in H.
    repeat case_match; injection H as _ <-; repeat constructor.
Qed.

(** C10: Whatever the model answers, a run stays within the limits and rules: every request for a
    decision and every compacted history has at most 320 items; a decision that is sent has
    an action for the command line exactly when it continues, with a clean prompt and an
    allowed model and level, names no agents when agents are disabled, and outside of a
    repository no agent that writes.  Nothing is said of the request for the reply to a
    user, whose conversation is not limited. *)
Theorem outputs_within_rules cfg rounds s s' out :
  run cfg rounds s = Some (s', out) -> Forall (output_ok cfg) out.
Proof.
  revert s out. induction rounds as [|r rounds IH]; intros s out; cbn [run].
  { by intros [= _ <-]. }
  destruct (stopped s); [by intros [= _ <-]|].
  destruct (step cfg r s) as [[s1 out1]|] eqn:Es; [|done].
  intros ([s2 out2] & Hr & [= -> ->])%fmap_Some.
  apply Forall_app. split; [by eapply step_output_ok|by eapply IH].
Qed.

(** ** The conversations that wait *)

(** In the order in which they will be taken: what is pending while a decision is
    outstanding goes behind the queue. *)
Definition inbox (s : coordinator) : list conversation :=
  match pending_ack_seq s with
  | Some _ => queued_updates s ++ option_list (pending_conversation s)
  | None => option_list (pending_conversation s) ++ queued_updates s
  end.

(** The conversation that comes with the command of a round. *)
Definition arrival (r : round) : list conversation :=
  match command r with
  | Some (UpdateConversation c) => [limited c]
  | Some (HandleUserPrompt c) =>
      match user_turn r with
      | Ok (reply, _) => [limited (c ++ option_list (make_message (lit "assistant") <$> reply))]
      | Err _ => []
      end
  | _ => []
  end.

Lemma lastn_all {A} n (l : list A) : length l <= n -> lastn n l = l.
Proof. intros H. unfold lastn. replace (length l - n) with 0 by lia. apply drop_0. Qed.

Lemma lastn_app {A} n (l k : list A) : lastn n (lastn n l ++ k) = lastn n (l ++ k).
Proof.
  unfold lastn. rewrite !length_app, length_drop, <- (drop_app_le l k) by lia.
  rewrite drop_drop. f_equal. lia.
Qed.

Lemma lastn_more {A} n (l : list A) x : lastn n l ++ [x] = lastn (n + 1) (l ++ [x]).
Proof. unfold lastn. rewrite length_app. cbn. rewrite drop_app_le by lia. do 2 f_equal. lia. Qed.

Lemma capped_lastn {A} (queue : list A) x : length queue <= MAX_QUEUED_CONVERSATION_UPDATES ->
  queue_update_capped queue x = lastn MAX_QUEUED_CONVERSATION_UPDATES (queue ++ [x]).
Proof.
  intros H. assert (1 <= MAX_QUEUED_CONVERSATION_UPDATES) by (unfold MAX_QUEUED_CONVERSATION_UPDATES; lia).
  unfold queue_update_capped, lastn. rewrite length_app. cbn [length].
  destruct (Nat.leb_spec MAX_QUEUED_CONVERSATION_UPDATES (length queue)).
  - rewrite drop_app_le by lia. do 2 f_equal. lia.
  - replace (length queue + 1 - MAX_QUEUED_CONVERSATION_UPDATES) with 0 by lia. done.
Qed.

Lemma lastn_le {A} n (l : list A) : length (lastn n l) <= n.
Proof. rewrite lastn_length. lia. Qed.

(** An iteration that waits for a command has nothing pending. *)
Lemma next_waits s s1 : length (queued_updates s) <= MAX_QUEUED_CONVERSATION_UPDATES ->
  next_conversation s = (None, s1) ->
  pending_conversation s1 = None /\ pending_ack_seq s1 = pending_ack_seq s /\
  queued_updates s1 = lastn MAX_QUEUED_CONVERSATION_UPDATES (inbox s) /\
  (pending_ack_seq s = None -> inbox s = []).
Proof.
  intros Hq. unfold next_conversation, inbox.
  change (pending_ack_seq (s <| pending_conversation := None |>)) with (pending_ack_seq s).
  destruct (pending_conversation s) as [conv|] eqn:Ep, (pending_ack_seq s) as [seq|] eqn:Ea;
    intros H; try discriminate H.
  - apply (f_equal snd) in H. cbn in H. subst s1. split_and!; try done. by apply capped_lastn.
  - apply (f_equal snd) in H. cbn in H. subst s1. cbn. by rewrite app_nil_r, lastn_all.
  - destruct (queued_updates s) as [|c l] eqn:El; [|discriminate H].
    apply (f_equal snd) in H. cbn in H. subst s1. done.
Qed.

Lemma next_takes s conv s1 : next_conversation s = (Some conv, s1) ->
  pending_ack_seq s = None /\ pending_conversation s1 = None /\ pending_ack_seq s1 = None /\
  inbox s = conv :: queued_updates s1 /\
  consecutive_decision_failures s1 = consecutive_decision_failures s /\ stopped s1 = stopped s /\
  length (queued_updates s1) <= length (queued_updates s).
Proof.
  unfold next_conversation, inbox.
  change (pending_ack_seq (s <| pending_conversation := None |>)) with (pending_ack_seq s).
  destruct (pending_conversation s) as [c|] eqn:Ep, (pending_ack_seq s) as [seq|] eqn:Ea; try done.
  - intros H. pose proof (f_equal fst H) as H1. apply (f_equal snd) in H. cbn in H, H1.
    injection H1 as ->. subst s1. done.
  - destruct (queued_updates s) as [|c l] eqn:El; [done|]. intros H.
    pose proof (f_equal fst H) as H1. apply (f_equal snd) in H. cbn in H, H1.
    injection H1 as ->. subst s1. cbn. split_and!; try done. lia.
Qed.

(** What a request leaves: a decision outstanding, a conversation for another attempt, or
    the end. *)
Definition outcome_of (s s' : coordinator) : Prop :=
  queued_updates s' = queued_updates s /\
  (stopped s' = true \/
   pending_conversation s' = pending_conversation s /\ is_Some (pending_ack_seq s') \/
   exists retry, pending_conversation s' = Some retry /\ pending_ack_seq s' = pending_ack_seq s /\
     (consecutive_decision_failures s' = consecutive_decision_failures s + 1)%N /\
     (consecutive_decision_failures s' <= MAX_DECISION_RECOVERY_ATTEMPTS)%N).

Lemma on_decision_outcome cfg conv d s s' out :
  on_decision cfg conv d s = (s', out) -> outcome_of s s'.
Proof.
  unfold on_decision, send_decision. case_match; intros [= <- _].
  - split; [done|by left].
  - assert (Hg : forall g x, pending_conversation (adopt_goal g x) = pending_conversation x /\
      queued_updates (adopt_goal g x) = queued_updates x)
      by (intros g x; unfold adopt_goal; by repeat case_match).
    unfold outcome_of. cbn. split; [by rewrite (proj2 (Hg _ _))|].
    right; left. by rewrite (proj1 (Hg _ _)).
Qed.

Lemma on_failure_outcome conv f s s' out :
  on_failure conv f s = (s', out) -> outcome_of s s'.
Proof.
  unfold on_failure, end_run, send_decision. intros H.
  destruct (failure_error f) as [|e]; [by injection H as <- _; split; [|left]|].
  destruct (classify_recoverable_decision_error e); [|by injection H as <- _; split; [|left]].
  destruct (N.leb_spec (saturating_add32 (consecutive_decision_failures s) 1)
              MAX_DECISION_RECOVERY_ATTEMPTS) as [Hle|]; injection H as <- _; [|by split; [|left]].
  split; [done|]. right; right. eexists. split_and!; [done|done| |done].
  cbn. unfold saturating_add32, MAX_DECISION_RECOVERY_ATTEMPTS in *. lia.
Qed.

Lemma decide_on_outcome cfg r conv s s' out :
  decide_on cfg r conv s = Some (s', out) -> outcome_of s s'.
Proof.
  unfold decide_on.
  destruct (maybe_compact _ _ _ _ _ _ _ _ _ _ _) as [[compaction conv1] texts].
  destruct (match compaction with Skipped => _ | Completed _ => _ end) as [s1 notice] eqn:En.
  intros (answer & _ & Hr)%fmap_Some.
  destruct (match answer with Ok d => _ | Err f => _ end) as [s2 out2] eqn:E.
  injection Hr as -> _.
  assert (Ho : outcome_of s1 s2)
    by (destruct answer; [by eapply on_decision_outcome|by eapply on_failure_outcome]).
  by destruct compaction; injection En as <- _.
Qed.

Lemma command_inbox r s s' out waiting :
  pending_conversation s = None ->
  queued_updates s = lastn MAX_QUEUED_CONVERSATION_UPDATES waiting ->
  (pending_ack_seq s = None -> waiting = []) ->
  on_command r s = (s', out) -> stopped s' = false ->
  length (queued_updates s') <= MAX_QUEUED_CONVERSATION_UPDATES /\
  exists n, MAX_QUEUED_CONVERSATION_UPDATES <= n /\ inbox s' = lastn n (waiting ++ arrival r).
Proof.
  intros Hp Hq Hw. pose proof (lastn_le MAX_QUEUED_CONVERSATION_UPDATES waiting) as Hle.
  rewrite <- Hq in Hle.
  assert (Hsame : forall x, queued_updates x = queued_updates s -> pending_conversation x = None ->
    arrival r = [] -> exists n, MAX_QUEUED_CONVERSATION_UPDATES <= n /\
      inbox x = lastn n (waiting ++ arrival r)).
  { intros x Hx Hpx Har. exists MAX_QUEUED_CONVERSATION_UPDATES. split; [done|].
    rewrite Har, app_nil_r, <- Hq, <- Hx. unfold inbox. rewrite Hpx.
    by destruct (pending_ack_seq x); [apply app_nil_r|]. }
  unfold on_command, arrival in *. destruct (command r) as [[c|c|seq|]|].
  - change (pending_ack_seq (s <| consecutive_decision_failures := _ |>)) with (pending_ack_seq s).
    change (pending_conversation (s <| consecutive_decision_failures := _ |>))
      with (pending_conversation s).
    destruct (pending_ack_seq s) as [seq|] eqn:Ea; rewrite ?Hp; intros H _;
      apply (f_equal fst) in H; cbn [fst] in H.
    + assert (Hq' : queued_updates s' = queue_update_capped (queued_updates s) (limited c))
        by (by rewrite <- H).
      assert (Ha' : pending_ack_seq s' = Some seq) by (rewrite <- H; exact Ea).
      assert (Hp' : pending_conversation s' = None) by (rewrite <- H; exact Hp).
      unfold inbox. rewrite Ha', Hp', Hq', capped_lastn by done. split; [apply lastn_le|].
      exists MAX_QUEUED_CONVERSATION_UPDATES. split; [done|].
      change (option_list None) with (@nil conversation). by rewrite app_nil_r, Hq, lastn_app.
    + subst s'. rewrite (Hw eq_refl) in *. unfold inbox. cbn. rewrite Ea, Hq. split; [cbn; lia|].
      exists MAX_QUEUED_CONVERSATION_UPDATES. split; [done|]. by rewrite lastn_all by (cbn; lia).
  - destruct (user_turn r) as [[reply cli]|e]; intros H _; apply (f_equal fst) in H; cbn [fst] in H.
    + set (x := limited (c ++ _)) in *.
      assert (Hq' : queued_updates s' = queued_updates s) by (by rewrite <- H).
      assert (Ha' : pending_ack_seq s' = pending_ack_seq s) by (by rewrite <- H).
      assert (Hp' : pending_conversation s' = Some x) by (by rewrite <- H).
      rewrite Hq'. split; [done|]. exists (MAX_QUEUED_CONVERSATION_UPDATES + 1). split; [lia|].
      rewrite <- lastn_more, <- Hq. unfold inbox. rewrite Ha', Hp', Hq'.
      change (option_list (Some x)) with [x].
      destruct (pending_ack_seq s) as [seq|] eqn:Ea; [done|]. by rewrite Hq, (Hw eq_refl).
    + subst s'. split; [done|]. by apply Hsame.
  - destruct (bool_decide _); [|intros [= <- _] _; split; [done|by apply Hsame]].
    change (queued_updates (s <| pending_ack_seq := None |>)) with (queued_updates s).
    destruct (queued_updates s) as [|c l] eqn:El; intros H _; apply (f_equal fst) in H;
      cbn [fst] in H; subst s'; (split; [cbn in *; rewrite ?El; cbn; lia|]).
    + by apply Hsame.
    + exists MAX_QUEUED_CONVERSATION_UPDATES. split; [done|]. by rewrite app_nil_r, <- Hq.
  - by intros [= <- _].
  - by intros [= <- _].
Qed.

(** C14: The conversations that wait are taken in the order of their arrival, and one that comes
    goes to the end; of a queue that grows too long the oldest are dropped, at least 24 stay.
    A conversation that is taken can come back once more in front, counted as a failure. *)
Theorem taken_in_order cfg r s s' out :
  length (queued_updates s) <= MAX_QUEUED_CONVERSATION_UPDATES ->
  step cfg r s = Some (s', out) -> stopped s' = false ->
  length (queued_updates s') <= MAX_QUEUED_CONVERSATION_UPDATES /\
  match pending_ack_seq s, inbox s with
  | None, conv :: rest =>
      inbox s' = rest \/
      exists retry, inbox s' = retry :: rest /\
        (consecutive_decision_failures s < consecutive_decision_failures s')%N
  | _, _ =>
      exists n, MAX_QUEUED_CONVERSATION_UPDATES <= n /\ inbox s' = lastn n (inbox s ++ arrival r)
  end.
Proof.
  intros Hq. unfold step. destruct (next_conversation s) as [[conv|] s1] eqn:En.
  - destruct (next_takes _ _ _ En) as (Ha & Hp & Ha1 & -> & Hf & _ & Hl). rewrite Ha.
    destruct (cancelled r); [by intros [= <- _]|].
    intros Hd Hs. destruct (decide_on_outcome _ _ _ _ _ _ Hd) as [Hq' Ho].
    rewrite Hq'. split; [lia|]. unfold inbox. rewrite Hq'.
    destruct Ho as [Ho|[[Hp' [seq Ha']]|(retry & Hp' & Ha' & Hf' & _)]]; [congruence|left|right].
    + rewrite Hp', Hp, Ha'. apply app_nil_r.
    + exists retry. rewrite Hp', Ha', Ha1. split; [done|]. lia.
  - destruct (next_waits _ _ Hq En) as (Hp & Ha & Hq1 & Hempty). intros [= H] Hs.
    destruct (command_inbox r s1 s' out (inbox s) Hp Hq1) as [Hl Hn]; [|done|done|].
    { rewrite Ha. apply Hempty. }
    split; [done|]. destruct (pending_ack_seq s) eqn:E; [done|]. by rewrite (Hempty eq_refl) in *.
Qed.

(** ** No request without end *)

(** The next iteration asks the model. *)
Definition asks (s : coordinator) : bool :=
  negb (stopped s) && match (next_conversation s).1 with Some _ => true | None => false end.

Lemma asked cfg r s s' out : asks s = true -> step cfg r s = Some (s', out) ->
  asks s' = false \/
  ((consecutive_decision_failures s' = consecutive_decision_failures s + 1)%N /\
   (consecutive_decision_failures s' <= MAX_DECISION_RECOVERY_ATTEMPTS)%N).
Proof.
  unfold asks, step. destruct (next_conversation s) as [[conv|] s1] eqn:En;
    [|by rewrite andb_false_r].
  intros _. destruct (next_takes _ _ _ En) as (_ & Hp & Ha & _ & Hf & _).
  destruct (cancelled r); [intros [= <- _]; by left|].
  intros Hd. destruct (decide_on_outcome _ _ _ _ _ _ Hd) as [_ Ho].
  destruct Ho as [->|[[Hp' [seq Ha']]|(retry & _ & _ & Hf' & Hmax)]]; [by left|left|right].
  - unfold next_conversation. by rewrite Hp', Hp, Ha', andb_false_r.
  - rewrite Hf', Hf in *. done.
Qed.

Lemma run_take cfg rounds s r s' out k :
  stopped s = false -> step cfg r s = Some (s', out) ->
  run cfg (take (S k) (r :: rounds)) s =
  (fun p => (p.1, out ++ p.2)) <$> run cfg (take k rounds) s'.
Proof. intros Hs He. cbn [take run]. by rewrite Hs, He. Qed.

(** C16: After at most four requests in a row the coordinator waits for a command, or its run
    has ended. *)
Theorem asked_at_most_four cfg rounds s p :
  (consecutive_decision_failures s <= MAX_DECISION_RECOVERY_ATTEMPTS)%N ->
  4 <= length rounds -> run cfg rounds s = Some p ->
  exists k s' out, k <= 4 /\ run cfg (take k rounds) s = Some (s', out) /\ asks s' = false.
Proof.
  intros Hf Hlen Hrun.
  assert (H : forall n rounds s p,
    (N.of_nat n + consecutive_decision_failures s = MAX_DECISION_RECOVERY_ATTEMPTS)%N ->
    S n <= length rounds -> run cfg rounds s = Some p ->
    exists k s' out, k <= S n /\ run cfg (take k rounds) s = Some (s', out) /\ asks s' = false).
  { clear. induction n as [|n IH]; intros rounds s p Hn Hlen Hrun;
      (destruct (asks s) eqn:Ea; [|exists 0, s, []; split; [lia|done]]);
      (destruct rounds as [|r rounds]; [cbn in Hlen; lia|]);
      (assert (Hs : stopped s = false) by (unfold asks in Ea; by destruct (stopped s)));
      cbn [run] in Hrun; rewrite Hs in Hrun;
      (destruct (step cfg r s) as [[s1 out1]|] eqn:Es; [|done]);
      apply fmap_Some in Hrun as (q & Hq & _);
      (destruct (asked cfg r s s1 out1 Ea Es) as [Hstop|[Hf Hmax]];
        [exists 1, s1, (out1 ++ []); split; [lia|]; split; [|done];
         by rewrite (run_take _ _ _ _ _ _ _ Hs Es)|]).
    - lia.
    - cbn in Hlen. destruct (IH rounds s1 q) as (k & s' & out & Hk & Hr & Ha); [lia|lia|done|].
      exists (S k), s', (out1 ++ out). split; [lia|]. split; [|done].
      by rewrite (run_take _ _ _ _ _ _ _ Hs Es), Hr. }
  destruct (H (N.to_nat (MAX_DECISION_RECOVERY_ATTEMPTS - consecutive_decision_failures s))
              rounds s p) as (k & s' & out & Hk & ?); [lia| |done|].
  - unfold MAX_DECISION_RECOVERY_ATTEMPTS in *. lia.
  - exists k, s', out. split; [|done]. unfold MAX_DECISION_RECOVERY_ATTEMPTS in Hk. lia.
Qed.

End coordinator.

(** ** Runs *)

Module CoordinatorRuns.
Import CompactRuns DecisionRuns.
#[local] Existing Instance CompactRuns.fields.

Definition cfg : settings := Settings true routed true 0 (lit "Summarise.").

Definition large (_ : str) : model_family := ModelFamily None None.

(** What the decoder reads of a text: the decision [good] of an object, nothing of others. *)
Definition decoded (raw : str) : result str coordinator_decision_new :=
  if bool_decide (raw = lit "{}") then Ok good else Err (lit "missing field").

#[local] Notation run_with :=
  (run no_json id id no_bridge large Some decoded no_legacy Some cfg).
#[local] Notation watched :=
  (observe no_json id id no_bridge large Some decoded no_legacy Some cfg).

Definition answered (text : str) : round (opaque := unit) :=
  Round false answers no_endpoint (StreamResult text [] None MODEL_SLUG) None (Ok (None, None)).

Definition told (c : auto_coordinator_command) : round (opaque := unit) :=
  Round false answers no_endpoint (StreamFailed CoordinatorCancelled) (Some c) (Ok (None, None)).

Definition begun : coordinator (opaque := unit) :=
  (start cfg (lit "gpt-5.5") (lit "fix the build") [says "user" "fix the build"] false).1.

(** The plan is acknowledged, a conversation comes, the model decides, another
    conversation comes before the decision is acknowledged. *)
Definition rounds : list round := [
  told (AckDecision 0);
  told (UpdateConversation [says "user" "fix the build"; says "assistant" "$ make"]);
  answered (lit "{}");
  told (UpdateConversation [says "user" "it fails"]);
  told (AckDecision 1);
  answered (lit "{}")].

Definition after (n : nat) : coordinator * list output :=
  match run_with (take n rounds) begun with Some p => p | None => (begun, []) end.

Lemma one_decision_at_a_time_witness :
  ledger_of (after 6).1 = Ledger (Some 2%N) 2 /\
  watch_all (ledger_of begun) (watched rounds begun) = Some (Ledger (Some 2%N) 2).
Proof.
  assert (H : run_with rounds begun = Some ((after 6).1, (after 6).2))
    by (vm_compute; reflexivity).
  assert (Hl : ledger_of (after 6).1 = Ledger (Some 2%N) 2) by (vm_compute; reflexivity).
  split; [exact Hl|]. rewrite <- Hl.
  exact (one_decision_at_a_time no_json id id no_bridge large Some decoded no_legacy Some
           cfg rounds begun (after 6).1 (after 6).2 H).
Defined.

Lemma outputs_within_rules_witness :
  length (after 6).2 = 6 /\ Forall (output_ok cfg) (after 6).2.
Proof.
  assert (H : run_with rounds begun = Some ((after 6).1, (after 6).2))
    by (vm_compute; reflexivity).
  split; [vm_compute; reflexivity|].
  exact (outputs_within_rules no_json id id no_bridge large Some decoded no_legacy Some
           cfg rounds begun (after 6).1 (after 6).2 H).
Defined.

(** A conversation that comes while a decision is outstanding waits. *)
Lemma taken_in_order_witness :
  inbox (after 4).1 = [[says "user" "it fails"]] /\
  exists n, MAX_QUEUED_CONVERSATION_UPDATES <= n /\
    inbox (after 4).1 = lastn n (inbox (after 3).1 ++ [[says "user" "it fails"]]).
Proof.
  split; [vm_compute; reflexivity|].
  assert (Hq : length (queued_updates (after 3).1) <= MAX_QUEUED_CONVERSATION_UPDATES)
    by (apply (bool_decide_unpack _); vm_compute; exact I).
  assert (Hs : step no_json id id no_bridge large Some decoded no_legacy Some cfg
    (told (UpdateConversation [says "user" "it fails"])) (after 3).1 = Some ((after 4).1, []))
    by (vm_compute; reflexivity).
  assert (Hr : stopped (after 4).1 = false) by (vm_compute; reflexivity).
  destruct (taken_in_order no_json id id no_bridge large Some decoded no_legacy Some cfg _ _ _ _
              Hq Hs Hr) as [_ H].
  assert (Ha : pending_ack_seq (after 3).1 = Some 1%N) by (vm_compute; reflexivity).
  rewrite Ha in H. exact H.
Defined.

(** The model never answers what can be read: the fourth request is the last. *)
Definition unreadable : list round := replicate 5 (answered (lit "[]")).

Definition conversing : coordinator (opaque := unit) := (after 2).1.

Definition is_request (o : output (opaque := unit)) : bool :=
  match o with Requested _ _ => true | _ => false end.
Definition requests_of (out : list output) : nat := length (filter is_request out).

Example fourth_request_last :
  (fun p => (stopped p.1, requests_of p.2)) <$> run_with unreadable conversing = Some (true, 4).
Proof. vm_compute. reflexivity. Qed.

Lemma asked_at_most_four_witness :
  asks conversing = true /\
  exists k s' out, k <= 4 /\ run_with (take k unreadable) conversing = Some (s', out) /\
    asks s' = false.
Proof.
  split; [vm_compute; reflexivity|].
  destruct (run_with unreadable conversing) as [p|] eqn:Hr; [|vm_compute in Hr; discriminate Hr].
  apply (asked_at_most_four no_json id id no_bridge large Some decoded no_legacy Some cfg
           unreadable conversing p).
  - vm_compute. discriminate.
  - apply (bool_decide_unpack _). vm_compute. exact I.
  - exact Hr.
Defined.

(** An answer in neither schema with a character of two bytes at byte 2000 ends the thread. *)
Example coordinator_panics :
  run_with [answered (replicate (N.to_nat 1999) 97%N ++ [233%N; 97%N])] conversing = None.
Proof. vm_compute. reflexivity. Qed.

(** Whatever was wrong with an answer, the note for the next attempt says that the prompt
    was longer than 600 characters. *)
Definition note_of (c : list (response_item unit)) : str :=
  match last c with Some (Message _ [InputText t] _) => t | _ => [] end.

Example blamed_for_length :
  (fun p => note_of <$> pending_conversation p.1) <$> run_with [answered (lit "[]")] conversing =
  Some (Some (
    lit "Previous coordinator response failed validation (attempt 1/3)." ++ [LF] ++
    lit "Error: decoding coordinator decision failed: new_schema_err=missing field; legacy_err=missing field; payload_snippet=[]" ++ [LF] ++
    lit "Schema: coordinator_decision" ++ [LF] ++
    lit "Guidance: Ensure every required field is present and spelled correctly per the coordinator schema." ++ [LF] ++
    OVERLONG_MSG)).
Proof. vm_compute. reflexivity. Qed.
End CoordinatorRuns.
