(* ===== verification/AutoRetry.v ===== *)
(** * Time budgets and retries of Auto Drive

    [code-auto-drive-core/src/retry.rs], and of [auto_coordinator.rs] the time budget
    ([AutoTimeBudget], [retry_max_elapsed]) and the classification of the model's errors.

    An [Instant] is a [Z], a number of nanoseconds of the monotonic clock, a [Duration] is an
    [N] of nanoseconds.  What the clocks, the random numbers and the cancellation give is part
    of an [attempt].  An [f64] is written with its exact value.  A panic is [None] or
    [Panicked].

    The loop is modelled for fewer than 2^31 attempts, beyond which the exponent of the delay
    would wrap around. *)

From Stdlib Require Import ZArith.
From stdpp Require Import base list.
From S2P Require Import Prelude AutoDrive.

Local Open Scope nat_scope.

(** ** Durations and instants *)

Definition from_secs (n : N) : N := (n * NANOS_PER_SEC)%N.

(** [Duration::MAX] and the last [Instant] of the platform (64-bit signed seconds). *)
Definition MAX_DURATION : N := from_secs (2 ^ 64) - 1.
Definition MAX_INSTANT : Z := (2 ^ 63 * 1000000000 - 1)%Z.
Definition MIN_INSTANT : Z := (- 2 ^ 63 * 1000000000)%Z.

(** [later.saturating_duration_since(earlier)] *)
Definition since (later earlier : Z) : N := Z.to_N (later - earlier).

(** [instant + duration], [instant.checked_sub(duration)] *)
Definition instant_add (i : Z) (d : N) : option Z :=
  if (MAX_INSTANT <? i + Z.of_N d)%Z then None else Some (i + Z.of_N d)%Z.
Definition checked_sub (i : Z) (d : N) : option Z :=
  if (i - Z.of_N d <? MIN_INSTANT)%Z then None else Some (i - Z.of_N d)%Z.

(** An [f64]: its sign, and its value [m * 2 ^ e] if it is finite. *)
Inductive f64 :=
| Float (negative : bool) (m : N) (e : Z)
| Infinite (negative : bool)
| NotANumber (negative : bool).

Definition is_sign_negative (x : f64) : bool :=
  match x with Float negative _ _ | Infinite negative | NotANumber negative => negative end.

(** [x / d], to the nearest integer, ties to even. *)
Definition round_half_even (x d : N) : N :=
  let q := (x / d)%N in
  let r := (x mod d)%N in
  if (2 * r <? d)%N then q
  else if (d <? 2 * r)%N then (q + 1)%N
  else if N.even q then q else (q + 1)%N.

Definition nanos_of (m : N) (e : Z) : N :=
  if (0 <=? e)%Z then (m * 2 ^ Z.to_N e * NANOS_PER_SEC)%N
  else round_half_even (m * NANOS_PER_SEC) (2 ^ Z.to_N (- e)).

(** [Duration::from_secs_f64]: it panics on a negative number, an infinity, NaN, and when the
    seconds need more than 64 bits. *)
Definition from_secs_f64 (x : f64) : option N :=
  match x with
  | Float negative m e =>
      if negative && negb (m =? 0)%N then None
      else if (MAX_DURATION <? nanos_of m e)%N then None else Some (nanos_of m e)
  | _ => None
  end.

(** The [Debug] format of a [Duration]. *)
Fixpoint frac_digits (width : nat) (n : N) : str :=
  match width with
  | 0 => []
  | S width => frac_digits width (n / 10) ++ [(48 + n mod 10)%N]
  end.

Definition fmt_decimal (int frac : N) (width : nat) (suffix : str) : str :=
  let digits := trim_end_matches 48%N (frac_digits width frac) in
  show_N int ++ match digits with [] => [] | _ => lit "." ++ digits end ++ suffix.

Definition debug_duration (d : N) : str :=
  let nanos := (d mod NANOS_PER_SEC)%N in
  if (NANOS_PER_SEC <=? d)%N then fmt_decimal (d / NANOS_PER_SEC) nanos 9 (lit "s")
  else if (1000000 <=? nanos)%N then fmt_decimal (nanos / 1000000) (nanos mod 1000000) 6 (lit "ms")
  else if (1000 <=? nanos)%N then fmt_decimal (nanos / 1000) (nanos mod 1000) 3 [181%N; 115%N]
  else fmt_decimal nanos 0 0 (lit "ns").

(** ** The time budget *)

Definition RATE_LIMIT_BUFFER : N := from_secs 5.
Definition RATE_LIMIT_JITTER_MAX : N := from_secs 3.
Definition MAX_RETRY_ELAPSED : N := from_secs (7 * 24 * 60 * 60).

Definition retry_max_elapsed (now : Z) (deadline : option Z) : N :=
  match deadline with
  | None => MAX_RETRY_ELAPSED
  | Some deadline => N.min (since deadline now - RATE_LIMIT_BUFFER) MAX_RETRY_ELAPSED
  end.

Record auto_time_budget := AutoTimeBudget {
  deadline : Z;
  total : N;
  next_nudge_at : Z
}.

#[local] Instance auto_time_budget_fields : Fields auto_time_budget := fun b =>
  AutoTimeBudget (deadline b) (total b) (next_nudge_at b).

Definition half_way (deadline : Z) (total : N) : Z :=
  default deadline (checked_sub deadline (total / 2)).

Definition new_budget (deadline : Z) (total : N) : auto_time_budget :=
  AutoTimeBudget deadline total (half_way deadline total).

Definition next_budget_nudge_interval (remaining : N) : N :=
  if (from_secs (30 * 60) <=? remaining)%N then from_secs (5 * 60)
  else if (from_secs (10 * 60) <=? remaining)%N then from_secs (2 * 60)
  else if (from_secs (5 * 60) <=? remaining)%N then from_secs 60
  else if (from_secs (2 * 60) <=? remaining)%N then from_secs 30
  else if (from_secs 60 <=? remaining)%N then from_secs 15
  else if (from_secs 30 <=? remaining)%N then from_secs 10
  else if (from_secs 10 <=? remaining)%N then from_secs 5
  else from_secs 2.

Definition guidance_for (remaining : N) : str :=
  if (remaining <=? from_secs 30)%N then
    lit "Time is nearly up: stop exploring; take the simplest safe path and do one cheap verification before finishing."
  else if (remaining <=? from_secs 120)%N then
    lit "Time is tight: parallelize any remaining scouting/verification (agents or tool-call batching) and finish with the cheapest proof."
  else
    lit "Past 50% of the time budget: start converging; parallelize remaining scouting/verification and avoid detours.".

Section budget.
Context (format_hours_minutes format_days_hours : N -> str).
Abbreviation format_duration := (format_duration format_hours_minutes format_days_hours).

Definition nudge_text (total elapsed remaining : N) : str :=
  lit "Time budget update: total=" ++ format_duration total ++ lit " elapsed=" ++
  format_duration elapsed ++ lit " remaining=" ++ format_duration remaining ++ lit ". " ++
  guidance_for remaining.

Local Open Scope record_scope.

Definition maybe_nudge (now : Z) (b : auto_time_budget) : option str * auto_time_budget :=
  if (now <? next_nudge_at b)%Z then (None, b)
  else
    let remaining := since (deadline b) now in
    let elapsed := (total b - remaining)%N in
    if (elapsed <? total b / 2)%N then
      (None, b <| next_nudge_at := half_way (deadline b) (total b) |>)
    else
      (Some (nudge_text (total b) elapsed remaining),
       b <| next_nudge_at := (now + Z.of_N (next_budget_nudge_interval remaining))%Z |>).

(** The messages given when the budget is asked at the times of a list. *)
Fixpoint nudges (times : list Z) (b : auto_time_budget) : list (Z * str) :=
  match times with
  | [] => []
  | now :: times =>
      let '(message, b) := maybe_nudge now b in
      option_list ((fun text => (now, text)) <$> message) ++ nudges times b
  end.
End budget.

(** ** The loop *)

(** [RetryOptions::with_defaults]; only the total time differs. *)
Definition BASE_DELAY : N := from_secs 1.
Definition FACTOR : N := 2.
Definition MAX_DELAY : N := from_secs (15 * 60).

(** The bound of [compute_delay] at an attempt, and the delay for a random number. *)
Definition delay_cap (attempt : N) : N := N.min (BASE_DELAY * FACTOR ^ (attempt - 1)) MAX_DELAY.
Definition compute_delay (attempt draw : N) : N := N.min draw (delay_cap attempt).

Section retry.
(** Errors, answers, the results of one attempt, the state of the two closures, and what they
    report. *)
Context {E A V C O : Type}.

Inductive retry_decision :=
| RetryAfterBackoff (reason : str)
| RateLimited (wait_until : Z) (reason : str)
| Fatal (e : E).

Record retry_status := RetryStatus {
  status_attempt : N;
  status_elapsed : N;
  sleep : option N;
  resume_at : option Z;
  reason : str;
  is_rate_limit : bool
}.

Inductive retry_error :=
| RetryAborted
| RetryTimeout (elapsed : N) (last_error : E)
| RetryFatal (e : E).

(** What an attempt meets: whether the run was cancelled before it, the service's answer,
    the clock when it failed, when the wait is computed and when it ends, a random delay, and
    whether the wait is cancelled. *)
Record attempt := Attempt {
  cancelled_before : bool;
  answer : A;
  failed_at : Z;
  checked_at : Z;
  drawn : N;
  cancelled_wait : bool;
  resumed_at : Z
}.

Inductive report :=
| Announced (s : retry_status)
| Reported (o : O).

(** The end of the loop; [Unfinished] when there are no more attempts. *)
Inductive retry_end :=
| Returned (r : result retry_error V)
| Panicked
| Unfinished.

Context (run : C -> attempt -> result E V * list O).
Context (classify : attempt -> E -> C -> option (retry_decision * C * list O)).
Context (context : str -> E -> E).

(** What follows a failed attempt: the end, or another attempt. *)
Inductive verdict := Stop (e : retry_end) | Again.

Definition budget_text (what : str) (wait remaining : N) : str :=
  what ++ lit " " ++ debug_duration wait ++ lit " exceeds remaining retry budget " ++
  debug_duration remaining.

Definition wait_with_cancel (a : attempt) (duration : N) : verdict :=
  if (duration =? 0)%N then Again
  else if cancelled_wait a then Stop (Returned (Err RetryAborted)) else Again.

(** A wait that does not fit into the rest of the time ends the loop. *)
Definition too_long (what : str) (limited : bool) (n elapsed wait remaining : N) (e : E)
    : verdict * list report :=
  let text := budget_text what wait remaining in
  (Stop (Returned (Err (RetryTimeout elapsed (context text e)))),
   [Announced (RetryStatus n elapsed None None text limited)]).

Definition after_failure (max_elapsed : N) (start : Z) (n : N) (a : attempt) (e : E)
    (decision : retry_decision) : verdict * list report :=
  let elapsed := since (failed_at a) start in
  let remaining := (max_elapsed - elapsed)%N in
  match decision with
  | Fatal fatal => (Stop (Returned (Err (RetryFatal fatal))), [])
  | RateLimited wait_until reason =>
      let now := checked_at a in
      if (wait_until <=? now)%Z then (Again, [])
      else
        let wait := since wait_until now in
        if (remaining <? wait)%N then too_long (lit "rate-limit wait") true n elapsed wait remaining e
        else
          let v := wait_with_cancel a wait in
          (v, Announced (RetryStatus n elapsed (Some wait) (Some wait_until) reason true) ::
              match v with
              | Again => [Announced (RetryStatus n (since (resumed_at a) start) None None
                                       (lit "rate limit window cleared") true)]
              | Stop _ => []
              end)
  | RetryAfterBackoff reason =>
      let wait := compute_delay n (drawn a) in
      if (remaining <? wait)%N then too_long (lit "retry delay") false n elapsed wait remaining e
      else
        (wait_with_cancel a wait,
         [Announced (RetryStatus n elapsed (Some wait) (Some (checked_at a + Z.of_N wait)%Z)
                       reason false)])
  end.

Definition one_attempt (max_elapsed : N) (start : Z) (n : N) (a : attempt) (c : C)
    : verdict * C * list report :=
  if cancelled_before a then (Stop (Returned (Err RetryAborted)), c, [])
  else
    let '(outcome, seen) := run c a in
    match outcome with
    | Ok v => (Stop (Returned (Ok v)), c, Reported <$> seen)
    | Err e =>
        let elapsed := since (failed_at a) start in
        if (max_elapsed <=? elapsed)%N then
          (Stop (Returned (Err (RetryTimeout elapsed e))), c, Reported <$> seen)
        else
          match classify a e c with
          | None => (Stop Panicked, c, Reported <$> seen)
          | Some (decision, c, reports) =>
              let '(v, statuses) := after_failure max_elapsed start n a e decision in
              (v, c, (Reported <$> seen ++ reports) ++ statuses)
          end
    end.

Fixpoint retry_loop (max_elapsed : N) (start : Z) (n : N) (attempts : list attempt) (c : C)
    : retry_end * C * list report :=
  match attempts with
  | [] => (Unfinished, c, [])
  | a :: attempts =>
      let n := saturating_add32 n 1 in
      let '(v, c, reports) := one_attempt max_elapsed start n a c in
      match v with
      | Stop e => (e, c, reports)
      | Again =>
          let '(e, c, more) := retry_loop max_elapsed start n attempts c in
          (e, c, reports ++ more)
      end
  end.

Definition retry_with_backoff (max_elapsed : N) (start : Z) (attempts : list attempt) (c : C)
    : retry_end * C * list report := retry_loop max_elapsed start 0 attempts c.
End retry.

(** ** Errors of the model *)

Record reqwest_error := ReqwestError {
  is_timeout : bool;
  is_connect : bool;
  is_request : bool;
  reqwest_status : option N;
  reqwest_text : str
}.

(** [CodexErr], as far as it is told apart. *)
Inductive codex_err :=
| StreamErr (message : str)
| TimeoutErr
| UnexpectedStatus (status : N) (body : str)
| UsageLimitReached (resets_in_seconds : option N)
| UsageNotIncluded
| AuthRefreshPermanent
| QuotaExceeded
| ServerError
| RetryLimit (status : N) (retryable : bool)
| ReqwestErr (e : reqwest_error)
| IoErr (timed_out : bool)
| RateLimitExceeded (message : str)
| ServerOverloaded
| OtherCodexErr.

(** An [anyhow::Error]: its text and what its chain of causes can be downcast to. *)
Inductive link :=
| CodexLink (e : codex_err)
| ReqwestLink (e : reqwest_error)
| IoLink (timed_out : bool)
| CancelledLink
| OtherLink.

Record error := AnyError { error_text : str; chain : list link }.

(** [anyhow!(text)], [error.context(text)] *)
Definition anyhow (text : str) : error := AnyError text [OtherLink].
Definition with_context (text : str) (e : error) : error := AnyError text (OtherLink :: chain e).

(** [find_in_chain] *)
Definition find_codex (e : error) : option codex_err :=
  head (omap (fun l => match l with CodexLink c => Some c | _ => None end) (chain e)).
Definition find_reqwest (e : error) : option reqwest_error :=
  head (omap (fun l => match l with ReqwestLink r => Some r | _ => None end) (chain e)).
Definition find_io (e : error) : option bool :=
  head (omap (fun l => match l with IoLink t => Some t | _ => None end) (chain e)).

Definition is_client_error (status : N) : bool := ((400 <=? status) && (status <? 500))%N.
Definition is_server_error (status : N) : bool := ((500 <=? status) && (status <? 600))%N.

Definition is_usage_limit_stream_error_message (message : str) : bool :=
  let lower := to_ascii_lowercase message in
  str_contains (lit "usage limit") lower || str_contains (lit "usage_limit_reached") lower ||
  str_contains (lit "usage_not_included") lower.

Definition link_mentions_usage_limit (l : link) : bool :=
  match l with
  | CodexLink (UsageLimitReached _) | CodexLink UsageNotIncluded => true
  | CodexLink (StreamErr message) => is_usage_limit_stream_error_message message
  | _ => false
  end.

Definition error_mentions_usage_limit (e : error) : bool :=
  existsb link_mentions_usage_limit (chain e).

Definition spark_fallback_model (model : str) : option str :=
  if eq_ignore_ascii_case model (lit "gpt-5.3-codex-spark") then Some (lit "gpt-5.3-codex")
  else if eq_ignore_ascii_case model (lit "code-gpt-5.3-codex-spark")
  then Some (lit "code-gpt-5.3-codex")
  else None.

(** What the clocks give when an error is classified, and a random delay. *)
Record clock := Clock { instant_now : Z; utc_now : Z; wait_jitter : N }.

(** [compute_rate_limit_wait]; the additions panic when they overflow. *)
Definition compute_rate_limit_wait (c : clock) (base : N) : option Z :=
  let wait := (base + RATE_LIMIT_BUFFER + N.min (wait_jitter c) RATE_LIMIT_JITTER_MAX)%N in
  if (MAX_DURATION <? wait)%N then None else instant_add (instant_now c) wait.

Definition RESET_FIELDS : list str := [
  lit "reset_seconds"; lit "reset_in_seconds"; lit "resets_in_seconds";
  lit "x-ratelimit-reset"; lit "x-ratelimit-reset-requests"].

Definition INVALID_MODEL_TEXTS : list str := [
  lit "invalid model"; lit "unknown model"; lit "model_not_found"; lit "model does not exist"].

Section classify.
Context {json : Type}.
Context (from_str : str -> option json).
Context (get : str -> json -> option json).
Context (as_f64 : json -> option f64).
Context (as_str : json -> option str).
Context (parse_f64 : str -> option f64).
(** A date of RFC 3339, in nanoseconds. *)
Context (parse_date : str -> option Z).
(** [StatusCode]'s text, and [str::to_lowercase]. *)
Context (status_text : N -> str).
Context (to_lowercase : str -> str).

(** The number in a field. *)
Definition field_number (seconds : json) : option f64 :=
  match as_f64 seconds with
  | Some num => Some num
  | None => as_str seconds ≫= parse_f64
  end.

(** The outer [None] is a panic. *)
Fixpoint extract_seconds (fields : list str) (value : json) : option (option N) :=
  match fields with
  | [] => Some None
  | key :: fields =>
      match get key value ≫= field_number with
      | Some num =>
          if is_sign_negative num then extract_seconds fields value
          else Some <$> from_secs_f64 num
      | None => extract_seconds fields value
      end
  end.

Definition extract_reset_at (c : clock) (value : json) : option (option Z) :=
  match (get (lit "reset_at") value ≫= as_str) ≫= parse_date with
  | Some reset => Some <$> compute_rate_limit_wait c (since reset (utc_now c))
  | None => Some None
  end.

Definition parse_rate_limit_hint (c : clock) (body : str) : option (option Z) :=
  match from_str body with
  | None => Some None
  | Some value =>
      let error_obj := default value (get (lit "error") value) in
      match extract_seconds RESET_FIELDS error_obj with
      | None => None
      | Some (Some seconds) => Some <$> compute_rate_limit_wait c seconds
      | Some None => extract_reset_at c error_obj
      end
  end.

Notation decision := (retry_decision (E := error)).

Definition fatal (e : error) : decision := Fatal (anyhow (error_text e)).

Definition classify_reqwest_error (r : reqwest_error) : decision :=
  let no_status := match reqwest_status r with None => true | Some _ => false end in
  if is_timeout r || is_connect r || (is_request r && no_status) then
    RetryAfterBackoff (lit "network error: " ++ reqwest_text r)
  else
    match reqwest_status r with
    | Some status =>
        if (status =? 429)%N then RetryAfterBackoff (lit "rate limited (429)")
        else if (status =? 408)%N then RetryAfterBackoff (lit "provider returned " ++ status_text status)
        else if (status =? 499)%N then RetryAfterBackoff (lit "client closed request (499)")
        else if is_server_error status then RetryAfterBackoff (lit "server error " ++ status_text status)
        else Fatal (anyhow (reqwest_text r))
    | None => Fatal (anyhow (reqwest_text r))
    end.

(** What is decided when no [CodexErr] decides. *)
Definition classify_other (e : error) : decision :=
  match find_reqwest e with
  | Some r => classify_reqwest_error r
  | None =>
      match find_io e with
      | Some true => RetryAfterBackoff (lit "network timeout")
      | _ => fatal e
      end
  end.

Definition classify_status (c : clock) (e : error) (status : N) (body : str) : option decision :=
  if (status =? 408)%N then Some (RetryAfterBackoff (lit "provider returned " ++ status_text status))
  else if (status =? 499)%N then Some (RetryAfterBackoff (lit "client closed request (499)"))
  else if (status =? 429)%N then
    (fun hint =>
       match hint with
       | Some wait_until => RateLimited wait_until (lit "rate limited; waiting for reset")
       | None => RetryAfterBackoff (lit "rate limited (429)")
       end) <$> parse_rate_limit_hint c body
  else if is_client_error status then Some (fatal e)
  else if is_server_error status then Some (RetryAfterBackoff (lit "server error " ++ status_text status))
  else Some (classify_other e).

(** [None] is a panic. *)
Definition classify_model_error (c : clock) (e : error) : option decision :=
  match find_codex e with
  | Some (StreamErr message) => Some (RetryAfterBackoff (lit "model stream error: " ++ message))
  | Some TimeoutErr => Some (RetryAfterBackoff (lit "model request timed out"))
  | Some (UnexpectedStatus status body) => classify_status c e status body
  | Some (UsageLimitReached (Some seconds)) =>
      (fun wait_until => RateLimited wait_until (lit "usage limit reached")) <$>
      compute_rate_limit_wait c (from_secs seconds)
  | Some (UsageLimitReached None) | Some UsageNotIncluded | Some AuthRefreshPermanent
  | Some QuotaExceeded => Some (fatal e)
  | Some ServerError => Some (RetryAfterBackoff (error_text e))
  | Some (RetryLimit status retryable) =>
      Some (if retryable
            then RetryAfterBackoff (lit "retry limit exceeded (status " ++ status_text status ++
                                    lit "), treating as transient")
            else Fatal (anyhow (lit "retry limit exceeded (status " ++ status_text status ++ lit ")")))
  | Some (ReqwestErr r) => Some (classify_reqwest_error r)
  | Some (IoErr true) => Some (RetryAfterBackoff (lit "network timeout"))
  | Some (IoErr false) | Some (RateLimitExceeded _) | Some ServerOverloaded | Some OtherCodexErr
  | None => Some (classify_other e)
  end.

(** An account took over when the limit was reached ([AccountSwitching]); its label. *)
Definition classify_model_error_with_auto_switch (c : clock) (switched : option str) (e : error)
    : option (decision * list str) :=
  match find_codex e, switched with
  | Some (UsageLimitReached _), Some label =>
      Some (RateLimited (instant_now c) (lit "usage limit reached; switched accounts"),
            [lit "Auto-switch: now using " ++ label ++ lit " due to usage limit."])
  | _, _ => (fun d => (d, [])) <$> classify_model_error c e
  end.

Definition link_invalid_model (l : link) : bool :=
  match l with
  | CodexLink (UnexpectedStatus status body) =>
      is_client_error status &&
      existsb (fun text => str_contains text (to_lowercase body)) INVALID_MODEL_TEXTS
  | _ => false
  end.

Definition should_retry_with_default_model (e : error) : bool :=
  existsb link_invalid_model (chain e).
End classify.

(** ** When a budget speaks *)

Section budget.
Context (format_hours_minutes format_days_hours : N -> str).

(** The times that are reminded at: from [next] on, and then when the interval that follows
    the last reminder has passed. *)
Fixpoint schedule (deadline next : Z) (times : list Z) : list Z :=
  match times with
  | [] => []
  | now :: times =>
      if (next <=? now)%Z
      then now :: schedule deadline (now + Z.of_N (next_budget_nudge_interval (since deadline now)))%Z times
      else schedule deadline next times
  end.

Definition nudge_at (deadline : Z) (total : N) (now : Z) : Z * str :=
  let remaining := since deadline now in
  (now, nudge_text format_hours_minutes format_days_hours total (total - remaining) remaining).

(** Half of the time has passed at the next reminder. *)
Definition past_half (b : auto_time_budget) : Prop :=
  forall now, (next_nudge_at b <= now)%Z -> (total b / 2 <= total b - since (deadline b) now)%N.

Lemma new_past_half deadline total : past_half (new_budget deadline total).
Proof.
  unfold past_half, new_budget, half_way, checked_sub, since; cbn. intros now.
  pose proof (N.Div0.mul_div_le total 2). case_match; cbn; lia.
Qed.

Lemma nudges_schedule times b : past_half b ->
  nudges format_hours_minutes format_days_hours times b =
  nudge_at (deadline b) (total b) <$> schedule (deadline b) (next_nudge_at b) times.
Proof.
  revert b. induction times as [|now times IH]; intros b Hb; [done|].
  cbn [nudges schedule]. unfold maybe_nudge. destruct (Z.ltb_spec now (next_nudge_at b)) as [Hlt|Hge].
  - destruct (Z.leb_spec (next_nudge_at b) now); [lia|]. cbn. by apply IH.
  - destruct (Z.leb_spec (next_nudge_at b) now); [|lia]. pose proof (Hb now Hge) as Hhalf.
    destruct (N.ltb_spec (total b - since (deadline b) now) (total b / 2)); [lia|].
    rewrite fmap_cons. cbn [option_list fmap option_fmap option_map app]. f_equal. rewrite IH; [done|].
    intros now' H'. cbn in H' |- *. unfold since in *. lia.
Qed.
End budget.
Arguments nudge_at : simpl never.

(** The reminders of a time budget: the first when half of the time has passed, and each
    other one when the interval for the time that was left at the one before has passed. *)
Theorem nudges_on_schedule fhm fdh deadline total times :
  nudges fhm fdh times (new_budget deadline total) =
  nudge_at fhm fdh deadline total <$> schedule deadline (half_way deadline total) times.
Proof. apply nudges_schedule, new_past_half. Qed.

(** ** What the loop returns *)

Section retry.
Context {E A V C O : Type}.
Context (run : C -> attempt (A := A) -> result E V * list O).
Context (classify : attempt (A := A) -> E -> C -> option (retry_decision (E := E) * C * list O)).
Context (context : str -> E -> E).
Context (max_elapsed : N) (start : Z).

Notation attempt := (attempt (A := A)).
(** *** The specification, independent of the loop *)

(** The time from the start of the loop to the failure of an attempt. *)
Definition failed_after (a : attempt) : N := Z.to_N (failed_at a - start).

(** How long a decision lets the loop wait when [k] attempts were made before: until the time
    it names, or the random delay that was drawn, which is at most [2 ^ k] seconds and at most
    a quarter of an hour. *)
Definition wait_asked (k : nat) (a : attempt) (d : retry_decision (E := E)) : N :=
  match d with
  | RateLimited wait_until _ => Z.to_N (wait_until - checked_at a)
  | RetryAfterBackoff _ =>
      N.min (drawn a) (N.min (2 ^ N.of_nat k * 1000000000) (15 * 60 * 1000000000))
  | Fatal _ => 0
  end.

Definition final (d : retry_decision (E := E)) : Prop := match d with Fatal _ => True | _ => False end.

(** An attempt was made, it failed before the time had run out, and [d] was decided. *)
Definition failed_with (a : attempt) (c : C) (e : E) (d : retry_decision (E := E)) (c' : C) : Prop :=
  cancelled_before a = false /\ (run c a).1 = Err e /\ (failed_after a < max_elapsed)%N /\
  exists o, classify a e c = Some (d, c', o).

(** The wait that is asked for ends within the time. *)
Definition wait_fits (k : nat) (a : attempt) (d : retry_decision (E := E)) : Prop :=
  (failed_after a + wait_asked k a d <= max_elapsed)%N.

(** Attempts made one after the other, [k] of them before the first of the list: each failed
    within the time and not for good, its wait fits into the time and is not cancelled. *)
Inductive tried : nat -> list attempt -> C -> C -> Prop :=
| tried_none k c : tried k [] c c
| tried_more k a l e d c c1 c2 :
    failed_with a c e d c1 -> ~ final d -> wait_fits k a d ->
    (wait_asked k a d = 0%N \/ cancelled_wait a = false) ->
    tried (S k) l c1 c2 -> tried k (a :: l) c c2.

(** An attempt that ends the loop, with [k] attempts before it. *)
Definition ended_by (k : nat) (a : attempt) (c : C) (end_ : retry_end (E := E) (V := V)) : Prop :=
  match end_ with
  | Returned (Ok v) => cancelled_before a = false /\ (run c a).1 = Ok v
  | Returned (Err RetryAborted) =>
      cancelled_before a = true \/
      exists e d c', failed_with a c e d c' /\ ~ final d /\ wait_fits k a d /\
        (0 < wait_asked k a d)%N /\ cancelled_wait a = true
  | Returned (Err (RetryTimeout elapsed last)) =>
      elapsed = failed_after a /\
      ((cancelled_before a = false /\ (run c a).1 = Err last /\ (max_elapsed <= elapsed)%N) \/
       exists e d c' text, failed_with a c e d c' /\ ~ final d /\
         (max_elapsed < elapsed + wait_asked k a d)%N /\ last = context text e)
  | Returned (Err (RetryFatal f)) => exists e c', failed_with a c e (Fatal f) c'
  | Panicked =>
      cancelled_before a = false /\
      exists e, (run c a).1 = Err e /\ (failed_after a < max_elapsed)%N /\ classify a e c = None
  | Unfinished => False
  end.

(** How the loop went: the attempts that were tried again, and the one that ended it. *)
Definition went (attempts : list attempt) (c : C) (end_ : retry_end (E := E) (V := V)) (c' : C) (k : nat)
    : Prop :=
  (end_ = Unfinished /\ tried k attempts c c') \/
  exists before a after c1, attempts = before ++ a :: after /\ tried k before c c1 /\
    ended_by (k + length before) a c1 end_.

(** An announced wait is that of one of the attempts: it ends within the time, and the loop goes
    on when it has passed since it was computed. *)
Definition announced_for (l : list attempt) (r : report (O := O)) : Prop :=
  match r with
  | Announced s =>
      forall d, sleep s = Some d -> exists a, a ∈ l /\
        status_elapsed s = failed_after a /\ (failed_after a < max_elapsed)%N /\
        (failed_after a + d <= max_elapsed)%N /\
        resume_at s = Some (checked_at a + Z.of_N d)%Z
  | Reported _ => True
  end.

Lemma announced_more l l' out : l ⊆ l' -> Forall (announced_for l) out -> Forall (announced_for l') out.
Proof.
  intros Hl Hout. apply (Forall_impl _ _ _ Hout). intros [s|o]; [|done]. cbn. intros H d Hd.
  destruct (H d Hd) as (a & ? & ?). eauto.
Qed.

Lemma reported_fit l (seen : list O) : Forall (announced_for l) (Reported <$> seen).
Proof. apply Forall_fmap, Forall_true. done. Qed.

(** The number of the attempt, as it is counted. *)
Definition number (k : nat) : N := N.min (N.of_nat k) (2 ^ 32 - 1).

Lemma number_S k : saturating_add32 (number k) 1 = number (S k).
Proof. unfold saturating_add32, number. lia. Qed.

Lemma delay_cap_number k :
  delay_cap (number (S k)) = N.min (2 ^ N.of_nat k * 1000000000) (15 * 60 * 1000000000).
Proof.
  unfold delay_cap. change BASE_DELAY with 1000000000%N. change FACTOR with 2%N.
  change MAX_DELAY with (15 * 60 * 1000000000)%N. rewrite (N.mul_comm 1000000000).
  destruct (N.le_gt_cases (N.of_nat (S k)) (2 ^ 32 - 1)) as [H|H].
  { do 3 f_equal. unfold number. lia. }
  assert (forall m, 10 <= m -> 15 * 60 * 1000000000 <= 2 ^ m * 1000000000)%N as Hbig.
  { intros m Hm. etrans; [|apply N.mul_le_mono_r, (N.pow_le_mono_r 2 10 m); lia]. vm_compute. discriminate. }
  rewrite !N.min_r; [done|apply Hbig|apply Hbig]; unfold number; lia.
Qed.

Lemma compute_delay_asked k a r :
  compute_delay (number (S k)) (drawn a) = wait_asked k a (RetryAfterBackoff r).
Proof. unfold compute_delay. by rewrite delay_cap_number. Qed.

Lemma wait_again (a : attempt) d : wait_with_cancel (E := E) (V := V) a d = Again <->
  d = 0%N \/ cancelled_wait a = false.
Proof.
  unfold wait_with_cancel. destruct (N.eqb_spec d 0); [naive_solver|]. destruct (cancelled_wait a); naive_solver.
Qed.

Lemma wait_stops (a : attempt) d end_ : wait_with_cancel (E := E) (V := V) a d = Stop end_ ->
  end_ = Returned (Err RetryAborted) /\ (0 < d)%N /\ cancelled_wait a = true.
Proof.
  unfold wait_with_cancel. destruct (N.eqb_spec d 0); [done|]. case_match; [|done].
  intros [= <-]. split_and!; [done|lia|done].
Qed.

(** What follows a failure, in terms of the wait that is asked for. *)
Definition followed (k : nat) (a : attempt) (e : E) (d : retry_decision (E := E))
    (v : verdict (E := E) (V := V)) : Prop :=
  match v with
  | Again => ~ final d /\ wait_fits k a d /\ (wait_asked k a d = 0%N \/ cancelled_wait a = false)
  | Stop (Returned (Err RetryAborted)) =>
      ~ final d /\ wait_fits k a d /\ (0 < wait_asked k a d)%N /\ cancelled_wait a = true
  | Stop (Returned (Err (RetryTimeout elapsed last))) =>
      elapsed = failed_after a /\ ~ final d /\ (max_elapsed < elapsed + wait_asked k a d)%N /\
      exists text, last = context text e
  | Stop (Returned (Err (RetryFatal f))) => d = Fatal f
  | Stop _ => False
  end.

Lemma waited_followed k (a : attempt) e d :
  ~ final d -> wait_fits k a d -> followed k a e d (wait_with_cancel a (wait_asked k a d)).
Proof.
  intros Hd Hf. destruct (wait_with_cancel a _) as [end_|] eqn:Ew.
  - by apply wait_stops in Ew as (-> & ? & ?).
  - apply wait_again in Ew. done.
Qed.

Lemma announced_wait n (a : attempt) d at_ reason limited :
  (failed_after a < max_elapsed)%N -> (d <= max_elapsed - failed_after a)%N ->
  at_ = (checked_at a + Z.of_N d)%Z ->
  announced_for [a] (Announced (RetryStatus n (failed_after a) (Some d) (Some at_) reason limited)).
Proof.
  intros ? ? ->. intros ? [= <-]. exists a. split; [by apply list_elem_of_here|].
  split; [done|]. split; [done|]. split; [lia|done].
Qed.

Lemma after_failure_spec k (a : attempt) e d v out :
  (failed_after a < max_elapsed)%N ->
  after_failure (V := V) (O := O) context max_elapsed start (number (S k)) a e d = (v, out) ->
  Forall (announced_for [a]) out /\ followed k a e d v.
Proof.
  intros Hlt. unfold after_failure, too_long. change (since (failed_at a) start) with (failed_after a).
  destruct d as [r|w r|f].
  - rewrite (compute_delay_asked k a r). case_match eqn:Hfit; intros [= <- <-].
    + apply N.ltb_lt in Hfit. split; [by repeat constructor|]. unfold followed.
      split_and!; [done|by intros []|lia|by eexists].
    + apply N.ltb_ge in Hfit. split; [constructor; [apply (announced_wait _ _ _ _ _ _ Hlt Hfit); done|done]|].
      apply waited_followed; [by intros []|]. unfold wait_fits. lia.
  - change (since w (checked_at a)) with (wait_asked k a (RateLimited w r)).
    case_match eqn:Hnow.
    { apply Z.leb_le in Hnow. intros [= <- <-]. split; [done|]. unfold followed, wait_fits.
      assert (wait_asked k a (RateLimited w r) = 0%N) as -> by (cbn; lia). split; [by intros []|]. lia. }
    case_match eqn:Hfit.
    { apply N.ltb_lt in Hfit. intros [= <- <-]. split; [by repeat constructor|]. unfold followed.
      split_and!; [done|by intros []|lia|by eexists]. }
    apply N.ltb_ge in Hfit. intros [= <- <-]. split.
    + constructor; [apply (announced_wait _ _ _ _ _ _ Hlt Hfit); cbn; lia|]. case_match; by repeat constructor.
    + apply waited_followed; [by intros []|]. unfold wait_fits. lia.
  - by intros [= <- <-].
Qed.

Lemma one_attempt_spec k a c v c' out :
  one_attempt run classify context max_elapsed start (number (S k)) a c = (v, c', out) ->
  Forall (announced_for [a]) out /\
  match v with
  | Again => forall l c2, tried (S k) l c' c2 -> tried k (a :: l) c c2
  | Stop end_ => ended_by k a c end_
  end.
Proof.
  unfold one_attempt. change (since (failed_at a) start) with (failed_after a).
  destruct (cancelled_before a) eqn:Hc; [intros [= <- _ <-]; split; [done|by left]|].
  destruct (run c a) as [r seen] eqn:Er. apply (f_equal fst) in Er. cbn in Er.
  destruct r as [v0|e]; [intros [= <- _ <-]; split; [apply reported_fit|by split]|].
  destruct (N.leb_spec max_elapsed (failed_after a)) as [Hmax|Hmax].
  { intros [= <- _ <-]. split; [apply reported_fit|]. split; [done|]. by left. }
  destruct (classify a e c) as [[[d c1] o]|] eqn:Ed.
  2: { intros [= <- _ <-]. split; [apply reported_fit|]. split; [done|]. by exists e. }
  destruct (after_failure context max_elapsed start _ a e d) as [v1 statuses] eqn:Ea.
  intros [= <- <- <-]. destruct (after_failure_spec _ _ _ _ _ _ Hmax Ea) as [Hf Hv].
  split; [apply Forall_app; split; [apply reported_fit|done]|].
  assert (failed_with a c e d c1) as Hw by (repeat split; [done..|by exists o]).
  destruct v1 as [[[v1|[|elapsed last|f]]| |]|]; cbn in Hv; cbn [ended_by].
  - done.
  - right. exists e, d, c1. naive_solver.
  - destruct Hv as (-> & Hd & Hlong & text & ->). split; [done|]. right. by exists e, d, c1, text.
  - subst d. by exists e, c1.
  - done.
  - done.
  - intros l c2. destruct Hv as (? & ? & ?). by eapply tried_more.
Qed.

Lemma loop_spec k attempts c end_ c' out :
  retry_loop run classify context max_elapsed start (number k) attempts c = (end_, c', out) ->
  Forall (announced_for attempts) out /\ went attempts c end_ c' k.
Proof.
  revert k c out. induction attempts as [|a attempts IH]; intros k c out; cbn [retry_loop].
  { intros [= <- <- <-]. split; [done|]. left. split; [done|constructor]. }
  rewrite number_S. destruct (one_attempt _ _ _ _ _ _ _ _) as [[v c1] reports] eqn:Ea.
  destruct (one_attempt_spec _ _ _ _ _ _ Ea) as [Hf Hv]. destruct v as [e|].
  { intros [= <- <- <-]. split; [eapply announced_more, Hf; set_solver|]. right. exists [], a, attempts, c.
    rewrite Nat.add_0_r. split; [done|]. split; [constructor|done]. }
  destruct (retry_loop _ _ _ _ _ _ attempts c1) as [[e c2] more] eqn:El.
  intros [= <- <- <-]. destruct (IH _ _ _ El) as [Hm He].
  split; [apply Forall_app; split; (eapply announced_more; [|done]); set_solver|].
  destruct He as [[-> Ht]|(before & b & after & c3 & -> & Ht & He)]; [left|right].
  - split; [done|]. by apply Hv.
  - exists (a :: before), b, after, c3. split; [done|]. split; [by apply Hv|].
    cbn [length]. rewrite Nat.add_succ_r. exact He.
Qed.

Lemma retry_spec attempts c end_ c' out :
  retry_with_backoff run classify context max_elapsed start attempts c = (end_, c', out) ->
  Forall (announced_for attempts) out /\ went attempts c end_ c' 0.
Proof. apply (loop_spec 0). Qed.

Lemma tried_in_time k l c c' : tried k l c c' -> Forall (fun a => (failed_after a < max_elapsed)%N) l.
Proof. induction 1 as [|k a l e d c c1 c2 (_ & _ & ? & _)]; by constructor. Qed.


(** The loop returns: if the clock advances by [tick] from one failure to the next, at most
    as many attempts as ticks fit into the time are made. *)
Theorem retry_returns attempts c (tick : N) :
  attempts <> [] ->
  (forall i a, attempts !! i = Some a -> (tick * N.of_nat (S i) <= failed_after a)%N) ->
  (max_elapsed <= tick * N.of_nat (length attempts))%N ->
  (retry_with_backoff run classify context max_elapsed start attempts c).1.1 <> Unfinished.
Proof.
  intros Hne Htick Hmax.
  destruct (retry_with_backoff _ _ _ _ _ attempts c) as [[end_ c'] out] eqn:El.
  destruct (retry_spec _ _ _ _ _ El) as [_ [[-> Ht]|(b & a & l & c1 & _ & _ & He)]].
  2: { by destruct end_. }
  apply tried_in_time in Ht. exfalso. destruct attempts as [|a l _] using rev_ind; [done|].
  rewrite length_app in Hmax. cbn in Hmax.
  apply Forall_app in Ht as [_ Ha%Forall_inv]. cbn in Ha.
  specialize (Htick (length l) a). rewrite lookup_app_r, Nat.sub_diag in Htick by done.
  specialize (Htick eq_refl). rewrite Nat.add_1_r in Hmax. lia.
Qed.
End retry.

(** ** What is decided about an error *)

Section classify.
Context {json : Type}.
Context (from_str : str -> option json).
Context (get : str -> json -> option json).
Context (as_f64 : json -> option f64).
Context (as_str : json -> option str).
Context (parse_f64 : str -> option f64).
Context (parse_date : str -> option Z).
Context (status_text : N -> str).

Abbreviation classified :=
  (classify_model_error from_str get as_f64 as_str parse_f64 parse_date status_text).

(** The reason for an end is a text; the chain of causes is lost. *)
Definition ends_with_text (d : retry_decision (E := error)) : Prop :=
  match d with Fatal e => chain e = [OtherLink] | _ => True end.

Lemma reqwest_text_only r : ends_with_text (classify_reqwest_error status_text r).
Proof. unfold classify_reqwest_error. by repeat case_match. Qed.

Lemma other_text_only e : ends_with_text (classify_other status_text e).
Proof. unfold classify_other. by repeat case_match; [apply reqwest_text_only|..]. Qed.

Lemma fatal_text_only c e d : classified c e = Some d -> ends_with_text d.
Proof.
  unfold classify_model_error. destruct (find_codex e) as [[]|].
  all: try (by intros [= <-]).
  all: try (by intros [= <-]; apply other_text_only).
  - unfold classify_status. repeat (case_match; [by intros [= <-]|]).
    case_match; [by intros (h & _ & ->)%fmap_Some; destruct h|].
    repeat (case_match; [by intros [= <-]|]). intros [= <-]. apply other_text_only.
  - case_match; [|by intros [= <-]]. by intros (w & _ & ->)%fmap_Some.
  - by case_match; intros [= <-].
  - intros [= <-]. apply reqwest_text_only.
  - case_match; intros [= <-]; [done|apply other_text_only].
Qed.

Lemma rate_limit_wait c base w : compute_rate_limit_wait c base = Some w ->
  (instant_now c + Z.of_N base + Z.of_N RATE_LIMIT_BUFFER <= w /\
   w <= instant_now c + Z.of_N base + Z.of_N (RATE_LIMIT_BUFFER + RATE_LIMIT_JITTER_MAX))%Z.
Proof.
  unfold compute_rate_limit_wait, instant_add. repeat case_match; intros [= <-]. lia.
Qed.
End classify.

(** ** Runs *)

Module RetryRuns.
(** An attempt gives a number or an error; [fatal] is not tried again. *)
Definition run_plain (_ : unit) (a : attempt (A := result str N)) : result str N * list unit :=
  (answer a, []).

Definition classify_plain (a : attempt (A := result str N)) (e : str) (_ : unit)
    : option (retry_decision (E := str) * unit * list unit) :=
  Some (if str_eqb e (lit "fatal") then Fatal e else RetryAfterBackoff e, tt, []).

Definition fails (e : string) (second : Z) : attempt (A := result str N) :=
  Attempt false (Err (lit e)) (second * 1000000000) (second * 1000000000) (from_secs 1) false
    ((second + 1) * 1000000000).

Definition succeeds : attempt (A := result str N) := Attempt false (Ok 7%N) 0 0 0 false 0.

Abbreviation retried l :=
  (retry_with_backoff run_plain classify_plain (fun text e => text ++ e) (from_secs 10) 0 l tt).

Definition two_failures : list (attempt (A := result str N)) := [fails "busy" 1; fails "busy" 3; succeeds].


Lemma retry_returns_witness : (retried [fails "busy" 5; fails "busy" 10]).1.1 <> Unfinished.
Proof.
  apply (retry_returns run_plain classify_plain _ _ _ _ tt (from_secs 5)).
  - discriminate.
  - intros [|[|i]] a Ha; [injection Ha as <-|injection Ha as <-|discriminate Ha];
      vm_compute; discriminate.
  - vm_compute. discriminate.
Defined.

(** The third wait would take four seconds, of which three are left. *)
Example wait_too_long :
  (retry_with_backoff run_plain classify_plain (fun text e => text ++ lit ": " ++ e) (from_secs 10) 0
     [fails "busy" 1; fails "busy" 3;
      Attempt false (Err (lit "busy")) 7000000000 7000000000 (from_secs 60) false 0] tt).1.1 =
  Returned (Err (RetryTimeout (from_secs 7)
    (lit "retry delay 4s exceeds remaining retry budget 3s: busy"))).
Proof. vm_compute. reflexivity. Qed.

Example debug_texts :
  debug_duration <$> [from_secs 90; 1500000000; 20000000; 2500; 3]%N =
  [lit "90s"; lit "1.5s"; lit "20ms"; lit "2.5" ++ [181%N; 115%N]; lit "3ns"].
Proof. vm_compute. reflexivity. Qed.

(** A budget of ten minutes: reminders after five minutes, then every half a minute and less. *)
Example ten_minutes :
  schedule 600000000000 (half_way 600000000000 (from_secs 600))
    ((fun s => (s * 1000000000)%Z) <$> [100; 301; 320; 365; 400; 590; 593; 600]%Z) =
  (fun s => (s * 1000000000)%Z) <$> [301; 365; 400; 590; 600]%Z.
Proof. vm_compute. reflexivity. Qed.
End RetryRuns.
