(* ===== verification/AutoRequest.v ===== *)
(** * The coordinator's requests

    Of [code-auto-drive-core/src/auto_coordinator.rs]: the prompt of a request
    ([build_user_turn_prompt]), the reading of the model's stream, the retries of a request
    and its fallback models ([request_decision_with_model], [request_decision]), and the
    answer to a user's message ([request_user_turn_decision], with
    [coordinator_user_schema.rs]); and [coordinator_router.rs].

    A [service_run] holds what the attempts of one request meet.  The schema of the answer,
    the identifier of the session and the family of the model are left out of the prompt. *)

From stdpp Require Import base list.
From S2P Require Import Prelude History SessionMetrics AutoHistory AutoCompact AutoDrive.
From S2P Require Import AutoDecision AutoCoordinator AutoRetry.

Local Open Scope nat_scope.

(** ** The router of user messages *)

Record coordinator_router_response := CoordinatorRouterResponse {
  user_response : option str;
  cli_command : option str
}.

Record coordinator_context := CoordinatorContext {
  active_agents : N;
  recent_updates : list str
}.

Definition STATUS_PHRASES : list str := [
  lit "what work has been done"; lit "what have you done"; lit "status update";
  lit "progress update"; lit "current status"].
Definition PLAN_PHRASES : list str := [
  lit "start more agents"; lit "spin up more agents"; lit "launch more agents";
  lit "create a plan"].
Definition STOP_PHRASES : list str := [
  lit "stop all agents"; lit "halt agents"; lit "cancel the plan"].

Definition contains_any (message : str) (phrases : list str) : bool :=
  existsb (fun phrase => str_contains phrase message) phrases.

Definition status_response (ctx : coordinator_context) : coordinator_router_response :=
  CoordinatorRouterResponse
    (Some (lit "We currently have " ++ show_N (active_agents ctx) ++ lit " active agent" ++
           (if (active_agents ctx =? 1)%N then [] else lit "s") ++
           match last (recent_updates ctx) with
           | Some update => lit "; most recently: " ++ update
           | None => lit "."
           end))
    None.

Definition plan_response : coordinator_router_response :=
  CoordinatorRouterResponse (Some (lit "Starting a fresh plan via the planner.")) (Some (lit "/plan")).
Definition stop_response : coordinator_router_response :=
  CoordinatorRouterResponse (Some (lit "Stopping all active automation.")) (Some (lit "/stop")).
Definition no_response : coordinator_router_response := CoordinatorRouterResponse None None.

Definition route_user_message (msg : str) (ctx : coordinator_context)
    : coordinator_router_response :=
  let normalized := to_ascii_lowercase (trim msg) in
  match normalized with
  | [] => no_response
  | _ =>
      if contains_any normalized STATUS_PHRASES then status_response ctx
      else if contains_any normalized PLAN_PHRASES then plan_response
      else if contains_any normalized STOP_PHRASES then stop_response
      else no_response
  end.

Section request.
Context {opaque json : Type} `{!ItemFields opaque}.
Notation item := (response_item opaque).
Notation conversation := (list item).
Notation event := (auto_coordinator_event (opaque := opaque)).

(** ** The prompt *)

Record prompt := Prompt {
  prepend_developer_messages : list str;
  input : conversation;
  model_override : str
}.

(** A text that is not blank, trimmed. *)
Definition not_blank_text (text : option str) : list str :=
  match trim <$> text with
  | Some [] | None => []
  | Some t => [t]
  end.

Definition developer (text : str) : item := make_message (lit "developer") text.

Definition build_user_turn_prompt (developer_intro primary_goal : str)
    (coordinator_prompt time_budget_message loop_warning : option str) (conv : conversation)
    (slug : str) (auto_instructions : option str) : prompt :=
  Prompt (not_blank_text coordinator_prompt)
    ((developer <$> (not_blank_text auto_instructions ++ not_blank_text time_budget_message ++
                     not_blank_text loop_warning ++ [developer_intro; primary_goal])) ++ conv)
    slug.

(** ** The stream *)

Inductive response_event :=
| OutputTextDelta (delta : str)
| OutputItemDone (i : item)
| ReasoningSummaryDelta (delta : str)
| ReasoningContentDelta (delta : str)
| Completed (usage : option token_usage)
| StreamFault (e : error)
| OtherEvent.

(** [RequestStreamResult] *)
Record request_stream_result := RequestStreamResult {
  result_text : str;
  result_items : conversation;
  result_usage : option token_usage;
  result_slug : str
}.

(** The variables of the loop over the stream. *)
Record reading := Reading {
  out : str;
  items_done : conversation;
  reasoning_delta_accumulator : str;
  saw_output_text_delta : bool
}.

(** The text of a reasoning item that is made of deltas. *)
Context (reasoning_text : str -> opaque).

Definition output_of_item (i : item) : str :=
  match i with
  | Message _ content _ =>
      concat (omap (fun c => match c with OutputText text => Some text | _ => None end) content)
  | _ => []
  end.

Definition is_reasoning (i : item) : bool :=
  match i with Reasoning _ _ => true | _ => false end.

Definition on_item (i : item) (r : reading) : reading :=
  Reading (if saw_output_text_delta r then out r else out r ++ output_of_item i)
    (items_done r ++ [i])
    (if is_reasoning i then [] else reasoning_delta_accumulator r)
    false.

Definition on_reasoning (delta : str) (r : reading) : reading :=
  Reading (out r) (items_done r) (reasoning_delta_accumulator r ++ strip_role_prefix delta)
    (saw_output_text_delta r).

(** What is read, and the reasoning that is shown meanwhile. *)
Fixpoint read_stream (events : list response_event) (r : reading)
    : result error (reading * option token_usage) * list str :=
  match events with
  | [] => (Ok (r, None), [])
  | OutputTextDelta delta :: events =>
      read_stream events
        (Reading (out r ++ delta) (items_done r) (reasoning_delta_accumulator r) true)
  | OutputItemDone i :: events => read_stream events (on_item i r)
  | ReasoningSummaryDelta delta :: events | ReasoningContentDelta delta :: events =>
      let '(res, shown) := read_stream events (on_reasoning delta r) in
      (res, strip_role_prefix delta :: shown)
  | Completed usage :: _ => (Ok (r, usage), [])
  | StreamFault e :: _ => (Err e, [])
  | OtherEvent :: events => read_stream events r
  end.

Definition with_reasoning (items : conversation) (accumulated : str) : conversation :=
  match trim accumulated with
  | [] => items
  | text =>
      if existsb is_reasoning items then items
      else items ++ [Reasoning (Some [reasoning_text text]) plain_fields]
  end.

Definition read_response (slug : str) (events : list response_event)
    : result error request_stream_result * list str :=
  let '(res, shown) := read_stream events (Reading [] [] [] false) in
  (match res with
   | Ok (r, usage) =>
       Ok (RequestStreamResult (out r)
             (with_reasoning (items_done r) (reasoning_delta_accumulator r)) usage slug)
   | Err e => Err e
   end, shown).

(** ** A request and its retries *)

Context (from_str : str -> result str json).
Context (get : str -> json -> option json).
Context (as_f64 : json -> option f64).
Context (as_str : json -> option str).
Context (is_object is_null : json -> bool).
Context (parse_f64 : str -> option f64).
Context (parse_date : str -> option Z).
Context (status_text : N -> str).
Context (to_lowercase : str -> str).
(** The time of the next attempt, as it is shown. *)
Context (resume_text : Z -> option str).
Context (format_hours_minutes format_days_hours : N -> str).
Abbreviation format_duration := (format_duration format_hours_minutes format_days_hours).

Definition json_of (text : str) : option json :=
  match from_str text with Ok value => Some value | Err _ => None end.

(** What the client gives in one attempt: an error, or the events of a stream. *)
Inductive client_answer :=
| ConnectFailed (e : error)
| Streamed (events : list response_event).

(** What an attempt meets besides its times: the answer, the clocks when its error is
    classified, and the label of an account that takes over. *)
Record service := Service {
  client : client_answer;
  at_clock : clock;
  switched : option str
}.

Notation attempt := (attempt (A := service)).

Record service_run := ServiceRun {
  asked_at : Z;
  started_at : Z;
  attempts : list attempt
}.

(** The model of the next attempt, and whether a limit has changed it. *)
Record model_choice := ModelChoice {
  selected_model : str;
  did_usage_limit_model_fallback : bool
}.

Definition run_attempt (choice : model_choice) (a : attempt)
    : result error request_stream_result * list event :=
  match client (answer a) with
  | ConnectFailed e => (Err e, [])
  | Streamed events =>
      let '(res, shown) := read_response (selected_model choice) events in
      (res, Thinking <$> shown)
  end.

(** The classification in terms of accounts; it leaves the model as it is. *)
Definition classify_with_account (a : attempt) (e : error) (choice : model_choice)
    : option (retry_decision (E := error) * model_choice * list event) :=
  match classify_model_error_with_auto_switch json_of get as_f64 as_str parse_f64 parse_date
          status_text (at_clock (answer a)) (switched (answer a)) e with
  | Some (decision, messages) => Some (decision, choice, Action <$> messages)
  | None => None
  end.

Definition classify_attempt (a : attempt) (e : error) (choice : model_choice)
    : option (retry_decision (E := error) * model_choice * list event) :=
  if negb (did_usage_limit_model_fallback choice) && error_mentions_usage_limit e then
    let active_model := selected_model choice in
    match spark_fallback_model active_model with
    | Some fallback_model =>
        Some (RateLimited (instant_now (at_clock (answer a)))
                (lit "usage limit reached; switched to non-spark model"),
              ModelChoice fallback_model true,
              [Action (lit "Usage limit reached for " ++ active_model ++ lit "; retrying with " ++
                       fallback_model ++ [8230%N])])
    | None => classify_with_account a e choice
    end
  else classify_with_account a e choice.

Definition status_message (s : retry_status) : str :=
  (if is_rate_limit s then lit "Rate limit" else lit "Transient error") ++
  lit " (attempt " ++ show_N (status_attempt s) ++ lit "): " ++ reason s ++ lit "; retrying in " ++
  match sleep s with Some d => format_duration d | None => lit "0s" end ++
  lit " (elapsed " ++ format_duration (status_elapsed s) ++ lit ")" ++
  match resume_at s ≫= resume_text with
  | Some text => lit "; next attempt at " ++ text
  | None => []
  end.

Definition event_of_report (r : report (O := event)) : event :=
  match r with
  | Announced s => Thinking (status_message s)
  | Reported e => e
  end.

Inductive request_end :=
| Answered (r : result error request_stream_result)
| RequestPanicked
| RequestOpen.

Definition cancelled_error : error := AnyError (lit "auto coordinator cancelled") [CancelledLink].

Definition request_end_of (end_ : retry_end (E := error) (V := request_stream_result))
    : request_end :=
  match end_ with
  | Returned (Ok v) => Answered (Ok v)
  | Returned (Err RetryAborted) => Answered (Err cancelled_error)
  | Returned (Err (RetryFatal e)) => Answered (Err e)
  | Returned (Err (RetryTimeout elapsed e)) =>
      Answered (Err (with_context (lit "auto coordinator retry window exceeded after " ++
                                   format_duration elapsed) e))
  | Panicked => RequestPanicked
  | Unfinished => RequestOpen
  end.

(** The retries of one request. *)
Definition request_attempts (time_budget_deadline : option Z) (slug : str) (sr : service_run)
    : retry_end (E := error) (V := request_stream_result) * model_choice *
      list (report (O := event)) :=
  retry_with_backoff run_attempt classify_attempt with_context
    (retry_max_elapsed (asked_at sr) time_budget_deadline) (started_at sr) (attempts sr)
    (ModelChoice slug false).

Definition request_decision_with_model (time_budget_deadline : option Z) (slug : str)
    (sr : service_run) : request_end * list event :=
  let '(end_, _, reports) := request_attempts time_budget_deadline slug sr in
  (request_end_of end_, event_of_report <$> reports).

Definition fallback_slug_of (default_model_slug preferred : str) : str :=
  if eq_ignore_ascii_case default_model_slug preferred then MODEL_SLUG else default_model_slug.

(** A second request with another model, after an error about the model. *)
Definition request_decision (time_budget_deadline : option Z) (default_model_slug preferred : str)
    (first second : service_run) : request_end * list event :=
  let '(end_, events) := request_decision_with_model time_budget_deadline preferred first in
  match end_ with
  | Answered (Err err) =>
      let fallback_slug := fallback_slug_of default_model_slug preferred in
      if negb (str_eqb fallback_slug preferred) && should_retry_with_default_model to_lowercase err
      then
        let '(end2, events2) := request_decision_with_model time_budget_deadline fallback_slug second in
        (match end2 with
         | Answered (Err fallback_err) =>
             Answered (Err (with_context
               (lit "coordinator fallback with model '" ++ fallback_slug ++
                lit "' failed after original error: " ++ error_text err) fallback_err))
         | _ => end2
         end, events ++ events2)
      else (end_, events)
  | _ => (end_, events)
  end.

(** The answer that the coordinator sees. *)
Definition is_cancelled (e : error) : bool :=
  existsb (fun l => match l with CancelledLink => true | _ => false end) (chain e).

Definition decision_error_of (e : error) : decision_error :=
  if is_cancelled e then CoordinatorCancelled else ErrorText (error_text e).

Definition stream_answer_of (r : result error request_stream_result)
    : stream_answer (opaque := opaque) :=
  match r with
  | Ok r => StreamResult (result_text r) (result_items r) (result_usage r) (result_slug r)
  | Err e => StreamFailed (decision_error_of e)
  end.

(** ** The answer to a user's message *)

Definition extract_field (value : json) (name : str) : result str (option str) :=
  match get name value with
  | None => Err (lit "coordinator response missing required field '" ++ name ++ lit "'")
  | Some field =>
      if is_null field then Ok None
      else
        match as_str field with
        | None => Err (lit "coordinator field '" ++ name ++ lit "' must be string or null")
        | Some text =>
            match trim text with
            | [] => Ok None
            | trimmed =>
                if N.to_nat 400 <? length trimmed then
                  Err (lit "coordinator field '" ++ name ++ lit "' exceeded 400 characters")
                else Ok (Some trimmed)
            end
        end
  end.

Definition read_reply (raw : str) : result str json :=
  match from_str raw with
  | Ok value => Ok value
  | Err first_err =>
      match extract_first_json_object raw with
      | None => Err (lit "parsing coordinator user turn JSON")
      | Some blob =>
          match from_str blob with
          | Ok value => Ok value
          | Err _ => Err (lit "parsing coordinator user turn JSON (after salvage); initial parse error: " ++ first_err)
          end
      end
  end.

Definition parse_user_turn_reply (raw : str) : result str (option str * option str) :=
  value ← read_reply raw;
  if is_object value then
    reply ← extract_field value (lit "user_response");
    command ← extract_field value (lit "cli_command");
    Ok (reply, command)
  else Err (lit "coordinator response was not a JSON object").

Definition request_user_turn_decision (answered : result error request_stream_result)
    : result decision_failure (option str * option str) :=
  match answered with
  | Err e => Err (DecisionFailure (decision_error_of e) (lit "auto_coordinator_user_turn") None)
  | Ok r =>
      match parse_user_turn_reply (result_text r) with
      | Ok reply => Ok reply
      | Err e =>
          Err (DecisionFailure (ErrorText e) (lit "auto_coordinator_user_turn") (Some (result_text r)))
      end
  end.

(** ** What is read of a stream *)

Definition quiet (e : response_event) : bool :=
  match e with OutputItemDone _ | Completed _ | StreamFault _ => false | _ => true end.

Definition text_delta (e : response_event) : option str :=
  match e with OutputTextDelta delta => Some delta | _ => None end.

Definition reasoning_delta (e : response_event) : option str :=
  match e with
  | ReasoningSummaryDelta delta | ReasoningContentDelta delta => Some (strip_role_prefix delta)
  | _ => None
  end.

(** An item, after the events that announce it. *)
Definition events_of (s : list response_event * item) : list response_event :=
  s.1 ++ [OutputItemDone s.2].

Definition text_of_segment (s : list response_event * item) : str :=
  match omap text_delta s.1 with [] => output_of_item s.2 | deltas => concat deltas end.

Definition reasoned (segments : list (list response_event * item)) : list str :=
  concat ((fun s : list response_event * item => omap reasoning_delta s.1) <$> segments).

(** The deltas of a message, if there are any, spell it. *)
Definition spelled (s : list response_event * item) : Prop :=
  omap text_delta s.1 = [] \/ concat (omap text_delta s.1) = output_of_item s.2.

Definition after_quiet (events : list response_event) (r : reading) : reading :=
  Reading (out r ++ concat (omap text_delta events)) (items_done r)
    (reasoning_delta_accumulator r ++ concat (omap reasoning_delta events))
    (saw_output_text_delta r || match omap text_delta events with [] => false | _ => true end).

Lemma read_quiet events rest r : forallb quiet events = true ->
  read_stream (events ++ rest) r =
  let '(res, shown) := read_stream rest (after_quiet events r) in
  (res, omap reasoning_delta events ++ shown).
Proof.
  revert r. induction events as [|e events IH]; intros r Hq.
  - unfold after_quiet. cbn. rewrite !app_nil_r, orb_false_r. destruct r; cbn.
    by destruct (read_stream rest _).
  - cbn in Hq. apply andb_true_iff in Hq as [He Hq].
    destruct e as [d|i|d|d|u|err|]; try done; cbn [app read_stream];
      rewrite IH by done; unfold after_quiet, on_reasoning; cbn;
      rewrite <- ?app_assoc, ?orb_true_r; cbn;
      by destruct (read_stream rest _).
Qed.

Definition accumulated (acc : str) (s : list response_event * item) : str :=
  if is_reasoning s.2 then [] else acc ++ concat (omap reasoning_delta s.1).

Lemma read_segments segments rest r :
  Forall (fun s => forallb quiet s.1 = true) segments -> saw_output_text_delta r = false ->
  read_stream (concat (events_of <$> segments) ++ rest) r =
  let '(res, shown) :=
    read_stream rest
      (Reading (out r ++ concat (text_of_segment <$> segments)) (items_done r ++ segments.*2)
         (foldl accumulated (reasoning_delta_accumulator r) segments) false) in
  (res, reasoned segments ++ shown).
Proof.
  revert r. induction segments as [|[events i] segments IH]; intros r Hs Hr.
  - cbn. rewrite !app_nil_r. destruct r; cbn in *; subst. by destruct (read_stream rest _).
  - apply Forall_cons in Hs as [Hq Hs]. cbn in Hq.
    assert (Hi : on_item i (after_quiet events r) =
      Reading (out r ++ text_of_segment (events, i)) (items_done r ++ [i])
        (accumulated (reasoning_delta_accumulator r) (events, i)) false).
    { unfold on_item, after_quiet, text_of_segment, accumulated. rewrite Hr. cbn.
      destruct (omap text_delta events) as [|d ds]; cbn; [by rewrite app_nil_r|done]. }
    rewrite !fmap_cons. cbn [concat]. unfold events_of at 1. cbn [fst snd].
    rewrite <- !app_assoc. rewrite read_quiet by done. cbn [app read_stream].
    rewrite Hi, IH by done. cbn [out items_done reasoning_delta_accumulator foldl snd].
    rewrite <- !app_assoc. cbn [app].
    destruct (read_stream rest _) as [res shown]. unfold reasoned. rewrite fmap_cons. cbn [concat fst].
    by rewrite <- app_assoc.
Qed.

Lemma accumulated_reasoned segments acc : existsb is_reasoning segments.*2 = false ->
  foldl accumulated acc segments = acc ++ concat (reasoned segments).
Proof.
  revert acc. induction segments as [|[events i] segments IH]; intros acc H; cbn.
  { by rewrite app_nil_r. }
  cbn in H. apply orb_false_iff in H as [Hi H]. rewrite IH by done.
  unfold accumulated, reasoned. cbn. rewrite Hi, concat_app. by rewrite <- app_assoc.
Qed.

(** *** What a stream says, independently of the reader *)

Fixpoint output_texts (content : list content_item) : str :=
  match content with
  | [] => []
  | OutputText text :: content => text ++ output_texts content
  | _ :: content => output_texts content
  end.

(** What a message says; other items say nothing. *)
Definition message_text (i : item) : str :=
  match i with Message _ content _ => output_texts content | _ => [] end.

(** What is read of an item and the events in front of it. *)
Definition said (s : list response_event * item) : str :=
  let deltas := omap text_delta s.1 in
  if bool_decide (deltas = []) then message_text s.2 else concat deltas.

Definition is_reasoning_item (i : item) : Prop := exists content fields, i = Reasoning content fields.

(** The items of an answer: the streamed ones and, when they hold no reasoning and what came as
    deltas is not blank, the reasoning of the deltas as one more. *)
Definition answer_items (streamed : conversation) (deltas : list str) (all : conversation) : Prop :=
  (Exists is_reasoning_item streamed /\ all = streamed) \/
  (~ Exists is_reasoning_item streamed /\
   ((trim (concat deltas) = [] /\ all = streamed) \/
    (trim (concat deltas) <> [] /\
     all = streamed ++ [Reasoning (Some [reasoning_text (trim (concat deltas))]) plain_fields]))).

(** How a stream ends. *)
Inductive ending := Completes (usage : option token_usage) | BreaksOff | Faults (e : error).

Definition ending_events (e : ending) (rest : list response_event) : list response_event :=
  match e with
  | Completes usage => Completed usage :: rest
  | BreaksOff => []
  | Faults e => StreamFault e :: rest
  end.

(** Every stream is a sequence of items with the events in front of each, events behind the
    last one, and an ending. *)
Lemma stream_shape (events : list response_event) :
  exists segments tail end_ rest, events = concat (events_of <$> segments) ++ tail ++ ending_events end_ rest /\
    Forall (fun s => forallb quiet s.1 = true) segments /\ forallb quiet tail = true.
Proof.
  induction events as [|e events (segments & tail & end_ & rest & -> & Hs & Ht)].
  { by exists [], [], BreaksOff, []. }
  destruct e as [d|i|d|d|u|err|].
  2: { exists (([], i) :: segments), tail, end_, rest. split; [done|]. split; [by constructor|done]. }
  4: { eexists [], [], (Completes u), _. split; [reflexivity|]. by split. }
  4: { eexists [], [], (Faults err), _. split; [reflexivity|]. by split. }
  all: match goal with |- context [?e :: concat _ ++ _] =>
    destruct segments as [|[pre i] segments];
      [exists [], (e :: tail), end_, rest; split; [done|]; split; [done|exact Ht]
      |exists ((e :: pre, i) :: segments), tail, end_, rest; split; [done|];
       apply Forall_cons in Hs as [Hp Hs]; split; [by constructor|done]] end.
Qed.

Lemma output_of_item_message i : output_of_item i = message_text i.
Proof.
  destruct i as [|role content rest| | | | | | | | | | | | | |]; try done. cbn.
  induction content as [|[t|t|t] l IH]; [done|..]; cbn; by rewrite ?IH.
Qed.

Lemma text_of_segment_said s : text_of_segment s = said s.
Proof.
  unfold text_of_segment, said. rewrite output_of_item_message. by destruct (omap text_delta s.1).
Qed.

Lemma reasoning_items (l : conversation) : existsb is_reasoning l = true <-> Exists is_reasoning_item l.
Proof.
  rewrite existsb_exists, Exists_exists. setoid_rewrite <- list_elem_of_In.
  apply exist_proper. intros i. apply and_iff_compat_l. unfold is_reasoning_item. split.
  - destruct i; try done. by eexists _, _.
  - by intros (content & fields & ->).
Qed.

Lemma answer_items_of items acc deltas :
  (~ Exists is_reasoning_item items -> acc = concat deltas) ->
  answer_items items deltas (with_reasoning items acc).
Proof.
  intros Ha. unfold with_reasoning, answer_items. pose proof (reasoning_items items) as Hr.
  destruct (existsb is_reasoning items).
  - left. split; [by apply Hr|]. by destruct (trim acc).
  - right. assert (~ Exists is_reasoning_item items) as Hn by (intros H; by apply Hr in H).
    split; [done|]. rewrite (Ha Hn). destruct (trim (concat deltas)) eqn:E; [by left|right].
    by split.
Qed.

(** C28: What is read of a stream, which is a sequence of items with events in front of each,
    events behind the last item, and an ending (see [stream_shape]).  When it completes or
    breaks off without a fault, the text is that of the items in order, each once, of the text
    deltas in front of it if there are any and else of the message itself, and then the deltas
    behind the last item; the items are those streamed and, when none of them is a reasoning
    item, one with the trimmed reasoning of the deltas (less role prefixes) if it is not blank.
    When it ends with a fault, nothing but the fault is returned. *)
Theorem stream_read slug segments tail end_ rest :
  Forall (fun s => forallb quiet s.1 = true) segments -> forallb quiet tail = true ->
  let deltas := reasoned segments ++ omap reasoning_delta tail in
  exists answer,
    read_response slug (concat (events_of <$> segments) ++ tail ++ ending_events end_ rest) = (answer, deltas) /\
    match end_ with
    | Faults e => answer = Err e
    | Completes _ | BreaksOff =>
        exists items, answer_items segments.*2 deltas items /\
          answer = Ok (RequestStreamResult
            (concat (said <$> segments) ++ concat (omap text_delta tail)) items
            (match end_ with Completes usage => usage | _ => None end) slug)
    end.
Proof.
  intros Hs Ht deltas. unfold read_response. rewrite read_segments by done.
  rewrite read_quiet by done. cbn [out items_done reasoning_delta_accumulator app].
  set (acc := foldl accumulated [] segments). unfold after_quiet.
  cbn [out items_done reasoning_delta_accumulator saw_output_text_delta].
  assert (concat (text_of_segment <$> segments) = concat (said <$> segments)) as ->
    by (f_equal; apply list_fmap_ext; intros k s _; apply text_of_segment_said).
  assert (answer_items segments.*2 deltas
    (with_reasoning segments.*2 (acc ++ concat (omap reasoning_delta tail)))) as Hitems.
  { apply answer_items_of. intros Hn. subst deltas acc. rewrite concat_app. f_equal.
    rewrite accumulated_reasoned; [done|]. apply not_true_iff_false. by rewrite reasoning_items. }
  destruct end_ as [usage| |e]; cbn [ending_events read_stream];
    rewrite app_nil_r; (eexists; split; [reflexivity|]); [by eexists|by eexists|done].
Qed.

(** ** How long a request may wait *)

(** C29: The requests of a decision with a deadline.  The time that the retries may take is
    computed before they start ([asked_at], [started_at]), and a wait is computed after the
    failure that it follows ([failed_at], [checked_at]).  If at most [g] passes between the first
    two and at most [h] between the last two, then every wait that is announced ends no later
    than five seconds before the deadline, plus [g + h]; and with or without a deadline no later
    than seven days, plus [g + h], after the request was asked. *)
Theorem waits_before_deadline deadline slug sr end_ choice reports s resume d (g h : Z) :
  request_attempts deadline slug sr = (end_, choice, reports) ->
  (started_at sr - asked_at sr <= g)%Z ->
  Forall (fun a => checked_at a - failed_at a <= h)%Z (attempts sr) ->
  Announced s ∈ reports -> sleep s = Some d -> resume_at s = Some resume ->
  (resume <= asked_at sr + 7 * 24 * 60 * 60 * 1000000000 + g + h)%Z /\
  forall t, deadline = Some t -> (resume + 5 * 1000000000 <= t + g + h)%Z.
Proof.
  intros Hr Hg Hh Hs Hd Hres. destruct (retry_spec _ _ _ _ _ _ _ _ _ _ Hr) as [Hf _].
  rewrite Forall_forall in Hf. destruct (Hf _ Hs d Hd) as (a & Ha & _ & Hlt & Hmax & Hat).
  rewrite Forall_forall in Hh. specialize (Hh a Ha). rewrite Hres in Hat. injection Hat as ->.
  clear -Hg Hh Hlt Hmax. unfold failed_after, retry_max_elapsed, since in *.
  change MAX_RETRY_ELAPSED with 604800000000000%N in *. change RATE_LIMIT_BUFFER with 5000000000%N in *.
  split; [destruct deadline; lia|]. intros t ->. lia.
Qed.

(** ** Which models are asked *)

Definition choice_ok (slug : str) (c : model_choice) : Prop :=
  selected_model c = slug \/
  did_usage_limit_model_fallback c = true /\ spark_fallback_model slug = Some (selected_model c).

Lemma account_choice a e c d c' o : classify_with_account a e c = Some (d, c', o) -> c' = c.
Proof. unfold classify_with_account. by case_match; [case_match|]; intros; simplify_eq. Qed.

Lemma classify_choice slug a e c d c' o :
  classify_attempt a e c = Some (d, c', o) -> choice_ok slug c -> choice_ok slug c'.
Proof.
  unfold classify_attempt. intros H Hc. case_match eqn:Hb; [|by apply account_choice in H as ->].
  destruct (spark_fallback_model (selected_model c)) as [fallback|] eqn:Es;
    [|by apply account_choice in H as ->].
  injection H as _ <- _. right. split; [done|].
  apply andb_true_iff in Hb as [Hb%negb_true_iff _].
  destruct Hc as [<-|[Hd _]]; [done|congruence].
Qed.

Lemma tried_choice max start k l c c' slug :
  tried run_attempt classify_attempt max start k l c c' -> choice_ok slug c -> choice_ok slug c'.
Proof.
  induction 1 as [|k a l e d c c1 c2 (_ & _ & _ & o & ?)]; [done|]. intros Hc.
  eauto using classify_choice.
Qed.

(** An answer comes from the model that was asked for, or from the one that stands in for it
    at a usage limit. *)
Theorem answering_model deadline slug sr v events :
  request_decision_with_model deadline slug sr = (Answered (Ok v), events) ->
  result_slug v = slug \/ spark_fallback_model slug = Some (result_slug v).
Proof.
  unfold request_decision_with_model.
  destruct (request_attempts deadline slug sr) as [[end_ choice] reports] eqn:Hr.
  intros [= He _]. assert (end_ = Returned (Ok v)) as ->
    by (destruct end_ as [[|[]]| |]; cbn in He; congruence).
  destruct (retry_spec _ _ _ _ _ _ _ _ _ _ Hr) as [_ [[? _]|(before & a & l & c & _ & Ht & Hv)]];
    [done|].
  apply (tried_choice _ _ _ _ _ _ slug) in Ht; [|by left].
  assert (Hs : result_slug v = selected_model c).
  { destruct Hv as [_ Hv]. unfold run_attempt, read_response in Hv.
    destruct (client (answer a)) as [|evs]; [done|].
    destruct (read_stream evs _) as [[[r u]|] shown]; cbn in Hv; [|done]. by injection Hv as <-. }
  rewrite Hs. destruct Ht as [Ht|[_ Ht]]; auto.
Qed.

Lemma account_text_only a e c f c' o :
  classify_with_account a e c = Some (Fatal f, c', o) -> chain f = [OtherLink].
Proof.
  unfold classify_with_account, classify_model_error_with_auto_switch.
  assert (Hc : forall d, classify_model_error json_of get as_f64 as_str parse_f64 parse_date
                 status_text (at_clock (answer a)) e = Some d -> ends_with_text d)
    by (intros d; apply fatal_text_only).
  intros H. destruct (classify_model_error _ _ _ _ _ _ _ _ e) as [d|].
  - specialize (Hc d eq_refl). cbn in H. destruct d; repeat case_match; simplify_eq/=; done.
  - cbn in H. repeat case_match; simplify_eq/=.
Qed.

Lemma classify_text_only a e c f c' o :
  classify_attempt a e c = Some (Fatal f, c', o) -> chain f = [OtherLink].
Proof. unfold classify_attempt. repeat case_match; [done|apply account_text_only..]. Qed.

(** Another model is asked only when the time for retries has run out: an error that ends
    them at once is passed on as a text, from which nothing can be told about the model. *)
Theorem other_model_after_timeout deadline default_slug preferred first second end_ events :
  request_decision deadline default_slug preferred first second = (end_, events) ->
  request_decision_with_model deadline preferred first = (end_, events) \/
  exists elapsed e choice reports,
    request_attempts deadline preferred first =
      (Returned (Err (RetryTimeout elapsed e)), choice, reports) /\
    should_retry_with_default_model to_lowercase e = true.
Proof.
  unfold request_decision, request_decision_with_model.
  destruct (request_attempts deadline preferred first) as [[end1 choice] reports] eqn:Hr.
  destruct (request_end_of end1) as [[v|err]| |] eqn:He; try (by left).
  case_match eqn:Hb; [|by left]. intros _. right.
  apply andb_true_iff in Hb as [_ Hb].
  destruct (retry_spec _ _ _ _ _ _ _ _ _ _ Hr) as [_ [[-> _]|(before & a & l & c & _ & _ & Hv)]];
    [done|].
  destruct end1 as [[v|[|elapsed last|f]]| |]; cbn in He; simplify_eq.
  - exists elapsed, last, choice, reports. split; [done|].
    unfold should_retry_with_default_model in *. cbn in Hb. done.
  - destruct Hv as (e & c' & _ & _ & _ & o & Hc%classify_text_only).
    unfold should_retry_with_default_model in Hb. by rewrite Hc in Hb.
Qed.

(** ** Replies to the user *)

(** A reply and a command are trimmed, not empty and at most 400 characters long. *)
Theorem reply_checked raw reply command :
  parse_user_turn_reply raw = Ok (reply, command) ->
  Forall (fun o => forall t, o = Some t -> clean_text t /\ length t <= N.to_nat 400) [reply; command].
Proof.
  assert (Hf : forall value name o, extract_field value name = Ok o ->
    forall t, o = Some t -> clean_text t /\ length t <= N.to_nat 400).
  { intros value name o. unfold extract_field.
    destruct (get name value) as [field|]; [|done].
    destruct (is_null field); [by intros [= <-]|].
    destruct (as_str field) as [text|]; [|done].
    destruct (trim text) as [|c t0] eqn:Et; [by intros [= <-]|].
    destruct (Nat.ltb_spec (N.to_nat 400) (length (c :: t0))); [done|].
    intros [= <-] t [= <-]. split; [|done]. split; [done|]. rewrite <- Et. apply trim_idemp. }
  unfold parse_user_turn_reply. intros (value & _ & H)%result_bind_Ok.
  destruct (is_object value); [|done].
  apply result_bind_Ok in H as (r & Hr & H). apply result_bind_Ok in H as (m & Hm & H).
  injection H as <- <-. constructor; [by eapply Hf|]. constructor; [by eapply Hf|done].
Qed.

End request.

(** ** Runs *)

Module RequestRuns.
Import CompactRuns.
#[local] Existing Instance CompactRuns.fields.

(** A JSON value, and the texts that can be read. *)
Inductive value :=
| Null
| Number (x : f64)
| Text (t : str)
| Object (fields : list (str * value)).

Definition get_field (name : str) (v : value) : option value :=
  match v with
  | Object fields => snd <$> head (filter (fun f => f.1 = name) fields)
  | _ => None
  end.

Definition number_of (v : value) : option f64 := match v with Number x => Some x | _ => None end.
Definition text_of (v : value) : option str := match v with Text t => Some t | _ => None end.
Definition object_of (v : value) : bool := match v with Object _ => true | _ => false end.
Definition null_of (v : value) : bool := match v with Null => true | _ => false end.

Definition limit_body (seconds : N) : value :=
  Object [(lit "error", Object [(lit "reset_seconds", Number (Float false seconds 0))])].

Definition read_json (raw : str) : result str value :=
  if bool_decide (raw = lit "soon") then Ok (limit_body 20)
  else if bool_decide (raw = lit "never") then Ok (limit_body (10 ^ 20))
  else if bool_decide (raw = lit "hello") then
    Ok (Object [(lit "user_response", Text (lit " Thanks! ")); (lit "cli_command", Null)])
  else Err (lit "expected value at line 1 column 1").

Definition no_number (_ : str) : option f64 := None.
Definition no_date (_ : str) : option Z := None.
Definition no_time (_ : Z) : option str := None.
Definition no_format (_ : N) : str := [].
Definition no_reasoning (_ : str) : unit := tt.

#[local] Notation asked_with :=
  (request_attempts no_reasoning read_json get_field number_of text_of no_number no_date show_N).
#[local] Notation answered_with :=
  (request_decision_with_model no_reasoning read_json get_field number_of text_of no_number no_date
     show_N no_time no_format no_format).
#[local] Notation decided_with :=
  (request_decision no_reasoning read_json get_field number_of text_of no_number no_date show_N id
     no_time no_format no_format).

Definition failing (e : codex_err) (text : string) (second : Z)
    : attempt (A := service (opaque := unit)) :=
  Attempt false
    (Service (ConnectFailed (AnyError (lit text) [CodexLink e]))
       (Clock (second * 1000000000) 0 0) None)
    (second * 1000000000) (second * 1000000000) (from_secs 1) false ((second + 20) * 1000000000).

Definition message (text : string) : response_item unit :=
  Message (lit "assistant") [OutputText (lit text)] ().

Definition answering (text : string) : attempt (A := service (opaque := unit)) :=
  Attempt false
    (Service (Streamed [OutputTextDelta (lit text); OutputItemDone (message text); Completed None])
       (Clock 0 0 0) None)
    0 0 0 false 0.

Definition spark : str := lit "gpt-5.3-codex-spark".

(** The limit of the fast model is reached; the answer is that of the other one. *)
Definition limited_run : service_run (opaque := unit) :=
  ServiceRun 0 0 [failing (UsageLimitReached None) "limit" 1; answering "{}"].

Definition answer_of (p : request_end (opaque := unit) * list (auto_coordinator_event (opaque := unit)))
    : request_stream_result (opaque := unit) :=
  match p.1 with Answered (Ok v) => v | _ => RequestStreamResult [] [] None [] end.

Lemma answering_model_witness :
  result_slug (answer_of (answered_with None spark limited_run)) = lit "gpt-5.3-codex" /\
  (result_slug (answer_of (answered_with None spark limited_run)) = spark \/
   spark_fallback_model spark = Some (result_slug (answer_of (answered_with None spark limited_run)))).
Proof.
  split; [vm_compute; reflexivity|].
  assert (H : answered_with None spark limited_run =
    (Answered (Ok (answer_of (answered_with None spark limited_run))),
     (answered_with None spark limited_run).2)) by (vm_compute; reflexivity).
  exact (answering_model no_reasoning read_json get_field number_of text_of no_number no_date show_N
           no_time no_format no_format None spark limited_run _ _ H).
Defined.

(** A stream breaks off and a limit is announced for twenty seconds. *)
Definition waiting_run : service_run (opaque := unit) :=
  ServiceRun 0 0 [failing (StreamErr (lit "reset")) "stream" 1;
                  failing (UnexpectedStatus 429 (lit "soon")) "429" 3; answering "{}"].

Definition second_wait : retry_status :=
  RetryStatus 2 (from_secs 3) (Some (from_secs 25)) (Some 28000000000%Z)
    (lit "rate limited; waiting for reset") true.

Lemma waits_before_deadline_witness :
  (28000000000 <= 0 + 7 * 24 * 60 * 60 * 1000000000 + 0 + 0)%Z /\
  forall t, Some 60000000000%Z = Some t -> (28000000000 + 5 * 1000000000 <= t + 0 + 0)%Z.
Proof.
  assert (H : asked_with (Some 60000000000%Z) (lit "gpt-5.5") waiting_run =
    ((asked_with (Some 60000000000%Z) (lit "gpt-5.5") waiting_run).1.1,
     (asked_with (Some 60000000000%Z) (lit "gpt-5.5") waiting_run).1.2,
     (asked_with (Some 60000000000%Z) (lit "gpt-5.5") waiting_run).2)) by (vm_compute; reflexivity).
  assert (Hs : Announced second_wait ∈
    (asked_with (Some 60000000000%Z) (lit "gpt-5.5") waiting_run).2).
  { apply (list_elem_of_lookup_2 _ 1). vm_compute. reflexivity. }
  apply (waits_before_deadline no_reasoning read_json get_field number_of text_of no_number
           no_date show_N (Some 60000000000%Z) (lit "gpt-5.5") waiting_run _ _ _ second_wait
           28000000000%Z (from_secs 25) 0 0 H).
  - vm_compute. discriminate.
  - apply (bool_decide_unpack _). vm_compute. exact I.
  - exact Hs.
  - reflexivity.
  - reflexivity.
Defined.

(** The provider does not know the model: no other one is asked. *)
Definition unknown_model : service_run (opaque := unit) :=
  ServiceRun 0 0 [failing (UnexpectedStatus 404 (lit "unknown model")) "404: unknown model" 1].

Example unknown_model_final :
  (decided_with None (lit "gpt-5.1") (lit "gpt-9") unknown_model limited_run).1 =
  Answered (Err (anyhow (lit "404: unknown model"))).
Proof. vm_compute. reflexivity. Qed.

Lemma other_model_after_timeout_witness :
  answered_with None (lit "gpt-9") unknown_model =
    (Answered (Err (anyhow (lit "404: unknown model"))), []) \/
  exists elapsed e choice reports,
    asked_with None (lit "gpt-9") unknown_model =
      (Returned (Err (RetryTimeout elapsed e)), choice, reports) /\
    should_retry_with_default_model id e = true.
Proof.
  apply (other_model_after_timeout no_reasoning read_json get_field number_of text_of no_number
           no_date show_N id no_time no_format no_format None (lit "gpt-5.1") (lit "gpt-9")
           unknown_model limited_run).
  vm_compute. reflexivity.
Defined.

(** A number of seconds that does not fit ends the coordinator's thread. *)
Example hint_panics :
  (answered_with None (lit "gpt-5.5")
     (ServiceRun 0 0 [failing (UnexpectedStatus 429 (lit "never")) "429" 1])).1 = RequestPanicked.
Proof. vm_compute. reflexivity. Qed.

(** A limit that is reported in the stream ends the request, although it can be tried again. *)
Example stream_limit_final :
  (answered_with None (lit "gpt-5.5")
     (ServiceRun 0 0 [failing (RateLimitExceeded (lit "slow down")) "rate limit exceeded: slow down" 1;
                      answering "{}"])).1 =
  Answered (Err (anyhow (lit "rate limit exceeded: slow down"))).
Proof. vm_compute. reflexivity. Qed.

(** The first message is announced by deltas, the second is not. *)
Definition two_messages : list (list (response_event (opaque := unit)) * response_item unit) := [
  ([ReasoningSummaryDelta (lit "CLI: look"); OutputTextDelta (lit "{"); OutputTextDelta (lit "}")],
   message "{}");
  ([], message " done")].

Lemma stream_read_witness :
  exists items, answer_items no_reasoning two_messages.*2 [lit "look"] items /\
    read_response no_reasoning (lit "gpt-5.5")
      (concat (events_of <$> two_messages) ++ [] ++ ending_events (Completes None) []) =
    (Ok (RequestStreamResult (lit "{} done") items None (lit "gpt-5.5")), [lit "look"]).
Proof.
  destruct (stream_read no_reasoning (lit "gpt-5.5") two_messages [] (Completes None) [])
    as (answer & Hr & items & Hi & Ha).
  - constructor; [reflexivity|]. constructor; [reflexivity|constructor].
  - reflexivity.
  - exists items. split; [exact Hi|]. rewrite Hr, Ha. vm_compute. reflexivity.
Defined.

#[local] Notation reply_of :=
  (parse_user_turn_reply read_json get_field text_of object_of null_of).

Lemma reply_checked_witness :
  reply_of (lit "hello") = Ok (Some (lit "Thanks!"), None) /\
  clean_text (lit "Thanks!") /\ length (lit "Thanks!") <= N.to_nat 400.
Proof.
  assert (H : reply_of (lit "hello") = Ok (Some (lit "Thanks!"), None)) by (vm_compute; reflexivity).
  split; [exact H|].
  exact (Forall_inv (reply_checked read_json get_field text_of object_of null_of (lit "hello")
                       (Some (lit "Thanks!")) None H) (lit "Thanks!") eq_refl).
Defined.
End RequestRuns.
