(* ===== verification/AutoSystem.v ===== *)
(** * Several Auto Drive processes and one review lock

    The processes that share a lock directory, run in any order: each has its
    controller ([AutoDrive]); a process may start, crash without dropping its
    guard, or clear a lock left by a dead one, as [code-rs/exec/src/lib.rs] and
    [code-rs/tui/src/lib.rs] do at start-up.  [clear_stale_lock_if_dead] reads the
    lock, tests the recorded pid and removes the file; the event [Clear] runs it
    without interruption, [ReadStale] and [RemoveStale] are its two halves. *)

From S2P Require Import Prelude ReviewLock AutoDrive.

Open Scope N_scope.

Record system := System {
  procs : gmap N auto_drive_controller;
  dir : review_dir;
  (** The processes that have found the lock stale and will remove it. *)
  removing : gset N;
}.

Definition initial_system : system :=
  System ∅ (ReviewDir None None true true) ∅.

Inductive event :=
| Start (pid : N)
| Crash (pid : N)
| Run (pid : N) (o : op)
| Clear (pid : N)
| ReadStale (pid : N)
| RemoveStale (pid : N)
| Environment (dir_ok write_ok : bool).

Definition alive (s : system) (pid : N) : bool := bool_decide (is_Some (procs s !! pid)).

Section system.
Context (fhm fdh : N -> str).

(** One event; [None] when it cannot happen. *)
Definition step (s : system) (e : event) : option system :=
  match e with
  | Start pid =>
      match procs s !! pid with
      | Some _ => None
      | None => Some (System (<[pid := default_controller]> (procs s)) (dir s) (removing s))
      end
  | Crash pid => Some (System (delete pid (procs s)) (dir s) (removing s ∖ {[ pid ]}))
  | Run pid o =>
      c ← procs s !! pid;
      let '(c', d') := run_op fhm fdh pid o (c, dir s) in
      Some (System (<[pid := c']> (procs s)) d' (removing s))
  | Clear pid =>
      _ ← procs s !! pid;
      Some (System (procs s) (clear_stale_lock_if_dead (alive s) (dir s)).2 (removing s))
  | ReadStale pid =>
      _ ← procs s !! pid;
      match read_lock_info (dir s) with
      | Some owner =>
          if alive s owner then Some s
          else Some (System (procs s) (dir s) ({[ pid ]} ∪ removing s))
      | None => Some s
      end
  | RemoveStale pid =>
      if bool_decide (pid ∈ removing s) then
        Some (System (procs s) (drop_guard (dir s)) (removing s ∖ {[ pid ]}))
      else None
  | Environment dok wok =>
      Some (System (procs s) (ReviewDir (lock_file (dir s)) (epoch_file (dir s)) dok wok)
                   (removing s))
  end.

Fixpoint run_events (es : list event) (s : system) : option system :=
  match es with
  | [] => Some s
  | e :: es' => s' ← step s e; run_events es' s'
  end.

(** Traces in which stale locks are cleared without interruption. *)
Definition uninterrupted (e : event) : bool :=
  match e with ReadStale _ | RemoveStale _ => false | _ => true end.

(** ** The invariant *)

(** A holder has the lock file, alone, and under its own pid when that can be
    read; a controller awaits a review only while it holds the lock. *)
Record lock_invariant (s : system) : Prop := {
  inv_phase : forall p c, procs s !! p = Some c -> phase_ok c;
  inv_file : forall p c, procs s !! p = Some c -> holds c -> lock_file (dir s) <> None;
  inv_pid : forall p c n, procs s !! p = Some c -> holds c ->
    lock_file (dir s) = Some (Some n) -> n = p;
  inv_alone : forall p c q c', procs s !! p = Some c -> procs s !! q = Some c' ->
    holds c -> holds c' -> p = q;
}.

Lemma initial_invariant : lock_invariant initial_system.
Proof. split; intros; by simplify_map_eq. Qed.

Lemma start_invariant s pid :
  lock_invariant s -> procs s !! pid = None ->
  lock_invariant (System (<[pid := default_controller]> (procs s)) (dir s) (removing s)).
Proof.
  intros [H1 H2 H3 H4] Hpid. assert (Hno : ~ holds default_controller) by (intros H; by apply H).
  split; simpl.
  - intros p c [[<- <-]|[? ?]]%lookup_insert_Some; [done|by eapply H1].
  - intros p c [[<- <-]|[? ?]]%lookup_insert_Some Hh; [done|by eapply H2].
  - intros p c n [[<- <-]|[? ?]]%lookup_insert_Some Hh; [done|by eapply H3].
  - intros p c q c' [[<- <-]|[? ?]]%lookup_insert_Some [[<- <-]|[? ?]]%lookup_insert_Some Hh Hh';
      [done..|by eapply H4].
Qed.

Lemma crash_invariant s pid rm :
  lock_invariant s -> lock_invariant (System (delete pid (procs s)) (dir s) rm).
Proof.
  intros [H1 H2 H3 H4]. split; simpl.
  - intros p c [_ ?]%lookup_delete_Some. by eapply H1.
  - intros p c [_ ?]%lookup_delete_Some. by eapply H2.
  - intros p c n [_ ?]%lookup_delete_Some. by eapply H3.
  - intros p c q c' [_ ?]%lookup_delete_Some [_ ?]%lookup_delete_Some. by eapply H4.
Qed.

(** Clearing a lock whose pid is dead takes it from nobody. *)
Lemma clear_invariant s :
  lock_invariant s ->
  lock_invariant (System (procs s) (clear_stale_lock_if_dead (alive s) (dir s)).2 (removing s)).
Proof.
  intros Hi. unfold clear_stale_lock_if_dead.
  destruct (read_lock_info (dir s)) as [n|] eqn:Hr; [|by destruct s].
  destruct (alive s n) eqn:Ha; [by destruct s|].
  assert (Hfile : lock_file (dir s) = Some (Some n)).
  { unfold read_lock_info in Hr. repeat case_match; by simplify_eq. }
  assert (Hnone : forall p c, procs s !! p = Some c -> ~ holds c).
  { intros p c Hp Hh. assert (n = p) as -> by (by eapply inv_pid).
    unfold alive in Ha. apply bool_decide_eq_false in Ha. apply Ha. by exists c. }
  destruct Hi as [H1 _ _ _]. split; simpl; [done|naive_solver..].
Qed.

Lemma environment_invariant s dok wok :
  lock_invariant s ->
  lock_invariant (System (procs s)
    (ReviewDir (lock_file (dir s)) (epoch_file (dir s)) dok wok) (removing s)).
Proof. by intros [H1 H2 H3 H4]. Qed.

Lemma run_invariant s pid o c c' d' :
  lock_invariant s -> procs s !! pid = Some c ->
  run_op fhm fdh pid o (c, dir s) = (c', d') ->
  lock_invariant (System (<[pid := c']> (procs s)) d' (removing s)).
Proof.
  intros [H1 H2 H3 H4] Hpid Hrun.
  apply run_op_lock in Hrun as [Hch Hok]; [|by apply (H2 pid)|by apply (H1 pid)].
  assert (Hphase : forall p x, <[pid := c']> (procs s) !! p = Some x -> phase_ok x).
  { intros p x [[_ <-]|[_ ?]]%lookup_insert_Some; [done|by eapply H1]. }
  inversion Hch as [? ? ? ? Hfile Hiff|? ? ? ? Hc Hc' Hfile
                   |? ? ? ? info Hc Hc' Hnone Hfile Hinfo]; subst; split; simpl; try done.
  - intros p x [[<- <-]|[_ ?]]%lookup_insert_Some Hh; rewrite Hfile; [|by eapply H2].
    by apply (H2 pid c Hpid), Hiff.
  - intros p x n [[<- <-]|[_ ?]]%lookup_insert_Some Hh; rewrite Hfile; [|by eapply H3].
    by apply (H3 pid c n Hpid), Hiff.
  - intros p x q y [[<- <-]|[? Hp]]%lookup_insert_Some [[<- <-]|[? Hq]]%lookup_insert_Some Hx Hy;
      rewrite ?Hiff in Hx; rewrite ?Hiff in Hy; by eauto.
  - intros p x [[<- <-]|[Hne Hp]]%lookup_insert_Some Hh; [done|].
    destruct Hne. by eapply H4.
  - intros p x n [[<- <-]|[Hne Hp]]%lookup_insert_Some Hh; [done|].
    destruct Hne. by eapply H4.
  - intros p x q y [[<- <-]|[? Hp]]%lookup_insert_Some [[<- <-]|[? Hq]]%lookup_insert_Some Hx Hy;
      [done|done|done|by eapply H4].
  - intros p x _ _. by rewrite Hfile.
  - intros p x n [[<- <-]|[Hne Hp]]%lookup_insert_Some Hh Hn.
    + apply Hinfo. congruence.
    + by destruct (H2 _ _ Hp Hh).
  - intros p x q y [[<- <-]|[? Hp]]%lookup_insert_Some [[<- <-]|[? Hq]]%lookup_insert_Some Hx Hy;
      [done|by destruct (H2 _ _ Hq Hy)|by destruct (H2 _ _ Hp Hx)|by eapply H4].
Qed.

Lemma step_invariant s e s' :
  uninterrupted e = true -> lock_invariant s -> step s e = Some s' -> lock_invariant s'.
Proof.
  intros He Hi Hs. destruct e as [pid|pid|pid o|pid|pid|pid|dok wok]; try done;
    cbn [step] in Hs.
  - destruct (procs s !! pid) eqn:Hp; simplify_eq. by apply start_invariant.
  - simplify_eq. by apply crash_invariant.
  - apply bind_Some in Hs as (c & Hc & Hs).
    destruct (run_op fhm fdh pid o (c, dir s)) as [c' d'] eqn:Hrun. simplify_eq.
    by eapply run_invariant.
  - apply bind_Some in Hs as (c & _ & [= <-]). by apply clear_invariant.
  - simplify_eq. by apply environment_invariant.
Qed.

Lemma run_events_invariant es s s' :
  Forall (fun e => uninterrupted e = true) es -> lock_invariant s ->
  run_events es s = Some s' -> lock_invariant s'.
Proof.
  intros Hes. revert s. induction Hes as [|e es He Hes IH]; intros s Hi; cbn [run_events].
  { by intros [= <-]. }
  intros (s1 & H1 & H2)%bind_Some. eapply IH; [|done]. by eapply step_invariant.
Qed.

(** ** Properties *)

(** C26: reviews do not overlap: in every state that any interleaving of the
    processes' operations, starts, crashes and uninterrupted clearings of stale
    locks can reach, at most one process awaits a review, that process holds the
    lock, and the lock file exists. *)
Theorem reviews_do_not_overlap es s p c q c' :
  Forall (fun e => uninterrupted e = true) es ->
  run_events es initial_system = Some s ->
  procs s !! p = Some c -> procs s !! q = Some c' ->
  awaiting_review (phase c) = true ->
  holds c /\ lock_file (dir s) <> None /\
  (awaiting_review (phase c') = true -> p = q).
Proof.
  intros Hes Hrun Hp Hq Hc.
  pose proof (run_events_invariant _ _ _ Hes initial_invariant Hrun) as [H1 H2 H3 H4].
  assert (Hh : holds c) by (by apply (H1 p)). split_and!; [done|by apply (H2 p c)|].
  intros Hc'. eapply H4; [done..|]. by apply (H1 q).
Qed.
End system.

(** Traces for the witnesses. *)
Module SystemRuns.
Definition no_format (n : N) : str := [].
Definition review (pid : N) : list event :=
  Run pid <$> [OTransition BeginLaunch; OTransition LaunchSuccess;
               OTransition (BeginReview false)].
Definition one_review : list event := [Start 1; Start 2] ++ review 1 ++ review 2.

(** Process 1 crashes in a review; 2 and 3 both find its lock stale; 3 removes the
    file after 2 has removed it and taken the lock. *)
Definition race : list event :=
  [Start 1] ++ review 1 ++ [Crash 1; Start 2; Start 3; ReadStale 2; ReadStale 3; RemoveStale 2]
  ++ review 2 ++ [RemoveStale 3] ++ review 3.

Lemma reviews_do_not_overlap_witness :
  exists s c c', run_events no_format no_format one_review initial_system = Some s /\
    procs s !! 1 = Some c /\ procs s !! 2 = Some c' /\ awaiting_review (phase c) = true /\
    holds c /\ awaiting_review (phase c') = false.
Proof.
  do 3 eexists.
  assert (Hrun : run_events no_format no_format one_review initial_system = Some _)
    by (vm_compute; reflexivity).
  split; [exact Hrun|]. split; [vm_compute; reflexivity|]. split; [vm_compute; reflexivity|].
  split; [reflexivity|]. split; [|reflexivity].
  refine (proj1 (reviews_do_not_overlap no_format no_format one_review _ 1 _ 2 _ _ Hrun _ _ _)).
  - apply (bool_decide_unpack _). vm_compute. exact I.
  - vm_compute. reflexivity.
  - vm_compute. reflexivity.
  - reflexivity.
Defined.
End SystemRuns.

(** The atomicity is needed: [clear_stale_lock_if_dead] tests the recorded pid
    and removes the file in separate steps, and a process that resumes between
    them removes a lock taken in the meantime; two processes then review at the
    same time. *)
Theorem stale_clear_race :
  exists s c c', run_events SystemRuns.no_format SystemRuns.no_format SystemRuns.race
      initial_system = Some s /\
    procs s !! 2 = Some c /\ procs s !! 3 = Some c' /\
    awaiting_review (phase c) = true /\ awaiting_review (phase c') = true.
Proof.
  do 3 eexists. split; [vm_compute; reflexivity|].
  split; [vm_compute; reflexivity|]. split; [vm_compute; reflexivity|]. by split.
Qed.
