(* ===== verification/ParseCommand.v ===== *)
(** * What a command does, for the user and for the guard

    [core/src/parse_command.rs]: a command line is cut into its commands, and each is
    summarised as reading a file, listing files, a search, another command that reads, or
    something unknown.  The summaries are shown to the user, and the text of the first one is
    what the guard for dry runs looks at ([DryRunGuard]).

    The splitting and joining of words ([shlex]) and the Tree-sitter parser are parameters;
    the commands of a tree are those of [CommandSafety]. *)

From stdpp Require Import base list.
From S2P Require Import Prelude Paths CommandSafety Approval.

Local Open Scope nat_scope.

(** [ParsedCommand] *)
Inductive parsed_command :=
| Read (cmd name : str)
| ListFiles (cmd : str) (path : option str)
| Search (cmd : str) (query path : option str)
| ReadCommand (cmd : str)
| Unknown (cmd : str).

#[export] Instance parsed_command_eq_dec : EqDecision parsed_command.
Proof. solve_decision. Defined.

(** ** Tokens *)

(** [str::split_whitespace] *)
Fixpoint split_whitespace_from (word : str) (s : str) : list str :=
  match s with
  | [] => match word with [] => [] | _ => [word] end
  | c :: s =>
      if is_whitespace c then
        match word with [] => split_whitespace_from [] s | _ => word :: split_whitespace_from [] s end
      else split_whitespace_from (word ++ [c]) s
  end.

Definition split_whitespace (s : str) : list str := split_whitespace_from [] s.

Definition is_connector (t : str) : bool := str_mem t [lit "&&"; lit "||"; lit "|"; lit ";"].

Definition contains_connectors (tokens : list str) : bool := existsb is_connector tokens.

(** The loop, with the current segment. *)
Fixpoint split_from (cur : list str) (tokens : list str) : list (list str) :=
  match tokens with
  | [] => match cur with [] => [] | _ => [cur] end
  | t :: tokens =>
      if is_connector t then
        match cur with [] => split_from [] tokens | _ => cur :: split_from [] tokens end
      else split_from (cur ++ [t]) tokens
  end.

Definition split_on_connectors (tokens : list str) : list (list str) := split_from [] tokens.

Fixpoint trim_at_connector (tokens : list str) : list str :=
  match tokens with
  | [] => []
  | t :: tokens => if is_connector t then [] else t :: trim_at_connector tokens
  end.

(** A part of a path that [short_display_path] shows. *)
Definition shown_part (p : str) : bool :=
  negb (str_mem p [[]; lit "build"; lit "dist"; lit "node_modules"; lit "src"]).

Definition short_display_path (path : str) : str :=
  let normalized := (fun c => if (c =? 92)%N then SLASH else c) <$> path in
  let trimmed := trim_end_matches SLASH normalized in
  default trimmed (List.find shown_part (reverse (split_on SLASH trimmed))).

Definition is_flag (p : str) : bool := starts_with (lit "-") p.

Fixpoint skip_flag_values (flags_with_vals args : list str) : list str :=
  match args with
  | [] => []
  | a :: rest =>
      if str_eqb a (lit "--") then rest
      else if starts_with (lit "--") a && str_contains (lit "=") a
      then skip_flag_values flags_with_vals rest
      else if str_mem a flags_with_vals then
        match rest with
        | [] => []
        | _ :: rest => skip_flag_values flags_with_vals rest
        end
      else a :: skip_flag_values flags_with_vals rest
  end.

Definition is_pathish (s : str) : bool :=
  str_eqb s (lit ".") || str_eqb s (lit "..") || starts_with (lit "./") s ||
  starts_with (lit "../") s || str_contains (lit "/") s || str_contains (lit "\") s.

Definition non_flags (args : list str) : list str := List.filter (fun p => negb (is_flag p)) args.

Definition all_ascii_digits (s : str) : bool := forallb is_ascii_digit s.

(** ** One command *)

Definition parse_fd_query_and_path (tail : list str) : option str * option str :=
  let candidates := skip_flag_values
    [lit "-t"; lit "--type"; lit "-e"; lit "--extension"; lit "-E"; lit "--exclude";
     lit "--search-path"] (trim_at_connector tail) in
  match non_flags candidates with
  | [one] => if is_pathish one then (None, Some (short_display_path one)) else (Some one, None)
  | q :: p :: _ => (Some q, Some (short_display_path p))
  | [] => (None, None)
  end.

Definition is_find_root (a : str) : bool :=
  negb (is_flag a) && negb (str_mem a [lit "!"; lit "("; lit ")"]).

(** The argument behind the first option that names a pattern. *)
Fixpoint find_pattern (args : list str) : option str :=
  match args with
  | [] => None
  | a :: rest =>
      if str_mem a [lit "-name"; lit "-iname"; lit "-path"; lit "-regex"] then head rest
      else find_pattern rest
  end.

Definition parse_find_query_and_path (tail : list str) : option str * option str :=
  let args := trim_at_connector tail in
  (find_pattern args, short_display_path <$> List.find is_find_root args).

Definition jq_values (flag : str) : nat :=
  if str_mem flag [lit "-f"; lit "--from-file"; lit "-L"; lit "--module-path"; lit "--indent"] then 1
  else if str_mem flag [lit "--arg"; lit "--argjson"; lit "--argfile"; lit "--rawfile";
                        lit "--slurpfile"] then 2
  else 0.

(** The first two operands, given what was found before. *)
Definition jq_operands (query : option str) (args : list str) : option str * option str :=
  match query with
  | Some _ => (query, head args)
  | None => (head args, args !! 1)
  end.

(** [skip]: arguments that the last flag takes. *)
Fixpoint jq_from (skip : nat) (query : option str) (args : list str) : option str * option str :=
  match args with
  | [] => (query, None)
  | arg :: rest =>
      match skip with
      | S skip => jq_from skip query rest
      | 0 =>
          if str_eqb arg (lit "--") then jq_operands query rest
          else if is_flag arg then jq_from (jq_values arg) query rest
          else
            match query with
            | None => jq_from 0 (Some arg) rest
            | Some _ => (query, Some arg)
            end
      end
  end.

Definition parse_jq_filter_and_path (args : list str) : option str * option str :=
  jq_from 0 None args.

Definition git_grep_flag_consumes_value (flag : str) : bool :=
  str_mem flag [lit "-e"; lit "-f"; lit "-g"; lit "-O"; lit "-A"; lit "-B"; lit "-C";
    lit "--before-context"; lit "--after-context"; lit "--context"; lit "--max-depth";
    lit "--threads"].

(** [option.or(x)] *)
Definition or_some {A} (a : option A) (x : A) : option A :=
  match a with Some _ => a | None => Some x end.

Fixpoint git_grep_from (skip : bool) (query path : option str) (args : list str)
    : option str * option str :=
  match args with
  | [] => (query, path)
  | arg :: rest =>
      if skip then git_grep_from false query path rest
      else if str_eqb arg (lit "--") then
        (query,
         match path with
         | Some _ => path
         | None => short_display_path <$> List.find (fun a => negb (str_eqb a [])) rest
         end)
      else if str_eqb arg (lit "-e") then
        git_grep_from true
          (match query, rest with None, v :: _ => Some v | _, _ => query end) path rest
      else if str_eqb arg (lit "-f") then git_grep_from true query path rest
      else if is_flag arg then git_grep_from (git_grep_flag_consumes_value arg) query path rest
      else
        match query with
        | None => git_grep_from false (Some arg) path rest
        | Some _ => git_grep_from false query (or_some path (short_display_path arg)) rest
        end
  end.

Definition parse_git_grep_query_and_path (args : list str) : option str * option str :=
  git_grep_from false None None args.

(** *** [git] *)

Definition git_flag_consumes_value (flag : str) : bool :=
  str_mem flag [lit "-C"; lit "-c"; lit "--git-dir"; lit "--work-tree"; lit "--namespace";
    lit "--super-prefix"; lit "--config"; lit "--config-env"].

(** The loop, at index [i]. *)
Fixpoint git_subcommand_from (i : nat) (args : list str) : option nat :=
  match args with
  | [] => None
  | token :: rest =>
      if str_eqb token (lit "--") then match rest with [] => None | _ => Some (i + 1) end
      else if is_flag token then
        match rest with
        | _ :: rest' =>
            if git_flag_consumes_value token then git_subcommand_from (i + 2) rest'
            else git_subcommand_from (i + 1) rest
        | [] => git_subcommand_from (i + 1) rest
        end
      else Some i
  end.

Definition git_subcommand_index (args : list str) : option nat := git_subcommand_from 0 args.

Definition MUTATING_LONG_FLAGS : list str :=
  [lit "--delete"; lit "--move"; lit "--copy"; lit "--create-reflog"; lit "--force";
   lit "--set-upstream-to"; lit "--set-upstream"; lit "--unset-upstream"; lit "--track";
   lit "--edit-description"].

Definition SAFE_VALUE_FLAGS : list str :=
  [lit "--contains"; lit "--merged"; lit "--no-merged"; lit "--points-at"; lit "--format";
   lit "--sort"; lit "--color"; lit "--column"].

Definition SAFE_SHORT_FLAGS : list char := lit "arvql".
Definition MUTATING_SHORT_FLAGS : list char := lit "dDmMcCfFbBtu".

Definition char_mem (c : char) (l : list char) : bool := existsb (N.eqb c) l.

Fixpoint branch_from (expect_value allow_patterns : bool) (args : list str) : bool :=
  match args with
  | [] => true
  | arg :: rest =>
      if expect_value then branch_from false allow_patterns rest
      else
        match strip_prefix (lit "--") arg with
        | Some stripped =>
            let '(flag, has_value) :=
              match split_once 61%N stripped with
              | Some (head, _) => (lit "--" ++ head, true)
              | None => (lit "--" ++ stripped, false)
              end in
            if str_mem flag MUTATING_LONG_FLAGS then false
            else if str_mem flag SAFE_VALUE_FLAGS then
              branch_from (negb has_value) allow_patterns rest
            else if str_eqb flag (lit "--list") then branch_from false true rest
            else branch_from false allow_patterns rest
        | None =>
            if is_flag arg then
              let chars := drop 1 arg in
              if existsb (fun c => char_mem c MUTATING_SHORT_FLAGS ||
                                   negb (char_mem c SAFE_SHORT_FLAGS)) chars
              then false
              else branch_from false (allow_patterns || char_mem 108%N chars) rest
            else if allow_patterns then branch_from false allow_patterns rest
            else false
        end
  end.

Definition git_branch_is_read_only (args : list str) : bool := branch_from false false args.

Definition git_command_is_read_only (subcmd : str) (args : list str) : bool :=
  if str_mem subcmd [lit "status"; lit "log"; lit "show"; lit "rev-parse"; lit "rev-list";
                     lit "describe"; lit "ls-files"; lit "ls-tree"] then true
  else if str_eqb subcmd (lit "diff") then
    forallb (fun arg => negb (str_eqb arg (lit "-o") || str_eqb arg (lit "--output") ||
                              starts_with (lit "--output=") arg)) args
  else if str_eqb subcmd (lit "branch") then git_branch_is_read_only args
  else false.

(** *** The summary *)

(** Validates that this is a [sed -n 123,123p] command. *)
Definition is_valid_sed_n_arg (arg : option str) : bool :=
  match arg with
  | None => false
  | Some s =>
      match strip_suffix (lit "p") s with
      | None => false
      | Some core =>
          let number n := negb (str_eqb n []) && all_ascii_digits n in
          match split_on 44%N core with
          | [num] => number num
          | [a; b] => number a && number b
          | _ => false
          end
      end
  end.

(** The number of [head -n], and of [tail -n], which may have a plus sign. *)
Definition head_number (n : str) : bool := all_ascii_digits n.

Definition tail_number (n : str) : bool :=
  let s := default n (strip_prefix (lit "+") n) in
  negb (str_eqb s []) && all_ascii_digits s.

Definition has_valid_n (number : str -> bool) (tail : list str) : bool :=
  match tail with
  | [] => false
  | first :: rest =>
      if str_eqb first (lit "-n") then match rest with n :: _ => number n | [] => false end
      else if starts_with (lit "-n") first then number (drop 2 first)
      else false
  end.

(** The arguments without a number that [-n] takes. *)
Definition line_candidates (number : str -> bool) (tail : list str) : list str :=
  match tail with
  | first :: n :: rest => if str_eqb first (lit "-n") && number n then rest else tail
  | _ => tail
  end.

Definition first_operand (args : list str) : option str :=
  List.find (fun p => negb (is_flag p)) args.

(** [simple_space_join] *)
Definition simple_space_join (tokens : list str) : option str :=
  if existsb (existsb is_whitespace) tokens then None else Some (join (lit " ") tokens).

Section parse.
Context (shlex_split : str -> option (list str)).
Context (shlex_try_join : list str -> option str).
Context (try_parse_bash : str -> option tree).

Definition shlex_join (tokens : list str) : str :=
  default (lit "<command included NUL byte>") (shlex_try_join tokens).

(** [head] and [tail]: a file is read from a number of lines on. *)
Definition summarize_lines (number : str -> bool) (main_cmd tail : list str) : parsed_command :=
  match
    (if has_valid_n number tail then first_operand (line_candidates number tail) else None)
  with
  | Some p => Read (shlex_join main_cmd) (short_display_path p)
  | None => Unknown (shlex_join main_cmd)
  end.

Definition git_text (main_cmd tail : list str) : str :=
  match tail with
  | second :: _ =>
      if str_eqb second (lit "branch")
      then default (shlex_join main_cmd) (simple_space_join main_cmd)
      else shlex_join main_cmd
  | [] => shlex_join main_cmd
  end.

Definition summarize_git (main_cmd tail : list str) : parsed_command :=
  let cmd := git_text main_cmd tail in
  match git_subcommand_index tail with
  | Some idx =>
      let sub := default [] (tail !! idx) in
      let rest := drop (idx + 1) tail in
      if str_eqb sub (lit "grep") then
        let '(query, path) := parse_git_grep_query_and_path rest in Search cmd query path
      else if git_command_is_read_only sub rest then ReadCommand cmd
      else Unknown cmd
  | None => Unknown cmd
  end.

Definition summarize_rg (main_cmd tail : list str) : parsed_command :=
  let args := trim_at_connector tail in
  let operands := non_flags args in
  if str_mem (lit "--files") args
  then Search (shlex_join main_cmd) None (short_display_path <$> head operands)
  else Search (shlex_join main_cmd) (head operands) (short_display_path <$> operands !! 1).

Definition summarize_grep (main_cmd tail : list str) : parsed_command :=
  let operands := non_flags (trim_at_connector tail) in
  Search (shlex_join main_cmd) (head operands) (short_display_path <$> operands !! 1).

Definition summarize_cat (main_cmd tail : list str) : parsed_command :=
  let effective_tail :=
    match tail with
    | first :: rest => if str_eqb first (lit "--") then rest else tail
    | [] => tail
    end in
  match effective_tail with
  | [file] => Read (shlex_join main_cmd) (short_display_path file)
  | _ => Unknown (shlex_join main_cmd)
  end.

Definition summarize_nl (main_cmd tail : list str) : parsed_command :=
  match first_operand
          (skip_flag_values [lit "-s"; lit "-w"; lit "-v"; lit "-i"; lit "-b"] tail) with
  | Some p => Read (shlex_join main_cmd) (short_display_path p)
  | None => Unknown (shlex_join main_cmd)
  end.

Definition summarize_sed (main_cmd tail : list str) : parsed_command :=
  match tail with
  | flag :: range :: path :: _ =>
      if str_eqb flag (lit "-n") && is_valid_sed_n_arg (Some range)
      then Read (shlex_join main_cmd) (short_display_path path)
      else Unknown (shlex_join main_cmd)
  | _ => Unknown (shlex_join main_cmd)
  end.

Definition summarize_ls (main_cmd tail : list str) : parsed_command :=
  ListFiles (shlex_join main_cmd)
    (short_display_path <$> first_operand
       (skip_flag_values [lit "-I"; lit "-w"; lit "--block-size"; lit "--format";
          lit "--time-style"; lit "--color"; lit "--quoting-style"] tail)).

Definition summarize_main_tokens (main_cmd : list str) : parsed_command :=
  let searched (o : option str * option str) := Search (shlex_join main_cmd) o.1 o.2 in
  match main_cmd with
  | [] => Unknown (shlex_join main_cmd)
  | head :: tail =>
      let named name := str_eqb head (lit name) in
      if named "ls" then summarize_ls main_cmd tail
      else if named "git" then summarize_git main_cmd tail
      else if named "rg" then summarize_rg main_cmd tail
      else if named "fd" then searched (parse_fd_query_and_path tail)
      else if named "find" then searched (parse_find_query_and_path tail)
      else if named "grep" then summarize_grep main_cmd tail
      else if named "jq" then searched (parse_jq_filter_and_path (trim_at_connector tail))
      else if named "cat" then summarize_cat main_cmd tail
      else if named "head" then summarize_lines head_number main_cmd tail
      else if named "tail" then summarize_lines tail_number main_cmd tail
      else if named "nl" then summarize_nl main_cmd tail
      else if named "sed" then summarize_sed main_cmd tail
      else Unknown (shlex_join main_cmd)
  end.

(** ** A script *)

Definition is_small_formatting_command (tokens : list str) : bool :=
  match tokens with
  | [] => false
  | cmd :: rest =>
      if str_mem cmd [lit "wc"; lit "tr"; lit "cut"; lit "sort"; lit "uniq"; lit "xargs";
                      lit "tee"; lit "column"; lit "awk"; lit "yes"; lit "printf"] then true
      else if str_mem cmd [lit "head"; lit "tail"] then length tokens <? 3
      else if str_eqb cmd (lit "sed") then
        (length tokens <? 4) ||
        negb (match rest with first :: _ => str_eqb first (lit "-n") | [] => false end &&
              is_valid_sed_n_arg (tokens !! 2))
      else false
  end.

Definition drop_small_formatting_commands (commands : list (list str)) : list (list str) :=
  List.filter (fun tokens => negb (is_small_formatting_command tokens)) commands.

(** The first word of an unknown command. *)
Definition unknown_words (pc : parsed_command) : option (list str) :=
  match pc with Unknown cmd => shlex_split cmd | _ => None end.

Definition unknown_program (name : str) (pc : parsed_command) : bool :=
  match unknown_words pc with Some (first :: _) => str_eqb first name | _ => false end.

Definition is_true_command (pc : parsed_command) : bool :=
  match pc with Unknown cmd => str_eqb cmd (lit "true") | _ => false end.

Definition is_bare_nl (pc : parsed_command) : bool :=
  match unknown_words pc with
  | Some (first :: args) => str_eqb first (lit "nl") && forallb is_flag args
  | _ => false
  end.

Definition remove_at {A} (idx : nat) (l : list A) : list A := take idx l ++ drop (idx + 1) l.

Definition simplify_once (commands : list parsed_command) : option (list parsed_command) :=
  if length commands <=? 1 then None
  else if match commands with c :: _ => unknown_program (lit "echo") c | [] => false end
  then Some (drop 1 commands)
  else
    let cd := position (unknown_program (lit "cd")) commands in
    match cd with
    | Some idx =>
        if idx + 1 <? length commands then Some (remove_at idx commands)
        else
          match position is_true_command commands with
          | Some idx => Some (remove_at idx commands)
          | None =>
              (fun idx => remove_at idx commands) <$> position is_bare_nl commands
          end
    | None =>
        match position is_true_command commands with
        | Some idx => Some (remove_at idx commands)
        | None => (fun idx => remove_at idx commands) <$> position is_bare_nl commands
        end
    end.

(** [while let Some(next) = simplify_once(&commands)]: every round takes one command. *)
Fixpoint simplify_loop (fuel : nat) (commands : list parsed_command) : list parsed_command :=
  match fuel with
  | 0 => commands
  | S fuel =>
      match simplify_once commands with
      | Some next => simplify_loop fuel next
      | None => commands
      end
  end.

Definition simplify (commands : list parsed_command) : list parsed_command :=
  simplify_loop (length commands) commands.

(** [normalize_tokens] *)
Definition normalize_tokens (cmd : list str) : list str :=
  match cmd with
  | first :: second :: rest =>
      if str_mem first [lit "yes"; lit "y"; lit "no"; lit "n"] && str_eqb second (lit "|")
      then rest
      else
        match rest with
        | [script] =>
            if is_shell_like_executable first && str_mem second [lit "-c"; lit "-lc"]
            then default [lit "bash"; second; script] (shlex_split script)
            else cmd
        | _ => cmd
        end
  | _ => cmd
  end.

(** Tokens that were split already, as commands. *)
Definition parse_tokens (tokens : list str) : list parsed_command :=
  let normalized := normalize_tokens tokens in
  let parts :=
    if contains_connectors normalized then split_on_connectors normalized else [normalized] in
  simplify (summarize_main_tokens <$> parts).

Definition fallback_shell_script_tokens (script : str) (shell_flag : option str) : list str :=
  match shell_flag with
  | Some flag => [lit "bash"; flag; script]
  | None => [script]
  end.

Fixpoint has_sed_n (tokens : list str) : bool :=
  match tokens with
  | a :: tokens' =>
      match tokens' with
      | b :: _ => str_eqb a (lit "sed") && str_eqb b (lit "-n")
      | [] => false
      end || has_sed_n tokens'
  | [] => false
  end.

(** The text of the only command of a script. *)
Definition with_script_text (script : str) (script_tokens : list str) (had_connectors : bool)
    (pc : parsed_command) : parsed_command :=
  let text cmd := if had_connectors then cmd else shlex_join script_tokens in
  match pc with
  | Read cmd name =>
      if had_connectors && str_mem (lit "|") script_tokens && has_sed_n script_tokens
      then Read script name
      else Read (text cmd) name
  | ListFiles cmd path => ListFiles (text cmd) path
  | Search cmd query path => Search (text cmd) query path
  | ReadCommand _ | Unknown _ => pc
  end.

Definition parse_word_only_script (script : str) (shell_flag : option str)
    (all_commands : list (list str)) : option (list parsed_command) :=
  let script_tokens :=
    default (fallback_shell_script_tokens script shell_flag) (shlex_split script) in
  let had_multiple_commands := 1 <? length all_commands in
  let filtered_commands := reverse (drop_small_formatting_commands all_commands) in
  match filtered_commands with
  | [] => None
  | _ =>
      let commands := summarize_main_tokens <$> filtered_commands in
      let commands :=
        if 1 <? length commands
        then simplify (List.filter (fun pc => negb (is_true_command pc)) commands)
        else commands in
      Some
        match commands with
        | [pc] =>
            [with_script_text script script_tokens
               (had_multiple_commands || contains_connectors script_tokens) pc]
        | _ => commands
        end
  end.

Definition parse_shell_script_text (script : str) (shell_flag : option str)
    : option (list parsed_command) :=
  match t ← try_parse_bash script; try_parse_word_only_commands_sequence t with
  | Some all_commands => parse_word_only_script script shell_flag all_commands
  | None => Some (parse_tokens (default [script] (shlex_split script)))
  end.

Definition parse_shell_script_commands (original : list str) : option (list parsed_command) :=
  match original with
  | [script] => parse_shell_script_text script None
  | _ =>
      '(_, script) ← extract_shell_script original;
      parse_shell_script_text script
        match original with
        | [bash; flag; _] =>
            if is_shell_like_executable bash && str_mem flag [lit "-lc"; lit "-c"]
            then Some flag else None
        | _ => None
        end
  end.

Definition parse_command_impl (command : list str) : list parsed_command :=
  match parse_shell_script_commands command with
  | Some commands => commands
  | None => parse_tokens command
  end.

(** Consecutive duplicates are shown once. *)
Fixpoint dedup_from (prev : option parsed_command) (l : list parsed_command)
    : list parsed_command :=
  match l with
  | [] => []
  | cmd :: l =>
      if decide (prev = Some cmd) then dedup_from prev l else cmd :: dedup_from (Some cmd) l
  end.

Definition parse_command (command : list str) : list parsed_command :=
  dedup_from None (parse_command_impl command).
End parse.

(** ** Specification *)

(** Some elements that satisfy [P] are left out. *)
Inductive thinned {A} (P : A -> Prop) : list A -> list A -> Prop :=
| thinned_nil : thinned P [] []
| thinned_keep x l l' : thinned P l l' -> thinned P (x :: l) (x :: l')
| thinned_drop x l l' : P x -> thinned P l l' -> thinned P (x :: l) l'.

Lemma thinned_refl {A} (P : A -> Prop) l : thinned P l l.
Proof. induction l; by constructor. Qed.

Lemma thinned_trans {A} (P : A -> Prop) l1 l2 l3 :
  thinned P l1 l2 -> thinned P l2 l3 -> thinned P l1 l3.
Proof.
  intros H12. revert l3. induction H12 as [|x l l' _ IH|x l l' Hx _ IH]; intros l3 H23; [done| |].
  - inversion H23; subst; constructor; auto.
  - constructor; auto.
Qed.

Lemma thinned_remove {A} (P : A -> Prop) before x after : P x ->
  thinned P (before ++ x :: after) (before ++ after).
Proof.
  intros Hx. induction before; [apply thinned_drop, thinned_refl; done|by constructor].
Qed.

Lemma thinned_filter {A} (P : A -> Prop) (keep : A -> bool) l :
  (forall x, keep x = false -> P x) -> thinned P l (List.filter keep l).
Proof.
  intros Hk. induction l as [|x l IH]; [constructor|]. cbn. destruct (keep x) eqn:E.
  - by constructor.
  - constructor; auto.
Qed.

Lemma remove_at_position {A} (p : A -> bool) l idx : position p l = Some idx ->
  exists before x after, l = before ++ x :: after /\ remove_at idx l = before ++ after /\
    idx = length before /\ p x = true /\ Forall (fun y => p y = false) before.
Proof.
  intros (before & x & after & -> & <- & Hx & Hb)%position_spec.
  exists before, x, after. unfold remove_at. repeat split; [|done|done].
  by rewrite take_app_length, drop_app_add.
Qed.

(** Between connectors every token is in one segment, in order, and no segment is empty. *)
Lemma split_from_spec tokens : forall cur, Forall (fun t => is_connector t = false) cur ->
  concat (split_from cur tokens) = cur ++ List.filter (fun t => negb (is_connector t)) tokens /\
  Forall (fun s => s <> [] /\ Forall (fun t => is_connector t = false) s) (split_from cur tokens).
Proof.
  induction tokens as [|t tokens IH]; intros cur Hc; cbn [split_from List.filter].
  { destruct cur as [|x cur]; cbn [concat]; [done|]. rewrite app_nil_r. split; [done|].
    constructor; [done|constructor]. }
  destruct (is_connector t) eqn:Et; cbn [negb].
  - destruct (IH [] ltac:(constructor)) as [Hs Hf]. destruct cur as [|x cur]; [done|].
    cbn [concat]. rewrite Hs. split; [done|]. by constructor.
  - destruct (IH (cur ++ [t])) as [Hs Hf].
    + apply Forall_app. split; [done|]. by constructor.
    + rewrite Hs, <- app_assoc. by split.
Qed.

Section simplification.
Context (shlex_split : str -> option (list str)).
Local Abbreviation simplify_once := (simplify_once shlex_split).
Local Abbreviation simplify_loop := (simplify_loop shlex_split).
Local Abbreviation simplify := (simplify shlex_split).

(** Commands that say nothing about what the others do. *)
Definition ignorable (pc : parsed_command) : bool :=
  unknown_program shlex_split (lit "echo") pc || unknown_program shlex_split (lit "cd") pc ||
  is_true_command pc || is_bare_nl shlex_split pc.

(** Nothing more is left out: one command is left, or the first prints nothing, only the last
    changes the directory, and none is [true] or numbers lines. *)
Definition settled (l : list parsed_command) : Prop :=
  length l <= 1 \/
  (forall pc, head l = Some pc -> unknown_program shlex_split (lit "echo") pc = false) /\
  (forall pc, pc ∈ removelast l -> unknown_program shlex_split (lit "cd") pc = false) /\
  (forall pc, pc ∈ l -> is_true_command pc = false /\ is_bare_nl shlex_split pc = false).

Lemma simplify_once_removes l l' : simplify_once l = Some l' ->
  exists before pc after, l = before ++ pc :: after /\ l' = before ++ after /\
    ignorable pc = true /\ l' <> [].
Proof.
  unfold simplify_once. destruct (Nat.leb_spec (length l) 1) as [|Hl]; [done|].
  assert (Hat : forall idx p, position p l = Some idx -> (forall pc, p pc = true -> ignorable pc = true) ->
    exists before pc after, l = before ++ pc :: after /\ remove_at idx l = before ++ after /\
      ignorable pc = true /\ remove_at idx l <> []).
  { intros idx p (before & x & after & -> & Hr & _ & Hx & _)%remove_at_position Hi.
    exists before, x, after. rewrite Hr. repeat split; auto.
    intros Hn. apply (f_equal length) in Hn. rewrite length_app in Hl, Hn. cbn in Hl, Hn. lia. }
  unfold ignorable in Hat |- *.
  destruct (match l with c :: _ => _ | [] => false end) eqn:He.
  { intros [= <-]. destruct l as [|c l]; [done|]. exists [], c, l. rewrite He. repeat split; auto.
    intros Hn. apply (f_equal length) in Hn. rewrite length_drop in Hn. cbn in Hl, Hn. lia. }
  assert (Hrest : match position is_true_command l with
                  | Some idx => Some (remove_at idx l)
                  | None => (fun idx => remove_at idx l) <$> position (is_bare_nl shlex_split) l
                  end = Some l' ->
    exists before pc after, l = before ++ pc :: after /\ l' = before ++ after /\
      ignorable pc = true /\ l' <> []).
  { destruct (position is_true_command l) as [idx|] eqn:Et.
    - intros [= <-]. apply (Hat _ _ Et). intros pc ->. by rewrite orb_true_r.
    - destruct (position (is_bare_nl shlex_split) l) as [idx|] eqn:En; [|done]. intros [= <-].
      apply (Hat _ _ En). intros pc ->. by rewrite orb_true_r. }
  destruct (position (unknown_program shlex_split (lit "cd")) l) as [idx|] eqn:Ec; [|done].
  destruct (idx + 1 <? length l); [|done]. intros [= <-]. apply (Hat _ _ Ec).
  intros pc ->. by rewrite orb_true_r.
Qed.

Lemma simplify_once_shorter l l' : simplify_once l = Some l' -> length l' < length l.
Proof.
  intros (before & pc & after & -> & -> & _)%simplify_once_removes. rewrite !length_app. cbn. lia.
Qed.

Lemma simplify_once_settled l : simplify_once l = None -> settled l.
Proof.
  unfold simplify_once. destruct (Nat.leb_spec (length l) 1) as [|Hl]; [by left|]. intros Hn. right.
  assert (Hrest : match position is_true_command l with
                  | Some idx => Some (remove_at idx l)
                  | None => (fun idx => remove_at idx l) <$> position (is_bare_nl shlex_split) l
                  end = None ->
    forall pc, pc ∈ l -> is_true_command pc = false /\ is_bare_nl shlex_split pc = false).
  { destruct (position is_true_command l) eqn:Et; [done|].
    destruct (position (is_bare_nl shlex_split) l) eqn:En; [done|]. intros _ pc Hpc.
    by rewrite (proj1 (position_None _ _) Et), (proj1 (position_None _ _) En). }
  destruct (match l with c :: _ => _ | [] => false end) eqn:He; [done|].
  split; [intros pc; by destruct l as [|c l']; [|intros [= <-]]|].
  destruct (position (unknown_program shlex_split (lit "cd")) l) as [idx|] eqn:Ec.
  - destruct (Nat.ltb_spec (idx + 1) (length l)); [done|]. split; [|auto].
    apply remove_at_position in Ec as (before & x & after & -> & _ & -> & _ & Hb).
    rewrite length_app in *. destruct after; [|cbn in *; lia].
    rewrite removelast_last. by apply Forall_forall.
  - split; [|auto]. intros pc Hpc. apply (proj1 (position_None _ _) Ec).
    destruct (exists_last (l := l)) as (l' & a & El); [intros ->; cbn in Hl; lia|].
    rewrite El in Hpc |- *. rewrite removelast_last in Hpc. apply elem_of_app. by left.
Qed.

Lemma simplify_loop_spec fuel l : length l <= fuel ->
  thinned (fun pc => ignorable pc = true) l (simplify_loop fuel l) /\
  settled (simplify_loop fuel l) /\ (l <> [] -> simplify_loop fuel l <> []).
Proof.
  revert l. induction fuel as [|fuel IH]; intros l Hl.
  { destruct l; [|cbn in Hl; lia]. split; [constructor|]. split; [left; cbn; lia|done]. }
  cbn [ParseCommand.simplify_loop]. destruct (simplify_once l) as [l'|] eqn:E.
  - pose proof (simplify_once_shorter _ _ E).
    apply simplify_once_removes in E as (before & pc & after & -> & -> & Hi & Hne).
    destruct (IH (before ++ after)) as (Ht & Hs & Hn); [lia|]. split; [|by auto].
    eapply thinned_trans; [|exact Ht]. by apply thinned_remove.
  - split; [apply thinned_refl|]. split; [by apply simplify_once_settled|done].
Qed.

(** The loop leaves out ignorable commands only, until nothing more can be left out, and
    something is left. *)
Theorem simplify_outcome l :
  thinned (fun pc => ignorable pc = true) l (simplify l) /\ settled (simplify l) /\
  (l <> [] -> simplify l <> []).
Proof.
  destruct (simplify_loop_spec (length l) l) as (Ht & Hs & Hn); [done|]. by repeat split.
Qed.
End simplification.

(** ** Words *)

Lemma split_whitespace_space w a c b : is_whitespace c = true ->
  split_whitespace_from w (a ++ c :: b) = split_whitespace_from w a ++ split_whitespace b.
Proof.
  intros Hc. revert w. induction a as [|x a IH]; intros w; cbn.
  - rewrite Hc. by destruct w.
  - destruct (is_whitespace x); [destruct w|]; cbn; by rewrite ?IH.
Qed.

Lemma split_whitespace_app a c b : is_whitespace c = true ->
  split_whitespace (a ++ c :: b) = split_whitespace a ++ split_whitespace b.
Proof. apply split_whitespace_space. Qed.

Lemma split_whitespace_word w : w <> [] -> Forall (fun c => is_whitespace c = false) w ->
  split_whitespace w = [w].
Proof.
  intros Hne Hw. unfold split_whitespace.
  enough (forall acc, acc ++ w <> [] -> split_whitespace_from acc w = [acc ++ w]) as H by by apply H.
  clear Hne. induction Hw as [|c w Hc _ IH]; intros acc Ha; cbn.
  - rewrite app_nil_r in *. by destruct acc.
  - rewrite Hc, IH; rewrite <- app_assoc; done.
Qed.

(** A word that stays one when a line is split at blanks. *)
Definition solid (w : str) : Prop := w <> [] /\ Forall (fun c => is_whitespace c = false) w.

#[export] Instance solid_dec w : Decision (solid w).
Proof. unfold solid. apply _. Defined.

Lemma split_whitespace_join l : Forall solid l -> split_whitespace (join (lit " ") l) = l.
Proof.
  induction 1 as [|w l [Hn Hw] Hl IH]; [done|]. destruct l as [|v l].
  - by apply split_whitespace_word.
  - change (join (lit " ") (w :: v :: l)) with (w ++ 32%N :: join (lit " ") (v :: l)).
    by rewrite split_whitespace_app, split_whitespace_word, IH.
Qed.

(** ** Scripts *)

(** A summary without its text. *)
Definition without_text (pc : parsed_command) : parsed_command :=
  match pc with
  | Read _ name => Read [] name
  | ListFiles _ path => ListFiles [] path
  | Search _ query path => Search [] query path
  | ReadCommand _ => ReadCommand []
  | Unknown _ => Unknown []
  end.

(** Its text may become that of the script. *)
Definition shows_files (pc : parsed_command) : bool :=
  match pc with Read _ _ | ListFiles _ _ | Search _ _ _ => true | _ => false end.

Lemma with_script_text_other shlex_try_join script tokens b pc : shows_files pc = false ->
  with_script_text shlex_try_join script tokens b pc = pc.
Proof. by destruct pc. Qed.

Lemma with_script_text_same shlex_try_join script tokens b pc :
  without_text (with_script_text shlex_try_join script tokens b pc) = without_text pc.
Proof. destruct pc; cbn; by repeat case_match. Qed.

Section scripts.
Context (shlex_split : str -> option (list str)).
Context (shlex_try_join : list str -> option str).
Context (try_parse_bash : str -> option tree).
Local Abbreviation summarize := (summarize_main_tokens shlex_try_join).
Local Abbreviation ignored := (fun pc => ignorable shlex_split pc = true).

Lemma word_only_script script flag cs :
  drop_small_formatting_commands cs <> [] ->
  exists kept result,
    parse_word_only_script shlex_split shlex_try_join script flag cs = Some result /\
    thinned ignored (summarize <$> reverse (drop_small_formatting_commands cs)) kept /\
    settled shlex_split kept /\
    without_text <$> kept = without_text <$> result /\
    (result = kept \/ exists pc, kept = [pc] /\ shows_files pc = true).
Proof.
  intros Hne. unfold parse_word_only_script.
  destruct (reverse (drop_small_formatting_commands cs)) as [|c l] eqn:Ef.
  { by apply (f_equal reverse) in Ef; rewrite reverse_involutive in Ef. }
  set (summaries := summarize <$> c :: l).
  set (kept := if 1 <? length summaries
    then simplify shlex_split (List.filter (fun pc => negb (is_true_command pc)) summaries)
    else summaries).
  exists kept. eexists. split; [reflexivity|].
  assert (thinned ignored summaries kept /\ settled shlex_split kept) as [Ht Hs].
  { subst kept. destruct (Nat.ltb_spec 1 (length summaries)) as [Hl|Hl].
    - destruct (simplify_outcome shlex_split (List.filter (fun pc => negb (is_true_command pc)) summaries))
        as (Ht & Hs & _).
      split; [|done]. eapply thinned_trans; [|exact Ht]. apply thinned_filter.
      intros pc Hpc%negb_false_iff. unfold ignorable. by rewrite Hpc, orb_true_r.
    - split; [apply thinned_refl|]. left. lia. }
  split; [done|]. split; [done|]. destruct kept as [|pc [|pc' kept]]; [by split; [|left]| |by split; [|left]].
  split; [cbn; by rewrite with_script_text_same|].
  destruct (shows_files pc) eqn:Ep; [right; by exists pc|left; by rewrite with_script_text_other].
Qed.

Lemma script_parse command i script t cs :
  extract_shell_script command = Some (i, script) ->
  try_parse_bash script = Some t -> try_parse_word_only_commands_sequence t = Some cs ->
  exists flag, parse_command_impl shlex_split shlex_try_join try_parse_bash command =
    default (parse_tokens shlex_split shlex_try_join command)
      (parse_word_only_script shlex_split shlex_try_join script flag cs).
Proof.
  intros He Ht Hcs.
  assert (Htext : forall flag,
    parse_shell_script_text shlex_split shlex_try_join try_parse_bash script flag
    = parse_word_only_script shlex_split shlex_try_join script flag cs).
  { intros flag. unfold parse_shell_script_text. rewrite Ht. cbn. by rewrite Hcs. }
  unfold parse_command_impl, parse_shell_script_commands.
  destruct command as [|a [|b command]]; [done| |].
  - injection He as <- <-. exists None. by rewrite Htext.
  - rewrite He. cbn [mbind option_bind]. eexists. by rewrite Htext.
Qed.

(** A script of plain commands is summarised command by command, in the reverse of their
    order: each command is a formatting helper, ignorable or in the result, and only the text
    of a single one that shows files is changed. *)
Theorem script_summarised command i script t cs :
  extract_shell_script command = Some (i, script) ->
  try_parse_bash script = Some t -> try_parse_word_only_commands_sequence t = Some cs ->
  drop_small_formatting_commands cs <> [] ->
  let result := parse_command_impl shlex_split shlex_try_join try_parse_bash command in
  exists kept, thinned ignored (summarize <$> reverse (drop_small_formatting_commands cs)) kept /\
    settled shlex_split kept /\ without_text <$> kept = without_text <$> result /\
    (result = kept \/ exists pc, kept = [pc] /\ shows_files pc = true).
Proof.
  intros He Ht Hcs Hne result. destruct (script_parse command i script t cs He Ht Hcs) as [flag Hr].
  destruct (word_only_script script flag cs Hne) as (kept & result' & Hw & Hrest).
  exists kept. subst result. rewrite Hr, Hw. exact Hrest.
Qed.
End scripts.

(** ** Commands of [git] that only read *)

(** The options in front of a subcommand. *)
Inductive git_flags : list str -> Prop :=
| git_flags_nil : git_flags []
| git_flags_flag f l : is_flag f = true -> f <> lit "--" -> git_flag_consumes_value f = false ->
    git_flags l -> git_flags (f :: l)
| git_flags_value f v l : git_flag_consumes_value f = true -> git_flags l ->
    git_flags (f :: v :: l).

Inductive git_call : list str -> str -> list str -> Prop :=
| git_call_plain flags sub rest : git_flags flags -> is_flag sub = false ->
    git_call (flags ++ sub :: rest) sub rest
| git_call_dashes flags sub rest : git_flags flags ->
    git_call (flags ++ lit "--" :: sub :: rest) sub rest.

Lemma value_flag_is_flag f : git_flag_consumes_value f = true ->
  is_flag f = true /\ str_eqb f (lit "--") = false.
Proof.
  unfold git_flag_consumes_value. rewrite str_mem_elem. intros Hf.
  repeat (apply elem_of_cons in Hf as [->|Hf]; [by split|]). by apply elem_of_nil in Hf.
Qed.

Lemma git_subcommand_flag f rest i : is_flag f = true -> f <> lit "--" ->
  git_flag_consumes_value f = false ->
  git_subcommand_from i (f :: rest) = git_subcommand_from (i + 1) rest.
Proof.
  intros Hf Hd Hc. cbn [git_subcommand_from].
  rewrite (proj2 (str_eqb_neq f (lit "--")) Hd), Hf, Hc. by destruct rest.
Qed.

Lemma git_subcommand_value f v rest i : git_flag_consumes_value f = true ->
  git_subcommand_from i (f :: v :: rest) = git_subcommand_from (i + 2) rest.
Proof.
  intros Hc. destruct (value_flag_is_flag f Hc) as [Hf Hd]. cbn [git_subcommand_from].
  by rewrite Hd, Hf, Hc.
Qed.

Lemma git_call_flag f args sub rest : is_flag f = true -> f <> lit "--" ->
  git_flag_consumes_value f = false -> git_call args sub rest -> git_call (f :: args) sub rest.
Proof.
  intros Hf Hd Hc [flags ? ? Hl|flags ? ? Hl].
  - apply (git_call_plain (f :: flags)); [by constructor|done].
  - apply (git_call_dashes (f :: flags)). by constructor.
Qed.

Lemma git_call_value f v args sub rest : git_flag_consumes_value f = true ->
  git_call args sub rest -> git_call (f :: v :: args) sub rest.
Proof.
  intros Hc [flags ? ? Hl|flags ? ? Hl].
  - apply (git_call_plain (f :: v :: flags)); [by constructor|done].
  - apply (git_call_dashes (f :: v :: flags)). by constructor.
Qed.

(** The loop finds this subcommand, [idx] places behind index [i]. *)
Definition finds (args : list str) (sub : str) (rest : list str) : Prop :=
  exists idx, (forall i, git_subcommand_from i args = Some (i + idx)) /\ args !! idx = Some sub /\
    drop (idx + 1) args = rest.

Lemma git_call_found args sub rest : git_call args sub rest -> finds args sub rest.
Proof.
  assert (Hflags : forall flags args sub rest, git_flags flags -> finds args sub rest ->
    finds (flags ++ args) sub rest).
  { intros flags args' sub' rest' Hf (idx & Hi & Hs & Hr).
    induction Hf as [|f l Hf Hd Hc _ (idx' & Hi' & Hs' & Hr')|f v l Hc _ (idx' & Hi' & Hs' & Hr')].
    - by exists idx.
    - exists (S idx'). split; [|by split]. intros i. cbn [app].
      rewrite git_subcommand_flag, Hi' by done. f_equal. lia.
    - exists (S (S idx')). split; [|by split]. intros i. cbn [app].
      rewrite git_subcommand_value, Hi' by done. f_equal. lia. }
  intros [flags sub' rest' Hf Hs|flags sub' rest' Hf]; apply Hflags; try done.
  - exists 0. split; [|by split]. intros i. cbn [git_subcommand_from].
    assert (str_eqb sub' (lit "--") = false) as ->.
    { apply str_eqb_neq. by intros ->. }
    rewrite Hs. f_equal. lia.
  - exists 1. split; [|by split]. intros i. reflexivity.
Qed.

Lemma git_found_call args : forall i n, git_subcommand_from i args = Some n ->
  exists idx sub rest, n = i + idx /\ args !! idx = Some sub /\ drop (idx + 1) args = rest /\
    git_call args sub rest.
Proof.
  induction args as [args IH] using (well_founded_induction (well_founded_ltof _ length)).
  unfold ltof in IH. intros i n Hn. destruct args as [|token args]; [done|].
  cbn [git_subcommand_from] in Hn. destruct (str_eqb token (lit "--")) eqn:Ed.
  { apply str_eqb_eq in Ed as ->. destruct args as [|sub rest]; [done|]. injection Hn as <-.
    exists 1, sub, rest. do 3 (split; [done|]). apply (git_call_dashes []). constructor. }
  destruct (is_flag token) eqn:Ef.
  2: { injection Hn as <-. exists 0, token, args. split; [lia|]. do 2 (split; [done|]).
       apply (git_call_plain []); [constructor|done]. }
  assert (Hone : git_flag_consumes_value token = false \/ args = [] ->
    git_subcommand_from (i + 1) args = Some n ->
    exists idx sub rest, n = i + idx /\ (token :: args) !! idx = Some sub /\
      drop (idx + 1) (token :: args) = rest /\ git_call (token :: args) sub rest).
  { intros Hc Hn'. destruct (IH args ltac:(cbn; lia) _ _ Hn') as (idx & sub & rest & -> & Hs & Hr & Hg).
    exists (S idx), sub, rest. split; [lia|]. do 2 (split; [done|]).
    destruct Hc as [Hc| ->]; [|by inversion Hg as [flags ? ? Hx|flags ? ? Hx]; destruct flags].
    apply git_call_flag; [done|by apply str_eqb_neq|done|done]. }
  destruct args as [|v args]; [by apply Hone; [right|]|].
  destruct (git_flag_consumes_value token) eqn:Ec; [|by apply Hone; [left|]].
  destruct (IH args ltac:(cbn; lia) _ _ Hn) as (idx & sub & rest & -> & Hs & Hr & Hg).
  exists (S (S idx)), sub, rest. split; [lia|]. do 2 (split; [done|]).
  by apply git_call_value.
Qed.

(** A command is shown as one that only reads exactly when it is [git], with options that may
    take a value, and a subcommand that only reads. *)
Theorem read_command_iff shlex_try_join tokens text :
  summarize_main_tokens shlex_try_join tokens = ReadCommand text <->
  exists tail sub rest, tokens = lit "git" :: tail /\ git_call tail sub rest /\
    git_command_is_read_only sub rest = true /\ text = git_text shlex_try_join tokens tail.
Proof.
  split.
  - destruct tokens as [|head tail]; [done|]. cbn -[lit str_eqb summarize_ls summarize_git summarize_rg
      summarize_grep summarize_cat summarize_lines summarize_nl summarize_sed].
    destruct (str_eqb head (lit "ls")); [done|].
    destruct (str_eqb head (lit "git")) eqn:Eg.
    + apply str_eqb_eq in Eg as ->. unfold summarize_git. intros Hs. exists tail.
      destruct (git_subcommand_index tail) as [n|] eqn:Ei; [|done].
      apply git_found_call in Ei as (idx & sub & rest & -> & Hsub & Hrest & Hg).
      cbn [Nat.add] in Hs. rewrite Hsub, Hrest in Hs. change (default [] (Some sub)) with sub in Hs. exists sub, rest.
      destruct (str_eqb sub (lit "grep")); [by repeat case_match|].
      destruct (git_command_is_read_only sub rest); [|done]. by injection Hs as <-.
    + unfold summarize_rg, summarize_grep, summarize_cat, summarize_lines, summarize_nl,
        summarize_sed. intros Hs. by repeat case_match.
  - intros (tail & sub & rest & -> & (idx & Hi & Hsub & Hrest)%git_call_found & Hr & ->).
    change (summarize_git shlex_try_join (lit "git" :: tail) tail =
      ReadCommand (git_text shlex_try_join (lit "git" :: tail) tail)).
    unfold summarize_git, git_subcommand_index. rewrite Hi. cbn [Nat.add].
    rewrite Hsub, Hrest. change (default [] (Some sub)) with sub. rewrite Hr.
    destruct (str_eqb sub (lit "grep")) eqn:Eg; [|done]. by apply str_eqb_eq in Eg as ->.
Qed.

(** *** [git branch] *)

(** The name of a long option, without its value. *)
Definition long_name (arg : str) : str :=
  match split_once 61%N arg with Some (name, _) => name | None => arg end.

Definition harmless_branch_option (arg : str) : Prop :=
  if starts_with (lit "--") arg then long_name arg ∉ MUTATING_LONG_FLAGS
  else Forall (fun c => c ∈ SAFE_SHORT_FLAGS) (drop 1 arg).

(** An option that makes the operands patterns of names to list. *)
Definition lists_branches (arg : str) : Prop :=
  long_name arg = lit "--list" \/
  is_flag arg = true /\ starts_with (lit "--") arg = false /\ 108%N ∈ drop 1 arg.

Lemma strip_dashes arg stripped : strip_prefix (lit "--") arg = Some stripped ->
  arg = lit "--" ++ stripped /\ starts_with (lit "--") arg = true.
Proof. intros H. unfold starts_with. rewrite H. split; [|done]. by apply strip_prefix_Some. Qed.

Lemma long_name_dashes stripped : long_name (lit "--" ++ stripped) =
  match split_once 61%N stripped with
  | Some (name, _) => lit "--" ++ name | None => lit "--" ++ stripped end.
Proof.
  unfold long_name. change (lit "--" ++ stripped) with (45%N :: 45%N :: stripped).
  change (split_once 61%N (45%N :: 45%N :: stripped)) with
    (match match split_once 61%N stripped with Some (a, b) => Some (45%N :: a, b) | None => None end
     with Some (a, b) => Some (45%N :: a, b) | None => None end).
  by destruct (split_once 61%N stripped) as [[name value]|].
Qed.

Lemma char_mem_elem c l : char_mem c l = true <-> c ∈ l.
Proof.
  unfold char_mem. rewrite existsb_exists, list_elem_of_In. split.
  - by intros (x & Hx & ->%N.eqb_eq).
  - intros Hc. exists c. split; [done|]. apply N.eqb_refl.
Qed.

(** An option whose value is the next argument. *)
Definition takes_next (arg : str) : Prop := arg ∈ SAFE_VALUE_FLAGS.

Lemma branch_from_spec args : forall expect allow, branch_from expect allow args = true ->
  forall before arg after, args = before ++ arg :: after ->
    (expect = true /\ before = []) \/
    (exists before' option, before = before' ++ [option] /\ takes_next option) \/
    (if is_flag arg then harmless_branch_option arg
     else allow = true \/ Exists lists_branches before).
Proof.
  induction args as [|a args IH]; intros expect allow Hb before arg after Heq; [by destruct before|].
  (* the rest of the loop, once the argument [a] was looked at *)
  assert (Hnext : forall expect' allow', branch_from expect' allow' args = true ->
    (expect' = true -> takes_next a) -> (allow' = true -> allow = true \/ lists_branches a) ->
    forall before', before = a :: before' ->
    (expect = true /\ before = []) \/
    (exists before' option, before = before' ++ [option] /\ takes_next option) \/
    (if is_flag arg then harmless_branch_option arg
     else allow = true \/ Exists lists_branches before)).
  { intros expect' allow' Hb' He Ha before' ->. injection Heq as Heq. right.
    destruct (IH _ _ Hb' before' arg after Heq) as [[-> ->]|[(b & o & -> & Ho)|H]].
    - left. exists [], a. split; [done|auto].
    - left. by exists (a :: b), o.
    - right. destruct (is_flag arg); [done|]. destruct H as [Hal|Hex]; [|by right; constructor 2].
      destruct (Ha Hal) as [|Hl]; [by left|]. right. by constructor. }
  cbn [branch_from] in Hb. destruct expect.
  { destruct before as [|b before]; [by left|]. injection Heq as <- Heq.
    eapply (Hnext _ _ Hb); [done|by left|done]. }
  destruct (strip_prefix (lit "--") a) as [stripped|] eqn:Es.
  - destruct (strip_dashes _ _ Es) as [Ha Hd].
    assert (exists has_value, (match split_once 61%N stripped with
      | Some (head, _) => (lit "--" ++ head, true) | None => (lit "--" ++ stripped, false) end) =
      (long_name a, has_value) /\ (has_value = false -> a = long_name a)) as (has_value & Hf & Hv).
    { rewrite Ha, long_name_dashes. destruct (split_once 61%N stripped) as [[name value]|]; by eexists. }
    rewrite Hf in Hb. destruct (str_mem (long_name a) MUTATING_LONG_FLAGS) eqn:Em; [done|].
    destruct before as [|b before].
    { injection Heq as <- _. right. right. assert (is_flag a = true) as -> by by rewrite Ha.
      unfold harmless_branch_option. rewrite Hd. by apply str_mem_false. }
    injection Heq as <- Heq. destruct (str_mem (long_name a) SAFE_VALUE_FLAGS) eqn:Ev.
    { apply (Hnext _ _ Hb) with before; [|auto|done]. intros Hn%negb_true_iff.
      unfold takes_next. rewrite (Hv Hn). by apply str_mem_elem. }
    destruct (str_eqb (long_name a) (lit "--list")) eqn:El.
    { apply str_eqb_eq in El. apply (Hnext _ _ Hb) with before; [done|by right; left|done]. }
    by apply (Hnext _ _ Hb) with before; [done|left|].
  - assert (starts_with (lit "--") a = false) as Hd by by unfold starts_with; rewrite Es.
    destruct (is_flag a) eqn:Ea.
    + destruct (existsb _ _) eqn:Ex; [done|]. destruct before as [|b before].
      { injection Heq as <- _. right. right. rewrite Ea. unfold harmless_branch_option. rewrite Hd.
        apply Forall_forall. intros c Hc. apply char_mem_elem.
        rewrite existsb_false, Forall_forall in Ex. apply Ex in Hc. apply orb_false_iff in Hc as [_ Hc].
        by apply negb_false_iff in Hc. }
      injection Heq as <- Heq. apply (Hnext _ _ Hb) with before; [done| |done].
      intros [->|Hl%char_mem_elem]%orb_true_iff; [by left|]. right. by right.
    + destruct allow; [|done]. destruct before as [|b before].
      { injection Heq as <- _. right. right. rewrite Ea. by left. }
      injection Heq as <- Heq. by apply (Hnext _ _ Hb) with before; [done|left|].
Qed.

(** [git branch] is only shown as reading when no option changes branches, unless it stands
    where an option takes its value, and every name behind the options is a pattern. *)
Theorem branch_only_lists args before arg after :
  git_branch_is_read_only args = true -> args = before ++ arg :: after ->
  (exists before' option, before = before' ++ [option] /\ takes_next option) \/
  (if is_flag arg then harmless_branch_option arg else Exists lists_branches before).
Proof.
  intros Hr Heq.
  destruct (branch_from_spec args false false Hr before arg after Heq) as [[? _]|[H|H]];
    [done|by left|]. right. destruct (is_flag arg); [done|]. by destruct H.
Qed.

(** *** Consecutive duplicates *)

Lemma dedup_thinned prev l : thinned (fun _ => True) l (dedup_from prev l).
Proof.
  revert prev. induction l as [|c l IH]; intros prev; cbn [dedup_from]; [constructor|].
  destruct (decide (prev = Some c)); by constructor.
Qed.

Lemma dedup_distinct l : forall prev before a b after,
  dedup_from prev l = before ++ a :: b :: after -> a <> b.
Proof.
  assert (Hhead : forall l c d rest, dedup_from (Some c) l = d :: rest -> c <> d).
  { induction l0 as [|x l0 IH]; intros c d rest; cbn [dedup_from]; [done|].
    destruct (decide (Some c = Some x)) as [|Hne]; [apply IH|]. intros [= <- _] ->. done. }
  induction l as [|x l IH]; intros prev before a b after; cbn [dedup_from];
    [by destruct before|].
  destruct (decide (prev = Some x)); [apply IH|]. destruct before as [|c before].
  - intros [= <- Hd]. by apply Hhead in Hd.
  - intros [= <- Hd]. by apply (IH _ _ _ _ _ Hd).
Qed.

(** ** Runs *)

Module SummaryRuns.

(** [shlex] on texts without quotes, and a parser for scripts of plain words. *)
Definition split (s : str) : option (list str) := Some (split_whitespace s).
Definition try_join (tokens : list str) : option str := Some (join (lit " ") tokens).

Definition word_node (w : str) (at_byte : N) : node := Node (lit "word") true at_byte (Some w) [].

Definition command_node (words : list str) (at_byte : N) : node :=
  Node (lit "command") true at_byte None
    match words with
    | [] => []
    | w :: ws =>
        Node (lit "command_name") true at_byte None [word_node w at_byte] ::
        ((fun w => word_node w at_byte) <$> ws)
    end.

Fixpoint script_nodes (at_byte : N) (cur tokens : list str) : list node :=
  match tokens with
  | [] => match cur with [] => [] | _ => [command_node cur at_byte] end
  | t :: tokens =>
      if is_connector t then
        command_node cur at_byte :: Node t false (at_byte + 1) (Some t) [] ::
        script_nodes (at_byte + 2) [] tokens
      else script_nodes at_byte (cur ++ [t]) tokens
  end.

Definition parser (script : str) : option tree :=
  Some (Tree (Node (lit "program") true 0 None (script_nodes 0 [] (split_whitespace script)))
    false).

Definition parse (script : string) : list parsed_command :=
  parse_command split try_join parser [lit "bash"; lit "-lc"; lit script].

(** Comments announce the order of execution; the commands come out in the reverse order. *)
Example script_reversed :
  parse "rg --version && node -v && pnpm -v && rg --files | wc -l && rg --files | head -n 40" =
  [Unknown (lit "head -n 40"); Search (lit "rg --files") None None; Unknown (lit "pnpm -v");
   Unknown (lit "node -v"); Search (lit "rg --version") None None].
Proof. vm_compute. reflexivity. Qed.

(** A directory that a command runs in is left out when it comes first, which in a script
    is where the last command stands. *)
Example directory_kept :
  parse "cd foo && cat foo.txt" =
  [Read (lit "cat foo.txt") (lit "foo.txt"); Unknown (lit "cd foo")] /\
  parse "cat foo.txt && cd foo" = [Read (lit "cat foo.txt") (lit "foo.txt")].
Proof. vm_compute. by split. Qed.

Example tokens_in_order :
  parse_command split try_join parser
    [lit "cd"; lit "foo"; lit "&&"; lit "cat"; lit "foo.txt"; lit "||"; lit "true"] =
  [Read (lit "cat foo.txt") (lit "foo.txt")].
Proof. vm_compute. reflexivity. Qed.

Example summaries :
  parse "sed -n 1,20p src/webview/src/" = [Read (lit "sed -n 1,20p src/webview/src/") (lit "webview")] /\
  parse "ls --time-style=long-iso ./dist" =
    [ListFiles (lit "ls --time-style=long-iso ./dist") (Some (lit "."))] /\
  parse "git -C repo grep -n TODO -- src/lib.rs" =
    [Search (lit "git -C repo grep -n TODO -- src/lib.rs") (Some (lit "TODO")) (Some (lit "lib.rs"))] /\
  parse "find . -name foo | sort" = [Search (lit "find . -name foo") (Some (lit "foo")) (Some (lit "."))].
Proof. vm_compute. repeat split. Qed.

(** [--color] takes its value behind an equals sign only, so this changes the branch. *)
Example change_shown_as_reading :
  parse "git branch --color --unset-upstream" =
  [ReadCommand (lit "git branch --color --unset-upstream")].
Proof. vm_compute. reflexivity. Qed.

Local Notation script := (lit "cd src && cargo fmt && git status | wc -l").
Local Notation cs := [[lit "cd"; lit "src"]; [lit "cargo"; lit "fmt"]; [lit "git"; lit "status"];
  [lit "wc"; lit "-l"]].
Local Notation summarize := (summarize_main_tokens try_join).

Lemma script_summarised_witness :
  exists kept, thinned (fun pc => ignorable split pc = true)
      (summarize <$> reverse (drop_small_formatting_commands cs)) kept /\
    settled split kept /\
    without_text <$> kept = without_text <$>
      parse_command_impl split try_join parser [lit "bash"; lit "-lc"; script] /\
    (parse_command_impl split try_join parser [lit "bash"; lit "-lc"; script] = kept \/
     exists pc, kept = [pc] /\ shows_files pc = true).
Proof.
  exact (script_summarised split try_join parser [lit "bash"; lit "-lc"; script] 2 script
    (Tree (Node (lit "program") true 0 None (script_nodes 0 [] (split_whitespace script))) false) cs
    ltac:(vm_compute; reflexivity) ltac:(reflexivity) ltac:(vm_compute; reflexivity)
    ltac:(vm_compute; discriminate)).
Defined.

Lemma branch_only_lists_witness :
  (exists before' option, [lit "--sort"] = before' ++ [option] /\ takes_next option) \/
  (if is_flag (lit "-D") then harmless_branch_option (lit "-D") else
   Exists lists_branches [lit "--sort"]).
Proof.
  exact (branch_only_lists [lit "--sort"; lit "-D"; lit "--list"] [lit "--sort"] (lit "-D")
    [lit "--list"] ltac:(vm_compute; reflexivity) ltac:(reflexivity)).
Defined.
End SummaryRuns.
