(* ===== verification/DryRunGuard.v ===== *)
(** * The guard for dry runs

    [core/src/dry_run_guard.rs]: commands that rewrite files (formatters, fixers) are refused
    until a dry run of the same tool was executed since it last rewrote files, or the user
    confirmed.  [analyze_command] recognises such a command, [suggested_dry_run] is what the
    model is told to run first, and [DryRunGuardState] remembers what was executed.  The
    check is in [core/src/codex/streaming.rs], the recording in [core/src/codex/exec.rs].

    The command line is cut into commands by [ParseCommand], with its parameters; the
    guard looks at the first of them, which in a script is the last one that runs
    ([guard_reads_last]).

    A command that rewrites files is only executed behind a dry run of its tool
    ([rewrites_after_dry_run]), and what the model is told to run first is such a dry run, for
    every tool but three ([suggestion_unlocks]; the others are in [GuardRuns]). *)

From stdpp Require Import base list gmap.
From S2P Require Import Prelude Paths CommandSafety Approval ParseCommand.

Local Open Scope nat_scope.

(** ** Tools *)

Inductive package_manager := Npm | Pnpm | Yarn.

Inductive dry_run_guard_key :=
| CargoFmt | CargoFix | CargoClippyFix | Rustfmt
| PackageLint (m : package_manager)
| PackageFormat (m : package_manager)
| EslintFix | PrettierWrite | Black | RuffFormat | Isort | Gofmt | Rustywind | DartFormat
| SwiftFormat.

Inductive dry_run_disposition := DryRun | Mutating.

#[export] Instance package_manager_eq_dec : EqDecision package_manager.
Proof. solve_decision. Defined.
#[export] Instance dry_run_guard_key_eq_dec : EqDecision dry_run_guard_key.
Proof. solve_decision. Defined.
#[export] Instance dry_run_disposition_eq_dec : EqDecision dry_run_disposition.
Proof. solve_decision. Defined.

Definition manager_index (m : package_manager) : nat :=
  match m with Npm => 0 | Pnpm => 1 | Yarn => 2 end.

Definition all_keys : list dry_run_guard_key := [
  CargoFmt; CargoFix; CargoClippyFix; Rustfmt; PackageLint Npm; PackageLint Pnpm; PackageLint Yarn;
  PackageFormat Npm; PackageFormat Pnpm; PackageFormat Yarn; EslintFix; PrettierWrite; Black;
  RuffFormat; Isort; Gofmt; Rustywind; DartFormat; SwiftFormat].

Definition key_index (k : dry_run_guard_key) : nat :=
  match k with
  | CargoFmt => 0 | CargoFix => 1 | CargoClippyFix => 2 | Rustfmt => 3
  | PackageLint m => 4 + manager_index m
  | PackageFormat m => 7 + manager_index m
  | EslintFix => 10 | PrettierWrite => 11 | Black => 12 | RuffFormat => 13 | Isort => 14
  | Gofmt => 15 | Rustywind => 16 | DartFormat => 17 | SwiftFormat => 18
  end.

#[export] Instance dry_run_guard_key_countable : Countable dry_run_guard_key.
Proof.
  refine (inj_countable key_index (fun i => all_keys !! i) _).
  by intros [| | | |[]|[]| | | | | | | | |].
Defined.

Definition label (m : package_manager) : str :=
  match m with Npm => lit "npm" | Pnpm => lit "pnpm" | Yarn => lit "yarn" end.

(** ** Recognising a command *)

Record internal_analysis := InternalAnalysis {
  internal_key : dry_run_guard_key;
  internal_disposition : dry_run_disposition;
  internal_display_name : str;
  internal_suggested_dry_run : option str
}.

Record dry_run_analysis := DryRunAnalysis {
  key : dry_run_guard_key;
  disposition : dry_run_disposition;
  tokens : list str;
  display_name : str;
  custom_suggested_dry_run : option str
}.

Definition is_env_assignment (token : str) : bool :=
  str_contains (lit "=") token && negb (starts_with (lit "-") token) &&
  negb (starts_with (lit "=") token).

Definition is_wrapper (token : str) : bool :=
  str_mem token [lit "env"; lit "sudo"; lit "command"; lit "time"; lit "nohup"; lit "nice"].

(** [in_flags]: a wrapper was seen, and its flags are skipped. *)
Fixpoint strip_from (in_flags : bool) (tokens : list str) : list str :=
  match tokens with
  | [] => []
  | token :: rest =>
      if in_flags && starts_with (lit "-") token then strip_from true rest
      else if is_env_assignment token then strip_from false rest
      else if is_wrapper token then strip_from true rest
      else tokens
  end.

Definition strip_wrappers (tokens : list str) : list str := strip_from false tokens.

Definition command_basename (token : str) : str :=
  let trimmed := trim_matches 39%N (trim_matches 34%N token) in
  to_ascii_lowercase (default trimmed (file_name trimmed)).

Definition slice_contains_flag (args : list str) (flag : str) : bool :=
  existsb (fun arg => eq_ignore_ascii_case arg flag) args.

Definition disposition_of (is_dry : bool) : dry_run_disposition :=
  if is_dry then DryRun else Mutating.

Definition found (k : dry_run_guard_key) (is_dry : bool) (name : str) : option internal_analysis :=
  Some (InternalAnalysis k (disposition_of is_dry) name None).

Definition cargo_subcommand (sub : str) (args : list str) : option internal_analysis :=
  if str_eqb sub (lit "fmt") then
    found CargoFmt (slice_contains_flag args (lit "--check")) (lit "cargo fmt")
  else if str_eqb sub (lit "fix") then
    found CargoFix (slice_contains_flag args (lit "--dry-run")) (lit "cargo fix")
  else if str_eqb sub (lit "clippy") then
    if slice_contains_flag args (lit "--fix") then
      found CargoClippyFix (slice_contains_flag args (lit "--dry-run")) (lit "cargo clippy --fix")
    else None
  else None.

Definition analyze_cargo (tokens : list str) : option internal_analysis :=
  match tokens with
  | [] => None
  | t :: rest =>
      if negb (eq_ignore_ascii_case t (lit "cargo")) then None
      else
        match drop_while (starts_with (lit "+")) rest with
        | [] => None
        | sub :: args => cargo_subcommand (command_basename sub) args
        end
  end.

Definition analyze_rustfmt (tokens : list str) : option internal_analysis :=
  match tokens with
  | [] => None
  | t :: args =>
      if negb (eq_ignore_ascii_case t (lit "rustfmt")) then None
      else found Rustfmt (slice_contains_flag args (lit "--check")) (lit "rustfmt")
  end.

Fixpoint skip_leading_flags (tokens : list str) : list str :=
  match tokens with
  | [] => []
  | token :: rest =>
      if str_eqb token (lit "--") then rest
      else if starts_with (lit "-") token then skip_leading_flags rest
      else tokens
  end.

(** The tokens behind one runner of packages, if the tokens start with one. *)
Definition peel_one (tokens : list str) : option (list str) :=
  match tokens with
  | [] => None
  | t :: rest =>
      let base := command_basename t in
      if str_mem base [lit "npx"; lit "bunx"] then Some (skip_leading_flags rest)
      else
        match rest with
        | second :: rest =>
            if str_eqb base (lit "pnpm") && str_mem second [lit "exec"; lit "dlx"]
            then Some (skip_leading_flags rest)
            else if str_eqb base (lit "yarn") &&
                    str_mem (command_basename second) [lit "exec"; lit "dlx"]
            then Some (skip_leading_flags rest)
            else None
        | [] => None
        end
  end.

Fixpoint peel_loop (fuel : nat) (tokens : list str) : list str :=
  match fuel with
  | 0 => tokens
  | S fuel =>
      match peel_one tokens with
      | Some tokens => peel_loop fuel tokens
      | None => tokens
      end
  end.

(** Every runner takes at least one token. *)
Definition peel_exec_wrappers (tokens : list str) : list str := peel_loop (length tokens) tokens.

Definition analyze_formatter (actual : list str) : option internal_analysis :=
  match actual with
  | [] => None
  | t :: args =>
      let base := command_basename t in
      let any flag := slice_contains_flag actual (lit flag) in
      let is_format :=
        match args with second :: _ => eq_ignore_ascii_case second (lit "format") | [] => false end in
      if str_eqb base (lit "eslint") then
        if any "--fix" then
          found EslintFix (any "--fix-dry-run" || any "--dry-run") (lit "eslint --fix")
        else None
      else if str_eqb base (lit "prettier") then
        if any "--write" || str_mem (lit "-w") actual then
          found PrettierWrite (any "--check" || any "--list-different" || any "--dry-run")
            (lit "prettier --write")
        else None
      else if str_eqb base (lit "black") then found Black (any "--check") (lit "black")
      else if str_eqb base (lit "ruff") then
        if is_format then
          found RuffFormat (slice_contains_flag args (lit "--check")) (lit "ruff format")
        else None
      else if str_eqb base (lit "isort") then found Isort (any "--check-only") (lit "isort")
      else if str_eqb base (lit "gofmt") then
        if str_mem (lit "-w") actual || existsb (starts_with (lit "-w=")) actual then
          found Gofmt (str_mem (lit "-d") actual || str_mem (lit "-l") actual ||
                       str_mem (lit "-n") actual) (lit "gofmt -w")
        else None
      else if str_eqb base (lit "rustywind") then
        found Rustywind (any "--check") (lit "rustywind")
      else if str_eqb base (lit "dart") then
        if is_format then found DartFormat (any "--dry-run") (lit "dart format") else None
      else if str_eqb base (lit "swiftformat") then
        found SwiftFormat (any "--lint" || any "--dryrun") (lit "swiftformat")
      else None
  end.

Definition analyze_direct_formatter (tokens : list str) : option internal_analysis :=
  analyze_formatter (peel_exec_wrappers tokens).

(** The script and the tokens behind it. *)
Definition locate_package_script (tokens : list str) (m : package_manager)
    : option (str * list str) :=
  match m, tokens with
  | Npm, _ :: second :: rest =>
      if eq_ignore_ascii_case second (lit "run") then
        match rest with script :: args => Some (script, args) | [] => None end
      else Some (second, rest)
  | _, _ :: script :: args => Some (script, args)
  | _, _ => None
  end.

Definition dry_argument (arg : str) : bool :=
  let lower := to_ascii_lowercase arg in
  eq_ignore_ascii_case arg (lit "--check") || eq_ignore_ascii_case arg (lit "--dry-run") ||
  eq_ignore_ascii_case arg (lit "--no-fix") || str_contains (lit "fix=false") lower ||
  str_contains (lit "write=false") lower || str_contains (lit "mode=check") lower.

Definition analyze_script (m : package_manager) (script : str) (args : list str)
    : option internal_analysis :=
  let script_lower := to_ascii_lowercase script in
  let name := label m ++ lit " " ++ script in
  let is_dry := existsb dry_argument args in
  if str_contains (lit "lint") script_lower then found (PackageLint m) is_dry name
  else if str_contains (lit "format") script_lower || str_contains (lit "fmt") script_lower ||
          str_contains (lit "prettier") script_lower
  then found (PackageFormat m) is_dry name
  else None.

Definition analyze_package_manager (tokens : list str) (m : package_manager)
    : option internal_analysis :=
  match tokens with
  | [] => None
  | t :: _ =>
      if negb (eq_ignore_ascii_case t (label m)) then None
      else
        match locate_package_script tokens m with
        | None => None
        | Some (script, args) =>
            if eq_ignore_ascii_case script (lit "exec") || eq_ignore_ascii_case script (lit "dlx")
            then analyze_direct_formatter tokens
            else analyze_script m script args
        end
  end.

(** [a.or_else(b)] *)
Definition or_else {A} (a b : option A) : option A := match a with Some x => Some x | None => b end.

Definition analyze_tokens (tokens : list str) : option internal_analysis :=
  or_else (analyze_cargo tokens)
    (or_else (analyze_rustfmt tokens)
       (or_else (analyze_package_manager tokens Npm)
          (or_else (analyze_package_manager tokens Pnpm)
             (or_else (analyze_package_manager tokens Yarn)
                (analyze_direct_formatter tokens))))).

(** What [analyze_command] does with the tokens of the first command. *)
Definition analyze_first (first_tokens : list str) : option dry_run_analysis :=
  let tokens := strip_wrappers first_tokens in
  match tokens with
  | [] => None
  | _ =>
      (fun i => DryRunAnalysis (internal_key i) (internal_disposition i) tokens
                  (internal_display_name i) (internal_suggested_dry_run i)) <$>
      analyze_tokens tokens
  end.

Definition command_text (pc : parsed_command) : str :=
  match pc with
  | Read cmd _ | ListFiles cmd _ | Search cmd _ _ | ReadCommand cmd | Unknown cmd => cmd
  end.

Section analyze.
Context (shlex_split : str -> option (list str)).
Context (shlex_try_join : list str -> option str).
Context (try_parse_bash : str -> option tree).

Definition first_command_tokens (argv : list str) : option (list str) :=
  match parse_command_impl shlex_split shlex_try_join try_parse_bash argv with
  | [] => None
  | first :: _ =>
      let cmd := command_text first in
      Some (default (split_whitespace cmd) (shlex_split cmd))
  end.

Definition analyze_command (command : list str) : option dry_run_analysis :=
  match first_command_tokens command with
  | None => None
  | Some first_tokens => analyze_first first_tokens
  end.
End analyze.

(** ** What to run first *)

(** [Vec::insert] at the position of [--], or at the end. *)
Definition insert_before_dashes (tokens : list str) (flag : str) : list str :=
  match position (str_eqb (lit "--")) tokens with
  | Some pos => take pos tokens ++ flag :: drop pos tokens
  | None => tokens ++ [flag]
  end.

Definition suggest_cargo_fmt_dry_run (tokens : list str) : list str :=
  match position (str_eqb (lit "--")) tokens with
  | Some pos =>
      if slice_contains_flag (drop (pos + 1) tokens) (lit "--check") then tokens
      else take (pos + 1) tokens ++ lit "--check" :: drop (pos + 1) tokens
  | None => tokens ++ [lit "--"; lit "--check"]
  end.

Definition suggest_cargo_fix_dry_run (tokens : list str) : list str :=
  if slice_contains_flag tokens (lit "--dry-run") then tokens
  else insert_before_dashes tokens (lit "--dry-run").

(** The first [--fix] is removed. *)
Fixpoint suggest_cargo_clippy_dry_run (tokens : list str) : list str :=
  match tokens with
  | [] => []
  | t :: tokens =>
      if eq_ignore_ascii_case t (lit "--fix") then tokens
      else t :: suggest_cargo_clippy_dry_run tokens
  end.

Definition suggest_append_flag (flag : str) (tokens : list str) : list str :=
  if slice_contains_flag tokens flag then tokens else tokens ++ [flag].

Definition suggest_package_script_dry_run (preferred fallback : str) (tokens : list str) : list str :=
  if slice_contains_flag tokens preferred || slice_contains_flag tokens fallback then tokens
  else tokens ++ [lit "--"; preferred].

Definition suggest_eslint_fix_dry_run (tokens : list str) : list str :=
  if slice_contains_flag tokens (lit "--fix-dry-run") || slice_contains_flag tokens (lit "--dry-run")
  then tokens
  else insert_before_dashes tokens (lit "--fix-dry-run").

Definition is_write_flag (t : str) : bool :=
  eq_ignore_ascii_case t (lit "--write") || str_eqb t (lit "-w").

(** The first token that passes the test is replaced, or the flag appended. *)
Fixpoint replace_or_append (p : str -> bool) (flag : str) (tokens : list str) : list str :=
  match tokens with
  | [] => [flag]
  | t :: tokens => if p t then flag :: tokens else t :: replace_or_append p flag tokens
  end.

Definition suggest_prettier_write_dry_run (tokens : list str) : list str :=
  if slice_contains_flag tokens (lit "--check") || slice_contains_flag tokens (lit "--list-different")
  then tokens
  else replace_or_append is_write_flag (lit "--check") tokens.

Definition suggest_gofmt_dry_run (tokens : list str) : list str :=
  replace_or_append (fun t => str_eqb t (lit "-w") || starts_with (lit "-w=") t) (lit "-d") tokens.

Definition suggest_swiftformat_dry_run (tokens : list str) : list str :=
  if slice_contains_flag tokens (lit "--lint") || slice_contains_flag tokens (lit "--dryrun")
  then tokens
  else tokens ++ [lit "--lint"].

Definition suggested_tokens (k : dry_run_guard_key) (tokens : list str) : list str :=
  match k with
  | CargoFmt => suggest_cargo_fmt_dry_run tokens
  | CargoFix => suggest_cargo_fix_dry_run tokens
  | CargoClippyFix => suggest_cargo_clippy_dry_run tokens
  | Rustfmt => suggest_append_flag (lit "--check") tokens
  | PackageLint _ => suggest_package_script_dry_run (lit "--dry-run") (lit "--check") tokens
  | PackageFormat _ => suggest_package_script_dry_run (lit "--check") (lit "--dry-run") tokens
  | EslintFix => suggest_eslint_fix_dry_run tokens
  | PrettierWrite => suggest_prettier_write_dry_run tokens
  | Black | RuffFormat | Rustywind => suggest_append_flag (lit "--check") tokens
  | Isort => suggest_append_flag (lit "--check-only") tokens
  | Gofmt => suggest_gofmt_dry_run tokens
  | DartFormat => suggest_append_flag (lit "--dry-run") tokens
  | SwiftFormat => suggest_swiftformat_dry_run tokens
  end.

Definition suggested_dry_run (a : dry_run_analysis) : option str :=
  match custom_suggested_dry_run a with
  | Some custom => Some custom
  | None => Some (join (lit " ") (suggested_tokens (key a) (tokens a)))
  end.

(** ** What was executed *)

Record dry_run_guard_state := DryRunGuardState {
  command_counter : N;
  last_dry_run : gmap dry_run_guard_key N;
  last_mutating : gmap dry_run_guard_key N
}.

Definition new_guard : dry_run_guard_state := DryRunGuardState 0 ∅ ∅.

Definition has_recent_dry_run (s : dry_run_guard_state) (k : dry_run_guard_key) : bool :=
  match last_dry_run s !! k with
  | Some dry_seq => (default 0 (last_mutating s !! k) <? dry_seq)%N
  | None => false
  end.

Definition note_execution (a : dry_run_analysis) (s : dry_run_guard_state) : dry_run_guard_state :=
  let seq := saturating_add64 (command_counter s) 1 in
  match disposition a with
  | DryRun => DryRunGuardState seq (<[key a := seq]> (last_dry_run s)) (last_mutating s)
  | Mutating => DryRunGuardState seq (last_dry_run s) (<[key a := seq]> (last_mutating s))
  end.

(** ** The guard *)

(** A command as the session sees it: whether the user confirmed it, and its analysis. *)
Record guarded_command := GuardedCommand {
  has_confirm_prefix : bool;
  analysis : option dry_run_analysis
}.

Definition needs_dry_run (c : guarded_command) (s : dry_run_guard_state) : bool :=
  negb (has_confirm_prefix c) &&
  match analysis c with
  | Some a => bool_decide (disposition a = Mutating) && negb (has_recent_dry_run s (key a))
  | None => false
  end.

(** A command is refused, or executed and, when it has ended, recorded; commands run one
    after the other. *)
Definition submit_command (c : guarded_command) (s : dry_run_guard_state)
    : bool * dry_run_guard_state :=
  if needs_dry_run c s then (false, s)
  else (true, match analysis c with Some a => note_execution a s | None => s end).

(** The commands of a session that are executed. *)
Fixpoint executed (commands : list guarded_command) (s : dry_run_guard_state)
    : list guarded_command :=
  match commands with
  | [] => []
  | c :: commands =>
      let '(runs, s) := submit_command c s in
      if runs then c :: executed commands s else executed commands s
  end.

(** ** What the state remembers *)

(** The executions of a tool, in order. *)
Definition executions (k : dry_run_guard_key) (history : list dry_run_analysis)
    : list dry_run_analysis := filter (fun a => key a = k) history.

Definition last_disposition (k : dry_run_guard_key) (history : list dry_run_analysis)
    : option dry_run_disposition := disposition <$> last (executions k history).

Definition noted (history : list dry_run_analysis) : dry_run_guard_state :=
  foldl (fun s a => note_execution a s) new_guard history.

(** No recorded number is greater than the counter. *)
Definition numbered (s : dry_run_guard_state) : Prop :=
  (forall k n, last_dry_run s !! k = Some n -> (n <= command_counter s)%N) /\
  (forall k n, last_mutating s !! k = Some n -> (n <= command_counter s)%N).

Lemma note_numbered a s : (command_counter s < u64_max)%N -> numbered s ->
  numbered (note_execution a s) /\ command_counter (note_execution a s) = (command_counter s + 1)%N.
Proof.
  intros Hc [Hd Hm]. unfold note_execution.
  assert (saturating_add64 (command_counter s) 1 = (command_counter s + 1)%N) as ->
    by (unfold saturating_add64; lia).
  destruct (disposition a); (split; [|done]); split; cbn; intros k n Hk.
  - apply lookup_insert_Some in Hk as [[_ <-]|[_ Hk]]; [done|]. apply Hd in Hk. lia.
  - apply Hm in Hk. lia.
  - apply Hd in Hk. lia.
  - apply lookup_insert_Some in Hk as [[_ <-]|[_ Hk]]; [done|]. apply Hm in Hk. lia.
Qed.

Lemma note_recent a s k : (command_counter s < u64_max)%N -> numbered s ->
  has_recent_dry_run (note_execution a s) k =
  if decide (key a = k) then bool_decide (disposition a = DryRun) else has_recent_dry_run s k.
Proof.
  intros Hc [Hd Hm]. unfold note_execution, has_recent_dry_run.
  assert (saturating_add64 (command_counter s) 1 = (command_counter s + 1)%N) as ->
    by (unfold saturating_add64; lia).
  destruct (decide (key a = k)) as [<-|Hk], (disposition a); cbn.
  - rewrite lookup_insert_eq. destruct (last_mutating s !! key a) as [n|] eqn:E; cbn.
    + apply Hm in E. case_bool_decide; [|done]. by apply N.ltb_lt; lia.
    + by apply N.ltb_lt; lia.
  - rewrite lookup_insert_eq. cbn. destruct (last_dry_run s !! key a) as [n|] eqn:E; [|done].
    apply Hd in E. by apply N.ltb_ge; lia.
  - by rewrite lookup_insert_ne.
  - by rewrite lookup_insert_ne.
Qed.

Lemma noted_spec history : (N.of_nat (length history) <= u64_max)%N ->
  numbered (noted history) /\ command_counter (noted history) = N.of_nat (length history) /\
  forall k, has_recent_dry_run (noted history) k =
            bool_decide (last_disposition k history = Some DryRun).
Proof.
  induction history as [|a history IH] using rev_ind; intros Hl.
  { split; [|done]. by split; intros k n Hk; cbn in Hk; rewrite lookup_empty in Hk. }
  rewrite length_app in Hl |- *. cbn in Hl |- *.
  destruct IH as (Hn & Hc & Hr); [lia|]. unfold noted in *. rewrite foldl_snoc.
  destruct (note_numbered a _ ltac:(rewrite Hc; lia) Hn) as [Hn' Hc'].
  split; [done|]. split; [rewrite Hc', Hc; lia|]. intros k.
  rewrite note_recent by (done || rewrite Hc; lia).
  unfold last_disposition, executions in *. rewrite filter_app.
  destruct (decide (key a = k)) as [Hk|Hk].
  - rewrite (filter_cons_True _ a) by done. rewrite filter_nil, last_snoc. cbn.
    apply bool_decide_ext. split; [by intros ->|by intros [= ->]].
  - rewrite (filter_cons_False _ a) by done. by rewrite filter_nil, app_nil_r.
Qed.

(** A dry run is recent exactly when the last execution of the tool was one. *)
Lemma recent_dry_run_last history k : (N.of_nat (length history) <= u64_max)%N ->
  has_recent_dry_run (noted history) k = bool_decide (last_disposition k history = Some DryRun).
Proof. intros Hl. by apply noted_spec. Qed.

(** ** What the guard lets through *)

(** A command is in order after a history. *)
Definition in_order (history : list dry_run_analysis) (c : guarded_command) : Prop :=
  forall a, analysis c = Some a -> disposition a = Mutating -> has_confirm_prefix c = false ->
    last_disposition (key a) history = Some DryRun.

Lemma executed_in_order commands history before c after :
  (N.of_nat (length history + length commands) <= u64_max)%N ->
  executed commands (noted history) = before ++ c :: after ->
  in_order (history ++ omap analysis before) c.
Proof.
  revert history before. induction commands as [|d commands IH]; intros history before Hl He;
    cbn in He, Hl; [by destruct before|].
  unfold submit_command in He. destruct (needs_dry_run d (noted history)) eqn:En.
  { apply IH; [lia|done]. }
  destruct before as [|b before].
  - injection He as -> _. cbn. rewrite app_nil_r. intros a Ha Hm Hc.
    unfold needs_dry_run in En. rewrite Ha, Hc, bool_decide_true in En by done. cbn in En.
    apply negb_false_iff in En. rewrite recent_dry_run_last in En by lia.
    by apply bool_decide_eq_true in En.
  - injection He as -> He. cbn. destruct (analysis b) as [a|].
    + replace (history ++ a :: omap analysis before) with ((history ++ [a]) ++ omap analysis before)
        by by rewrite <- app_assoc.
      apply IH; [rewrite length_app; cbn; lia|]. unfold noted. by rewrite foldl_snoc.
    + apply IH; [lia|done].
Qed.

(** *** Plain calls of the tools, independently of the analysis *)

Inductive tool :=
| UseCargoFmt | UseCargoFix | UseCargoClippy | UseRustfmt | UseEslint | UsePrettier | UseBlack | UseRuff
| UseIsort | UseGofmt | UseRustywind | UseDart | UseSwiftFormat.

Definition key_of (t : tool) : dry_run_guard_key :=
  match t with
  | UseCargoFmt => CargoFmt | UseCargoFix => CargoFix | UseCargoClippy => CargoClippyFix
  | UseRustfmt => Rustfmt | UseEslint => EslintFix | UsePrettier => PrettierWrite | UseBlack => Black
  | UseRuff => RuffFormat | UseIsort => Isort | UseGofmt => Gofmt | UseRustywind => Rustywind
  | UseDart => DartFormat | UseSwiftFormat => SwiftFormat
  end.

Definition call_words (t : tool) : list str :=
  lit <$> match t with
  | UseCargoFmt => ["cargo"; "fmt"] | UseCargoFix => ["cargo"; "fix"]
  | UseCargoClippy => ["cargo"; "clippy"] | UseRustfmt => ["rustfmt"] | UseEslint => ["eslint"]
  | UsePrettier => ["prettier"] | UseBlack => ["black"] | UseRuff => ["ruff"; "format"]
  | UseIsort => ["isort"] | UseGofmt => ["gofmt"] | UseRustywind => ["rustywind"]
  | UseDart => ["dart"; "format"] | UseSwiftFormat => ["swiftformat"]
  end%string.

(** The flag without which the tool rewrites nothing. *)
Definition write_flag (t : tool) : option string :=
  match t with
  | UseCargoClippy | UseEslint => Some "--fix" | UsePrettier => Some "--write" | UseGofmt => Some "-w"
  | _ => None
  end%string.

(** The flags with which it only reports. *)
Definition report_flags (t : tool) : list string :=
  match t with
  | UseCargoFmt | UseRustfmt | UseBlack | UseRuff | UseRustywind => ["--check"]
  | UseCargoFix | UseCargoClippy | UseDart => ["--dry-run"]
  | UseEslint => ["--fix-dry-run"; "--dry-run"]
  | UsePrettier => ["--check"; "--list-different"; "--dry-run"]
  | UseIsort => ["--check-only"] | UseGofmt => ["-d"; "-l"; "-n"]
  | UseSwiftFormat => ["--lint"; "--dryrun"]
  end%string.

(** A flag is given, in upper or lower case except for [gofmt]. *)
Definition given (t : tool) (args : list str) (flag : string) : Prop :=
  exists a, a ∈ args /\
    match t with UseGofmt => a = lit flag | _ => to_ascii_lowercase a = lit flag end.

Definition would_write (t : tool) (args : list str) : Prop :=
  match write_flag t with Some flag => given t args flag | None => True end.
Definition only_reports (t : tool) (args : list str) : Prop :=
  exists flag, flag ∈ report_flags t /\ given t args flag.

Lemma given_flag t args flag : t <> UseGofmt -> to_ascii_lowercase (lit flag) = lit flag ->
  slice_contains_flag args (lit flag) = true <-> given t args flag.
Proof.
  intros Ht Hf. unfold slice_contains_flag, given. rewrite existsb_exists.
  apply exist_proper. intros a. rewrite list_elem_of_In. apply and_iff_compat_l.
  unfold eq_ignore_ascii_case. rewrite str_eqb_eq, Hf. by destruct t.
Qed.

Lemma given_exact args flag : str_mem (lit flag) args = true <-> given UseGofmt args flag.
Proof. rewrite str_mem_elem. unfold given. split; [by exists (lit flag)|by intros (a & ? & ->)]. Qed.

(** Whether a call only reports, as the analysis reads its arguments. *)
Definition reports (t : tool) (args : list str) : bool :=
  let any flag := slice_contains_flag args (lit flag) in
  match t with
  | UseCargoFmt | UseRustfmt | UseBlack | UseRuff | UseRustywind => any "--check"
  | UseCargoFix | UseCargoClippy | UseDart => any "--dry-run"
  | UseEslint => any "--fix-dry-run" || any "--dry-run"
  | UsePrettier => any "--check" || any "--list-different" || any "--dry-run"
  | UseIsort => any "--check-only"
  | UseGofmt => str_mem (lit "-d") args || str_mem (lit "-l") args || str_mem (lit "-n") args
  | UseSwiftFormat => any "--lint" || any "--dryrun"
  end%string.

Lemma reports_existsb t args : reports t args =
  existsb (fun flag => match t with
                       | UseGofmt => str_mem (lit flag) args
                       | _ => slice_contains_flag args (lit flag) end) (report_flags t).
Proof. destruct t; cbn [reports report_flags existsb]; by rewrite ?orb_false_r, ?orb_assoc. Qed.

Lemma reports_only t args : reports t args = true <-> only_reports t args.
Proof.
  rewrite reports_existsb, existsb_exists. unfold only_reports. apply exist_proper. intros flag.
  rewrite <- list_elem_of_In.
  enough (flag ∈ report_flags t -> match t with UseGofmt => str_mem (lit flag) args
    | _ => slice_contains_flag args (lit flag) end = true <-> given t args flag) as Hi
    by (split; intros [H1 H2]; (split; [done|by apply (Hi H1)])).
  intros Hf.
  assert (to_ascii_lowercase (lit flag) = lit flag) as Hl.
  { destruct t; repeat (apply elem_of_cons in Hf as [->|Hf]; [reflexivity|]); by apply elem_of_nil in Hf. }
  destruct t; try (by apply given_flag); apply given_exact.
Qed.

(** A call of a tool that would write is recognised, as a dry run exactly when it only reports. *)
Lemma analyze_call t args : would_write t args ->
  exists a, analyze_first (call_words t ++ args) = Some a /\ key a = key_of t /\
    (disposition a = DryRun <-> only_reports t args).
Proof.
  intros Hw.
  enough (exists name, analyze_tokens (call_words t ++ args) =
      Some (InternalAnalysis (key_of t) (disposition_of (reports t args)) name None)) as [name Ha].
  { assert (strip_wrappers (call_words t ++ args) = call_words t ++ args) as Hs by (by destruct t).
    unfold analyze_first. rewrite Hs. destruct (call_words t ++ args) eqn:E; [by destruct t|].
    rewrite Ha. eexists. split; [reflexivity|]. split; [done|].
    rewrite <- reports_only. cbn. by destruct (reports t args). }
  destruct t; unfold would_write in Hw; cbn [write_flag] in Hw.
  all: try (eexists; destruct args; reflexivity).
  - apply (given_flag UseCargoClippy) in Hw; [|done..]. exists (lit "cargo clippy --fix"). unfold analyze_tokens.
    assert (analyze_cargo (call_words UseCargoClippy ++ args) =
      if slice_contains_flag args (lit "--fix")
      then found CargoClippyFix (reports UseCargoClippy args) (lit "cargo clippy --fix") else None)
      as -> by reflexivity.
    by rewrite Hw.
  - apply (given_flag UseEslint) in Hw; [|done..]. exists (lit "eslint --fix").
    assert (analyze_tokens (call_words UseEslint ++ args) =
      if slice_contains_flag args (lit "--fix")
      then found EslintFix (reports UseEslint args) (lit "eslint --fix") else None)
      as -> by (destruct args; reflexivity).
    by rewrite Hw.
  - apply (given_flag UsePrettier) in Hw; [|done..]. exists (lit "prettier --write").
    assert (analyze_tokens (call_words UsePrettier ++ args) =
      if slice_contains_flag args (lit "--write") || str_mem (lit "-w") args
      then found PrettierWrite (reports UsePrettier args) (lit "prettier --write") else None)
      as -> by (destruct args; reflexivity).
    by rewrite Hw.
  - apply given_exact in Hw. exists (lit "gofmt -w").
    assert (analyze_tokens (call_words UseGofmt ++ args) =
      if str_mem (lit "-w") args || existsb (starts_with (lit "-w=")) args
      then found Gofmt (reports UseGofmt args) (lit "gofmt -w") else None)
      as -> by (destruct args; reflexivity).
    by rewrite Hw.
Qed.

(** The last element with a property. *)
Lemma last_filter_split {A} (P : A -> Prop) `{forall x, Decision (P x)} (l : list A) x :
  last (filter P l) = Some x -> exists pre post, l = pre ++ x :: post /\ P x /\ Forall (fun y => ~ P y) post.
Proof.
  induction l as [|y l IH] using rev_ind; [done|]. rewrite filter_app, filter_cons, filter_nil.
  destruct (decide (P y)) as [Hy|Hy].
  - rewrite last_snoc. intros [= ->]. by exists l, [].
  - rewrite app_nil_r. intros (pre & post & -> & Hx & Hp)%IH. exists pre, (post ++ [y]).
    rewrite <- app_assoc. split; [done|]. split; [done|]. apply Forall_app. by split; [|constructor].
Qed.

Lemma omap_split {A B} (g : A -> option B) (l : list A) pre x post : omap g l = pre ++ x :: post ->
  exists l1 y l2, l = l1 ++ y :: l2 /\ g y = Some x /\ omap g l2 = post.
Proof.
  revert pre. induction l as [|z l IH]; intros pre; cbn [omap list_omap]; [by destruct pre|].
  destruct (g z) as [w|] eqn:E.
  - destruct pre as [|p pre]; [intros [= -> <-]; by exists [], z, l|].
    intros [= _ (l1 & y & l2 & -> & Hy & Hp)%IH]. by exists (z :: l1), y, l2.
  - intros (l1 & y & l2 & -> & Hy & Hp)%IH. by exists (z :: l1), y, l2.
Qed.

(** What a command of the session counts as: a use of a tool, by its analysis. *)
Definition uses (k : dry_run_guard_key) (c : guarded_command) : Prop := key <$> analysis c = Some k.

(** C22: In a session of fewer than 2^64 commands that run one after the other, a plain call of
    one of thirteen formatters and fixers (its name, with its subcommand, and any arguments, as
    the first command the guard looks at) that has the flag it needs to write and none with
    which it only reports is only executed without a confirmation of the user when a command
    of the same tool was executed before; the last such command was analysed as a dry run, and
    when it was a plain call that could write it had a flag with which it only reports. *)
Theorem rewrites_after_dry_run commands before c after t args :
  (N.of_nat (length commands) <= u64_max)%N ->
  executed commands new_guard = before ++ c :: after ->
  analysis c = analyze_first (call_words t ++ args) -> would_write t args -> ~ only_reports t args ->
  has_confirm_prefix c = false ->
  exists earlier d between, before = earlier ++ d :: between /\ uses (key_of t) d /\
    Forall (fun b => ~ uses (key_of t) b) between /\
    (disposition <$> analysis d = Some DryRun) /\
    forall args', analysis d = analyze_first (call_words t ++ args') -> would_write t args' ->
      only_reports t args'.
Proof.
  intros Hl He Hc Hw Hr Hp. destruct (analyze_call t args Hw) as (a & Ha & Hk & Hd).
  assert (last_disposition (key a) (omap analysis before) = Some DryRun) as Hlast.
  { apply (executed_in_order commands [] before c after Hl He); [congruence| |done].
    destruct (disposition a); [by destruct Hr; apply Hd|done]. }
  rewrite Hk in Hlast. unfold last_disposition, executions in Hlast.
  apply fmap_Some in Hlast as (x & Hx & Hdx).
  apply last_filter_split in Hx as (pre & post & Hs & Hkx & Hpost).
  apply omap_split in Hs as (earlier & d & between & -> & Hd' & Hb).
  exists earlier, d, between. unfold uses. split; [done|]. split; [rewrite Hd'; cbn; by rewrite Hkx|].
  split; [|split; [rewrite Hd'; cbn; by rewrite <- Hdx|]].
  - apply Forall_forall. intros b Hin (y & Hy & Hky)%fmap_Some. rewrite Forall_forall in Hpost.
    apply (Hpost y); [|done]. rewrite <- Hb. apply list_elem_of_omap. by exists b.
  - intros args' Hargs Hw'. destruct (analyze_call t args' Hw') as (a' & Ha' & _ & Hd2).
    apply Hd2. rewrite Hargs, Ha' in Hd'. by injection Hd' as ->.
Qed.

(** ** What the suggestions lead to *)

(** The flags that make a command of a tool a dry run. *)
Definition dry_flags (k : dry_run_guard_key) : list str :=
  match k with
  | CargoFmt | Rustfmt | Black | RuffFormat | Rustywind => [lit "--check"]
  | CargoFix | CargoClippyFix | DartFormat => [lit "--dry-run"]
  | PackageLint _ | PackageFormat _ => [lit "--check"; lit "--dry-run"]
  | EslintFix => [lit "--fix-dry-run"; lit "--dry-run"]
  | PrettierWrite => [lit "--check"; lit "--list-different"]
  | Isort => [lit "--check-only"]
  | Gofmt => [lit "-d"; lit "-l"; lit "-n"]
  | SwiftFormat => [lit "--lint"; lit "--dryrun"]
  end.

Definition mentions_dry_flag (k : dry_run_guard_key) (tokens : list str) : bool :=
  existsb (slice_contains_flag tokens) (dry_flags k).

Definition as_dry_run (i : internal_analysis) : internal_analysis :=
  InternalAnalysis (internal_key i) DryRun (internal_display_name i) (internal_suggested_dry_run i).

(** *** Flags *)

Lemma contains_flag_app l1 l2 flag :
  slice_contains_flag (l1 ++ l2) flag = slice_contains_flag l1 flag || slice_contains_flag l2 flag.
Proof. apply existsb_app. Qed.

Lemma same_name t a b :
  eq_ignore_ascii_case t a = true -> eq_ignore_ascii_case t b = eq_ignore_ascii_case a b.
Proof. unfold eq_ignore_ascii_case. by intros ->%str_eqb_eq. Qed.

Lemma ascii_lower_letter c x : (97 <=? x)%N = true -> ascii_lower c = x -> c = x \/ c = (x - 32)%N.
Proof. unfold ascii_lower. intros Hx. destruct (_ && _) eqn:E; lia. Qed.

(** A name that equals one of these words is its own base name. *)
Lemma basename_of_name t name :
  name ∈ [lit "cargo"; lit "rustfmt"; lit "npm"; lit "pnpm"; lit "yarn"] ->
  eq_ignore_ascii_case t name = true -> command_basename t = name.
Proof.
  intros Hn [=Ht]%str_eqb_eq. unfold to_ascii_lowercase in Ht.
  assert (Hall : Forall (fun x => (97 <=? x)%N = true) name /\ ascii_lower <$> name = name).
  { repeat (apply elem_of_cons in Hn as [->|Hn]; [by split; [repeat constructor|]|]).
    by apply elem_of_nil in Hn. }
  destruct Hall as [Hall Hlow]. rewrite Hlow in Ht.
  assert (Hc : Forall2 (fun c x => c = x \/ c = (x - 32)%N) t name).
  { clear Hn Hlow. subst name. induction t as [|c t IH]; [constructor|].
    apply Forall_cons in Hall as [Hx Hall]. constructor; [by apply ascii_lower_letter|by apply IH]. }
  clear Ht Hall Hlow.
  repeat (apply elem_of_cons in Hn as [->|Hn]; [
    repeat match goal with
    | H : Forall2 _ _ _ |- _ => apply Forall2_cons_inv_r in H as (? & ? & [->| ->] & H & ->) || apply Forall2_nil_inv_r in H as ->
    end; vm_compute; reflexivity |]).
  by apply elem_of_nil in Hn.
Qed.

(** *** [cargo] *)

Lemma position_skip {A} (p : A -> bool) (l1 l2 : list A) : Forall (fun x => p x = false) l1 ->
  position p (l1 ++ l2) = (fun n => length l1 + n) <$> position p l2.
Proof.
  induction 1 as [|x l1 Hx _ IH]; cbn [app position length].
  - by destruct (position p l2).
  - rewrite Hx, IH. by destruct (position p l2).
Qed.

Definition is_dashes : str -> bool := str_eqb (lit "--").

Lemma insert_skip l1 l2 flag : Forall (fun x => is_dashes x = false) l1 ->
  insert_before_dashes (l1 ++ l2) flag = l1 ++ insert_before_dashes l2 flag.
Proof.
  intros Hl. unfold insert_before_dashes. fold is_dashes. rewrite position_skip by done.
  destruct (position is_dashes l2) as [n|]; cbn; [|by rewrite app_assoc].
  rewrite take_app_add, drop_app_add. by rewrite <- app_assoc.
Qed.

Lemma insert_contains l flag : eq_ignore_ascii_case flag flag = true ->
  slice_contains_flag (insert_before_dashes l flag) flag = true.
Proof.
  intros Hf. unfold insert_before_dashes. destruct (position _ l); rewrite contains_flag_app; cbn;
    rewrite Hf; by rewrite orb_true_r.
Qed.

Lemma plus_not_dashes x : starts_with (lit "+") x = true -> is_dashes x = false.
Proof.
  intros Hx. apply not_true_iff_false. intros <-%str_eqb_eq. done.
Qed.

Lemma drop_while_spec {A} (p : A -> bool) l x rest : drop_while p l = x :: rest ->
  exists before, l = before ++ x :: rest /\ Forall (fun y => p y = true) before /\ p x = false.
Proof.
  induction l as [|y l IH]; [done|]. cbn. destruct (p y) eqn:Ey.
  - intros (before & -> & Hb & Hx)%IH. exists (y :: before). split; [done|]. by split; [constructor|].
  - intros [= -> ->]. by exists [].
Qed.

Lemma drop_while_before {A} (p : A -> bool) before x rest :
  Forall (fun y => p y = true) before -> p x = false ->
  drop_while p (before ++ x :: rest) = x :: rest.
Proof.
  intros Hb Hx. induction Hb as [|y before Hy _ IH]; cbn; [by rewrite Hx|by rewrite Hy].
Qed.

(** The tokens of a command that [analyze_cargo] recognises. *)
Lemma cargo_shape tokens i : analyze_cargo tokens = Some i ->
  exists before sub args, tokens = before ++ args /\
    Forall (fun x => is_dashes x = false) before /\
    cargo_subcommand (command_basename sub) args = Some i /\
    forall args, analyze_cargo (before ++ args) = cargo_subcommand (command_basename sub) args.
Proof.
  destruct tokens as [|t rest]; [done|]. unfold analyze_cargo at 1.
  destruct (eq_ignore_ascii_case t (lit "cargo")) eqn:Et; [|done].
  cbn [negb]. destruct (drop_while _ rest) as [|sub args] eqn:Ed; [done|].
  apply drop_while_spec in Ed as (pluses & -> & Hp & Hs). intros Hi.
  exists (t :: pluses ++ [sub]), sub, args. split; [cbn; by rewrite <- app_assoc|].
  split; [|split; [done|]].
  - constructor; [|apply Forall_app; split].
    + apply not_true_iff_false. by intros <-%str_eqb_eq.
    + eapply Forall_impl; [exact Hp|]. apply plus_not_dashes.
    + constructor; [|done]. apply not_true_iff_false. intros <-%str_eqb_eq. by vm_compute in Hi.
  - intros args'. replace ((t :: pluses ++ [sub]) ++ args') with (t :: pluses ++ sub :: args')
      by (cbn; by rewrite <- app_assoc).
    unfold analyze_cargo. rewrite Et. cbn [negb]. by rewrite drop_while_before.
Qed.

Lemma cargo_fmt_check l :
  slice_contains_flag (suggest_cargo_fmt_dry_run l) (lit "--check") = true.
Proof.
  unfold suggest_cargo_fmt_dry_run. fold is_dashes.
  destruct (position is_dashes l) as [n|].
  - destruct (slice_contains_flag (drop (n + 1) l) (lit "--check")) eqn:E.
    + rewrite <- (take_drop (n + 1) l), contains_flag_app, E. apply orb_true_r.
    + rewrite contains_flag_app. cbn. apply orb_true_r.
  - rewrite contains_flag_app. apply orb_true_r.
Qed.

Lemma fmt_skip l1 l2 : Forall (fun x => is_dashes x = false) l1 ->
  suggest_cargo_fmt_dry_run (l1 ++ l2) = l1 ++ suggest_cargo_fmt_dry_run l2.
Proof.
  intros Hl. unfold suggest_cargo_fmt_dry_run. fold is_dashes. rewrite position_skip by done.
  destruct (position is_dashes l2) as [n|]; cbn -[slice_contains_flag lit];
    [|by rewrite app_assoc].
  replace (length l1 + n + 1) with (length l1 + (n + 1)) by lia.
  rewrite take_app_add, drop_app_add.
  destruct (slice_contains_flag _ _); [done|by rewrite <- app_assoc].
Qed.

Lemma cargo_unlocks tokens i : analyze_cargo tokens = Some i ->
  internal_key i <> CargoClippyFix -> mentions_dry_flag (internal_key i) tokens = false ->
  analyze_cargo (suggested_tokens (internal_key i) tokens) = Some (as_dry_run i).
Proof.
  intros (before & sub & args & -> & Hb & Hi & Hs)%cargo_shape Hk Hm.
  unfold cargo_subcommand in Hi.
  destruct (str_eqb _ (lit "fmt")) eqn:Ef; [|destruct (str_eqb _ (lit "fix")) eqn:Ex;
    [|unfold found in Hi; repeat case_match; simplify_eq; by destruct Hk]].
  - injection Hi as <-. cbn [internal_key suggested_tokens]. rewrite fmt_skip, Hs by done.
    unfold cargo_subcommand. by rewrite Ef, cargo_fmt_check.
  - injection Hi as <-. cbn [internal_key suggested_tokens] in *. unfold suggest_cargo_fix_dry_run.
    apply orb_false_iff in Hm as [-> _]. rewrite insert_skip, Hs by done.
    unfold cargo_subcommand. by rewrite Ef, Ex, insert_contains.
Qed.

(** *** Formatters *)

Definition formatter_keys : list dry_run_guard_key :=
  [EslintFix; Black; RuffFormat; Isort; Rustywind; DartFormat; SwiftFormat].

Lemma contains_flag_snoc l flag f :
  slice_contains_flag (l ++ [flag]) f = slice_contains_flag l f || eq_ignore_ascii_case flag f.
Proof. rewrite contains_flag_app. cbn. by rewrite orb_false_r. Qed.

(** One formatter: its own tests decide [Hi], its key [Hk] and the flag [Hf]. *)
Ltac formatter_case Hi Hk Hf :=
  repeat match type of Hi with
  | (if ?b then _ else None) = Some _ => destruct b eqn:?; [|discriminate Hi]
  end;
  try match goal with H : true = true -> _ |- _ => specialize (H eq_refl) end;
  injection Hi as <-;
  cbn [internal_key dry_flags] in Hk, Hf;
  try (exfalso; unfold formatter_keys in Hk;
       repeat (apply elem_of_cons in Hk as [Hk|Hk]; [discriminate Hk|]);
       by apply elem_of_nil in Hk);
  repeat (apply elem_of_cons in Hf as [->|Hf]; [
    repeat match goal with
    | H : ?b = true |- context [?b] => rewrite H
    end;
    match goal with
    | |- context [eq_ignore_ascii_case ?a ?a] => change (eq_ignore_ascii_case a a) with true
    end; cbn [orb]; rewrite ?orb_true_r; reflexivity|]);
  by apply elem_of_nil in Hf.

Lemma formatter_append actual i flag : analyze_formatter actual = Some i ->
  internal_key i ∈ formatter_keys -> flag ∈ dry_flags (internal_key i) ->
  analyze_formatter (actual ++ [flag]) = Some (as_dry_run i).
Proof.
  destruct actual as [|t args]; [done|]. intros Hi Hk Hf.
  change ((t :: args) ++ [flag]) with (t :: (args ++ [flag])).
  unfold analyze_formatter in Hi |- *. change (t :: args ++ [flag]) with ((t :: args) ++ [flag]).
  rewrite !contains_flag_snoc.
  assert (Hformat : match args with [] => false | s :: _ => eq_ignore_ascii_case s (lit "format") end
    = true -> match args ++ [flag] with [] => false
              | s :: _ => eq_ignore_ascii_case s (lit "format") end = true) by by destruct args.
  unfold found in *.
  repeat (destruct (str_eqb _ _); [formatter_case Hi Hk Hf|]). done.
Qed.

(** *** Runners of packages *)

Lemma skip_flags_length tokens : length (skip_leading_flags tokens) <= length tokens.
Proof.
  induction tokens as [|t tokens IH]; [done|]. cbn.
  destruct (str_eqb t (lit "--")); [lia|]. destruct (starts_with (lit "-") t); cbn; lia.
Qed.

Lemma skip_flags_append tokens flag : skip_leading_flags tokens <> [] ->
  skip_leading_flags (tokens ++ [flag]) = skip_leading_flags tokens ++ [flag].
Proof.
  induction tokens as [|t tokens IH]; [done|]. cbn -[lit].
  destruct (str_eqb t (lit "--")); [done|]. by destruct (starts_with (lit "-") t).
Qed.

Lemma peel_one_length tokens rest : peel_one tokens = Some rest -> length rest < length tokens.
Proof.
  destruct tokens as [|t [|second tokens]]; [done|..]; cbn -[lit command_basename str_mem skip_leading_flags].
  - destruct (str_mem _ _); [|done]. intros [= <-]. cbn. lia.
  - intros Hr.
    assert (rest = skip_leading_flags (second :: tokens) \/ rest = skip_leading_flags tokens)
      as [-> | ->] by (repeat case_match; simplify_eq; auto).
    + pose proof (skip_flags_length (second :: tokens)). cbn in *. lia.
    + pose proof (skip_flags_length tokens). lia.
Qed.

Lemma peel_one_append tokens rest flag : peel_one tokens = Some rest -> rest <> [] ->
  peel_one (tokens ++ [flag]) = Some (rest ++ [flag]).
Proof.
  destruct tokens as [|t [|second tokens]]; [done|..]; cbn -[lit command_basename str_mem skip_leading_flags].
  - destruct (str_mem _ _); [|done]. by intros [= <-].
  - intros Hr Hne. change (second :: tokens ++ [flag]) with ((second :: tokens) ++ [flag]).
    repeat case_match; simplify_eq; f_equal; by apply skip_flags_append.
Qed.

(** A flag does not make a runner of the tokens before it. *)
Definition plain_flag (flag : str) : bool :=
  negb (str_mem flag [lit "exec"; lit "dlx"]) &&
  negb (str_mem (command_basename flag) [lit "exec"; lit "dlx"]).

Lemma peel_none_append tokens flag : plain_flag flag = true -> tokens <> [] ->
  peel_one tokens = None -> peel_one (tokens ++ [flag]) = None.
Proof.
  intros [Hf Hb]%andb_true_iff Hne. apply negb_true_iff in Hf, Hb.
  destruct tokens as [|t [|second tokens]]; [done|..]; cbn -[lit command_basename str_mem skip_leading_flags].
  - destruct (str_mem (command_basename t) _); [done|]. by rewrite Hf, Hb, !andb_false_r.
  - by repeat case_match.
Qed.

Lemma peel_loop_nil fuel : peel_loop fuel [] = [].
Proof. by destruct fuel. Qed.

Lemma peel_loop_append fuel tokens flag : plain_flag flag = true -> length tokens <= fuel ->
  peel_loop fuel tokens <> [] ->
  peel_loop (S fuel) (tokens ++ [flag]) = peel_loop fuel tokens ++ [flag].
Proof.
  intros Hf. revert tokens. induction fuel as [|fuel IH]; intros tokens Hl Hne.
  { by destruct tokens; [|cbn in Hl; lia]. }
  rewrite (eq_refl : peel_loop (S (S fuel)) (tokens ++ [flag]) =
    match peel_one (tokens ++ [flag]) with
    | Some rest => peel_loop (S fuel) rest | None => tokens ++ [flag] end).
  cbn [peel_loop] in Hne |- *. destruct (peel_one tokens) as [rest|] eqn:Ep.
  - assert (rest <> []) by (intros ->; by rewrite peel_loop_nil in Hne).
    rewrite (peel_one_append _ _ _ Ep) by done. apply peel_one_length in Ep. apply IH; [lia|done].
  - rewrite peel_none_append; [done..| |done]. intros ->. done.
Qed.

Lemma peel_append tokens flag : plain_flag flag = true -> peel_exec_wrappers tokens <> [] ->
  peel_exec_wrappers (tokens ++ [flag]) = peel_exec_wrappers tokens ++ [flag].
Proof.
  intros Hf Hne. unfold peel_exec_wrappers. rewrite length_app, Nat.add_comm.
  by apply peel_loop_append.
Qed.

Lemma direct_append tokens i flag : analyze_direct_formatter tokens = Some i ->
  internal_key i ∈ formatter_keys -> flag ∈ dry_flags (internal_key i) ->
  plain_flag flag = true ->
  analyze_direct_formatter (tokens ++ [flag]) = Some (as_dry_run i).
Proof.
  unfold analyze_direct_formatter. intros Hi Hk Hf Hp.
  rewrite peel_append; [by apply formatter_append|done|]. intros Hn. by rewrite Hn in Hi.
Qed.

(** *** The analyser that finds a tool *)

(** Membership in a concrete list. *)
Ltac listed := apply (bool_decide_unpack _); vm_compute; exact I.

Lemma runner_base t rest base : command_basename t = base ->
  str_mem base [lit "npx"; lit "bunx"] = false -> str_eqb base (lit "pnpm") = false ->
  str_eqb base (lit "yarn") = false -> peel_exec_wrappers (t :: rest) = t :: rest.
Proof.
  intros <- Hx Hp Hy. unfold peel_exec_wrappers. cbn -[lit command_basename str_mem peel_one].
  assert (peel_one (t :: rest) = None) as ->; [|done].
  unfold peel_one. rewrite Hx, Hp, Hy. by destruct rest.
Qed.

Lemma direct_other_tool t rest name : name ∈ [lit "cargo"; lit "rustfmt"; lit "npm"] ->
  eq_ignore_ascii_case t name = true -> analyze_direct_formatter (t :: rest) = None.
Proof.
  intros Hn Ht. assert (command_basename t = name) as Hb.
  { apply basename_of_name; [|done]. set_solver. }
  unfold analyze_direct_formatter.
  repeat (apply elem_of_cons in Hn as [->|Hn];
    [by rewrite (runner_base t rest _ Hb); [unfold analyze_formatter; rewrite Hb|..]|]).
  by apply elem_of_nil in Hn.
Qed.

Lemma direct_step t rest : analyze_direct_formatter (t :: rest) =
  analyze_formatter match peel_one (t :: rest) with
                    | Some rest' => peel_loop (length rest) rest' | None => t :: rest end.
Proof. reflexivity. Qed.

(** [pnpm] and [yarn] have something to run. *)
Lemma direct_pnpm t rest i : analyze_direct_formatter (t :: rest) = Some i ->
  eq_ignore_ascii_case t (lit "pnpm") = true ->
  exists second rest', rest = second :: rest' /\ str_mem second [lit "exec"; lit "dlx"] = true.
Proof.
  rewrite direct_step. intros Hi Ht.
  pose proof (basename_of_name t (lit "pnpm") ltac:(listed) Ht) as Hb.
  unfold peel_one in Hi. rewrite Hb in Hi. cbn -[analyze_formatter lit str_mem] in Hi.
  change (str_mem (lit "pnpm") _) with false in Hi. cbn -[analyze_formatter lit str_mem] in Hi.
  destruct rest as [|second rest]; [unfold analyze_formatter in Hi; by rewrite Hb in Hi|].
  exists second, rest. split; [done|]. destruct (str_mem second _) eqn:Es; [done|].
  change (str_eqb (lit "pnpm") (lit "yarn")) with false in Hi. rewrite andb_false_r in Hi.
  cbn -[analyze_formatter lit str_mem] in Hi. unfold analyze_formatter in Hi. by rewrite Hb in Hi.
Qed.

Lemma direct_yarn t rest i : analyze_direct_formatter (t :: rest) = Some i ->
  eq_ignore_ascii_case t (lit "yarn") = true -> rest <> [].
Proof.
  rewrite direct_step. intros Hi Ht ->.
  pose proof (basename_of_name t (lit "yarn") ltac:(listed) Ht) as Hb.
  unfold peel_one in Hi. rewrite Hb in Hi. change (str_mem (lit "yarn") _) with false in Hi.
  cbn -[analyze_formatter] in Hi. unfold analyze_formatter in Hi. by rewrite Hb in Hi.
Qed.

Definition formatter_key (k : dry_run_guard_key) : bool :=
  match k with
  | CargoFmt | CargoFix | CargoClippyFix | Rustfmt | PackageLint _ | PackageFormat _ => false
  | _ => true
  end.

Lemma direct_key tokens i : analyze_direct_formatter tokens = Some i ->
  formatter_key (internal_key i) = true.
Proof.
  unfold analyze_direct_formatter, analyze_formatter, found.
  intros Hi. repeat case_match; by simplify_eq.
Qed.

Lemma cargo_key tokens i : analyze_cargo tokens = Some i ->
  internal_key i = CargoFmt \/ internal_key i = CargoFix \/ internal_key i = CargoClippyFix.
Proof.
  intros (before & sub & args & _ & _ & Hi & _)%cargo_shape. unfold cargo_subcommand, found in Hi.
  repeat case_match; simplify_eq; auto.
Qed.

Lemma script_key m script args i : analyze_script m script args = Some i ->
  internal_key i = PackageLint m \/ internal_key i = PackageFormat m.
Proof. unfold analyze_script, found. intros Hi. repeat case_match; simplify_eq; auto. Qed.

(** A script of a package manager. *)
Definition runs_script (tokens : list str) (m : package_manager) (script : str) (args : list str)
    : Prop :=
  (exists t rest, tokens = t :: rest /\ eq_ignore_ascii_case t (label m) = true) /\
  locate_package_script tokens m = Some (script, args) /\
  eq_ignore_ascii_case script (lit "exec") || eq_ignore_ascii_case script (lit "dlx") = false.

Lemma runs_script_analysis tokens m script args : runs_script tokens m script args ->
  analyze_package_manager tokens m = analyze_script m script args.
Proof.
  intros ((t & rest & -> & Ht) & Hl & Hx). unfold analyze_package_manager.
  by rewrite Ht, Hl, Hx.
Qed.

Lemma package_manager_cases tokens m i : analyze_package_manager tokens m = Some i ->
  analyze_direct_formatter tokens = Some i \/
  exists script args, runs_script tokens m script args /\ analyze_script m script args = Some i.
Proof.
  unfold analyze_package_manager. destruct tokens as [|t rest]; [done|].
  destruct (eq_ignore_ascii_case t (label m)) eqn:Et; [|done]. cbn [negb].
  destruct (locate_package_script (t :: rest) m) as [[script args]|] eqn:El; [|done].
  destruct (_ || _) eqn:Ex; [by left|]. right. exists script, args. split; [|done].
  split; [by exists t, rest|done].
Qed.

(** Only one of the analysers of tools looks at a command. *)
Lemma only_manager t rest m : eq_ignore_ascii_case t (label m) = true ->
  analyze_package_manager (t :: rest) m <> None ->
  analyze_tokens (t :: rest) = analyze_package_manager (t :: rest) m.
Proof.
  intros Ht Hs. unfold analyze_tokens.
  assert (forall name, eq_ignore_ascii_case t name = eq_ignore_ascii_case (label m) name) as Hn
    by (intros; by apply same_name).
  assert (analyze_cargo (t :: rest) = None) as -> by (cbn -[lit]; rewrite Hn; by destruct m).
  assert (analyze_rustfmt (t :: rest) = None) as -> by (cbn -[lit]; rewrite Hn; by destruct m).
  assert (forall m', m' <> m -> analyze_package_manager (t :: rest) m' = None) as Hm.
  { intros m' Hm. unfold analyze_package_manager. rewrite Hn. by destruct m, m'. }
  cbn [or_else].
  destruct m; [rewrite (Hm Pnpm), (Hm Yarn) by done|rewrite (Hm Npm), (Hm Yarn) by done
    |rewrite (Hm Npm), (Hm Pnpm) by done]; cbn [or_else];
    by destruct (analyze_package_manager (t :: rest) _).
Qed.

Lemma analyzer_of_key tokens i : analyze_tokens tokens = Some i ->
  match internal_key i with
  | CargoFmt | CargoFix | CargoClippyFix => analyze_cargo tokens = Some i
  | Rustfmt => analyze_rustfmt tokens = Some i
  | PackageLint m | PackageFormat m =>
      exists script args, runs_script tokens m script args /\ analyze_script m script args = Some i
  | _ => analyze_direct_formatter tokens = Some i
  end.
Proof.
  assert (Hd : analyze_direct_formatter tokens = Some i ->
    match internal_key i with
    | CargoFmt | CargoFix | CargoClippyFix | Rustfmt | PackageLint _ | PackageFormat _ => False
    | _ => analyze_direct_formatter tokens = Some i end).
  { intros Hi. pose proof (direct_key _ _ Hi). by destruct (internal_key i). }
  assert (Hm : forall m, analyze_package_manager tokens m = Some i ->
    match internal_key i with
    | CargoFmt | CargoFix | CargoClippyFix | Rustfmt => False
    | PackageLint m | PackageFormat m => exists script args,
        runs_script tokens m script args /\ analyze_script m script args = Some i
    | _ => analyze_direct_formatter tokens = Some i end).
  { intros m [Hi|(script & args & Hr & Hs)]%package_manager_cases.
    - apply Hd in Hi. by destruct (internal_key i).
    - destruct (script_key _ _ _ _ Hs) as [-> | ->]; by exists script, args. }
  unfold analyze_tokens, or_else.
  destruct (analyze_cargo tokens) eqn:Ec.
  { intros [= ->]. by destruct (cargo_key _ _ Ec) as [-> |[-> | ->]]. }
  destruct (analyze_rustfmt tokens) eqn:Er.
  { intros [= ->]. unfold analyze_rustfmt, found in Er. repeat case_match; by simplify_eq. }
  destruct (analyze_package_manager tokens Npm) eqn:En.
  { intros [= ->]. apply Hm in En. by destruct (internal_key i). }
  destruct (analyze_package_manager tokens Pnpm) eqn:Ep.
  { intros [= ->]. apply Hm in Ep. by destruct (internal_key i). }
  destruct (analyze_package_manager tokens Yarn) eqn:Ey.
  { intros [= ->]. apply Hm in Ey. by destruct (internal_key i). }
  intros Hi. apply Hd in Hi. by destruct (internal_key i).
Qed.

(** *** A formatter *)

Lemma eq_name_exec s : str_mem s [lit "exec"; lit "dlx"] = true ->
  eq_ignore_ascii_case s (lit "exec") || eq_ignore_ascii_case s (lit "dlx") = true.
Proof.
  intros [->|[->|[]%elem_of_nil]%elem_of_cons]%str_mem_elem%elem_of_cons; reflexivity.
Qed.

Lemma manager_here t rest m script args : eq_ignore_ascii_case t (label m) = true ->
  locate_package_script (t :: rest) m = Some (script, args) ->
  analyze_package_manager (t :: rest) m =
    if eq_ignore_ascii_case script (lit "exec") || eq_ignore_ascii_case script (lit "dlx")
    then analyze_direct_formatter (t :: rest) else analyze_script m script args.
Proof. intros Ht Hl. unfold analyze_package_manager. by rewrite Ht, Hl. Qed.

Lemma script_none m script args args' : analyze_script m script args = None ->
  analyze_script m script args' = None.
Proof. unfold analyze_script. by repeat case_match. Qed.

Lemma formatter_unlocks tokens i flag : analyze_tokens tokens = Some i ->
  internal_key i ∈ formatter_keys -> flag ∈ dry_flags (internal_key i) ->
  plain_flag flag = true ->
  analyze_tokens (tokens ++ [flag]) = Some (as_dry_run i).
Proof.
  intros Ha Hk Hf Hp.
  assert (Hi : analyze_direct_formatter tokens = Some i).
  { apply analyzer_of_key in Ha. revert Ha.
    repeat (apply elem_of_cons in Hk as [->|Hk]; [done|]). by apply elem_of_nil in Hk. }
  pose proof (direct_append _ _ _ Hi Hk Hf Hp) as Hi'.
  destruct tokens as [|t rest]; [done|]. cbn [app] in Hi' |- *.
  assert (Hn : forall name, name ∈ [lit "cargo"; lit "rustfmt"; lit "npm"] ->
    eq_ignore_ascii_case t name = false).
  { intros name Hn. apply not_true_iff_false. intros Ht.
    by rewrite (direct_other_tool t rest name Hn Ht) in Hi. }
  assert (Hpm : forall m tokens', head tokens' = Some t -> eq_ignore_ascii_case t (label m) = false ->
    analyze_package_manager tokens' m = None).
  { intros m [|t' tokens'] [= ->] Ht. unfold analyze_package_manager. by rewrite Ht. }
  destruct (eq_ignore_ascii_case t (label Pnpm)) eqn:Ep.
  { destruct (direct_pnpm _ _ _ Hi Ep) as (second & rest' & -> & Hs%eq_name_exec).
    cbn [app] in Hi' |- *.
    rewrite (only_manager t _ Pnpm Ep); by rewrite (manager_here t (second :: rest' ++ [flag]) Pnpm second (rest' ++ [flag]) Ep eq_refl), Hs, Hi'. }
  assert (Hrest : analyze_package_manager (t :: rest ++ [flag]) Yarn = None \/
                  analyze_package_manager (t :: rest ++ [flag]) Yarn = Some (as_dry_run i)).
  { destruct (eq_ignore_ascii_case t (label Yarn)) eqn:Ey; [|left; by apply Hpm].
    pose proof (direct_yarn _ _ _ Hi Ey). destruct rest as [|second rest]; [done|].
    cbn [app] in Hi' |- *.
    pose proof (manager_here t (second :: rest) Yarn second rest Ey eq_refl) as Hm.
    rewrite (manager_here t (second :: rest ++ [flag]) Yarn second (rest ++ [flag]) Ey eq_refl).
    destruct (_ || _) eqn:Hs; [by right|left].
    apply (script_none Yarn second rest), eq_None_not_Some. intros [j Hj]. rewrite Hj in Hm.
    rewrite (only_manager t _ Yarn Ey), Hm in Ha by by rewrite Hm.
    injection Ha as ->. destruct (script_key _ _ _ _ Hj) as [E|E]; rewrite E in Hk;
      by apply (bool_decide_pack _) in Hk. }
  assert (Hc : analyze_cargo (t :: rest ++ [flag]) = None)
    by (cbn -[lit eq_ignore_ascii_case analyze_direct_formatter analyze_script]; rewrite (Hn (lit "cargo")); [done|listed]).
  assert (Hr : analyze_rustfmt (t :: rest ++ [flag]) = None)
    by (cbn -[lit eq_ignore_ascii_case analyze_direct_formatter analyze_script]; rewrite (Hn (lit "rustfmt")); [done|listed]).
  assert (Hnpm : analyze_package_manager (t :: rest ++ [flag]) Npm = None)
    by (apply Hpm; [done|apply (Hn (lit "npm")); set_solver]).
  unfold analyze_tokens. rewrite Hc, Hr, Hnpm, (Hpm Pnpm) by done.
  destruct Hrest as [-> | ->]; [done|reflexivity].
Qed.

(** *** The theorem *)

Lemma rustfmt_unlocks tokens i : analyze_rustfmt tokens = Some i ->
  analyze_tokens (tokens ++ [lit "--check"]) = Some (as_dry_run i).
Proof.
  destruct tokens as [|t args]; [done|]. unfold analyze_rustfmt.
  destruct (eq_ignore_ascii_case t (lit "rustfmt")) eqn:Et; [|done]. intros [= <-].
  unfold analyze_tokens, analyze_rustfmt, analyze_cargo. cbn [app].
  rewrite (same_name _ _ (lit "cargo") Et), Et, contains_flag_snoc. cbn [negb].
  change (eq_ignore_ascii_case (lit "--check") (lit "--check")) with true. by rewrite orb_true_r.
Qed.

Lemma runs_script_app tokens m script args l : runs_script tokens m script args ->
  runs_script (tokens ++ l) m script (args ++ l).
Proof.
  intros ((t & rest & -> & Ht) & Hl & Hx). split; [by exists t, (rest ++ l)|]. split; [|done].
  destruct m, rest as [|second rest]; try done; cbn -[lit eq_ignore_ascii_case] in Hl |- *;
    [|by simplify_eq..].
  destruct (eq_ignore_ascii_case second (lit "run")); [|by simplify_eq].
  destruct rest; by simplify_eq.
Qed.

Lemma script_unlocks tokens m script args i flag : runs_script tokens m script args ->
  analyze_script m script args = Some i -> dry_argument flag = true ->
  analyze_tokens (tokens ++ [lit "--"; flag]) = Some (as_dry_run i).
Proof.
  intros Hr Hi Hf. pose proof (runs_script_app _ _ _ _ [lit "--"; flag] Hr) as Hr'.
  pose proof (runs_script_analysis _ _ _ _ Hr') as Ha.
  assert (Hd : analyze_script m script (args ++ [lit "--"; flag]) = Some (as_dry_run i)).
  { unfold analyze_script in Hi |- *. rewrite existsb_app. cbn [existsb].
    rewrite Hf. cbn [orb]. rewrite !orb_true_r. unfold found in *. repeat case_match; by simplify_eq. }
  destruct Hr' as ((t & rest & Ht & Hm) & _ & _). rewrite Ht in Ha |- *.
  by rewrite (only_manager t rest m Hm), Ha, Hd by by rewrite Ha, Hd.
Qed.

Lemma position_none l : lit "--" ∉ l -> position is_dashes l = None.
Proof.
  induction l as [|x l IH]; [done|]. rewrite not_elem_of_cons. intros [Hx Hl]. cbn [position].
  unfold is_dashes at 1. by rewrite (proj2 (str_eqb_neq _ _) Hx), IH.
Qed.

Lemma suggestion_appends k tokens : k ∈ formatter_keys -> mentions_dry_flag k tokens = false ->
  (k = EslintFix -> lit "--" ∉ tokens) ->
  exists flag, flag ∈ dry_flags k /\ plain_flag flag = true /\
    suggested_tokens k tokens = tokens ++ [flag].
Proof.
  unfold mentions_dry_flag, suggested_tokens, suggest_append_flag, suggest_eslint_fix_dry_run,
    suggest_swiftformat_dry_run, insert_before_dashes. fold is_dashes.
  intros Hk Hm He. exists (default [] (head (dry_flags k))).
  rewrite <- (bool_decide_eq_true (k ∈ _)) in Hk. destruct k; try discriminate Hk; cbn [dry_flags existsb] in Hm |- *;
    rewrite ?orb_false_r in Hm; rewrite ?Hm, ?position_none by auto;
    (split; [by left|by split]).
Qed.

Lemma suggested_recognised tokens i :
  analyze_tokens tokens = Some i ->
  mentions_dry_flag (internal_key i) tokens = false ->
  internal_key i ∉ [CargoClippyFix; PrettierWrite; Gofmt] ->
  (internal_key i = EslintFix -> lit "--" ∉ tokens) ->
  analyze_tokens (suggested_tokens (internal_key i) tokens) = Some (as_dry_run i).
Proof.
  intros Ha Hm Hk He. pose proof (analyzer_of_key _ _ Ha) as Hi.
  assert (Hf : bool_decide (internal_key i ∈ formatter_keys) = true ->
    analyze_tokens (suggested_tokens (internal_key i) tokens) = Some (as_dry_run i)).
  { intros Hf%bool_decide_eq_true. destruct (suggestion_appends _ _ Hf Hm He) as (flag & Hin & Hp & ->).
    by apply formatter_unlocks. }
  assert (Hc : analyze_cargo tokens = Some i -> internal_key i <> CargoClippyFix ->
    analyze_tokens (suggested_tokens (internal_key i) tokens) = Some (as_dry_run i)).
  { intros Hi' Hn. unfold analyze_tokens. by rewrite cargo_unlocks. }
  unfold mentions_dry_flag in Hm.
  rewrite <- (bool_decide_eq_false (internal_key i ∈ _)) in Hk.
  destruct (internal_key i) eqn:Ek; try exact (Hf eq_refl); try discriminate Hk;
    try (by apply Hc); cbn [suggested_tokens dry_flags existsb] in Hm |- *.
  - unfold suggest_append_flag. rewrite orb_false_r in Hm. rewrite Hm. by apply rustfmt_unlocks.
  - destruct Hi as (script & args & Hr & Hi). unfold suggest_package_script_dry_run.
    rewrite orb_false_r, orb_comm in Hm. rewrite Hm. by eapply script_unlocks.
  - destruct Hi as (script & args & Hr & Hi). unfold suggest_package_script_dry_run.
    rewrite orb_false_r in Hm. rewrite Hm. by eapply script_unlocks.
Qed.

(** *** Wrappers *)

Lemma strip_from_head in_flags l t l' : head (strip_from in_flags l) = Some t ->
  strip_wrappers (t :: l') = t :: l'.
Proof.
  revert in_flags. induction l as [|x l IH]; intros in_flags; [done|].
  cbn [strip_from]. destruct (in_flags && starts_with (lit "-") x); [apply IH|].
  destruct (is_env_assignment x) eqn:Ee; [apply IH|]. destruct (is_wrapper x) eqn:Ew; [apply IH|].
  intros [= <-]. unfold strip_wrappers. cbn [strip_from andb]. by rewrite Ee, Ew.
Qed.

Lemma suggested_head tokens i : analyze_tokens tokens = Some i ->
  mentions_dry_flag (internal_key i) tokens = false ->
  internal_key i ∉ [CargoClippyFix; PrettierWrite; Gofmt] ->
  (internal_key i = EslintFix -> lit "--" ∉ tokens) ->
  exists t rest rest', tokens = t :: rest /\ suggested_tokens (internal_key i) tokens = t :: rest'.
Proof.
  intros Ha Hm Hk He. pose proof (analyzer_of_key _ _ Ha) as Hi.
  destruct tokens as [|t rest]; [done|].
  enough (exists rest', suggested_tokens (internal_key i) (t :: rest) = t :: rest') as [rest' Hr]
    by by exists t, rest, rest'.
  assert (Hf : bool_decide (internal_key i ∈ formatter_keys) = true ->
    exists rest', suggested_tokens (internal_key i) (t :: rest) = t :: rest').
  { intros Hf%bool_decide_eq_true. destruct (suggestion_appends _ _ Hf Hm He) as (flag & _ & _ & ->).
    by eexists. }
  assert (Hc : analyze_cargo (t :: rest) = Some i -> Forall (fun x => is_dashes x = false) [t]).
  { intros Hi'. constructor; [|done]. apply not_true_iff_false. by intros <-%str_eqb_eq. }
  rewrite <- (bool_decide_eq_false (internal_key i ∈ _)) in Hk.
  destruct (internal_key i) eqn:Ek; try exact (Hf eq_refl); try discriminate Hk;
    cbn [suggested_tokens]; unfold suggest_cargo_fix_dry_run, suggest_append_flag,
      suggest_package_script_dry_run.
  - change (t :: rest) with ([t] ++ rest). rewrite fmt_skip by auto. by eexists.
  - destruct (slice_contains_flag _ _); [by eexists|].
    change (t :: rest) with ([t] ++ rest). rewrite insert_skip by auto. by eexists.
  - destruct (slice_contains_flag _ _); by eexists.
  - destruct (_ || _); by eexists.
  - destruct (_ || _); by eexists.
Qed.

(** *** The text of a suggestion *)

Lemma strip_from_solid b l : Forall solid l -> Forall solid (strip_from b l).
Proof.
  intros H. revert b. induction H as [|w l Hw Hl IH]; intros b; [constructor|]. cbn [strip_from].
  repeat case_match; auto.
Qed.

Lemma insert_solid flag l : solid flag -> Forall solid l -> Forall solid (insert_before_dashes l flag).
Proof.
  intros Hf Hl. unfold insert_before_dashes. case_match.
  - apply Forall_app. split; [by apply Forall_take|]. constructor; [done|by apply Forall_drop].
  - apply Forall_app. by split; [|constructor].
Qed.

Lemma append_solid flag l : solid flag -> Forall solid l -> Forall solid (suggest_append_flag flag l).
Proof.
  intros Hf Hl. unfold suggest_append_flag. case_match; [done|]. apply Forall_app. by split; [|constructor].
Qed.

Lemma replace_solid p flag l : solid flag -> Forall solid l -> Forall solid (replace_or_append p flag l).
Proof.
  intros Hf. induction 1 as [|w l Hw Hl IH]; cbn; [by constructor|].
  case_match; constructor; done.
Qed.

Ltac solid_flag := by apply (bool_decide_unpack _); vm_compute.

Lemma suggested_solid k l : Forall solid l -> Forall solid (suggested_tokens k l).
Proof.
  intros Hl. assert (forall flags, Forall solid flags -> Forall solid (l ++ flags)) as Happ
    by (intros flags Hf; by apply Forall_app).
  destruct k; cbn [suggested_tokens]; try (apply append_solid; [solid_flag|done]).
  - unfold suggest_cargo_fmt_dry_run. case_match; [case_match; [done|]|apply Happ; solid_flag].
    apply Forall_app. split; [by apply Forall_take|]. constructor; [solid_flag|by apply Forall_drop].
  - unfold suggest_cargo_fix_dry_run. case_match; [done|]. apply insert_solid; [solid_flag|done].
  - induction Hl as [|w l Hw Hl IH]; [constructor|]. cbn [suggest_cargo_clippy_dry_run].
    case_match; [done|]. constructor; [done|]. apply IH. intros flags Hf. by apply Forall_app.
  - unfold suggest_package_script_dry_run. case_match; [done|]. apply Happ. solid_flag.
  - unfold suggest_package_script_dry_run. case_match; [done|]. apply Happ. solid_flag.
  - unfold suggest_eslint_fix_dry_run. case_match; [done|]. apply insert_solid; [solid_flag|done].
  - unfold suggest_prettier_write_dry_run. case_match; [done|]. apply replace_solid; [solid_flag|done].
  - apply replace_solid; [solid_flag|done].
  - unfold suggest_swiftformat_dry_run. case_match; [done|]. apply Happ. solid_flag.
Qed.

(** No analysis brings a suggestion of its own. *)
Lemma analyze_formatter_custom l i : analyze_formatter l = Some i -> internal_suggested_dry_run i = None.
Proof.
  unfold analyze_formatter. destruct l; [done|]. unfold found.
  repeat (match goal with |- context [if ?b then _ else _] => destruct b end; try (by intros [= <-])); done.
Qed.

Lemma analyze_package_custom l m i :
  analyze_package_manager l m = Some i -> internal_suggested_dry_run i = None.
Proof.
  unfold analyze_package_manager. destruct l as [|t l]; [done|].
  destruct (negb _); [done|]. destruct (locate_package_script _ _) as [[script args]|]; [|done].
  destruct (_ || _); [apply analyze_formatter_custom|]. unfold analyze_script, found.
  destruct (str_contains _ _); [by intros [= <-]|]. destruct (_ || _); [by intros [= <-]|done].
Qed.

Lemma analyze_custom l i : analyze_tokens l = Some i -> internal_suggested_dry_run i = None.
Proof.
  unfold analyze_tokens, or_else.
  destruct (analyze_cargo l) eqn:Ec.
  { intros [= <-]. unfold analyze_cargo in Ec. destruct l as [|t l]; [done|]. destruct (negb _); [done|].
    destruct (drop_while _ l); [done|]. unfold cargo_subcommand, found in Ec.
    destruct (str_eqb _ _); [by injection Ec as <-|]. destruct (str_eqb _ _); [by injection Ec as <-|].
    destruct (str_eqb _ _); [|done]. destruct (slice_contains_flag _ _); [by injection Ec as <-|done]. }
  destruct (analyze_rustfmt l) eqn:Er.
  { intros [= <-]. unfold analyze_rustfmt, found in Er. destruct l; [done|].
    destruct (negb _); [done|]. by injection Er as <-. }
  destruct (analyze_package_manager l Npm) eqn:E1; [intros [= <-]; by eapply analyze_package_custom|].
  destruct (analyze_package_manager l Pnpm) eqn:E2; [intros [= <-]; by eapply analyze_package_custom|].
  destruct (analyze_package_manager l Yarn) eqn:E3; [intros [= <-]; by eapply analyze_package_custom|].
  apply analyze_formatter_custom.
Qed.

(** C23: A command without a dry-run flag of its tool, whose words have no blanks, is recognised
    as mutating, its tool is not [cargo clippy --fix], [prettier --write] or [gofmt -w] and, for
    [eslint], it holds no [--].  Then the words of the text that the model is told to run first
    are recognised as a dry run of the same tool, and once that was executed the command is let
    through. *)
Theorem suggestion_unlocks first_tokens a :
  analyze_first first_tokens = Some a -> Forall solid first_tokens ->
  mentions_dry_flag (key a) (tokens a) = false ->
  key a ∉ [CargoClippyFix; PrettierWrite; Gofmt] ->
  (key a = EslintFix -> lit "--" ∉ tokens a) ->
  exists text a', suggested_dry_run a = Some text /\ analyze_first (split_whitespace text) = Some a' /\
    key a' = key a /\ disposition a' = DryRun /\
    forall s c, numbered s -> (command_counter s < u64_max)%N -> analysis c = Some a ->
      fst (submit_command c (note_execution a' s)) = true.
Proof.
  unfold analyze_first at 1. intros Ha Hsolid.
  apply (strip_from_solid false) in Hsolid. change (strip_from false first_tokens) with
    (strip_wrappers first_tokens) in Hsolid. revert Ha Hsolid.
  destruct (strip_wrappers first_tokens) as [|t rest] eqn:Et; [done|].
  destruct (analyze_tokens (t :: rest)) as [i|] eqn:Ea; [|done]. intros [= <-] Hsolid.
  cbn [key DryRunGuard.tokens]. intros Hm Hk He.
  destruct (suggested_head _ _ Ea Hm Hk He) as (t' & rest' & rest'' & [= <- <-] & Hs).
  pose proof (suggested_recognised _ _ Ea Hm Hk He) as Hr.
  unfold suggested_dry_run. cbn [custom_suggested_dry_run key DryRunGuard.tokens].
  rewrite (analyze_custom _ _ Ea).
  exists (join (lit " ") (suggested_tokens (internal_key i) (t :: rest))).
  rewrite split_whitespace_join by (by apply suggested_solid).
  rewrite Hs in Hr |- *.
  unfold analyze_first. rewrite (strip_from_head false first_tokens t) by by unfold strip_wrappers in Et; rewrite Et.
  rewrite Hr. eexists. split; [reflexivity|]. split; [reflexivity|]. split; [done|]. split; [done|].
  intros s c Hn Hc Hca. unfold submit_command.
  assert (needs_dry_run c (note_execution (DryRunAnalysis (internal_key i) DryRun (t :: rest'')
    (internal_display_name i) (internal_suggested_dry_run i)) s) = false) as Hno.
  { unfold needs_dry_run. rewrite Hca. cbn [key disposition]. rewrite note_recent by done.
    cbn [key disposition]. rewrite decide_True by done. cbn. by rewrite !andb_false_r. }
  cbn in Hno |- *. by rewrite Hno.
Qed.
(** ** Scripts *)

(** Of a script of plain commands the guard looks at the last one, whatever runs before it. *)
Theorem guard_reads_last shlex_split shlex_try_join try_parse_bash command i script t cs c text :
  extract_shell_script command = Some (i, script) ->
  try_parse_bash script = Some t ->
  try_parse_word_only_commands_sequence t = Some (cs ++ [c]) ->
  is_small_formatting_command c = false ->
  summarize_main_tokens shlex_try_join c = Unknown text ->
  ignorable shlex_split (Unknown text) = false -> shlex_split text = Some c ->
  analyze_command shlex_split shlex_try_join try_parse_bash command = analyze_first c.
Proof.
  intros He Ht Hcs Hc Hu Hi Hs. unfold analyze_command, first_command_tokens.
  assert (Hdrop : drop_small_formatting_commands (cs ++ [c]) = drop_small_formatting_commands cs ++ [c]).
  { unfold drop_small_formatting_commands. rewrite List.filter_app. cbn. by rewrite Hc. }
  destruct (script_parse shlex_split shlex_try_join try_parse_bash command i script t _ He Ht Hcs)
    as [flag ->].
  destruct (word_only_script shlex_split shlex_try_join script flag (cs ++ [c]))
    as (kept & result & -> & Hk & _ & _ & Hr).
  { rewrite Hdrop. by destruct (drop_small_formatting_commands cs). }
  rewrite Hdrop, reverse_snoc, fmap_cons, Hu in Hk.
  inversion Hk as [|x l kept' Hk'|x l kept' Hx]; subst; [|by rewrite Hi in Hx].
  destruct Hr as [Hr|(pc & [= <- _] & Hpc)]; [|done]. rewrite Hr. cbn. by rewrite Hs.
Qed.

(** ** Runs *)

Module GuardRuns.

Definition words (s : string) : list str := split_whitespace (lit s).

Definition analysis_of (s : string) : option dry_run_analysis := analyze_first (words s).

Definition command (s : string) : guarded_command := GuardedCommand false (analysis_of s).

Definition suggestion_of (s : string) : option str := a ← analysis_of s; suggested_dry_run a.

(** The commands that are executed, by their analysis. *)
Definition run (commands : list string) : list (option dry_run_analysis) :=
  analysis <$> executed (command <$> commands) new_guard.

Example formats_once :
  run ["cargo fmt"; "cargo fmt -- --check"; "RUSTFLAGS=-A cargo +nightly fmt"; "cargo fmt"]%string =
  [analysis_of "cargo fmt -- --check"; analysis_of "cargo +nightly fmt"].
Proof. vm_compute. reflexivity. Qed.

Example wrapped_commands :
  (key <$> analysis_of "env -i A=1 sudo -n black app.py") = Some Black /\
  (key <$> analysis_of "npx --yes pnpm dlx -s eslint --fix src") = Some EslintFix /\
  (key <$> analysis_of "yarn lint:ts") = Some (PackageLint Yarn).
Proof. vm_compute. repeat split. Qed.

(** [prettier], [gofmt] and [clippy]: the suggestion has no flag that says that it would
    rewrite files, so it is no command of the guard, and the guard keeps refusing. *)
Example prettier_stays_refused :
  suggestion_of "npx prettier --write src" = Some (lit "npx prettier --check src") /\
  run ["npx prettier --check src"; "npx prettier --write src"]%string = [None].
Proof. vm_compute. by split. Qed.

Example gofmt_stays_refused :
  suggestion_of "gofmt -w main.go" = Some (lit "gofmt -d main.go") /\
  run ["gofmt -d main.go"; "gofmt -w main.go"]%string = [None].
Proof. vm_compute. by split. Qed.

Example clippy_stays_refused :
  suggestion_of "cargo clippy --fix" = Some (lit "cargo clippy") /\
  run ["cargo clippy"; "cargo clippy --fix"]%string = [None].
Proof. vm_compute. by split. Qed.

(** The flag goes before the first [--], which may be that of the runner. *)
Example runner_takes_flag :
  suggestion_of "npx -- eslint --fix src" = Some (lit "npx --fix-dry-run -- eslint --fix src") /\
  (disposition <$> analysis_of "npx --fix-dry-run -- eslint --fix src") = Some Mutating.
Proof. vm_compute. by split. Qed.

(** An argument of a flag of a wrapper is taken for the command. *)
Example wrapper_argument_hides :
  analysis_of "sudo -u root cargo fmt" = None /\
  run ["sudo -u root cargo fmt"]%string = [None].
Proof. vm_compute. by split. Qed.

(** The tokens are joined without quotes. *)
Example suggestion_unquoted :
  (a ← analyze_first [lit "black"; lit "my file.py"]; suggested_dry_run a) =
  Some (lit "black my file.py --check").
Proof. vm_compute. reflexivity. Qed.

(** The guard does not see a formatter in front of another command, and takes a script that
    ends with a dry run for a dry run. *)
Definition analysis_of_script (script : string) : option dry_run_analysis :=
  analyze_command SummaryRuns.split SummaryRuns.try_join SummaryRuns.parser
    [lit "bash"; lit "-lc"; lit script].

Example script_hides_formatter :
  analysis_of_script "cargo fmt && git status" = None /\
  (disposition <$> analysis_of_script "cargo fmt && cargo fmt -- --check") = Some DryRun /\
  (key <$> analysis_of_script "cd src && cargo fmt") = Some CargoFmt.
Proof. vm_compute. repeat split. Qed.

Lemma guard_reads_last_witness :
  analysis_of_script "cargo fmt && cargo fmt -- --check" =
  analyze_first [lit "cargo"; lit "fmt"; lit "--"; lit "--check"].
Proof.
  exact (guard_reads_last SummaryRuns.split SummaryRuns.try_join SummaryRuns.parser
    [lit "bash"; lit "-lc"; lit "cargo fmt && cargo fmt -- --check"] 2
    (lit "cargo fmt && cargo fmt -- --check")
    (Tree (Node (lit "program") true 0 None
       (SummaryRuns.script_nodes 0 [] (split_whitespace (lit "cargo fmt && cargo fmt -- --check"))))
       false)
    [[lit "cargo"; lit "fmt"]] [lit "cargo"; lit "fmt"; lit "--"; lit "--check"]
    (lit "cargo fmt -- --check")
    ltac:(vm_compute; reflexivity) ltac:(reflexivity) ltac:(vm_compute; reflexivity)
    ltac:(reflexivity) ltac:(vm_compute; reflexivity) ltac:(vm_compute; reflexivity)
    ltac:(vm_compute; reflexivity)).
Defined.

Local Notation commands := [command "cargo fmt"; command "cargo fmt -- --check"; command "ls";
  command "cargo fmt"].

Lemma rewrites_after_dry_run_witness :
  exists earlier d between, [command "cargo fmt -- --check"; command "ls"] = earlier ++ d :: between /\
    uses CargoFmt d /\ Forall (fun b => ~ uses CargoFmt b) between /\
    (disposition <$> analysis d = Some DryRun).
Proof.
  destruct (rewrites_after_dry_run commands
    [command "cargo fmt -- --check"; command "ls"] (command "cargo fmt") [] UseCargoFmt [])
    as (earlier & d & between & H1 & H2 & H3 & H4 & _);
    [vm_compute; discriminate|vm_compute; reflexivity|vm_compute; reflexivity|exact I| |reflexivity|].
  - intros (flag & _ & a & Ha & _). by apply elem_of_nil in Ha.
  - exists earlier, d, between. split; [exact H1|]. split; [exact H2|]. split; [exact H3|exact H4].
Defined.

Local Notation black := (DryRunAnalysis Black Mutating (words "npx black src") (lit "black") None).

Lemma suggestion_unlocks_witness :
  exists text a', suggested_dry_run black = Some text /\ analyze_first (split_whitespace text) = Some a' /\
    key a' = key black /\ disposition a' = DryRun /\
    forall s c, numbered s -> (command_counter s < u64_max)%N -> analysis c = Some black ->
      fst (submit_command c (note_execution a' s)) = true.
Proof.
  exact (suggestion_unlocks (words "npx black src") black
    ltac:(vm_compute; reflexivity) ltac:(apply (bool_decide_unpack _); vm_compute; exact I)
    ltac:(vm_compute; reflexivity)
    ltac:(apply (bool_decide_unpack _); vm_compute; exact I) ltac:(discriminate)).
Defined.
End GuardRuns.
