(* ===== verification/CommandGuards.v ===== *)
(** * The guards in front of a command

    [core/src/codex/streaming.rs], [handle_container_exec_with_params] up to the point where a
    command is taken for a patch or executed: a command that the model sends is refused, with
    a hint how to send it again, or goes on without its [confirm:] prefix.  Refused are
    commands that match a pattern of the configuration ([codex.rs]), commands of [git] that
    change branches or discard work, formatters without a dry run ([DryRunGuard]), a change
    into the directory the command runs in, and shell or Python code that writes files.  For a
    patch, [guard_apply_patch_outside_branch] keeps it inside the worktree of a branch.

    The regular expressions, [shlex] and the Tree-sitter parser are parameters; the texts of
    the hints are left out, a refusal is what they are made of. *)

From stdpp Require Import base list gmap.
From S2P Require Import Prelude Paths PatchInvocation CommandSafety Approval ParseCommand.
From S2P Require Import DryRunGuard.

Local Open Scope nat_scope.

(** ** Strings *)

(** [str::trim_matches(p)] and [str::split(p)] for a test of characters. *)
Definition trim_where (p : char -> bool) (s : str) : str := drop_while p (drop_while_end p s).

Fixpoint split_from_where (p : char -> bool) (cur s : str) : list str :=
  match s with
  | [] => [cur]
  | c :: s => if p c then cur :: split_from_where p [] s else split_from_where p (cur ++ [c]) s
  end.

Definition split_where (p : char -> bool) (s : str) : list str := split_from_where p [] s.

Definition one_of (cs : str) (c : char) : bool := existsb (N.eqb c) cs.

Definition SQUOTE : char := 39%N.
Definition DQUOTE : char := 34%N.
Definition BACKSLASH : char := 92%N.

(** ** [git] *)

Inductive sensitive_git_kind := BranchChange | PathCheckout | Reset | Revert.

#[export] Instance sensitive_git_kind_eq_dec : EqDecision sensitive_git_kind.
Proof. solve_decision. Defined.

(** Quotes become spaces, and separators inside them too; the state is [in_squote],
    [in_dquote] and [prev_was_backslash]. *)
Fixpoint clean_quotes (in_squote in_dquote prev_was_backslash : bool) (script : str) : str :=
  match script with
  | [] => []
  | ch :: rest =>
      let shown :=
        if (in_squote || in_dquote) && one_of [124%N; 38%N; 59%N; LF; CR] ch then 32%N else ch in
      if (ch =? BACKSLASH)%N then
        shown :: clean_quotes in_squote in_dquote (negb prev_was_backslash) rest
      else if (ch =? SQUOTE)%N && negb in_dquote then
        32%N :: clean_quotes (negb in_squote) in_dquote false rest
      else if (ch =? DQUOTE)%N && negb in_squote && negb prev_was_backslash then
        32%N :: clean_quotes in_squote (negb in_dquote) false rest
      else shown :: clean_quotes in_squote in_dquote false rest
  end.

Definition strip_tok (t : str) : str := trim_where (one_of (lit "(){}'" ++ [DQUOTE])) t.

Definition is_assignment (tok : str) : bool :=
  str_contains (lit "=") tok && negb (starts_with (lit "=") tok) &&
  negb (starts_with (lit "-") tok).

Definition WRAPPERS : list str :=
  [lit "env"; lit "sudo"; lit "command"; lit "time"; lit "nohup"; lit "nice"].

Definition SCRIPT_WRAPPERS : list str :=
  WRAPPERS ++ [lit "then"; lit "do"; lit "{"; lit "("].

(** Assignments, wrappers and their flags are skipped; [in_flags]: a wrapper was seen. *)
Fixpoint skip_wrappers (wrappers : list str) (in_flags : bool) (tokens : list str) : list str :=
  match tokens with
  | [] => []
  | t :: rest =>
      let tok := strip_tok t in
      if in_flags && is_flag tok then skip_wrappers wrappers true rest
      else if str_eqb tok [] then skip_wrappers wrappers false rest
      else if is_assignment tok then skip_wrappers wrappers false rest
      else if str_mem tok wrappers then skip_wrappers wrappers true rest
      else tokens
  end.

Definition is_git (cmd : str) : bool := ends_with (lit "/git") cmd || str_eqb cmd (lit "git").

Definition is_joined_global (t : str) : bool :=
  starts_with (lit "--git-dir=") t || starts_with (lit "--work-tree=") t || starts_with (lit "-c") t.

(** The options in front of the subcommand. *)
Fixpoint skip_git_globals (tokens : list str) : list str :=
  match tokens with
  | [] => []
  | token :: rest =>
      let t := strip_tok token in
      if str_eqb t [] then skip_git_globals rest
      else if str_mem t [lit "-C"; lit "--git-dir"; lit "--work-tree"; lit "-c"] then
        match rest with [] => [] | _ :: rest => skip_git_globals rest end
      else if is_joined_global t || is_flag t then skip_git_globals rest
      else tokens
  end.

(** The subcommand and the arguments of a call of [git]. *)
Definition git_subcommand (wrappers : list str) (tokens : list str) : option (str * list str) :=
  match skip_wrappers wrappers false tokens with
  | [] => None
  | cmd :: rest =>
      if is_git (strip_tok cmd) then
        match skip_git_globals rest with
        | [] => None
        | sub :: args => Some (strip_tok sub, strip_tok <$> args)
        end
      else None
  end.

Definition checkout_kind (args : list str) : option sensitive_git_kind :=
  if str_mem (lit "--") args then Some PathCheckout
  else if existsb (fun a => str_mem a [lit "-b"; lit "-B"; lit "--orphan"; lit "--detach"]) args
  then Some BranchChange
  else
    match args with
    | [] => None
    | a :: _ =>
        if str_eqb a (lit "-") then Some BranchChange
        else if negb (is_flag a) && negb (str_eqb a (lit ".")) && negb (str_eqb a (lit ".."))
        then Some BranchChange
        else None
    end.

Fixpoint switch_kind (args : list str) : option sensitive_git_kind :=
  match args with
  | [] => None
  | a :: args =>
      if str_eqb a (lit "-c") || str_eqb a (lit "--detach") then Some BranchChange
      else if is_flag a then switch_kind args
      else Some BranchChange
  end.

(** What a subcommand is, with the reading of [switch]. *)
Definition subcommand_kind (switched : list str -> option sensitive_git_kind)
    (call : str * list str) : option sensitive_git_kind :=
  let '(sub, args) := call in
  if str_eqb sub (lit "checkout") then checkout_kind args
  else if str_eqb sub (lit "switch") then switched args
  else if str_eqb sub (lit "reset") then Some Reset
  else if str_eqb sub (lit "revert") then Some Revert
  else None.

(** The words of one command of a script. *)
Definition words_kind (raw_tokens : list str) : option sensitive_git_kind :=
  git_subcommand SCRIPT_WRAPPERS raw_tokens ≫= subcommand_kind switch_kind.

Definition part_kind (part : str) : option sensitive_git_kind :=
  words_kind (split_whitespace (trim part)).

(** The first command that is sensitive. *)
Definition detect_sensitive_git (script : str) : option sensitive_git_kind :=
  let cleaned := clean_quotes false false false script in
  head (omap part_kind
    (chunk ← split_where (one_of [59%N; LF; CR]) cleaned;
     split_where (one_of [124%N; 38%N]) chunk)).

(** The same for a command that is no script. *)
Definition detect_sensitive_git_argv (command : list str) : option sensitive_git_kind :=
  git_subcommand WRAPPERS command ≫= subcommand_kind (fun _ => Some BranchChange).

(** ** Directories *)

(** [PathBuf::pop]: whether there was a parent, which is the result then. *)
Definition pop (p : list component) : option (list component) :=
  match last p with
  | None | Some RootDir => None
  | Some _ => Some (removelast p)
  end.

Definition normalize_component (normalized : list component) (c : component) : list component :=
  match c with
  | CurDir => normalized
  | ParentDir => default normalized (pop normalized)
  | RootDir => [RootDir]
  | Normal part => normalized ++ [Normal part]
  end.

Definition normalize_path (path : str) : list component :=
  match foldl normalize_component [] (path_components path) with
  | [] => [CurDir]
  | normalized => normalized
  end.

Definition is_simple_cd_target (target : str) : bool :=
  negb (str_eqb target []) && negb (str_eqb target (lit "-")) &&
  negb (existsb (one_of (lit "$`*?[]{}()|><!")) target).

Definition resolve_cd_target (target cwd : str) : option (list component) :=
  if str_eqb target [] then None
  else Some (normalize_path (if is_absolute target then target else path_join cwd target)).

Definition is_cd_connector (token : str) : bool := str_mem token [lit "&&"; lit ";"; lit "||"].

Inductive label := OriginalScript | OriginalArgv | PythonInlineScript.

(** [RedundantCdSuggestion]; the text of an argv is left out. *)
Record redundant_cd_suggestion := RedundantCdSuggestion {
  cd_label : label;
  cd_suggested : list str;
  cd_target_arg : str;
  cd_cwd : list component
}.

(** What is left behind a change into the directory the command runs in. *)
Definition behind_cd (tokens : list str) (cwd : str) : option (str * list str) :=
  match tokens with
  | first :: target :: rest =>
      if str_eqb first (lit "cd") && is_simple_cd_target target &&
         bool_decide (resolve_cd_target target cwd = Some (normalize_path cwd))
      then
        match drop_while is_cd_connector rest with
        | [] => None
        | remainder =>
            match rest with
            | connector :: _ => if is_cd_connector connector then Some (target, remainder) else None
            | [] => None
            end
        end
      else None
  | _ => None
  end.

(** ** Code that writes files *)

(** The text behind [cat], which may be a heredoc whose output is redirected to a file. *)
Definition heredoc_writes (after : str) : bool :=
  let after_trimmed := trim_start after in
  starts_with (lit "<<") after_trimmed &&
  match split_once 62%N after_trimmed with
  | None => false
  | Some (_, after_redirect) =>
      let after_gt := trim_start after_redirect in
      negb (starts_with (lit "&") after_redirect) && negb (starts_with (lit "&") after_gt) &&
      negb (starts_with (lit "(") after_gt)
  end.

Definition is_word_char (c : char) : bool :=
  is_ascii_digit c || ((65 <=? c) && (c <=? 90) || (97 <=? c) && (c <=? 122) || (c =? 95))%N.

(** The loop over the line, behind the character [prev]. *)
Fixpoint cat_from (prev : option char) (lower : str) : bool :=
  match lower with
  | [] => false
  | c :: rest =>
      starts_with (lit "cat") lower &&
      negb (match prev with Some prev => is_word_char prev | None => false end) &&
      heredoc_writes (drop 3 lower)
      || cat_from (Some c) rest
  end.

Definition line_contains_cat_heredoc_write (line : str) : bool :=
  let trimmed := trim_start line in
  if str_eqb trimmed [] || starts_with (lit "#") trimmed then false
  else
    let lower := to_ascii_lowercase line in
    str_contains (lit "<<") lower && str_contains (lit ">") lower && cat_from None lower.

Definition script_contains_cat_write (script : str) : bool :=
  existsb line_contains_cat_heredoc_write (str_lines script).

Definition detect_cat_write (argv : list str) : option str :=
  match extract_shell_script argv with
  | Some (_, script) => if script_contains_cat_write script then Some script else None
  | None => None
  end.

Definition contains_python_write_keywords (lower : str) : bool :=
  existsb (fun needle => str_contains needle lower)
    [lit "write_text("; lit "write_bytes("; lit ".write_text("; lit ".write_bytes("].

Definition script_contains_python_write (script : str) : bool :=
  let lower := to_ascii_lowercase script in
  (str_contains (lit "python ") lower || str_contains (lit "python3") lower ||
   str_contains (lit "python" ++ [LF]) lower) && contains_python_write_keywords lower.

Definition python_code_writes_files (code : str) : bool :=
  contains_python_write_keywords (to_ascii_lowercase code).

Definition is_python_command (cmd : str) : bool :=
  match file_name cmd with
  | Some name => str_mem (to_ascii_lowercase name) [lit "python"; lit "python3"; lit "python2"]
  | None => false
  end.

Definition detect_python_write_in_argv (argv : list str) : option (label * str) :=
  match argv with
  | cmd :: flag :: code :: _ =>
      if is_python_command cmd && str_eqb flag (lit "-c") && python_code_writes_files code
      then Some (PythonInlineScript, code) else None
  | _ => None
  end.

Definition detect_python_write (argv : list str) : option (label * str) :=
  match extract_shell_script argv with
  | Some (_, script) =>
      if script_contains_python_write script then Some (OriginalScript, script)
      else detect_python_write_in_argv argv
  | None => detect_python_write_in_argv argv
  end.

(** ** The prefix *)

Definition CONFIRM_PREFIXES : list str := [lit "confirm:"; lit "CONFIRM:"].

Definition confirm_prefixed (trimmed : str) : bool :=
  existsb (fun p => starts_with p trimmed) CONFIRM_PREFIXES.

(** The text behind the prefix, if there is one. *)
Definition behind_prefix (s : str) : option str := head (omap (fun p => strip_prefix p s) CONFIRM_PREFIXES).

Definition strip_leading_confirm_prefix (argv : list str) : list str :=
  match argv with
  | [] => []
  | first :: rest =>
      match behind_prefix (trim first) with
      | Some behind =>
          let trimmed := trim_start behind in
          if str_eqb trimmed [] then rest else trimmed :: rest
      | None => argv
      end
  end.

(** ** The guards, in order *)

(** [ConfirmGuardPatternRuntime], with the text of its expression. *)
Record confirm_guard_pattern := ConfirmGuardPattern {
  raw : str;
  message : option str
}.

Inductive refusal :=
| PatternMatched (pattern : confirm_guard_pattern)
| SensitiveGit (kind : sensitive_git_kind)
| NeedsDryRun (a : dry_run_analysis)
| RedundantCd (s : redundant_cd_suggestion)
| CatWrite (original_value : str)
| PythonWrite (l : label) (original_value : str).

(** A refused command, or what goes on. *)
Inductive guarded := Refused (r : refusal) | GoesOn (command : list str).

Section guards.
Context (shlex_split : str -> option (list str)).
Context (shlex_try_join : list str -> option str).
Context (try_parse_bash : str -> option tree).
Context (is_match : str -> str -> bool).

Definition detect_redundant_cd_in_shell (argv : list str) (script_index : nat) (script cwd : str)
    : option redundant_cd_suggestion :=
  tokens ← shlex_split (trim_start script);
  '(target, remainder) ← behind_cd tokens cwd;
  let suggested_script := default (join (lit " ") remainder) (shlex_try_join remainder) in
  if str_eqb (trim suggested_script) [] then None
  else Some (RedundantCdSuggestion OriginalScript (<[script_index := suggested_script]> argv) target
               (normalize_path cwd)).

Definition detect_redundant_cd_in_argv (argv : list str) (cwd : str)
    : option redundant_cd_suggestion :=
  '(target, remainder) ← behind_cd argv cwd;
  Some (RedundantCdSuggestion OriginalArgv remainder target (normalize_path cwd)).

Definition detect_redundant_cd (argv : list str) (cwd : str) : option redundant_cd_suggestion :=
  match
    match extract_shell_script argv with
    | Some (script_index, script) => detect_redundant_cd_in_shell argv script_index script cwd
    | None => None
    end
  with
  | Some suggestion => Some suggestion
  | None => detect_redundant_cd_in_argv argv cwd
  end.

Definition matched_pattern (patterns : list confirm_guard_pattern) (input : str)
    : option confirm_guard_pattern := List.find (fun p => is_match (raw p) input) patterns.

Definition analysis_of_command (command : list str) : option dry_run_analysis :=
  analyze_command shlex_split shlex_try_join try_parse_bash command.

(** The dry run that is missing. *)
Definition missing_dry_run (state : dry_run_guard_state) (confirmed : bool) (command : list str)
    : option refusal :=
  a ← analysis_of_command command;
  if needs_dry_run (GuardedCommand confirmed (Some a)) state then Some (NeedsDryRun a) else None.

Definition or_refused (r : option refusal) (next : guarded) : guarded :=
  match r with Some r => Refused r | None => next end.

(** The branch for a script; [next] is what follows. *)
Definition guard_script (patterns : list confirm_guard_pattern) (state : dry_run_guard_state)
    (command : list str) (script_index : nat) (script : str) (next : list str -> guarded) : guarded :=
  let trimmed := trim_start script in
  let confirmed := confirm_prefixed trimmed in
  or_refused
    (if confirmed then None else PatternMatched <$> matched_pattern patterns trimmed)
    (or_refused
       (if confirmed then None else SensitiveGit <$> detect_sensitive_git trimmed)
       (let command :=
          if confirmed
          then <[script_index := default trimmed (trim_start <$> behind_prefix trimmed)]> command
          else command in
        or_refused (missing_dry_run state confirmed command) (next command))).

(** The guards for writes and directories. *)
Definition guard_writes (cwd : str) (command : list str) (next : guarded) : guarded :=
  or_refused (RedundantCd <$> detect_redundant_cd command cwd)
    (or_refused (CatWrite <$> detect_cat_write command)
       (or_refused ((fun '(l, v) => PythonWrite l v) <$> detect_python_write command) next)).

(** The branch for a command that is no script. *)
Definition guard_argv (patterns : list confirm_guard_pattern) (state : dry_run_guard_state)
    (command : list str) : guarded :=
  or_refused (PatternMatched <$> matched_pattern patterns (join (lit " ") command))
    (or_refused (missing_dry_run state false command)
       (or_refused (SensitiveGit <$> detect_sensitive_git_argv command) (GoesOn command))).

Definition command_guards (patterns : list confirm_guard_pattern) (state : dry_run_guard_state)
    (cwd : str) (command : list str) : guarded :=
  let behind_script command :=
    let command := strip_leading_confirm_prefix command in
    guard_writes cwd command
      match extract_shell_script command with
      | Some _ => GoesOn command
      | None => guard_argv patterns state command
      end in
  match extract_shell_script command with
  | Some (script_index, script) =>
      guard_script patterns state command script_index script behind_script
  | None => behind_script command
  end.
End guards.

(** ** Patches in the worktree of a branch *)

(** Why [guard_apply_patch_outside_branch] refuses a patch. *)
Inductive branch_refusal :=
| RootUnresolved
| CwdUnresolved
| CwdOutside
| TargetUnresolved (path : str)
| TargetOutside (path : str).

(** [normalize_absolute]: a path that leaves the root has no result. *)
Definition absolute_component (c : component) (result : option (list component))
    : option (list component) :=
  result ← result;
  match c with
  | RootDir => Some [RootDir]
  | CurDir => Some result
  | ParentDir => pop result
  | Normal part => Some (result ++ [Normal part])
  end.

Definition normalize_absolute (path : str) : option (list component) :=
  if is_absolute path then
    result ← foldl (fun r c => absolute_component c r) (Some []) (path_components path);
    match result with [] => None | _ => Some result end
  else None.

Definition path_within (path base : list component) : bool :=
  bool_decide (take (length base) path = base).

(** The loop over the changed files. *)
Fixpoint guard_targets (branch_norm : list component) (paths : list str) : option branch_refusal :=
  match paths with
  | [] => None
  | path :: paths =>
      match normalize_absolute path with
      | None => Some (TargetUnresolved path)
      | Some normalized =>
          if path_within normalized branch_norm then guard_targets branch_norm paths
          else Some (TargetOutside path)
      end
  end.

(** The keys of the changes, in the order of the map. *)
Definition changed_paths (action : apply_patch_action) : list str :=
  (fun '(_, (path, _)) => path) <$> map_to_list (changes action).

Definition guard_apply_patch_outside_branch (branch_root : str) (action : apply_patch_action)
    : option branch_refusal :=
  match normalize_absolute branch_root with
  | None => Some RootUnresolved
  | Some branch_norm =>
      match normalize_absolute (action_cwd action) with
      | None => Some CwdUnresolved
      | Some action_cwd_norm =>
          if path_within action_cwd_norm branch_norm then guard_targets branch_norm (changed_paths action)
          else Some CwdOutside
      end
  end.

(** ** Scripts of plain commands *)

Definition blank (s : str) : Prop := Forall (fun c => is_whitespace c = true) s.

Lemma split_whitespace_blank_app ws s : blank ws ->
  split_whitespace (ws ++ s) = split_whitespace s.
Proof.
  induction 1 as [|c ws Hc _ IH]; [done|]. unfold split_whitespace. cbn. by rewrite Hc.
Qed.

Lemma split_whitespace_app_blank s ws : blank ws -> split_whitespace (s ++ ws) = split_whitespace s.
Proof.
  intros [|c ws' Hc Hws]; [by rewrite app_nil_r|].
  rewrite split_whitespace_app by done. rewrite <- (app_nil_r ws'), split_whitespace_blank_app by done.
  apply app_nil_r.
Qed.

Lemma trim_blanks s : exists before after, blank before /\ blank after /\ s = before ++ trim s ++ after.
Proof.
  assert (Hd : forall l, exists k, blank k /\ l = k ++ drop_while is_whitespace l).
  { induction l as [|c l [k [Hk IH]]]; [by exists []; split; [constructor|]|]. cbn.
    destruct (is_whitespace c) eqn:Ec; [|by exists []; split; [constructor|]].
    exists (c :: k). split; [by constructor|]. cbn. by f_equal. }
  destruct (Hd (reverse s)) as (k & Hk & Hs). destruct (Hd (trim_end s)) as (before & Hb & Ht).
  exists before, (reverse k). split; [done|]. split; [by apply Forall_reverse|].
  unfold trim, trim_start. rewrite app_assoc, <- Ht. unfold trim_end, drop_while_end.
  by rewrite <- reverse_app, <- Hs, reverse_involutive.
Qed.

Lemma split_whitespace_trim s : split_whitespace (trim s) = split_whitespace s.
Proof.
  destruct (trim_blanks s) as (before & after & Hb & Ha & Hs). rewrite Hs at 2.
  by rewrite split_whitespace_blank_app, split_whitespace_app_blank.
Qed.

(** *** Splitting *)

Lemma split_where_app f cur a c b : f c = true ->
  split_from_where f cur (a ++ c :: b) = split_from_where f cur a ++ split_where f b.
Proof.
  intros Hc. revert cur. induction a as [|x a IH]; intros cur; cbn; [by rewrite Hc|].
  destruct (f x); [cbn|]; by rewrite IH.
Qed.

Lemma split_where_none f cur a : Forall (fun x => f x = false) a ->
  split_from_where f cur a = [cur ++ a].
Proof.
  intros Ha. revert cur. induction Ha as [|x a Hx _ IH]; intros cur; cbn; [by rewrite app_nil_r|].
  by rewrite Hx, IH, <- app_assoc.
Qed.

Lemma split_where_ext f g cur a : Forall (fun x => f x = g x) a ->
  split_from_where f cur a = split_from_where g cur a.
Proof.
  intros Ha. revert cur. induction Ha as [|x a Hx _ IH]; intros cur; cbn; [done|].
  rewrite Hx. destruct (g x); by rewrite IH.
Qed.

Lemma first_where {A} (f : A -> bool) s : Forall (fun x => f x = false) s \/
  exists a c b, s = a ++ c :: b /\ f c = true /\ Forall (fun x => f x = false) a.
Proof.
  induction s as [|x s [IH|(a & c & b & -> & Hc & Ha)]]; [by left| |].
  - destruct (f x) eqn:Ex; [right; by exists [], x, s|left; by constructor].
  - right. destruct (f x) eqn:Ex; [by exists [], x, (a ++ c :: b)|].
    exists (x :: a), c, b. split; [done|]. split; [done|]. by constructor.
Qed.

(** Splitting twice is splitting at both. *)
Lemma split_twice f g s :
  (chunk ← split_where f s; split_where g chunk) = split_where (fun c => f c || g c) s.
Proof.
  assert (Hg : forall a, Forall (fun x => f x = false) a ->
    split_where g a = split_where (fun c => f c || g c) a).
  { intros a Ha. apply split_where_ext. eapply Forall_impl; [exact Ha|]. by intros x ->. }
  induction s as [s IH] using (well_founded_induction (well_founded_ltof _ length)).
  unfold ltof in IH. destruct (first_where f s) as [Hs|(a & c & b & -> & Hc & Ha)].
  - unfold split_where at 2. rewrite split_where_none by done. cbn. rewrite app_nil_r. by apply Hg.
  - unfold split_where at 2 3. rewrite !split_where_app by (by rewrite ?Hc).
    rewrite (split_where_none f [] a Ha). cbn [app mbind list_bind].
    rewrite IH by (rewrite length_app; cbn; lia). f_equal. by apply Hg.
Qed.

(** *** Pieces, commands and scripts *)

(** A word, or a quoted text. *)
Inductive piece := Plain (w : str) | SingleQuoted (text : str) | DoubleQuoted (text : str).

Inductive connector := AndThen | OrElse | Pipe | Semicolon | Newline.

Record script := Script { first_of : list piece; others_of : list (connector * list piece) }.

Definition commands_of (s : script) : list (list piece) := first_of s :: (others_of s).*2.

Definition piece_text (p : piece) : str :=
  match p with
  | Plain w => w
  | SingleQuoted text => SQUOTE :: text ++ [SQUOTE]
  | DoubleQuoted text => DQUOTE :: text ++ [DQUOTE]
  end.

Definition connector_text (k : connector) : str :=
  match k with
  | AndThen => lit " && " | OrElse => lit " || " | Pipe => lit " | " | Semicolon => lit "; "
  | Newline => [LF]
  end.

Definition command_of_pieces (ps : list piece) : str := join (lit " ") (piece_text <$> ps).

Definition script_text (s : script) : str :=
  command_of_pieces (first_of s) ++
  concat ((fun '(k, ps) => connector_text k ++ command_of_pieces ps) <$> others_of s).

Definition is_separator (c : char) : bool :=
  one_of [59%N; LF; CR] c || one_of [124%N; 38%N] c.

Definition plain_char (c : char) : bool :=
  negb (is_whitespace c) && negb (is_separator c) && negb (one_of [BACKSLASH; SQUOTE; DQUOTE] c).

Definition piece_ok (p : piece) : bool :=
  match p with
  | Plain w => negb (str_eqb w []) && forallb plain_char w
  | SingleQuoted text => forallb (fun c => negb (c =? SQUOTE)%N) text
  | DoubleQuoted text => forallb (fun c => negb (one_of [BACKSLASH; DQUOTE] c)) text
  end.

Definition script_ok (s : script) : bool :=
  forallb (fun ps => match ps with [] => false | _ => forallb piece_ok ps end) (commands_of s).

(** The words that the guard sees: a separator inside quotes separates words only. *)
Definition unseparated (text : str) : str := (fun c => if is_separator c then 32%N else c) <$> text.

Definition piece_words (p : piece) : list str :=
  match p with
  | Plain w => [w]
  | SingleQuoted text | DoubleQuoted text => split_whitespace (unseparated text)
  end.

Definition command_words (ps : list piece) : list str := concat (piece_words <$> ps).

Definition clean_piece (p : piece) : str :=
  match p with
  | Plain w => w
  | SingleQuoted text | DoubleQuoted text => 32%N :: unseparated text ++ [32%N]
  end.

Definition clean_command (ps : list piece) : str := join (lit " ") (clean_piece <$> ps).

Lemma separator_in_quotes c : one_of [124%N; 38%N; 59%N; LF; CR] c = is_separator c.
Proof.
  unfold is_separator, one_of. cbn [existsb].
  by destruct (c =? 124)%N, (c =? 38)%N, (c =? 59)%N, (c =? LF)%N, (c =? CR)%N.
Qed.

(** A character that is no quote and no backslash stays outside of quotes. *)
Lemma clean_outside s rest :
  Forall (fun c => one_of [BACKSLASH; SQUOTE; DQUOTE] c = false) s ->
  clean_quotes false false false (s ++ rest) = s ++ clean_quotes false false false rest.
Proof.
  induction 1 as [|c s Hc _ IH]; [done|]. cbn [app clean_quotes].
  cbn in Hc. apply orb_false_iff in Hc as [Hb Hc]. apply orb_false_iff in Hc as [Hs Hc].
  apply orb_false_iff in Hc as [Hd _]. rewrite Hb, Hs, Hd. cbn. by rewrite IH.
Qed.

Lemma clean_single text rest : forallb (fun c => negb (c =? SQUOTE)%N) text = true ->
  forall bs, clean_quotes true false bs (text ++ SQUOTE :: rest) =
    unseparated text ++ 32%N :: clean_quotes false false false rest.
Proof.
  induction text as [|c text IH]; intros Hc bs; [done|]. cbn [app clean_quotes].
  cbn [forallb] in Hc. apply andb_true_iff in Hc as [Hq Hc]. apply negb_true_iff in Hq.
  rewrite Hq, separator_in_quotes. cbn [negb]. rewrite andb_false_r. cbn [andb orb].
  cbn [unseparated fmap list_fmap app]. destruct (c =? BACKSLASH)%N; by rewrite IH.
Qed.

Lemma clean_double text rest : forallb (fun c => negb (one_of [BACKSLASH; DQUOTE] c)) text = true ->
  clean_quotes false true false (text ++ DQUOTE :: rest) =
    unseparated text ++ 32%N :: clean_quotes false false false rest.
Proof.
  induction text as [|c text IH]; intros Hc; [done|]. cbn [app clean_quotes].
  cbn [forallb] in Hc. apply andb_true_iff in Hc as [Hq Hc]. apply negb_true_iff in Hq.
  cbn in Hq. apply orb_false_iff in Hq as [Hb Hd]. rewrite orb_false_r in Hd.
  rewrite Hb, Hd, separator_in_quotes. cbn [negb]. rewrite andb_false_r. cbn [andb orb].
  cbn [unseparated fmap list_fmap app]. by rewrite IH.
Qed.

Lemma clean_piece_ok p rest : piece_ok p = true ->
  clean_quotes false false false (piece_text p ++ rest) =
  clean_piece p ++ clean_quotes false false false rest.
Proof.
  destruct p as [w|text|text]; cbn [piece_ok piece_text clean_piece]; intros Hp.
  - apply andb_true_iff in Hp as [_ Hp]. apply clean_outside.
    apply Forall_forall. intros c Hc. rewrite forallb_forall in Hp.
    specialize (Hp c (proj1 (list_elem_of_In _ _) Hc)). unfold plain_char in Hp.
    apply andb_true_iff in Hp as [_ Hp]. by apply negb_true_iff in Hp.
  - cbn [app clean_quotes]. change (SQUOTE =? BACKSLASH)%N with false.
    change ((SQUOTE =? SQUOTE)%N && negb false) with true. cbn [negb].
    rewrite <- !app_assoc. cbn [app]. by rewrite clean_single.
  - cbn [app clean_quotes]. change (DQUOTE =? BACKSLASH)%N with false.
    change ((DQUOTE =? SQUOTE)%N && negb false) with false.
    change ((DQUOTE =? DQUOTE)%N && negb false && negb false) with true. cbn [negb].
    rewrite <- !app_assoc. cbn [app]. by rewrite clean_double.
Qed.

Lemma clean_command_ok ps rest : forallb piece_ok ps = true ->
  clean_quotes false false false (command_of_pieces ps ++ rest) =
  clean_command ps ++ clean_quotes false false false rest.
Proof.
  unfold command_of_pieces, clean_command. induction ps as [|p ps IH]; [done|].
  intros [Hp Hps]%andb_true_iff. destruct ps as [|p' ps]; cbn [fmap list_fmap join] in *.
  - by apply clean_piece_ok.
  - rewrite <- !app_assoc, clean_piece_ok by done. f_equal. rewrite <- IH by done.
    apply (clean_outside (lit " ")). by repeat constructor.
Qed.

Lemma clean_connector k rest :
  clean_quotes false false false (connector_text k ++ rest) =
  connector_text k ++ clean_quotes false false false rest.
Proof. apply clean_outside. destruct k; by repeat constructor. Qed.

Lemma clean_piece_inside p : piece_ok p = true ->
  Forall (fun c => is_separator c = false) (clean_piece p) /\
  split_whitespace (clean_piece p) = piece_words p.
Proof.
  assert (Hquoted : forall text, Forall (fun c => is_separator c = false) (32%N :: unseparated text ++ [32%N]) /\
    split_whitespace (32%N :: unseparated text ++ [32%N]) = split_whitespace (unseparated text)).
  { intros text. split.
    - constructor; [done|]. apply Forall_app. split; [|by constructor]. apply Forall_fmap, Forall_forall.
      intros c _. cbn. destruct (is_separator c) eqn:E; [done|exact E].
    - change (32%N :: unseparated text ++ [32%N]) with ([32%N] ++ unseparated text ++ [32%N]).
      rewrite split_whitespace_blank_app, split_whitespace_app_blank; by repeat constructor. }
  destruct p as [w|text|text]; cbn [piece_ok clean_piece piece_words]; [|by intros; apply Hquoted..].
  intros [Hne Hw]%andb_true_iff. rewrite forallb_forall in Hw.
  assert (Hplain : forall c, c ∈ w -> is_separator c = false /\ is_whitespace c = false).
  { intros c Hc%list_elem_of_In. specialize (Hw c Hc). unfold plain_char in Hw.
    apply andb_true_iff in Hw as [Hw _]. apply andb_true_iff in Hw as [H1 H2].
    apply negb_true_iff in H1, H2. by split. }
  split; [apply Forall_forall; intros c Hc; by apply Hplain|].
  apply split_whitespace_word; [by apply str_eqb_neq, negb_true_iff|].
  apply Forall_forall. intros c Hc. by apply Hplain.
Qed.

Lemma clean_command_inside ps : forallb piece_ok ps = true ->
  Forall (fun c => is_separator c = false) (clean_command ps) /\
  split_whitespace (clean_command ps) = command_words ps.
Proof.
  unfold clean_command, command_words. induction ps as [|p ps IH]; [by split|].
  intros [[Hf Hw]%clean_piece_inside Hps]%andb_true_iff. destruct (IH Hps) as [Hf' Hw'].
  rewrite !fmap_cons. cbn [concat]. rewrite <- Hw, <- Hw'.
  destruct ps as [|p' ps]; [cbn; by rewrite app_nil_r|].
  assert (join (lit " ") (clean_piece p :: (clean_piece <$> p' :: ps)) =
    clean_piece p ++ 32%N :: join (lit " ") (clean_piece <$> p' :: ps)) as -> by reflexivity.
  split; [|by rewrite split_whitespace_app].
  apply Forall_app. split; [done|]. by constructor.
Qed.

Lemma part_kind_words part : part_kind part = words_kind (split_whitespace part).
Proof. unfold part_kind. by rewrite split_whitespace_trim. Qed.

Lemma separators_skipped seps rest : Forall (fun c => is_separator c = true) seps ->
  omap part_kind (split_where is_separator (seps ++ rest)) =
  omap part_kind (split_where is_separator rest).
Proof.
  induction 1 as [|c seps Hc _ IH]; [done|]. unfold split_where at 1. cbn [app split_from_where].
  rewrite Hc. exact IH.
Qed.

Lemma connector_shape k : exists before c seps after, connector_text k = before ++ (c :: seps) ++ after /\
  blank before /\ Forall (fun c => is_separator c = false) before /\
  Forall (fun c => is_separator c = true) (c :: seps) /\
  blank after /\ Forall (fun c => is_separator c = false) after.
Proof.
  destruct k; [exists (lit " "), 38%N, (lit "&"), (lit " ")|exists (lit " "), 124%N, (lit "|"), (lit " ")
    |exists (lit " "), 124%N, [], (lit " ")|exists [], 59%N, [], (lit " ")|exists [], LF, [], []];
    by repeat constructor.
Qed.

Lemma detect_parts first others : forall ws,
  forallb piece_ok first = true -> forallb (fun ps => forallb piece_ok ps) others.*2 = true ->
  blank ws -> Forall (fun c => is_separator c = false) ws ->
  omap part_kind (split_where is_separator (ws ++ clean_command first ++
    concat ((fun '(k, ps) => connector_text k ++ clean_command ps) <$> others))) =
  omap (fun ps => words_kind (command_words ps)) (first :: others.*2).
Proof.
  revert first. induction others as [|[k ps] others IH]; intros first ws Hf Ho Hw Hs;
    destruct (clean_command_inside first Hf) as [Hin Hwords].
  - cbn [fmap list_fmap concat]. rewrite app_nil_r. unfold split_where.
    rewrite split_where_none by (by apply Forall_app). cbn [app omap list_omap].
    by rewrite part_kind_words, split_whitespace_blank_app, Hwords.
  - cbn [fmap list_fmap concat forallb snd] in Ho |- *. apply andb_true_iff in Ho as [Hps Ho].
    destruct (connector_shape k) as (before & c & seps & after & -> & Hb & Hbs & [Hc Hseps]%Forall_cons & Ha & Has).
    replace (ws ++ clean_command first ++ ((before ++ (c :: seps) ++ after) ++ clean_command ps) ++
      concat ((fun '(k, ps) => connector_text k ++ clean_command ps) <$> others))
      with ((ws ++ clean_command first ++ before) ++ c :: seps ++ after ++ clean_command ps ++
        concat ((fun '(k, ps) => connector_text k ++ clean_command ps) <$> others))
      by (by rewrite <- !app_assoc).
    unfold split_where at 1. rewrite split_where_app, split_where_none by (done || by rewrite !Forall_app).
    cbn [app omap list_omap]. rewrite separators_skipped by done.
    rewrite part_kind_words, split_whitespace_blank_app, split_whitespace_app_blank, Hwords by done.
    specialize (IH ps after Hps Ho Ha Has). cbn [omap list_omap] in IH.
    by rewrite IH.
Qed.

Lemma script_ok_pieces s : script_ok s = true ->
  forallb piece_ok (first_of s) = true /\ forallb (fun ps => forallb piece_ok ps) (others_of s).*2 = true.
Proof.
  assert (Hps : forall ps : list piece, (match ps with [] => false | _ => forallb piece_ok ps end) = true ->
    forallb piece_ok ps = true) by by intros [].
  unfold script_ok, commands_of. cbn [forallb]. intros [Hf Ho]%andb_true_iff. split; [by apply Hps|].
  rewrite forallb_forall in Ho |- *. intros ps Hin. apply Hps. by apply Ho.
Qed.

Lemma clean_script s : script_ok s = true ->
  clean_quotes false false false (script_text s) = clean_command (first_of s) ++
    concat ((fun '(k, ps) => connector_text k ++ clean_command ps) <$> others_of s).
Proof.
  intros [Hf Ho]%script_ok_pieces. unfold script_text. rewrite clean_command_ok by done. f_equal.
  destruct s as [first others]. cbn [others_of] in Ho |- *. clear Hf.
  induction others as [|[k ps] others IH]; [done|]. cbn [fmap list_fmap forallb snd concat] in Ho |- *.
  apply andb_true_iff in Ho as [Hps Ho].
  rewrite <- !app_assoc, clean_connector, clean_command_ok by done. do 2 f_equal. by apply IH.
Qed.

(** A script is searched command by command: the first sensitive one counts, whatever stands
    in quotes, and no text in quotes begins a command. *)
Lemma detect_plain_script s : script_ok s = true ->
  detect_sensitive_git (script_text s) =
  head (omap (fun ps => words_kind (command_words ps)) (commands_of s)).
Proof.
  intros Hs. unfold detect_sensitive_git. rewrite clean_script by done.
  apply script_ok_pieces in Hs as [Hf Ho]. rewrite split_twice. f_equal.
  by apply (detect_parts (first_of s) (others_of s) []); try constructor.
Qed.

(** *** Calls of [git] *)

(** A word with none of the brackets and quotes that are cut off at its ends. *)
Definition bare (w : str) : Prop :=
  w <> [] /\ forall c, head w = Some c \/ last w = Some c -> c ∉ lit "(){}'" ++ [DQUOTE].

Definition dashed (w : str) : Prop := head w = Some 45%N.

Definition words (l : list string) : list str := lit <$> l.

(** [NAME=value] *)
Definition assignment (a : str) : Prop :=
  exists name value, a = name ++ 61%N :: value /\ name <> [] /\ 61%N ∉ name /\ ~ dashed a.

(** Assignments and wrappers with their flags. *)
Inductive prefix_words : list str -> Prop :=
| prefix_nil : prefix_words []
| prefix_assignment a l : bare a -> assignment a -> prefix_words l -> prefix_words (a :: l)
| prefix_wrapper w flags l :
    w ∈ words ["env"; "sudo"; "command"; "time"; "nohup"; "nice"; "then"; "do"] ->
    Forall (fun f => bare f /\ dashed f) flags -> prefix_words l ->
    prefix_words (w :: flags ++ l).

(** [git], or a path to it. *)
Definition program_word (cmd : str) : Prop :=
  bare cmd /\ (cmd = lit "git" \/ exists dir, cmd = dir ++ lit "/git") /\ ~ dashed cmd /\ 61%N ∉ cmd.

(** The options that take a value. *)
Definition value_globals : list str := words ["-C"; "--git-dir"; "--work-tree"; "-c"].

Inductive global_words : list str -> Prop :=
| global_nil : global_words []
| global_value o v l : o ∈ value_globals -> global_words l -> global_words (o :: v :: l)
| global_flag f l : bare f -> dashed f -> f ∉ value_globals -> global_words l ->
    global_words (f :: l).

(** A call of [git] with a subcommand. *)
Inductive git_words : list str -> str -> list str -> Prop :=
| git_words_call pre cmd globals sub args :
    prefix_words pre -> program_word cmd -> global_words globals ->
    bare sub -> ~ dashed sub -> Forall bare args ->
    git_words (pre ++ cmd :: globals ++ sub :: args) sub args.

(** The calls that change a branch or discard work: every [reset] and [revert]; a [switch] that
    creates, detaches or names a branch; a [checkout] of paths, one that creates or detaches,
    and one whose first argument is [-] or a name, neither [.] nor [..]. *)
Definition discards (sub : str) (args : list str) : Prop :=
  sub = lit "reset" \/ sub = lit "revert" \/
  (sub = lit "switch" /\
     exists a, a ∈ args /\ (a ∈ words ["-c"; "--detach"] \/ ~ dashed a)) \/
  (sub = lit "checkout" /\
     ((exists a, a ∈ args /\ a ∈ words ["--"; "-b"; "-B"; "--orphan"; "--detach"]) \/
      exists a rest, args = a :: rest /\ (a = lit "-" \/ (~ dashed a /\ a ∉ words ["."; ".."])))).

(** *** The code's predicates on them *)

Lemma dashed_flag w : dashed w <-> is_flag w = true.
Proof.
  unfold dashed, is_flag. rewrite starts_with_spec. split.
  - destruct w as [|c w]; [done|]. intros [= ->]. by exists w.
  - by intros [r ->].
Qed.

Lemma not_dashed_flag w : ~ dashed w <-> is_flag w = false.
Proof. by rewrite dashed_flag, not_true_iff_false. Qed.

Lemma bare_strip w : bare w -> strip_tok w = w.
Proof.
  intros [_ Hb]. unfold strip_tok, trim_where.
  assert (forall c, head w = Some c \/ last w = Some c -> one_of (lit "(){}'" ++ [DQUOTE]) c = false) as Ho.
  { intros c Hc. apply not_true_iff_false. unfold one_of. rewrite existsb_exists.
    intros (x & Hx & ->%N.eqb_eq). apply (Hb x Hc). by apply list_elem_of_In. }
  rewrite (proj2 (drop_while_end_id _ w)) by (intros c Hc; apply Ho; by right).
  apply drop_while_id. intros c Hc. apply Ho. by left.
Qed.

Lemma contains_equals a b : str_contains (lit "=") (a ++ 61%N :: b) = true.
Proof.
  induction a as [|c a IH]; [done|]. cbn [app str_contains]. by rewrite IH, orb_true_r.
Qed.

Lemma without_equals w : 61%N ∉ w -> str_contains (lit "=") w = false.
Proof.
  induction w as [|c w IH]; [done|]. rewrite not_elem_of_cons. intros [Hc Hw]. cbn [str_contains].
  rewrite IH, orb_false_r by done. apply not_true_iff_false. rewrite starts_with_spec.
  intros [r [= -> _]]. done.
Qed.

Lemma assignment_is a : assignment a -> is_assignment a = true.
Proof.
  intros (name & value & -> & Hn & Hne & Hd). unfold is_assignment.
  rewrite contains_equals. apply not_dashed_flag in Hd. unfold is_flag in Hd. rewrite Hd.
  rewrite andb_true_r. cbn [andb]. apply negb_true_iff, not_true_iff_false. rewrite starts_with_spec.
  destruct name as [|c name]; [done|]. intros [r [= -> _]]. apply Hne. by left.
Qed.

Lemma program_is cmd : program_word cmd ->
  is_git cmd = true /\ is_flag cmd = false /\ is_assignment cmd = false.
Proof.
  intros (_ & Hg & Hd & Hne). split; [|split].
  - unfold is_git. destruct Hg as [->|[dir ->]]; [done|]. apply orb_true_iff. left.
    unfold ends_with, strip_suffix. rewrite reverse_app. by rewrite strip_prefix_app.
  - by apply not_dashed_flag.
  - unfold is_assignment. by rewrite without_equals.
Qed.

Lemma discards_kind sub args : discards sub args -> subcommand_kind switch_kind (sub, args) <> None.
Proof.
  intros [->|[->|[[-> (a & Ha & Hs)]|[-> Hc]]]]; [done..| |].
  - change (switch_kind args <> None). induction args as [|x args IH]; [by apply elem_of_nil in Ha|].
    cbn [switch_kind]. destruct (str_eqb x _ || str_eqb x _) eqn:Ex; [done|].
    destruct (is_flag x) eqn:Ef; [|done]. apply IH.
    apply elem_of_cons in Ha as [->|Ha]; [|done]. destruct Hs as [Hs|Hs]; [|by apply dashed_flag in Ef].
    repeat (apply elem_of_cons in Hs as [->|Hs]; [done|]). by apply elem_of_nil in Hs.
  - change (checkout_kind args <> None). unfold checkout_kind.
    destruct (str_mem (lit "--") args) eqn:E1; [done|]. destruct (existsb _ args) eqn:E2; [done|].
    destruct Hc as [(a & Ha & Hm)|(a & rest & -> & Hf)].
    + exfalso. apply elem_of_cons in Hm as [->|Hm]; [by apply str_mem_elem in Ha; congruence|].
      apply not_true_iff_false in E2. apply E2, existsb_exists. exists a.
      split; [by apply list_elem_of_In|]. by apply str_mem_elem.
    + destruct (str_eqb a (lit "-")) eqn:E3; [done|]. apply str_eqb_neq in E3.
      destruct Hf as [?|[Hd Hm]]; [done|]. apply not_dashed_flag in Hd. rewrite Hd.
      unfold words in Hm. cbn [fmap list_fmap] in Hm. rewrite !not_elem_of_cons in Hm.
      destruct Hm as (H1 & H2 & _). apply str_eqb_neq in H1, H2. by rewrite H1, H2.
Qed.

Lemma bare_nonempty w : bare w -> strip_tok w = w /\ str_eqb w [] = false.
Proof. intros Hb. split; [by apply bare_strip|]. apply str_eqb_neq. by destruct Hb. Qed.

Lemma assignment_no_flag a : is_assignment a = true -> is_flag a = false.
Proof. unfold is_assignment. intros [_ H]%andb_true_iff. by apply negb_true_iff. Qed.

Lemma program_no_wrapper cmd : is_git cmd = true -> str_mem cmd SCRIPT_WRAPPERS = false.
Proof.
  intros Hg. apply str_mem_false. intros Hw.
  repeat (apply elem_of_cons in Hw as [->|Hw]; [discriminate Hg|]). by apply elem_of_nil in Hw.
Qed.

Lemma wrapper_word w :
  w ∈ words ["env"; "sudo"; "command"; "time"; "nohup"; "nice"; "then"; "do"] ->
  strip_tok w = w /\ str_eqb w [] = false /\ is_flag w = false /\ is_assignment w = false /\
  str_mem w SCRIPT_WRAPPERS = true.
Proof.
  intros Hw. repeat (apply elem_of_cons in Hw as [->|Hw]; [by repeat split|]).
  by apply elem_of_nil in Hw.
Qed.

Lemma skip_flags wrappers flags rest : Forall (fun f => bare f /\ dashed f) flags ->
  skip_wrappers wrappers true (flags ++ rest) = skip_wrappers wrappers true rest.
Proof.
  induction 1 as [|f flags [Hs%bare_strip Hf%dashed_flag] _ IH]; [done|].
  cbn [app skip_wrappers]. by rewrite Hs, Hf.
Qed.

Lemma skip_prefix pre cmd rest : prefix_words pre -> program_word cmd -> forall in_flags,
  skip_wrappers SCRIPT_WRAPPERS in_flags (pre ++ cmd :: rest) = cmd :: rest.
Proof.
  intros Hpre Hp. destruct (program_is cmd Hp) as (Hg & Hf & Ha).
  apply proj1 in Hp as [Hc Hne]%bare_nonempty.
  induction Hpre as [|a l [Hs Hn]%bare_nonempty Has%assignment_is _ IH|w flags l Hw Hflags _ IH]; intros in_flags;
    cbn [app skip_wrappers].
  - by rewrite Hc, Hf, Hne, Ha, (program_no_wrapper cmd), andb_false_r.
  - by rewrite Hs, (assignment_no_flag a), Hn, Has, andb_false_r.
  - destruct (wrapper_word w Hw) as (-> & -> & -> & -> & ->). rewrite andb_false_r.
    by rewrite <- app_assoc, skip_flags.
Qed.

Lemma value_global o : o ∈ value_globals ->
  strip_tok o = o /\ str_eqb o [] = false /\ str_mem o value_globals = true.
Proof.
  intros Ho. repeat (apply elem_of_cons in Ho as [->|Ho]; [by repeat split|]).
  by apply elem_of_nil in Ho.
Qed.

Lemma no_flag_global sub : is_flag sub = false ->
  str_mem sub value_globals = false /\ is_joined_global sub = false.
Proof.
  intros Hf. split.
  - apply str_mem_false. intros Ho.
    repeat (apply elem_of_cons in Ho as [->|Ho]; [discriminate Hf|]). by apply elem_of_nil in Ho.
  - unfold is_joined_global. apply not_true_iff_false. unfold starts_with.
    intros [[H|H]%orb_true_iff|H]%orb_true_iff;
      destruct (strip_prefix _ sub) as [r|] eqn:E; try discriminate H;
      apply strip_prefix_Some in E as ->; discriminate Hf.
Qed.

Lemma skip_globals globals sub args : global_words globals -> bare sub -> ~ dashed sub ->
  skip_git_globals (globals ++ sub :: args) = sub :: args.
Proof.
  intros Hg [Hs Hne]%bare_nonempty Hf%not_dashed_flag.
  induction Hg as [|o v l Ho _ IH|f l [Hfs Hfn]%bare_nonempty Hff%dashed_flag Hno _ IH];
    cbn [app skip_git_globals];
    change [lit "-C"; lit "--git-dir"; lit "--work-tree"; lit "-c"] with value_globals.
  - destruct (no_flag_global sub Hf) as [Hv Hj]. by rewrite Hs, Hne, Hv, Hj, Hf.
  - destruct (value_global o Ho) as (-> & -> & ->). exact IH.
  - apply str_mem_false in Hno. rewrite Hfs, Hfn, Hno, Hff, orb_true_r. exact IH.
Qed.

Lemma git_words_kind words sub args : git_words words sub args ->
  words_kind words = subcommand_kind switch_kind (sub, args).
Proof.
  intros [pre cmd globals sub' args' Hpre Hcmd Hg Hb Hf Hargs]. unfold words_kind, git_subcommand.
  rewrite skip_prefix by done. destruct (program_is cmd Hcmd) as (Hgit & _).
  rewrite (bare_strip cmd) by apply Hcmd. rewrite Hgit, skip_globals by done.
  rewrite (bare_strip sub') by done. cbn [mbind option_bind]. do 2 f_equal.
  induction Hargs as [|a l Ha _ IH]; [done|]. cbn [fmap list_fmap]. by rewrite (bare_strip a), IH.
Qed.

(** *** What is refused *)

Lemma script_first s : script_ok s = true -> trim_start (script_text s) = script_text s.
Proof.
  intros Hs. apply drop_while_id. intros c. unfold script_ok, commands_of in Hs. cbn [forallb] in Hs.
  apply andb_true_iff in Hs as [Hf _]. unfold script_text, command_of_pieces.
  destruct (first_of s) as [|p ps]; [done|]. apply andb_true_iff in Hf as [Hp _].
  assert (Hh : forall rest, head (piece_text p ++ rest) = Some c -> is_whitespace c = false).
  { intros rest. destruct p as [w|text|text]; cbn [piece_text piece_ok] in *; [|by intros [= <-]..].
    destruct w as [|x w]; [done|]. intros [= <-]. apply andb_true_iff in Hp as [_ Hp].
    cbn [forallb] in Hp. apply andb_true_iff in Hp as [Hp _]. unfold plain_char in Hp.
    apply andb_true_iff in Hp as [Hp _]. apply andb_true_iff in Hp as [Hp _].
    by apply negb_true_iff. }
  destruct ps as [|p' ps].
  - cbn [fmap list_fmap join]. apply Hh.
  - cbn [fmap list_fmap join]. rewrite <- app_assoc. apply Hh.
Qed.

Lemma head_omap_exists {A B} (f : A -> option B) l b : head (omap f l) = Some b ->
  existsb (fun x => match f x with Some _ => true | None => false end) l = true.
Proof.
  induction l as [|x l IH]; [done|]. cbn. destruct (f x); [done|exact IH].
Qed.

Lemma behind_prefix_prefixed s body : behind_prefix s = Some body -> confirm_prefixed s = true.
Proof. apply (head_omap_exists (fun p => strip_prefix p s)). Qed.

Lemma prefixed_behind_prefix s : confirm_prefixed s = true -> exists body, behind_prefix s = Some body.
Proof.
  unfold confirm_prefixed, behind_prefix, starts_with. induction CONFIRM_PREFIXES as [|p l IH]; [done|].
  cbn. destruct (strip_prefix p s) as [body|]; [by exists body|exact IH].
Qed.

(** A script without the prefix of a confirmation. *)
Definition unprefixed (command : list str) : list str :=
  match extract_shell_script command with
  | Some (i, script) =>
      match behind_prefix (trim_start script) with
      | Some body => <[i := trim_start body]> command
      | None => command
      end
  | None => command
  end.

Lemma or_refused_goes_on r next c : or_refused r next = GoesOn c -> r = None /\ next = GoesOn c.
Proof. by destruct r. Qed.

Section refusals.
Context (shlex_split : str -> option (list str)).
Context (shlex_try_join : list str -> option str).
Context (try_parse_bash : str -> option tree).
Context (is_match : str -> str -> bool).
Local Abbreviation guards := (command_guards shlex_split shlex_try_join try_parse_bash is_match).

(** A confirmed script goes on without its prefix, unless it writes files or begins with a
    change into its directory. *)
Theorem confirmed_goes_on patterns state cwd shell flag script body :
  is_shell_like_executable shell = true -> behind_prefix (trim shell) = None ->
  flag ∈ [lit "-lc"; lit "-c"] ->
  behind_prefix (trim_start script) = Some body ->
  guards patterns state cwd [shell; flag; script] =
  guard_writes shlex_split shlex_try_join cwd [shell; flag; trim_start body]
    (GoesOn [shell; flag; trim_start body]).
Proof.
  intros Hsh Hn Hf Hb.
  assert (He : forall script', extract_shell_script [shell; flag; script'] = Some (2, script')).
  { intros script'. cbn [extract_shell_script]. apply str_mem_elem in Hf. by rewrite Hsh, Hf. }
  assert (Hd : forall command,
    missing_dry_run shlex_split shlex_try_join try_parse_bash state true command = None).
  { intros command. unfold missing_dry_run. by destruct (analysis_of_command _ _ _ command). }
  unfold command_guards. rewrite He. unfold guard_script.
  rewrite (behind_prefix_prefixed _ _ Hb), Hb. cbn [or_refused fmap option_fmap option_map].
  change (default (trim_start script) (Some (trim_start body))) with (trim_start body).
  change (<[2 := trim_start body]> [shell; flag; script]) with [shell; flag; trim_start body].
  rewrite Hd. cbn [or_refused].
  assert (strip_leading_confirm_prefix [shell; flag; trim_start body] = [shell; flag; trim_start body])
    as -> by (unfold strip_leading_confirm_prefix; by rewrite Hn).
  by rewrite He.
Qed.

(** What goes on changes into no directory it is in and writes no file through the shell or
    Python, and a command that is no script is checked once more. *)
Theorem goes_on_checked patterns state cwd command c :
  guards patterns state cwd command = GoesOn c ->
  detect_redundant_cd shlex_split shlex_try_join c cwd = None /\ detect_cat_write c = None /\
  detect_python_write c = None /\
  (extract_shell_script c = None ->
   matched_pattern is_match patterns (join (lit " ") c) = None /\
   missing_dry_run shlex_split shlex_try_join try_parse_bash state false c = None /\
   detect_sensitive_git_argv c = None) /\
  c = strip_leading_confirm_prefix (unprefixed command).
Proof.
  assert (Hw : forall c', guard_writes shlex_split shlex_try_join cwd c'
      match extract_shell_script c' with
      | Some _ => GoesOn c'
      | None => guard_argv shlex_split shlex_try_join try_parse_bash is_match patterns state c'
      end = GoesOn c ->
    c = c' /\ detect_redundant_cd shlex_split shlex_try_join c cwd = None /\
    detect_cat_write c = None /\ detect_python_write c = None /\
    (extract_shell_script c = None ->
     matched_pattern is_match patterns (join (lit " ") c) = None /\
     missing_dry_run shlex_split shlex_try_join try_parse_bash state false c = None /\
     detect_sensitive_git_argv c = None)).
  { intros c'. unfold guard_writes, guard_argv.
    intros (Hr%fmap_None & (Hcat%fmap_None & (Hpy%fmap_None & Hlast)%or_refused_goes_on)%or_refused_goes_on)%or_refused_goes_on.
    destruct (extract_shell_script c') eqn:Ec.
    - injection Hlast as <-. repeat (split; [done|]). by rewrite Ec.
    - apply or_refused_goes_on in Hlast as [Hp%fmap_None Hlast].
      apply or_refused_goes_on in Hlast as [Hd Hlast].
      apply or_refused_goes_on in Hlast as [Hg%fmap_None [= <-]]. by repeat (split; [done|]). }
  unfold command_guards. destruct (extract_shell_script command) as [[i script]|] eqn:Ei.
  - unfold guard_script. intros (_ & (_ & (_ & Hn)%or_refused_goes_on)%or_refused_goes_on)%or_refused_goes_on.
    apply Hw in Hn as (Hc & H1 & H2 & H3 & H4). repeat (split; [assumption|]). rewrite Hc.
    unfold unprefixed. rewrite Ei. f_equal.
    destruct (behind_prefix (trim_start script)) as [body|] eqn:Eb;
      [by rewrite (behind_prefix_prefixed _ _ Eb)|].
    destruct (confirm_prefixed (trim_start script)) eqn:E; [|done].
    by apply prefixed_behind_prefix in E as [body E]; rewrite E in Eb.
  - intros (Hc & H1 & H2 & H3 & H4)%Hw. repeat (split; [assumption|]). rewrite Hc.
    unfold unprefixed. by rewrite Ei.
Qed.
End refusals.

(** ** Patches stay in the worktree *)

Lemma guard_targets_None norm paths : guard_targets norm paths = None <->
  Forall (fun p => exists n, normalize_absolute p = Some n /\ path_within n norm = true) paths.
Proof.
  induction paths as [|p paths IH]; cbn [guard_targets]; [by split; [constructor|]|].
  rewrite Forall_cons, <- IH. destruct (normalize_absolute p) as [n|]; [|by split; [|intros [(? & ? & _) _]]].
  destruct (path_within n norm) eqn:E; [|by split; [|intros [(? & [= <-] & Hn) _]; rewrite E in Hn]].
  split; [|by intros [_ H]]. intros H. split; [by exists n|done].
Qed.

Definition below_root (n : list component) : Prop :=
  exists parts, n = RootDir :: (Normal <$> parts).

Lemma absolute_component_below c n n' : below_root n -> absolute_component c (Some n) = Some n' ->
  below_root n'.
Proof.
  intros [parts ->]. destruct c as [| | |part]; cbn [absolute_component mbind option_bind].
  - intros [= <-]. by exists [].
  - intros [= <-]. by exists parts.
  - unfold pop. destruct parts as [|part parts _] using rev_ind; [done|].
    rewrite fmap_app. cbn [fmap list_fmap]. rewrite app_comm_cons, last_snoc, removelast_last.
    intros [= <-]. by exists parts.
  - intros [= <-]. exists (parts ++ [part]). by rewrite fmap_app.
Qed.

(** What is left of an absolute path has no [.] and no [..]. *)
Lemma absolute_below path n : normalize_absolute path = Some n -> below_root n.
Proof.
  unfold normalize_absolute. destruct (is_absolute path) eqn:Ea; [|done].
  assert (exists cs, path_components path = RootDir :: cs) as [cs ->].
  { unfold path_components. destruct (split_on SLASH path) as [|s0 rest] eqn:E.
    - by apply split_on_ne in E.
    - rewrite Ea. by eexists. }
  cbn [foldl absolute_component mbind option_bind].
  assert (H : forall cs r n, foldl (fun r c => absolute_component c r) r cs = Some n ->
    (forall m, r = Some m -> below_root m) -> below_root n).
  { clear. induction cs as [|c cs IH]; intros r n Hr Hb; cbn in Hr; [by apply Hb|].
    apply (IH _ _ Hr). intros m Hm. destruct r as [r|]; [|done].
    by apply (absolute_component_below c r m (Hb r eq_refl)). }
  intros Hn. apply bind_Some in Hn as (n' & Hn & Hn'). destruct n'; [done|]. injection Hn' as <-.
  apply (H _ _ _ Hn). intros m [= <-]. by exists [].
Qed.

(** A patch is let through exactly when it runs in the worktree and every file that it
    names, read without [.] and [..], is in it. *)
Theorem branch_patch_inside branch_root action root :
  normalize_absolute branch_root = Some root ->
  guard_apply_patch_outside_branch branch_root action = None <->
  Forall (fun p => exists n, normalize_absolute p = Some n /\ below_root n /\
                     exists below, n = root ++ below)
    (action_cwd action :: changed_paths action).
Proof.
  intros Hr. unfold guard_apply_patch_outside_branch. rewrite Hr.
  assert (Hin : forall p, (exists n, normalize_absolute p = Some n /\ path_within n root = true) <->
    (exists n, normalize_absolute p = Some n /\ below_root n /\ exists below, n = root ++ below)).
  { intros p. split; intros (n & Hn & H); exists n; (split; [done|]).
    - split; [by apply absolute_below in Hn|]. apply bool_decide_eq_true in H.
      exists (drop (length root) n). rewrite <- H at 1. by rewrite take_drop.
    - destruct H as [_ [below ->]]. apply bool_decide_eq_true. by rewrite take_app_length. }
  rewrite Forall_cons, <- Hin, <- (Forall_iff _ _ _ Hin), <- guard_targets_None.
  destruct (normalize_absolute (action_cwd action)) as [n|]; [|by split; [|intros [(? & ? & _) _]]].
  destruct (path_within n root) eqn:E; [|by split; [|intros [(? & [= <-] & Hn) _]; rewrite E in Hn]].
  split; [|by intros [_ H]]. intros H. split; [by exists n|done].
Qed.

(** ** Runs *)

Module GuardsRuns.

Definition split (s : str) : option (list str) := Some (split_whitespace s).
Definition try_join (tokens : list str) : option str := Some (join (lit " ") tokens).
Definition no_pattern (pattern input : str) : bool := false.
Definition no_parser (script : str) : option tree := None.

Definition guards (command : list string) : guarded :=
  command_guards split try_join no_parser no_pattern [] new_guard (lit "/repo")
    (lit <$> command).

Definition bash (s : string) : list string := ["bash"; "-lc"; s]%string.

Example branch_changes :
  guards (bash "cd src && sudo -n git -C . checkout main") = Refused (SensitiveGit BranchChange) /\
  guards (bash "git commit -m 'first; git reset --hard'") =
    GoesOn (lit <$> bash "git commit -m 'first; git reset --hard'") /\
  guards (bash "confirm: git reset --hard") = GoesOn (lit <$> bash "git reset --hard").
Proof. vm_compute. repeat split. Qed.

Example other_guards :
  (exists s, guards (bash "cd . && ls") = Refused (RedundantCd s) /\
     cd_suggested s = lit <$> bash "ls") /\
  guards (bash "cat << EOF > notes.txt") = Refused (CatWrite (lit "cat << EOF > notes.txt")) /\
  (exists a, guards (bash "cargo fmt") = Refused (NeedsDryRun a)).
Proof. vm_compute. repeat split; eexists; by repeat split. Qed.

(** Only the first argument of [git checkout] is looked at, so a flag in front of a branch,
    as in a forced checkout, goes unnoticed. *)
Example forced_checkout_goes_on :
  guards (bash "git checkout -f main") = GoesOn (lit <$> bash "git checkout -f main").
Proof. vm_compute. reflexivity. Qed.

(** [else], [!], substitutions, and shells with more flags hide a command. *)
Example hidden_resets_go_on :
  Forall (fun command => guards command = GoesOn (lit <$> command))
    [bash "if true; then ls; else git reset --hard; fi"; bash "! git reset --hard";
     bash "echo $(git reset --hard)"; bash "git --namespace x reset --hard";
     ["bash"; "-l"; "-c"; "git reset --hard"]%string].
Proof. repeat (constructor; [vm_compute; reflexivity|]). constructor. Qed.

(** A redirection in front of the heredoc goes unnoticed. *)
Example redirected_heredoc_goes_on :
  guards (bash "cat > notes.txt << EOF") = GoesOn (lit <$> bash "cat > notes.txt << EOF").
Proof. vm_compute. reflexivity. Qed.

(** Where a file is moved to is not looked at. *)
Definition moving : apply_patch_action :=
  ApplyPatchAction
    {[ path_components (lit "/repo/branch/a") :=
         (lit "/repo/branch/a", UpdateChange [] (Some (lit "/repo/main/a")) []) ]}
    [] (lit "/repo/branch").

Example move_leaves_worktree :
  guard_apply_patch_outside_branch (lit "/repo/branch") moving = None.
Proof. vm_compute. reflexivity. Qed.

Local Notation sample := (Script [Plain (lit "cd"); SingleQuoted (lit "a; b")]
  [(AndThen, [Plain (lit "A=1"); Plain (lit "sudo"); Plain (lit "-n"); Plain (lit "git");
              Plain (lit "-c"); DoubleQuoted (lit "x=y"); Plain (lit "reset"); Plain (lit "--hard")]);
   (Newline, [Plain (lit "ls")])]).


Lemma confirmed_goes_on_witness :
  command_guards split try_join no_parser no_pattern [] new_guard (lit "/repo")
    [lit "bash"; lit "-c"; lit "CONFIRM: git reset"] =
  guard_writes split try_join (lit "/repo") [lit "bash"; lit "-c"; lit "git reset"]
    (GoesOn [lit "bash"; lit "-c"; lit "git reset"]).
Proof.
  exact (confirmed_goes_on split try_join no_parser no_pattern [] new_guard (lit "/repo")
    (lit "bash") (lit "-c") (lit "CONFIRM: git reset") (lit " git reset")
    ltac:(vm_compute; reflexivity) ltac:(vm_compute; reflexivity)
    ltac:(right; left) ltac:(vm_compute; reflexivity)).
Defined.

Lemma branch_patch_inside_witness :
  guard_apply_patch_outside_branch (lit "/repo/branch") moving = None <->
  Forall (fun p => exists n, normalize_absolute p = Some n /\ below_root n /\
                     exists below, n = [RootDir; Normal (lit "repo"); Normal (lit "branch")] ++ below)
    (action_cwd moving :: changed_paths moving).
Proof.
  exact (branch_patch_inside (lit "/repo/branch") moving
    [RootDir; Normal (lit "repo"); Normal (lit "branch")] ltac:(vm_compute; reflexivity)).
Defined.
End GuardsRuns.
